(* ===== verification/_CoqProject ===== *)
-Q . S2P
Prelude.v
BTree.v
Slab.v
OrderBook.v
BookSpec.v
Matching.v
BookProps.v
BookTheorems.v
Bytes.v
Borsh.v
Wal.v
Bincode.v
Processor.v
ProcessorTheorems.v
Service.v
SeqTypes.v
P2pTypes.v
Committee.v
Consensus.v
ConsensusProps.v
ToyCrypto.v
ConsensusTheorems.v
ConsensusRuns.v
Round.v
World.v
NetworkRound.v
Swarm.v
NetworkTheorems.v
Transaction.v
Wire.v
Channels.v
Rollup.v
Files.v
Keystore.v
Json.v
Ffi.v
LockOrder.v
ZkCore.v
Startup.v
Contracts.v
NodeMain.v
Simulator.v
