(* ===== verification/Prelude.v ===== *)
(** * A verification of the Evice ZK-AppChain

    The program is an application chain for trading.  [zkapp/engine] matches
    limit orders, keeps them in a write-ahead log and runs auctions for intents;
    [evice-multi-sequencer] orders batches of payloads among validators over a
    peer-to-peer network; [zkapp/node] puts a gRPC service in front of the
    engine, starts the sequencer and settles resolved intents; [zkapp/common]
    and [zkapp/zk-prover] hold the transactions and the rollup circuit; [zkapp/ffi]
    offers the engine to C, [zkapp/zk-core] holds withdrawal proofs,
    [zkapp/simulator] runs bundles on a fork, and [contracts] is the rollup on the
    first layer.

    ** Files, and what they model

    - [Prelude]: outcomes of Rust code (a value, a panic, no fuel), [u64] and
      [i32] arithmetic under both build profiles, tactics, shared lemmas.
    - [BTree], [Slab]: [BTreeMap] as a sorted association list; the slab crate as
      an interface [SlabOps] with its documented laws [SlabLaws] and a concrete
      slab.
    - [OrderBook] ([engine/src/lib.rs]): the book and its operations
      [place_limit_order], [cancel_order], [get_depth], loop by loop; the tests of
      the source are examples of the file.
    - [BookSpec]: the abstract book, two priority-ordered lists of orders, and the
      matching specification [spec_place].  [Matching]: well-formedness of the
      concrete book and the simulation of the specification by the loops.
      [BookProps]: cancellation, depth, replay, reachability.  [BookTheorems]:
      the book's contract.
    - [Bytes]: bytes and integers in both byte orders.  [Borsh]: borsh's format as
      combinators, each with the law that decoding inverts encoding.
    - [Wal] ([engine/src/wal.rs]): the log as a file and a buffer, each write with
      its fate; the serialiser is the interface [Codec].  [Bincode]: the format of
      bincode's standard configuration, which satisfies it.
    - [Processor] ([engine/src/processor.rs]): the actor; commands, bundles,
      auctions, recovery.  [ProcessorTheorems]: its contract.
    - [Service] ([node/src/main.rs], [settlement.rs]): the gRPC handlers composed
      with the processor, and the settlement task.
    - [SeqTypes] ([evice-multi-sequencer/src/lib.rs], [crypto.rs],
      [consensus/types.rs]): batches, votes, certificates, hashes, signed bytes;
      cryptography is the interface [Crypto].
    - [P2pTypes] ([p2p/types.rs], [genesis.rs]): peer scores, the address book, the
      genesis the node bootstraps.
    - [Committee], [Consensus] ([consensus/engine.rs], [consensus/state.rs]):
      election, quorums and signature checks; the shared state, every handler cut
      into its atomic sections, the driver loop, and [sys_step], which interleaves
      all of them.  [ConsensusProps]: the invariant and its preservation.
      [ConsensusTheorems]: the engine's contract.  [ToyCrypto], [ConsensusRuns]:
      executable stand-ins for the cryptography, four validators and their runs.
      [Round]: runs with the messages they are given, how a round comes to its end
      and where it does not.  [World]: one engine per honest validator and an
      adversarial network between them.  [NetworkRound]: a round of the whole
      network, with a scheduler that runs four validators to rest.
    - [Swarm] ([p2p/swarm.rs]): the network event loop, one function per branch.
      [NetworkTheorems]: the contract of the address book and of the loop.
    - [Transaction] ([common/src/transaction.rs]): payloads, gas, the pool's
      order, signed bytes.
    - [Wire]: the borsh formats that messages and transactions derive, the gossip
      and the filter for duplicates over them, the bridge of [node/src/main.rs].
    - [Channels] ([p2p/swarm.rs], [node/src/main.rs]): the bounded channels and the
      lock of the score table between the network loop, its tasks and the engine.
    - [Rollup] ([zk-prover/src/lib.rs]): the constraints of [IntentRollupAir].
    - [Files]: paths and a file system, every call with the outcome the operating
      system chooses.  [Keystore] ([evice-multi-sequencer/src/keystore.rs]): making,
      opening, saving and loading a validator's encrypted key.
    - [Json]: JSON values and types of messages.  [Ffi] ([ffi/src/lib.rs],
      [error.rs]): the functions a C host calls, the global engine and the heap of
      strings handed out, as a session of calls.
    - [LockOrder]: the lock operations on every path of the engine's handlers and
      of the network's proposal requests, interleaved under tokio's documented
      fairness.
    - [ZkCore] ([zk-core/src/lib.rs], [borsh_helpers.rs]): withdrawal proofs and
      addresses, their encodings, equality and hash.
    - [Startup] ([node/src/main.rs], [settlement.rs], [user-client]): the start
      delay, the network identity, the authority's keys and the wiring of the
      consensus engine; the WebSocket, the settlement calls, the user client.
    - [Contracts] ([contracts/src], [zk-prover/src/bin/generate_verifier.rs]): the
      rollup and its verifier as the EVM runs them, over the interface
      [OpenZeppelin], the generator of the verifier, and the settlement of the node
      on the contract.
    - [NodeMain] ([node/src/main.rs], the start of [p2p/swarm.rs]): all of [main] as
      one program over the file system.
    - [Simulator] ([simulator/src/lib.rs], [alloy_db.rs]): bundles on a fork, over
      the interface [Evm].

    ** What the theorems show

    The numbered claims, in their order.  Order book: on every book a client can
    reach, placing an order terminates without a panic and is exactly the
    price-time specification; books are never crossed; quantities are conserved;
    trades respect limits and owners; cancellation is exact under stated
    conditions.  Processor: recovery from the log restores the book, a crash
    recovers a prefix, a bundle equals its orders, auctions are won by the best
    bid, the actor is total.  Consensus: under every interleaving certificates are
    backed by a quorum, accepted certificates intersect, batches are confirmed
    once, votes are checked and unique; in a network with an adversary the honest
    members of the quorum behind a confirmed batch have voted for it; a delivered
    proposal with a quorum of votes is confirmed under every schedule; a network of
    more honest validators than a quorum comes to rest with every proposed batch
    confirmed everywhere, and with fewer only by its proposer; the engine's locks
    never deadlock, but a proposal request of the network loop can stop the node.
    Network: scores are bounded and the loop total, gossip is faithful, a
    validator's loop and channels never block, but those of a node without an
    engine do.  Keystore and start: a saved key is read back,
    only an authentic one opens, saving is atomic, the network identity is
    persistent, a validator with its keystore and genesis entry boots into the
    initial state of the consensus theorems, but one with the bootstrapped genesis
    stays silent.  Service, C interface, circuit, contracts and the rest: the
    client is told what the specification says, the C interface refines the
    specification, is memory-safe and replies with well-typed messages, accepted
    traces conserve balances, the rollup changes only as authorised but accepts one
    settlement of the node at most, a simulated bundle reports what committing its
    transactions does.

    Theorems without a number complete the components: depth, election,
    proposals, rounds that only advance, duplicates, the address book,
    readiness, proposal lookup, withdrawal proofs, the files [main] may change.
    Some state behaviour that departs from the documentation or from what the
    code means to do: a filled order whose id cancels another, a depth query
    that overflows, an intent resolved twice, a torn log, payloads that are not
    checked, conflicting batches, certificates of mixed rounds, an empty
    bootstrapped validator set, a hash that panics the network loop, order ids
    that are no idempotency keys, slippage that is unconstrained, a keystore
    under a bare file name, an engine that survives its destruction, an unknown
    side that buys, a mempool stream that ends at once.

    ** Choices

    A loop of the source that is not structurally recursive takes fuel, and the
    caller computes it from its input: [match_queue] gets one more than the
    queue's length, [match_loop] two more than the number of levels, [read_loop]
    one more than the file's length; [settle], which runs a network in an
    example, gets 300 steps, and the example checks that it is at rest.  The
    theorems show that the outcome is never [NoFuel].  The environment is
    explicit: clocks, the order in which a hash map is traversed, the fate of a
    write, delivered messages and the scheduling of tasks are arguments or
    choices of a step relation, so a theorem holds for all of them.  Third-party
    code (slab, bincode, sha2, sha3, pqcrypto, schnorrkel, borsh, rand, lru,
    hex, libp2p, Plonky3, scrypt, chacha20poly1305, serde_json, arkworks, revm,
    alloy, OpenZeppelin, tokio's locks and channels) is an interface with the
    documented behaviour as laws; every interface has an instance, so the laws
    can hold. Assumptions on the environment are definitions: [authentic] (no
    forged votes of this node), [unforged] (of any honest one), [fresh_header],
    [vrf_registered], [registered], [counters_ok], [penalty_ok], [log_safe].

    ** Not modelled

    Parsing arguments, setting up the log, binding sockets, configuring libp2p's
    swarm and the servers of gRPC and HTTP are I/O without state of the program.
    [LeafCRH] panics when called and only names a type; the [AsRef], [From],
    [Hash] and [PartialEq] implementations of byte wrappers and the derived
    formats of serde have no content of their own.  A network whose tasks are
    aborted is covered by the safety theorems only: a proposer that the driver
    aborts between its sections leaves a batch it has not voted for, so a round
    need not end. *)

From stdpp Require Export prelude gmap sorting strings.

(** ** Scope and machine integers

    [u64] values are natural numbers [N]; [U64] is the modulus.  An arithmetic
    operation that may leave the range goes through [u64_add], [u64_sub] or
    [u64_mul], whose result depends on the build profile: with overflow checks
    (the debug profile) it panics, without them (the release profile) it wraps.
    The workspace sets no profile of its own, so both are possible; a theorem
    that does not fix the profile holds for both. *)

Declare Scope evice_scope.
Delimit Scope evice_scope with evice.
Open Scope N_scope.
Open Scope evice_scope.

Definition U64 : N := 18446744073709551616.

(** The build profile: [true] when integer overflow panics. *)
Class Profile := overflow_checks : bool.

(** ** Outcomes

    The result of running Rust code: a value, a panic, or no result because the
    fuel given to a loop was used up.  [NoFuel] is a device of the model; the
    totality theorems show that it is never the outcome. *)
Inductive outcome (A : Type) : Type :=
| Done (a : A)
| Panicked
| NoFuel.

Arguments Done {A} a.
Arguments Panicked {A}.
Arguments NoFuel {A}.

#[export] Instance outcome_ret : MRet outcome := @Done.
#[export] Instance outcome_bind : MBind outcome :=
  fun A B f m =>
    match m with
    | Done a => f a
    | Panicked => Panicked
    | NoFuel => NoFuel
    end.

#[export] Instance outcome_fmap : FMap outcome :=
  fun A B f m =>
    match m with
    | Done a => Done (f a)
    | Panicked => Panicked
    | NoFuel => NoFuel
    end.

(** Rust's [Result]. *)
Inductive result (A E : Type) : Type :=
| Ok (a : A)
| Err (e : E).

Arguments Ok {A E} a.
Arguments Err {A E} e.

(** [Option::unwrap] and [Option::expect]. *)
Definition unwrap {A} (o : option A) : outcome A :=
  match o with
  | Some a => Done a
  | None => Panicked
  end.

Definition is_done {A} (o : outcome A) : Prop := ∃ a, o = Done a.

(** The three overflowing operations on [u64]. *)
Definition u64_add `{Profile} (a b : N) : outcome N :=
  if decide (a + b < U64) then Done (a + b)
  else if overflow_checks then Panicked else Done ((a + b) mod U64).

Definition u64_sub `{Profile} (a b : N) : outcome N :=
  if decide (b ≤ a) then Done (a - b)
  else if overflow_checks then Panicked else Done (a + U64 - b).

Definition u64_mul `{Profile} (a b : N) : outcome N :=
  if decide (a * b < U64) then Done (a * b)
  else if overflow_checks then Panicked else Done ((a * b) mod U64).

(** Addition on [i32], on [Z]: out of range it panics or wraps. *)
Definition i32_range (z : Z) : Prop := (-2147483648 ≤ z < 2147483648)%Z.

Definition i32_add `{Profile} (a b : Z) : outcome Z :=
  if decide (-2147483648 ≤ a + b < 2147483648)%Z then Done (a + b)%Z
  else if overflow_checks then Panicked
  else Done ((a + b + 2147483648) mod 4294967296 - 2147483648)%Z.

(** [iter().sum::<u64>()]: a left fold of the addition. *)
Fixpoint u64_sum `{Profile} (acc : N) (l : list N) : outcome N :=
  match l with
  | [] => Done acc
  | x :: l' => acc' ← u64_add acc x; u64_sum acc' l'
  end.

(** [u64::saturating_sub] never overflows; on [N] it is truncated subtraction. *)
Definition saturating_sub (a b : N) : N := a - b.

Definition sum_N (l : list N) : N := foldr N.add 0 l.

(** ** Tactics *)

(** Destructs the scrutinee of a [match] or of a [decide] in the goal or in a
    hypothesis and simplifies what follows. *)
Ltac case_step :=
  first [ case_decide | case_match ]; simplify_eq/=.

Ltac case_steps := repeat (case_step; try done).

(** Splits a conjunction completely and tries to close each part. *)
Ltac split_all tac := repeat match goal with |- _ ∧ _ => split end; tac.

Create HintDb evice.

(** ** Lemmas on outcomes and integers *)

Lemma done_inj {A} (a b : A) : Done a = Done b → a = b.
Proof. by inversion 1. Qed.

(** Identifies the results of two runs of the same computation. *)
Ltac same_run :=
  match goal with
  | H1 : ?x = Done _, H2 : ?x = Done _ |- _ =>
      rewrite H1 in H2; apply done_inj in H2; simplify_eq
  end.

Lemma u64_sub_ok `{Profile} a b : b ≤ a → u64_sub a b = Done (a - b).
Proof. intros. unfold u64_sub. by rewrite decide_True. Qed.

Lemma u64_add_ok `{Profile} a b : a + b < U64 → u64_add a b = Done (a + b).
Proof. intros. unfold u64_add. by rewrite decide_True. Qed.

Lemma u64_mul_ok `{Profile} a b : a * b < U64 → u64_mul a b = Done (a * b).
Proof. intros. unfold u64_mul. by rewrite decide_True. Qed.

Lemma i32_add_ok `{Profile} a b : i32_range (a + b) → i32_add a b = Done (a + b)%Z.
Proof. intros. unfold i32_add. by rewrite decide_True. Qed.

Lemma u64_sum_ok `{Profile} l acc :
  acc + sum_N l < U64 → u64_sum acc l = Done (acc + sum_N l).
Proof.
  revert acc. induction l as [|x l IH]; intros acc Hlt; simpl in *.
  - f_equal. lia.
  - rewrite u64_add_ok by lia. simpl. rewrite IH by lia. f_equal. lia.
Qed.

(** Without overflow checks the sum is exact modulo the word size. *)
Lemma u64_sum_wraps l acc :
  acc < U64 → u64_sum (H := false) acc l = Done ((acc + sum_N l) mod U64).
Proof.
  assert (Hadd : ∀ x y, u64_add (H := false) x y = Done ((x + y) mod U64)).
  { intros x y. unfold u64_add. case_decide; [by rewrite N.mod_small|done]. }
  revert acc. induction l as [|x l IH]; intros acc Hacc; simpl.
  - by rewrite N.add_0_r, N.mod_small.
  - rewrite Hadd. simpl. rewrite IH by (by apply N.mod_lt).
    f_equal. rewrite N.Div0.add_mod_idemp_l. f_equal. lia.
Qed.

Lemma sum_N_app l1 l2 : sum_N (l1 ++ l2) = sum_N l1 + sum_N l2.
Proof. induction l1 as [|x l1 IH]; simpl; [done|]. rewrite IH. lia. Qed.

(** ** Lemmas on lists *)

Section lists.
Context {A B : Type}.
Implicit Types l k : list A.

Lemma omap_ext_in (f g : A → option B) l :
  (∀ x, x ∈ l → f x = g x) → omap f l = omap g l.
Proof.
  induction l as [|x l IH]; intros Hfg; csimpl; [done|].
  rewrite Hfg by set_solver. rewrite IH by set_solver. done.
Qed.

Lemma filter_neq_notin `{EqDecision A} x l : x ∉ l → filter (.≠ x) l = l.
Proof.
  induction l as [|y l IH]; intros Hx; [done|].
  apply not_elem_of_cons in Hx as [??].
  rewrite filter_cons_True by done. by rewrite IH.
Qed.

(** Removing an element of a duplicate-free list cuts the list at it. *)
Lemma filter_neq_split `{EqDecision A} x l :
  NoDup l → x ∈ l →
  ∃ l1 l2, l = l1 ++ x :: l2 ∧ filter (.≠ x) l = (l1 ++ l2) ∧ (x ∉ l1) ∧ (x ∉ l2).
Proof.
  intros Hnd Hin. apply list_elem_of_split in Hin as (l1 & l2 & ->).
  apply NoDup_app in Hnd as (_ & Hdis & Hnd2).
  apply NoDup_cons in Hnd2 as [Hx2 _].
  assert (x ∉ l1) as Hx1 by (intros ?; apply (Hdis x); set_solver).
  exists l1, l2. rewrite filter_app, filter_cons_False by naive_solver.
  by rewrite !filter_neq_notin.
Qed.
End lists.

#[export] Hint Resolve NoDup_nil_2 Forall_nil_2 : evice.
