(* ===== verification/BTree.v ===== *)
(** * Ordered maps

    Rust's [BTreeMap<u64, V>] as the code uses it: a list of entries in
    strictly ascending key order.  [iter()] is the list itself, [iter().rev()]
    its reverse, [iter().next()] its head and [iter().next_back()] its last
    element.  The order book keeps its price levels in two such maps and an
    auction its bids in one. *)

From S2P Require Import Prelude.

Module BTree.

Section ops.
Context {V : Type}.
Implicit Types (m : list (N * V)) (k p : N) (v : V).

Fixpoint get (k : N) (m : list (N * V)) : option V :=
  match m with
  | [] => None
  | (k', v) :: m' => if decide (k = k') then Some v else get k m'
  end.

(** [BTreeMap::insert], which also models a write through [get_mut]. *)
Fixpoint insert (k : N) (v : V) (m : list (N * V)) : list (N * V) :=
  match m with
  | [] => [(k, v)]
  | (k', v') :: m' =>
      if decide (k < k') then (k, v) :: m
      else if decide (k = k') then (k, v) :: m'
      else (k', v') :: insert k v m'
  end.

Definition remove (k : N) (m : list (N * V)) : list (N * V) :=
  filter (λ e, e.1 ≠ k) m.

(** [iter().next()] and [iter().next_back()]. *)
Definition first_entry (m : list (N * V)) : option (N * V) := head m.
Definition last_entry (m : list (N * V)) : option (N * V) := last m.

Definition sorted (m : list (N * V)) : Prop := StronglySorted N.lt m.*1.
End ops.

Section laws.
Context {V : Type}.
Implicit Types (m : list (N * V)) (k p : N) (v : V).

Lemma get_elem k v m : get k m = Some v → (k, v) ∈ m.
Proof.
  induction m as [|[k' v'] m IH]; simpl; intros Hg; [done|].
  case_decide; simplify_eq; set_solver.
Qed.

Lemma get_None_notin k m : get k m = None → k ∉ m.*1.
Proof.
  induction m as [|[k' v'] m IH]; csimpl; intros Hg; [set_solver|].
  case_decide; simplify_eq. set_solver.
Qed.

Lemma get_notin k m : k ∉ m.*1 → get k m = None.
Proof.
  induction m as [|[k' v'] m IH]; csimpl; intros Hg; [done|].
  rewrite decide_False by set_solver. set_solver.
Qed.

Lemma remove_notin k m : k ∉ m.*1 → remove k m = m.
Proof.
  unfold remove. induction m as [|[k' v'] m IH]; csimpl; intros Hg; [done|].
  rewrite filter_cons_True by (simpl; set_solver). rewrite IH; set_solver.
Qed.

Lemma sorted_cons k v m :
  sorted ((k, v) :: m) ↔ Forall (N.lt k) m.*1 ∧ sorted m.
Proof. unfold sorted. csimpl. rewrite StronglySorted_cons. tauto. Qed.

Lemma sorted_app m1 m2 :
  sorted (m1 ++ m2) ↔
    (∀ k1 k2, k1 ∈ m1.*1 → k2 ∈ m2.*1 → k1 < k2) ∧ sorted m1 ∧ sorted m2.
Proof. unfold sorted. rewrite fmap_app. apply StronglySorted_app. Qed.

Lemma sorted_head_lt k v m k' : sorted ((k, v) :: m) → k' ∈ m.*1 → k < k'.
Proof. rewrite sorted_cons, Forall_forall. intros [Hf _] Hin. by apply Hf. Qed.

Lemma sorted_elem_get k v m : sorted m → (k, v) ∈ m → get k m = Some v.
Proof.
  induction m as [|[k' v'] m IH]; intros Hs Hin; [set_solver|]. simpl.
  apply elem_of_cons in Hin as [?|Hin]; simplify_eq; [by rewrite decide_True|].
  assert (k' < k) by (eapply sorted_head_lt; [done|]; apply list_elem_of_fmap; by exists (k, v)).
  rewrite decide_False by lia. apply sorted_cons in Hs as [_ ?]. by apply IH.
Qed.

(** A sorted map cut at a key: what lies below it and what lies above it, with
    the effect of the two updates at that key.  The level updates of the order
    book are all instances of this lemma. *)
Lemma split_at k m :
  sorted m →
  ∃ m1 m2,
    m = m1 ++ (match get k m with Some v => [(k, v)] | None => [] end) ++ m2 ∧
    (∀ k', k' ∈ m1.*1 → k' < k) ∧ (∀ k', k' ∈ m2.*1 → k < k') ∧
    (∀ v, insert k v m = m1 ++ (k, v) :: m2) ∧ remove k m = m1 ++ m2.
Proof.
  induction m as [|[k' v'] m IH]; intros Hs.
  { exists [], []. split_and!; set_solver. }
  pose proof (λ k0, sorted_head_lt k' v' m k0 Hs) as Hlt.
  apply sorted_cons in Hs as [_ Hs]. simpl.
  destruct (decide (k = k')) as [<-|Hne].
  { exists [], m. split_and!; [set_solver|set_solver|exact Hlt| |].
    - intros v. by rewrite decide_False by lia.
    - unfold remove. rewrite filter_cons_False by (simpl; tauto).
      apply remove_notin. intros Hin. specialize (Hlt _ Hin). lia. }
  destruct (decide (k < k')) as [Hk|Hk].
  { assert (k ∉ ((k', v') :: m).*1) as Hnot.
    { csimpl. intros [?|Hin]%elem_of_cons; [done|]. specialize (Hlt _ Hin). lia. }
    exists [], ((k', v') :: m). csimpl.
    rewrite get_notin by set_solver. split_and!; [done|set_solver| |done|].
    - intros k0 [->|Hin]%elem_of_cons; [done|]. specialize (Hlt _ Hin). lia.
    - by apply remove_notin. }
  destruct (IH Hs) as (m1 & m2 & Hm & H1 & H2 & Hi & Hr).
  exists ((k', v') :: m1), m2. csimpl. split_and!; [by f_equal| |done| |].
  - intros k0 [->|Hin]%elem_of_cons; [lia|eauto].
  - intros v. by rewrite Hi.
  - unfold remove in *. rewrite filter_cons_True by (simpl; congruence). by rewrite Hr.
Qed.
Lemma get_insert k k' v m :
  get k' (insert k v m) = if decide (k' = k) then Some v else get k' m.
Proof.
  induction m as [|[k0 v0] m IH]; simpl; [done|].
  repeat (case_decide; simplify_eq/=; try done; try lia).
Qed.

Lemma get_remove k k' m :
  get k' (remove k m) = if decide (k' = k) then None else get k' m.
Proof.
  unfold remove. induction m as [|[k0 v0] m IH]; simpl; [by case_decide|].
  destruct (decide (k0 = k)) as [->|Hne].
  - rewrite filter_cons_False by (simpl; tauto). rewrite IH. by repeat case_decide.
  - rewrite filter_cons_True by done. simpl. rewrite IH.
    by repeat (case_decide; simplify_eq).
Qed.

Lemma elem_of_keys k m : k ∈ m.*1 ↔ is_Some (get k m).
Proof.
  split.
  - intros Hin. destruct (get k m) eqn:Hg; [done|]. by apply get_None_notin in Hg.
  - intros [v Hv%get_elem]. apply list_elem_of_fmap. by exists (k, v).
Qed.
End laws.
End BTree.
