(* ===== verification/Slab.v ===== *)
(** * The slab allocator

    [slab::Slab<T>] is a third-party crate, so it enters the model as an
    interface: the operations the order book calls, and the laws its
    documentation states.  [insert] returns a key that was vacant, [get] and
    [get_mut] answer for occupied keys only, [remove] panics on a vacant key
    ("Panics if key is not associated with a value") and frees the key of an
    occupied one.  Nothing is said about which vacant key [insert] picks: the
    documentation warns that a key "may be returned from future calls to
    insert" once its value is removed.

    [VecSlab] is a concrete slab, the vector of slots with reuse of the first
    vacant one; it shows that the laws can hold and lets the model run. *)

From S2P Require Import Prelude.

Class SlabOps (S A : Type) := {
  slab_new : S;
  slab_get : S → nat → option A;
  slab_insert : S → A → nat * S;
  (** the write made through the reference that [get_mut] returns *)
  slab_set : S → nat → A → S;
  (** [None] is the panic of [Slab::remove] *)
  slab_remove : S → nat → option S;
}.

Class SlabLaws (S A : Type) `{!SlabOps S A} := {
  slab_get_new k : slab_get slab_new k = None;
  slab_insert_vacant s a : slab_get s (slab_insert s a).1 = None;
  slab_get_insert s a k :
    slab_get (slab_insert s a).2 k =
      if decide (k = (slab_insert s a).1) then Some a else slab_get s k;
  slab_get_set s k a b j :
    slab_get s k = Some a →
    slab_get (slab_set s k b) j = if decide (j = k) then Some b else slab_get s j;
  slab_remove_live s k a :
    slab_get s k = Some a →
    ∃ s', slab_remove s k = Some s' ∧
      ∀ j, slab_get s' j = if decide (j = k) then None else slab_get s j;
  slab_remove_vacant s k : slab_get s k = None → slab_remove s k = None;
}.

(** ** A concrete slab *)
Abbreviation VecSlab A := (list (option A)).

Section vec_slab.
Context {A : Type}.

Definition vec_get (s : VecSlab A) (k : nat) : option A := mjoin (s !! k).

Fixpoint vec_insert (s : VecSlab A) (a : A) : nat * VecSlab A :=
  match s with
  | [] => (0%nat, [Some a])
  | None :: s' => (0%nat, Some a :: s')
  | Some b :: s' => let '(k, s'') := vec_insert s' a in (S k, Some b :: s'')
  end.

Definition vec_set (s : VecSlab A) (k : nat) (a : A) : VecSlab A := <[k := Some a]> s.

Definition vec_remove (s : VecSlab A) (k : nat) : option (VecSlab A) :=
  match vec_get s k with
  | Some _ => Some (<[k := None]> s)
  | None => None
  end.

#[export] Instance vec_slab_ops : SlabOps (VecSlab A) A := {|
  slab_new := [];
  slab_get := vec_get;
  slab_insert := vec_insert;
  slab_set := vec_set;
  slab_remove := vec_remove;
|}.

Lemma vec_get_update (s : VecSlab A) (k j : nat) (a : A) o :
  vec_get s k = Some a →
  vec_get (<[k := o]> s) j = if decide (j = k) then o else vec_get s j.
Proof.
  unfold vec_get. intros Hk. destruct (s !! k) as [x|] eqn:Hx; [|done].
  apply lookup_lt_Some in Hx. destruct (decide (j = k)) as [->|Hne].
  - by rewrite list_lookup_insert_eq.
  - by rewrite list_lookup_insert_ne.
Qed.

Lemma vec_insert_spec (s : VecSlab A) (a : A) :
  vec_get s (vec_insert s a).1 = None ∧
  ∀ k, vec_get (vec_insert s a).2 k =
    if decide (k = (vec_insert s a).1) then Some a else vec_get s k.
Proof.
  induction s as [|[b|] s [IH1 IH2]]; simpl.
  - split; [done|]. intros [|k]; done.
  - destruct (vec_insert s a) as [k0 s0]. simpl in *. split; [done|].
    intros [|k]; [done|]. specialize (IH2 k). unfold vec_get in *. simpl.
    rewrite IH2. repeat case_decide; simplify_eq; done.
  - split; [done|]. intros [|k]; done.
Qed.

#[export] Instance vec_slab_laws : SlabLaws (VecSlab A) A.
Proof.
  split; simpl.
  - intros k. unfold vec_get. by rewrite lookup_nil.
  - intros s a. apply vec_insert_spec.
  - intros s a k. apply vec_insert_spec.
  - intros s k a b j Hk. by eapply vec_get_update.
  - intros s k a Hk. unfold vec_remove. rewrite Hk.
    eexists; split; [done|]. intros j. by eapply vec_get_update.
  - intros s k Hk. unfold vec_remove. by rewrite Hk.
Qed.
End vec_slab.
