(* ===== verification/OrderBook.v ===== *)
(** * The limit order book ([zkapp/engine/src/lib.rs])

    Data, operations and invariant of [OrderBook].  The slab allocator is the
    interface of [Slab.v]; the two [BTreeMap]s are those of [BTree.v]; the
    [HashMap] from order ids to slab keys is a [gmap].  A loop of the source is
    a fixpoint with fuel, and [place_limit_order] computes the fuel from the
    book it is given; [Matching.v] proves that it always suffices. *)

From S2P Require Import Prelude BTree Slab.

Inductive Side := Bid | Ask.

#[export] Instance Side_eq_dec : EqDecision Side.
Proof. solve_decision. Defined.

Definition opposite (s : Side) : Side :=
  match s with
  | Bid => Ask
  | Ask => Bid
  end.

Record Order := mkOrder {
  o_id : N;
  o_user_id : N;
  o_price : N;
  o_quantity : N;
  o_side : Side;
  o_timestamp : N;
}.

#[export] Instance Order_eq_dec : EqDecision Order.
Proof. solve_decision. Defined.

Definition set_quantity (o : Order) (q : N) : Order :=
  mkOrder (o_id o) (o_user_id o) (o_price o) q (o_side o) (o_timestamp o).

Inductive EngineEvent :=
| OrderPlaced (id user_id price quantity : N) (side : Side)
| OrderCancelled (id : N)
| TradeExecuted (maker_id taker_id price quantity : N)
| IntentResolved (intent_id winning_solver : string) (winning_amount : N).

#[export] Instance EngineEvent_eq_dec : EqDecision EngineEvent.
Proof. solve_decision. Defined.

Record OrderLevel := mkLevel { l_price : N; l_quantity : N }.

Inductive LogEntry :=
| Place (order_id user_id : N) (side : Side) (price quantity : N)
| Cancel (order_id user_id : N).

#[export] Instance LogEntry_eq_dec : EqDecision LogEntry.
Proof. solve_decision. Defined.

(** A price level's queue of slab keys, oldest first ([VecDeque<usize>]). *)
Abbreviation Levels := (list (N * list nat)).

Record OrderBook (S : Type) := mkBook {
  order_store : S;
  bids : Levels;
  asks : Levels;
  order_index : gmap N nat;
  sequence : N;
}.

Arguments mkBook {S}.
Arguments order_store {S}.
Arguments bids {S}.
Arguments asks {S}.
Arguments order_index {S}.
Arguments sequence {S}.

Section book.
Context {S : Type} `{!SlabOps S Order} `{!Profile}.
Implicit Types (b : OrderBook S) (store : S).

Definition new : OrderBook S := mkBook slab_new [] [] ∅ 0.

Definition with_store b (store : S) : OrderBook S :=
  mkBook store (bids b) (asks b) (order_index b) (sequence b).

Definition with_index b (idx : gmap N nat) : OrderBook S :=
  mkBook (order_store b) (bids b) (asks b) idx (sequence b).

(** The map of price levels of one side, and its replacement. *)
Definition levels (s : Side) b : Levels :=
  match s with
  | Bid => bids b
  | Ask => asks b
  end.

Definition with_levels (s : Side) b (m : Levels) : OrderBook S :=
  match s with
  | Bid => mkBook (order_store b) m (asks b) (order_index b) (sequence b)
  | Ask => mkBook (order_store b) (bids b) m (order_index b) (sequence b)
  end.

(** The best level a taker of side [side] can meet: the lowest ask for a bid,
    the highest bid for an ask. *)
Definition best_match (side : Side) b : option (N * list nat) :=
  match side with
  | Bid => BTree.first_entry (asks b)
  | Ask => BTree.last_entry (bids b)
  end.

Definition is_matchable (side : Side) (best_price price : N) : bool :=
  match side with
  | Bid => bool_decide (best_price ≤ price)
  | Ask => bool_decide (price ≤ best_price)
  end.

(** The inner [while let Some(&maker_idx) = order_queue.front()] loop. *)
Fixpoint match_queue (order_id user_id best_price : N) (fuel : nat)
    (store : S) (queue : list nat) (quantity : N) (events : list EngineEvent)
    : outcome (S * list nat * N * list EngineEvent) :=
  match fuel with
  | O => NoFuel
  | Datatypes.S fuel =>
    match queue with
    | [] => Done (store, queue, quantity, events)
    | maker_idx :: popped =>
      maker ← unwrap (slab_get store maker_idx);
      if decide (o_user_id maker = user_id) then
        store ← unwrap (slab_remove store maker_idx);
        match_queue order_id user_id best_price fuel store popped quantity
          (events ++ [OrderCancelled (o_id maker)])
      else
        let trade_qty := N.min quantity (o_quantity maker) in
        let events := events ++ [TradeExecuted (o_id maker) order_id best_price trade_qty] in
        quantity ← u64_sub quantity trade_qty;
        maker_qty ← u64_sub (o_quantity maker) trade_qty;
        let store := slab_set store maker_idx (set_quantity maker maker_qty) in
        '(queue, store) ←
          (if decide (maker_qty = 0) then
             store ← unwrap (slab_remove store maker_idx);
             Done (popped, store)
           else Done (queue, store));
        if decide (quantity = 0) then Done (store, queue, quantity, events)
        else match_queue order_id user_id best_price fuel store queue quantity events
    end
  end.

(** The outer taker loop. *)
Fixpoint match_loop (order_id user_id : N) (side : Side) (price : N) (fuel : nat)
    (b : OrderBook S) (quantity : N) (events : list EngineEvent)
    : outcome (OrderBook S * N * list EngineEvent) :=
  match fuel with
  | O => NoFuel
  | Datatypes.S fuel =>
    if decide (quantity = 0) then Done (b, quantity, events)
    else
      match best_match side b with
      | None => Done (b, quantity, events)
      | Some (best_price, order_queue) =>
        if is_matchable side best_price price then
          '(store, order_queue, quantity, events) ←
            match_queue order_id user_id best_price (Datatypes.S (length order_queue))
              (order_store b) order_queue quantity events;
          let maker_side := opposite side in
          let b := with_store b store in
          let b := with_levels maker_side b
                     (BTree.insert best_price order_queue (levels maker_side b)) in
          let b := (match order_queue with
                    | [] => with_levels maker_side b
                              (BTree.remove best_price (levels maker_side b))
                    | _ :: _ => b
                    end) in
          match_loop order_id user_id side price fuel b quantity events
        else Done (b, quantity, events)
      end
  end.

(** The maker phase: what is left of the order rests in the book. *)
Definition rest_order (order_id user_id : N) (side : Side) (price quantity : N)
    (b : OrderBook S) : OrderBook S :=
  let new_order := mkOrder order_id user_id price quantity side 0 in
  let '(idx, store) := slab_insert (order_store b) new_order in
  let b := with_store b store in
  let b := with_index b (<[order_id := idx]> (order_index b)) in
  let queue := default [] (BTree.get price (levels side b)) in
  with_levels side b (BTree.insert price (queue ++ [idx]) (levels side b)).

Definition place_limit_order (b : OrderBook S) (order_id user_id : N) (side : Side)
    (price quantity : N) : outcome (OrderBook S * list EngineEvent) :=
  let fuel := Datatypes.S (Datatypes.S (length (levels (opposite side) b))) in
  '(b, quantity, events) ← match_loop order_id user_id side price fuel b quantity [];
  if decide (0 < quantity) then
    Done (rest_order order_id user_id side price quantity b,
          events ++ [OrderPlaced order_id user_id price quantity side])
  else Done (b, events).

Definition cancel_order (b : OrderBook S) (order_id user_id : N)
    : outcome (OrderBook S * list EngineEvent) :=
  match order_index b !! order_id with
  | None => Done (b, [])
  | Some internal_idx =>
    match slab_get (order_store b) internal_idx with
    | None => Done (b, [])
    | Some order =>
      if decide (o_user_id order ≠ user_id) then Done (b, [])
      else
        let price := o_price order in
        let side := o_side order in
        let b :=
          match BTree.get price (levels side b) with
          | None => b
          | Some q =>
            let q := filter (.≠ internal_idx) q in
            let b := with_levels side b (BTree.insert price q (levels side b)) in
            match q with
            | [] => with_levels side b (BTree.remove price (levels side b))
            | _ :: _ => b
            end
          end in
        let b := with_index b (delete order_id (order_index b)) in
        store ← unwrap (slab_remove (order_store b) internal_idx);
        Done (with_store b store, [OrderCancelled order_id])
    end
  end.

(** One level of the market depth: the sum over the queue, vacant keys counting
    zero. *)
Definition depth_level (store : S) (e : N * list nat) : outcome OrderLevel :=
  let quantities := (λ idx, default 0 (o_quantity <$> slab_get store idx)) <$> e.2 in
  total_qty ← u64_sum 0 quantities;
  Done (mkLevel e.1 total_qty).

Fixpoint depth_levels (store : S) (m : Levels) : outcome (list OrderLevel) :=
  match m with
  | [] => Done []
  | e :: m => l ← depth_level store e; ls ← depth_levels store m; Done (l :: ls)
  end.

(** [(asks, bids)]: the asks from the cheapest up, the bids from the dearest
    down. *)
Definition get_depth (b : OrderBook S) (limit : nat)
    : outcome (list OrderLevel * list OrderLevel) :=
  depth_asks ← depth_levels (order_store b) (take limit (asks b));
  depth_bids ← depth_levels (order_store b) (take limit (reverse (bids b)));
  Done (depth_asks, depth_bids).
End book.

(** ** The tests of the source, run on the model *)
Section tests.
#[local] Instance debug : Profile := true.
Local Abbreviation Book := (OrderBook (VecSlab Order)).

Definition run_places (b : Book) (l : list (N * N * Side * N * N))
    : outcome (Book * list EngineEvent) :=
  foldl (λ st '(oid, uid, s, p, q),
    '(b, evs) ← st; '(b, evs') ← place_limit_order b oid uid s p q; Done (b, evs ++ evs'))
    (Done (b, [])) l.

Definition test_new : Book := new.

Example test_limit_order_placement_no_match :
  snd <$> run_places test_new [(1, 1, Bid, 100, 10)]
  = Done [OrderPlaced 1 1 100 10 Bid].
Proof. vm_compute. reflexivity. Qed.

Example test_full_match_execution :
  snd <$> run_places test_new [(1, 1, Ask, 100, 10); (2, 2, Bid, 100, 10)]
  = Done [OrderPlaced 1 1 100 10 Ask; TradeExecuted 1 2 100 10].
Proof. vm_compute. reflexivity. Qed.

Example test_partial_match :
  snd <$> run_places test_new [(1, 1, Ask, 100, 20); (2, 2, Bid, 100, 10)]
  = Done [OrderPlaced 1 1 100 20 Ask; TradeExecuted 1 2 100 10].
Proof. vm_compute. reflexivity. Qed.

Example test_self_trade_prevention_cancel_maker :
  snd <$> run_places test_new [(100, 1, Ask, 100, 10); (200, 1, Bid, 100, 10)]
  = Done [OrderPlaced 100 1 100 10 Ask; OrderCancelled 100; OrderPlaced 200 1 100 10 Bid].
Proof. vm_compute. reflexivity. Qed.
End tests.
