(* ===== verification/BookSpec.v ===== *)
(** * Abstract specification of the order book

    What a price-time-priority book promises, without slab keys, queues or
    maps: each side is the list of its resting orders, best first.  [Matching.v]
    proves that the operations of [OrderBook.v] implement these definitions, and
    the properties of this file then hold of the code. *)

From S2P Require Import Prelude BTree Slab OrderBook.

(** The two sides of the market, each from the best order to the worst. *)
Record BookView := mkView { v_bids : list Order; v_asks : list Order }.

Definition view_side (s : Side) (v : BookView) : list Order :=
  match s with
  | Bid => v_bids v
  | Ask => v_asks v
  end.

Definition set_view_side (s : Side) (v : BookView) (l : list Order) : BookView :=
  match s with
  | Bid => mkView l (v_asks v)
  | Ask => mkView (v_bids v) l
  end.

(** [better s p p']: on side [s] the price [p] has priority over [p']. *)
Definition better (s : Side) (p p' : N) : Prop :=
  match s with
  | Ask => p < p'
  | Bid => p' < p
  end.

#[export] Instance better_dec s p p' : Decision (better s p p').
Proof. destruct s; simpl; apply _. Defined.

Section spec.
Context (order_id user_id : N) (side : Side) (price : N).

(** A taker walks the opposite side from its best order: it cancels its own
    orders, trades with the others, and stops when it is filled, when nothing
    is left or when the best price is beyond its limit. *)
Fixpoint spec_match (makers : list Order) (quantity : N)
    : list Order * N * list EngineEvent :=
  match makers with
  | [] => ([], quantity, [])
  | o :: rest =>
    if decide (quantity = 0) then (makers, quantity, [])
    else if is_matchable side (o_price o) price then
      if decide (o_user_id o = user_id) then
        let '(rest', q, evs) := spec_match rest quantity in
        (rest', q, OrderCancelled (o_id o) :: evs)
      else
        let x := N.min quantity (o_quantity o) in
        let ev := TradeExecuted (o_id o) order_id (o_price o) x in
        if decide (o_quantity o = x) then
          let '(rest', q, evs) := spec_match rest (quantity - x) in
          (rest', q, ev :: evs)
        else (set_quantity o (o_quantity o - x) :: rest, quantity - x, [ev])
    else (makers, quantity, [])
  end.

(** A new order goes behind every order of at least its priority. *)
Fixpoint spec_insert (s : Side) (o : Order) (l : list Order) : list Order :=
  match l with
  | [] => [o]
  | x :: l' =>
    if decide (better s (o_price o) (o_price x)) then o :: l
    else x :: spec_insert s o l'
  end.

Definition spec_place (v : BookView) (quantity : N) : BookView * list EngineEvent :=
  let '(makers, q, evs) := spec_match (view_side (opposite side) v) quantity in
  let v := set_view_side (opposite side) v makers in
  if decide (0 < q) then
    let o := mkOrder order_id user_id price q side 0 in
    (set_view_side side v (spec_insert side o (view_side side v)),
     evs ++ [OrderPlaced order_id user_id price q side])
  else (v, evs).
End spec.

(** Cancelling removes the order with the given id. *)
Definition spec_cancel (order_id : N) (l : list Order) : list Order :=
  filter (λ o, o_id o ≠ order_id) l.

(** ** Readings of an event list *)

Definition trade_qty (e : EngineEvent) : N :=
  match e with
  | TradeExecuted _ _ _ x => x
  | _ => 0
  end.

Definition placed_qty (e : EngineEvent) : N :=
  match e with
  | OrderPlaced _ _ _ x _ => x
  | _ => 0
  end.

(** The quantity traded and the quantity placed by a list of events. *)
Definition traded (evs : list EngineEvent) : N := sum_N (trade_qty <$> evs).
Definition placed (evs : list EngineEvent) : N := sum_N (placed_qty <$> evs).

(** The resting order a trade or a self-trade cancellation is about. *)
Definition maker_of (e : EngineEvent) : option N :=
  match e with
  | TradeExecuted m _ _ _ => Some m
  | OrderCancelled m => Some m
  | _ => None
  end.

Definition volume (l : list Order) : N := sum_N (o_quantity <$> l).

(** ** Properties of the specification *)

Section spec_match_facts.
Context (order_id user_id : N) (side : Side) (price : N).
Local Abbreviation smatch := (spec_match order_id user_id side price).
Implicit Types (l : list Order) (q : N).

Lemma spec_match_zero l : smatch l 0 = (l, 0, []).
Proof. by destruct l. Qed.

(** The induction every property below follows. *)
Lemma spec_match_ind (P : list Order → N → list Order * N * list EngineEvent → Prop) :
  (∀ q, P [] q ([], q, [])) →
  (∀ o l, P (o :: l) 0 (o :: l, 0, [])) →
  (∀ o l q, q ≠ 0 → is_matchable side (o_price o) price = false →
     P (o :: l) q (o :: l, q, [])) →
  (∀ o l q l' q' evs, q ≠ 0 → is_matchable side (o_price o) price = true →
     o_user_id o = user_id → smatch l q = (l', q', evs) → P l q (l', q', evs) →
     P (o :: l) q (l', q', OrderCancelled (o_id o) :: evs)) →
  (∀ o l q l' q' evs, q ≠ 0 → is_matchable side (o_price o) price = true →
     o_user_id o ≠ user_id → o_quantity o ≤ q →
     smatch l (q - o_quantity o) = (l', q', evs) → P l (q - o_quantity o) (l', q', evs) →
     P (o :: l) q
       (l', q', TradeExecuted (o_id o) order_id (o_price o) (o_quantity o) :: evs)) →
  (∀ o l q, q ≠ 0 → is_matchable side (o_price o) price = true →
     o_user_id o ≠ user_id → q < o_quantity o →
     P (o :: l) q (set_quantity o (o_quantity o - q) :: l, 0,
                   [TradeExecuted (o_id o) order_id (o_price o) q])) →
  ∀ l q, P l q (smatch l q).
Proof.
  intros H1 H2 H3 H4 H5 H6 l. induction l as [|o l IH]; intros q; simpl; [done|].
  destruct (decide (q = 0)) as [->|Hq]; [done|].
  destruct (is_matchable side (o_price o) price) eqn:Hm; [|by auto].
  destruct (decide (o_user_id o = user_id)) as [Hu|Hu].
  - destruct (smatch l q) as [[l' q'] evs] eqn:Hs. apply H4; try done.
    rewrite <-Hs. apply IH.
  - destruct (decide (o_quantity o = N.min q (o_quantity o))) as [Hx|Hx].
    + rewrite <-Hx. destruct (smatch l (q - o_quantity o)) as [[l' q'] evs] eqn:Hs.
      apply H5; try done; [lia|]. rewrite <-Hs. apply IH.
    + replace (N.min q (o_quantity o)) with q by lia.
      replace (q - q) with 0 by lia. apply H6; try done. lia.
Qed.

Ltac spec_induction :=
  match goal with
  | |- context [smatch ?l ?q] =>
      pattern l, q, (smatch l q); apply spec_match_ind; clear l q;
      [ intros q | intros o l | intros o l q Hq Hm
      | intros o l q l' q' evs Hq Hm Hu Hs IH
      | intros o l q l' q' evs Hq Hm Hu Hle Hs IH
      | intros o l q Hq Hm Hu Hlt ]; csimpl in *
  end.

(** No quantity is created or lost by the taker. *)
Lemma spec_match_conserves l q : q = traded (smatch l q).2 + (smatch l q).1.2.
Proof. unfold traded. spec_induction; lia. Qed.

(** The makers' volume decreases by exactly what was traded, when none of them
    belongs to the taker. *)
Lemma spec_match_volume l q :
  (∀ o, o ∈ l → o_user_id o ≠ user_id) →
  volume l = volume (smatch l q).1.1 + traded (smatch l q).2.
Proof.
  unfold traded, volume. spec_induction; intros Hall; try lia.
  - destruct (Hall o); [set_solver|done].
  - rewrite IH by set_solver. lia.
Qed.

(** Every trade is with another user's resting order, at that order's price,
    which is within the taker's limit. *)
Lemma spec_match_trade l q m t p x :
  TradeExecuted m t p x ∈ (smatch l q).2 →
  t = order_id ∧ is_matchable side p price = true ∧ x ≤ q ∧
  ∃ o, o ∈ l ∧ o_id o = m ∧ o_price o = p ∧ o_user_id o ≠ user_id ∧ x ≤ o_quantity o.
Proof.
  spec_induction; intros Hin; try (by apply elem_of_nil in Hin).
  - apply elem_of_cons in Hin as [?|Hin]; [done|].
    destruct (IH Hin) as (-> & ? & ? & o' & ? & ?). split_and!; try done. exists o'. set_solver.
  - apply elem_of_cons in Hin as [?|Hin]; simplify_eq.
    + split_and!; try done. exists o. set_solver.
    + destruct (IH Hin) as (-> & ? & ? & o' & ? & ?).
      split_and!; try done; [lia|]. exists o'. set_solver.
  - apply list_elem_of_singleton in Hin. simplify_eq. split_and!; try done.
    exists o. split_and!; [set_solver|done..|lia].
Qed.

(** Strict price-time priority: the events are about the first orders of the
    list, one event each, in order. *)
Lemma spec_match_priority l q :
  maker_of <$> (smatch l q).2 = (Some ∘ o_id) <$> take (length (smatch l q).2) l.
Proof. spec_induction; try done; by f_equal. Qed.

(** What remains is what was behind, the first of it possibly reduced. *)
Lemma spec_match_remaining l q :
  let '(l', q', evs) := smatch l q in
  l' = drop (length evs) l ∨
  ∃ done o rest, l = done ++ o :: rest ∧ length evs = S (length done) ∧ q' = 0 ∧
    ∃ x, 0 < x < o_quantity o ∧ l' = set_quantity o x :: rest.
Proof.
  spec_induction; try (by left).
  - destruct IH as [?|(d & o' & r & -> & ? & ? & ?)]; [by left|right].
    exists (o :: d), o', r. csimpl. eauto with lia.
  - destruct IH as [?|(d & o' & r & -> & ? & ? & ?)]; [by left|right].
    exists (o :: d), o', r. csimpl. eauto with lia.
  - right. exists [], o, l. split_and!; try done.
    exists (o_quantity o - q). split; [lia|done].
Qed.

(** A taker with something left to trade meets no matchable order any more. *)
Lemma spec_match_exhausts l q :
  (smatch l q).1.2 = 0 ∨ (smatch l q).1.1 = [] ∨
  ∃ o rest, (smatch l q).1.1 = o :: rest ∧ is_matchable side (o_price o) price = false.
Proof. spec_induction; eauto 6. Qed.

(** Properties of the makers that do not depend on the quantity are inherited
    by what remains. *)
Lemma spec_match_Forall (P : Order → Prop) l q :
  (∀ o x, 0 < x < o_quantity o → P o → P (set_quantity o x)) →
  Forall P l → Forall P (smatch l q).1.1.
Proof.
  intros HP. spec_induction; intros Hl; decompose_Forall_hyps; auto.
  constructor; [|done]. apply HP; [lia|done].
Qed.

Lemma spec_match_events_quantity l q :
  Forall (λ o, 0 < o_quantity o) l → Forall (λ e, maker_of e ≠ None ∧
    (∀ m t p x, e = TradeExecuted m t p x → 0 < x)) (smatch l q).2.
Proof.
  spec_induction; intros Hl; decompose_Forall_hyps; auto;
    repeat constructor; naive_solver lia.
Qed.
End spec_match_facts.

Section spec_insert_facts.
Implicit Types (s : Side) (l : list Order).

Lemma spec_insert_app_l s o l1 l2 :
  Forall (λ x, ¬ better s (o_price o) (o_price x)) l1 →
  spec_insert s o (l1 ++ l2) = l1 ++ spec_insert s o l2.
Proof.
  induction 1 as [|x l1 Hx _ IH]; simpl; [done|].
  rewrite decide_False by done. by rewrite IH.
Qed.

Lemma spec_insert_worse s o l :
  Forall (λ x, better s (o_price o) (o_price x)) l → spec_insert s o l = o :: l.
Proof. destruct 1; simpl; [done|]. by rewrite decide_True. Qed.

Lemma spec_insert_perm s o l : spec_insert s o l ≡ₚ o :: l.
Proof.
  induction l as [|x l IH]; simpl; [done|]. case_decide; [done|].
  rewrite IH. apply Permutation_swap.
Qed.
End spec_insert_facts.
