(* ===== verification/Matching.v ===== *)
(** * The order book implements its specification

    The invariant [wf] of [OrderBook], the abstraction [view] to the
    specification of [BookSpec.v], and the refinement: on a well-formed book
    [place_limit_order] always returns (no stale slab key, no arithmetic
    overflow, enough fuel), returns what [spec_place] says, and leaves a
    well-formed book. *)

From S2P Require Import Prelude BTree Slab OrderBook BookSpec.

(** ** Price levels in priority order *)

Definition priority {V} (s : Side) (m : list (N * V)) : list (N * V) :=
  match s with
  | Ask => m
  | Bid => reverse m
  end.

Lemma elem_of_priority {V} s (m : list (N * V)) e : e ∈ priority s m ↔ e ∈ m.
Proof. destruct s; simpl; [|done]. apply elem_of_reverse. Qed.

(** Cutting a side at a price: the levels with priority over it, the level
    itself and the levels behind it, with the effect of the two updates. *)
Lemma priority_split {V} s p (m : list (N * V)) :
  BTree.sorted m →
  ∃ l1 l2,
    priority s m = l1 ++ (match BTree.get p m with Some v => [(p, v)] | None => [] end) ++ l2 ∧
    (∀ p', p' ∈ l1.*1 → better s p' p) ∧ (∀ p', p' ∈ l2.*1 → better s p p') ∧
    (∀ v, priority s (BTree.insert p v m) = l1 ++ (p, v) :: l2) ∧
    (∀ v, BTree.remove p (BTree.insert p v m) = BTree.remove p m) ∧
    priority s (BTree.remove p m) = l1 ++ l2.
Proof.
  intros Hs. destruct (BTree.split_at p m Hs) as (m1 & m2 & Hm & H1 & H2 & Hi & Hr).
  assert (∀ v, BTree.remove p (BTree.insert p v m) = BTree.remove p m) as Hri.
  { intros v. rewrite Hi, Hr. unfold BTree.remove.
    rewrite filter_app, filter_cons_False by (simpl; tauto).
    f_equal; apply BTree.remove_notin; intros Hin; [apply H1 in Hin|apply H2 in Hin]; lia. }
  destruct s.
  - exists (reverse m2), (reverse m1). simpl.
    assert (∀ (l : list (N * V)) k, k ∈ (reverse l).*1 ↔ k ∈ l.*1) as Hrev.
    { intros l k. rewrite fmap_reverse. apply elem_of_reverse. }
    split_and!.
    + rewrite Hm at 1. rewrite !reverse_app. destruct (BTree.get p m); simpl;
        by rewrite <-?app_assoc.
    + intros p' Hp. apply H2. by apply Hrev.
    + intros p' Hp. apply H1. by apply Hrev.
    + intros v. rewrite Hi, reverse_app, reverse_cons. by rewrite <-app_assoc.
    + done.
    + by rewrite Hr, reverse_app.
  - exists m1, m2. split_and!; done.
Qed.

Lemma better_irrefl s p : ¬ better s p p.
Proof. destruct s; simpl; lia. Qed.

Lemma better_asym s p p' : better s p p' → ¬ better s p' p.
Proof. destruct s; simpl; lia. Qed.

(** The same at the best price: there is nothing above it. *)
Lemma priority_split_head {V} s p (v : V) m rest :
  BTree.sorted m → priority s m = (p, v) :: rest →
  BTree.get p m = Some v ∧ (∀ p', p' ∈ rest.*1 → better s p p') ∧
  (∀ w, priority s (BTree.insert p w m) = (p, w) :: rest) ∧
  (∀ w, BTree.remove p (BTree.insert p w m) = BTree.remove p m) ∧
  priority s (BTree.remove p m) = rest.
Proof.
  intros Hs Hp.
  assert (BTree.get p m = Some v) as Hg.
  { apply BTree.sorted_elem_get; [done|]. apply (elem_of_priority s). rewrite Hp. set_solver. }
  destruct (priority_split s p m Hs) as (l1 & l2 & Hm & H1 & H2 & Hi & Hri & Hr).
  rewrite Hg in Hm. rewrite Hp in Hm.
  destruct l1 as [|[p1 v1] l1]; simplify_eq/=; [done|].
  destruct (better_irrefl s p1). apply H1. set_solver.
Qed.

Lemma BTree_sorted_insert {V} p (v : V) m : BTree.sorted m → BTree.sorted (BTree.insert p v m).
Proof.
  intros Hs. destruct (BTree.split_at p m Hs) as (m1 & m2 & Hm & H1 & H2 & Hi & _).
  rewrite Hi. rewrite Hm in Hs. apply BTree.sorted_app in Hs as (H12 & Hs1 & Hs2).
  apply BTree.sorted_app in Hs2 as (_ & _ & Hs2).
  apply BTree.sorted_app. split_and!; [|done|apply BTree.sorted_cons; split; [|done]].
  - csimpl. intros k1 k2 Hk1 [->|Hk2]%elem_of_cons; [by apply H1|].
    specialize (H1 _ Hk1). specialize (H2 _ Hk2). lia.
  - by apply Forall_forall.
Qed.

Lemma BTree_sorted_remove {V} p (m : list (N * V)) : BTree.sorted m → BTree.sorted (BTree.remove p m).
Proof.
  intros Hs. destruct (BTree.split_at p m Hs) as (m1 & m2 & Hm & _ & _ & _ & Hr).
  rewrite Hr. rewrite Hm in Hs. apply BTree.sorted_app in Hs as (H12 & Hs1 & Hs2).
  apply BTree.sorted_app in Hs2 as (_ & _ & Hs2).
  apply BTree.sorted_app. split_and!; try done. intros k1 k2 Hk1 Hk2. apply H12; [done|].
  rewrite fmap_app. set_solver.
Qed.

#[export] Hint Resolve BTree_sorted_insert BTree_sorted_remove : evice.

Section refinement.
Context {S : Type} `{!SlabOps S Order} `{!SlabLaws S Order} `{!Profile}.
Implicit Types (b : OrderBook S) (store : S) (s : Side) (p : N) (i : nat).

(** ** Abstraction *)

Definition orders_of store (q : list nat) : list Order := omap (slab_get store) q.

Definition flat store (ls : Levels) : list Order := ls ≫= (λ e, orders_of store e.2).

Definition view b : BookView :=
  mkView (flat (order_store b) (priority Bid (bids b)))
         (flat (order_store b) (priority Ask (asks b))).

(** ** Invariant *)

(** The key [i] is live and holds an order of side [s] resting at price [p]. *)
Definition rests store s p i : Prop :=
  ∃ o, slab_get store i = Some o ∧ o_price o = p ∧ o_side o = s ∧ 0 < o_quantity o < U64.

Definition queue_ok store s p (q : list nat) : Prop :=
  NoDup q ∧ ∀ i, i ∈ q → rests store s p i.

Definition level_ok store s (e : N * list nat) : Prop :=
  e.2 ≠ [] ∧ queue_ok store s e.1 e.2.

Definition side_ok store s (m : Levels) : Prop :=
  BTree.sorted m ∧ Forall (level_ok store s) m.

(** Every live order is queued at its price. *)
Definition covered b : Prop :=
  ∀ i o, slab_get (order_store b) i = Some o →
    ∃ q, BTree.get (o_price o) (levels (o_side o) b) = Some q ∧ i ∈ q.

Definition uncrossed b : Prop :=
  ∀ p p', p ∈ (bids b).*1 → p' ∈ (asks b).*1 → p < p'.

Record wf b : Prop := {
  wf_side s : side_ok (order_store b) s (levels s b);
  wf_covered : covered b;
  wf_uncrossed : uncrossed b;
}.

Lemma wf_new : wf new.
Proof.
  split.
  - intros []; (split; [constructor|constructor]).
  - intros i o. simpl. by rewrite slab_get_new.
  - intros p p'. simpl. set_solver.
Qed.

(** ** Framing: an update of one level leaves the others alone *)

Lemma rests_get store store' s p i :
  rests store s p i → slab_get store' i = slab_get store i → rests store' s p i.
Proof. intros (o & Ho & ?) Heq. exists o. by rewrite Heq. Qed.

Lemma rests_inj store s p s' p' i : rests store s p i → rests store s' p' i → s = s' ∧ p = p'.
Proof. intros (o & ? & ? & ? & _) (o' & ? & ? & ? & _). naive_solver. Qed.

Lemma orders_of_ext store store' q :
  (∀ i, i ∈ q → slab_get store' i = slab_get store i) → orders_of store' q = orders_of store q.
Proof. apply omap_ext_in. Qed.

(** Only keys resting at [(s, p)] may have changed. *)
Definition only_at s p store store' : Prop :=
  ∀ s' p' i, (s', p') ≠ (s, p) → rests store s' p' i → slab_get store' i = slab_get store i.

Lemma level_frame s p store store' s' e :
  only_at s p store store' → (s', e.1) ≠ (s, p) → level_ok store s' e →
  level_ok store' s' e ∧ orders_of store' e.2 = orders_of store e.2.
Proof.
  intros Honly Hne (Hq & Hnd & Hr). unfold level_ok, queue_ok. split_and!; try done.
  - intros i Hi. eapply rests_get; [by apply Hr|]. eapply Honly; [done|]. by apply Hr.
  - apply orders_of_ext. intros i Hi. eapply Honly; [done|]. by apply Hr.
Qed.

Lemma levels_frame s p store store' s' (ls : Levels) :
  only_at s p store store' → (∀ e, e ∈ ls → (s', e.1) ≠ (s, p)) →
  Forall (level_ok store s') ls →
  Forall (level_ok store' s') ls ∧ flat store' ls = flat store ls.
Proof.
  intros Honly Hne. induction 1 as [|e ls He _ IH]; [done|].
  destruct (level_frame s p store store' s' e) as [He' Ho]; [done|set_solver|done|].
  destruct IH as [IH1 IH2]; [set_solver|]. split; [by constructor|].
  unfold flat in *. csimpl. by rewrite Ho, IH2.
Qed.

Lemma flat_app store (l1 l2 : Levels) : flat store (l1 ++ l2) = flat store l1 ++ flat store l2.
Proof. apply bind_app. Qed.

Lemma flat_cons store e (l : Levels) : flat store (e :: l) = orders_of store e.2 ++ flat store l.
Proof. done. Qed.

Lemma orders_of_nonempty store s p q i :
  queue_ok store s p (i :: q) → ∃ o, orders_of store (i :: q) = o :: orders_of store q ∧
    slab_get store i = Some o ∧ o_price o = p ∧ o_side o = s ∧ 0 < o_quantity o < U64.
Proof.
  intros [_ Hr]. destruct (Hr i) as (o & Ho & ?); [set_solver|]. exists o.
  split; [|done]. unfold orders_of. csimpl. by rewrite Ho.
Qed.

Lemma queue_ok_tail store s p i q : queue_ok store s p (i :: q) → queue_ok store s p q ∧ i ∉ q.
Proof. intros [[? ?]%NoDup_cons Hr]. split; [|done]. split; [done|]. set_solver. Qed.

Lemma queue_ok_ext store store' s p q :
  (∀ i, i ∈ q → slab_get store' i = slab_get store i) →
  queue_ok store s p q → queue_ok store' s p q.
Proof. intros Heq [? Hr]. split; [done|]. intros i Hi. eapply rests_get; eauto. Qed.

(** Orders survive matching with nothing but their quantity changed. *)
Definition descends store store' : Prop :=
  ∀ i o', slab_get store' i = Some o' →
    ∃ o, slab_get store i = Some o ∧ o' = set_quantity o (o_quantity o').

Lemma set_quantity_id o : set_quantity o (o_quantity o) = o.
Proof. by destruct o. Qed.

Lemma descends_refl store : descends store store.
Proof. intros i o' Ho. exists o'. by rewrite set_quantity_id. Qed.

Lemma descends_trans store1 store2 store3 :
  descends store1 store2 → descends store2 store3 → descends store1 store3.
Proof.
  intros H12 H23 i o3 Ho3. destruct (H23 _ _ Ho3) as (o2 & Ho2 & ->).
  destruct (H12 _ _ Ho2) as (o1 & Ho1 & ->). by exists o1.
Qed.

(** Freeing a key, or lowering the quantity of the order it holds. *)
Lemma descends_remove store store' i :
  (∀ j, slab_get store' j = if decide (j = i) then None else slab_get store j) →
  descends store store'.
Proof.
  intros Hget j o' Ho'. rewrite Hget in Ho'. case_decide; [done|].
  exists o'. by rewrite set_quantity_id.
Qed.

Lemma descends_set store i o x :
  slab_get store i = Some o → descends store (slab_set store i (set_quantity o x)).
Proof.
  intros Ho j o' Ho'. erewrite slab_get_set in Ho' by done. case_decide; simplify_eq.
  - by exists o.
  - exists o'. by rewrite set_quantity_id.
Qed.

(** ** The inner loop *)

(** What one run of the inner loop on the queue [q] achieves. *)
Record queue_step (order_id user_id : N) side price s p store q qty store' q' qty'
    (evs : list EngineEvent) : Prop := {
  qs_ok : queue_ok store' s p q';
  qs_sub i : i ∈ q' → i ∈ q;
  qs_frame i : i ∉ q → slab_get store' i = slab_get store i;
  qs_gone i : i ∈ q → i ∉ q' → slab_get store' i = None;
  qs_end : q' = [] ∨ qty' = 0;
  qs_descends : descends store store';
  qs_spec rest :
    spec_match order_id user_id side price (orders_of store q ++ rest) qty =
    let '(l, x, evs') := spec_match order_id user_id side price (orders_of store' q' ++ rest) qty' in
    (l, x, evs ++ evs');
}.

(** Popping the head [i] of the queue with the event [ev], then going on. *)
Lemma queue_step_pop order_id user_id side price s p store store1 i q qty qty1 ev
    store' q' qty' evs :
  queue_ok store s p (i :: q) →
  (∀ j, slab_get store1 j = if decide (j = i) then None else slab_get store j) →
  (∀ rest, spec_match order_id user_id side price (orders_of store (i :: q) ++ rest) qty =
    let '(l, x, evs') := spec_match order_id user_id side price (orders_of store q ++ rest) qty1 in
    (l, x, ev :: evs')) →
  queue_step order_id user_id side price s p store1 q qty1 store' q' qty' evs →
  queue_step order_id user_id side price s p store (i :: q) qty store' q' qty' (ev :: evs).
Proof.
  intros Hok Hget Hspec Hstep. destruct (queue_ok_tail _ _ _ _ _ Hok) as [_ Hi].
  destruct Hstep as [H1 H2 H3 H4 H5 H6 H7].
  assert (orders_of store1 q = orders_of store q) as Hq.
  { apply orders_of_ext. intros j Hj. rewrite Hget, decide_False by set_solver. done. }
  split; try done.
  - set_solver.
  - intros j Hj. rewrite H3 by set_solver. rewrite Hget, decide_False by set_solver. done.
  - intros j [->|Hj]%elem_of_cons Hj'; [|by apply H4].
    rewrite H3 by done. by rewrite Hget, decide_True.
  - eapply descends_trans; [|done]. by eapply descends_remove.
  - intros rest. rewrite Hspec, <-Hq, H7. by repeat case_match; simplify_eq.
Qed.

Lemma queue_ok_pop store store1 s p i q :
  queue_ok store s p (i :: q) →
  (∀ j, slab_get store1 j = if decide (j = i) then None else slab_get store j) →
  queue_ok store1 s p q.
Proof.
  intros [Hok Hi]%queue_ok_tail Hget. eapply queue_ok_ext; [|exact Hok].
  intros j Hj. rewrite Hget, decide_False by set_solver. done.
Qed.

(** Writing the order at a key and then freeing the key frees it. *)
Lemma slab_set_remove store i o o' :
  slab_get store i = Some o →
  ∃ store', slab_remove (slab_set store i o') i = Some store' ∧
    ∀ j, slab_get store' j = if decide (j = i) then None else slab_get store j.
Proof.
  intros Ho. destruct (slab_remove_live (slab_set store i o') i o') as (store' & Hrem & Hget).
  { erewrite slab_get_set by done. by rewrite decide_True. }
  exists store'. split; [done|]. intros j. rewrite Hget. case_decide; [done|].
  erewrite slab_get_set by done. by rewrite decide_False.
Qed.

(** The taker is filled by part of the head order [o]. *)
Lemma queue_step_partial order_id user_id side price s p store i q o qty :
  queue_ok store s p (i :: q) → slab_get store i = Some o →
  is_matchable side p price = true → o_user_id o ≠ user_id → 0 < qty < o_quantity o →
  queue_step order_id user_id side price s p store (i :: q) qty
    (slab_set store i (set_quantity o (o_quantity o - qty))) (i :: q) 0
    [TradeExecuted (o_id o) order_id p qty].
Proof.
  intros Hok Ho Hm Hu Hlt. destruct (queue_ok_tail _ _ _ _ _ Hok) as [_ Hi].
  destruct (orders_of_nonempty _ _ _ _ _ Hok) as (o' & Horders & Ho' & Hp & Hs & Hq).
  simplify_eq. set (o1 := set_quantity o (o_quantity o - qty)).
  assert (∀ j, slab_get (slab_set store i o1) j =
    if decide (j = i) then Some o1 else slab_get store j) as Hget.
  { intros j. by erewrite slab_get_set. }
  split; try done.
  - split; [apply Hok|]. intros j Hj. destruct (decide (j = i)) as [->|Hne].
    + exists o1. rewrite Hget, decide_True by done. split_and!; simpl; try done; lia.
    + eapply rests_get; [by apply Hok|]. by rewrite Hget, decide_False.
  - intros j Hj. rewrite Hget, decide_False by set_solver. done.
  - by right.
  - by apply descends_set.
  - intros rest. rewrite spec_match_zero, Horders. simpl.
    rewrite decide_False by lia. rewrite Hm, decide_False by done.
    rewrite decide_False by lia. unfold orders_of at 2. csimpl.
    rewrite Hget, decide_True by done. csimpl. rewrite N.min_l by lia.
    rewrite N.sub_diag. fold o1. do 4 f_equal. symmetry. apply orders_of_ext.
    intros j Hj. rewrite Hget, decide_False by set_solver. done.
Qed.

Lemma match_queue_step order_id user_id side price s p :
  is_matchable side p price = true →
  ∀ q fuel store qty evs0,
    queue_ok store s p q → 0 < qty → (length q < fuel)%nat →
    ∃ store' q' qty' evs,
      match_queue order_id user_id p fuel store q qty evs0 =
        Done (store', q', qty', evs0 ++ evs) ∧
      queue_step order_id user_id side price s p store q qty store' q' qty' evs.
Proof.
  intros Hm. induction q as [|i q IH]; intros [|fuel] store qty evs0 Hok Hqty Hfuel;
    simpl in Hfuel; try lia.
  { exists store, [], qty, []. simpl. rewrite app_nil_r. split; [done|].
    split; try done; try (by left); [apply descends_refl|].
    intros rest. by destruct (spec_match _ _ _ _ _ _) as [[??]?]. }
  destruct (orders_of_nonempty _ _ _ _ _ Hok) as (o & Horders & Ho & Hp & Hs & Hq).
  simpl. rewrite Ho. simpl. destruct (decide (o_user_id o = user_id)) as [Hu|Hu].
  { (* the taker's own order is cancelled *)
    destruct (slab_remove_live store i o Ho) as (store1 & -> & Hget). simpl.
    destruct (IH fuel store1 qty (evs0 ++ [OrderCancelled (o_id o)])) as
      (store' & q' & qty' & evs & -> & Hstep); [by eapply queue_ok_pop|done|lia|].
    exists store', q', qty', (OrderCancelled (o_id o) :: evs). rewrite <-app_assoc. split; [done|].
    eapply queue_step_pop; try done. intros rest. rewrite Horders. simpl.
    rewrite decide_False by lia. rewrite Hp, Hm, decide_True by done. done. }
  rewrite !u64_sub_ok by lia. simpl.
  destruct (decide (o_quantity o ≤ qty)) as [Hle|Hle].
  - (* the maker is filled *)
    rewrite N.min_r, N.sub_diag by done. rewrite decide_True by done.
    destruct (slab_set_remove store i o (set_quantity o 0) Ho) as (store2 & -> & Hget). simpl.
    assert (∀ rest, spec_match order_id user_id side price (orders_of store (i :: q) ++ rest) qty =
      let '(l, y, evs') :=
        spec_match order_id user_id side price (orders_of store q ++ rest) (qty - o_quantity o) in
      (l, y, TradeExecuted (o_id o) order_id p (o_quantity o) :: evs')) as Hspec.
    { intros rest. rewrite Horders. simpl. rewrite decide_False by lia.
      rewrite Hp, Hm, decide_False by done. by rewrite N.min_r, decide_True. }
    destruct (decide (qty - o_quantity o = 0)) as [Hz|Hz].
    + eexists store2, q, _, _. split; [done|].
      eapply queue_step_pop; try done. rewrite Hz.
      split; try done; [by eapply queue_ok_pop|by right|apply descends_refl|].
      intros rest. by rewrite !spec_match_zero.
    + edestruct (IH fuel store2) as (store' & q' & qty' & evs & -> & Hstep);
        [by eapply queue_ok_pop| |lia|]; [|eexists store', q', qty', (_ :: evs)]; [lia|].
      rewrite <-app_assoc. split; [done|]. by eapply queue_step_pop.
  - (* the taker is filled *)
    rewrite N.min_l, N.sub_diag by lia. rewrite decide_False by lia. simpl.
    eexists _, (i :: q), 0, _. split; [done|]. by apply queue_step_partial; try done; lia.
Qed.

(** ** Updating one level *)

Definition set_level s p (q : list nat) b : OrderBook S :=
  with_levels s b
    (match q with
     | [] => BTree.remove p (levels s b)
     | _ :: _ => BTree.insert p q (levels s b)
     end).

Lemma levels_with_levels s s' b m :
  levels s' (with_levels s b m) = if decide (s' = s) then m else levels s' b.
Proof. by destruct s, s'. Qed.

Lemma get_set_level s p q b s' p' :
  BTree.get p' (levels s' (set_level s p q b)) =
    if decide ((s', p') = (s, p)) then (match q with [] => None | _ :: _ => Some q end)
    else BTree.get p' (levels s' b).
Proof.
  unfold set_level. rewrite levels_with_levels.
  destruct (decide (s' = s)) as [->|Hs]; [|by rewrite decide_False by congruence].
  destruct q as [|i q]; rewrite ?BTree.get_remove, ?BTree.get_insert;
    destruct (decide (p' = p)) as [->|Hp];
    by rewrite ?(decide_True _ _ eq_refl), ?decide_False by congruence.
Qed.

Lemma side_levels_get b s p q :
  wf b → BTree.get p (levels s b) = Some q → level_ok (order_store b) s (p, q).
Proof.
  intros Hwf Hg. destruct (wf_side b Hwf s) as [_ Hall].
  by eapply Forall_forall in Hall; [|by apply BTree.get_elem].
Qed.

(** An update of the queue [q] at [(s, p)] to [q'], together with the store,
    that touches the keys of [q] only. *)
Record level_update s p store (q : list nat) store' (q' : list nat) : Prop := {
  lu_ok : queue_ok store' s p q';
  lu_sub i : i ∈ q' → i ∈ q;
  lu_frame i : i ∉ q → slab_get store' i = slab_get store i;
  lu_gone i : i ∈ q → i ∉ q' → slab_get store' i = None;
}.

Lemma level_update_only_at s p store q store' q' :
  queue_ok store s p q → level_update s p store q store' q' → only_at s p store store'.
Proof.
  intros [_ Hq] Hlu s' p' i Hne Hr. apply (lu_frame _ _ _ _ _ _ Hlu). intros Hi.
  destruct (rests_inj _ _ _ _ _ _ Hr (Hq _ Hi)). congruence.
Qed.

Lemma set_level_side_ok b s p q store' q' s' :
  wf b → BTree.get p (levels s b) = Some q → level_update s p (order_store b) q store' q' →
  side_ok store' s' (levels s' (set_level s p q' (with_store b store'))).
Proof.
  intros Hwf Hg Hlu. pose proof (side_levels_get _ _ _ _ Hwf Hg) as [_ Hq].
  pose proof (level_update_only_at _ _ _ _ _ _ Hq Hlu) as Honly.
  destruct (wf_side b Hwf s') as [Hsort Hall]. split.
  - unfold set_level. rewrite levels_with_levels. case_decide; [subst|by destruct s'].
    destruct q'; destruct s; simpl; auto with evice.
  - apply Forall_forall. intros [p0 q0] Hin.
    assert (BTree.get p0 (levels s' (set_level s p q' (with_store b store'))) = Some q0) as Hg0.
    { apply BTree.sorted_elem_get; [|done]. unfold set_level. rewrite levels_with_levels.
      case_decide; [subst|by destruct s']. destruct q'; destruct s; simpl; auto with evice. }
    rewrite get_set_level in Hg0. case_decide as Heq.
    + destruct q'; simplify_eq. split; [done|apply Hlu].
    + assert (levels s' (with_store b store') = levels s' b) as Hl by (by destruct s').
      rewrite Hl in Hg0. pose proof (side_levels_get _ _ _ _ Hwf Hg0) as Hok.
      by eapply level_frame in Hok as [? _].
Qed.

Lemma set_level_wf b s p q store' q' :
  wf b → BTree.get p (levels s b) = Some q → level_update s p (order_store b) q store' q' →
  wf (set_level s p q' (with_store b store')).
Proof.
  intros Hwf Hg Hlu. pose proof (side_levels_get _ _ _ _ Hwf Hg) as [_ Hq].
  assert (∀ s', levels s' (with_store b store') = levels s' b) as Hl by (by intros []).
  assert (order_store (set_level s p q' (with_store b store')) = store') as Hst by (by destruct s).
  assert (∀ s' p', p' ∈ (levels s' (set_level s p q' (with_store b store'))).*1 →
                   p' ∈ (levels s' b).*1) as Hkeys.
  { intros s' p'. rewrite !BTree.elem_of_keys, get_set_level, Hl. intros [q0 Hq0].
    case_decide; simplify_eq; eauto. }
  split.
  - intros s'. rewrite Hst. by eapply set_level_side_ok.
  - intros i o. rewrite Hst. intros Ho. rewrite get_set_level, Hl.
    destruct (decide (i ∈ q)) as [Hi|Hi].
    + destruct (decide (i ∈ q')) as [Hi'|Hi']; [|by rewrite (lu_gone _ _ _ _ _ _ Hlu) in Ho].
      destruct (lu_ok _ _ _ _ _ _ Hlu) as [_ Hr]. destruct (Hr i Hi') as (o' & ? & ? & ? & _).
      simplify_eq. rewrite decide_True by done. destruct q'; [set_solver|]. by eexists.
    + rewrite (lu_frame _ _ _ _ _ _ Hlu) in Ho by done.
      destruct (wf_covered b Hwf _ _ Ho) as (q0 & Hg0 & Hi0).
      case_decide; [|by eexists]. simplify_eq. by destruct Hi.
  - intros p1 p2 H1 H2. apply (wf_uncrossed b Hwf); [by apply (Hkeys Bid)|by apply (Hkeys Ask)].
Qed.

(** The effect on the abstraction: the orders of the level are replaced. *)
Lemma set_level_view b s p q store' q' :
  wf b → BTree.get p (levels s b) = Some q → level_update s p (order_store b) q store' q' →
  let b' := set_level s p q' (with_store b store') in
  ∃ l1 l2,
    priority s (levels s b) = l1 ++ (p, q) :: l2 ∧
    priority s (levels s b') = l1 ++ (match q' with [] => [] | _ :: _ => [(p, q')] end) ++ l2 ∧
    flat store' (priority s (levels s b')) =
      flat (order_store b) l1 ++ orders_of store' q' ++ flat (order_store b) l2.
Proof.
  intros Hwf Hg Hlu b'. pose proof (side_levels_get _ _ _ _ Hwf Hg) as [_ Hq].
  pose proof (level_update_only_at _ _ _ _ _ _ Hq Hlu) as Honly.
  destruct (wf_side b Hwf s) as [Hsort Hall].
  destruct (priority_split s p _ Hsort) as (l1 & l2 & Hm & H1 & H2 & Hi & _ & Hr).
  rewrite Hg in Hm. exists l1, l2.
  assert (levels s (with_store b store') = levels s b) as Hl by (by destruct s).
  assert (priority s (levels s b') =
    l1 ++ (match q' with [] => [] | _ :: _ => [(p, q')] end) ++ l2) as Hb'.
  { subst b'. unfold set_level. rewrite levels_with_levels, decide_True, Hl by done.
    destruct q'; [by rewrite Hr|by rewrite Hi]. }
  split_and!; [done..|]. rewrite Hb'.
  assert (∀ l, (∀ e, e ∈ l → e ∈ priority s (levels s b)) → (∀ e, e ∈ l → e.1 ≠ p) →
    flat store' l = flat (order_store b) l) as Hframe.
  { intros l Hsub Hne. apply (levels_frame s p _ _ s); [done|set_solver|].
    apply Forall_forall. intros e He. eapply Forall_forall in Hall; [done|].
    apply (elem_of_priority s). auto. }
  assert (flat store' l1 = flat (order_store b) l1) as E1.
  { apply Hframe; [intros e He; rewrite Hm; apply elem_of_app; by left|].
    intros e He <-. eapply better_irrefl, H1, list_elem_of_fmap_2, He. }
  assert (flat store' l2 = flat (order_store b) l2) as E2.
  { apply Hframe; [intros e He; rewrite Hm, !elem_of_app; by right; right|].
    intros e He <-. eapply better_irrefl, H2, list_elem_of_fmap_2, He. }
  rewrite !flat_app, E1, E2. do 2 f_equal. destruct q'; [done|]. unfold flat. csimpl.
  by rewrite app_nil_r.
Qed.

Lemma set_level_view_other b s p q store' q' s' :
  wf b → BTree.get p (levels s b) = Some q → level_update s p (order_store b) q store' q' →
  s' ≠ s →
  let b' := set_level s p q' (with_store b store') in
  levels s' b' = levels s' b ∧
  flat store' (priority s' (levels s' b)) = flat (order_store b) (priority s' (levels s' b)).
Proof.
  intros Hwf Hg Hlu Hne b'. pose proof (side_levels_get _ _ _ _ Hwf Hg) as [_ Hq].
  pose proof (level_update_only_at _ _ _ _ _ _ Hq Hlu) as Honly. split.
  - subst b'. unfold set_level. rewrite levels_with_levels, decide_False by done. by destruct s'.
  - apply (levels_frame s p _ _ s'); [done|congruence|]. apply Forall_forall. intros e He.
    destruct (wf_side b Hwf s') as [_ Hall]. eapply Forall_forall in Hall; [done|].
    by apply (elem_of_priority s').
Qed.

(** The two writes of the source amount to one update of the level. *)
Lemma write_level b s p q :
  BTree.sorted (levels s b) →
  (let b1 := with_levels s b (BTree.insert p q (levels s b)) in
   match q with
   | [] => with_levels s b1 (BTree.remove p (levels s b1))
   | _ :: _ => b1
   end) = set_level s p q b.
Proof.
  intros Hs. destruct (priority_split s p _ Hs) as (_ & _ & _ & _ & _ & _ & Hri & _).
  unfold set_level. destruct q; [|done]. destruct s; simpl in *; by rewrite Hri.
Qed.

(** ** The outer loop *)

Lemma best_match_head side b :
  best_match side b = head (priority (opposite side) (levels (opposite side) b)).
Proof. destruct side; [done|]. simpl. by rewrite head_reverse. Qed.

Lemma opposite_ne s : opposite s ≠ s.
Proof. by destruct s. Qed.

Lemma not_matchable_worse side p p' price :
  is_matchable side p price = false → better (opposite side) p p' →
  is_matchable side p' price = false.
Proof. destruct side; simpl; rewrite !bool_decide_eq_false; lia. Qed.

Lemma view_side_flat s b :
  view_side s (view b) = flat (order_store b) (priority s (levels s b)).
Proof. by destruct s. Qed.

Lemma flat_head_price store s p q rest :
  level_ok store s (p, q) → ∃ o l, flat store ((p, q) :: rest) = o :: l ∧ o_price o = p.
Proof.
  intros [Hne Hq]. destruct q as [|i q]; [done|].
  destruct (orders_of_nonempty _ _ _ _ _ Hq) as (o & Ho & _ & Hp & _).
  exists o, (orders_of store q ++ flat store rest). rewrite flat_cons. cbn [snd]. by rewrite Ho.
Qed.

(** What the taker phase leaves: a well-formed book that implements
    [spec_match] on the makers' side and agrees with the old one elsewhere. *)
Record taken (order_id user_id : N) side price b qty b' qty' (evs : list EngineEvent) : Prop := {
  tk_wf : wf b';
  tk_levels : levels side b' = levels side b;
  tk_side : view_side side (view b') = view_side side (view b);
  tk_index : order_index b' = order_index b;
  tk_sequence : sequence b' = sequence b;
  tk_descends : descends (order_store b) (order_store b');
  tk_beyond : qty' = 0 ∨
    ∀ p, p ∈ (levels (opposite side) b').*1 → is_matchable side p price = false;
  tk_spec : spec_match order_id user_id side price (view_side (opposite side) (view b)) qty =
    (view_side (opposite side) (view b'), qty', evs);
}.

Lemma levels_with_store s b store : levels s (with_store b store) = levels s b.
Proof. by destruct s. Qed.

Lemma set_level_fields s p q b :
  order_store (set_level s p q b) = order_store b ∧
  order_index (set_level s p q b) = order_index b ∧
  sequence (set_level s p q b) = sequence b.
Proof. by destruct s. Qed.

Lemma length_priority s (m : Levels) : length (priority s m) = length m.
Proof. destruct s; simpl; [apply length_reverse|done]. Qed.

(** Matching the best level and then going on from the updated book. *)
Lemma taken_level order_id user_id side price b bp q rest qty store' q' qty' evs :
  let ms := opposite side in
  let b1 := set_level ms bp q' (with_store b store') in
  wf b → priority ms (levels ms b) = (bp, q) :: rest →
  queue_step order_id user_id side price ms bp (order_store b) q qty store' q' qty' evs →
  wf b1 ∧ (qty' = 0 ∨ (length (levels ms b1) < length (levels ms b))%nat) ∧
  ∀ b' qty'' evs',
    taken order_id user_id side price b1 qty' b' qty'' evs' →
    taken order_id user_id side price b qty b' qty'' (evs ++ evs').
Proof.
  intros ms b1 Hwf Hprio Hstep. destruct (wf_side b Hwf ms) as [Hsort _].
  destruct (priority_split_head _ _ _ _ _ Hsort Hprio) as (Hg & Hrest & _).
  assert (level_update ms bp (order_store b) q store' q') as Hlu by (destruct Hstep; by split).
  destruct (set_level_view _ _ _ _ _ _ Hwf Hg Hlu) as (l1 & l2 & Hl & Hl' & Hflat).
  assert (l1 = [] ∧ l2 = rest) as [-> ->].
  { rewrite Hprio in Hl. destruct l1 as [|e l1]; simplify_eq/=; [done|].
    destruct (better_irrefl ms bp). apply Hrest. rewrite fmap_app. set_solver. }
  destruct (set_level_fields ms bp q' (with_store b store')) as (Hst & Hidx & Hseq).
  fold b1 in Hl', Hflat, Hst, Hidx, Hseq. simpl in Hst, Hidx, Hseq. split_and!; [by eapply set_level_wf| |].
  { destruct (qs_end _ _ _ _ _ _ _ _ _ _ _ _ _ Hstep) as [->|?]; [right|by left].
    rewrite <-(length_priority ms), <-(length_priority ms (levels ms b)), Hl', Hprio. simpl. lia. }
  intros b' qty'' evs' [H1 H2 H3 H4 H5 H6 H7 H8].
  destruct (set_level_view_other b ms bp q store' q' side Hwf Hg Hlu) as [Hlev Hother].
  { unfold ms. pose proof (opposite_ne side). congruence. }
  split; try done.
  - by rewrite H2.
  - rewrite H3, !view_side_flat, Hst. fold b1 in Hlev. by rewrite Hlev, Hother.
  - by rewrite H4.
  - by rewrite H5.
  - eapply descends_trans; [|done]. rewrite Hst. apply Hstep.
  - rewrite view_side_flat. fold ms. rewrite Hprio, flat_cons. cbn [snd].
    rewrite (qs_spec _ _ _ _ _ _ _ _ _ _ _ _ _ Hstep).
    rewrite view_side_flat in H8. fold ms in H8. rewrite Hst in H8. simpl in Hflat.
    rewrite Hflat in H8. by rewrite H8.
Qed.

Lemma taken_stop order_id user_id side price b qty :
  wf b →
  (qty = 0 ∨ ∀ p, p ∈ (levels (opposite side) b).*1 → is_matchable side p price = false) →
  spec_match order_id user_id side price (view_side (opposite side) (view b)) qty =
    (view_side (opposite side) (view b), qty, []) →
  taken order_id user_id side price b qty b qty [].
Proof. intros. split; try done. apply descends_refl. Qed.

Lemma match_loop_taken order_id user_id side price :
  ∀ fuel b qty evs0, wf b → (0 < fuel)%nat →
    qty = 0 ∨ (length (levels (opposite side) b) < fuel)%nat →
    ∃ b' qty' evs,
      match_loop order_id user_id side price fuel b qty evs0 = Done (b', qty', evs0 ++ evs) ∧
      taken order_id user_id side price b qty b' qty' evs.
Proof.
  set (ms := opposite side).
  induction fuel as [|fuel IH]; intros b qty evs0 Hwf Hpos Hfuel; [lia|]. cbn [match_loop].
  destruct (decide (qty = 0)) as [->|Hqty].
  { exists b, 0, []. rewrite app_nil_r. split; [done|].
    apply taken_stop; [done|by left|apply spec_match_zero]. }
  rewrite best_match_head. fold ms.
  destruct (wf_side b Hwf ms) as [Hsort Hall].
  destruct (priority ms (levels ms b)) as [|[bp q] rest] eqn:Hprio; cbn [head].
  { exists b, qty, []. rewrite app_nil_r. split; [done|]. apply taken_stop; [done| |]; fold ms.
    - right. intros p (e & -> & He)%list_elem_of_fmap.
      apply (elem_of_priority ms) in He. rewrite Hprio in He. by apply elem_of_nil in He.
    - by rewrite view_side_flat, Hprio. }
  destruct (priority_split_head _ _ _ _ _ Hsort Hprio) as (Hg & Hrest & _).
  pose proof (side_levels_get _ _ _ _ Hwf Hg) as Hlev.
  destruct (is_matchable side bp price) eqn:Hm.
  - (* the level is matched *)
    destruct (match_queue_step order_id user_id side price ms bp Hm q
      (Datatypes.S (length q)) (order_store b) qty evs0) as
      (store' & q' & qty' & evs & -> & Hstep); [apply Hlev|lia|lia|]. cbn [mbind outcome_bind].
    rewrite (write_level (with_store b store')) by (by rewrite levels_with_store).
    destruct (taken_level _ _ _ _ _ _ _ _ _ _ _ _ _ Hwf Hprio Hstep) as (Hwf1 & Hlen & Hgo).
    assert (1 ≤ length (levels ms b))%nat as Hlen1.
    { rewrite <-(length_priority ms), Hprio. simpl. lia. }
    destruct Hfuel as [?|Hfuel]; [done|].
    edestruct IH as (b' & qty'' & evs' & -> & Htk); [exact Hwf1|lia| |].
    { destruct Hlen as [?|Hlen]; [by left|right]. fold ms in Hlen |- *. lia. }
    exists b', qty'', (evs ++ evs'). rewrite <-app_assoc. eauto.
  - (* the best price is beyond the limit *)
    exists b, qty, []. rewrite app_nil_r. split; [done|]. apply taken_stop; [done| |]; fold ms.
    + right. intros p (e & -> & He)%list_elem_of_fmap.
      apply (elem_of_priority ms) in He. rewrite Hprio in He.
      apply elem_of_cons in He as [->|He]; [done|].
      eapply not_matchable_worse; [done|]. by apply Hrest, list_elem_of_fmap_2.
    + rewrite view_side_flat, Hprio.
      destruct (flat_head_price (order_store b) ms bp q rest Hlev) as (o & l & -> & Hp). simpl.
      rewrite decide_False by done. by rewrite Hp, Hm.
Qed.

(** ** The maker phase *)

(** The live keys of [store] keep their orders. *)
Definition extends store store' : Prop :=
  ∀ i o, slab_get store i = Some o → slab_get store' i = Some o.

Lemma extends_queue store store' s p q :
  extends store store' → queue_ok store s p q →
  queue_ok store' s p q ∧ orders_of store' q = orders_of store q.
Proof.
  intros Hext [Hnd Hr].
  assert (∀ i, i ∈ q → slab_get store' i = slab_get store i) as Heq.
  { intros i Hi. destruct (Hr i Hi) as (o & Ho & _). rewrite Ho. by apply Hext. }
  split; [|by apply orders_of_ext]. by eapply queue_ok_ext.
Qed.

Lemma extends_levels store store' s (ls : Levels) :
  extends store store' → Forall (level_ok store s) ls →
  Forall (level_ok store' s) ls ∧ flat store' ls = flat store ls.
Proof.
  intros Hext. induction 1 as [|e ls [Hne Hq] _ [IH1 IH2]]; [done|].
  destruct (extends_queue _ _ _ _ _ Hext Hq) as [? Ho].
  split; [by constructor|]. by rewrite !flat_cons, Ho, IH2.
Qed.

Lemma extends_insert store o : extends store (slab_insert store o).2.
Proof.
  intros i o' Ho'. rewrite slab_get_insert. case_decide as Heq; [|done].
  subst i. by rewrite slab_insert_vacant in Ho'.
Qed.

Lemma elem_of_flat store s (ls : Levels) o :
  Forall (level_ok store s) ls → o ∈ flat store ls → o_price o ∈ ls.*1 ∧ o_side o = s.
Proof.
  intros Hall (e & Ho & He)%list_elem_of_bind. eapply Forall_forall in Hall as [_ [_ Hr]]; [|done].
  apply list_elem_of_omap in Ho as (i & Hi & Ho). destruct (Hr i Hi) as (o' & Ho' & Hp & Hs & _).
  rewrite Ho in Ho'. injection Ho' as <-. split; [|done]. rewrite Hp. by apply list_elem_of_fmap_2.
Qed.

Lemma view_eta (v : BookView) : v = mkView (view_side Bid v) (view_side Ask v).
Proof. by destruct v. Qed.

Section rest.
Context (order_id user_id : N) (side : Side) (price qty : N) (b : OrderBook S).
Let o := mkOrder order_id user_id price qty side 0.
Let idx := (slab_insert (order_store b) o).1.
Let store' := (slab_insert (order_store b) o).2.
Let queue := default [] (BTree.get price (levels side b)).
Let b' := rest_order order_id user_id side price qty b.

Lemma rest_order_fields :
  order_store b' = store' ∧ order_index b' = <[order_id := idx]> (order_index b) ∧
  (∀ s, levels s b' = if decide (s = side)
    then BTree.insert price (queue ++ [idx]) (levels side b) else levels s b).
Proof.
  unfold b', rest_order, idx, store', queue.
  destruct (slab_insert (order_store b) o) as [i st] eqn:Hins. fold o. rewrite Hins.
  by destruct side; split_and!; try done; intros [].
Qed.

Hypothesis Hwf : wf b.
Hypothesis Hqty : 0 < qty < U64.

Lemma rest_queue_ok :
  queue_ok store' side price (queue ++ [idx]) ∧
  orders_of store' (queue ++ [idx]) = orders_of (order_store b) queue ++ [o].
Proof.
  assert (queue_ok (order_store b) side price queue) as Hq.
  { unfold queue. destruct (BTree.get price (levels side b)) as [q|] eqn:Hg; simpl.
    - apply (side_levels_get _ _ _ _ Hwf Hg).
    - split; [constructor|set_solver]. }
  destruct (extends_queue _ store' _ _ _ (extends_insert _ o) Hq) as [[Hnd Hr] Ho].
  assert (slab_get store' idx = Some o) as Hidx.
  { unfold store'. rewrite slab_get_insert. by rewrite decide_True. }
  split; [split|].
  - apply NoDup_app. split_and!; [done| |apply NoDup_singleton].
    intros i Hi ->%list_elem_of_singleton. destruct Hq as [_ Hq].
    destruct (Hq idx Hi) as (o' & Ho' & _). unfold idx in Ho'. by rewrite slab_insert_vacant in Ho'.
  - intros i [Hi| ->%list_elem_of_singleton]%elem_of_app; [by apply Hr|].
    exists o. split_and!; simpl; try done; lia.
  - unfold orders_of in *. rewrite omap_app, Ho. csimpl. by rewrite Hidx.
Qed.

Lemma rest_order_side_ok s : side_ok (order_store b') s (levels s b').
Proof.
  destruct rest_order_fields as (-> & _ & Hlev). rewrite Hlev.
  destruct (wf_side b Hwf s) as [Hsort Hall].
  destruct (extends_levels _ store' _ _ (extends_insert _ o) Hall) as [Hall' _].
  case_decide; [subst s|by split]. split; [auto with evice|].
  apply Forall_forall. intros [p0 q0] Hin.
  apply BTree.sorted_elem_get in Hin; [|auto with evice].
  rewrite BTree.get_insert in Hin. case_decide; simplify_eq.
  - split; [by destruct queue|apply rest_queue_ok].
  - eapply Forall_forall in Hall'; [done|]. by apply BTree.get_elem.
Qed.

Lemma rest_order_covered : covered b'.
Proof.
  destruct rest_order_fields as (Hst & _ & Hlev). intros i o'. rewrite Hst, Hlev.
  unfold store'. rewrite slab_get_insert. case_decide as Hi.
  - intros ?; simplify_eq. simpl. rewrite decide_True, BTree.get_insert, decide_True by done.
    eexists. split; [done|]. fold idx. set_solver.
  - intros Ho'. destruct (wf_covered b Hwf _ _ Ho') as (q & Hg & Hq).
    case_decide as Hs; [|by eexists]. rewrite BTree.get_insert. case_decide as Hp; [|rewrite <-Hs; by eexists].
    eexists. split; [done|]. unfold queue. rewrite <-Hs, <-Hp, Hg. simpl. set_solver.
Qed.

Lemma rest_order_wf :
  (∀ p, p ∈ (levels (opposite side) b).*1 → is_matchable side p price = false) → wf b'.
Proof.
  intros Hbeyond. split; [apply rest_order_side_ok|apply rest_order_covered|].
  destruct rest_order_fields as (_ & _ & Hlev).
  assert (∀ p, p ∈ (BTree.insert price (queue ++ [idx]) (levels side b)).*1 →
    p = price ∨ p ∈ (levels side b).*1) as Hkeys.
  { intros p. rewrite !BTree.elem_of_keys, BTree.get_insert. case_decide; auto. }
  pose proof (wf_uncrossed b Hwf) as Hun.
  pose proof (Hlev Bid) as HB. pose proof (Hlev Ask) as HA. simpl in HB, HA.
  intros p1 p2. rewrite HB, HA. clear HA HB Hlev.
  destruct side; simpl in *; repeat case_decide; try done; intros H1 H2.
  - apply Hkeys in H1 as [->|H1]; [|by apply Hun].
    apply Hbeyond, bool_decide_eq_false in H2. lia.
  - apply Hkeys in H2 as [->|H2]; [|by apply Hun].
    apply Hbeyond, bool_decide_eq_false in H1. lia.
Qed.

Lemma rest_order_view_side :
  flat store' (priority side (BTree.insert price (queue ++ [idx]) (levels side b))) =
  spec_insert side o (flat (order_store b) (priority side (levels side b))).
Proof.
  destruct (wf_side b Hwf side) as [Hsort Hall].
  destruct (priority_split side price _ Hsort) as (l1 & l2 & Hm & H1 & H2 & Hi & _).
  assert (Forall (level_ok (order_store b) side) (priority side (levels side b))) as Hp.
  { apply Forall_forall. intros e He. eapply Forall_forall in Hall; [done|].
    by apply (elem_of_priority side). }
  assert (flat (order_store b) (priority side (levels side b)) =
    flat (order_store b) l1 ++ orders_of (order_store b) queue ++ flat (order_store b) l2) as Hf.
  { rewrite Hm at 1. rewrite !flat_app. unfold queue. f_equal. f_equal.
    destruct (BTree.get price (levels side b)); simpl; [|done]. unfold flat. csimpl. by rewrite app_nil_r. }
  rewrite Hm in Hp. apply Forall_app in Hp as [Hp1 [_ Hp2]%Forall_app].
  rewrite Hi, flat_app, flat_cons, Hf. cbn [snd]. destruct rest_queue_ok as [Hqok ->].
  destruct (extends_levels _ store' _ _ (extends_insert _ o) Hp1) as [_ ->].
  destruct (extends_levels _ store' _ _ (extends_insert _ o) Hp2) as [_ ->].
  rewrite spec_insert_app_l, spec_insert_app_l, spec_insert_worse; simpl.
  - by rewrite <-!app_assoc.
  - apply Forall_forall. intros x Hx. apply H2. eapply elem_of_flat in Hx as [? _]; done.
  - apply Forall_forall. intros x Hx. apply list_elem_of_omap in Hx as (i & Hin & Hx).
    assert (o_price x = price) as ->; [|apply better_irrefl].
    destruct Hqok as [_ Hr]. destruct (Hr i) as (x' & Hx' & ? & _); [set_solver|].
    apply (extends_insert _ o) in Hx. fold store' in Hx. naive_solver.
  - apply Forall_forall. intros x Hx. apply better_asym, H1. eapply elem_of_flat in Hx as [? _]; done.
Qed.

Lemma rest_order_view :
  view b' = set_view_side side (view b) (spec_insert side o (view_side side (view b))).
Proof.
  destruct rest_order_fields as (Hst & _ & Hlev).
  assert (∀ s, view_side s (view b') =
    if decide (s = side) then spec_insert side o (view_side side (view b))
    else view_side s (view b)) as HV.
  { intros s. rewrite !view_side_flat, Hst, Hlev. destruct (wf_side b Hwf s) as [_ Hall].
    case_decide; [subst s; apply rest_order_view_side|].
    eapply (extends_levels _ _ s); [apply extends_insert|].
    apply Forall_forall. intros e He. eapply Forall_forall in Hall; [done|].
    by apply (elem_of_priority s). }
  rewrite (view_eta (view b')), (HV Bid), (HV Ask). by destruct side.
Qed.
End rest.

(** ** Placing an order *)

(** The ids the index must know: each live order is found under its id. *)
Definition index_ok b : Prop :=
  ∀ i o, slab_get (order_store b) i = Some o → order_index b !! o_id o = Some i.

(** No live order carries the id. *)
Definition fresh_id b (order_id : N) : Prop :=
  ∀ i o, slab_get (order_store b) i = Some o → o_id o ≠ order_id.

Lemma set_view_side_opposite side v v' :
  view_side side v' = view_side side v →
  set_view_side (opposite side) v (view_side (opposite side) v') = v'.
Proof. destruct side, v, v'; simpl; by intros ->. Qed.

Lemma place_limit_order_spec b order_id user_id side price qty :
  wf b → qty < U64 →
  ∃ b' evs,
    place_limit_order b order_id user_id side price qty = Done (b', evs) ∧ wf b' ∧
    (view b', evs) = spec_place order_id user_id side price (view b) qty ∧
    (index_ok b → fresh_id b order_id → index_ok b').
Proof.
  intros Hwf Hqty. unfold place_limit_order.
  destruct (match_loop_taken order_id user_id side price
    (Datatypes.S (Datatypes.S (length (levels (opposite side) b)))) b qty []) as
    (b1 & qty1 & evs & -> & Htk); [done|lia|right; lia|]. cbn [mbind outcome_bind].
  pose proof (spec_match_conserves order_id user_id side price (view_side (opposite side) (view b)) qty) as Hcons.
  destruct Htk as [Hwf1 Hlev Hside Hidx Hseq Hdesc Hbeyond Hspec]. rewrite Hspec in Hcons. simpl in Hcons.
  unfold spec_place. rewrite Hspec, set_view_side_opposite by done.
  assert (index_ok b → index_ok b1) as Hindex1.
  { intros Hok i o' Ho'. destruct (Hdesc _ _ Ho') as (o & Ho & ->). rewrite Hidx. exact (Hok i o Ho). }
  destruct (decide (0 < qty1)) as [Hpos|Hpos]; [|exists b1, evs; split_and!; by auto].
  destruct Hbeyond as [?|Hbeyond]; [lia|].
  eexists _, _. split; [done|]. split_and!.
  - apply rest_order_wf; [done|lia|done].
  - rewrite rest_order_view by (try done; lia). done.
  - intros Hok Hfresh i o'. destruct (rest_order_fields order_id user_id side price qty1 b1) as (-> & -> & _).
    rewrite slab_get_insert. case_decide as Hi; intros Ho'.
    + simplify_eq. simpl. by rewrite lookup_insert_eq.
    + rewrite lookup_insert_ne; [by apply Hindex1|]. destruct (Hdesc _ _ Ho') as (o & Ho & ->).
      simpl. by apply not_eq_sym, (Hfresh i).
Qed.
End refinement.

Arguments wf {_ _} _.
Arguments view {_ _} _.
