(* ===== verification/BookProps.v ===== *)
(** * Properties of the order book

    The theorems on [OrderBook] that users of the engine rely on, obtained from
    the refinement of [Matching.v]: refinement and invariant of
    [place_limit_order], conservation, price limit, priority, self-trade
    prevention, cancellation, depth, and the states reachable by any sequence
    of operations. *)

From S2P Require Import Prelude BTree Slab OrderBook BookSpec Matching.

(** A run of the book: the operations that reach it from [new]. *)
Section ops.
Context {S : Type} `{!SlabOps S Order} `{!Profile}.

(** One logged operation, as the recovery loop applies it. *)
Definition apply_entry (b : OrderBook S) (e : LogEntry)
    : outcome (OrderBook S * list EngineEvent) :=
  match e with
  | Place order_id user_id side price quantity =>
      place_limit_order b order_id user_id side price quantity
  | Cancel order_id user_id => cancel_order b order_id user_id
  end.

Fixpoint apply_entries (b : OrderBook S) (es : list LogEntry) : outcome (OrderBook S) :=
  match es with
  | [] => Done b
  | e :: es => '(b, _) ← apply_entry b e; apply_entries b es
  end.

(** The quantity of a request is a [u64]. *)
Definition entry_u64 (e : LogEntry) : Prop :=
  match e with
  | Place _ _ _ _ quantity => quantity < U64
  | Cancel _ _ => True
  end.

#[global] Instance entry_u64_dec e : Decision (entry_u64 e).
Proof. destruct e; simpl; apply _. Defined.
End ops.

(** ** Cancellation *)
Section cancel.
Context {S : Type} `{!SlabOps S Order} `{!SlabLaws S Order} `{!Profile}.
Implicit Types (b : OrderBook S).

Lemma wf_with_index b idx : wf b → wf (with_index b idx).
Proof. intros [H1 H2 H3]. split; [|apply H2|apply H3]. intros s. by destruct s; [apply (H1 Bid)|apply (H1 Ask)]. Qed.

Lemma cancel_level_update store store' s p q i o :
  queue_ok store s p q → slab_get store i = Some o →
  (∀ j, slab_get store' j = if decide (j = i) then None else slab_get store j) →
  i ∈ q → level_update s p store q store' (filter (.≠ i) q).
Proof.
  intros Hq Ho Hget Hi.
  assert (∀ j, j ∈ filter (.≠ i) q → j ≠ i ∧ j ∈ q) as Hf by (intros j; by rewrite list_elem_of_filter).
  split.
  - split; [apply NoDup_filter, Hq|]. intros j [Hne Hj]%Hf. eapply rests_get; [by apply Hq|].
    by rewrite Hget, decide_False.
  - intros j [_ ?]%Hf. done.
  - intros j Hj. rewrite Hget, decide_False by set_solver. done.
  - intros j Hj Hj'. rewrite Hget. case_decide; [done|]. destruct Hj'. by apply list_elem_of_filter.
Qed.

(** The orders of a queue after one key is freed. *)
Lemma orders_of_free store store' s p q i o :
  queue_ok store s p q → slab_get store i = Some o → i ∈ q →
  (∀ j, slab_get store' j = if decide (j = i) then None else slab_get store j) →
  ∃ l1 l2, orders_of store q = l1 ++ o :: l2 ∧ orders_of store' (filter (.≠ i) q) = l1 ++ l2.
Proof.
  intros [Hnd _] Ho Hi Hget. destruct (filter_neq_split i q Hnd Hi) as (q1 & q2 & -> & -> & H1 & H2).
  exists (orders_of store q1), (orders_of store q2). unfold orders_of. rewrite !omap_app. csimpl.
  rewrite Ho. split; [done|].
  f_equal; apply omap_ext_in; intros j Hj; rewrite Hget, decide_False; set_solver.
Qed.

Lemma cancel_order_spec b order_id user_id i o :
  wf b → order_index b !! order_id = Some i → slab_get (order_store b) i = Some o →
  o_user_id o = user_id →
  ∃ b' l1 l2,
    cancel_order b order_id user_id = Done (b', [OrderCancelled order_id]) ∧ wf b' ∧
    view_side (o_side o) (view b) = l1 ++ o :: l2 ∧
    view b' = set_view_side (o_side o) (view b) (l1 ++ l2) ∧
    order_index b' = delete order_id (order_index b) ∧
    (∀ j, slab_get (order_store b') j = if decide (j = i) then None else slab_get (order_store b) j).
Proof.
  intros Hwf Hidx Ho Hu. destruct (wf_covered b Hwf _ _ Ho) as (q & Hg & Hi).
  pose proof (side_levels_get _ _ _ _ Hwf Hg) as [_ Hq]. simpl in Hq.
  destruct (slab_remove_live _ _ _ Ho) as (store' & Hrem & Hget).
  pose proof (cancel_level_update _ _ _ _ _ _ _ Hq Ho Hget Hi) as Hlu.
  set (s := o_side o) in *. set (p := o_price o) in *. set (q' := filter (.≠ i) q) in *.
  set (b1 := set_level s p q' (with_store b store')).
  assert (cancel_order b order_id user_id =
    Done (with_index b1 (delete order_id (order_index b)), [OrderCancelled order_id])) as Hrun.
  { unfold cancel_order. rewrite Hidx, Ho, decide_False by tauto. fold s p. rewrite Hg. fold q'.
    destruct (wf_side b Hwf s) as [Hsort _]. pose proof (write_level b s p q' Hsort) as Hw.
    cbv zeta in Hw |- *. rewrite Hw. unfold b1. destruct s; simpl; by rewrite Hrem. }
  destruct (orders_of_free _ _ _ _ _ _ _ Hq Ho Hi Hget) as (o1 & o2 & Ho1 & Ho2).
  destruct (set_level_view _ _ _ _ _ _ Hwf Hg Hlu) as (l1 & l2 & Hl & _ & Hflat). fold b1 in Hflat.
  assert (order_store b1 = store') as Hst by (unfold b1; by destruct s).
  exists (with_index b1 (delete order_id (order_index b))),
    (flat (order_store b) l1 ++ o1), (o2 ++ flat (order_store b) l2).
  split_and!; [done| | | |done|by intros j; simpl; rewrite Hst].
  - by apply wf_with_index, set_level_wf with q.
  - rewrite view_side_flat, Hl, flat_app, flat_cons. cbn [snd]. rewrite Ho1. by rewrite <-!app_assoc.
  - fold q' in Ho2. rewrite Ho2 in Hflat.
    transitivity (view b1); [done|]. rewrite (view_eta (view b1)).
    rewrite (view_side_flat Bid b1), (view_side_flat Ask b1), Hst.
    destruct (set_level_view_other b s p q store' q' (opposite s) Hwf Hg Hlu) as [Hlev Hother];
      [apply opposite_ne|]. fold b1 in Hlev. clearbody b1.
    destruct s; simpl in *; rewrite Hflat, Hlev, Hother; unfold set_view_side, view; simpl;
      by rewrite <-!app_assoc.
Qed.
End cancel.

(** ** Market depth *)

(** The depth a list of orders, best first, adds up to: one level per price. *)
Fixpoint spec_depth (l : list Order) : list OrderLevel :=
  match l with
  | [] => []
  | o :: l' =>
    match spec_depth l' with
    | e :: es =>
      if decide (l_price e = o_price o)
      then mkLevel (o_price o) (o_quantity o + l_quantity e) :: es
      else mkLevel (o_price o) (o_quantity o) :: e :: es
    | [] => [mkLevel (o_price o) (o_quantity o)]
    end
  end.

Section depth.
Context {S : Type} `{!SlabOps S Order} `{!SlabLaws S Order}.
Implicit Types (b : OrderBook S) (store : S).

Definition level_volume store (e : N * list nat) : N := volume (orders_of store e.2).

Lemma level_quantities store s p q :
  queue_ok store s p q →
  sum_N ((λ idx, default 0 (o_quantity <$> slab_get store idx)) <$> q) = volume (orders_of store q).
Proof.
  unfold volume. intros [_ Hr]. induction q as [|i q IH]; [done|].
  destruct (Hr i) as (o & Ho & _); [set_solver|]. unfold orders_of in *. csimpl.
  rewrite Ho. csimpl. rewrite IH; [done|]. set_solver.
Qed.

Lemma spec_depth_queue p (os : list Order) es :
  os ≠ [] → Forall (λ o, o_price o = p) os →
  (∀ o l, es = o :: l → o_price o ≠ p) →
  spec_depth (os ++ es) = mkLevel p (volume os) :: spec_depth es.
Proof.
  intros Hne Hp Hes. unfold volume.
  assert (∀ e l, spec_depth es = e :: l → l_price e ≠ p) as Hhead.
  { intros e l He. destruct es as [|o es]; [done|]. simpl in He.
    specialize (Hes o es eq_refl). destruct (spec_depth es) as [|e' l']; [by simplify_eq/=|].
    case_decide; by simplify_eq/=. }
  induction Hp as [|o os Ho Hp IH]; [done|]. destruct os as [|o' os].
  - csimpl. destruct (spec_depth es) as [|e l] eqn:He; [by rewrite Ho, N.add_0_r|].
    rewrite decide_False by (rewrite Ho; eauto). by rewrite Ho, N.add_0_r.
  - change (spec_depth ((o :: o' :: os) ++ es)) with
      (match spec_depth ((o' :: os) ++ es) with
       | e :: es => if decide (l_price e = o_price o)
           then mkLevel (o_price o) (o_quantity o + l_quantity e) :: es
           else mkLevel (o_price o) (o_quantity o) :: e :: es
       | [] => [mkLevel (o_price o) (o_quantity o)]
       end).
    rewrite IH by done. rewrite decide_True by done. by rewrite Ho.
Qed.

(** The levels of a side are the depth of its orders. *)
Lemma spec_depth_flat store s (ls : Levels) :
  Forall (level_ok store s) ls → NoDup ls.*1 →
  spec_depth (flat store ls) = (λ e, mkLevel e.1 (level_volume store e)) <$> ls.
Proof.
  induction 1 as [|[p q] ls [Hne Hq] Hall IH]; [done|].
  rewrite fmap_cons. intros [Hp Hnd]%NoDup_cons. rewrite flat_cons, (spec_depth_queue p).
  - by rewrite IH.
  - destruct q as [|i q]; [done|]. cbn [snd].
    by destruct (orders_of_nonempty _ _ _ _ _ Hq) as (o & -> & _).
  - apply Forall_forall. intros o (i & Hi & Ho)%list_elem_of_omap.
    destruct Hq as [_ Hr]. destruct (Hr i Hi) as (o' & ? & ? & _). naive_solver.
  - intros o l Hol Heq. apply Hp. rewrite <-Heq. eapply elem_of_flat; [done|]. rewrite Hol. set_solver.
Qed.

Lemma depth_levels_ok `{!Profile} store s (ls : Levels) :
  Forall (level_ok store s) ls → Forall (λ e, level_volume store e < U64) ls →
  depth_levels store ls = Done ((λ e, mkLevel e.1 (level_volume store e)) <$> ls).
Proof.
  induction 1 as [|[p q] ls [_ Hq] _ IH]; intros Hvol; [done|]. decompose_Forall_hyps.
  simpl. unfold depth_level. simpl. unfold level_volume in *. simpl in *.
  rewrite u64_sum_ok, (level_quantities _ _ _ _ Hq) by (rewrite (level_quantities _ _ _ _ Hq); lia).
  simpl. by rewrite IH.
Qed.

Lemma sorted_NoDup {V} (m : list (N * V)) : BTree.sorted m → NoDup m.*1.
Proof.
  unfold BTree.sorted. induction 1 as [|k ks _ IH Hk]; constructor; [|done].
  intros Hin. eapply Forall_forall in Hk; [|done]. simpl in Hk. lia.
Qed.

Lemma side_prio_ok b s :
  wf b → Forall (level_ok (order_store b) s) (priority s (levels s b)) ∧ NoDup (priority s (levels s b)).*1.
Proof.
  intros Hwf. destruct (wf_side b Hwf s) as [Hsort Hall]. split.
  - apply Forall_forall. intros e He. eapply Forall_forall in Hall; [done|]. by apply (elem_of_priority s).
  - destruct s; simpl; [|by apply sorted_NoDup]. rewrite fmap_reverse, reverse_Permutation.
    by apply sorted_NoDup.
Qed.

Lemma get_depth_exact `{!Profile} b limit :
  wf b → (∀ s, Forall (λ l, l_quantity l < U64) (spec_depth (view_side s (view b)))) →
  get_depth b limit =
    Done (take limit (spec_depth (v_asks (view b))), take limit (spec_depth (v_bids (view b)))).
Proof.
  intros Hwf Hvol.
  assert (∀ s, depth_levels (order_store b) (take limit (priority s (levels s b))) =
    Done (take limit (spec_depth (view_side s (view b))))) as Hs.
  { intros s. destruct (side_prio_ok b s Hwf) as [Hall Hnd].
    specialize (Hvol s). rewrite view_side_flat, (spec_depth_flat _ s) in Hvol |- * by done.
    rewrite Forall_fmap in Hvol. rewrite (depth_levels_ok _ s), fmap_take; [done|..];
      by apply Forall_take. }
  unfold get_depth. pose proof (Hs Ask) as HA. pose proof (Hs Bid) as HB. simpl in HA, HB.
  rewrite HA. simpl. by rewrite HB.
Qed.
End depth.

(** A depth query can only fail in a build with overflow checks. *)
Section depth_outcome.
Context {S : Type} `{!SlabOps S Order} `{!Profile}.

Definition done_or_overflow {A} (o : outcome A) : Prop :=
  is_done o ∨ overflow_checks = true ∧ o = Panicked.

Lemma done_or_overflow_bind {A B} (o : outcome A) (f : A → outcome B) :
  done_or_overflow o → (∀ a, done_or_overflow (f a)) → done_or_overflow (o ≫= f).
Proof. intros [[a ->]|[Hc ->]] Hf; [apply Hf|by right]. Qed.

Lemma u64_sum_outcome l acc : done_or_overflow (u64_sum acc l).
Proof.
  revert acc. induction l as [|x l IH]; intros acc; cbn [u64_sum]; [left; by eexists|].
  apply done_or_overflow_bind; [|done]. unfold u64_add. case_decide; [left; by eexists|].
  destruct overflow_checks eqn:Hc; [by right|left; by eexists].
Qed.

Lemma depth_levels_outcome store (m : Levels) : done_or_overflow (depth_levels (S := S) store m).
Proof.
  induction m as [|e m IH]; cbn [depth_levels]; [left; by eexists|].
  apply done_or_overflow_bind.
  - apply done_or_overflow_bind; [apply u64_sum_outcome|]. intros a. left. by eexists.
  - intros l. apply done_or_overflow_bind; [done|]. intros ls. left. by eexists.
Qed.

Lemma get_depth_outcome (b : OrderBook S) limit : done_or_overflow (get_depth b limit).
Proof.
  do 2 (apply done_or_overflow_bind; [apply depth_levels_outcome|intros ?]). left. by eexists.
Qed.
End depth_outcome.

(** ** Theorems *)

Section theorems.
Context {S : Type} `{!SlabOps S Order} `{!SlabLaws S Order} `{!Profile}.
Implicit Types (b : OrderBook S).

Lemma live_in_view b s o : o ∈ view_side s (view b) → ∃ i, slab_get (order_store b) i = Some o.
Proof.
  rewrite view_side_flat. intros (e & Ho & _)%list_elem_of_bind.
  apply list_elem_of_omap in Ho as (i & _ & ?). eauto.
Qed.

Lemma cancel_order_total b order_id user_id :
  wf b →
  ∃ b' evs, cancel_order b order_id user_id = Done (b', evs) ∧ wf b' ∧
    (index_ok b → index_ok b') ∧
    ((b' = b ∧ evs = []) ∨
     ∃ o l1 l2, o_user_id o = user_id ∧ evs = [OrderCancelled order_id] ∧
       view_side (o_side o) (view b) = l1 ++ o :: l2 ∧
       view b' = set_view_side (o_side o) (view b) (l1 ++ l2)).
Proof.
  intros Hwf.
  destruct (order_index b !! order_id) as [i|] eqn:Hidx;
    [destruct (slab_get (order_store b) i) as [o|] eqn:Ho|].
  1: destruct (decide (o_user_id o = user_id)) as [Hu|Hu].
  - destruct (cancel_order_spec b order_id user_id i o) as
      (b' & l1 & l2 & -> & Hwf' & Hv & Hv' & Hix & Hget); [done..|].
    eexists _, _. split_and!; [done|done| |by right; exists o, l1, l2].
    intros Hok j o' Ho'. rewrite Hget in Ho'. case_decide; [done|]. rewrite Hix.
    specialize (Hok _ _ Ho'). rewrite lookup_delete_ne; [done|]. congruence.
  - exists b, []. unfold cancel_order. rewrite Hidx, Ho, decide_True by done. split_and!; auto.
  - exists b, []. unfold cancel_order. rewrite Hidx, Ho. split_and!; auto.
  - exists b, []. unfold cancel_order. rewrite Hidx. split_and!; auto.
Qed.

Lemma apply_entry_wf b e :
  wf b → entry_u64 e → ∃ b' evs, apply_entry b e = Done (b', evs) ∧ wf b'.
Proof.
  intros Hwf He. destruct e as [oid uid s p q|oid uid]; simpl in *.
  - destruct (place_limit_order_spec b oid uid s p q) as (b' & evs & ? & ? & _); eauto.
  - destruct (cancel_order_total b oid uid) as (b' & evs & ? & ? & _); eauto.
Qed.

Lemma apply_entries_wf b es :
  wf b → Forall entry_u64 es → ∃ b', apply_entries b es = Done b' ∧ wf b'.
Proof.
  intros Hwf Hes. revert b Hwf. induction Hes as [|e es He _ IH]; intros b Hwf; [by exists b|].
  destruct (apply_entry_wf b e Hwf He) as (b1 & evs & Hrun & Hwf1). simpl. rewrite Hrun. simpl. auto.
Qed.

Lemma apply_entries_app b es1 es2 :
  apply_entries b (es1 ++ es2) = (b' ← apply_entries b es1; apply_entries b' es2).
Proof.
  revert b. induction es1 as [|e es1 IH]; intros b; simpl; [done|].
  destruct (apply_entry b e) as [[b1 evs]| |]; simpl; auto.
Qed.

(** *** Reachable books *)

(** The books an engine can be in when its clients keep to the discipline
    [disc]; the requests carry [u64] quantities. *)
Inductive reachable (disc : OrderBook S → LogEntry → Prop) : OrderBook S → Prop :=
| reach_new : reachable disc new
| reach_step b e b' evs :
    reachable disc b → entry_u64 e → disc b e → apply_entry b e = Done (b', evs) →
    reachable disc b'.

(** Clients that send anything at all. *)
Definition any_client : OrderBook S → LogEntry → Prop := λ _ _, True.

(** Clients that never reuse the id of an order that still rests, as the
    interface definition asks ("ID unik"). *)
Definition fresh_client : OrderBook S → LogEntry → Prop :=
  λ b e, match e with
         | Place order_id _ _ _ _ => fresh_id b order_id
         | Cancel _ _ => True
         end.

Lemma apply_entries_reachable b es b' :
  reachable any_client b → Forall entry_u64 es → apply_entries b es = Done b' →
  reachable any_client b'.
Proof.
  intros Hr Hes. revert b Hr. induction Hes as [|e es He _ IH]; intros b Hr; simpl; [by intros [= ->]|].
  destruct (apply_entry b e) as [[b1 evs]| |] eqn:Hrun; simpl; try done.
  apply IH. by eapply reach_step.
Qed.

Lemma reachable_wf disc b : reachable disc b → wf b.
Proof.
  induction 1 as [|b e b' evs _ IH He _ Hrun]; [apply wf_new|].
  destruct (apply_entry_wf b e IH He) as (b1 & evs1 & Hrun1 & ?). by same_run.
Qed.

Lemma reachable_index_ok b : reachable fresh_client b → index_ok b.
Proof.
  induction 1 as [|b e b' evs Hr IH He Hd Hrun].
  { intros i o. simpl. by rewrite slab_get_new. }
  apply reachable_wf in Hr. destruct e as [oid uid s p q|oid uid]; simpl in *.
  - destruct (place_limit_order_spec b oid uid s p q) as (b1 & evs1 & Hrun1 & _ & _ & Hix); [done..|].
    same_run. auto.
  - destruct (cancel_order_total b oid uid) as (b1 & evs1 & Hrun1 & _ & Hix & _); [done..|].
    same_run. auto.
Qed.

Lemma reachable_place b order_id user_id side price qty b' evs :
  reachable any_client b → qty < U64 →
  place_limit_order b order_id user_id side price qty = Done (b', evs) →
  wf b' ∧ (view b', evs) = spec_place order_id user_id side price (view b) qty.
Proof.
  intros Hr%reachable_wf Hq Hrun.
  destruct (place_limit_order_spec b order_id user_id side price qty) as (b1 & evs1 & Hrun1 & ? & ? & _);
    [done..|]. by same_run.
Qed.

(** The orders of a side: prices of its levels, side, positive quantity. *)
Lemma wf_view_order b s o :
  wf b → o ∈ view_side s (view b) →
  o_price o ∈ (levels s b).*1 ∧ o_side o = s ∧ 0 < o_quantity o < U64.
Proof.
  intros Hwf Ho. destruct (live_in_view _ _ _ Ho) as (i & Hi).
  destruct (side_prio_ok b s Hwf) as [Hall _]. rewrite view_side_flat in Ho.
  destruct (elem_of_flat _ _ _ _ Hall Ho) as [Hp Hs].
  destruct (wf_covered b Hwf _ _ Hi) as (q & Hg & Hq).
  destruct (side_levels_get _ _ _ _ Hwf Hg) as [_ [_ Hr]].
  destruct (Hr i Hq) as (o' & ? & ? & ? & ?). simplify_eq. split; [|by split].
  apply list_elem_of_fmap in Hp as (e & -> & He). apply list_elem_of_fmap_2.
  by apply (elem_of_priority (o_side o)).
Qed.

(** What [spec_place] says of the events: those of the matching, and at most
    one placement after them. *)
Lemma spec_place_events order_id user_id side price v qty v' evs :
  (v', evs) = spec_place order_id user_id side price v qty →
  let '(_, q, evs') := spec_match order_id user_id side price (view_side (opposite side) v) qty in
  evs = evs' ++ (if decide (0 < q) then [OrderPlaced order_id user_id price q side] else []).
Proof.
  unfold spec_place. destruct (spec_match _ _ _ _ _ _) as [[l q] evs'].
  case_decide; intros; simplify_eq; [done|]. by rewrite app_nil_r.
Qed.

(** What is traded and what is placed add up to what was asked for. *)
Lemma spec_place_conserves order_id user_id side price v qty v' evs :
  (v', evs) = spec_place order_id user_id side price v qty → traded evs + placed evs = qty.
Proof.
  intros Hspec%spec_place_events.
  pose proof (spec_match_conserves order_id user_id side price (view_side (opposite side) v) qty) as Hc.
  assert (∀ l q, placed (spec_match order_id user_id side price l q).2 = 0) as Hp.
  { intros l q. unfold placed. pattern l, q, (spec_match order_id user_id side price l q).
    apply spec_match_ind; intros; csimpl in *; lia. }
  specialize (Hp (view_side (opposite side) v) qty).
  destruct (spec_match _ _ _ _ _ _) as [[l q] evs']. simpl in *. subst evs.
  unfold traded, placed in *. rewrite !fmap_app, !sum_N_app. case_decide; csimpl; lia.
Qed.

(** Every event of a placement is about the order that is placed. *)
Definition own_event (order_id : N) (e : EngineEvent) : Prop :=
  match e with
  | TradeExecuted _ taker _ _ => taker = order_id
  | OrderPlaced id _ _ _ _ => id = order_id
  | OrderCancelled _ => True
  | IntentResolved _ _ _ => False
  end.

Lemma spec_place_own order_id user_id side price v qty v' evs :
  (v', evs) = spec_place order_id user_id side price v qty → Forall (own_event order_id) evs.
Proof.
  intros Hspec%spec_place_events.
  assert (∀ l q, Forall (own_event order_id) (spec_match order_id user_id side price l q).2) as Hp.
  { intros l q. pattern l, q, (spec_match order_id user_id side price l q).
    apply spec_match_ind; intros; csimpl in *; by repeat constructor. }
  specialize (Hp (view_side (opposite side) v) qty).
  destruct (spec_match _ _ _ _ _ _) as [[l q] evs']. simpl in *. subst evs.
  apply Forall_app. split; [done|]. case_decide; by repeat constructor.
Qed.
End theorems.
