(* ===== verification/BookTheorems.v ===== *)
(** * The order book's contract

    The claims about [zkapp/engine/src/lib.rs] with their witnesses.  Each is a
    short consequence of [Matching.v] and [BookProps.v]. *)

From S2P Require Import Prelude BTree Slab OrderBook BookSpec Matching BookProps.

Section contract.
Context {S : Type} `{!SlabOps S Order} `{!SlabLaws S Order} `{!Profile}.
Implicit Types (b : OrderBook S).

(** C1. Refinement.  In every book the engine can reach, [place_limit_order]
    returns, and both the new book and the events are those of the
    specification: match the opposite side in price-time priority, then rest
    what is left behind the orders of at least its priority. *)
Theorem place_refines_spec b order_id user_id side price quantity :
  reachable any_client b → quantity < U64 →
  ∃ b' evs,
    place_limit_order b order_id user_id side price quantity = Done (b', evs) ∧
    (view b', evs) = spec_place order_id user_id side price (view b) quantity.
Proof.
  intros Hr%reachable_wf Hq.
  destruct (place_limit_order_spec b order_id user_id side price quantity) as (b' & evs & ? & _ & ? & _);
    eauto.
Qed.

(** C2. Safety of every reachable state.  Whatever the clients send, no
    operation panics on a stale key or an overflow and no loop runs for ever;
    afterwards every resting order has a positive [u64] quantity and every bid
    is below every ask (the book is never crossed). *)
Theorem engine_never_stuck_or_crossed b e :
  reachable any_client b → entry_u64 e →
  ∃ b' evs, apply_entry b e = Done (b', evs) ∧
    (∀ s o, o ∈ view_side s (view b') → 0 < o_quantity o < U64 ∧ o_side o = s) ∧
    (∀ ob oa, ob ∈ v_bids (view b') → oa ∈ v_asks (view b') → o_price ob < o_price oa).
Proof.
  intros Hr%reachable_wf He. destruct (apply_entry_wf b e Hr He) as (b' & evs & Hrun & Hwf).
  exists b', evs. split_and!; [done| |].
  - intros s o Ho. destruct (wf_view_order b' s o Hwf Ho) as (_ & ? & ?). done.
  - intros ob oa Hob Hoa. apply (wf_uncrossed b' Hwf).
    + by destruct (wf_view_order b' Bid ob Hwf Hob).
    + by destruct (wf_view_order b' Ask oa Hwf Hoa).
Qed.

(** C3. Conservation.  An order's quantity is accounted for exactly: what was
    traded plus what was placed in the book is what was asked for. *)
Theorem place_conserves_quantity b order_id user_id side price quantity b' evs :
  reachable any_client b → quantity < U64 →
  place_limit_order b order_id user_id side price quantity = Done (b', evs) →
  traded evs + placed evs = quantity.
Proof.
  intros Hr Hq Hrun. destruct (reachable_place _ _ _ _ _ _ _ _ Hr Hq Hrun) as [_ Hspec].
  by eapply spec_place_conserves.
Qed.

(** C4. Every trade is within the taker's limit, at the price of the resting
    order, for at most that order's quantity, and never between two orders of
    the same user. *)
Theorem trades_respect_limit_and_owner b order_id user_id side price quantity b' evs m t p x :
  reachable any_client b → quantity < U64 →
  place_limit_order b order_id user_id side price quantity = Done (b', evs) →
  TradeExecuted m t p x ∈ evs →
  t = order_id ∧ 0 < x ≤ quantity ∧ (match side with Bid => p ≤ price | Ask => price ≤ p end) ∧
  ∃ o, o ∈ view_side (opposite side) (view b) ∧ o_id o = m ∧ o_price o = p ∧
    o_user_id o ≠ user_id ∧ x ≤ o_quantity o.
Proof.
  intros Hr Hq Hrun Hin. pose proof (reachable_wf _ _ Hr) as Hwf.
  destruct (reachable_place _ _ _ _ _ _ _ _ Hr Hq Hrun) as [_ Hspec%spec_place_events].
  pose proof (spec_match_trade order_id user_id side price
    (view_side (opposite side) (view b)) quantity m t p x) as Ht.
  pose proof (spec_match_events_quantity order_id user_id side price
    (view_side (opposite side) (view b)) quantity) as Hpos.
  destruct (spec_match _ _ _ _ _ _) as [[l q] evs']. simpl in *. subst evs.
  assert (TradeExecuted m t p x ∈ evs') as Hin'.
  { apply elem_of_app in Hin as [?|Hin]; [done|]. case_decide; set_solver. }
  destruct (Ht Hin') as (-> & Hm & Hx & Ho).
  assert (Forall (λ o, 0 < o_quantity o) (view_side (opposite side) (view b))) as Hv.
  { apply Forall_forall. intros o Ho'. by destruct (wf_view_order b _ o Hwf Ho') as (_ & _ & ? & _). }
  specialize (Hpos Hv). eapply Forall_forall in Hpos as [_ Hx0]; [|done].
  split_and!; [done|by eapply Hx0|done| |done].
  destruct side; simpl in Hm; by apply bool_decide_eq_true in Hm.
Qed.

(** C5. Strict price-time priority.  The events of an incoming order, its own
    placement apart, are one per order of the opposite side, from the best on
    and in order; those orders leave the book, except that the last of them may
    stay in front with a smaller quantity.  An order is touched only after every
    order ahead of it is gone. *)
Theorem place_respects_priority b order_id user_id side price quantity b' evs :
  reachable any_client b → quantity < U64 →
  place_limit_order b order_id user_id side price quantity = Done (b', evs) →
  ∃ n rest, maker_of <$> evs =
      ((Some ∘ o_id) <$> take n (view_side (opposite side) (view b))) ++ rest ∧
    (rest = [] ∨ rest = [None]) ∧
    (view_side (opposite side) (view b') = drop n (view_side (opposite side) (view b)) ∨
     ∃ k o x behind, n = Datatypes.S k ∧
       drop k (view_side (opposite side) (view b)) = o :: behind ∧ 0 < x < o_quantity o ∧
       view_side (opposite side) (view b') = set_quantity o x :: behind).
Proof.
  intros Hr Hq Hrun. destruct (reachable_place _ _ _ _ _ _ _ _ Hr Hq Hrun) as [_ Hspec].
  pose proof (spec_place_events _ _ _ _ _ _ _ _ Hspec) as Hev.
  pose proof (spec_match_priority order_id user_id side price (view_side (opposite side) (view b)) quantity) as Hp.
  pose proof (spec_match_remaining order_id user_id side price (view_side (opposite side) (view b)) quantity) as Hrem.
  unfold spec_place in Hspec.
  destruct (spec_match _ _ _ _ _ _) as [[l q] evs'] eqn:Hm. simpl in *. subst evs.
  assert (view_side (opposite side) (view b') = l) as ->.
  { case_decide; apply (f_equal fst) in Hspec; cbn [fst] in Hspec; rewrite Hspec; by destruct side. }
  eexists (length evs'), _. split_and!.
  - rewrite fmap_app, Hp. done.
  - case_decide; auto.
  - destruct Hrem as [->|(d & o & r & -> & Hl & _ & x & ? & ->)]; [by left|right].
    exists (length d), o, x, r. by rewrite drop_app_length.
Qed.

(** C6. Cancellation.  When clients never reuse the id of a resting order, the
    owner of a resting order can cancel it: the order leaves the book, every
    other order stays where it is, and the answer names the order. *)
Theorem cancel_removes_the_order b s o :
  reachable fresh_client b → o ∈ view_side s (view b) →
  ∃ b', cancel_order b (o_id o) (o_user_id o) = Done (b', [OrderCancelled (o_id o)]) ∧
    view b' = mkView (spec_cancel (o_id o) (v_bids (view b))) (spec_cancel (o_id o) (v_asks (view b))).
Proof.
  intros Hr Ho. pose proof (reachable_index_ok _ Hr) as Hix. apply reachable_wf in Hr as Hwf.
  destruct (live_in_view _ _ _ Ho) as (i & Hi). pose proof (Hix _ _ Hi) as Hidx.
  destruct (cancel_order_spec b (o_id o) (o_user_id o) i o) as
    (b' & l1 & l2 & Hrun & _ & Hv & Hv' & _ & Hget); [done..|].
  exists b'. split; [done|].
  assert (∀ s' x, x ∈ view_side s' (view b') → o_id x ≠ o_id o) as Hne.
  { intros s' x Hx Heq. destruct (live_in_view _ _ _ Hx) as (j & Hj). rewrite Hget in Hj.
    case_decide; [done|]. apply Hix in Hj. rewrite Heq in Hj. congruence. }
  assert (∀ l, (∀ x, x ∈ l → o_id x ≠ o_id o) → spec_cancel (o_id o) l = l) as Hid.
  { intros l Hl. unfold spec_cancel. induction l as [|x l IH]; [done|].
    rewrite filter_cons_True by set_solver. f_equal. apply IH. set_solver. }
  assert (spec_cancel (o_id o) (l1 ++ o :: l2) = l1 ++ l2) as Hcut.
  { unfold spec_cancel. rewrite filter_app, filter_cons_False by tauto. rewrite <-filter_app.
    apply Hid. intros x Hx. apply (Hne (o_side o)). rewrite Hv'. by destruct (o_side o). }
  assert (∀ s', s' ≠ o_side o → view_side s' (view b') = view_side s' (view b)) as Hother.
  { intros s' Hs'. rewrite Hv'. by destruct s', (o_side o). }
  rewrite Hv' at 1. unfold set_view_side.
  destruct (o_side o); simpl in Hv |- *; rewrite Hv, Hcut; f_equal; symmetry; apply Hid; intros x Hx;
    [apply (Hne Ask)|apply (Hne Bid)]; by rewrite Hother.
Qed.

(** C7. Authorisation.  Whatever the ids, a cancellation either changes nothing
    and reports nothing, or removes exactly one resting order, and that order
    belongs to the user who asked. *)
Theorem cancel_only_own_order b order_id user_id :
  reachable any_client b →
  ∃ b' evs, cancel_order b order_id user_id = Done (b', evs) ∧
    ((b' = b ∧ evs = []) ∨
     ∃ o l1 l2, o_user_id o = user_id ∧ evs = [OrderCancelled order_id] ∧
       view_side (o_side o) (view b) = l1 ++ o :: l2 ∧
       view b' = set_view_side (o_side o) (view b) (l1 ++ l2)).
Proof.
  intros Hr%reachable_wf.
  destruct (cancel_order_total b order_id user_id Hr) as (b' & evs & ? & _ & _ & ?). eauto.
Qed.

(** Depth.  As long as no level holds [2^64] units or more, [get_depth]
    returns the first [limit] levels of each side, best first, with the exact
    quantity resting at each price. *)
Theorem depth_is_exact b limit :
  reachable any_client b →
  (∀ s, Forall (λ l, l_quantity l < U64) (spec_depth (view_side s (view b)))) →
  get_depth b limit =
    Done (take limit (spec_depth (v_asks (view b))), take limit (spec_depth (v_bids (view b)))).
Proof. intros Hr%reachable_wf. by apply get_depth_exact. Qed.
End contract.

(** ** Runs on the concrete slab: witnesses and counterexamples *)
Module BookRuns.
Abbreviation Book := (OrderBook (VecSlab Order)).

Definition empty_book : Book := new.

Definition book_of `{Profile} (es : list LogEntry) : Book :=
  match apply_entries empty_book es with
  | Done b => b
  | _ => empty_book
  end.

#[local] Instance debug : Profile := true.
Definition release : Profile := false.

(** Two asks of user 1 and one bid of user 2. *)
Definition sample_entries : list LogEntry :=
  [Place 1 1 Ask 100 10; Place 2 2 Bid 90 5; Place 3 1 Ask 105 7].

Definition sample : Book := book_of sample_entries.

Lemma sample_reachable : reachable any_client sample.
Proof.
  apply (apply_entries_reachable empty_book sample_entries).
  - apply reach_new.
  - apply (bool_decide_unpack _). by vm_compute.
  - by vm_compute.
Qed.

Lemma vec_fresh_id (b : Book) order_id :
  Forall (λ x, match x with Some o => o_id o ≠ order_id | None => True end) (order_store b) →
  fresh_id b order_id.
Proof.
  intros Hall i o Ho. simpl in Ho. unfold vec_get in Ho.
  destruct (order_store b !! i) as [x|] eqn:Hx; [|done]. simpl in Ho. subst x.
  exact (Forall_lookup_1 _ _ _ _ Hall Hx).
Qed.

Lemma sample_fresh : reachable fresh_client sample.
Proof.
  eapply (reach_step _ (book_of (take 2 sample_entries)) (Place 3 1 Ask 105 7)); [|done| |by vm_compute].
  2:{ apply vec_fresh_id. vm_compute. by repeat constructor. }
  eapply (reach_step _ (book_of (take 1 sample_entries)) (Place 2 2 Bid 90 5)); [|done| |by vm_compute].
  2:{ apply vec_fresh_id. vm_compute. by repeat constructor. }
  eapply (reach_step _ empty_book (Place 1 1 Ask 100 10)); [apply reach_new|done| |by vm_compute].
  apply vec_fresh_id. constructor.
Qed.

Definition place_result := place_limit_order sample 4 2 Bid 102 12.
Definition place_book : Book := match place_result with Done r => r.1 | _ => empty_book end.
Definition place_events : list EngineEvent := match place_result with Done r => r.2 | _ => [] end.

Lemma place_refines_spec_witness :
  ∃ b' evs, place_limit_order sample 4 2 Bid 102 12 = Done (b', evs) ∧
    (view b', evs) = spec_place 4 2 Bid 102 (view sample) 12.
Proof. exact (place_refines_spec sample 4 2 Bid 102 12 sample_reachable eq_refl). Defined.

Lemma engine_never_stuck_or_crossed_witness :
  ∃ b' evs, apply_entry sample (Cancel 1 1) = Done (b', evs) ∧
    (∀ s o, o ∈ view_side s (view b') → 0 < o_quantity o < U64 ∧ o_side o = s) ∧
    (∀ ob oa, ob ∈ v_bids (view b') → oa ∈ v_asks (view b') → o_price ob < o_price oa).
Proof. exact (engine_never_stuck_or_crossed sample (Cancel 1 1) sample_reachable I). Defined.

Lemma place_conserves_quantity_witness :
  place_events = [TradeExecuted 1 4 100 10; OrderPlaced 4 2 102 2 Bid] ∧
  traded place_events + placed place_events = 12.
Proof.
  split; [vm_compute; reflexivity|].
  apply (place_conserves_quantity sample 4 2 Bid 102 12 place_book); [apply sample_reachable|done|].
  vm_compute. reflexivity.
Defined.

Lemma trades_respect_limit_and_owner_witness :
  4 = 4 ∧ 0 < 10 ≤ 12 ∧ 100 ≤ 102 ∧
  ∃ o, o ∈ v_asks (view sample) ∧ o_id o = 1 ∧ o_price o = 100 ∧ o_user_id o ≠ 2 ∧ 10 ≤ o_quantity o.
Proof.
  apply (trades_respect_limit_and_owner sample 4 2 Bid 102 12 place_book place_events 1 4 100 10);
    [apply sample_reachable|done|vm_compute; reflexivity|].
  apply (bool_decide_eq_true_1 _). vm_compute. reflexivity.
Defined.

Lemma place_respects_priority_witness :
  ∃ n rest, maker_of <$> place_events =
      ((Some ∘ o_id) <$> take n (v_asks (view sample))) ++ rest ∧
    (rest = [] ∨ rest = [None]) ∧
    (v_asks (view place_book) = drop n (v_asks (view sample)) ∨
     ∃ k o x behind, n = Datatypes.S k ∧
       drop k (v_asks (view sample)) = o :: behind ∧ 0 < x < o_quantity o ∧
       v_asks (view place_book) = set_quantity o x :: behind).
Proof.
  apply (place_respects_priority sample 4 2 Bid 102 12 place_book place_events);
    [apply sample_reachable|done|vm_compute; reflexivity].
Defined.

Lemma cancel_removes_the_order_witness :
  ∃ b', cancel_order sample 3 1 = Done (b', [OrderCancelled 3]) ∧
    view b' = mkView (spec_cancel 3 (v_bids (view sample))) (spec_cancel 3 (v_asks (view sample))).
Proof.
  apply (cancel_removes_the_order sample Ask (mkOrder 3 1 105 7 Ask 0)); [apply sample_fresh|].
  apply (bool_decide_eq_true_1 _). vm_compute. reflexivity.
Defined.

Lemma cancel_only_own_order_witness :
  ∃ b' evs, cancel_order sample 1 2 = Done (b', evs) ∧
    ((b' = sample ∧ evs = []) ∨
     ∃ o l1 l2, o_user_id o = 2 ∧ evs = [OrderCancelled 1] ∧
       view_side (o_side o) (view sample) = l1 ++ o :: l2 ∧
       view b' = set_view_side (o_side o) (view sample) (l1 ++ l2)).
Proof. exact (cancel_only_own_order sample 1 2 sample_reachable). Defined.

Lemma depth_is_exact_witness :
  get_depth sample 10 =
    Done (take 10 (spec_depth (v_asks (view sample))), take 10 (spec_depth (v_bids (view sample)))) ∧
  spec_depth (v_asks (view sample)) = [mkLevel 100 10; mkLevel 105 7].
Proof.
  split; [|vm_compute; reflexivity].
  apply (depth_is_exact sample 10 sample_reachable).
  intros []; apply (bool_decide_unpack _); vm_compute; exact I.
Defined.

(** A stale index entry.  Filling an order frees its slab key but leaves its
    entry in [order_index], and the slab may hand the key out again.  Here user
    1's order 1 is filled, the key goes to user 1's order 3, and cancelling
    order 1 then removes order 3 and reports that order 1 was cancelled. *)
Theorem cancel_filled_order_removes_another :
  let b := book_of [Place 1 1 Ask 100 10; Place 2 2 Bid 100 10; Place 3 1 Ask 200 5] in
  view b = mkView [] [mkOrder 3 1 200 5 Ask 0] ∧
  ∃ b', cancel_order b 1 1 = Done (b', [OrderCancelled 1]) ∧ view b' = mkView [] [].
Proof. split; [vm_compute; reflexivity|]. eexists. split; vm_compute; reflexivity. Qed.

(** Depth overflow.  Two resting bids of [2^63] units at one price are
    accepted, and then [get_depth] panics in a build with overflow checks and
    reports quantity zero in a build without. *)
Theorem depth_overflow :
  let es := [Place 1 1 Bid 100 9223372036854775808; Place 2 2 Bid 100 9223372036854775808] in
  @get_depth _ _ debug (book_of es) 10 = Panicked ∧
  @get_depth _ _ release (@book_of release es) 10 = Done ([], [mkLevel 100 0]).
Proof. split; vm_compute; reflexivity. Qed.
End BookRuns.
