(* ===== verification/Bytes.v ===== *)
(** * Bytes and fixed-width integers

    [u8] sequences, [u64::to_be_bytes] and what the code relies on: the length
    is fixed and an integer can be read back.  Used by the write-ahead log, by the
    hashes of the sequencer and by the signed encodings. *)

From S2P Require Import Prelude.
From Stdlib Require Import Strings.Byte.

Abbreviation byte := Byte.byte.
Abbreviation bytes := (list Byte.byte).

#[export] Instance byte_eq_dec : EqDecision byte := Byte.byte_eq_dec.

#[export] Instance byte_countable : Countable byte :=
  inj_countable Byte.to_N Byte.of_N Byte.of_to_N.

Definition byte_of_N (n : N) : byte := default Byte.x00 (Byte.of_N (n mod 256)).

(** [str::from_utf8]: well-formed UTF-8, by the table of the Unicode standard. *)
Definition in_range (lo hi : N) (b : byte) : bool := (lo <=? Byte.to_N b) && (Byte.to_N b <=? hi).

Definition continuation : byte → bool := in_range 128 191.

Fixpoint is_utf8 (bs : bytes) : bool :=
  match bs with
  | [] => true
  | b :: bs =>
    if in_range 0 127 b then is_utf8 bs
    else
      match bs with
      | [] => false
      | c :: bs =>
        if in_range 194 223 b then continuation c && is_utf8 bs
        else
          match bs with
          | [] => false
          | d :: bs =>
            if in_range 224 239 b then
              in_range (if decide (Byte.to_N b = 224) then 160 else 128)
                       (if decide (Byte.to_N b = 237) then 159 else 191) c
              && continuation d && is_utf8 bs
            else
              match bs with
              | [] => false
              | e :: bs =>
                in_range 240 244 b
                && in_range (if decide (Byte.to_N b = 240) then 144 else 128)
                            (if decide (Byte.to_N b = 244) then 143 else 191) c
                && continuation d && continuation e && is_utf8 bs
              end
          end
      end
  end.

(** [to_be_bytes] at width [w]. *)
Fixpoint be_bytes (w : nat) (n : N) : bytes :=
  match w with
  | O => []
  | S w => be_bytes w (n / 256) ++ [byte_of_N n]
  end.

Definition be_value (bs : bytes) : N := foldl (λ acc b, acc * 256 + Byte.to_N b) 0 bs.

Definition to_be_bytes (n : N) : bytes := be_bytes 8 n.

(** [to_le_bytes] at width [w]. *)
Definition le_bytes (w : nat) (n : N) : bytes := reverse (be_bytes w n).
Definition le_value (bs : bytes) : N := be_value (reverse bs).

Lemma to_N_byte_of_N n : Byte.to_N (byte_of_N n) = n mod 256.
Proof.
  unfold byte_of_N. assert (n mod 256 < 256) as Hlt by (by apply N.mod_lt).
  destruct (Byte.of_N (n mod 256)) as [b|] eqn:Hb; simpl.
  - by apply Byte.to_of_N.
  - apply Byte.of_N_None_iff in Hb. lia.
Qed.

Lemma length_be_bytes w n : length (be_bytes w n) = w.
Proof. revert n. induction w as [|w IH]; intros n; simpl; [done|]. rewrite length_app, IH. simpl. lia. Qed.

Lemma be_value_be_bytes w n : n < 256 ^ N.of_nat w → be_value (be_bytes w n) = n.
Proof.
  revert n. induction w as [|w IH]; intros n Hn; simpl.
  - rewrite N.pow_0_r in Hn. unfold be_value. simpl. lia.
  - rewrite Nat2N.inj_succ, N.pow_succ_r' in Hn.
    unfold be_value. rewrite foldl_app. simpl. fold (be_value (be_bytes w (n / 256))).
    rewrite IH by (apply N.Div0.div_lt_upper_bound; lia).
    rewrite to_N_byte_of_N. pose proof (N.Div0.div_mod n 256). lia.
Qed.

Lemma be_bytes_inj w n m :
  n < 256 ^ N.of_nat w → m < 256 ^ N.of_nat w → be_bytes w n = be_bytes w m → n = m.
Proof. intros Hn Hm Heq. rewrite <-(be_value_be_bytes w n), <-(be_value_be_bytes w m) by done. by rewrite Heq. Qed.

Lemma length_to_be_bytes n : length (to_be_bytes n) = 8%nat.
Proof. apply length_be_bytes. Qed.

Lemma to_be_bytes_inj n m : n < U64 → m < U64 → to_be_bytes n = to_be_bytes m → n = m.
Proof. by apply (be_bytes_inj 8). Qed.

Lemma be_value_lt bs : be_value bs < 256 ^ N.of_nat (length bs).
Proof.
  induction bs as [|b bs IH] using rev_ind; [unfold be_value; simpl; lia|].
  unfold be_value in *. rewrite foldl_app, length_app. simpl.
  replace (N.of_nat (length bs + 1)) with (N.succ (N.of_nat (length bs))) by lia.
  rewrite N.pow_succ_r'. pose proof (Byte.to_N_bounded b). lia.
Qed.

Lemma be_bytes_be_value bs : be_bytes (length bs) (be_value bs) = bs.
Proof.
  induction bs as [|b bs IH] using rev_ind; [done|].
  rewrite length_app, Nat.add_1_r. cbn [be_bytes]. unfold be_value. rewrite foldl_app. cbn [foldl].
  fold (be_value bs). pose proof (Byte.to_N_bounded b). f_equal.
  - rewrite N.div_add_l, (N.div_small (Byte.to_N b)), N.add_0_r by lia. done.
  - unfold byte_of_N. rewrite N.add_comm, N.Div0.mod_add, N.mod_small, Byte.of_to_N by lia. done.
Qed.

Lemma le_value_le_bytes w n : n < 256 ^ N.of_nat w → le_value (le_bytes w n) = n.
Proof. intros. unfold le_value, le_bytes. rewrite reverse_involutive. by apply be_value_be_bytes. Qed.

Lemma length_le_bytes w n : length (le_bytes w n) = w.
Proof. unfold le_bytes. by rewrite length_reverse, length_be_bytes. Qed.

Lemma le_value_lt bs : le_value bs < 256 ^ N.of_nat (length bs).
Proof. unfold le_value. rewrite <-(length_reverse bs). apply be_value_lt. Qed.

Lemma le_bytes_le_value bs : le_bytes (length bs) (le_value bs) = bs.
Proof.
  unfold le_bytes, le_value. rewrite <-(length_reverse bs), be_bytes_be_value. apply reverse_involutive.
Qed.

(** ** UTF-8 *)

(** ASCII text is UTF-8. *)
Lemma ascii_is_utf8 bs : Forall (λ b, Byte.to_N b <= 127) bs → is_utf8 bs = true.
Proof.
  induction 1 as [|b bs Hb _ IH]; [done|]. cbn [is_utf8]. unfold in_range at 1.
  rewrite (proj2 (N.leb_le 0 _)), (proj2 (N.leb_le _ 127)) by lia. done.
Qed.

Example utf8_accepts : is_utf8 [Byte.x41; Byte.xc3; Byte.xa9; Byte.xe2; Byte.x82; Byte.xac] = true.
Proof. reflexivity. Qed.

Example utf8_rejects_overlong : is_utf8 [Byte.xc0; Byte.x80] = false.
Proof. reflexivity. Qed.

Example utf8_rejects_surrogate : is_utf8 [Byte.xed; Byte.xa0; Byte.x80] = false.
Proof. reflexivity. Qed.
