(* ===== verification/Borsh.v ===== *)
(** * The borsh format

    The binary format of the borsh crate, by its specification: little-endian
    integers, a [u32] count in front of vectors and strings, one byte for the
    variant of an enumeration, fields in the order of their declaration.  A
    [Format] is an encoder and a decoder with two laws: what was encoded is
    decoded again in front of any other bytes, and only an encoding is decoded.
    Formats are built with one combinator per construct of Rust's types, so the
    laws hold of every derived format. *)

From S2P Require Import Prelude Bytes.

Record Format (A : Type) := mkFormat {
  (** [None]: a length exceeds its prefix, or the value is not of the Rust type *)
  enc : A → option bytes;
  (** the value and the bytes that are left *)
  dec : bytes → option (A * bytes);
  enc_dec a bs rest : enc a = Some bs → dec (bs ++ rest) = Some (a, rest);
  dec_enc bs a rest : dec bs = Some (a, rest) → ∃ pre, enc a = Some pre ∧ bs = pre ++ rest;
}.
Arguments mkFormat {A}.
Arguments enc {A}.
Arguments dec {A}.
Arguments enc_dec {A}.
Arguments dec_enc {A}.

(** [borsh::to_vec] and [borsh::from_slice], which refuses trailing bytes. *)
Definition to_vec {A} (F : Format A) (a : A) : option bytes := enc F a.

Definition from_slice {A} (F : Format A) (bs : bytes) : option A :=
  match dec F bs with
  | Some (a, []) => Some a
  | _ => None
  end.

(** The two functions are inverse: an encoding is unique and so is its value. *)
Lemma from_slice_to_vec {A} (F : Format A) a bs : from_slice F bs = Some a ↔ to_vec F a = Some bs.
Proof.
  unfold from_slice, to_vec. split.
  - destruct (dec F bs) as [[a' [|b rest]]|] eqn:Hdec; [|done..]. intros [= ->].
    apply dec_enc in Hdec as (pre & Henc & ->). by rewrite app_nil_r.
  - intros Henc%(enc_dec F _ _ []). rewrite app_nil_r in Henc. by rewrite Henc.
Qed.

Lemma to_vec_inj {A} (F : Format A) a b bs : to_vec F a = Some bs → to_vec F b = Some bs → a = b.
Proof. rewrite <-!from_slice_to_vec. congruence. Qed.

(** No encoding is a proper prefix of another. *)
Lemma enc_prefix_free {A} (F : Format A) a b bs rest :
  enc F a = Some bs → enc F b = Some (bs ++ rest) → a = b ∧ rest = [].
Proof.
  intros Ha Hb. apply (enc_dec F _ _ rest) in Ha. apply (enc_dec F _ _ []) in Hb.
  rewrite app_nil_r in Hb. split; congruence.
Qed.

(** ** Fixed arrays and integers *)
Program Definition fmt_fixed (n : nat) : Format bytes := {|
  enc bs := if decide (length bs = n) then Some bs else None;
  dec bs := if decide (n ≤ length bs)%nat then Some (take n bs, drop n bs) else None;
|}.
Next Obligation.
  intros n a bs rest. simpl. case_decide as Hn; [|done]. intros [= ->].
  rewrite decide_True by (rewrite length_app; lia). subst n. by rewrite take_app_length, drop_app_length.
Qed.
Next Obligation.
  intros n bs a rest. simpl. case_decide as Hn; [|done]. intros [= <- <-]. exists (take n bs).
  rewrite take_drop, decide_True by (rewrite length_take; lia). done.
Qed.

Program Definition fmt_uint (w : nat) : Format N := {|
  enc n := if decide (n < 256 ^ N.of_nat w) then Some (le_bytes w n) else None;
  dec bs := if decide (w ≤ length bs)%nat then Some (le_value (take w bs), drop w bs) else None;
|}.
Next Obligation.
  intros w n bs rest. simpl. case_decide as Hn; [|done]. intros [= <-].
  rewrite decide_True by (rewrite length_app, length_le_bytes; lia).
  rewrite take_app_length', drop_app_length' by (by rewrite length_le_bytes). by rewrite le_value_le_bytes.
Qed.
Next Obligation.
  intros w bs n rest. simpl. case_decide as Hw; [|done]. intros [= <- <-]. exists (take w bs).
  assert (length (take w bs) = w) as Hlen by (rewrite length_take; lia).
  pose proof (le_value_lt (take w bs)) as Hlt. rewrite Hlen in Hlt. rewrite decide_True by done.
  pose proof (le_bytes_le_value (take w bs)) as Hle. rewrite Hlen in Hle. by rewrite Hle, take_drop.
Qed.

Definition fmt_u8 : Format N := fmt_uint 1.
Definition fmt_u32 : Format N := fmt_uint 4.
Definition fmt_u64 : Format N := fmt_uint 8.

(** ** Products, and types that are another one in disguise *)
Program Definition fmt_unit : Format () := {|
  enc _ := Some [];
  dec bs := Some ((), bs);
|}.
Next Obligation. intros [] bs rest [= <-]. done. Qed.
Next Obligation. intros bs [] rest [= <-]. by exists []. Qed.

Program Definition fmt_pair {A B} (F : Format A) (G : Format B) : Format (A * B) := {|
  enc p := x ← enc F p.1; y ← enc G p.2; Some (x ++ y);
  dec bs := '(a, bs) ← dec F bs; '(b, bs) ← dec G bs; Some ((a, b), bs);
|}.
Next Obligation.
  intros A B F G [a b] bs rest. simpl. destruct (enc F a) as [x|] eqn:Ha; [|done]. simpl.
  destruct (enc G b) as [y|] eqn:Hb; [|done]. simpl. intros [= <-].
  rewrite <-app_assoc, (enc_dec F _ _ _ Ha). simpl. by rewrite (enc_dec G _ _ _ Hb).
Qed.
Next Obligation.
  intros A B F G bs [a b] rest. simpl. destruct (dec F bs) as [[a' bs1]|] eqn:Ha; [|done]. simpl.
  destruct (dec G bs1) as [[b' bs2]|] eqn:Hb; [|done]. simpl. intros [= -> -> ->].
  apply dec_enc in Ha as (x & Hx & ->). apply dec_enc in Hb as (y & Hy & ->).
  exists (x ++ y). rewrite Hx. simpl. rewrite Hy. simpl. by rewrite app_assoc.
Qed.

(** [to] reads a [B] out of an [A] where there is one, [from] is its inverse. *)
Program Definition fmt_refine {A B} (F : Format A) (to : A → option B) (from : B → A)
    (inv : ∀ a b, to a = Some b → from b = a) (total : ∀ b bs, enc F (from b) = Some bs → to (from b) = Some b)
    : Format B := {|
  enc b := enc F (from b);
  dec bs := '(a, bs) ← dec F bs; b ← to a; Some (b, bs);
|}.
Next Obligation.
  intros A B F to from inv total b bs rest Hb. simpl. rewrite (enc_dec F _ _ _ Hb). simpl.
  by rewrite (total _ _ Hb).
Qed.
Next Obligation.
  intros A B F to from inv total bs b rest. simpl. destruct (dec F bs) as [[a bs1]|] eqn:Ha; [|done]. simpl.
  destruct (to a) as [b'|] eqn:Hb; [|done]. simpl. intros [= -> ->]. rewrite (inv _ _ Hb). by apply dec_enc.
Qed.

Definition fmt_iso {A B} (F : Format A) (to : A → B) (from : B → A)
    (inv : ∀ a, from (to a) = a) (total : ∀ b, to (from b) = b) : Format B :=
  fmt_refine F (λ a, Some (to a)) from
    (λ a b e, eq_trans (f_equal from (eq_sym (Some_inj _ _ e))) (inv a)) (λ b _ _, f_equal Some (total b)).

(** [bool]: one byte, zero or one. *)
Definition bool_of_N (n : N) : option bool :=
  if decide (n = 0) then Some false else if decide (n = 1) then Some true else None.

Program Definition fmt_bool : Format bool := fmt_refine fmt_u8 bool_of_N N.b2n _ _.
Next Obligation. intros n b. unfold bool_of_N. repeat case_decide; intros [= <-]; done. Qed.
Next Obligation. by intros [] bs. Qed.

(** ** Vectors *)
Fixpoint enc_items {A} (F : Format A) (l : list A) : option bytes :=
  match l with
  | [] => Some []
  | a :: l => x ← enc F a; y ← enc_items F l; Some (x ++ y)
  end.

Fixpoint dec_items {A} (F : Format A) (n : nat) (bs : bytes) : option (list A * bytes) :=
  match n with
  | O => Some ([], bs)
  | S n => '(a, bs) ← dec F bs; '(l, bs) ← dec_items F n bs; Some (a :: l, bs)
  end.

Lemma enc_items_dec {A} (F : Format A) l bs rest :
  enc_items F l = Some bs → dec_items F (length l) (bs ++ rest) = Some (l, rest).
Proof.
  revert bs. induction l as [|a l IH]; intros bs; simpl; [by intros [= <-]|].
  destruct (enc F a) as [x|] eqn:Ha; [|done]. simpl. destruct (enc_items F l) as [y|]; [|done]. simpl.
  intros [= <-]. rewrite <-app_assoc, (enc_dec F _ _ _ Ha). simpl. by rewrite IH.
Qed.

Lemma dec_items_enc {A} (F : Format A) n bs l rest :
  dec_items F n bs = Some (l, rest) →
  length l = n ∧ ∃ pre, enc_items F l = Some pre ∧ bs = pre ++ rest.
Proof.
  revert bs l. induction n as [|n IH]; intros bs l; simpl; [intros [= <- ->]; split; [done|by exists []]|].
  destruct (dec F bs) as [[a bs1]|] eqn:Ha; [|done]. simpl.
  destruct (dec_items F n bs1) as [[l' bs2]|] eqn:Hl; [|done]. simpl. intros [= <- ->].
  apply dec_enc in Ha as (x & Hx & ->). destruct (IH _ _ Hl) as (<- & y & Hy & ->).
  split; [done|]. exists (x ++ y). simpl. rewrite Hx. simpl. rewrite Hy. simpl. by rewrite app_assoc.
Qed.

(** A format without empty encodings.  borsh refuses collections of types that
    have one, so a vector is never longer than the bytes it is read from. *)
Definition solid {A} (F : Format A) : Prop := ∀ a bs, enc F a = Some bs → bs ≠ [].

Lemma enc_items_length {A} (F : Format A) l bs :
  solid F → enc_items F l = Some bs → (length l ≤ length bs)%nat.
Proof.
  intros HF. revert bs. induction l as [|a l IH]; intros bs; simpl; [lia|].
  destruct (enc F a) as [x|] eqn:Ha; [|done]. simpl. destruct (enc_items F l) as [y|]; [|done]. simpl.
  intros [= <-]. specialize (IH y eq_refl). apply HF in Ha. rewrite length_app.
  destruct x; [done|simpl; lia].
Qed.

Program Definition fmt_vec {A} (F : Format A) (HF : solid F) : Format (list A) := {|
  enc l := n ← enc fmt_u32 (N.of_nat (length l)); items ← enc_items F l; Some (n ++ items);
  dec bs := '(n, bs) ← dec fmt_u32 bs;
            if decide (n ≤ N.of_nat (length bs)) then dec_items F (N.to_nat n) bs else None;
|}.
Next Obligation.
  intros A F HF l bs rest. cbn beta. destruct (enc fmt_u32 _) as [n|] eqn:Hn; [|done]. cbn [mbind option_bind].
  destruct (enc_items F l) as [items|] eqn:Hl; [|done]. cbn [mbind option_bind]. intros [= <-].
  rewrite <-app_assoc, (enc_dec fmt_u32 _ _ _ Hn). cbn [mbind option_bind].
  rewrite decide_True, Nat2N.id.
  - by apply enc_items_dec.
  - apply enc_items_length in Hl; [|done]. rewrite length_app. lia.
Qed.
Next Obligation.
  intros A F HF bs l rest. cbn beta. destruct (dec fmt_u32 bs) as [[n bs1]|] eqn:Hn; [|done]. cbn [mbind option_bind].
  case_decide; [|done]. intros (Hlen & items & Hl & ->)%dec_items_enc.
  apply dec_enc in Hn as (pre & Hn & ->). exists (pre ++ items).
  rewrite Hlen, N2Nat.id, Hn. cbn [mbind option_bind]. rewrite Hl. cbn [mbind option_bind]. by rewrite app_assoc.
Qed.

(** [Vec<u8>]: read at once. *)
Program Definition fmt_bytes : Format bytes := {|
  enc bs := n ← enc fmt_u32 (N.of_nat (length bs)); Some (n ++ bs);
  dec bs := '(n, bs) ← dec fmt_u32 bs;
            if decide (n ≤ N.of_nat (length bs)) then Some (take (N.to_nat n) bs, drop (N.to_nat n) bs) else None;
|}.
Next Obligation.
  intros l bs rest. cbn beta. destruct (enc fmt_u32 _) as [n|] eqn:Hn; [|done]. cbn [mbind option_bind].
  intros [= <-]. rewrite <-app_assoc, (enc_dec fmt_u32 _ _ _ Hn). cbn [mbind option_bind].
  rewrite decide_True, Nat2N.id by (rewrite length_app; lia). by rewrite take_app_length, drop_app_length.
Qed.
Next Obligation.
  intros bs l rest. cbn beta. destruct (dec fmt_u32 bs) as [[n bs1]|] eqn:Hn; [|done]. cbn [mbind option_bind].
  case_decide; [|done]. intros [= <- <-]. apply dec_enc in Hn as (pre & Hn & ->).
  exists (pre ++ take (N.to_nat n) bs1). rewrite length_take, Nat.min_l, N2Nat.id, Hn by lia.
  cbn [mbind option_bind]. by rewrite <-app_assoc, take_drop.
Qed.

(** [String]: the bytes of a [Vec<u8>], which must be UTF-8. *)
Program Definition fmt_text : Format bytes := {|
  enc bs := if is_utf8 bs then enc fmt_bytes bs else None;
  dec bs := '(text, bs) ← dec fmt_bytes bs; if is_utf8 text then Some (text, bs) else None;
|}.
Next Obligation.
  intros t bs rest. cbn beta. destruct (is_utf8 t) eqn:Ht; [|done]. intros Hb.
  rewrite (enc_dec fmt_bytes _ _ _ Hb). cbn [mbind option_bind]. by rewrite Ht.
Qed.
Next Obligation.
  intros bs t rest. cbn beta. destruct (dec fmt_bytes bs) as [[t' bs1]|] eqn:Hb; [|done]. cbn [mbind option_bind].
  destruct (is_utf8 t') eqn:Ht; [|done]. intros [= -> ->]. rewrite Ht. by apply dec_enc.
Qed.

(** The same for Rocq's strings of characters. *)
Definition fmt_string : Format string :=
  fmt_iso fmt_text String.string_of_list_byte String.list_byte_of_string
    String.list_byte_of_string_of_list_byte String.string_of_list_byte_of_string.

(** ** Enumerations

    The variants of an enumeration: a number and the fields.  [v_cons] adds one in
    front of others, whose numbers move up. *)
Record Variants (A : Type) := mkVariants {
  v_enc : A → option (N * bytes);
  v_dec : N → bytes → option (A * bytes);
  v_enc_dec a t bs rest : v_enc a = Some (t, bs) → v_dec t (bs ++ rest) = Some (a, rest);
  v_dec_enc t bs a rest : v_dec t bs = Some (a, rest) → ∃ pre, v_enc a = Some (t, pre) ∧ bs = pre ++ rest;
}.
Arguments v_enc {A}.
Arguments v_dec {A}.
Arguments v_enc_dec {A}.
Arguments v_dec_enc {A}.

Program Definition v_last {A} (F : Format A) : Variants A := {|
  v_enc a := bs ← enc F a; Some (0, bs);
  v_dec t bs := if decide (t = 0) then dec F bs else None;
|}.
Next Obligation.
  intros A F a t bs rest. simpl. destruct (enc F a) as [x|] eqn:Ha; [|done]. simpl. intros [= <- <-].
  by rewrite decide_True, (enc_dec F _ _ _ Ha).
Qed.
Next Obligation.
  intros A F t bs a rest. simpl. case_decide as Ht; [|done]. subst t. intros (x & Hx & ->)%dec_enc.
  exists x. by rewrite Hx.
Qed.

Program Definition v_cons {A B} (F : Format A) (V : Variants B) : Variants (A + B) := {|
  v_enc v := match v with
             | inl a => bs ← enc F a; Some (0, bs)
             | inr b => '(t, bs) ← v_enc V b; Some (N.succ t, bs)
             end;
  v_dec t bs := if decide (t = 0) then '(a, bs) ← dec F bs; Some (inl a, bs)
                else '(b, bs) ← v_dec V (N.pred t) bs; Some (inr b, bs);
|}.
Next Obligation.
  intros A B F V [a|b] t bs rest; simpl.
  - destruct (enc F a) as [x|] eqn:Ha; [|done]. simpl. intros [= <- <-].
    rewrite decide_True by done. by rewrite (enc_dec F _ _ _ Ha).
  - destruct (v_enc V b) as [[t' x]|] eqn:Hb; [|done]. simpl. intros [= <- <-].
    rewrite decide_False, N.pred_succ by lia. by rewrite (v_enc_dec V _ _ _ _ Hb).
Qed.
Next Obligation.
  intros A B F V t bs v rest. simpl. case_decide as Ht.
  - destruct (dec F bs) as [[a bs1]|] eqn:Ha; [|done]. simpl. intros [= <- ->].
    apply dec_enc in Ha as (x & Hx & ->). exists x. subst t. by rewrite Hx.
  - destruct (v_dec V (N.pred t) bs) as [[b bs1]|] eqn:Hb; [|done]. simpl. intros [= <- ->].
    apply v_dec_enc in Hb as (x & Hx & ->). exists x. rewrite Hx. simpl. by rewrite N.succ_pred.
Qed.

Program Definition fmt_enum {A} (V : Variants A) : Format A := {|
  enc a := '(t, bs) ← v_enc V a; tag ← enc fmt_u8 t; Some (tag ++ bs);
  dec bs := '(t, bs) ← dec fmt_u8 bs; v_dec V t bs;
|}.
Next Obligation.
  intros A V a bs rest. cbn beta. destruct (v_enc V a) as [[t x]|] eqn:Ha; [|done]. cbn [mbind option_bind].
  destruct (enc fmt_u8 t) as [tag|] eqn:Ht; [|done]. cbn [mbind option_bind]. intros [= <-].
  rewrite <-app_assoc, (enc_dec fmt_u8 _ _ _ Ht). cbn [mbind option_bind]. by apply v_enc_dec.
Qed.
Next Obligation.
  intros A V bs a rest. cbn beta. destruct (dec fmt_u8 bs) as [[t bs1]|] eqn:Ht; [|done]. cbn [mbind option_bind].
  intros (x & Hx & ->)%v_dec_enc. apply dec_enc in Ht as (tag & Ht & ->). exists (tag ++ x).
  rewrite Hx. cbn [mbind option_bind]. rewrite Ht. cbn [mbind option_bind]. by rewrite app_assoc.
Qed.

(** [Option]. *)
Program Definition fmt_option {A} (F : Format A) : Format (option A) :=
  fmt_iso (fmt_enum (v_cons fmt_unit (v_last F)))
    (λ v, match v with inl _ => None | inr a => Some a end)
    (λ o, match o with None => inl () | Some a => inr a end) _ _.
Next Obligation. by intros A F [[]|a]. Qed.
Next Obligation. by intros A F [a|]. Qed.

(** ** Formats without empty encodings *)
Lemma solid_fixed n : (0 < n)%nat → solid (fmt_fixed n).
Proof. intros Hn a bs. simpl. case_decide; [|done]. intros [= <-] ->. simpl in *. lia. Qed.

Lemma solid_uint w : (0 < w)%nat → solid (fmt_uint w).
Proof.
  intros Hw n bs. cbn [fmt_uint enc]. case_decide; [|done]. intros [= <-] Hn.
  apply (f_equal length) in Hn. rewrite length_le_bytes in Hn. simpl in Hn. lia.
Qed.

Lemma solid_bytes : solid fmt_bytes.
Proof.
  intros a bs. cbn [fmt_bytes enc]. destruct (enc fmt_u32 _) as [n|] eqn:Hn; [|done]. cbn [mbind option_bind].
  intros [= <-] [-> _]%app_nil. by apply (solid_uint 4) in Hn; [|lia].
Qed.

Lemma solid_text : solid fmt_text.
Proof. intros a bs. cbn [fmt_text enc]. destruct (is_utf8 a); [|done]. apply solid_bytes. Qed.

Lemma solid_string : solid fmt_string.
Proof. intros a bs. apply solid_text. Qed.

Lemma solid_pair {A B} (F : Format A) (G : Format B) : solid F → solid (fmt_pair F G).
Proof.
  intros HF [a b] bs. simpl. destruct (enc F a) as [x|] eqn:Ha; [|done]. simpl.
  destruct (enc G b); [|done]. simpl. intros [= <-] [-> _]%app_nil. by apply HF in Ha.
Qed.

Create HintDb borsh.
#[export] Hint Resolve solid_fixed solid_uint solid_bytes solid_text solid_string solid_pair : borsh.
