(* ===== verification/Wal.v ===== *)
(** * The write-ahead log ([zkapp/engine/src/wal.rs])

    The log file is its bytes; [WalHandler] is a [BufWriter] on a file opened in
    append mode, so it is the file together with what is still buffered.  The
    serialiser ([bincode]) is a third-party crate and enters as an interface
    with the behaviour the log relies on; [Bincode.v] satisfies it. *)

From S2P Require Import Prelude BTree Slab OrderBook BookSpec Bytes.

(** ** The serialiser *)

(** [encode_into_std_write] and [decode_from_std_read]; a failed decode is
    [None], a successful one also gives the bytes that are left to read. *)
Class Codec (A : Type) := {
  codec_encode : A → bytes;
  codec_decode : bytes → option (A * bytes);
}.

(** [valid] is what Rust's types already guarantee: every field fits its width. *)
Class CodecLaws (A : Type) `{!Codec A} (valid : A → Prop) := {
  decode_encode a rest : valid a → codec_decode (codec_encode a ++ rest) = Some (a, rest);
  (** the reader reports the end of the input instead of inventing a value *)
  decode_truncated a p q :
    valid a → codec_encode a = p ++ q → q ≠ [] → codec_decode p = None;
  (** a decoded value consumes input *)
  decode_consumes bs a rest : codec_decode bs = Some (a, rest) → (length rest < length bs)%nat;
  (** a decoded value is well typed *)
  decode_valid bs a rest : codec_decode bs = Some (a, rest) → valid a;
}.

(** ** The log *)

(** The file and the buffer of the [BufWriter]. *)
Record WalHandler := mkWal { disk : bytes; buffer : bytes }.

(** The fate of one write and flush: everything reaches the file; or the flush
    fails after [n] bytes of the buffer did, and the rest stays buffered; or the
    buffer was full of earlier entries, so that the encoder stopped after [k]
    bytes of this one when emptying it failed after [n] bytes. *)
Inductive Io := IoOk | IoErr (n : nat) | IoFull (k n : nat).

(** The entry was encoded to its end. *)
Definition whole (io : Io) : Prop :=
  match io with
  | IoFull _ _ => False
  | _ => True
  end.

#[export] Instance whole_dec io : Decision (whole io).
Proof. destruct io; apply _. Defined.

Section wal.
Context `{!Codec LogEntry}.

(** [WalHandler::new]: open for appending, create when missing. *)
Definition wal_open (file : option bytes) : WalHandler := mkWal (default [] file) [].

Definition write_entry (w : WalHandler) (entry : LogEntry) (io : Io) : WalHandler * result () () :=
  let buffered := buffer w ++ codec_encode entry in
  match io with
  | IoOk => (mkWal (disk w ++ buffered) [], Ok ())
  | IoErr n => (mkWal (disk w ++ take n buffered) (drop n buffered), Err ())
  | IoFull k n =>
      let buffered := buffer w ++ take k (codec_encode entry) in
      (mkWal (disk w ++ take n buffered) (drop n buffered), Err ())
  end.

(** The loop of [read_all]: decode until the decoder fails. *)
Fixpoint read_loop (fuel : nat) (reader : bytes) (entries : list LogEntry) : outcome (list LogEntry) :=
  match fuel with
  | O => NoFuel
  | S fuel =>
    match codec_decode reader with
    | Some (entry, reader) => read_loop fuel reader (entries ++ [entry])
    | None => Done entries
    end
  end.

(** A file that cannot be opened reads as empty. *)
Definition read_all (file : option bytes) : outcome (result (list LogEntry) ()) :=
  match file with
  | None => Done (Ok [])
  | Some contents =>
    entries ← read_loop (S (length contents)) contents [];
    Done (Ok entries)
  end.

(** A sequence of writes with the fate of each. *)
Fixpoint write_all (w : WalHandler) (l : list (LogEntry * Io)) : WalHandler :=
  match l with
  | [] => w
  | (e, io) :: l => write_all (write_entry w e io).1 l
  end.

Definition log_bytes (es : list LogEntry) : bytes := es ≫= codec_encode.
End wal.

(** Every field of the entry is a [u64]. *)
Definition entry_valid (e : LogEntry) : Prop :=
  match e with
  | Place a b _ c d => a < U64 ∧ b < U64 ∧ c < U64 ∧ d < U64
  | Cancel a b => a < U64 ∧ b < U64
  end.

#[export] Instance entry_valid_dec e : Decision (entry_valid e).
Proof. destruct e; simpl; apply _. Defined.

Section wal_laws.
Context `{!Codec LogEntry} `{!CodecLaws LogEntry entry_valid}.
Implicit Types (es : list LogEntry) (w : WalHandler).

Lemma read_loop_log es rest fuel acc :
  Forall entry_valid es → codec_decode rest = None → (length es < fuel)%nat →
  read_loop fuel (log_bytes es ++ rest) acc = Done (acc ++ es).
Proof.
  intros Hes Hrest. revert fuel acc.
  induction Hes as [|e es He _ IH]; intros [|fuel] acc Hfuel; simpl in *; try lia.
  - by rewrite Hrest, app_nil_r.
  - unfold log_bytes in *. csimpl. rewrite <-app_assoc, decode_encode by done.
    rewrite IH by lia. by rewrite <-app_assoc.
Qed.

(** Whatever the bytes are, reading ends, with well-typed entries. *)
Lemma read_loop_total fuel bs acc :
  (length bs < fuel)%nat → Forall entry_valid acc →
  ∃ es, read_loop fuel bs acc = Done es ∧ Forall entry_valid es.
Proof.
  revert bs acc. induction fuel as [|fuel IH]; intros bs acc Hlt Hacc; [lia|]. simpl.
  destruct (codec_decode bs) as [[e rest]|] eqn:Hd; [|by eexists].
  pose proof (decode_valid _ _ _ Hd). apply decode_consumes in Hd. apply IH; [lia|].
  apply Forall_app. auto.
Qed.

Lemma decode_nil e : entry_valid e → codec_decode ([] : bytes) = None.
Proof.
  intros He. destruct (codec_encode e) as [|x l] eqn:Hx.
  - pose proof (decode_encode e [] He) as Hd. rewrite app_nil_r in Hd.
    apply decode_consumes in Hd. rewrite Hx in Hd. simpl in Hd. lia.
  - eapply (decode_truncated e [] (x :: l)); done.
Qed.

Lemma length_log_bytes es : Forall entry_valid es → (length es ≤ length (log_bytes es))%nat.
Proof.
  unfold log_bytes. induction 1 as [|e es He _ IH]; csimpl; [lia|]. rewrite length_app.
  pose proof (decode_encode e [] He) as Hd. apply decode_consumes in Hd.
  rewrite app_nil_r in Hd. simpl in Hd. lia.
Qed.

Lemma log_bytes_app es1 es2 : log_bytes (es1 ++ es2) = log_bytes es1 ++ log_bytes es2.
Proof. apply bind_app. Qed.

(** Nothing is reordered or dropped: file and buffer together are the log. *)
Lemma write_all_stream w l :
  Forall (whole ∘ snd) l →
  disk (write_all w l) ++ buffer (write_all w l) = disk w ++ buffer w ++ log_bytes l.*1.
Proof.
  intros Hl. revert w. induction Hl as [|[e io] l Hio _ IH]; intros w; simpl; [by rewrite app_nil_r|].
  rewrite IH. unfold log_bytes. csimpl. destruct io as [|n|k n]; simpl; [| |done].
  - by rewrite <-!app_assoc.
  - rewrite <-(app_assoc (disk w)), (app_assoc (take n _)), take_drop. by rewrite <-!app_assoc.
Qed.

Lemma write_all_ok w l :
  buffer w = [] → Forall (λ x, x.2 = IoOk) l →
  disk (write_all w l) = disk w ++ log_bytes l.*1 ∧ buffer (write_all w l) = [].
Proof.
  intros Hw Hl. revert w Hw. induction Hl as [|[e io] l Hio _ IH]; intros w Hw; simpl in *.
  - unfold log_bytes. csimpl. by rewrite app_nil_r.
  - subst io. destruct (IH (write_entry w e IoOk).1) as [-> ->]; [done|]. simpl. rewrite Hw.
    unfold log_bytes. csimpl. by rewrite <-app_assoc.
Qed.

(** A prefix of a log is some of its entries and a truncated one. *)
Lemma log_prefix es p q :
  Forall entry_valid es → log_bytes es = p ++ q →
  ∃ es1 es2 t, es = es1 ++ es2 ∧ p = log_bytes es1 ++ t ∧
    (t = [] ∨ ∃ e es3 u, es2 = e :: es3 ∧ codec_encode e = t ++ u ∧ u ≠ []).
Proof.
  unfold log_bytes. intros Hes. revert p. induction Hes as [|e es He _ IH]; intros p Hp; csimpl in *.
  { symmetry in Hp. apply app_nil in Hp as [-> _]. exists [], [], []. auto. }
  apply app_eq_inv in Hp as [(k & Hp & Hq)|(k & Hp & Hq)].
  - (* p ends inside or at the end of e *)
    destruct k as [|x k].
    + rewrite app_nil_r in Hp. subst p. exists [e], es, []. csimpl. rewrite !app_nil_r. auto.
    + exists [], (e :: es), p. split_and!; [done..|]. right. exists e, es, (x :: k). done.
  - destruct (IH k Hq) as (es1 & es2 & t & -> & -> & Ht).
    exists (e :: es1), es2, t. csimpl. rewrite Hp, <-app_assoc. auto.
Qed.
End wal_laws.
