(* ===== verification/Bincode.v ===== *)
(** * The format of the log

    bincode's standard configuration as its specification describes it: integers
    as variable-length little-endian numbers, an enumeration as the index of its
    variant followed by the fields in their order.  It satisfies the interface of
    [Wal.v] and lets the log run on real bytes. *)

From S2P Require Import Prelude BTree Slab OrderBook BookSpec Bytes Wal.

(** ** Variable-length integers *)
Definition put_varint (n : N) : bytes :=
  if decide (n < 251) then [byte_of_N n]
  else if decide (n < 65536) then Byte.xfb :: le_bytes 2 n
  else if decide (n < 4294967296) then Byte.xfc :: le_bytes 4 n
  else Byte.xfd :: le_bytes 8 n.

Definition get_fixed (w : nat) (bs : bytes) : option (N * bytes) :=
  if decide (w ≤ length bs)%nat then Some (le_value (take w bs), drop w bs) else None.

Definition get_varint (bs : bytes) : option (N * bytes) :=
  match bs with
  | [] => None
  | b :: bs =>
    if decide (Byte.to_N b < 251) then Some (Byte.to_N b, bs)
    else if decide (b = Byte.xfb) then get_fixed 2 bs
    else if decide (b = Byte.xfc) then get_fixed 4 bs
    else if decide (b = Byte.xfd) then get_fixed 8 bs
    else None
  end.

(** The index of a variant of an enumeration with two. *)
Definition get_variant (bs : bytes) : option (bool * bytes) :=
  '(n, bs) ← get_varint bs;
  if decide (n = 0) then Some (false, bs) else if decide (n = 1) then Some (true, bs) else None.

Definition put_variant (v : bool) : bytes := put_varint (if v then 1 else 0).

(** ** Log entries *)
Definition encode_entry (e : LogEntry) : bytes :=
  match e with
  | Place order_id user_id side price quantity =>
      put_variant false ++ put_varint order_id ++ put_varint user_id ++
      put_variant (match side with Bid => false | Ask => true end) ++
      put_varint price ++ put_varint quantity
  | Cancel order_id user_id => put_variant true ++ put_varint order_id ++ put_varint user_id
  end.

Definition decode_entry (bs : bytes) : option (LogEntry * bytes) :=
  '(variant, bs) ← get_variant bs;
  '(order_id, bs) ← get_varint bs;
  '(user_id, bs) ← get_varint bs;
  if variant : bool then Some (Cancel order_id user_id, bs)
  else
    '(side, bs) ← get_variant bs;
    '(price, bs) ← get_varint bs;
    '(quantity, bs) ← get_varint bs;
    Some (Place order_id user_id (if side : bool then Ask else Bid) price quantity, bs).

#[export] Instance bincode_codec : Codec LogEntry :=
  {| codec_encode := encode_entry; codec_decode := decode_entry |}.

(** ** Laws *)

(** A parser that reads back what was written, whatever follows, and fails on
    every strict prefix of it. *)
Record reads {A} (get : bytes → option (A * bytes)) (w : bytes) (a : A) : Prop := {
  reads_all rest : get (w ++ rest) = Some (a, rest);
  reads_short p q : w = p ++ q → q ≠ [] → get p = None;
}.

Lemma reads_bind {A B} (get1 : bytes → option (A * bytes)) (get2 : A → bytes → option (B * bytes)) w1 w2 a b :
  reads get1 w1 a → reads (get2 a) w2 b →
  reads (λ bs, '(x, bs) ← get1 bs; get2 x bs) (w1 ++ w2) b.
Proof.
  intros [Hall1 Hshort1] [Hall2 Hshort2]. split.
  - intros rest. rewrite <-app_assoc, Hall1. simpl. apply Hall2.
  - intros p q Hw Hq. symmetry in Hw. apply app_eq_inv in Hw as [(k & -> & Hk)|(k & Hk & Hw2)].
    + rewrite Hall1. simpl. by eapply Hshort2.
    + destruct k as [|x k].
      * rewrite app_nil_r in Hk. subst. pose proof (Hall1 []) as Hp. rewrite app_nil_r in Hp. rewrite Hp. simpl.
        by eapply (Hshort2 [] w2); [|intros ->].
      * by erewrite Hshort1.
Qed.

Lemma reads_ret {A} (a : A) : reads (λ bs, Some (a, bs)) [] a.
Proof. split; [done|]. intros p q Hpq Hq. symmetry in Hpq. by apply app_nil in Hpq as [_ ?]. Qed.

Lemma reads_fixed w n : n < 256 ^ N.of_nat w → reads (get_fixed w) (le_bytes w n) n.
Proof.
  intros Hn. unfold get_fixed. split.
  - intros rest. rewrite decide_True by (rewrite length_app, length_le_bytes; lia).
    rewrite take_app_length', drop_app_length' by (by rewrite length_le_bytes). by rewrite le_value_le_bytes.
  - intros p q Hp Hq. apply (f_equal length) in Hp. rewrite length_le_bytes, length_app in Hp.
    rewrite decide_False; [done|]. destruct q; [done|]. simpl in Hp. lia.
Qed.

(** A tag byte in front of a fixed-width number. *)
Lemma reads_tagged (t : byte) w n :
  n < 256 ^ N.of_nat w → (∀ bs, get_varint (t :: bs) = get_fixed w bs) → reads get_varint (t :: le_bytes w n) n.
Proof.
  intros Hn Ht. destruct (reads_fixed w n Hn) as [Hall Hshort]. split.
  - intros rest. cbn [app]. by rewrite Ht.
  - intros [|b p] q Hp Hq; [done|]. cbn [app] in Hp. injection Hp as <- Hp. rewrite Ht. by eapply Hshort.
Qed.

Lemma reads_varint n : n < U64 → reads get_varint (put_varint n) n.
Proof.
  intros Hn. unfold put_varint. repeat case_decide.
  - split.
    + intros rest. simpl. rewrite to_N_byte_of_N, N.mod_small by lia. by rewrite decide_True.
    + intros p q Hp Hq. destruct p as [|b p]; [done|]. apply (f_equal length) in Hp. rewrite length_app in Hp.
      destruct q; simpl in *; [done|lia].
  - by apply reads_tagged.
  - by apply reads_tagged.
  - by apply reads_tagged.
Qed.

Lemma reads_variant v : reads get_variant (put_variant v) v.
Proof.
  unfold get_variant, put_variant. rewrite <-(app_nil_r (put_varint _)).
  apply (reads_bind get_varint (λ n bs, if decide (n = 0) then Some (false, bs)
    else if decide (n = 1) then Some (true, bs) else None) _ [] (if v then 1 else 0)).
  - apply reads_varint. by destruct v.
  - destruct v; apply reads_ret.
Qed.

Lemma reads_entry e : entry_valid e → reads decode_entry (encode_entry e) e.
Proof.
  intros He. unfold decode_entry, encode_entry. destruct e as [a b s c d|a b]; cbn [entry_valid] in He; destruct_and?.
  - apply (reads_bind get_variant _ _ _ false); [apply reads_variant|].
    apply (reads_bind get_varint _ _ _ a); [by apply reads_varint|].
    apply (reads_bind get_varint _ _ _ b); [by apply reads_varint|].
    apply (reads_bind get_variant _ _ _ (match s with Bid => false | Ask => true end)); [apply reads_variant|].
    apply (reads_bind get_varint _ _ _ c); [by apply reads_varint|].
    rewrite <-(app_nil_r (put_varint d)).
    apply (reads_bind get_varint _ _ [] d); [by apply reads_varint|]. destruct s; apply reads_ret.
  - apply (reads_bind get_variant _ _ _ true); [apply reads_variant|].
    apply (reads_bind get_varint _ _ _ a); [by apply reads_varint|].
    rewrite <-(app_nil_r (put_varint b)).
    apply (reads_bind get_varint _ _ [] b); [by apply reads_varint|apply reads_ret].
Qed.

(** What a parser returns: a 64-bit number and a shorter input. *)
Lemma get_varint_sound bs n rest :
  get_varint bs = Some (n, rest) → n < U64 ∧ (length rest < length bs)%nat.
Proof.
  assert (∀ w bs, get_fixed w bs = Some (n, rest) → (w ≤ 8)%nat → n < U64 ∧ (length rest ≤ length bs)%nat) as Hfixed.
  { unfold get_fixed. intros w l Hw Hle. case_decide; simplify_eq. split; [|rewrite length_drop; lia].
    eapply N.lt_le_trans; [apply be_value_lt|]. change U64 with (256 ^ 8).
    apply N.pow_le_mono_r; [lia|]. rewrite length_reverse, length_take. lia. }
  destruct bs as [|b bs]; simpl; [done|]. repeat case_decide; intros Hget; simplify_eq.
  - split; [unfold U64; lia|lia].
  - apply Hfixed in Hget; [|lia]. lia.
  - apply Hfixed in Hget; [|lia]. lia.
  - apply Hfixed in Hget; [|lia]. lia.
Qed.

Lemma get_variant_sound bs v rest : get_variant bs = Some (v, rest) → (length rest < length bs)%nat.
Proof.
  unfold get_variant. destruct (get_varint bs) as [[n r]|] eqn:Hn; simpl; [|done].
  apply get_varint_sound in Hn as [_ ?]. repeat case_decide; intros; by simplify_eq.
Qed.

Lemma decode_entry_sound bs e rest :
  decode_entry bs = Some (e, rest) → entry_valid e ∧ (length rest < length bs)%nat.
Proof.
  unfold decode_entry. destruct (get_variant bs) as [[v b1]|] eqn:H1; simpl; [|done].
  destruct (get_varint b1) as [[oid b2]|] eqn:H2; simpl; [|done].
  destruct (get_varint b2) as [[uid b3]|] eqn:H3; simpl; [|done].
  apply get_variant_sound in H1. apply get_varint_sound in H2 as [? ?]. apply get_varint_sound in H3 as [? ?].
  destruct v; [intros; simplify_eq; split; [done|lia]|].
  destruct (get_variant b3) as [[s b4]|] eqn:H4; simpl; [|done].
  destruct (get_varint b4) as [[p b5]|] eqn:H5; simpl; [|done].
  destruct (get_varint b5) as [[q b6]|] eqn:H6; simpl; [|done].
  apply get_variant_sound in H4. apply get_varint_sound in H5 as [? ?]. apply get_varint_sound in H6 as [? ?].
  intros; simplify_eq. split; [done|lia].
Qed.

#[export] Instance bincode_codec_laws : CodecLaws LogEntry entry_valid.
Proof.
  split; cbn [codec_encode codec_decode bincode_codec].
  - intros e rest He. by apply reads_entry.
  - intros e p q He Hp Hq. by eapply (reads_short _ _ _ (reads_entry e He)).
  - intros bs e rest H. by apply decode_entry_sound in H as [_ ?].
  - intros bs e rest H. by apply decode_entry_sound in H as [? _].
Qed.
