(* ===== verification/Processor.v ===== *)
(** * The market processor ([zkapp/engine/src/processor.rs])

    The single-threaded actor that owns the order book, the write-ahead log and
    the running auctions.  A handler maps the actor's state to its new state and
    the messages it sends, in order.  What the environment decides is an
    argument: the clock ([Instant::now()], in milliseconds), the fate of each
    write to the log, and the order in which a [HashMap] is traversed. *)

From S2P Require Import Prelude BTree Slab OrderBook BookSpec Matching BookProps Bytes Wal.

Record BundleRequest := mkBundleRequest {
  br_user_id : N;
  br_order_id : N;
  br_side : Side;
  br_price : N;
  br_quantity : N;
}.

(** The commands, without the one-shot channel each of them carries: what is
    sent on it is an [Output]. *)
Inductive Command :=
| SubmitBid (solver_id intent_id : string) (proposed_output_amount estimated_gas_cost : N)
    (solver_signature : bytes)
| PlaceOrder (user_id order_id : N) (side : Side) (price quantity : N)
| ExecuteBundle (orders : list BundleRequest)
| CancelOrder (user_id order_id : N)
| GetDepth (limit : nat).

Inductive Output :=
| Broadcast (event : EngineEvent)
| Respond (events : list EngineEvent)
| RespondDepth (depth : list OrderLevel * list OrderLevel)
| Outbound (event : EngineEvent).

Record Auction := mkAuction {
  a_intent_id : string;
  a_bids : list (N * string);
  a_end_time : N;
}.

Record MarketProcessor (S : Type) := mkProc {
  book : OrderBook S;
  wal : WalHandler;
  active_auctions : gmap string Auction;
}.

Arguments mkProc {S}.
Arguments book {S}.
Arguments wal {S}.
Arguments active_auctions {S}.

(** An auction lasts 500 milliseconds. *)
Definition AUCTION_MS : N := 500.

Section processor.
Context {S : Type} `{!SlabOps S Order} `{!Profile} `{!Codec LogEntry}.
Implicit Types (p : MarketProcessor S).

(** [MarketProcessor::new]: replay the log, then open it for appending. *)
Definition processor_new (file : option bytes) : outcome (MarketProcessor S) :=
  entries ← read_all file;
  b ← (match entries with
       | Ok entries => apply_entries new entries
       | Err _ => Done new
       end);
  Done (mkProc b (wal_open file) ∅).

(** Log the entry, execute it whatever became of the log, return the events. *)
Definition log_and_apply p (entry : LogEntry) (io : Io)
    : outcome (MarketProcessor S * list EngineEvent) :=
  let w := (write_entry (wal p) entry io).1 in
  '(b, events) ← apply_entry (book p) entry;
  Done (mkProc b w (active_auctions p), events).

Definition bundle_entry (req : BundleRequest) : LogEntry :=
  Place (br_order_id req) (br_user_id req) (br_side req) (br_price req) (br_quantity req).

(** The loop of [ExecuteBundle]; [k] counts the writes to the log. *)
Fixpoint bundle_loop (ios : nat → Io) (k : nat) p (orders : list BundleRequest)
    (bundle_events : list EngineEvent) : outcome (MarketProcessor S * list EngineEvent) :=
  match orders with
  | [] => Done (p, bundle_events)
  | req :: orders =>
    '(p, events) ← log_and_apply p (bundle_entry req) (ios k);
    bundle_loop ios (Datatypes.S k) p orders (bundle_events ++ events)
  end.

Definition submit_bid p (now : N) (solver_id intent_id : string) (amount : N) : MarketProcessor S :=
  let auctions :=
    match active_auctions p !! intent_id with
    | Some auction =>
        <[intent_id := mkAuction (a_intent_id auction) (BTree.insert amount solver_id (a_bids auction))
                         (a_end_time auction)]> (active_auctions p)
    | None =>
        <[intent_id := mkAuction intent_id (BTree.insert amount solver_id []) (now + AUCTION_MS)]>
          (active_auctions p)
    end in
  mkProc (book p) (wal p) auctions.

Definition handle_command p (cmd : Command) (now : N) (ios : nat → Io)
    : outcome (MarketProcessor S * list Output) :=
  match cmd with
  | SubmitBid solver_id intent_id amount _ _ =>
      Done (submit_bid p now solver_id intent_id amount, [])
  | PlaceOrder user_id order_id side price quantity =>
      '(p, events) ← log_and_apply p (Place order_id user_id side price quantity) (ios 0%nat);
      Done (p, (Broadcast <$> events) ++ [Respond events])
  | ExecuteBundle orders =>
      '(p, events) ← bundle_loop ios 0 p orders [];
      Done (p, (Broadcast <$> events) ++ [Respond events])
  | CancelOrder user_id order_id =>
      '(p, events) ← log_and_apply p (Cancel order_id user_id) (ios 0%nat);
      Done (p, (Broadcast <$> events) ++ [Respond events])
  | GetDepth limit =>
      depth ← get_depth (book p) limit;
      Done (p, [RespondDepth depth])
  end.

(** The event an expired auction is committed with: the highest bid wins. *)
Definition auction_result (auction : Auction) : option EngineEvent :=
  match BTree.last_entry (a_bids auction) with
  | Some (winning_amount, winning_solver) =>
      Some (IntentResolved (a_intent_id auction) winning_solver winning_amount)
  | None => None
  end.

(** [resolve_auctions]; [traversal] is the order in which [retain] visits the
    map. *)
Definition resolve_auctions p (now : N) (traversal : list (string * Auction))
    : MarketProcessor S * list Output :=
  let completed := filter (λ e, a_end_time e.2 ≤ now) traversal in
  let remaining := filter (λ e : string * Auction, now < a_end_time e.2) (active_auctions p) in
  (mkProc (book p) (wal p) remaining, Outbound <$> omap (auction_result ∘ snd) completed).

(** ** The actor's loop *)

(** What the [select!] of [run] receives next. *)
Inductive Input :=
| InCommand (cmd : Command) (now : N) (ios : nat → Io)
| InTick (now : N) (traversal : list (string * Auction)).

Definition proc_step p (i : Input) : outcome (MarketProcessor S * list Output) :=
  match i with
  | InCommand cmd now ios => handle_command p cmd now ios
  | InTick now traversal => Done (resolve_auctions p now traversal)
  end.

Fixpoint proc_run p (l : list Input) : outcome (MarketProcessor S * list Output) :=
  match l with
  | [] => Done (p, [])
  | i :: l =>
    '(p, out) ← proc_step p i;
    '(p, out') ← proc_run p l;
    Done (p, out ++ out')
  end.
End processor.

(** The log entries a command writes. *)
Definition cmd_entries (cmd : Command) : list LogEntry :=
  match cmd with
  | PlaceOrder user_id order_id side price quantity => [Place order_id user_id side price quantity]
  | ExecuteBundle orders => bundle_entry <$> orders
  | CancelOrder user_id order_id => [Cancel order_id user_id]
  | SubmitBid _ _ _ _ _ | GetDepth _ => []
  end.

Definition input_entries (i : Input) : list LogEntry :=
  match i with
  | InCommand cmd _ _ => cmd_entries cmd
  | InTick _ _ => []
  end.

(** The writes an input makes, each with its fate. *)
Definition input_writes (i : Input) : list (LogEntry * Io) :=
  match i with
  | InCommand cmd _ ios => imap (λ k e, (e, ios k)) (cmd_entries cmd)
  | InTick _ _ => []
  end.

(** ** The log and the book advance together *)
Section durability.
Context {S : Type} `{!SlabOps S Order} `{!SlabLaws S Order} `{!Profile}.
Context `{!Codec LogEntry} `{!CodecLaws LogEntry entry_valid}.
Implicit Types (p : MarketProcessor S).

Lemma write_all_app w l1 l2 : write_all w (l1 ++ l2) = write_all (write_all w l1) l2.
Proof. revert w. induction l1 as [|[e io] l1 IH]; intros w; simpl; auto. Qed.

Lemma log_and_apply_run p e io p' evs :
  log_and_apply p e io = Done (p', evs) →
  apply_entry (book p) e = Done (book p', evs) ∧ wal p' = write_all (wal p) [(e, io)] ∧
  active_auctions p' = active_auctions p.
Proof.
  unfold log_and_apply. destruct (apply_entry (book p) e) as [[b evs']| |] eqn:Hrun; simpl; try done.
  intros [= <- <-]. done.
Qed.

Lemma bundle_loop_run ios k p reqs acc p' evs :
  bundle_loop ios k p reqs acc = Done (p', evs) →
  apply_entries (book p) (bundle_entry <$> reqs) = Done (book p') ∧
  wal p' = write_all (wal p) (imap (λ j e, (e, ios (k + j)%nat)) (bundle_entry <$> reqs)).
Proof.
  revert k p acc. induction reqs as [|req reqs IH]; intros k p acc; simpl; [by intros [= <- <-]|].
  destruct (log_and_apply p (bundle_entry req) (ios k)) as [[p1 evs1]| |] eqn:Hrun; simpl; try done.
  apply log_and_apply_run in Hrun as (Hbook & Hwal & _). intros [Hb Hw]%IH.
  unfold apply_entry in Hbook. simpl in Hbook. rewrite Hbook. simpl. split; [done|].
  rewrite Hw, Hwal, Nat.add_0_r. simpl. f_equal. apply imap_ext. intros j e _. simpl. do 2 f_equal. lia.
Qed.

(** Every input appends its entries to the log and applies them to the book. *)
Lemma proc_step_run p i p' out :
  proc_step p i = Done (p', out) →
  apply_entries (book p) (input_entries i) = Done (book p') ∧
  wal p' = write_all (wal p) (input_writes i).
Proof.
  destruct i as [[sid iid amt gas sg|uid oid s pr q|orders|uid oid|limit] now ios|now tr]; simpl.
  - by intros [= <- <-].
  - destruct (log_and_apply p _ _) as [[p1 evs]| |] eqn:Hrun; simpl; try done. intros [= <- <-].
    apply log_and_apply_run in Hrun as (Hb & Hw & _). simpl in Hb. rewrite Hb. done.
  - destruct (bundle_loop ios 0 p orders []) as [[p1 evs]| |] eqn:Hrun; simpl; try done. intros [= <- <-].
    by apply bundle_loop_run in Hrun.
  - destruct (log_and_apply p _ _) as [[p1 evs]| |] eqn:Hrun; simpl; try done. intros [= <- <-].
    apply log_and_apply_run in Hrun as (Hb & Hw & _). simpl in Hb. rewrite Hb. done.
  - destruct (get_depth (book p) limit); simpl; try done. by intros [= <- <-].
  - by intros [= <- <-].
Qed.

Lemma proc_run_spec p l p' out :
  proc_run p l = Done (p', out) →
  apply_entries (book p) (l ≫= input_entries) = Done (book p') ∧
  wal p' = write_all (wal p) (l ≫= input_writes).
Proof.
  revert p out. induction l as [|i l IH]; intros p out; csimpl; [by intros [= <- <-]|].
  destruct (proc_step p i) as [[p1 out1]| |] eqn:Hstep; simpl; try done.
  destruct (proc_run p1 l) as [[p2 out2]| |] eqn:Hrun; simpl; try done. intros [= <- <-].
  apply proc_step_run in Hstep as [Hb1 Hw1]. apply IH in Hrun as [Hb2 Hw2].
  rewrite apply_entries_app, Hb1, write_all_app, <-Hw1. simpl. done.
Qed.

Lemma input_writes_entries i : (input_writes i).*1 = input_entries i.
Proof.
  destruct i as [cmd now ios|]; [|done]. simpl. rewrite fmap_imap.
  induction (cmd_entries cmd) as [|e es IH] using rev_ind; [done|].
  rewrite imap_app. simpl. rewrite IH. done.
Qed.

Lemma inputs_writes_entries l : (l ≫= input_writes).*1 = l ≫= input_entries.
Proof.
  induction l as [|i l IH]; csimpl; [done|]. rewrite fmap_app, IH. by rewrite input_writes_entries.
Qed.
End durability.
