(* ===== verification/ProcessorTheorems.v ===== *)
(** * The market processor's contract

    Durability of the log, equivalence of a bundle with the orders it is made
    of, the auctions, and the totality of the actor; with their witnesses and
    the behaviours that depart from the documentation. *)

From S2P Require Import Prelude BTree Slab OrderBook BookSpec Matching BookProps Bytes Wal Bincode Processor.

(** The events that were broadcast, and the ones sent to the callers. *)
Definition broadcasts (out : list Output) : list EngineEvent :=
  omap (λ o, match o with Broadcast e => Some e | _ => None end) out.

Definition responses (out : list Output) : list EngineEvent :=
  out ≫= (λ o, match o with Respond es => es | _ => [] end).

Lemma broadcasts_app o1 o2 : broadcasts (o1 ++ o2) = broadcasts o1 ++ broadcasts o2.
Proof. apply omap_app. Qed.

Lemma responses_app o1 o2 : responses (o1 ++ o2) = responses o1 ++ responses o2.
Proof. apply bind_app. Qed.

(** What a handler sends after an operation with events [evs]. *)
Lemma handler_output evs :
  broadcasts ((Broadcast <$> evs) ++ [Respond evs]) = evs ∧
  responses ((Broadcast <$> evs) ++ [Respond evs]) = evs.
Proof.
  rewrite broadcasts_app, responses_app. unfold broadcasts, responses. csimpl. rewrite !app_nil_r.
  assert (∀ l, (Broadcast <$> l) ≫= (λ o, match o with Respond es => es | _ => [] end) = []) as ->.
  { by induction l. }
  split; [|done]. induction evs as [|e evs IH]; csimpl; [done|]. by rewrite IH.
Qed.

Section contract.
Context {S : Type} `{!SlabOps S Order} `{!SlabLaws S Order} `{!Profile}.
Context `{!Codec LogEntry} `{!CodecLaws LogEntry entry_valid}.
Implicit Types (p : MarketProcessor S) (l : list Input).

Definition inputs_valid l : Prop := Forall entry_valid (l ≫= input_entries).

Definition io_all_ok l : Prop := Forall (λ w, w.2 = IoOk) (l ≫= input_writes).

Lemma entry_valid_u64 e : entry_valid e → entry_u64 e.
Proof. destruct e; simpl; tauto. Qed.

(** Reading a file that holds entries and then something undecodable. *)
Lemma processor_new_log es t :
  Forall entry_valid es → codec_decode t = None →
  ∃ p, processor_new (Some (log_bytes es ++ t)) = Done p ∧
    apply_entries new es = Done (book p) ∧ wal p = mkWal (log_bytes es ++ t) [] ∧
    active_auctions p = ∅.
Proof.
  intros Hes Ht. unfold processor_new, read_all.
  rewrite read_loop_log by (try done; rewrite length_app; pose proof (length_log_bytes es Hes); lia).
  destruct (apply_entries_wf (new : OrderBook S) es) as (b & Hb & _);
    [apply wf_new|eapply Forall_impl; [done|apply entry_valid_u64]|].
  simpl. rewrite Hb. simpl. by eexists.
Qed.

Lemma decode_nil_valid : codec_decode ([] : bytes) = None.
Proof. by apply (decode_nil (Cancel 0 0)). Qed.

(** C8. Durability.  As long as the writes to the log succeed, a processor
    started on an intact log and stopped at any point leaves an intact log, and
    a new processor started on it has exactly the book of the stopped one. *)
Theorem recovery_restores_book es0 p0 l p out :
  Forall entry_valid es0 → inputs_valid l → io_all_ok l →
  processor_new (Some (log_bytes es0)) = Done p0 → proc_run p0 l = Done (p, out) →
  disk (wal p) = log_bytes (es0 ++ (l ≫= input_entries)) ∧
  ∃ p', processor_new (Some (disk (wal p))) = Done p' ∧ book p' = book p.
Proof.
  intros Hes0 Hl Hio Hnew Hrun.
  destruct (processor_new_log es0 [] Hes0 decode_nil_valid) as (p1 & Hnew1 & Hb1 & Hw1 & _).
  rewrite app_nil_r in Hnew1, Hw1. same_run.
  destruct (proc_run_spec _ _ _ _ Hrun) as [Hb Hw].
  destruct (write_all_ok (wal p1) (l ≫= input_writes)) as [Hdisk _]; [by rewrite Hw1|done|].
  rewrite <-Hw, Hw1, inputs_writes_entries in Hdisk. simpl in Hdisk. rewrite <-log_bytes_app in Hdisk.
  split; [done|]. rewrite Hdisk.
  destruct (processor_new_log (es0 ++ (l ≫= input_entries)) []) as (p' & Hnew' & Hb' & _);
    [by apply Forall_app|apply decode_nil_valid|].
  rewrite app_nil_r in Hnew'. exists p'. split; [done|].
  rewrite apply_entries_app, Hb1 in Hb'. simpl in Hb'. by same_run.
Qed.


Definition place_of (req : BundleRequest) : Command :=
  PlaceOrder (br_user_id req) (br_order_id req) (br_side req) (br_price req) (br_quantity req).

(** The bundle as single orders, each with the log write of its own. *)
Fixpoint singles (now : N) (ios : nat → Io) (k : nat) (reqs : list BundleRequest) : list Input :=
  match reqs with
  | [] => []
  | req :: reqs => InCommand (place_of req) now (λ _, ios k) :: singles now ios (Datatypes.S k) reqs
  end.

Lemma bundle_loop_singles now ios k p reqs acc p' evs :
  bundle_loop ios k p reqs acc = Done (p', evs) →
  ∃ out, proc_run p (singles now ios k reqs) = Done (p', out) ∧
    evs = acc ++ broadcasts out ∧ evs = acc ++ responses out.
Proof.
  revert k p acc. induction reqs as [|req reqs IH]; intros k p acc; simpl.
  { intros [= <- <-]. exists []. by rewrite !app_nil_r. }
  unfold bundle_entry at 1.
  destruct (log_and_apply p _ (ios k)) as [[p1 evs1]| |] eqn:Hrun; simpl; try done.
  intros (out & -> & H1 & H2)%IH. simpl. eexists. split; [done|].
  destruct (handler_output evs1) as [Hb Hr]. rewrite broadcasts_app, responses_app, Hb, Hr.
  by rewrite !app_assoc.
Qed.

(** C10. A bundle is the sequence of its orders.  [ExecuteBundle] ends in the
    same state, with the same log, as placing its orders one after the other
    with nothing in between, and it broadcasts and answers the same events in
    the same order. *)
Theorem bundle_equals_singles p reqs now ios p' out :
  handle_command p (ExecuteBundle reqs) now ios = Done (p', out) →
  ∃ out', proc_run p (singles now ios 0 reqs) = Done (p', out') ∧
    broadcasts out' = broadcasts out ∧ responses out' = responses out.
Proof.
  simpl. destruct (bundle_loop ios 0 p reqs []) as [[p1 evs]| |] eqn:Hrun; simpl; try done.
  intros [= <- <-]. destruct (bundle_loop_singles now _ _ _ _ _ _ _ Hrun) as (out' & Hrun' & H1 & H2).
  exists out'. destruct (handler_output evs) as [-> ->]. done.
Qed.

(** *** Auctions *)

(** One bid for an intent: when it arrives, who bids and how much. *)
Record IntentBid := mkBid { ib_now : N; ib_solver : string; ib_amount : N }.

Definition submit_bids p (intent_id : string) (bids : list IntentBid) : MarketProcessor S :=
  foldl (λ p b, submit_bid p (ib_now b) (ib_solver b) intent_id (ib_amount b)) p bids.

(** What an auction's bid map records of the bids made so far. *)
Definition records (m : list (N * string)) (bids : list IntentBid) : Prop :=
  BTree.sorted m ∧
  (∀ a s, BTree.get a m = Some s → ∃ b, b ∈ bids ∧ ib_amount b = a ∧ ib_solver b = s) ∧
  (∀ b, b ∈ bids → is_Some (BTree.get (ib_amount b) m)).

Lemma records_bid m bids b :
  records m bids → records (BTree.insert (ib_amount b) (ib_solver b) m) (bids ++ [b]).
Proof.
  intros (Hs & H1 & H2). split_and!; [auto with evice| |].
  - intros a s. rewrite BTree.get_insert. case_decide; intros; simplify_eq.
    + exists b. set_solver.
    + destruct (H1 a s) as (b' & ? & ?); [done|]. exists b'. set_solver.
  - intros b' [Hb'|Hb']%elem_of_app; rewrite BTree.get_insert; case_decide; eauto.
    set_solver.
Qed.

Lemma submit_bids_auction p intent_id bids b0 :
  active_auctions p !! intent_id = None →
  ∃ m, active_auctions (submit_bids p intent_id (b0 :: bids)) !! intent_id =
         Some (mkAuction intent_id m (ib_now b0 + AUCTION_MS)) ∧
       records m (b0 :: bids).
Proof.
  intros Hnone. induction bids as [|b bids IH] using rev_ind.
  - exists (BTree.insert (ib_amount b0) (ib_solver b0) []). simpl. unfold submit_bid. rewrite Hnone.
    simpl. rewrite lookup_insert_eq. split; [done|]. apply (records_bid [] []).
    split_and!; [constructor|done|set_solver].
  - destruct IH as (m & Hm & Hrec). exists (BTree.insert (ib_amount b) (ib_solver b) m).
    change (b0 :: bids ++ [b]) with ((b0 :: bids) ++ [b]). unfold submit_bids in *. rewrite foldl_app.
    set (p1 := foldl _ p (b0 :: bids)) in *. cbn [foldl]. unfold submit_bid. rewrite Hm. simpl.
    rewrite lookup_insert_eq. split; [done|].
    by apply (records_bid m (b0 :: bids)).
Qed.

Lemma records_winner m bids :
  bids ≠ [] → records m bids →
  ∃ a s, BTree.last_entry m = Some (a, s) ∧
    (∃ b, b ∈ bids ∧ ib_amount b = a ∧ ib_solver b = s) ∧ (∀ b, b ∈ bids → ib_amount b ≤ a).
Proof.
  intros Hne (Hs & H1 & H2).
  destruct m as [|[a s] m _] using rev_ind.
  { destruct bids as [|b bids]; [done|]. destruct (H2 b) as [? ?]; [set_solver|done]. }
  exists a, s. unfold BTree.last_entry. rewrite last_snoc. split_and!; [done| |].
  - apply H1, BTree.sorted_elem_get; [done|set_solver].
  - intros b Hb. destruct (H2 b Hb) as [s' Hs'].
    assert (ib_amount b ∈ (m ++ [(a, s)]).*1) as Hin by (apply BTree.elem_of_keys; eauto).
    rewrite fmap_app in Hin. apply elem_of_app in Hin as [Hin|Hin]; [|set_solver].
    apply BTree.sorted_app in Hs as [Hlt _]. specialize (Hlt _ a Hin). set_solver by lia.
Qed.

(** The winner of an auction depends on its bids alone. *)
Lemma auction_result_winner intent_id m t bids :
  bids ≠ [] → records m bids →
  ∃ a s, auction_result (mkAuction intent_id m t) = Some (IntentResolved intent_id s a) ∧
    (∃ b, b ∈ bids ∧ ib_amount b = a ∧ ib_solver b = s) ∧ (∀ b, b ∈ bids → ib_amount b ≤ a).
Proof.
  intros Hne Hrec. destruct (records_winner m bids Hne Hrec) as (a & s & Hlast & Hb & Hmax).
  exists a, s. unfold auction_result. simpl. rewrite Hlast. done.
Qed.

Lemma omap_permutation {A B} (f : A → option B) (l1 l2 : list A) :
  l1 ≡ₚ l2 → omap f l1 ≡ₚ omap f l2.
Proof. intros Hp. by rewrite Hp. Qed.

Lemma elem_of_outbound (e : EngineEvent) (l : list EngineEvent) : Outbound e ∈ (Outbound <$> l) ↔ e ∈ l.
Proof. rewrite list_elem_of_fmap. naive_solver. Qed.

(** What a tick sends: the result of each expired auction, of nothing else. *)
Lemma resolve_auctions_out p now tr e :
  tr ≡ₚ map_to_list (active_auctions p) →
  Outbound e ∈ (resolve_auctions p now tr).2 ↔
  ∃ k a, active_auctions p !! k = Some a ∧ a_end_time a ≤ now ∧ auction_result a = Some e.
Proof.
  intros Htr. unfold resolve_auctions. cbn [snd]. rewrite elem_of_outbound, list_elem_of_omap. split.
  - intros ([k a] & Hin & Hres). apply list_elem_of_filter in Hin as [Ht Hin]. rewrite Htr in Hin.
    apply elem_of_map_to_list in Hin. eauto.
  - intros (k & a & Hk & Ht & Hres). exists (k, a). split; [|done]. apply list_elem_of_filter.
    split; [done|]. rewrite Htr. by apply elem_of_map_to_list.
Qed.


(** A tick closes exactly the auctions that are due.  Whatever the order in
    which the map is traversed, the auctions that remain are those whose time
    has not come, unchanged; each expired auction with a bid sends one event,
    nothing else is sent, and the order book and its log are not touched. *)
Theorem resolve_closes_exactly_the_due p now tr :
  tr ≡ₚ map_to_list (active_auctions p) →
  (∀ k a, active_auctions (resolve_auctions p now tr).1 !! k = Some a ↔
     active_auctions p !! k = Some a ∧ now < a_end_time a) ∧
  (resolve_auctions p now tr).2 ≡ₚ
    Outbound <$> omap (auction_result ∘ snd)
      (map_to_list (filter (λ e : string * Auction, a_end_time e.2 ≤ now) (active_auctions p))) ∧
  book (resolve_auctions p now tr).1 = book p ∧ wal (resolve_auctions p now tr).1 = wal p.
Proof.
  intros Htr. split_and!; [| |done|done].
  - intros k a. simpl. by rewrite map_lookup_filter_Some.
  - simpl. apply fmap_Permutation, omap_permutation. rewrite Htr.
    apply NoDup_Permutation; [apply NoDup_filter, NoDup_map_to_list|apply NoDup_map_to_list|].
    intros [k a]. rewrite list_elem_of_filter, !elem_of_map_to_list, map_lookup_filter_Some. naive_solver.
Qed.

(** *** The actor is total *)

Lemma log_and_apply_total p e io :
  wf (book p) → entry_valid e →
  ∃ p' evs, log_and_apply p e io = Done (p', evs) ∧ wf (book p').
Proof.
  intros Hwf He. destruct (apply_entry_wf (book p) e Hwf (entry_valid_u64 e He)) as (b & evs & Hrun & Hb).
  unfold log_and_apply. rewrite Hrun. simpl. eauto.
Qed.

Lemma bundle_loop_total ios k p reqs acc :
  wf (book p) → Forall entry_valid (bundle_entry <$> reqs) →
  ∃ p' evs, bundle_loop ios k p reqs acc = Done (p', evs) ∧ wf (book p').
Proof.
  revert k p acc. induction reqs as [|req reqs IH]; intros k p acc Hwf Hreqs; csimpl in *; [eauto|].
  apply Forall_cons in Hreqs as [Hreq Hreqs].
  destruct (log_and_apply_total p _ (ios k) Hwf Hreq) as (p1 & evs & -> & Hwf1). simpl. auto.
Qed.

(** A depth query can only fail in a build with overflow checks. *)
Definition may_panic (i : Input) : Prop :=
  overflow_checks = true ∧ ∃ limit now ios, i = InCommand (GetDepth limit) now ios.

Lemma proc_step_total p i :
  wf (book p) → Forall entry_valid (input_entries i) → ¬ may_panic i →
  ∃ p' out, proc_step p i = Done (p', out) ∧ wf (book p').
Proof.
  destruct i as [[sid iid amt gas sg|uid oid s pr q|orders|uid oid|limit] now ios|now tr];
    intros Hwf Hi Hsafe; cbn [input_entries cmd_entries] in Hi; cbn [proc_step handle_command]; eauto.
  - apply Forall_cons in Hi as [Hi _].
    destruct (log_and_apply_total p _ (ios 0%nat) Hwf Hi) as (p1 & evs & -> & Hwf1). simpl. eauto.
  - destruct (bundle_loop_total ios 0 p orders [] Hwf Hi) as (p1 & evs & -> & Hwf1). simpl. eauto.
  - apply Forall_cons in Hi as [Hi _].
    destruct (log_and_apply_total p _ (ios 0%nat) Hwf Hi) as (p1 & evs & -> & Hwf1). simpl. eauto.
  - destruct (get_depth_outcome (book p) limit) as [[d ->]|[Hc _]]; [simpl; eauto|].
    destruct Hsafe. split; eauto.
Qed.

Lemma processor_new_total file : ∃ p, processor_new file = Done p ∧ wf (book p).
Proof.
  unfold processor_new, read_all. destruct file as [bs|].
  - destruct (read_loop_total (Datatypes.S (length bs)) bs []) as (es & -> & Hes); [lia|constructor|].
    destruct (apply_entries_wf (new : OrderBook S) es) as (b & Hb & Hwf);
      [apply wf_new|eapply Forall_impl; [done|apply entry_valid_u64]|].
    simpl. rewrite Hb. simpl. eauto.
  - eexists. split; [done|]. apply wf_new.
Qed.

(** C12. The actor is total.  Whatever bytes the log file holds, a processor
    starts; and whatever commands and ticks it then receives, in whatever order
    and however the writes to the log fare, it handles each of them, except that
    a build with overflow checks may panic on a depth query. *)
Theorem processor_is_total file l :
  inputs_valid l → Forall (λ i, ¬ may_panic i) l →
  ∃ p p' out, processor_new file = Done p ∧ proc_run p l = Done (p', out).
Proof.
  intros Hl Hsafe. destruct (processor_new_total file) as (p & Hnew & Hwf). exists p.
  assert (∃ p' out, proc_run p l = Done (p', out)) as (p' & out & ?); [|by eauto].
  clear Hnew. revert p Hwf. unfold inputs_valid in Hl.
  induction Hsafe as [|i l Hi _ IH]; intros p Hwf; csimpl in *; [eauto|].
  apply Forall_app in Hl as [Hi' Hl].
  destruct (proc_step_total p i Hwf Hi' Hi) as (p1 & out1 & -> & Hwf1). simpl.
  destruct (IH Hl p1 Hwf1) as (p2 & out2 & ->). simpl. eauto.
Qed.
End contract.

(** ** Runs *)
Module ProcessorRuns.
#[local] Instance debug : Profile := true.
Local Abbreviation Proc := (MarketProcessor (VecSlab Order)).

Definition ok (_ : nat) : Io := IoOk.
Definition torn (n : nat) (_ : nat) : Io := IoErr n.
Definition fresh_proc : Proc := mkProc new (mkWal [] []) ∅.

Definition run_of (p : Proc) (l : list Input) : Proc :=
  match proc_run p l with Done r => r.1 | _ => p end.
Definition out_of (p : Proc) (l : list Input) : list Output :=
  match proc_run p l with Done r => r.2 | _ => [] end.
Definition new_of (file : option bytes) : Proc :=
  match processor_new file with Done p => p | _ => fresh_proc end.

Definition old_log : list LogEntry := [Place 1 1 Ask 100 10; Place 2 2 Bid 90 5].

Definition session : list Input :=
  [ InCommand (PlaceOrder 3 7 Bid 100 4) 0 ok;
    InCommand (SubmitBid "solver"%string "intent"%string 10 1 []) 3 ok;
    InCommand (ExecuteBundle [mkBundleRequest 3 8 Bid 101 3; mkBundleRequest 4 9 Ask 120 5]) 5 ok;
    InCommand (CancelOrder 2 2) 9 ok ].

Lemma recovery_restores_book_witness :
  disk (wal (run_of (new_of (Some (log_bytes old_log))) session)) =
    log_bytes (old_log ++ (session ≫= input_entries)) ∧
  ∃ p' : Proc,
    processor_new (Some (disk (wal (run_of (new_of (Some (log_bytes old_log))) session)))) = Done p' ∧
    book p' = book (run_of (new_of (Some (log_bytes old_log))) session).
Proof.
  eapply (recovery_restores_book old_log (new_of (Some (log_bytes old_log))) session
            (run_of (new_of (Some (log_bytes old_log))) session)
            (out_of (new_of (Some (log_bytes old_log))) session)).
  - apply (bool_decide_unpack _). vm_compute. exact I.
  - apply (bool_decide_unpack _). vm_compute. exact I.
  - repeat constructor.
  - vm_compute. reflexivity.
  - vm_compute. reflexivity.
Defined.

(** The second write is torn after 4 bytes. *)
Definition torn_session : list Input :=
  [ InCommand (PlaceOrder 3 7 Bid 100 4) 0 ok;
    InCommand (PlaceOrder 3 8 Bid 101 4) 1 (torn 4) ].


Definition bundle : list BundleRequest :=
  [mkBundleRequest 3 8 Bid 101 3; mkBundleRequest 4 9 Ask 101 5].

Lemma bundle_equals_singles_witness :
  ∃ out', proc_run fresh_proc (singles 5 ok 0 bundle) =
      Done (run_of fresh_proc [InCommand (ExecuteBundle bundle) 5 ok], out') ∧
    broadcasts out' = broadcasts (out_of fresh_proc [InCommand (ExecuteBundle bundle) 5 ok]) ∧
    responses out' = responses (out_of fresh_proc [InCommand (ExecuteBundle bundle) 5 ok]).
Proof. apply bundle_equals_singles. vm_compute. reflexivity. Defined.

Definition three_bids : list IntentBid :=
  [mkBid 100 "a"%string 50; mkBid 200 "b"%string 70; mkBid 300 "c"%string 60].

Definition with_bids : Proc := submit_bids fresh_proc "i"%string three_bids.


Lemma resolve_closes_exactly_the_due_witness :
  (∀ k a, active_auctions
       (resolve_auctions with_bids 700 (map_to_list (active_auctions with_bids))).1 !! k = Some a ↔
     active_auctions with_bids !! k = Some a ∧ 700 < a_end_time a) ∧
  (resolve_auctions with_bids 700 (map_to_list (active_auctions with_bids))).2 ≡ₚ
    Outbound <$> omap (auction_result ∘ snd)
      (map_to_list (filter (λ e : string * Auction, a_end_time e.2 ≤ 700) (active_auctions with_bids))) ∧
  book (resolve_auctions with_bids 700 (map_to_list (active_auctions with_bids))).1 = book with_bids ∧
  wal (resolve_auctions with_bids 700 (map_to_list (active_auctions with_bids))).1 = wal with_bids.
Proof. apply resolve_closes_exactly_the_due. reflexivity. Defined.

Lemma processor_is_total_witness :
  ∃ (p p' : Proc) out,
    processor_new (Some [Byte.x00; Byte.x01]) = Done p ∧ proc_run p session = Done (p', out).
Proof.
  apply processor_is_total.
  - apply (bool_decide_unpack _). vm_compute. exact I.
  - repeat constructor; intros [_ (? & ? & ? & Heq)]; discriminate Heq.
Defined.

(** An intent can be resolved more than once.  A bid that arrives after an
    intent's auction was closed opens a second one, and the next tick sends the
    settlement task a second resolution of the same intent, here to another
    solver and for less. *)
Theorem intent_resolved_twice :
  out_of fresh_proc
    [ InCommand (SubmitBid "a"%string "i"%string 70 0 []) 0 ok;
      InTick 500 [("i"%string, mkAuction "i"%string [(70, "a"%string)] 500)];
      InCommand (SubmitBid "b"%string "i"%string 60 0 []) 501 ok;
      InTick 1001 [("i"%string, mkAuction "i"%string [(60, "b"%string)] 1001)] ] =
  [ Outbound (IntentResolved "i"%string "a"%string 70);
    Outbound (IntentResolved "i"%string "b"%string 60) ].
Proof. vm_compute. reflexivity. Qed.

(** The log after a torn write.  A process dies after half of a bid's entry
    reached the file.  The next process recovers nothing, appends to the file
    behind the torn entry and accepts an ask, which it logs without any error.
    When it restarts, the rest of the torn entry is read from the ask's bytes:
    the ask is gone and the book holds a bid that no client ever placed. *)
Theorem torn_tail_corrupts_recovery :
  let p1 := run_of fresh_proc [InCommand (PlaceOrder 1 1 Bid 90 5) 0 (torn 3)] in
  let p2 := run_of (new_of (Some (disk (wal p1)))) [InCommand (PlaceOrder 2 2 Ask 100 7) 1 ok] in
  view (book (new_of (Some (disk (wal p1))))) = mkView [] [] ∧
  view (book p2) = mkView [] [mkOrder 2 2 100 7 Ask 0] ∧
  view (book (new_of (Some (disk (wal p2))))) = mkView [mkOrder 1 1 2 2 Bid 0] [].
Proof. split_and!; vm_compute; reflexivity. Qed.
End ProcessorRuns.
