(* ===== verification/Service.v ===== *)
(** * The trading service ([zkapp/node/src/main.rs], [TradingService] and the
      settlement task)

    The gRPC handlers between clients and the market processor, and the task
    that turns a resolved auction into a settlement batch.  A handler sends one
    command on the processor's channel and waits for the reply; [Link] is the
    fate of that exchange.  Messages of the protocol keep their field names. *)

From S2P Require Import Prelude BTree Slab OrderBook BookSpec Matching BookProps Bytes Wal Bincode Processor ProcessorTheorems.

(** The protocol's enumeration; an unknown value reads as unspecified. *)
Inductive ProtoSide := Unspecified | ProtoBid | ProtoAsk.

Definition proto_side (n : Z) : ProtoSide :=
  if decide (n = 1)%Z then ProtoBid else if decide (n = 2)%Z then ProtoAsk else Unspecified.

Definition engine_side (n : Z) : option Side :=
  match proto_side n with
  | ProtoBid => Some Bid
  | ProtoAsk => Some Ask
  | Unspecified => None
  end.

Record PlaceOrderRequest := mkPlaceRequest {
  pr_user_id : N;
  pr_order_id : N;
  pr_side : Z;
  pr_price : N;
  pr_quantity : N;
}.

Record TradeExecution := mkFill { f_maker_order_id : N; f_price : N; f_quantity : N }.

Record PlaceOrderResponse := mkPlaceResponse {
  ps_success : bool;
  ps_message : string;
  ps_fills : list TradeExecution;
}.

(** [er_events] is the number of events the report's text gives. *)
Record ExecutionReport := mkReport { er_success : bool; er_events : nat; er_fills : list TradeExecution }.

Record CancelOrderResponse := mkCancelResponse { cs_success : bool; cs_remaining_qty : N }.

Record DepthResponse := mkDepth {
  ds_bids : list OrderLevel;
  ds_asks : list OrderLevel;
  ds_sequence_id : N;
}.

Record IntentBidRequest := mkBidRequest {
  ir_solver_id : string;
  ir_intent_id : string;
  ir_proposed_output_amount : N;
  ir_estimated_gas_cost : N;
  ir_solver_signature : bytes;
}.

Record IntentBidResponse := mkBidResponse { is_accepted : bool; is_message : string; is_auction_id : string }.

Inductive Status := InvalidArgument (msg : string) | Internal (msg : string).

(** The exchange with the processor: it succeeds, the channel is closed, or the
    reply never comes. *)
Inductive Link := LinkUp | SendFails | ReplyLost.

Section service.
Context {S : Type} `{!SlabOps S Order} `{!Profile} `{!Codec LogEntry}.
Implicit Types (p : MarketProcessor S).

(** Send a command and wait for the answer; [send_error] and [reply_error] are
    the messages the handler maps the two failures to. *)
Definition call p (link : Link) (cmd : Command) (now : N) (ios : nat → Io)
    (send_error reply_error : string) : outcome (MarketProcessor S * result (list Output) Status) :=
  match link with
  | SendFails => Done (p, Err (Internal send_error))
  | ReplyLost => '(p, _) ← handle_command p cmd now ios; Done (p, Err (Internal reply_error))
  | LinkUp => '(p, out) ← handle_command p cmd now ios; Done (p, Ok out)
  end.

(** The loop over the events in [place_limit_order]. *)
Fixpoint place_report (order_id : N) (events : list EngineEvent) (fills : list TradeExecution)
    (success : bool) : list TradeExecution * bool :=
  match events with
  | [] => (fills, success)
  | event :: events =>
    match event with
    | OrderPlaced id _ _ _ _ =>
        if decide (id = order_id) then place_report order_id events fills true
        else place_report order_id events fills success
    | TradeExecuted maker_id taker_id price quantity =>
        if decide (taker_id = order_id)
        then place_report order_id events (fills ++ [mkFill maker_id price quantity]) true
        else place_report order_id events fills success
    | OrderCancelled _ | IntentResolved _ _ _ => place_report order_id events fills success
    end
  end.

Definition service_place p (req : PlaceOrderRequest) (link : Link) (now : N) (ios : nat → Io)
    : outcome (MarketProcessor S * result PlaceOrderResponse Status) :=
  match engine_side (pr_side req) with
  | None => Done (p, Err (InvalidArgument "Side is required"%string))
  | Some side =>
    let command := PlaceOrder (pr_user_id req) (pr_order_id req) side (pr_price req) (pr_quantity req) in
    '(p, reply) ← call p link command now ios "Engine is down"%string "Engine failed to respond"%string;
    Done (p, match reply with
             | Err e => Err e
             | Ok out =>
               let '(fills, success) := place_report (pr_order_id req) (responses out) [] false in
               Ok (mkPlaceResponse success (if success then "Order Processed"%string else "Order Rejected"%string) fills)
             end)
  end.

(** The conversion loop of [execute_solver_bundle]: the first bad side aborts. *)
Fixpoint bundle_orders (orders : list PlaceOrderRequest) : option (list BundleRequest) :=
  match orders with
  | [] => Some []
  | order :: orders =>
    match engine_side (pr_side order) with
    | None => None
    | Some side =>
      rest ← bundle_orders orders;
      Some (mkBundleRequest (pr_user_id order) (pr_order_id order) side (pr_price order) (pr_quantity order) :: rest)
    end
  end.

Definition trade_fill (event : EngineEvent) : option TradeExecution :=
  match event with
  | TradeExecuted maker_id _ price quantity => Some (mkFill maker_id price quantity)
  | _ => None
  end.

Definition service_bundle p (orders : list PlaceOrderRequest) (link : Link) (now : N) (ios : nat → Io)
    : outcome (MarketProcessor S * result ExecutionReport Status) :=
  match bundle_orders orders with
  | None => Done (p, Err (InvalidArgument "Side Invalid"%string))
  | Some bundle =>
    '(p, reply) ← call p link (ExecuteBundle bundle) now ios "Engine is down"%string "Engine faield to respond"%string;
    Done (p, match reply with
             | Err e => Err e
             | Ok out => let events := responses out in
                         Ok (mkReport true (length events) (omap trade_fill events))
             end)
  end.

Definition is_cancelled (event : EngineEvent) : bool :=
  match event with
  | OrderCancelled _ => true
  | _ => false
  end.

Definition service_cancel p (user_id order_id : N) (link : Link) (now : N) (ios : nat → Io)
    : outcome (MarketProcessor S * result CancelOrderResponse Status) :=
  '(p, reply) ← call p link (CancelOrder user_id order_id) now ios "Engine down"%string "No response"%string;
  Done (p, match reply with
           | Err e => Err e
           | Ok out => Ok (mkCancelResponse (existsb is_cancelled (responses out)) 0)
           end).

(** The depth that was answered. *)
Definition depth_reply (out : list Output) : list OrderLevel * list OrderLevel :=
  match out with
  | [RespondDepth depth] => depth
  | _ => ([], [])
  end.

Definition service_depth p (limit : N) (link : Link) (now : N) (ios : nat → Io)
    : outcome (MarketProcessor S * result DepthResponse Status) :=
  let limit := if decide (limit = 0) then 10%nat else N.to_nat limit in
  '(p, reply) ← call p link (GetDepth limit) now ios "Engine down"%string "No response"%string;
  Done (p, match reply with
           | Err e => Err e
           | Ok out => let '(asks, bids) := depth_reply out in Ok (mkDepth bids asks 0)
           end).

(** The bid's reply channel is dropped: only a failed send is noticed. *)
Definition service_bid p (req : IntentBidRequest) (link : Link) (now : N) (ios : nat → Io)
    : outcome (MarketProcessor S * result IntentBidResponse Status) :=
  match ir_solver_signature req with
  | [] => Done (p, Err (InvalidArgument "Signature required"%string))
  | _ =>
    match link with
    | SendFails => Done (p, Err (Internal "Engine is down"%string))
    | LinkUp | ReplyLost =>
      '(p, _) ← handle_command p (SubmitBid (ir_solver_id req) (ir_intent_id req)
                  (ir_proposed_output_amount req) (ir_estimated_gas_cost req) (ir_solver_signature req)) now ios;
      Done (p, Ok (mkBidResponse true "Bid queued for OFA evaluation"%string ("auc-"%string +:+ ir_intent_id req)))
    end
  end.
End service.

(** The receiving half of a tokio channel as a stream: what is queued, then
    nothing yet while there is a sender, then the end. *)
Record Receiver (A : Type) := mkReceiver { rx_queue : list A; rx_senders : nat }.
Arguments mkReceiver {A}.
Arguments rx_queue {A}.
Arguments rx_senders {A}.

Inductive Poll (A : Type) := Item (x : A) | NotYet | Ended.
Arguments Item {A}.
Arguments NotYet {A}.
Arguments Ended {A}.

Definition poll_next {A} (rx : Receiver A) : Poll A * Receiver A :=
  match rx_queue rx, rx_senders rx with
  | x :: queue, senders => (Item x, mkReceiver queue senders)
  | [], O => (Ended, rx)
  | [], _ => (NotYet, rx)
  end.

(** What may happen to the other end: a sender sends, or goes away. *)
Inductive sender_step {A} : Receiver A → Receiver A → Prop :=
| sender_sends queue senders x : sender_step (mkReceiver queue (S senders)) (mkReceiver (queue ++ [x]) (S senders))
| sender_clones queue senders : sender_step (mkReceiver queue (S senders)) (mkReceiver queue (S (S senders)))
| sender_drops queue senders : sender_step (mkReceiver queue (S senders)) (mkReceiver queue senders).

(** The sender of the channel is dropped where it is made. *)
Definition subscribe_intent_mempool {A} : result (Receiver A) Status := Ok (mkReceiver [] 0).

(** A solver that subscribes to the mempool is told at once that the stream has
    ended, and nothing can change that. *)
Lemma subscription_yields_nothing {A} (rx rx' : Receiver A) :
  subscribe_intent_mempool = Ok rx → rtc sender_step rx rx' → poll_next rx' = (Ended, rx').
Proof. intros [= <-] Hr. inversion Hr as [|? ? ? Hs]; [done|]. by inversion Hs. Qed.

(** ** Settlement *)
Record SettlementBatch := mkSettlement {
  new_state_root : bytes;
  proof : bytes;
  resolved_intent_ids : list bytes;
}.

(** The settlement task's answer to one event; [parse_b256] is alloy's
    [FixedBytes::<32>::from_str]. *)
Definition settle (parse_b256 : string → option bytes) (event : EngineEvent) : option SettlementBatch :=
  match event with
  | IntentResolved intent_id _ _ =>
      let intent_bytes := default (replicate 32 Byte.x00) (parse_b256 intent_id) in
      Some (mkSettlement (replicate 32 Byte.x00) [Byte.x01; Byte.x02; Byte.x03; Byte.x04; Byte.x05] [intent_bytes])
  | _ => None
  end.

(** ** Lemmas *)

(** For events that are all about the order, the report is the list of trades,
    and it is a success when anything was traded or placed. *)
Lemma place_report_own order_id events fills success :
  Forall (own_event order_id) events →
  place_report order_id events fills success =
    (fills ++ omap trade_fill events,
     success || existsb (λ e, negb (is_cancelled e)) events).
Proof.
  intros Hown. revert fills success.
  induction Hown as [|e events He _ IH]; intros fills success; csimpl; [by rewrite app_nil_r, orb_false_r|].
  destruct e; simpl in He |- *; subst; try done; rewrite ?decide_True by done; rewrite IH; csimpl; try done.
  - by destruct success.
  - f_equal; [by rewrite <-app_assoc|by destruct success].
Qed.

Lemma fills_traded events : sum_N (f_quantity <$> omap trade_fill events) = traded events.
Proof.
  unfold traded. induction events as [|e events IH]; csimpl; [done|].
  destruct e; csimpl; rewrite IH; lia.
Qed.

(** Something happened to the order exactly when its quantity is positive. *)
Lemma success_positive order_id user_id side price v qty v' evs :
  (v', evs) = spec_place order_id user_id side price v qty →
  existsb (λ e, negb (is_cancelled e)) evs = bool_decide (0 < qty).
Proof.
  intros Hspec. destruct (decide (0 < qty)) as [Hq|Hq].
  - rewrite bool_decide_eq_true_2 by done.
    pose proof (spec_place_conserves _ _ _ _ _ _ _ _ Hspec) as Hc.
    destruct (existsb (λ e, negb (is_cancelled e)) evs) eqn:He; [done|]. exfalso. clear Hspec.
    assert (traded evs = 0 ∧ placed evs = 0) as [Ht Hp]; [|lia]. clear Hc. unfold traded, placed.
    induction evs as [|e evs IH]; csimpl in *; [done|]. apply orb_false_iff in He as [He1 He2].
    apply IH in He2 as [-> ->]. by destruct e.
  - rewrite bool_decide_eq_false_2 by done. assert (qty = 0) as -> by lia.
    apply spec_place_events in Hspec. rewrite spec_match_zero in Hspec.
    rewrite decide_False in Hspec by lia. by subst evs.
Qed.

Section service_contract.
Context {S : Type} `{!SlabOps S Order} `{!SlabLaws S Order} `{!Profile}.
Context `{!Codec LogEntry}.
Implicit Types (p : MarketProcessor S).

(** C33. What the client is told.  For a valid request on a reachable book the
    service answers, the book becomes the one of the matching specification, the
    fills are exactly the specification's trades for the order, in order, never
    more than was asked for, and the order is reported as processed exactly when
    its quantity is positive. *)
Theorem place_order_reports_the_specification p req side now ios :
  reachable any_client (book p) → pr_quantity req < U64 → engine_side (pr_side req) = Some side →
  let spec := spec_place (pr_order_id req) (pr_user_id req) side (pr_price req) (view (book p))
                (pr_quantity req) in
  ∃ p' resp, service_place p req LinkUp now ios = Done (p', Ok resp) ∧
    view (book p') = spec.1 ∧ ps_fills resp = omap trade_fill spec.2 ∧
    sum_N (f_quantity <$> ps_fills resp) + placed spec.2 = pr_quantity req ∧
    ps_success resp = bool_decide (0 < pr_quantity req).
Proof.
  intros Hr%reachable_wf Hq Hside spec.
  destruct (place_limit_order_spec (book p) (pr_order_id req) (pr_user_id req) side (pr_price req)
    (pr_quantity req) Hr Hq) as (b' & evs & Hrun & _ & Hspec & _).
  unfold service_place, call. rewrite Hside. cbn [handle_command]. unfold log_and_apply. cbn [apply_entry].
  rewrite Hrun. cbn [mbind outcome_bind]. destruct (handler_output evs) as [_ ->].
  rewrite (place_report_own (pr_order_id req) evs) by (by eapply spec_place_own).
  do 2 eexists. split; [done|]. subst spec. cbn [ps_fills ps_success book]. rewrite <-Hspec. cbn [fst snd].
  split_and!; [done|done| |].
  - rewrite app_nil_l, fills_traded. by eapply spec_place_conserves.
  - rewrite orb_false_l. by eapply success_positive.
Qed.

End service_contract.

Lemma bundle_orders_None orders :
  bundle_orders orders = None ↔ ∃ o, o ∈ orders ∧ engine_side (pr_side o) = None.
Proof.
  induction orders as [|o orders IH]; simpl; [set_solver|].
  destruct (engine_side (pr_side o)) as [side|] eqn:Hs; [|split; [exists o; set_solver|done]].
  destruct (bundle_orders orders) as [l|]; simpl.
  - split; [done|]. intros (o' & [->|Hin]%elem_of_cons & Hn); [congruence|].
    assert (Some l = None); [apply IH; eauto|done].
  - split; [|done]. intros _. destruct (proj1 IH eq_refl) as (o' & ? & ?). exists o'. set_solver.
Qed.

Lemma bundle_orders_Some orders bundle :
  bundle_orders orders = Some bundle →
  Forall2 (λ o r, engine_side (pr_side o) = Some (br_side r) ∧ br_user_id r = pr_user_id o ∧
    br_order_id r = pr_order_id o ∧ br_price r = pr_price o ∧ br_quantity r = pr_quantity o) orders bundle.
Proof.
  revert bundle. induction orders as [|o orders IH]; intros bundle; simpl; [intros [= <-]; constructor|].
  destruct (engine_side (pr_side o)) eqn:Hs; [|done]. destruct (bundle_orders orders) as [l|]; [|done].
  simpl. intros [= <-]. constructor; [done|by apply IH].
Qed.

Section bundle_contract.
Context {S : Type} `{!SlabOps S Order} `{!Profile} `{!Codec LogEntry}.
Implicit Types (p : MarketProcessor S).

(** A bundle is checked as a whole.  If any order of a solver's bundle has
    no valid side, the request is refused and nothing reaches the processor;
    otherwise all its orders are executed as one command, in their order, and the
    report's fills are all the trades. *)
Theorem bundle_is_checked_as_a_whole p orders now ios :
  (∃ o, o ∈ orders ∧ engine_side (pr_side o) = None) ∧
    (∀ link, service_bundle p orders link now ios = Done (p, Err (InvalidArgument "Side Invalid"%string))) ∨
  (∃ bundle, Forall2 (λ o r, engine_side (pr_side o) = Some (br_side r) ∧ br_user_id r = pr_user_id o ∧
      br_order_id r = pr_order_id o ∧ br_price r = pr_price o ∧ br_quantity r = pr_quantity o) orders bundle ∧
    service_bundle p orders LinkUp now ios =
      ('(p', out) ← handle_command p (ExecuteBundle bundle) now ios;
       Done (p', Ok (mkReport true (length (responses out)) (omap trade_fill (responses out)))))).
Proof.
  unfold service_bundle. destruct (bundle_orders orders) as [bundle|] eqn:Hb.
  - right. exists bundle. split; [by apply bundle_orders_Some|]. unfold call.
    by destruct (handle_command p (ExecuteBundle bundle) now ios) as [[p' out]| |].
  - left. split; [by apply bundle_orders_None|done].
Qed.
End bundle_contract.

(** ** Runs *)
Module ServiceRuns.
Import ProcessorRuns.
#[local] Instance debug : Profile := true.

Definition bid_request : PlaceOrderRequest := mkPlaceRequest 1 7 1 100 5.

Lemma place_order_reports_the_specification_witness :
  let spec := spec_place 7 1 Bid 100 (view (book fresh_proc)) 5 in
  ∃ p' resp, service_place fresh_proc bid_request LinkUp 0 ok = Done (p', Ok resp) ∧
    view (book p') = spec.1 ∧ ps_fills resp = omap trade_fill spec.2 ∧
    sum_N (f_quantity <$> ps_fills resp) + placed spec.2 = 5 ∧ ps_success resp = bool_decide (0 < 5).
Proof.
  apply (place_order_reports_the_specification fresh_proc bid_request Bid 0 ok).
  - apply reach_new.
  - vm_compute. reflexivity.
  - reflexivity.
Defined.

(** The order id is no idempotency key.  The protocol calls [order_id] the
    idempotency key of a request; sending the same request twice places the
    order twice, and cancelling it once leaves the other copy in the book. *)
Theorem resubmitted_order_is_placed_twice :
  ∃ p1 p2 p3 r1 r2 r3,
    service_place fresh_proc bid_request LinkUp 0 ok = Done (p1, Ok r1) ∧
    service_place p1 bid_request LinkUp 1 ok = Done (p2, Ok r2) ∧
    ps_success r1 = true ∧ ps_success r2 = true ∧ volume (v_bids (view (book p2))) = 10 ∧
    service_cancel p2 1 7 LinkUp 2 ok = Done (p3, Ok r3) ∧ cs_success r3 = true ∧
    cs_remaining_qty r3 = 0 ∧ volume (v_bids (view (book p3))) = 5.
Proof.
  set (run := λ (o : outcome (MarketProcessor (VecSlab Order) * result PlaceOrderResponse Status)),
    match o with Done (p, Ok r) => (p, r) | _ => (fresh_proc, mkPlaceResponse false ""%string []) end).
  set (p1 := run (service_place fresh_proc bid_request LinkUp 0 ok)).
  set (p2 := run (service_place p1.1 bid_request LinkUp 1 ok)).
  set (p3 := match service_cancel p2.1 1 7 LinkUp 2 ok with
             | Done (p, Ok r) => (p, r) | _ => (fresh_proc, mkCancelResponse false 0) end).
  exists p1.1, p2.1, p3.1, p1.2, p2.2, p3.2. split_and!; vm_compute; reflexivity.
Qed.
End ServiceRuns.
