(* ===== verification/SeqTypes.v ===== *)
(** * The sequencer's data ([evice-multi-sequencer/src/lib.rs],
      [crypto.rs], [consensus/types.rs])

    Batches, votes, quorum certificates and the encodings that are hashed and
    signed.  The cryptography comes from third-party crates (sha2, sha3,
    pqcrypto, schnorrkel, borsh, rand): it enters as the interface [Crypto], and
    what the code relies on as [CryptoLaws]. *)

From S2P Require Import Prelude Bytes.

Definition PUBLIC_KEY_SIZE : nat := 1312.
Definition ADDRESS_SIZE : nat := 20.
Definition PRIVATE_KEY_SIZE : nat := 2560.
Definition SIGNATURE_SIZE : nat := 2420.

(** Fixed-size arrays are byte lists; the length is a side condition where it
    matters.  [PeerId] is an opaque name. *)
Abbreviation Address := bytes.
Abbreviation Signature := bytes.
Abbreviation AppPayload := bytes.
Abbreviation PeerId := string.

Record BatchHeader := mkHeader {
  h_index : N;
  h_prev_hash : bytes;
  h_timestamp : N;
  h_payloads_root : bytes;
  h_authority : Address;
  h_vrf_output : bytes;
  h_vrf_proof : bytes;
  h_signature : Signature;
}.

Record VelocityVote := mkVote {
  vv_round_id : N;
  vv_batch_hash : bytes;
  vv_voter_address : Address;
  vv_signature : Signature;
}.

Record QuorumCertificate := mkQc {
  qc_batch_hash : bytes;
  qc_view_number : N;
  qc_signatures : list (Address * Signature);
}.

Record PayloadBatch := mkBatch {
  pb_header : BatchHeader;
  pb_payloads : list AppPayload;
  pb_justify : QuorumCertificate;
  pb_round : N;
}.

Record PendingBatch := mkPending {
  pd_header : BatchHeader;
  pd_payloads : list AppPayload;
  pd_parent_qc : QuorumCertificate;
  pd_round : N;
}.

Record OptimisticConfirmation := mkConfirmation {
  oc_header : BatchHeader;
  oc_payload_hashes : list bytes;
  oc_parent_qc : QuorumCertificate;
  oc_round : N;
}.

Inductive ConsensusMessage :=
| IntentBatchProposal (batch : PayloadBatch)
| VelocityVoteMsg (vote : VelocityVote)
| NewQuorumCertificate (qc : QuorumCertificate).

Inductive ChainMessage :=
| NewPayload (payload : AppPayload)
| NewConsensusMessage (msg : ConsensusMessage).

#[export] Instance header_eq_dec : EqDecision BatchHeader.
Proof. solve_decision. Defined.
#[export] Instance vote_eq_dec : EqDecision VelocityVote.
Proof. solve_decision. Defined.
#[export] Instance qc_eq_dec : EqDecision QuorumCertificate.
Proof. solve_decision. Defined.
#[export] Instance batch_eq_dec : EqDecision PayloadBatch.
Proof. solve_decision. Defined.
#[export] Instance message_eq_dec : EqDecision ConsensusMessage.
Proof. solve_decision. Defined.

(** [SequencerError] ([error.rs]) with its [Display]. *)
Inductive SequencerError :=
| P2pError (reason : string)
| QuorumNotMet (expected actual : N)
| InvalidSignature
| InvalidBatch
| UnknownPeer (peer : string).

Definition sequencer_error_display (e : SequencerError) : string :=
  match e with
  | P2pError reason => "P2P communication error: " +:+ reason
  | QuorumNotMet expected actual =>
      "Consensus threshold not met: expected " +:+ pretty.pretty expected +:+ ", got " +:+ pretty.pretty actual
  | InvalidSignature => "Cryptographic signature verification failed"
  | InvalidBatch => "Invalid batch format or structure"
  | UnknownPeer peer => "Peer not found or unknown in address book: " +:+ peer
  end.

Example quorum_not_met_display :
  sequencer_error_display (QuorumNotMet 3 2) = "Consensus threshold not met: expected 3, got 2".
Proof. reflexivity. Qed.

(** ** The cryptographic crates *)
Class Crypto := {
  sha256 : bytes → bytes;
  keccak256 : bytes → bytes;
  (** Dilithium: the length checks of [from_bytes], and the two algorithms *)
  pk_from_bytes : bytes → option bytes;
  sk_from_bytes : bytes → option bytes;
  sig_from_bytes : bytes → option bytes;
  detached_sign : bytes → bytes → bytes;
  verify_detached_signature : bytes → bytes → bytes → bool;
  (** the secret key a public key belongs to, for stating the laws *)
  key_pair : bytes → bytes → Prop;
  (** schnorrkel's VRF in the context [evice-vrf] *)
  vrf_pk_from_bytes : bytes → option bytes;
  preout_from_bytes : bytes → option bytes;
  proof_from_bytes : bytes → option bytes;
  vrf_sign : bytes → bytes → bytes * bytes;
  vrf_verify : bytes → bytes → bytes → bytes → bool;
  vrf_pair : bytes → bytes → Prop;
  (** borsh's encoding of a consensus message *)
  borsh_to_vec : ConsensusMessage → option bytes;
  (** the shuffle of [StdRng::from_seed] *)
  shuffle : bytes → list Address → list Address;
  (** schnorrkel's [SecretKey::from_bytes] and [to_keypair] *)
  vrf_secret_from_bytes : bytes → option bytes;
}.

Class CryptoLaws `{!Crypto} := {
  length_sha256 bs : length (sha256 bs) = 32%nat;
  length_keccak256 bs : length (keccak256 bs) = 32%nat;
  length_detached_sign m sk : length (detached_sign m sk) = SIGNATURE_SIZE;
  pk_from_bytes_ok bs : length bs = PUBLIC_KEY_SIZE → pk_from_bytes bs = Some bs;
  sk_from_bytes_ok bs : length bs = PRIVATE_KEY_SIZE → sk_from_bytes bs = Some bs;
  sig_from_bytes_ok bs : length bs = SIGNATURE_SIZE → sig_from_bytes bs = Some bs;
  (** a signature verifies under the matching public key *)
  sign_verify pk sk m : key_pair pk sk → verify_detached_signature (detached_sign m sk) m pk = true;
  (** the output and the proof of a VRF signature can be read back and verify *)
  vrf_sign_verify pk sk m : vrf_pair pk sk →
    vrf_pk_from_bytes pk = Some pk ∧
    preout_from_bytes (vrf_sign sk m).1 = Some (vrf_sign sk m).1 ∧
    proof_from_bytes (vrf_sign sk m).2 = Some (vrf_sign sk m).2 ∧
    vrf_verify pk m (vrf_sign sk m).1 (vrf_sign sk m).2 = true;
  shuffle_permutation seed l : shuffle seed l ≡ₚ l;
}.

(** ** Keys *)
Record KeyPair := mkKeyPair { public_key : bytes; private_key : bytes }.

Record ValidatorKeys := mkValidatorKeys { signing_keys : KeyPair; vrf_keys : bytes }.

Section types.
Context `{!Crypto}.

Definition public_key_to_address (public_key : bytes) : Address :=
  let hash := keccak256 public_key in
  drop (length hash - ADDRESS_SIZE) hash.

(** [try_into().expect(..)]: a length check that panics. *)
Definition exact_length (n : nat) (bs : bytes) : outcome bytes :=
  if decide (length bs = n) then Done bs else Panicked.

Definition keypair_sign (k : KeyPair) (message : bytes) : outcome Signature :=
  exact_length SIGNATURE_SIZE (detached_sign message (private_key k)).

Definition public_key_bytes (k : KeyPair) : outcome bytes :=
  exact_length PUBLIC_KEY_SIZE (public_key k).

Definition private_key_bytes (k : KeyPair) : outcome bytes :=
  exact_length PRIVATE_KEY_SIZE (private_key k).

Inductive KeyError := BadPublicKey | BadSecretKey.

Definition from_key_bytes (pk_bytes sk_bytes : bytes) : result KeyPair KeyError :=
  match pk_from_bytes pk_bytes with
  | None => Err BadPublicKey
  | Some pk =>
    match sk_from_bytes sk_bytes with
    | None => Err BadSecretKey
    | Some sk => Ok (mkKeyPair pk sk)
    end
  end.

Definition verify (public_key message signature_bytes : bytes) : bool :=
  match pk_from_bytes public_key with
  | None => false
  | Some pk =>
    match sig_from_bytes signature_bytes with
    | None => false
    | Some sig => verify_detached_signature sig message pk
    end
  end.

(** ** Hashes and signed encodings *)
Definition message_hash (payload : AppPayload) : bytes := sha256 payload.

Definition canonical_bytes_for_signing (h : BatchHeader) : bytes :=
  to_be_bytes (h_index h) ++ h_prev_hash h ++ to_be_bytes (h_timestamp h) ++
  h_payloads_root h ++ h_authority h ++ h_vrf_output h ++ h_vrf_proof h.

Definition calculate_hash (h : BatchHeader) : bytes :=
  sha256 (to_be_bytes (h_index h) ++ h_prev_hash h ++ to_be_bytes (h_timestamp h) ++
    h_payloads_root h ++ h_authority h ++ h_vrf_output h ++ h_vrf_proof h ++ h_signature h).

Definition calculate_payloads_root (payloads : list AppPayload) : bytes :=
  sha256 (payloads ≫= message_hash).

Definition canonical_bytes (v : VelocityVote) (voter_public_key : bytes) : bytes :=
  to_be_bytes (vv_round_id v) ++ vv_batch_hash v ++ voter_public_key.

Definition vote_sign (v : VelocityVote) (k : KeyPair) : outcome VelocityVote :=
  pk ← public_key_bytes k;
  sig ← keypair_sign k (canonical_bytes v pk);
  Done (mkVote (vv_round_id v) (vv_batch_hash v) (vv_voter_address v) sig).

Definition consensus_message_hash (msg : ConsensusMessage) : bytes :=
  match borsh_to_vec msg with
  | Some encoded => sha256 encoded
  | None => replicate 32 Byte.x00
  end.

(** borsh of [FullPublicKey]: the bytes themselves, and [read_exact] of as many. *)
Definition full_public_key_serialize (key writer : bytes) : bytes := writer ++ key.

Definition full_public_key_deserialize (reader : bytes) : option (bytes * bytes) :=
  if decide (PUBLIC_KEY_SIZE ≤ length reader)%nat
  then Some (take PUBLIC_KEY_SIZE reader, drop PUBLIC_KEY_SIZE reader) else None.

Definition genesis_qc : QuorumCertificate := mkQc (replicate 32 Byte.x00) 0 [].
End types.

(** ** Lemmas *)

(** A key is read back from in front of any other bytes. *)
Lemma full_public_key_roundtrip key rest :
  length key = PUBLIC_KEY_SIZE →
  full_public_key_deserialize (full_public_key_serialize key [] ++ rest) = Some (key, rest).
Proof.
  intros Hlen. unfold full_public_key_deserialize, full_public_key_serialize.
  rewrite decide_True by (rewrite !length_app; simpl; lia). simpl. rewrite <-Hlen.
  by rewrite take_app_length, drop_app_length.
Qed.

Section laws.
Context `{!Crypto} `{!CryptoLaws}.

Lemma length_calculate_hash h : length (calculate_hash h) = 32%nat.
Proof. apply length_sha256. Qed.

(** The voter's key has a fixed length, so the signed bytes determine the vote
    that was signed. *)
Lemma canonical_bytes_inj v1 v2 pk1 pk2 :
  vv_round_id v1 < U64 → vv_round_id v2 < U64 → length pk1 = length pk2 →
  canonical_bytes v1 pk1 = canonical_bytes v2 pk2 →
  vv_round_id v1 = vv_round_id v2 ∧ vv_batch_hash v1 = vv_batch_hash v2 ∧ pk1 = pk2.
Proof.
  intros Hr1 Hr2 Hlen Heq. unfold canonical_bytes in Heq.
  apply app_inj_1 in Heq as [Hr Heq]; [|by rewrite !length_to_be_bytes].
  apply app_inj_2 in Heq as [Hh Hpk]; [|done]. split; [|done]. by apply to_be_bytes_inj.
Qed.

(** A key pair as a validator has it. *)
Definition keys_ok (k : KeyPair) : Prop :=
  length (public_key k) = PUBLIC_KEY_SIZE ∧ key_pair (public_key k) (private_key k).

Lemma verify_sign k m sig :
  keys_ok k → keypair_sign k m = Done sig → verify (public_key k) m sig = true.
Proof.
  intros [Hlen Hpair] Hsig. unfold keypair_sign, exact_length in Hsig. case_decide; [|done].
  apply done_inj in Hsig as <-. unfold verify.
  rewrite pk_from_bytes_ok, sig_from_bytes_ok by done. by apply sign_verify.
Qed.

Lemma vote_sign_run v k :
  keys_ok k →
  ∃ v', vote_sign v k = Done v' ∧ vv_round_id v' = vv_round_id v ∧
    vv_batch_hash v' = vv_batch_hash v ∧ vv_voter_address v' = vv_voter_address v ∧
    verify (public_key k) (canonical_bytes v (public_key k)) (vv_signature v') = true.
Proof.
  intros Hk. unfold vote_sign, public_key_bytes, keypair_sign, exact_length.
  rewrite decide_True by apply Hk. simpl.
  rewrite decide_True by apply length_detached_sign. simpl. eexists. split_and!; [done..|].
  simpl. apply verify_sign; [done|]. unfold keypair_sign, exact_length.
  by rewrite decide_True by apply length_detached_sign.
Qed.
End laws.
