(* ===== verification/P2pTypes.v ===== *)
(** * Peers and the address book ([evice-multi-sequencer/src/p2p/types.rs],
      [genesis.rs], and the genesis that [zkapp/node/src/main.rs] bootstraps)

    The score a node keeps of each peer, and the table from validator addresses
    to network identities and keys that the consensus engine counts and verifies
    with.  Parsing a multiaddress (libp2p) and hexadecimal (the hex crate) is
    third-party and enters as the interface [Net]. *)

From S2P Require Import Prelude Bytes SeqTypes.
From Stdlib Require Import Strings.Ascii.

(** ** Peer scores *)
Definition INITIAL_PEER_SCORE : Z := 0.
Definition MAX_PEER_SCORE : Z := 100.
Definition BAN_THRESHOLD : Z := -50.
Definition PENALTY_DESERIALIZATION_ERROR : Z := -5.
Definition REWARD_VALID_MESSAGE : Z := 2.
(** milliseconds *)
Definition BAN_DURATION : N := 1800000.
Definition NETWORK_STABILITY_WINDOW : N := 3000.

Record PeerInfo := mkPeer { score : Z; is_banned : bool; ban_until : option N }.

Definition peer_new : PeerInfo := mkPeer INITIAL_PEER_SCORE false None.

Definition apply_penalty `{!Profile} (now : N) (penalty : Z) (p : PeerInfo) : outcome PeerInfo :=
  sum ← i32_add (score p) penalty;
  let score' := Z.max sum (BAN_THRESHOLD - 1) in
  if decide (score' ≤ BAN_THRESHOLD)%Z then Done (mkPeer score' true (Some (now + BAN_DURATION)))
  else Done (mkPeer score' (is_banned p) (ban_until p)).

Definition apply_reward `{!Profile} (reward : Z) (p : PeerInfo) : outcome PeerInfo :=
  sum ← i32_add (score p) reward;
  Done (mkPeer (Z.min sum MAX_PEER_SCORE) (is_banned p) (ban_until p)).

Definition score_ok (p : PeerInfo) : Prop := (BAN_THRESHOLD - 1 ≤ score p ≤ MAX_PEER_SCORE)%Z.

(** The penalties and rewards the code uses are small: [-50], [-5] and [2]. *)
Definition small (d : Z) : Prop := (-1000000 ≤ d ≤ 1000000)%Z.

Lemma apply_penalty_run `{!Profile} now d p :
  score_ok p → small d → (d ≤ 0)%Z →
  ∃ p', apply_penalty now d p = Done p' ∧ score_ok p' ∧
    score p' = Z.max (score p + d) (BAN_THRESHOLD - 1) ∧
    (is_banned p' = true ↔ is_banned p = true ∨ (score p + d ≤ BAN_THRESHOLD)%Z).
Proof.
  unfold score_ok, small, apply_penalty, BAN_THRESHOLD, MAX_PEER_SCORE. intros Hp Hd Hneg.
  rewrite i32_add_ok by (unfold i32_range; lia). simpl. case_decide.
  - eexists. split; [done|]. simpl. split_and!; [lia..|]. split; [right; lia|done].
  - eexists. split; [done|]. simpl. split_and!; [lia..|]. split; [auto|]. intros [?|?]; [done|lia].
Qed.

Lemma apply_reward_run `{!Profile} d p :
  score_ok p → small d → (0 ≤ d)%Z →
  ∃ p', apply_reward d p = Done p' ∧ score_ok p' ∧
    score p' = Z.min (score p + d) MAX_PEER_SCORE ∧ is_banned p' = is_banned p.
Proof.
  unfold score_ok, small, apply_reward, BAN_THRESHOLD, MAX_PEER_SCORE. intros Hp Hd Hpos.
  rewrite i32_add_ok by (unfold i32_range; lia). simpl.
  eexists. split; [done|]. simpl. split_and!; [lia..|done].
Qed.

(** ** Network identities *)

(** The protocols of a multiaddress that the code looks at. *)
Inductive Protocol := P2p (peer : PeerId) | Ip (loopback : bool) | OtherProtocol (name : string).

Abbreviation Multiaddr := (list Protocol).

#[export] Instance protocol_eq_dec : EqDecision Protocol.
Proof. solve_decision. Defined.

Class Net := {
  parse_multiaddr : string → option Multiaddr;
  hex_encode : bytes → string;
  hex_decode : string → option bytes;
}.

Class NetLaws `{!Net} := {
  hex_decode_encode bs : hex_decode (hex_encode bs) = Some bs;
  (** hexadecimal has no letter [x], so an encoding has no [0x] prefix *)
  hex_encode_prefix bs s : hex_encode bs ≠ String "0"%char (String "x"%char s);
}.

(** [str::trim_start_matches("0x")]: every leading copy is removed. *)
Fixpoint trim_start_0x (s : string) : string :=
  match s with
  | String "0"%char (String "x"%char s) => trim_start_0x s
  | _ => s
  end.

Record GenesisParameters := mkParams { sub_committee_size : nat; proposer_timeout_ms : N }.

Record GenesisAccount := mkAccount {
  g_public_key : string;
  g_vrf_public_key : option string;
  g_network_identity : option string;
}.

Record Genesis := mkGenesis {
  g_genesis_time : N;
  g_chain_id : string;
  g_parameters : GenesisParameters;
  g_accounts : gmap string GenesisAccount;
}.

Record PeerIdentityInfo := mkIdentity {
  pi_peer_id : PeerId;
  pi_multiaddr : Multiaddr;
  pi_public_key : option bytes;
  pi_vrf_public_key : option bytes;
  pi_version : N;
}.

Abbreviation AddressBook := (gmap Address PeerIdentityInfo).

(** [find_map] for the first [P2p] protocol. *)
Fixpoint find_peer_id (m : Multiaddr) : option PeerId :=
  match m with
  | [] => None
  | P2p peer :: _ => Some peer
  | _ :: m => find_peer_id m
  end.

Section address_book.
Context `{!Net} `{!Profile}.

(** What the body of the loop makes of one account: the address, the peer, its
    multiaddress and its keys, or nothing. *)
Definition genesis_entry (e : string * GenesisAccount) : option (Address * PeerIdentityInfo) :=
  let '(addr_str, account) := e in
  match g_network_identity account with
  | None => None
  | Some multiaddr_str =>
    match hex_decode (trim_start_0x addr_str) with
    | None => None
    | Some addr_bytes =>
      if decide (length addr_bytes = ADDRESS_SIZE) then
        match parse_multiaddr multiaddr_str with
        | None => None
        | Some multiaddr =>
          match find_peer_id multiaddr with
          | None => None
          | Some peer_id =>
            Some (addr_bytes,
              mkIdentity peer_id multiaddr (hex_decode (trim_start_0x (g_public_key account)))
                (g_vrf_public_key account ≫= λ k, hex_decode (trim_start_0x k)) 0)
          end
        end
      else None
    end
  end.

(** [entry(..).or_insert_with(..)], then the update of a changed address. *)
Definition add_identity (ab : AddressBook) (addr : Address) (info : PeerIdentityInfo)
    : outcome AddressBook :=
  let current := default info (ab !! addr) in
  if decide (pi_multiaddr current = pi_multiaddr info) then Done (<[addr := current]> ab)
  else
    version ← u64_add (pi_version current) 1;
    Done (<[addr := mkIdentity (pi_peer_id current) (pi_multiaddr info) (pi_public_key current)
                      (pi_vrf_public_key current) version]> ab).

(** [traversal] is the order in which the accounts are visited. *)
Fixpoint update_from_genesis (ab : AddressBook) (traversal : list (string * GenesisAccount))
    : outcome AddressBook :=
  match traversal with
  | [] => Done ab
  | e :: traversal =>
    ab ← match genesis_entry e with
         | None => Done ab
         | Some (addr, info) => add_identity ab addr info
         end;
    update_from_genesis ab traversal
  end.

Definition get_peer_id (ab : AddressBook) (address : Address) : option PeerId :=
  pi_peer_id <$> ab !! address.

(** The first address with the peer, in the order of [traversal]. *)
Fixpoint get_address (traversal : list (Address * PeerIdentityInfo)) (peer : PeerId)
    : option Address :=
  match traversal with
  | [] => None
  | (addr, info) :: traversal =>
      if decide (pi_peer_id info = peer) then Some addr else get_address traversal peer
  end.

Definition get_all_peer_ids (traversal : list (Address * PeerIdentityInfo)) : list PeerId :=
  pi_peer_id ∘ snd <$> traversal.

(** The genesis written by [--bootstrap]: one account per key, under the
    hexadecimal form of the public key. *)
Definition bootstrap_account (pk vrf_pk : bytes) (multiaddr : string) : string * GenesisAccount :=
  let address_hex := hex_encode pk in
  (address_hex, mkAccount address_hex (Some (hex_encode vrf_pk)) (Some multiaddr)).

Definition bootstrap_accounts (keys : list (bytes * bytes * string)) : gmap string GenesisAccount :=
  foldl (λ m k, let '(pk, vrf_pk, addr) := k in
                let '(a, account) := bootstrap_account pk vrf_pk addr in <[a := account]> m) ∅ keys.
End address_book.

Section book_lemmas.
Context `{!Net} `{!Profile}.

(** The entries of a traversal, in order. *)
Definition genesis_entries (tr : list (string * GenesisAccount)) : list (Address * PeerIdentityInfo) :=
  omap genesis_entry tr.

Lemma add_identity_fresh ab addr info :
  ab !! addr = None → add_identity ab addr info = Done (<[addr := info]> ab).
Proof. intros Hnone. unfold add_identity. rewrite Hnone. simpl. by rewrite decide_True. Qed.

Lemma update_from_genesis_fresh ab tr :
  NoDup (genesis_entries tr).*1 → (∀ a, a ∈ (genesis_entries tr).*1 → ab !! a = None) →
  update_from_genesis ab tr = Done (list_to_map (genesis_entries tr) ∪ ab).
Proof.
  revert ab. induction tr as [|e tr IH]; intros ab Hnd Hfresh; simpl.
  { by rewrite (left_id_L ∅ (∪)). }
  unfold genesis_entries in *. csimpl in *. destruct (genesis_entry e) as [[a i]|] eqn:He; csimpl in *; [|by apply IH].
  apply NoDup_cons in Hnd as [Ha Hnd]. rewrite add_identity_fresh by set_solver. simpl.
  rewrite IH; [|done|].
  - f_equal. rewrite <-insert_union_l, <-insert_union_r; [done|]. by apply not_elem_of_list_to_map_1.
  - intros b Hb. rewrite lookup_insert_ne by set_solver. set_solver.
Qed.

Lemma get_address_Some tr peer a :
  get_address tr peer = Some a → ∃ info, (a, info) ∈ tr ∧ pi_peer_id info = peer.
Proof.
  induction tr as [|[b info] tr IH]; simpl; [done|]. case_decide.
  - intros [= <-]. exists info. set_solver.
  - intros (i & ? & ?)%IH. exists i. set_solver.
Qed.

Lemma get_address_None tr peer :
  get_address tr peer = None → ∀ a info, (a, info) ∈ tr → pi_peer_id info ≠ peer.
Proof.
  induction tr as [|[b info] tr IH]; simpl; [set_solver|]. case_decide; [done|].
  intros Hnone a i [Heq|Hin]%elem_of_cons; [by simplify_eq|eauto].
Qed.

Lemma trim_start_hex `{!NetLaws} bs : trim_start_0x (hex_encode bs) = hex_encode bs.
Proof.
  pose proof (hex_encode_prefix bs) as Hp. destruct (hex_encode bs) as [|c s]; [done|].
  destruct (decide (c = "0"%char)) as [->|Hc].
  - destruct s as [|d s]; [done|]. destruct (decide (d = "x"%char)) as [->|Hd]; [by destruct (Hp s)|].
    destruct d as [[] [] [] [] [] [] [] []]; done.
  - destruct c as [[] [] [] [] [] [] [] []]; done.
Qed.

Lemma bootstrap_entry `{!NetLaws} pk vrf_pk addr :
  length pk ≠ ADDRESS_SIZE → genesis_entry (bootstrap_account pk vrf_pk addr) = None.
Proof.
  intros Hlen. unfold genesis_entry, bootstrap_account. simpl.
  rewrite trim_start_hex, hex_decode_encode. by rewrite decide_False.
Qed.
End book_lemmas.
