(* ===== verification/Committee.v ===== *)
(** * Election, quorums and signature checks
      ([evice-multi-sequencer/src/consensus/engine.rs], the functions that only
      read the address book)

    [determine_sub_committee], [verify_vote_signature], [verify_batch_signature],
    the quorum size and the check of a received certificate. *)

From S2P Require Import Prelude Bytes SeqTypes P2pTypes.

(** ** The order on addresses: [Ord] on byte arrays, lexicographic *)
Fixpoint bytes_leb (a b : bytes) : bool :=
  match a, b with
  | [], _ => true
  | _ :: _, [] => false
  | x :: a, y :: b =>
    if Byte.to_N x <? Byte.to_N y then true
    else if Byte.to_N x =? Byte.to_N y then bytes_leb a b else false
  end.

Definition bytes_le (a b : bytes) : Prop := Is_true (bytes_leb a b).

#[export] Instance bytes_le_dec a b : Decision (bytes_le a b).
Proof. apply Is_true_dec. Defined.

Lemma to_N_inj x y : Byte.to_N x = Byte.to_N y → x = y.
Proof. intros Heq. apply (f_equal Byte.of_N) in Heq. rewrite !Byte.of_to_N in Heq. by injection Heq. Qed.

Lemma bytes_le_cons x y a b :
  bytes_le (x :: a) (y :: b) ↔ Byte.to_N x < Byte.to_N y ∨ x = y ∧ bytes_le a b.
Proof.
  unfold bytes_le. simpl. destruct (N.ltb_spec (Byte.to_N x) (Byte.to_N y)); [naive_solver|].
  destruct (N.eqb_spec (Byte.to_N x) (Byte.to_N y)) as [Heq|Hne].
  - apply to_N_inj in Heq as ->. split; [auto|]. intros [?|[_ ?]]; [lia|done].
  - split; [done|]. intros [?|[-> _]]; lia.
Qed.

#[export] Instance bytes_le_total : Total bytes_le.
Proof.
  intros a. induction a as [|x a IH]; intros [|y b]; [by left|by left|by right|].
  rewrite !bytes_le_cons. destruct (N.lt_trichotomy (Byte.to_N x) (Byte.to_N y)) as [?|[?%to_N_inj|?]]; auto.
  destruct (IH b); auto.
Qed.

#[export] Instance bytes_le_antisymm : AntiSymm (=) bytes_le.
Proof.
  intros a. induction a as [|x a IH]; intros [|y b]; [done|done|done|].
  rewrite !bytes_le_cons. intros [?|[-> ?]] [?|[? ?]]; subst; try lia. f_equal. auto.
Qed.

#[export] Instance bytes_le_trans : Transitive bytes_le.
Proof.
  intros a. induction a as [|x a IH]; intros [|y b] [|z c]; try done.
  rewrite !bytes_le_cons. intros [?|[-> ?]] [?|[-> ?]]; eauto; left; lia.
Qed.

(** ** Election *)
Section committee.
Context `{!Crypto}.

Definition committee_seed (round : N) (seed_hash : bytes) : bytes :=
  sha256 (seed_hash ++ to_be_bytes round).

(** [validators] are the keys of the address book, in the order of the map. *)
Definition determine_sub_committee (size : nat) (validators : list Address) (round : N)
    (seed_hash : bytes) : list Address :=
  match validators with
  | [] => []
  | _ =>
    let sorted_validators := merge_sort bytes_le validators in
    take size (shuffle (committee_seed round seed_hash) sorted_validators)
  end.

(** ** Signature checks *)
Definition verify_vote_signature (ab : AddressBook) (voter_address : Address) (round_id : N)
    (batch_hash : bytes) (signature : Signature) : bool :=
  match ab !! voter_address with
  | None => false
  | Some peer_info =>
    match pi_public_key peer_info with
    | None => false
    | Some pub_key =>
      if decide (length pub_key = PUBLIC_KEY_SIZE) then
        verify pub_key (canonical_bytes (mkVote round_id batch_hash voter_address []) pub_key) signature
      else false
    end
  end.

Definition verify_batch_signature (ab : AddressBook) (header : BatchHeader) : bool :=
  match ab !! h_authority header with
  | None => false
  | Some peer_info =>
    match pi_public_key peer_info with
    | None => false
    | Some pub_key =>
      if decide (length pub_key = PUBLIC_KEY_SIZE) then
        match pi_vrf_public_key peer_info ≫= vrf_pk_from_bytes,
              preout_from_bytes (h_vrf_output header), proof_from_bytes (h_vrf_proof header) with
        | Some vrf_pubkey, Some preout, Some proof =>
            if vrf_verify vrf_pubkey (h_prev_hash header) preout proof then
              verify pub_key (canonical_bytes_for_signing header) (h_signature header)
            else false
        | _, _, _ => false
        end
      else false
    end
  end.

(** ** Quorums *)
Definition required_quorum (ab : AddressBook) : nat :=
  let total := size ab in
  if decide (total = 0)%nat then 1%nat else (total * 2 / 3 + 1)%nat.

(** The loop of [handle_new_quorum_certificate]: each voter is looked at once,
    with the first signature that is listed for it. *)
Fixpoint valid_voters (ab : AddressBook) (qc : QuorumCertificate)
    (sigs : list (Address * Signature)) (unique_voters : gset Address) : list Address :=
  match sigs with
  | [] => []
  | (voter_addr, signature) :: sigs =>
    if decide (voter_addr ∈ unique_voters) then valid_voters ab qc sigs unique_voters
    else
      let rest := valid_voters ab qc sigs ({[voter_addr]} ∪ unique_voters) in
      if verify_vote_signature ab voter_addr (qc_view_number qc) (qc_batch_hash qc) signature
      then voter_addr :: rest else rest
  end.

Definition qc_voters (ab : AddressBook) (qc : QuorumCertificate) : list Address :=
  valid_voters ab qc (qc_signatures qc) ∅.

Definition qc_is_valid (ab : AddressBook) (qc : QuorumCertificate) : bool :=
  bool_decide (required_quorum ab ≤ length (qc_voters ab qc))%nat.
End committee.

(** ** Lemmas *)
Section lemmas.
Context `{!Crypto}.
Implicit Types (ab : AddressBook) (qc : QuorumCertificate).

Lemma verify_vote_member ab a r h sig :
  verify_vote_signature ab a r h sig = true → a ∈ dom ab.
Proof. unfold verify_vote_signature. intros Hv. apply elem_of_dom. by destruct (ab !! a). Qed.

Lemma valid_voters_spec ab qc sigs seen :
  NoDup (valid_voters ab qc sigs seen) ∧
  ∀ a, a ∈ valid_voters ab qc sigs seen →
    a ∉ seen ∧ ∃ sig, (a, sig) ∈ sigs ∧
      verify_vote_signature ab a (qc_view_number qc) (qc_batch_hash qc) sig = true.
Proof.
  revert seen. induction sigs as [|[a sig] sigs IH]; intros seen; simpl.
  { split; [constructor|set_solver]. }
  case_decide.
  { destruct (IH seen) as [Hnd Hin]. split; [done|]. intros b Hb.
    destruct (Hin b Hb) as (? & s & ? & ?). split; [done|]. exists s. set_solver. }
  destruct (IH ({[a]} ∪ seen)) as [Hnd Hin].
  assert (∀ b, b ∈ valid_voters ab qc sigs ({[a]} ∪ seen) → b ∉ seen ∧ ∃ s, (b, s) ∈ (a, sig) :: sigs ∧
     verify_vote_signature ab b (qc_view_number qc) (qc_batch_hash qc) s = true) as Hin'.
  { intros b Hb. destruct (Hin b Hb) as (? & s & ? & ?). split; [set_solver|]. exists s. set_solver. }
  destruct (verify_vote_signature ab a _ _ sig) eqn:Hv; [|done]. split.
  - constructor; [|done]. intros Ha. destruct (Hin a Ha) as [? _]. set_solver.
  - intros b [->|Hb]%elem_of_cons; [|auto]. split; [done|]. exists sig. set_solver.
Qed.

Lemma qc_voters_NoDup ab qc : NoDup (qc_voters ab qc).
Proof. apply valid_voters_spec. Qed.

Lemma qc_voters_signed ab qc a :
  a ∈ qc_voters ab qc →
  ∃ sig, (a, sig) ∈ qc_signatures qc ∧
    verify_vote_signature ab a (qc_view_number qc) (qc_batch_hash qc) sig = true.
Proof. intros Ha. by apply valid_voters_spec in Ha as [_ ?]. Qed.

(** A certificate whose listed voters are distinct and all verify counts them
    all. *)
Lemma valid_voters_all ab qc sigs seen :
  NoDup sigs.*1 → (∀ a, a ∈ sigs.*1 → a ∉ seen) →
  Forall (λ s, verify_vote_signature ab s.1 (qc_view_number qc) (qc_batch_hash qc) s.2 = true) sigs →
  valid_voters ab qc sigs seen = sigs.*1.
Proof.
  intros Hnd Hseen Hall. revert seen Hnd Hseen.
  induction Hall as [|[a sig] sigs Hv _ IH]; intros seen Hnd Hseen; [done|]. csimpl in *.
  apply NoDup_cons in Hnd as [Ha Hnd]. rewrite decide_False by set_solver.
  rewrite Hv. f_equal. apply IH; [done|]. set_solver.
Qed.

(** Two sets of members of the same book, both of quorum size, share more than a
    third of the book. *)
Lemma quorums_intersect ab (l1 l2 : list Address) :
  ab ≠ ∅ → NoDup l1 → NoDup l2 → (∀ a, a ∈ l1 → a ∈ dom ab) → (∀ a, a ∈ l2 → a ∈ dom ab) →
  (required_quorum ab ≤ length l1)%nat → (required_quorum ab ≤ length l2)%nat →
  (size ab < 3 * size (list_to_set l1 ∩ list_to_set l2 : gset Address))%nat.
Proof.
  intros Hab Hnd1 Hnd2 H1 H2 Hq1 Hq2. set (s1 := list_to_set l1 : gset Address).
  set (s2 := list_to_set l2 : gset Address).
  assert (size s1 = length l1 ∧ size s2 = length l2) as [Hs1 Hs2].
  { split; by apply size_list_to_set. }
  assert (size (s1 ∪ s2) ≤ size ab)%nat as Hu.
  { rewrite <-size_dom. apply subseteq_size. set_solver. }
  rewrite size_union_alt in Hu.
  assert (size s2 = size (s1 ∩ s2) + size (s2 ∖ s1))%nat as Hsplit.
  { rewrite <-size_union by set_solver. f_equal. apply set_eq. intros x.
    destruct (decide (x ∈ s1)); set_solver. }
  unfold required_quorum in *. assert (size ab ≠ 0%nat) as Hne by (by apply map_size_non_empty_iff).
  rewrite decide_False in Hq1, Hq2 by done.
  pose proof (Nat.div_mod (size ab * 2) 3). pose proof (Nat.mod_upper_bound (size ab * 2) 3). lia.
Qed.

(** The committee does not depend on the order of the map's keys. *)
Lemma merge_sort_unique (l1 l2 : list Address) :
  l1 ≡ₚ l2 → merge_sort bytes_le l1 = merge_sort bytes_le l2.
Proof.
  intros Hp. apply (StronglySorted_unique bytes_le); [apply StronglySorted_merge_sort; apply _..|].
  by rewrite !merge_sort_Permutation.
Qed.

Lemma committee_permutation `{!CryptoLaws} size validators round seed :
  ∃ rest, determine_sub_committee size validators round seed ++ rest ≡ₚ validators.
Proof.
  unfold determine_sub_committee. destruct validators as [|v vs]; [by exists []|].
  eexists. rewrite take_drop, shuffle_permutation. apply merge_sort_Permutation.
Qed.

Lemma length_committee `{!CryptoLaws} size validators round seed :
  length (determine_sub_committee size validators round seed) = Nat.min size (length validators).
Proof.
  unfold determine_sub_committee. destruct validators as [|v vs]; [simpl; lia|].
  rewrite length_take, shuffle_permutation, merge_sort_Permutation. done.
Qed.
End lemmas.
