(* ===== verification/Consensus.v ===== *)
(** * The consensus engine ([evice-multi-sequencer/src/consensus/engine.rs],
      [consensus/state.rs])

    The engine is a set of concurrent tasks over shared state behind locks.  A
    task is modelled by what is left of it to run, cut at the points where
    another task may run: each atomic section (the code between taking and
    releasing a lock) is one definition that [task_step] selects.  [sys_step] interleaves the
    sections of all tasks, the driver loop and the arrival of messages in any
    order.  What the environment decides (the clock, the order of a map's keys)
    is in [Env]. *)

From S2P Require Import Prelude Bytes SeqTypes P2pTypes Committee.

(** The level filter of the [log] crate: the arguments of a message are only
    evaluated when its level is on. *)
Inductive Level := Warn | Info | Debug.
Class Logging := log_enabled : Level → bool.

(** [hex::encode(&hash[..4])] as an argument of a log message. *)
Definition log_hash `{!Logging} (lvl : Level) (hash : bytes) : outcome () :=
  if decide (length hash < 4)%nat then
    if log_enabled lvl then Panicked else Done ()
  else Done ().

(** The least-recently-used cache of message hashes (the [lru] crate). *)
Class Lru (C : Type) := {
  lru_empty : C;
  lru_contains : C → bytes → bool;
  lru_put : C → bytes → C;
}.

Class LruLaws (C : Type) `{!Lru C} := {
  lru_contains_empty k : lru_contains lru_empty k = false;
  lru_contains_put c k : lru_contains (lru_put c k) k = true;
  lru_contains_other c k j : lru_contains (lru_put c k) j = true → j = k ∨ lru_contains c j = true;
}.

(** ** Shared state *)
Record CoreConsensusState := mkCore {
  current_round : N;
  current_step : N;
  step_start_time : N;
  highest_seen_qc : QuorumCertificate;
  velocity_votes : gmap bytes (list VelocityVote);
  processed_optimistic_batches : gset bytes;
  optimistically_confirmed_batches : list PayloadBatch;
}.

Abbreviation ConsensusMsg := (ConsensusMessage * PeerId)%type.

Record Node (C : Type) := mkNode {
  core_state : CoreConsensusState;
  pending_proposals : gmap bytes PendingBatch;
  premature_proposals : gmap N (list ConsensusMsg);
  stale_qc_request : gmap bytes (N * N);
  recently_processed_hashes : C;
  mempool : list AppPayload;
  address_book : AddressBook;
}.

Arguments mkNode {C}.
Arguments core_state {C}.
Arguments pending_proposals {C}.
Arguments premature_proposals {C}.
Arguments stale_qc_request {C}.
Arguments recently_processed_hashes {C}.
Arguments mempool {C}.
Arguments address_book {C}.

(** The fixed part of [ConsensusEngine]. *)
Record Config := mkConfig {
  my_address : Address;
  validator_keys : ValidatorKeys;
  genesis_params : GenesisParameters;
}.

Inductive SyncRequest :=
| InformAboutPeers (addrs : list string)
| ConsensusRequest (msg : ConsensusMessage)
| GetFullProposal (hash : bytes)
| FullProposalForCommittee (confirmation : OptimisticConfirmation) (payloads : list AppPayload)
| SubmitVote (vote : VelocityVote).

Inductive P2pCommand :=
| BroadcastConsensusMessage (msg : ConsensusMessage)
| SendDirectRequest (destination : PeerId) (request : SyncRequest)
| ApplyPenalty (peer : PeerId) (penalty : Z)
| DialAddress (addr : Multiaddr)
| GetConnectedPeers.

Definition MAX_CONFIRMED_BATCHES : nat := 256.

(** [prune_stale_data] *)
Definition prune_stale_data (c : CoreConsensusState) : CoreConsensusState :=
  let votes := filter (λ e : bytes * list VelocityVote, e.1 ∉ processed_optimistic_batches c) (velocity_votes c) in
  let batches := optimistically_confirmed_batches c in
  let batches' :=
    if decide (MAX_CONFIRMED_BATCHES < length batches)%nat
    then drop (length batches - MAX_CONFIRMED_BATCHES) batches else batches in
  mkCore (current_round c) (current_step c) (step_start_time c) (highest_seen_qc c) votes
    (processed_optimistic_batches c) batches'.

(** Field updates. *)
Definition with_core {C} (n : Node C) c :=
  mkNode c (pending_proposals n) (premature_proposals n) (stale_qc_request n)
    (recently_processed_hashes n) (mempool n) (address_book n).
Definition with_pending {C} (n : Node C) p :=
  mkNode (core_state n) p (premature_proposals n) (stale_qc_request n)
    (recently_processed_hashes n) (mempool n) (address_book n).
Definition with_premature {C} (n : Node C) q :=
  mkNode (core_state n) (pending_proposals n) q (stale_qc_request n)
    (recently_processed_hashes n) (mempool n) (address_book n).
Definition with_stale {C} (n : Node C) q :=
  mkNode (core_state n) (pending_proposals n) (premature_proposals n) q
    (recently_processed_hashes n) (mempool n) (address_book n).
Definition with_recent {C} (n : Node C) (r : C) :=
  mkNode (core_state n) (pending_proposals n) (premature_proposals n) (stale_qc_request n)
    r (mempool n) (address_book n).
Definition with_mempool {C} (n : Node C) m :=
  mkNode (core_state n) (pending_proposals n) (premature_proposals n) (stale_qc_request n)
    (recently_processed_hashes n) m (address_book n).

Definition with_votes (c : CoreConsensusState) v :=
  mkCore (current_round c) (current_step c) (step_start_time c) (highest_seen_qc c) v
    (processed_optimistic_batches c) (optimistically_confirmed_batches c).
Definition with_highest (c : CoreConsensusState) qc :=
  mkCore (current_round c) (current_step c) (step_start_time c) qc (velocity_votes c)
    (processed_optimistic_batches c) (optimistically_confirmed_batches c).
Definition with_round (c : CoreConsensusState) round step start :=
  mkCore round step start (highest_seen_qc c) (velocity_votes c)
    (processed_optimistic_batches c) (optimistically_confirmed_batches c).

(** [entry(hash).or_default().push(vote)] *)
Definition push_vote (c : CoreConsensusState) (hash : bytes) (v : VelocityVote) : CoreConsensusState :=
  with_votes c (<[hash := default [] (velocity_votes c !! hash) ++ [v]]> (velocity_votes c)).

(** ** Tasks *)

(** What is left of a task; the name is the function it is in. *)
Inductive Task :=
(* handle_consensus_message: the first check of the cache, then the second *)
| Message_check (msg : ConsensusMessage) (source : PeerId)
| Message_put (msg : ConsensusMessage) (source : PeerId)
(* handle_batch_proposal *)
| Proposal_verify (batch : PayloadBatch)
| Proposal_insert (batch : PayloadBatch)
| Proposal_vote (batch : PayloadBatch)
| Proposal_send (vote : VelocityVote)
(* process_votes_for_batch *)
| Votes_quorum (hash : bytes)
| Votes_count (hash : bytes) (quorum : nat)
(* prune_confirmed_proposals *)
| Prune_read
| Prune_write (confirmed : gset bytes)
(* handle_velocity_vote *)
| Vote_seen (vote : VelocityVote)
| Vote_verify (vote : VelocityVote)
| Vote_push (vote : VelocityVote)
(* handle_new_quorum_certificate *)
| Qc_verify (qc : QuorumCertificate) (source : PeerId)
| Qc_update (qc : QuorumCertificate) (source : PeerId)
| Qc_stale (qc : QuorumCertificate) (source : PeerId)
| Qc_request (qc : QuorumCertificate) (source : PeerId)
(* handle_round_step *)
| Step_read (round step : N)
| Step_elect (round step : N) (seed : bytes)
(* run_proposer_flow *)
| Proposer_parent (round : N)
| Proposer_drain (round : N) (parent_qc : QuorumCertificate)
| Proposer_prev (round : N) (parent_qc : QuorumCertificate) (payloads : list AppPayload)
| Proposer_insert (batch : PayloadBatch)
| Proposer_send (batch : PayloadBatch)
| Proposer_vote (batch : PayloadBatch).

Record Env := mkEnv {
  env_instant : N;          (** [Instant::now()], milliseconds *)
  env_time : N;             (** [SystemTime::now()], milliseconds since the epoch *)
  env_keys : list Address;  (** the keys of the address book, in the map's order *)
}.

Section engine.
Context `{!Crypto} `{!Profile} `{!Logging} {C : Type} `{!Lru C} (cfg : Config).
Implicit Types (n : Node C) (c : CoreConsensusState).

(** [ConsensusState::new], with the parts of the engine that change. *)
Definition consensus_state_new (initial_qc : QuorumCertificate) (now : N) (ab : AddressBook) : Node C :=
  mkNode (mkCore 0 0 now initial_qc ∅ ∅ []) ∅ ∅ ∅ lru_empty [] ab.

Definition MAX_PAYLOADS : nat := 100.

(** The vote this node casts for a batch. *)
Definition own_vote (round : N) (hash : bytes) : outcome VelocityVote :=
  vote_sign (mkVote round hash (my_address cfg) (replicate SIGNATURE_SIZE Byte.x00))
    (signing_keys (validator_keys cfg)).

Definition to_pending (b : PayloadBatch) : PendingBatch :=
  mkPending (pb_header b) (pb_payloads b) (pb_justify b) (pb_round b).

(** The batch [run_proposer_flow] builds: the header, then its VRF output and
    proof, then its signature. *)
Definition build_batch (now round : N) (parent_qc : QuorumCertificate) (payloads : list AppPayload)
    (prev_index : N) (prev_hash : bytes) : outcome PayloadBatch :=
  index ← u64_add prev_index 1;
  let '(vrf_output, vrf_proof) := vrf_sign (vrf_keys (validator_keys cfg)) prev_hash in
  let header := mkHeader index prev_hash (now mod U64) (calculate_payloads_root payloads)
                  (my_address cfg) vrf_output vrf_proof [] in
  signature ← keypair_sign (signing_keys (validator_keys cfg)) (canonical_bytes_for_signing header);
  let header := mkHeader index prev_hash (now mod U64) (calculate_payloads_root payloads)
                  (my_address cfg) vrf_output vrf_proof signature in
  Done (mkBatch header payloads parent_qc round).

(** The batch the highest certificate certifies, searched from the latest. *)
Definition find_confirmed (batches : list PayloadBatch) (hash : bytes) : option PayloadBatch :=
  snd <$> list_find (λ b, calculate_hash (pb_header b) = hash) (reverse batches).

Definition election_seed c : bytes :=
  match find_confirmed (optimistically_confirmed_batches c) (qc_batch_hash (highest_seen_qc c)) with
  | Some b => h_vrf_output (pb_header b)
  | None => qc_batch_hash (highest_seen_qc c)
  end.

Definition certificate (hash : bytes) (batch : PendingBatch) (votes : list VelocityVote)
    : QuorumCertificate :=
  mkQc hash (pd_round batch) ((λ v, (vv_voter_address v, vv_signature v)) <$> votes).

(** The effect of a quorum on the core state, pruning included. *)
Definition confirm c (hash : bytes) (batch : PendingBatch) (qc : QuorumCertificate)
    : CoreConsensusState :=
  let c := mkCore (current_round c) (current_step c) (step_start_time c)
             (if decide (qc_view_number (highest_seen_qc c) < qc_view_number qc) then qc
              else highest_seen_qc c)
             (velocity_votes c) ({[hash]} ∪ processed_optimistic_batches c)
             (optimistically_confirmed_batches c ++
               [mkBatch (pd_header batch) (pd_payloads batch) (pd_parent_qc batch) (pd_round batch)]) in
  prune_stale_data c.

Definition broadcast (msg : ConsensusMessage) : list P2pCommand := [BroadcastConsensusMessage msg].

(** ** The atomic sections

    Each gives the new state, the commands sent to the network, and what is left
    of the task. *)
Abbreviation section := (outcome (Node C * list P2pCommand * list Task)).

(** [handle_consensus_message] *)
Definition message_check n (msg : ConsensusMessage) (source : PeerId) : section :=
  if lru_contains (recently_processed_hashes n) (consensus_message_hash msg)
  then Done (n, [], []) else Done (n, [], [Message_put msg source]).

Definition message_put n (msg : ConsensusMessage) (source : PeerId) : section :=
  let message_hash := consensus_message_hash msg in
  if lru_contains (recently_processed_hashes n) message_hash then Done (n, [], [])
  else
    Done (with_recent n (lru_put (recently_processed_hashes n) message_hash), [],
          match msg with
          | IntentBatchProposal batch => [Proposal_verify batch]
          | VelocityVoteMsg vote => [Vote_seen vote]
          | NewQuorumCertificate qc => [Qc_verify qc source]
          end).

(** [handle_batch_proposal] *)
Definition proposal_verify n (batch : PayloadBatch) : section :=
  if verify_batch_signature (address_book n) (pb_header batch)
  then Done (n, [], [Proposal_insert batch]) else Done (n, [], []).

Definition proposal_insert n (batch : PayloadBatch) : section :=
  let batch_hash := calculate_hash (pb_header batch) in
  match pending_proposals n !! batch_hash with
  | Some _ => Done (n, [], [])
  | None => Done (with_pending n (<[batch_hash := to_pending batch]> (pending_proposals n)), [],
                  [Proposal_vote batch])
  end.

Definition proposal_vote n (batch : PayloadBatch) : section :=
  let batch_hash := calculate_hash (pb_header batch) in
  _ ← log_hash Info batch_hash;
  my_vote ← own_vote (pb_round batch) batch_hash;
  Done (with_core n (push_vote (core_state n) batch_hash my_vote), [], [Proposal_send my_vote]).

Definition proposal_send n (my_vote : VelocityVote) : section :=
  Done (n, broadcast (VelocityVoteMsg my_vote), [Votes_quorum (vv_batch_hash my_vote)]).

(** [process_votes_for_batch], and the [prune_confirmed_proposals] it ends with *)
Definition votes_quorum n (batch_hash : bytes) : section :=
  Done (n, [], [Votes_count batch_hash (required_quorum (address_book n))]).

Definition votes_count n (batch_hash : bytes) (quorum : nat) : section :=
  if decide (batch_hash ∈ processed_optimistic_batches (core_state n)) then Done (n, [], [])
  else
    match velocity_votes (core_state n) !! batch_hash with
    | None => Done (n, [], [])
    | Some votes =>
      if decide (quorum ≤ length votes)%nat then
        _ ← log_hash Info batch_hash;
        match pending_proposals n !! batch_hash with
        | Some batch =>
            let qc := certificate batch_hash batch votes in
            Done (with_core n (confirm (core_state n) batch_hash batch qc),
                  broadcast (NewQuorumCertificate qc), [Prune_read])
        | None => _ ← log_hash Warn batch_hash; Done (n, [], [])
        end
      else Done (n, [], [])
    end.

Definition prune_read n : section :=
  Done (n, [], [Prune_write (processed_optimistic_batches (core_state n))]).

Definition prune_write n (confirmed : gset bytes) : section :=
  Done (with_pending n (filter (λ e : bytes * PendingBatch, e.1 ∉ confirmed) (pending_proposals n)),
        [], []).

(** [handle_velocity_vote] *)
Definition vote_seen n (vote : VelocityVote) : section :=
  if decide (vv_batch_hash vote ∈ processed_optimistic_batches (core_state n)) then Done (n, [], [])
  else Done (n, [], [Vote_verify vote]).

Definition vote_verify n (vote : VelocityVote) : section :=
  if verify_vote_signature (address_book n) (vv_voter_address vote) (vv_round_id vote)
       (vv_batch_hash vote) (vv_signature vote)
  then Done (n, [], [Vote_push vote]) else Done (n, [], []).

Definition vote_push n (vote : VelocityVote) : section :=
  let batch_hash := vv_batch_hash vote in
  let votes := default [] (velocity_votes (core_state n) !! batch_hash) in
  let votes' := if decide (vv_voter_address vote ∈ vv_voter_address <$> votes) then votes
                else votes ++ [vote] in
  Done (with_core n (with_votes (core_state n) (<[batch_hash := votes']> (velocity_votes (core_state n)))),
        [], [Votes_quorum batch_hash]).

(** [handle_new_quorum_certificate] *)
Definition qc_verify n (qc : QuorumCertificate) (source : PeerId) : section :=
  if qc_is_valid (address_book n) qc then Done (n, [], [Qc_update qc source])
  else Done (n, [ApplyPenalty source (-50)], []).

Definition qc_update n (qc : QuorumCertificate) (source : PeerId) : section :=
  if decide (qc_view_number (highest_seen_qc (core_state n)) < qc_view_number qc) then
    Done (with_core n (with_highest (core_state n) qc), [],
          match pending_proposals n !! qc_batch_hash qc with
          | Some _ => []
          | None => [Qc_stale qc source]
          end)
  else Done (n, [], []).

Definition qc_stale (env : Env) n (qc : QuorumCertificate) (source : PeerId) : section :=
  _ ← log_hash Warn (qc_batch_hash qc);
  Done (with_stale n (<[qc_batch_hash qc := (qc_view_number qc, env_instant env)]> (stale_qc_request n)),
        [], [Qc_request qc source]).

Definition qc_request n (qc : QuorumCertificate) (source : PeerId) : section :=
  Done (n, [SendDirectRequest source (GetFullProposal (qc_batch_hash qc))], []).

(** [handle_round_step] *)
Definition step_read n (round step : N) : section :=
  if decide (current_round (core_state n) = round ∧ current_step (core_state n) = step)
  then Done (n, [], [Step_elect round step (election_seed (core_state n))]) else Done (n, [], []).

Definition step_elect (env : Env) n (round step : N) (seed : bytes) : section :=
  let sub_committee :=
    determine_sub_committee (sub_committee_size (genesis_params cfg)) (env_keys env) round seed in
  match sub_committee !! N.to_nat step with
  | None => Done (n, [], [])
  | Some proposer_address =>
      if decide (my_address cfg = proposer_address) then Done (n, [], [Proposer_parent round])
      else Done (n, [], [])
  end.

(** [run_proposer_flow] *)
Definition proposer_parent n (round : N) : section :=
  Done (n, [], [Proposer_drain round (highest_seen_qc (core_state n))]).

Definition proposer_drain n (round : N) (parent_qc : QuorumCertificate) : section :=
  let drain_count := Nat.min (length (mempool n)) MAX_PAYLOADS in
  Done (with_mempool n (drop drain_count (mempool n)), [],
        [Proposer_prev round parent_qc (take drain_count (mempool n))]).

Definition proposer_prev (env : Env) n (round : N) (parent_qc : QuorumCertificate)
    (payloads : list AppPayload) : section :=
  let '(prev_index, prev_hash) :=
    match last (optimistically_confirmed_batches (core_state n)) with
    | Some latest_batch => (h_index (pb_header latest_batch), calculate_hash (pb_header latest_batch))
    | None => (0, replicate 32 Byte.x00)
    end in
  batch ← build_batch (env_time env) round parent_qc payloads prev_index prev_hash;
  _ ← log_hash Info (calculate_hash (pb_header batch));
  Done (n, [], [Proposer_insert batch]).

Definition proposer_insert n (batch : PayloadBatch) : section :=
  Done (with_pending n (<[calculate_hash (pb_header batch) := to_pending batch]> (pending_proposals n)),
        [], [Proposer_send batch]).

Definition proposer_send n (batch : PayloadBatch) : section :=
  Done (n, broadcast (IntentBatchProposal batch), [Proposer_vote batch]).

Definition proposer_vote n (batch : PayloadBatch) : section :=
  let batch_hash := calculate_hash (pb_header batch) in
  self_vote ← own_vote (pb_round batch) batch_hash;
  Done (with_core n (push_vote (core_state n) batch_hash self_vote), [], [Votes_quorum batch_hash]).

(** The next section of a task. *)
Definition task_step (env : Env) n (t : Task) : section :=
  match t with
  | Message_check msg source => message_check n msg source
  | Message_put msg source => message_put n msg source
  | Proposal_verify batch => proposal_verify n batch
  | Proposal_insert batch => proposal_insert n batch
  | Proposal_vote batch => proposal_vote n batch
  | Proposal_send vote => proposal_send n vote
  | Votes_quorum hash => votes_quorum n hash
  | Votes_count hash quorum => votes_count n hash quorum
  | Prune_read => prune_read n
  | Prune_write confirmed => prune_write n confirmed
  | Vote_seen vote => vote_seen n vote
  | Vote_verify vote => vote_verify n vote
  | Vote_push vote => vote_push n vote
  | Qc_verify qc source => qc_verify n qc source
  | Qc_update qc source => qc_update n qc source
  | Qc_stale qc source => qc_stale env n qc source
  | Qc_request qc source => qc_request n qc source
  | Step_read round step => step_read n round step
  | Step_elect round step seed => step_elect env n round step seed
  | Proposer_parent round => proposer_parent n round
  | Proposer_drain round parent_qc => proposer_drain n round parent_qc
  | Proposer_prev round parent_qc payloads => proposer_prev env n round parent_qc payloads
  | Proposer_insert batch => proposer_insert n batch
  | Proposer_send batch => proposer_send n batch
  | Proposer_vote batch => proposer_vote n batch
  end.

(** ** The driver loop of [run] *)

(** Where the loop is: before reading the state, before writing the new round
    and step, before collecting the proposals queued for the round. *)
Inductive Driver := Driver_read | Driver_write (round step : N) | Driver_requeue (round step : N).

(** The decision of one tick: the next round and step, if a new task starts. *)
Definition driver_decide (now : N) c : outcome (option (N * N)) :=
  let highest_qc_view := qc_view_number (highest_seen_qc c) in
  if decide (current_round c ≤ highest_qc_view) then
    next_round ← u64_add highest_qc_view 1; Done (Some (next_round, 0))
  else if decide (proposer_timeout_ms (genesis_params cfg) < saturating_sub now (step_start_time c)) then
    next_step ← u64_add (current_step c) 1;
    if decide (N.of_nat (sub_committee_size (genesis_params cfg)) ≤ next_step) then
      next_round ← u64_add (current_round c) 1; Done (Some (next_round, 0))
    else Done (Some (current_round c, next_step))
  else Done None.

Definition driver_step (env : Env) (consensus_ready : bool) n (d : Driver)
    : outcome (Node C * Driver * list Task) :=
  match d with
  | Driver_read =>
      if consensus_ready then
        next ← driver_decide (env_instant env) (core_state n);
        Done (n, match next with Some (r, s) => Driver_write r s | None => Driver_read end, [])
      else Done (n, Driver_read, [])
  | Driver_write round step =>
      Done (with_core n (with_round (core_state n) round step (env_instant env)), Driver_requeue round step, [])
  | Driver_requeue round step =>
      let proposals := default [] (premature_proposals n !! round) in
      Done (with_premature n (delete round (premature_proposals n)), Driver_read,
            ((λ m : ConsensusMsg, Message_check m.1 m.2) <$> proposals) ++ [Step_read round step])
  end.

(** ** The system: the node, its driver, its tasks and what it has sent *)
Record Sys := mkSys {
  node : Node C;
  driver : Driver;
  tasks : list Task;
  sent : list P2pCommand;
  signed : list (N * bytes);  (** the votes this node has signed; a history variable *)
}.

(** The vote a section signs. *)
Definition task_signs (t : Task) : list (N * bytes) :=
  match t with
  | Proposal_vote batch | Proposer_vote batch => [(pb_round batch, calculate_hash (pb_header batch))]
  | _ => []
  end.

Definition sys_new (initial_qc : QuorumCertificate) (now : N) (ab : AddressBook) : Sys :=
  mkSys (consensus_state_new initial_qc now ab) Driver_read [] [] [].

(** An interleaving.  [delivers] says which messages the network may deliver and
    [may_run] which sections may run in which state; a task may also end early,
    by the driver's [abort] or by a panic. *)
Inductive sys_step (delivers : Sys → ConsensusMessage → Prop) (may_run : Sys → Task → Prop)
    : Sys → Sys → Prop :=
| step_deliver s msg source :
    delivers s msg →
    sys_step delivers may_run s
      (mkSys (node s) (driver s) (tasks s ++ [Message_check msg source]) (sent s) (signed s))
| step_payload s payload :
    sys_step delivers may_run s
      (mkSys (with_mempool (node s) (mempool (node s) ++ [payload])) (driver s) (tasks s) (sent s) (signed s))
| step_driver s env ready n d ts :
    env_keys env ≡ₚ elements (dom (address_book (node s))) →
    driver_step env ready (node s) (driver s) = Done (n, d, ts) →
    sys_step delivers may_run s (mkSys n d (tasks s ++ ts) (sent s) (signed s))
| step_task s env l1 t l2 n cmds ts :
    env_keys env ≡ₚ elements (dom (address_book (node s))) →
    tasks s = l1 ++ t :: l2 → may_run s t →
    task_step env (node s) t = Done (n, cmds, ts) →
    sys_step delivers may_run s (mkSys n (driver s) (l1 ++ ts ++ l2) (sent s ++ cmds)
      (signed s ++ task_signs t))
| step_end s l1 t l2 :
    tasks s = l1 ++ t :: l2 →
    sys_step delivers may_run s (mkSys (node s) (driver s) (l1 ++ l2) (sent s) (signed s)).
End engine.

Arguments mkSys {C}.
Arguments node {C}.
Arguments driver {C}.
Arguments tasks {C}.
Arguments sent {C}.
Arguments signed {C}.

(** Unfolds the section a task is at, in the goal or in a hypothesis. *)
Ltac unfold_section :=
  cbn [task_step] in *;
  unfold message_check, message_put, proposal_verify, proposal_insert, proposal_vote, proposal_send,
    votes_quorum, votes_count, prune_read, prune_write, vote_seen, vote_verify, vote_push, qc_verify,
    qc_update, qc_stale, qc_request, step_read, step_elect, proposer_parent, proposer_drain,
    proposer_prev, proposer_insert, proposer_send, proposer_vote in *.

(** A hash of at least the four bytes that are logged is logged without a panic. *)
Lemma log_hash_long `{!Logging} lvl (h : bytes) : (4 ≤ length h)%nat → log_hash lvl h = Done ().
Proof. intros. unfold log_hash. by rewrite decide_False by lia. Qed.
