(* ===== verification/ConsensusProps.v ===== *)
(** * Invariants of the consensus engine

    What holds in every state the engine can reach, under every interleaving of
    its tasks: no vote is counted twice, every certificate it sends is backed by
    a quorum of verified votes, a batch is confirmed at most once, memory stays
    bounded. *)

From S2P Require Import Prelude Bytes SeqTypes P2pTypes Committee Consensus.

Definition votes_of (c : CoreConsensusState) (h : bytes) : list VelocityVote :=
  default [] (velocity_votes c !! h).

Definition voters_of (c : CoreConsensusState) (h : bytes) : list Address :=
  vv_voter_address <$> votes_of c h.

Section consensus.
Context `{!Crypto} `{!CryptoLaws} `{!Profile} `{!Logging} {C : Type} `{!Lru C} (cfg : Config).
Context (ab : AddressBook).
Implicit Types (s : Sys (C := C)) (n : Node C) (t : Task).

Definition batch_hash_of (b : PayloadBatch) : bytes := calculate_hash (pb_header b).

Definition verified (v : VelocityVote) : Prop :=
  verify_vote_signature ab (vv_voter_address v) (vv_round_id v) (vv_batch_hash v) (vv_signature v) = true.

(** A certificate that a quorum of distinct validators stands behind. *)
Definition qc_backed (qc : QuorumCertificate) : Prop :=
  NoDup (qc_signatures qc).*1 ∧ (required_quorum ab ≤ length (qc_signatures qc))%nat ∧
  Forall (λ e, ∃ r, verify_vote_signature ab e.1 r (qc_batch_hash qc) e.2 = true) (qc_signatures qc).

(** ** Assumptions on the environment *)

(** Signatures cannot be forged: a vote in this node's name that verifies is one
    it has signed.  Everything else may be delivered: any message, any number of
    times, in any order. *)
Definition authentic s (msg : ConsensusMessage) : Prop :=
  match msg with
  | VelocityVoteMsg v =>
      verified v → vv_voter_address v = my_address cfg → (vv_round_id v, vv_batch_hash v) ∈ signed s
  | _ => True
  end.

(** A header this node builds (it holds the time and a signature) is not one
    that is pending already. *)
Definition fresh_header s t : Prop :=
  match t with
  | Proposer_insert b => pending_proposals (node s) !! batch_hash_of b = None
  | _ => True
  end.

(** This node is a validator with the key the address book has for it. *)
Definition registered : Prop :=
  keys_ok (signing_keys (validator_keys cfg)) ∧
  ∃ info, ab !! my_address cfg = Some info ∧
    pi_public_key info = Some (public_key (signing_keys (validator_keys cfg))).

(** ** The invariant *)

(** The batch for which a task is going to add this node's vote. *)
Definition pusher t : option bytes :=
  match t with
  | Proposal_vote b | Proposer_send b | Proposer_vote b => Some (batch_hash_of b)
  | _ => None
  end.

Definition pushers (ts : list Task) : list bytes := omap pusher ts.

Definition incoming_vote t : option VelocityVote :=
  match t with
  | Message_check (VelocityVoteMsg v) _ | Message_put (VelocityVoteMsg v) _
  | Vote_seen v | Vote_verify v | Vote_push v => Some v
  | _ => None
  end.

(** The hash of a header that carries a validator's signature and VRF proof. *)
Definition checked (h : bytes) : Prop :=
  ∃ header, calculate_hash header = h ∧ verify_batch_signature ab header = true.

(** What a task knows. *)
Definition task_ok (processed : gset bytes) (sgn : list (N * bytes)) t : Prop :=
  (∀ v, incoming_vote t = Some v → verified v → vv_voter_address v = my_address cfg →
    (vv_round_id v, vv_batch_hash v) ∈ sgn) ∧
  match t with
  | Vote_push v => verified v
  | Prune_write confirmed => confirmed ⊆ processed
  | Votes_count _ q => q = required_quorum ab
  | Proposal_insert b | Proposal_vote b => verify_batch_signature ab (pb_header b) = true
  | Proposal_send v => checked (vv_batch_hash v)
  | _ => True
  end.

Record inv s : Prop := {
  inv_book : address_book (node s) = ab;
  inv_premature : premature_proposals (node s) = ∅;
  inv_pending h b : pending_proposals (node s) !! h = Some b → calculate_hash (pd_header b) = h;
  inv_votes h v : v ∈ votes_of (core_state (node s)) h → vv_batch_hash v = h ∧ verified v;
  inv_voters h : h ∉ processed_optimistic_batches (core_state (node s)) →
    NoDup (voters_of (core_state (node s)) h);
  inv_own h : h ∉ processed_optimistic_batches (core_state (node s)) →
    my_address cfg ∈ voters_of (core_state (node s)) h →
    is_Some (pending_proposals (node s) !! h) ∧ h ∉ pushers (tasks s);
  inv_pushers :
    NoDup (filter (.∉ processed_optimistic_batches (core_state (node s))) (pushers (tasks s)));
  inv_pushers_pending h : h ∉ processed_optimistic_batches (core_state (node s)) →
    h ∈ pushers (tasks s) → is_Some (pending_proposals (node s) !! h);
  inv_signed r h : (r, h) ∈ signed s →
    h ∈ processed_optimistic_batches (core_state (node s)) ∨
    my_address cfg ∈ voters_of (core_state (node s)) h;
  inv_tasks : Forall (task_ok (processed_optimistic_batches (core_state (node s))) (signed s)) (tasks s);
  inv_confirmed_once : NoDup (batch_hash_of <$> optimistically_confirmed_batches (core_state (node s)));
  inv_confirmed_processed b : b ∈ optimistically_confirmed_batches (core_state (node s)) →
    batch_hash_of b ∈ processed_optimistic_batches (core_state (node s));
  inv_confirmed_bound :
    (length (optimistically_confirmed_batches (core_state (node s))) ≤ MAX_CONFIRMED_BATCHES)%nat;
  inv_signed_once :
    NoDup (filter (.∉ processed_optimistic_batches (core_state (node s))) (signed s).*2);
  inv_sent_vote v : BroadcastConsensusMessage (VelocityVoteMsg v) ∈ sent s → checked (vv_batch_hash v);
  inv_sent qc : BroadcastConsensusMessage (NewQuorumCertificate qc) ∈ sent s → qc_backed qc;
}.

(** ** Lemmas on lists of tasks *)
Lemma pushers_app l1 l2 : pushers (l1 ++ l2) = pushers l1 ++ pushers l2.
Proof. apply omap_app. Qed.

Lemma pushers_cons t l : pushers (t :: l) = pushers [t] ++ pushers l.
Proof. apply (pushers_app [t]). Qed.

Lemma task_ok_mono P P' S S' t :
  P ⊆ P' → (∀ x, x ∈ S → x ∈ S') → task_ok P S t → task_ok P' S' t.
Proof.
  intros HP HS [Hvote Hdata]. split; [by eauto|]. destruct t; try done. set_solver.
Qed.

(** A task that carries no incoming vote and no data knows nothing. *)
Lemma task_ok_plain P S t :
  incoming_vote t = None →
  match t with
  | Prune_write _ | Votes_count _ _ | Proposal_insert _ | Proposal_vote _ | Proposal_send _ => False
  | _ => True
  end → task_ok P S t.
Proof. intros Hv Ht. split; [by rewrite Hv|]. by destruct t. Qed.

(** A task that goes on carrying the vote it carried. *)
Lemma task_ok_vote P S t t' v :
  task_ok P S t → incoming_vote t = Some v → incoming_vote t' = Some v →
  (∀ w, t' ≠ Vote_push w) → task_ok P S t'.
Proof.
  intros [Hvote _] Ht Ht' Hne. split.
  - intros w Hw. apply Hvote. congruence.
  - destruct t' as [| | | | | | | | | | | |w| | | | | | | | | | | |]; try done. by destruct (Hne w).
Qed.

(** ** Steps that leave the consensus data alone *)

(** The parts of the node the invariant speaks of. *)
Definition same_data n n' : Prop :=
  address_book n' = address_book n ∧ premature_proposals n' = premature_proposals n ∧
  pending_proposals n' = pending_proposals n ∧
  velocity_votes (core_state n') = velocity_votes (core_state n) ∧
  processed_optimistic_batches (core_state n') = processed_optimistic_batches (core_state n) ∧
  optimistically_confirmed_batches (core_state n') = optimistically_confirmed_batches (core_state n).

(** Commands that are no certificates, and whose votes are for checked headers. *)
Definition harmless (cmds : list P2pCommand) : Prop :=
  Forall (λ c, match c with
               | BroadcastConsensusMessage (NewQuorumCertificate _) => False
               | BroadcastConsensusMessage (VelocityVoteMsg v) => checked (vv_batch_hash v)
               | _ => True
               end) cmds.

(** Tasks may be replaced by tasks that push for the same batches or fewer. *)
Lemma inv_retask s n d ts cmds :
  inv s → same_data (node s) n → harmless cmds →
  (∃ k, pushers (tasks s) ≡ₚ pushers ts ++ k) →
  Forall (task_ok (processed_optimistic_batches (core_state (node s))) (signed s)) ts →
  inv (mkSys n d ts (sent s ++ cmds) (signed s)).
Proof.
  intros Hinv (Hb & Hp & Hpend & Hv & Hproc & Hconf) Hcmds [k Hk] Hts.
  assert (∀ h, h ∈ pushers ts → h ∈ pushers (tasks s)) as Hsub by (intros h; rewrite Hk; set_solver).
  destruct Hinv. split; simpl; unfold voters_of, votes_of in *; rewrite ?Hb, ?Hp, ?Hpend, ?Hv, ?Hproc, ?Hconf;
    try done; try (by eauto).
  - intros h ? Hown. destruct (inv_own0 h) as [? Hno]; [done|done|]. split; [done|]. auto.
  - rewrite Hk, filter_app in inv_pushers0. by apply NoDup_app in inv_pushers0 as [? _].
  - intros v Hin. apply elem_of_app in Hin as [?|Hin]; [auto|].
    exact (proj1 (Forall_forall _ _) Hcmds _ Hin).
  - intros qc Hin. apply elem_of_app in Hin as [?|Hin]; [auto|]. by destruct (proj1 (Forall_forall _ _) Hcmds _ Hin).
Qed.

(** ** Steps that change the consensus data *)

Lemma pushers_middle l1 t l2 : pushers (l1 ++ t :: l2) ≡ₚ pushers [t] ++ pushers (l1 ++ l2).
Proof.
  rewrite !pushers_app, (pushers_cons t l2). rewrite !app_assoc. f_equiv. apply Permutation_app_comm.
Qed.

Lemma pushers_nil_middle l1 t l2 : pusher t = None → pushers (l1 ++ t :: l2) = pushers (l1 ++ l2).
Proof. intros Ht. rewrite !pushers_app, pushers_cons. unfold pushers at 2. simpl. by rewrite Ht. Qed.

Lemma elem_of_pushers_middle l1 t l2 h k :
  pusher t = Some h → k ∈ pushers (l1 ++ t :: l2) ↔ k = h ∨ k ∈ pushers (l1 ++ l2).
Proof. intros Ht. rewrite pushers_middle. unfold pushers at 1. simpl. rewrite Ht. set_solver. Qed.

(** A batch becomes pending, and its task is about to vote for it. *)
Lemma inv_insert_pending s l1 t l2 b t' :
  inv s → tasks s = l1 ++ t :: l2 → pusher t = None →
  pending_proposals (node s) !! batch_hash_of b = None → pusher t' = Some (batch_hash_of b) →
  task_ok (processed_optimistic_batches (core_state (node s))) (signed s) t' →
  inv (mkSys (with_pending (node s) (<[batch_hash_of b := to_pending b]> (pending_proposals (node s))))
         (driver s) (l1 ++ t' :: l2) (sent s) (signed s)).
Proof.
  intros [] Hts Ht Hnone Ht' Hok. rewrite Hts, (pushers_nil_middle l1 t l2 Ht) in *.
  rewrite Forall_app, Forall_cons in inv_tasks0. destruct inv_tasks0 as (Hok1 & _ & Hok2).
  split; simpl; try done.
  - intros h b'. rewrite lookup_insert. case_decide; intros; simplify_eq; [done|eauto].
  - intros h Hproc Hown. destruct (inv_own0 h Hproc Hown) as [Hsome Hno].
    assert (h ≠ batch_hash_of b) as Hne by (intros ->; rewrite Hnone in Hsome; by destruct Hsome).
    rewrite lookup_insert_ne by done. split; [done|].
    rewrite (elem_of_pushers_middle _ _ _ _ _ Ht'). naive_solver.
  - rewrite pushers_middle. unfold pushers at 1. simpl. rewrite Ht'. simpl. rewrite filter_cons.
    case_decide as Hproc; [|done]. apply NoDup_cons. split; [|done]. intros [_ Hin]%list_elem_of_filter.
    destruct (inv_pushers_pending0 _ Hproc Hin) as [? Hs]. by rewrite Hnone in Hs.
  - intros h Hproc. rewrite (elem_of_pushers_middle _ _ _ _ _ Ht'), lookup_insert.
    case_decide; [by eauto|]. intros [->|Hin]; [done|eauto].
  - apply Forall_app. split; [done|]. by constructor.
Qed.

Lemma votes_of_push c h v k :
  votes_of (push_vote c h v) k = if decide (h = k) then votes_of c h ++ [v] else votes_of c k.
Proof. unfold votes_of, push_vote. simpl. rewrite lookup_insert. by case_decide; subst. Qed.

Lemma voters_of_push c h v k :
  voters_of (push_vote c h v) k =
    if decide (h = k) then voters_of c h ++ [vv_voter_address v] else voters_of c k.
Proof. unfold voters_of. rewrite votes_of_push. case_decide; [by rewrite fmap_app|done]. Qed.

(** This node's own vote is added. *)
Lemma inv_push_own s l1 t l2 h r v t' :
  inv s → tasks s = l1 ++ t :: l2 → pusher t = Some h →
  vv_voter_address v = my_address cfg → vv_batch_hash v = h → verified v →
  pusher t' = None → task_ok (processed_optimistic_batches (core_state (node s))) (signed s) t' →
  inv (mkSys (with_core (node s) (push_vote (core_state (node s)) h v)) (driver s) (l1 ++ t' :: l2)
         (sent s) (signed s ++ [(r, h)])).
Proof.
  intros [] Hts Ht Hvoter Hhash Hver Ht' Hok. rewrite Hts in *.
  rewrite Forall_app, Forall_cons in inv_tasks0. destruct inv_tasks0 as (Hok1 & _ & Hok2).
  assert (h ∈ pushers (l1 ++ t :: l2)) as Hmem by (rewrite elem_of_pushers_middle; eauto).
  rewrite pushers_middle in inv_pushers0. unfold pushers at 1 in inv_pushers0. simpl in inv_pushers0.
  rewrite Ht in inv_pushers0. simpl in inv_pushers0.
  assert (NoDup (filter (.∉ processed_optimistic_batches (core_state (node s))) (pushers (l1 ++ l2)))) as Hnd.
  { rewrite filter_cons in inv_pushers0. case_decide; [by apply NoDup_cons in inv_pushers0 as [_ ?]|done]. }
  split; simpl; try done; rewrite ?(pushers_nil_middle l1 t' l2 Ht').
  - intros k w. rewrite votes_of_push. case_decide; [|by eauto].
    intros [Hw|Hw]%elem_of_app; [subst; by eauto|]. apply list_elem_of_singleton in Hw as ->. by subst.
  - intros k Hproc. rewrite voters_of_push. case_decide; [|by eauto]. subst k.
    apply NoDup_app. split_and!; [by eauto| |apply NoDup_singleton]. rewrite Hvoter.
    intros a Ha ->%list_elem_of_singleton. by destruct (inv_own0 _ Hproc Ha).
  - intros k Hproc. rewrite voters_of_push. case_decide as Hk.
    + subst k. intros _. split; [by eauto|]. intros Hin. rewrite filter_cons_True in inv_pushers0 by done.
      apply NoDup_cons in inv_pushers0 as [Hno _]. apply Hno, list_elem_of_filter. done.
    + intros Hown. destruct (inv_own0 k Hproc Hown) as [? Hno]. split; [done|].
      rewrite elem_of_pushers_middle in Hno by done. naive_solver.
  - done.
  - intros k Hproc Hin. apply inv_pushers_pending0; [done|]. rewrite elem_of_pushers_middle by done. auto.
  - intros r' k [Hin|Hin]%elem_of_app.
    + destruct (inv_signed0 r' k Hin) as [?|Hown]; [by left|]. right. rewrite voters_of_push.
      case_decide; [subst; set_solver|done].
    + apply list_elem_of_singleton in Hin. simplify_eq. right. rewrite voters_of_push, decide_True by done.
      rewrite Hvoter. set_solver.
  - assert (∀ u, task_ok (processed_optimistic_batches (core_state (node s))) (signed s) u →
      task_ok (processed_optimistic_batches (core_state (node s))) (signed s ++ [(r, h)]) u) as Hmono.
    { intros u. apply task_ok_mono; set_solver. }
    apply Forall_app. split; [by eapply Forall_impl|]. constructor; [auto|by eapply Forall_impl].
  - rewrite fmap_app, filter_app. apply NoDup_app. split_and!; [done| |].
    + intros k [_ Hk]%list_elem_of_filter [Hproc ->%list_elem_of_singleton]%list_elem_of_filter.
      apply list_elem_of_fmap in Hk as ([r' k] & Heq & Hk). simpl in Heq. subst k.
      destruct (inv_signed0 _ _ Hk) as [?|Hown]; [done|]. by destruct (inv_own0 _ Hproc Hown).
    + apply NoDup_filter, NoDup_singleton.
Qed.

(** The state [Vote_push] leaves: the vote is added unless its voter is known. *)
Definition add_vote c (v : VelocityVote) : CoreConsensusState :=
  with_votes c (<[vv_batch_hash v :=
    if decide (vv_voter_address v ∈ vv_voter_address <$> default [] (velocity_votes c !! vv_batch_hash v))
    then default [] (velocity_votes c !! vv_batch_hash v)
    else default [] (velocity_votes c !! vv_batch_hash v) ++ [v]]> (velocity_votes c)).

Lemma votes_of_add c v k :
  votes_of (add_vote c v) k =
    if decide (vv_batch_hash v = k ∧ vv_voter_address v ∉ voters_of c k)
    then votes_of c k ++ [v] else votes_of c k.
Proof.
  unfold votes_of, add_vote, voters_of, votes_of. simpl. rewrite lookup_insert.
  repeat case_decide; subst; naive_solver.
Qed.

(** A verified vote from the network is added. *)
Lemma inv_add_vote s l1 v l2 :
  inv s → tasks s = l1 ++ Vote_push v :: l2 →
  inv (mkSys (with_core (node s) (add_vote (core_state (node s)) v)) (driver s)
         (l1 ++ Votes_quorum (vv_batch_hash v) :: l2) (sent s) (signed s)).
Proof.
  intros [] Hts. rewrite Hts in *. rewrite pushers_nil_middle in * by done.
  rewrite Forall_app, Forall_cons in inv_tasks0. destruct inv_tasks0 as (Hok1 & [Hauth Hver] & Hok2).
  (* the vote is not this node's own unless it has one for the batch already *)
  assert (∀ k, vv_batch_hash v = k → vv_voter_address v ∉ voters_of (core_state (node s)) k →
    k ∉ processed_optimistic_batches (core_state (node s)) → vv_voter_address v ≠ my_address cfg) as Hother.
  { intros k <- Hnew Hproc Hme. destruct (inv_signed0 _ _ (Hauth v eq_refl Hver Hme)) as [?|Hown]; [done|].
    by rewrite Hme in Hnew. }
  assert (∀ k, k ∉ processed_optimistic_batches (core_state (node s)) →
    my_address cfg ∈ voters_of (add_vote (core_state (node s)) v) k →
    my_address cfg ∈ voters_of (core_state (node s)) k) as Hown.
  { intros k Hproc. unfold voters_of at 1. rewrite votes_of_add. case_decide as Hk; [|done].
    rewrite fmap_app. intros [?|Hin]%elem_of_app; [done|]. apply list_elem_of_singleton in Hin.
    destruct Hk as [Hk Hnew]. by destruct (Hother k Hk Hnew Hproc). }
  split; simpl; try done; rewrite ?pushers_nil_middle by done; try done; try (by eauto).
  - intros k w. rewrite votes_of_add. case_decide as Hk; [|by eauto].
    intros [Hw| ->%list_elem_of_singleton]%elem_of_app; [by eauto|]. by destruct Hk.
  - intros k Hproc. unfold voters_of. rewrite votes_of_add. case_decide as Hk; [|by apply inv_voters0].
    rewrite fmap_app. apply NoDup_app. split_and!; [by apply inv_voters0| |apply NoDup_singleton].
    intros a Ha ->%list_elem_of_singleton. by destruct Hk.
  - intros r k Hin. destruct (inv_signed0 r k Hin) as [?|Hmine]; [by left|]. right.
    unfold voters_of. rewrite votes_of_add. case_decide; [|done]. rewrite fmap_app. set_solver.
  - apply Forall_app. split; [done|]. constructor; [|done]. by apply task_ok_plain.
Qed.

(** *** Reaching a quorum *)

Lemma votes_of_confirm c h b qc k :
  votes_of (confirm c h b qc) k =
    if decide (k ∈ {[h]} ∪ processed_optimistic_batches c) then [] else votes_of c k.
Proof.
  unfold votes_of, confirm, prune_stale_data. simpl. rewrite map_lookup_filter. simpl.
  destruct (velocity_votes c !! k) as [vs|] eqn:Hk; simpl; repeat case_decide; try done.
  all: by case_guard.
Qed.

Lemma confirmed_suffix c h b qc :
  ∃ k, optimistically_confirmed_batches c ++
      [mkBatch (pd_header b) (pd_payloads b) (pd_parent_qc b) (pd_round b)] =
    k ++ optimistically_confirmed_batches (confirm c h b qc).
Proof.
  unfold confirm, prune_stale_data. simpl. case_decide; [|by exists []]. eexists. by rewrite take_drop.
Qed.

Lemma confirmed_bound c h b qc :
  (length (optimistically_confirmed_batches (confirm c h b qc)) ≤ MAX_CONFIRMED_BATCHES)%nat.
Proof. unfold confirm, prune_stale_data. simpl. case_decide; [rewrite length_drop|]; lia. Qed.

Lemma inv_confirm s l1 h l2 b :
  inv s → tasks s = l1 ++ Votes_count h (required_quorum ab) :: l2 →
  h ∉ processed_optimistic_batches (core_state (node s)) →
  (required_quorum ab ≤ length (votes_of (core_state (node s)) h))%nat →
  pending_proposals (node s) !! h = Some b →
  let qc := certificate h b (votes_of (core_state (node s)) h) in
  inv (mkSys (with_core (node s) (confirm (core_state (node s)) h b qc)) (driver s)
         (l1 ++ Prune_read :: l2) (sent s ++ broadcast (NewQuorumCertificate qc)) (signed s)).
Proof.
  intros [] Hts Hproc Hquorum Hb qc. rewrite Hts in *. rewrite pushers_nil_middle in * by done.
  rewrite Forall_app, Forall_cons in inv_tasks0. destruct inv_tasks0 as (Hok1 & _ & Hok2).
  set (c := core_state (node s)) in *.
  set (P := {[h]} ∪ processed_optimistic_batches c).
  assert (processed_optimistic_batches (confirm c h b qc) = P) as HP by done.
  assert (∀ k, k ∉ P → votes_of (confirm c h b qc) k = votes_of c k ∧ k ∉ processed_optimistic_batches c)
    as Hkeep. { intros k Hk. rewrite votes_of_confirm, decide_False by done. subst P. set_solver. }
  assert (∀ u, task_ok (processed_optimistic_batches c) (signed s) u → task_ok P (signed s) u) as Hmono.
  { intros u. apply task_ok_mono; set_solver. }
  destruct (confirmed_suffix c h b qc) as [pre Hpre].
  split; simpl; try done; rewrite ?pushers_nil_middle by done; fold P c; try done.
  - intros k v. rewrite votes_of_confirm. case_decide; [set_solver|eauto].
  - intros k Hk. unfold voters_of. destruct (Hkeep k Hk) as [-> ?]. by apply inv_voters0.
  - intros k Hk. unfold voters_of. destruct (Hkeep k Hk) as [-> ?]. by apply inv_own0.
  - rewrite <-(list_filter_filter_l (.∉ P) (.∉ processed_optimistic_batches c)) by set_solver.
    by apply NoDup_filter.
  - intros k Hk. destruct (Hkeep k Hk) as [_ ?]. auto.
  - intros r k Hin. destruct (decide (k ∈ P)) as [?|Hk]; [by left|]. right.
    unfold voters_of. destruct (Hkeep k Hk) as [-> ?]. by destruct (inv_signed0 r k Hin).
  - apply Forall_app. split; [by eapply Forall_impl|]. constructor; [by apply task_ok_plain|].
    by eapply Forall_impl.
  - apply (f_equal (fmap batch_hash_of)) in Hpre. rewrite !fmap_app in Hpre.
    cut (NoDup ((batch_hash_of <$> pre) ++ (batch_hash_of <$> optimistically_confirmed_batches (confirm c h b qc))));
      [by intros (_ & _ & ?)%NoDup_app|].
    rewrite <-Hpre. apply NoDup_app. split_and!; [done| |apply NoDup_singleton].
    intros x Hx ->%list_elem_of_singleton. apply Hproc. apply list_elem_of_fmap in Hx as (b' & Heq & Hb').
    rewrite <-(inv_pending0 h b Hb). unfold batch_hash_of in Heq at 1. simpl in Heq. rewrite Heq. auto.
  - intros b' Hb'. assert (b' ∈ optimistically_confirmed_batches c ++
      [mkBatch (pd_header b) (pd_payloads b) (pd_parent_qc b) (pd_round b)]) as Hin.
    { rewrite Hpre. set_solver. }
    apply elem_of_app in Hin as [Hin| ->%list_elem_of_singleton].
    + apply elem_of_union_r. auto.
    + apply elem_of_union_l. unfold batch_hash_of. simpl. rewrite (inv_pending0 h b Hb). set_solver.
  - by apply (confirmed_bound c h b qc).
  - rewrite <-(list_filter_filter_l (.∉ P) (.∉ processed_optimistic_batches c)) by set_solver.
    by apply NoDup_filter.
  - intros v [Hin|Hin]%elem_of_app; [auto|]. apply list_elem_of_singleton in Hin. by simplify_eq.
  - intros qc' [Hin|Hin]%elem_of_app; [auto|]. apply list_elem_of_singleton in Hin. simplify_eq.
    unfold qc_backed, qc, certificate. simpl. split_and!.
    + rewrite <-list_fmap_compose. by apply inv_voters0.
    + by rewrite length_fmap.
    + apply Forall_fmap, Forall_forall. intros v Hv. simpl. destruct (inv_votes0 h v Hv) as [<- Hver].
      by exists (vv_round_id v).
Qed.

(** *** Pruning the pending proposals *)
Lemma inv_prune s l1 confirmed l2 :
  inv s → tasks s = l1 ++ Prune_write confirmed :: l2 →
  inv (mkSys (with_pending (node s)
           (filter (λ e : bytes * PendingBatch, e.1 ∉ confirmed) (pending_proposals (node s))))
         (driver s) (l1 ++ l2) (sent s) (signed s)).
Proof.
  intros [] Hts. rewrite Hts in *. rewrite pushers_nil_middle in * by done.
  rewrite Forall_app, Forall_cons in inv_tasks0. destruct inv_tasks0 as (Hok1 & [_ Hsub] & Hok2).
  assert (∀ h, h ∉ processed_optimistic_batches (core_state (node s)) →
    is_Some (pending_proposals (node s) !! h) →
    is_Some (filter (λ e : bytes * PendingBatch, e.1 ∉ confirmed) (pending_proposals (node s)) !! h)) as Hkeep.
  { intros h Hproc [b Hb]. exists b. apply map_lookup_filter_Some. split; [done|]. simpl. set_solver. }
  split; simpl; try done.
  - intros h b. rewrite map_lookup_filter_Some. intros [? _]. eauto.
  - intros h Hproc Hown. destruct (inv_own0 h Hproc Hown). auto.
  - intros h Hproc Hin. auto.
  - by apply Forall_app.
Qed.

(** *** Every step *)

Lemma own_vote_run round h v :
  registered → own_vote cfg round h = Done v →
  vv_voter_address v = my_address cfg ∧ vv_batch_hash v = h ∧ vv_round_id v = round ∧ verified v.
Proof.
  intros [Hkeys (info & Hinfo & Hpk)] Hrun. unfold own_vote in Hrun.
  destruct (vote_sign_run (mkVote round h (my_address cfg) (replicate SIGNATURE_SIZE Byte.x00))
    (signing_keys (validator_keys cfg)) Hkeys) as (v' & Hrun' & Hr & Hh & Ha & Hver).
  same_run. simpl in *. split_and!; [done..|]. unfold verified, verify_vote_signature.
  rewrite Ha, Hinfo, Hpk, decide_True by apply Hkeys. by rewrite Hr, Hh.
Qed.

Lemma log_hash_run lvl h : log_hash lvl h = Done () ∨ log_hash lvl h = Panicked.
Proof. unfold log_hash. repeat case_match; auto. Qed.

(** A step that only replaces the task by what is left of it. *)
Lemma inv_task_only s n l1 t l2 ts cmds :
  inv s → tasks s = l1 ++ t :: l2 → same_data (node s) n → harmless cmds →
  (pushers ts = pushers [t] ∨ pushers ts = []) →
  Forall (task_ok (processed_optimistic_batches (core_state (node s))) (signed s)) ts →
  inv (mkSys n (driver s) (l1 ++ ts ++ l2) (sent s ++ cmds) (signed s ++ [])).
Proof.
  intros Hinv Hts Hdata Hcmds Hpush Hok. rewrite app_nil_r. apply inv_retask; [done..| |].
  - rewrite Hts, !pushers_app. destruct Hpush as [->| ->]; [exists []|exists (pushers [t])].
    + by rewrite app_nil_r, (pushers_cons t l2).
    + rewrite (pushers_cons t l2). simpl. rewrite <-app_assoc. f_equiv. apply Permutation_app_comm.
  - pose proof (inv_tasks s Hinv) as Hall. rewrite Hts, Forall_app, Forall_cons in Hall.
    destruct Hall as (? & _ & ?). by rewrite !Forall_app.
Qed.

Lemma same_data_refl n : same_data n n.
Proof. done. Qed.

(** Closes the goals of [inv_task_only]. *)
Ltac task_only :=
  eapply inv_task_only;
  [ eassumption | eassumption | apply same_data_refl || done
  | first [ apply Forall_nil_2 | by repeat constructor ]
  | first [ by left | by right ]
  | repeat first [ apply Forall_nil_2 | apply Forall_cons_2
                 | by apply task_ok_plain | by eapply task_ok_vote; [eassumption|..] ] ].

(** The section that counts the votes: either nothing happens or a quorum is
    confirmed. *)
Lemma inv_votes_count s env l1 h q l2 n cmds ts :
  inv s → tasks s = l1 ++ Votes_count h q :: l2 →
  task_ok (processed_optimistic_batches (core_state (node s))) (signed s) (Votes_count h q) →
  task_step cfg env (node s) (Votes_count h q) = Done (n, cmds, ts) →
  inv (mkSys n (driver s) (l1 ++ ts ++ l2) (sent s ++ cmds) (signed s ++ [])).
Proof.
  intros Hinv Hts [_ ->] Hstep. unfold_section.
  case_decide; [simplify_eq; task_only|].
  destruct (velocity_votes (core_state (node s)) !! h) as [vs|] eqn:Hvs; [|simplify_eq; task_only].
  case_decide as Hq; [|simplify_eq; task_only].
  destruct (log_hash_run Info h) as [Hl|Hl]; rewrite Hl in Hstep; [|done]. cbn in Hstep.
  destruct (pending_proposals (node s) !! h) as [b|] eqn:Hb.
  - simplify_eq. rewrite app_nil_r.
    assert (vs = votes_of (core_state (node s)) h) as -> by (unfold votes_of; by rewrite Hvs).
    by apply inv_confirm.
  - destruct (log_hash_run Warn h) as [Hl'|Hl']; rewrite Hl' in Hstep; [|done]. cbn in Hstep.
    simplify_eq. task_only.
Qed.

Lemma inv_task s env l1 t l2 n cmds ts :
  registered → inv s → tasks s = l1 ++ t :: l2 → fresh_header s t →
  task_step cfg env (node s) t = Done (n, cmds, ts) →
  inv (mkSys n (driver s) (l1 ++ ts ++ l2) (sent s ++ cmds) (signed s ++ task_signs t)).
Proof.
  intros Hreg Hinv Hts Hfresh Hstep.
  assert (task_ok (processed_optimistic_batches (core_state (node s))) (signed s) t) as Hok.
  { pose proof (inv_tasks s Hinv) as Hall. rewrite Hts in Hall. decompose_Forall_hyps. done. }
  destruct t; unfold_section; cbn [task_signs].
  all: try (repeat case_match; simplify_eq; task_only; fail).
  - destruct msg; repeat case_match; simplify_eq; task_only.
  - case_match eqn:Hv; simplify_eq; task_only. rewrite (inv_book s Hinv) in Hv. done.
  - case_match; simplify_eq; [task_only|]. rewrite !app_nil_r. by eapply inv_insert_pending.
  - destruct (log_hash_run Info (calculate_hash (pb_header batch))) as [Hl|Hl]; rewrite Hl in Hstep; [|done].
    cbn in Hstep. destruct (own_vote cfg _ _) as [v| |] eqn:Hv; try done. cbn in Hstep. simplify_eq.
    apply own_vote_run in Hv as (? & ? & ? & ?); [|done]. rewrite app_nil_r.
    eapply inv_push_own; [done..|]. split; [done|]. exists (pb_header batch). by destruct Hok.
  - simplify_eq. eapply inv_task_only; try done; [|by right|by repeat constructor].
    apply Forall_singleton, Hok.
  - simplify_eq. task_only. split; [done|]. by rewrite (inv_book s Hinv).
  - by eapply (inv_votes_count s env).
  - simplify_eq. task_only. split; [done|]. set_solver.
  - simplify_eq. rewrite !app_nil_r. by apply inv_prune.
  - case_match eqn:Hv; simplify_eq; task_only. rewrite (inv_book s Hinv) in Hv.
    split; [|done]. apply Hok.
  - simplify_eq. rewrite !app_nil_r. by apply inv_add_vote.
  - destruct (log_hash_run Warn (qc_batch_hash qc)) as [Hl|Hl]; rewrite Hl in Hstep; [|done].
    cbn in Hstep. simplify_eq. task_only.
  - destruct (match last _ with Some _ => _ | None => _ end) as [idx ph].
    destruct (build_batch _ _ _ _ _ _ _) as [b| |]; try done. cbn in Hstep.
    destruct (log_hash_run Info (calculate_hash (pb_header b))) as [Hl|Hl]; rewrite Hl in Hstep; [|done].
    cbn in Hstep. simplify_eq. task_only.
  - simplify_eq. rewrite !app_nil_r. by eapply inv_insert_pending; [..|apply task_ok_plain].
  - destruct (own_vote cfg _ _) as [v| |] eqn:Hv; try done. cbn in Hstep. simplify_eq.
    apply own_vote_run in Hv as (? & ? & ? & ?); [|done]. rewrite app_nil_r.
    by eapply inv_push_own; [..|apply task_ok_plain].
Qed.

Lemma inv_driver s env ready n d ts :
  inv s → driver_step cfg env ready (node s) (driver s) = Done (n, d, ts) →
  inv (mkSys n d (tasks s ++ ts) (sent s) (signed s)).
Proof.
  intros Hinv Hstep. rewrite <-(app_nil_r (sent s)).
  assert (same_data (node s) n ∧ (ts = [] ∨ ∃ r k, ts = [Step_read r k])) as [Hdata Hts].
  { destruct (driver s); cbn in Hstep.
    - destruct ready; [|simplify_eq; split; [done|auto]]. destruct (driver_decide _ _ _) as [o| |]; try done.
      cbn in Hstep. simplify_eq. split; [done|auto].
    - simplify_eq. split; [done|auto].
    - rewrite (inv_premature s Hinv), lookup_empty in Hstep. simplify_eq. split; [|by eauto].
      split; [done|]. simpl. by rewrite (inv_premature s Hinv), delete_empty. }
  apply inv_retask; [done..|constructor| |].
  - exists []. rewrite app_nil_r, pushers_app. destruct Hts as [->|(r & k & ->)]; by rewrite app_nil_r.
  - apply Forall_app. split; [apply Hinv|]. destruct Hts as [->|(r & k & ->)]; [constructor|].
    constructor; [|constructor]. by apply task_ok_plain.
Qed.

Lemma inv_step s s' : registered → inv s → sys_step cfg authentic fresh_header s s' → inv s'.
Proof.
  intros Hreg Hinv Hstep. destruct Hstep as
    [s msg source Hmsg|s payload|s env ready n d ts _ Hrun|s env l1 t l2 n cmds ts _ Hts Hfresh Hrun|s l1 t l2 Hts].
  - rewrite <-(app_nil_r (sent s)). apply inv_retask; [done|done|constructor| |].
    + exists []. by rewrite pushers_app, !app_nil_r.
    + apply Forall_app. split; [apply Hinv|]. constructor; [|constructor]. split; [|done].
      destruct msg; simpl; try done. intros v [= <-]. exact Hmsg.
  - rewrite <-(app_nil_r (sent s)). apply inv_retask; [done|done|constructor|by exists []; rewrite app_nil_r|].
    apply Hinv.
  - by eapply inv_driver.
  - by eapply inv_task.
  - rewrite <-(app_nil_r (sent s)). apply inv_retask; [done|done|constructor| |].
    + exists (pushers [t]). by rewrite Hts, pushers_middle, Permutation_app_comm.
    + pose proof (inv_tasks s Hinv) as Hall. rewrite Hts, Forall_app, Forall_cons in Hall.
      destruct Hall as (? & _ & ?). by apply Forall_app.
Qed.

Lemma inv_new qc now : inv (sys_new qc now ab).
Proof.
  split; simpl; try done; unfold voters_of, votes_of; simpl; try (set_solver || lia); constructor.
Qed.

(** The states the engine can reach from its start. *)
Inductive sys_reach (qc : QuorumCertificate) (now : N) : Sys (C := C) → Prop :=
| sys_reach_new : sys_reach qc now (sys_new qc now ab)
| sys_reach_step s s' :
    sys_reach qc now s → sys_step cfg authentic fresh_header s s' → sys_reach qc now s'.

Lemma reach_inv qc now s : registered → sys_reach qc now s → inv s.
Proof. intros Hreg Hs. induction Hs; [apply inv_new|]. by eapply inv_step. Qed.

(** ** What only grows *)
Definition core_le (c c' : CoreConsensusState) : Prop :=
  qc_view_number (highest_seen_qc c) ≤ qc_view_number (highest_seen_qc c') ∧
  processed_optimistic_batches c ⊆ processed_optimistic_batches c'.

Lemma core_le_refl c : core_le c c.
Proof. split; [lia|done]. Qed.

Lemma task_core_le env n t n' cmds ts :
  task_step cfg env n t = Done (n', cmds, ts) →
  core_le (core_state n) (core_state n') ∧
  current_round (core_state n') = current_round (core_state n) ∧
  current_step (core_state n') = current_step (core_state n).
Proof.
  assert (∀ {A} (o : outcome A) f, (o ≫= f) = Done (n', cmds, ts) → ∃ a : A, f a = Done (n', cmds, ts)) as Hbind.
  { intros A [a| |] f; simpl; [by eauto|done..]. }
  destruct t; intros Hstep; unfold_section;
    repeat (case_match || (apply Hbind in Hstep as [? Hstep])); simplify_eq/=;
    split_and!; try done; try apply core_le_refl.
  - unfold confirm, core_le; simpl. split; [|set_solver].
    match goal with |- context [decide (?a < ?b)] => destruct (decide (a < b)) end; cbn [certificate qc_view_number]; lia.
  - unfold core_le; simpl. split; [lia|done].
  - unfold core_le; simpl. split; [lia|done].
Qed.

(** ** The driver *)
Definition lex_lt (a b : N * N) : Prop := a.1 < b.1 ∨ a.1 = b.1 ∧ a.2 < b.2.
Definition lex_le (a b : N * N) : Prop := a = b ∨ lex_lt a b.

Definition position n : N * N := (current_round (core_state n), current_step (core_state n)).

(** A step index that names a member of the committee, or the first one. *)
Definition step_ok (step : N) : Prop :=
  step = 0 ∨ step < N.of_nat (sub_committee_size (genesis_params cfg)).

(** Where the driver is, it is about to move forward. *)
Definition driver_ok s : Prop :=
  step_ok (position (node s)).2 ∧
  match driver s with
  | Driver_write r k => lex_lt (position (node s)) (r, k) ∧ step_ok k
  | _ => True
  end.

(** The counters are far from the end of their range. *)
Definition counters_ok n : Prop :=
  qc_view_number (highest_seen_qc (core_state n)) + 1 < U64 ∧
  current_round (core_state n) + 1 < U64 ∧ current_step (core_state n) + 1 < U64.

Lemma driver_decide_spec now n :
  counters_ok n →
  ∃ next, driver_decide cfg now (core_state n) = Done next ∧
    match next with
    | Some (r, k) => lex_lt (position n) (r, k) ∧ step_ok k ∧
        (current_round (core_state n) ≤ qc_view_number (highest_seen_qc (core_state n)) →
         r = qc_view_number (highest_seen_qc (core_state n)) + 1 ∧ k = 0)
    | None => qc_view_number (highest_seen_qc (core_state n)) < current_round (core_state n) ∧
        now - step_start_time (core_state n) ≤ proposer_timeout_ms (genesis_params cfg)
    end.
Proof.
  intros (Hview & Hround & Hstep). unfold driver_decide, saturating_sub, step_ok, lex_lt. simpl.
  case_decide.
  { rewrite u64_add_ok by done. simpl. eexists. split; [done|]. simpl. split_and!; [left; lia|by left|done]. }
  case_decide; [|eexists; split; [done|]; simpl; lia].
  rewrite (u64_add_ok (current_step _)) by done. cbn [mbind outcome_bind]. case_decide.
  - rewrite u64_add_ok by done. simpl. eexists. split; [done|]. simpl. split_and!; [left; lia|by left|lia].
  - eexists. split; [done|]. simpl. split_and!; [right; lia|right; lia|lia].
Qed.

Lemma sys_step_progress delivers may_run s s' :
  driver_ok s → counters_ok (node s) → sys_step cfg delivers may_run s s' →
  driver_ok s' ∧ core_le (core_state (node s)) (core_state (node s')) ∧
  lex_le (position (node s)) (position (node s')).
Proof.
  intros Hok Hcount Hstep.
  destruct Hstep as [| |s env ready n d ts _ Hrun|s env l1 t l2 n cmds ts _ Hts _ Hrun|];
    try (split_and!; [done|apply core_le_refl|by left]).
  - destruct Hok as [Hstep Hd]. destruct (driver s) as [|r k|r k]; cbn in Hrun.
    + assert (node s = n ∧ driver_ok (mkSys n d (tasks s ++ ts) (sent s) (signed s))) as [<- ?].
      { destruct ready; [|by simplify_eq]. destruct (driver_decide_spec (env_instant env) (node s) Hcount)
          as (next & Hnext & Hspec). rewrite Hnext in Hrun. cbn in Hrun. simplify_eq. split; [done|].
        destruct next as [[r k]|]; (split; [done|]); [|done]. simpl. tauto. }
      split_and!; [done|apply core_le_refl|by left].
    + simplify_eq. unfold driver_ok. simpl. destruct Hd as [Hlt Hk].
      split_and!; [done|done|exact (core_le_refl (core_state (node s)))|by right].
    + simplify_eq. split_and!; [done|apply core_le_refl|by left].
  - destruct (task_core_le _ _ _ _ _ _ Hrun) as (Hle & Hr & Hk).
    assert (position n = position (node s)) as Hpos by (unfold position; by rewrite Hr, Hk).
    split_and!; [|done|by left; simpl; rewrite Hpos].
    unfold driver_ok in *. cbn [node driver]. rewrite Hpos. exact Hok.
Qed.

(** ** The proposer *)

(** The VRF key of this node is the one the address book has for it. *)
Definition vrf_registered : Prop :=
  ∃ info vpk, ab !! my_address cfg = Some info ∧ pi_vrf_public_key info = Some vpk ∧
    vrf_pair vpk (vrf_keys (validator_keys cfg)).

(** The batch a registered proposer builds. *)
Lemma build_batch_done now round qc payloads idx ph b :
  build_batch cfg now round qc payloads idx ph = Done b →
  pb_payloads b = payloads ∧ pb_round b = round ∧ pb_justify b = qc ∧
  h_payloads_root (pb_header b) = calculate_payloads_root payloads ∧ h_prev_hash (pb_header b) = ph ∧
  h_authority (pb_header b) = my_address cfg ∧ u64_add idx 1 = Done (h_index (pb_header b)) ∧
  (registered → vrf_registered → verify_batch_signature ab (pb_header b) = true).
Proof.
  unfold build_batch. destruct (u64_add idx 1) as [i| |] eqn:Hi; [|done..]. cbn [mbind outcome_bind].
  destruct (vrf_sign _ ph) as [out proof] eqn:Hvrf.
  destruct (keypair_sign _ _) as [sig| |] eqn:Hsig; [|done..]. cbn [mbind outcome_bind]. intros [= <-].
  cbn [pb_payloads pb_round pb_justify pb_header h_payloads_root h_prev_hash h_index h_authority]. split_and!; try done.
  intros [Hkeys (info' & Hinfo' & Hpk)] (info & vpk & Hinfo & Hvpk & Hpair). rewrite Hinfo in Hinfo'. simplify_eq.
  unfold verify_batch_signature. cbn [h_authority h_vrf_output h_vrf_proof h_prev_hash h_signature].
  rewrite Hinfo, Hpk, decide_True by apply Hkeys. rewrite Hvpk. cbn [mbind option_bind].
  destruct (vrf_sign_verify vpk _ ph Hpair) as (-> & Ho & Hp & Hv). rewrite Hvrf in Ho, Hp, Hv. simpl in *.
  rewrite Ho, Hp, Hv. apply (verify_sign _ _ _ Hkeys) in Hsig. exact Hsig.
Qed.

Lemma build_batch_run now round qc payloads idx ph info :
  registered → ab !! my_address cfg = Some info →
  (∃ vpk, pi_vrf_public_key info = Some vpk ∧ vrf_pair vpk (vrf_keys (validator_keys cfg))) →
  idx + 1 < U64 →
  ∃ b, build_batch cfg now round qc payloads idx ph = Done b ∧
    pb_payloads b = payloads ∧ pb_round b = round ∧ pb_justify b = qc ∧
    h_payloads_root (pb_header b) = calculate_payloads_root payloads ∧
    verify_batch_signature ab (pb_header b) = true ∧ h_prev_hash (pb_header b) = ph ∧
    h_index (pb_header b) = idx + 1.
Proof.
  intros Hreg Hinfo (vpk & Hvpk & Hpair) Hidx.
  destruct (build_batch cfg now round qc payloads idx ph) as [b| |] eqn:Hb.
  1:{ destruct (build_batch_done _ _ _ _ _ _ _ Hb) as (? & ? & ? & ? & ? & _ & Hi & Hv).
      rewrite u64_add_ok in Hi by done. injection Hi as Hi. exists b. split_and!; try done. apply Hv; [done|].
      by exists info, vpk. }
  all: exfalso; unfold build_batch, keypair_sign, exact_length in Hb; rewrite u64_add_ok in Hb by done;
    cbn [mbind outcome_bind] in Hb; case_match; by rewrite decide_True in Hb by apply length_detached_sign.
Qed.

Lemma log_hash_calculated lvl h : log_hash lvl (calculate_hash h) = Done ().
Proof. apply log_hash_long. rewrite length_calculate_hash. lia. Qed.
End consensus.
