(* ===== verification/ToyCrypto.v ===== *)
(** * Concrete instances of the interfaces

    Small executable stand-ins for the third-party code, with the laws proved.
    They are not secure and not the real algorithms: they show that the
    interfaces can be satisfied and let the engine run on concrete inputs. *)

From S2P Require Import Prelude Bytes SeqTypes P2pTypes Committee Consensus.
From Stdlib Require Import Strings.Ascii.

(** A polynomial hash modulo [2^32]. *)
Definition poly (bs : bytes) : N :=
  foldl (λ acc b, N.land (acc * 65599 + Byte.to_N b + 1) 4294967295) 0 bs.

Definition toy_hash (bs : bytes) : bytes := be_bytes 32 (poly bs).

(** A secret key starts with its public key. *)
Definition toy_public (k : bytes) : bytes := take PUBLIC_KEY_SIZE k.

Definition toy_sign (m sk : bytes) : bytes := replicate 2388 Byte.x00 ++ toy_hash (toy_public sk ++ m).

Definition toy_message (msg : ConsensusMessage) : bytes :=
  match msg with
  | IntentBatchProposal b =>
      Byte.x00 :: h_signature (pb_header b) ++ to_be_bytes (pb_round b) ++ (pb_payloads b ≫= id)
  | VelocityVoteMsg v =>
      Byte.x01 :: to_be_bytes (vv_round_id v) ++ vv_batch_hash v ++ vv_voter_address v ++ vv_signature v
  | NewQuorumCertificate qc =>
      Byte.x02 :: to_be_bytes (qc_view_number qc) ++ qc_batch_hash qc ++ (qc_signatures qc ≫= snd)
  end.

#[export] Instance toy_crypto : Crypto := {|
  sha256 := toy_hash;
  keccak256 := toy_hash;
  pk_from_bytes := λ bs, if decide (length bs = PUBLIC_KEY_SIZE) then Some bs else None;
  sk_from_bytes := λ bs, if decide (length bs = PRIVATE_KEY_SIZE) then Some bs else None;
  sig_from_bytes := λ bs, if decide (length bs = SIGNATURE_SIZE) then Some bs else None;
  detached_sign := toy_sign;
  verify_detached_signature := λ sig m pk, bool_decide (sig = toy_sign m pk);
  key_pair := λ pk sk, toy_public sk = toy_public pk;
  vrf_pk_from_bytes := Some;
  preout_from_bytes := Some;
  proof_from_bytes := Some;
  vrf_sign := λ sk m, (toy_hash (sk ++ m), sk);
  vrf_verify := λ pk m preout proof, bool_decide (preout = toy_hash (pk ++ m) ∧ proof = pk);
  vrf_pair := λ pk sk, sk = pk;
  borsh_to_vec := Some ∘ toy_message;
  shuffle := λ _ l, l;
  vrf_secret_from_bytes := λ bs, if decide (length bs = 64%nat) then Some bs else None;
|}.

#[export] Instance toy_crypto_laws : CryptoLaws.
Proof.
  split; cbn [sha256 keccak256 pk_from_bytes sk_from_bytes sig_from_bytes detached_sign verify_detached_signature
              key_pair vrf_pk_from_bytes preout_from_bytes proof_from_bytes vrf_sign vrf_verify vrf_pair
              shuffle toy_crypto].
  - intros bs. apply length_be_bytes.
  - intros bs. apply length_be_bytes.
  - intros m sk. unfold toy_sign. rewrite length_app, length_replicate. unfold toy_hash.
    by rewrite length_be_bytes.
  - intros bs Hbs. by rewrite decide_True.
  - intros bs Hbs. by rewrite decide_True.
  - intros bs Hbs. by rewrite decide_True.
  - intros pk sk m Hk. apply bool_decide_eq_true. unfold toy_sign. by rewrite Hk.
  - intros pk sk m ->. cbn [fst snd]. split_and!; [done..|]. by apply bool_decide_eq_true.
  - done.
Qed.

(** A cache that forgets all but the latest thousand hashes. *)
#[export] Instance list_lru : Lru (list bytes) := {|
  lru_empty := [];
  lru_contains := λ c k, bool_decide (k ∈ c);
  lru_put := λ c k, take 1000 (k :: c);
|}.

#[export] Instance list_lru_laws : LruLaws (list bytes).
Proof.
  split; cbn [lru_empty lru_contains lru_put list_lru].
  - intros k. apply bool_decide_eq_false. set_solver.
  - intros c k. apply bool_decide_eq_true. rewrite firstn_cons. set_solver.
  - intros c k j. rewrite !bool_decide_eq_true, firstn_cons. intros [->|Hj]%elem_of_cons; [by left|].
    right. by apply (subseteq_take 999 c).
Qed.

(** Hexadecimal digits, for a concrete [Net]. *)
Definition digit (n : N) : ascii := ascii_of_N (if n <? 10 then 48 + n else 87 + n).
Definition undigit (c : ascii) : N := let n := N_of_ascii c in if n <? 58 then n - 48 else n - 87.

Fixpoint to_hex (bs : bytes) : string :=
  match bs with
  | [] => EmptyString
  | b :: bs => String (digit (Byte.to_N b / 16)) (String (digit (Byte.to_N b mod 16)) (to_hex bs))
  end.

Fixpoint of_hex (s : string) : option bytes :=
  match s with
  | EmptyString => Some []
  | String c (String d s) => cons (byte_of_N (undigit c * 16 + undigit d)) <$> of_hex s
  | _ => None
  end.

#[export] Instance toy_net : Net := {|
  parse_multiaddr := λ s, if decide (s = ""%string) then None else Some [Ip true; P2p s];
  hex_encode := to_hex;
  hex_decode := of_hex;
|}.

#[export] Instance toy_net_laws : NetLaws.
Proof.
  split; cbn [hex_encode hex_decode toy_net].
  - induction bs as [|b bs IH]; [done|]. cbn [to_hex of_hex]. rewrite IH. cbn [fmap option_fmap option_map].
    by destruct b.
  - intros [|b bs] s; [done|]. cbn [to_hex]. intros Heq. injection Heq as _ Hd _. by destruct b.
Qed.
