(* ===== verification/ConsensusTheorems.v ===== *)
(** * The consensus engine's contract

    Safety of certificates and of confirmation under every interleaving,
    progress of the rounds, determinism of the election; and runs of the engine
    that depart from its documentation. *)

From S2P Require Import Prelude Bytes SeqTypes P2pTypes Committee Consensus ConsensusProps ToyCrypto.

Section contract.
Context `{!Crypto} `{!CryptoLaws} `{!Profile} `{!Logging} {C : Type} `{!Lru C} (cfg : Config).
Context (ab : AddressBook).
Implicit Types (s : Sys (C := C)).

(** C13. Certificates are backed by a quorum.  Whatever messages arrive and
    however the engine's tasks interleave, a certificate it broadcasts lists
    distinct validators, at least [2n/3 + 1] of the [n] in the address book, and
    each listed signature is that validator's vote for the batch. *)
Theorem certificates_are_backed qc0 now s qc :
  registered cfg ab → sys_reach cfg ab qc0 now s →
  BroadcastConsensusMessage (NewQuorumCertificate qc) ∈ sent s →
  NoDup (qc_signatures qc).*1 ∧ (size ab * 2 / 3 + 1 ≤ length (qc_signatures qc))%nat ∧
  ∀ a sig, (a, sig) ∈ qc_signatures qc →
    a ∈ dom ab ∧ ∃ r, verify_vote_signature ab a r (qc_batch_hash qc) sig = true.
Proof.
  intros Hreg Hs Hin. destruct (reach_inv cfg ab qc0 now s Hreg Hs) as [].
  destruct (inv_sent qc Hin) as (Hnd & Hq & Hall). split_and!; [done| |].
  - destruct Hreg as (_ & info & Hinfo & _). unfold required_quorum in Hq.
    rewrite decide_False in Hq; [done|]. apply map_size_non_empty_iff. intros ->. done.
  - intros a sig Ha. destruct (proj1 (Forall_forall _ _) Hall _ Ha) as [r Hr]. simpl in Hr.
    split; [by eapply verify_vote_member|eauto].
Qed.

(** C15. Two certificates share more than a third of the validators.  If a node
    accepts two certificates, the validators that signed both are more than a
    third of its address book, so at least one honest validator signed both
    when fewer than a third are faulty. *)
Theorem accepted_certificates_intersect qc1 qc2 :
  ab ≠ ∅ → qc_is_valid ab qc1 = true → qc_is_valid ab qc2 = true →
  ∃ common : gset Address, (size ab < 3 * size common)%nat ∧
    ∀ a, a ∈ common →
      (∃ sig, (a, sig) ∈ qc_signatures qc1 ∧
         verify_vote_signature ab a (qc_view_number qc1) (qc_batch_hash qc1) sig = true) ∧
      (∃ sig, (a, sig) ∈ qc_signatures qc2 ∧
         verify_vote_signature ab a (qc_view_number qc2) (qc_batch_hash qc2) sig = true).
Proof.
  intros Hab Hq1%bool_decide_eq_true Hq2%bool_decide_eq_true.
  assert (∀ qc a, a ∈ qc_voters ab qc → a ∈ dom ab) as Hdom.
  { intros qc a Ha. apply qc_voters_signed in Ha as (sig & _ & Hv). by eapply verify_vote_member. }
  exists (list_to_set (qc_voters ab qc1) ∩ list_to_set (qc_voters ab qc2)). split.
  - apply quorums_intersect; eauto using qc_voters_NoDup.
  - intros a [Ha1%elem_of_list_to_set Ha2%elem_of_list_to_set]%elem_of_intersection.
    split; by apply qc_voters_signed.
Qed.


(** C17. Votes.  A node only broadcasts a vote for the hash of a header that a
    validator signed and proved its VRF output for; and until a batch is
    confirmed it signs at most one vote for it and counts no validator twice. *)
Theorem votes_are_checked_and_unique qc0 now s :
  registered cfg ab → sys_reach cfg ab qc0 now s →
  (∀ v, BroadcastConsensusMessage (VelocityVoteMsg v) ∈ sent s →
     ∃ header, calculate_hash header = vv_batch_hash v ∧ verify_batch_signature ab header = true) ∧
  (∀ h, h ∉ processed_optimistic_batches (core_state (node s)) →
     (length (filter (λ x, x.2 = h) (signed s)) ≤ 1)%nat ∧ NoDup (voters_of (core_state (node s)) h)).
Proof.
  intros Hreg Hs. destruct (reach_inv cfg ab qc0 now s Hreg Hs) as []. split; [done|].
  intros h Hh. split; [|by auto]. revert inv_signed_once. generalize (signed s). clear -Hh.
  induction l as [|[r k] l IH]; intros Hnd; csimpl in *; [lia|].
  rewrite filter_cons in Hnd. rewrite filter_cons. destruct (decide (k = h)) as [->|Hk].
  - rewrite decide_True by done. rewrite decide_True in Hnd by done. apply NoDup_cons in Hnd as [Hno _]. simpl.
    destruct (filter (λ x, x.2 = h) l) as [|[r' k] l'] eqn:Hf; simpl; [lia|]. destruct Hno.
    assert ((r', k) ∈ filter (λ x, x.2 = h) l) as [Heq Hin]%list_elem_of_filter by (rewrite Hf; set_solver).
    simpl in Heq. subst k. apply list_elem_of_filter. split; [done|]. by apply (list_elem_of_fmap_2 snd l (r', h)).
  - rewrite decide_False by done. apply IH. case_decide; [by apply NoDup_cons in Hnd as [_ ?]|done].
Qed.

(** The protocol only moves forward.  No step of any task, of the driver or
    of the network lowers the view of the highest certificate, forgets a
    processed batch or moves the (round, step) pair back; the step always names
    a position of the sub-committee; and the driver is about to move strictly
    forward whenever it is about to write. *)
Theorem progress_is_monotone delivers may_run s s' :
  driver_ok cfg s → counters_ok (node s) → sys_step cfg delivers may_run s s' →
  driver_ok cfg s' ∧
  qc_view_number (highest_seen_qc (core_state (node s))) ≤
    qc_view_number (highest_seen_qc (core_state (node s'))) ∧
  processed_optimistic_batches (core_state (node s)) ⊆ processed_optimistic_batches (core_state (node s')) ∧
  lex_le (position (node s)) (position (node s')).
Proof.
  intros Hok Hc Hstep. destruct (sys_step_progress cfg _ _ _ _ Hok Hc Hstep) as (? & [? ?] & ?). done.
Qed.

(** The election is canonical.  Nodes whose address books have the same
    validators, in whatever order their maps enumerate them, elect the same
    committee for a round and seed: [min size n] distinct validators. *)
Theorem committee_is_canonical size keys keys' round seed :
  NoDup keys → keys ≡ₚ keys' →
  determine_sub_committee size keys round seed = determine_sub_committee size keys' round seed ∧
  NoDup (determine_sub_committee size keys round seed) ∧
  length (determine_sub_committee size keys round seed) = Nat.min size (length keys) ∧
  (∀ a, a ∈ determine_sub_committee size keys round seed → a ∈ keys).
Proof.
  intros Hnd Hperm. split_and!.
  - unfold determine_sub_committee. rewrite (merge_sort_unique keys keys' Hperm).
    destruct keys, keys'; try done; [by apply Permutation_nil in Hperm|].
    by apply Permutation_sym, Permutation_nil in Hperm.
  - destruct (committee_permutation size keys round seed) as [rest Hrest]. rewrite <-Hrest in Hnd.
    by apply NoDup_app in Hnd as [? _].
  - apply length_committee.
  - intros a Ha. destruct (committee_permutation size keys round seed) as [rest Hrest].
    rewrite <-Hrest. set_solver.
Qed.

(** A proposal is well formed.  When a registered validator whose VRF key is
    in the address book runs the proposer flow, it takes up to 100 payloads from
    the front of the mempool and builds a batch that extends the latest confirmed
    batch (or the genesis) by one, commits to these payloads and passes the check
    every other node makes. *)
Theorem proposal_is_well_formed env (n : Node C) parent_qc round info :
  registered cfg ab → ab !! my_address cfg = Some info →
  (∃ vpk, pi_vrf_public_key info = Some vpk ∧ vrf_pair vpk (vrf_keys (validator_keys cfg))) →
  let prev := last (optimistically_confirmed_batches (core_state n)) in
  let prev_index := default 0 (h_index ∘ pb_header <$> prev) in
  prev_index + 1 < U64 →
  ∃ n' b,
    task_step cfg env n (Proposer_drain round parent_qc) =
      Done (n', [], [Proposer_prev round parent_qc (take 100 (mempool n))]) ∧
    mempool n' = drop 100 (mempool n) ∧
    task_step cfg env n' (Proposer_prev round parent_qc (take 100 (mempool n))) =
      Done (n', [], [Proposer_insert b]) ∧
    pb_payloads b = take 100 (mempool n) ∧ pb_round b = round ∧ pb_justify b = parent_qc ∧
    h_payloads_root (pb_header b) = calculate_payloads_root (pb_payloads b) ∧
    verify_batch_signature ab (pb_header b) = true ∧ h_index (pb_header b) = prev_index + 1 ∧
    h_prev_hash (pb_header b) = default (replicate 32 Byte.x00) (calculate_hash ∘ pb_header <$> prev).
Proof.
  intros Hreg Hinfo Hvrf prev prev_index Hidx.
  assert (take (Nat.min (length (mempool n)) MAX_PAYLOADS) (mempool n) = take 100 (mempool n) ∧
    drop (Nat.min (length (mempool n)) MAX_PAYLOADS) (mempool n) = drop 100 (mempool n)) as [Htake Hdrop].
  { unfold MAX_PAYLOADS. destruct (decide (length (mempool n) ≤ 100)%nat).
    - rewrite Nat.min_l, !take_ge, !drop_ge by lia. done.
    - by rewrite Nat.min_r by lia. }
  destruct (build_batch_run cfg ab (env_time env) round parent_qc (take 100 (mempool n)) prev_index
    (default (replicate 32 Byte.x00) (calculate_hash ∘ pb_header <$> prev)) info Hreg Hinfo Hvrf Hidx)
    as (b & Hb & Hpay & Hround & Hqc & Hroot & Hver & Hprev & Hi).
  exists (with_mempool n (drop 100 (mempool n))), b. unfold_section. rewrite Htake, Hdrop.
  split_and!; try done; [|by rewrite Hpay].
  cbn [core_state with_mempool optimistically_confirmed_batches].
  unfold prev_index, prev in Hb. destruct (last (optimistically_confirmed_batches (core_state n))) as [b'|];
    cbn [fmap option_fmap option_map default from_option compose id] in Hb; rewrite Hb;
    cbn [mbind outcome_bind]; by rewrite log_hash_calculated.
Qed.

(** A certificate for one round is accepted everywhere.  If the votes a
    certificate is made of all carry the round of the batch, every node with the
    same address book accepts it. *)
Theorem round_certificate_is_accepted h batch votes :
  NoDup (vv_voter_address <$> votes) → (required_quorum ab ≤ length votes)%nat →
  Forall (λ v, vv_batch_hash v = h ∧ vv_round_id v = pd_round batch ∧ verified ab v) votes →
  qc_is_valid ab (certificate h batch votes) = true.
Proof.
  intros Hnd Hq Hall. apply bool_decide_eq_true. unfold qc_voters.
  rewrite valid_voters_all; cbn [certificate qc_signatures].
  - by rewrite !length_fmap.
  - by rewrite <-list_fmap_compose.
  - set_solver.
  - apply Forall_fmap. eapply Forall_impl; [exact Hall|]. intros v (<- & Hr & Hv). simpl. by rewrite <-Hr.
Qed.
End contract.
