(* ===== verification/ConsensusRuns.v ===== *)
(** * Runs of the consensus engine

    A scheduler that runs one message at a time to its end, which is one of the
    interleavings of [sys_step]; four validators with the stand-in cryptography;
    the witnesses of the contract; and the behaviours that depart from the
    documentation. *)

From S2P Require Import Prelude Bytes SeqTypes P2pTypes Committee Consensus ConsensusProps ToyCrypto ConsensusTheorems.

Section exec.
Context `{!Crypto} `{!CryptoLaws} `{!Profile} `{!Logging} {C : Type} `{!Lru C} (cfg : Config).
Context (ab : AddressBook).
Implicit Types (s : Sys (C := C)).

(** Run the first task until no task is left. *)
Fixpoint exec (fuel : nat) (env : Env) s : outcome (Sys (C := C)) :=
  match tasks s with
  | [] => Done s
  | t :: ts =>
    match fuel with
    | O => NoFuel
    | S fuel =>
      '(n, cmds, ts') ← task_step cfg env (node s) t;
      exec fuel env (mkSys n (driver s) (ts' ++ ts) (sent s ++ cmds) (signed s ++ task_signs t))
    end
  end.

Definition deliver (fuel : nat) (env : Env) (msg : ConsensusMessage) s : outcome (Sys (C := C)) :=
  exec fuel env (mkSys (node s) (driver s) (tasks s ++ [Message_check msg "peer"]) (sent s) (signed s)).

Fixpoint deliver_all (fuel : nat) (env : Env) (msgs : list ConsensusMessage) s : outcome (Sys (C := C)) :=
  match msgs with
  | [] => Done s
  | msg :: msgs => s ← deliver fuel env msg s; deliver_all fuel env msgs s
  end.

(** The tasks a message leads to. *)
Definition message_task (t : Task) : Prop :=
  match t with
  | Step_read _ _ | Step_elect _ _ _ | Proposer_parent _ | Proposer_drain _ _ | Proposer_prev _ _ _
  | Proposer_insert _ | Proposer_send _ | Proposer_vote _ => False
  | _ => True
  end.

Lemma message_task_step env n t n' cmds ts :
  message_task t → task_step cfg env n t = Done (n', cmds, ts) → Forall message_task ts.
Proof.
  assert (∀ {A} (o : outcome A) f, (o ≫= f) = Done (n', cmds, ts) → ∃ a : A, f a = Done (n', cmds, ts)) as Hbind.
  { intros A [a| |] f; simpl; [by eauto|done..]. }
  destruct t; try done; intros _ Hstep; unfold_section;
    repeat (case_match || (apply Hbind in Hstep as [? Hstep])); simplify_eq/=; by repeat constructor.
Qed.

Lemma exec_reach qc0 now fuel env s s' :
  registered cfg ab → env_keys env ≡ₚ elements (dom ab) → Forall message_task (tasks s) →
  sys_reach cfg ab qc0 now s → exec fuel env s = Done s' →
  sys_reach cfg ab qc0 now s' ∧ tasks s' = [].
Proof.
  intros Hreg Henv. revert s. induction fuel as [|fuel IH]; intros s Hmt Hs Hrun; simpl in Hrun;
    destruct (tasks s) as [|t ts] eqn:Hts; try done; try (apply done_inj in Hrun as <-; done).
  destruct (task_step cfg env (node s) t) as [[[n cmds] ts']| |] eqn:Hstep; try done. simpl in Hrun.
  apply Forall_cons in Hmt as [Ht Hmt]. apply IH in Hrun; [done| |].
  - apply Forall_app. split; [by eapply message_task_step|done].
  - eapply sys_reach_step; [exact Hs|]. apply (step_task cfg _ _ s env [] t ts n cmds ts'); try done.
    + by rewrite (inv_book cfg ab s) by (by eapply reach_inv).
    + destruct t; done.
Qed.

(** Delivering authentic messages one after the other reaches a reachable state. *)
Lemma deliver_all_reach qc0 now fuel env msgs s s' :
  registered cfg ab → env_keys env ≡ₚ elements (dom ab) → tasks s = [] →
  Forall (λ msg, match msg with
                 | VelocityVoteMsg v => vv_voter_address v ≠ my_address cfg
                 | _ => True
                 end) msgs →
  sys_reach cfg ab qc0 now s → deliver_all fuel env msgs s = Done s' → sys_reach cfg ab qc0 now s'.
Proof.
  intros Hreg Henv Hts Hmsgs. revert s Hts.
  induction Hmsgs as [|msg msgs Hmsg _ IH]; intros s Hts Hs Hrun; cbn [deliver_all] in Hrun.
  { by apply done_inj in Hrun as <-. }
  destruct (deliver fuel env msg s) as [s1| |] eqn:Hd; cbn [mbind outcome_bind] in Hrun; try done.
  unfold deliver in Hd. apply (exec_reach qc0 now) in Hd as [Hs1 Hts1]; [eauto|done..| |].
  - simpl. rewrite Hts. by repeat constructor.
  - eapply sys_reach_step; [exact Hs|]. apply step_deliver. destruct msg; try done.
    intros _ Heq. by destruct Hmsg.
Qed.
End exec.

(** ** Four validators *)
Module Net4.
#[export] Instance debug : Profile := true.
#[export] Instance quiet : Logging := λ _, false.

Definition b8 (i : N) : byte := byte_of_N i.
Definition address (i : N) : Address := replicate 20 (b8 i).
Definition pk (i : N) : bytes := replicate 1312 (b8 i).
Definition vrf (i : N) : bytes := replicate 32 (b8 i).

Definition identity (i : N) : PeerIdentityInfo := mkIdentity "peer" [] (Some (pk i)) (Some (vrf i)) 0.

Definition ab : AddressBook :=
  list_to_map ((λ i, (address i, identity i)) <$> [1; 2; 3; 4]).

Definition cfg (i : N) : Config :=
  mkConfig (address i) (mkValidatorKeys (mkKeyPair (pk i) (pk i)) (vrf i)) (mkParams 4 1200).

Definition env : Env := mkEnv 1000 5000 (elements (dom ab)).

Definition start : Sys (C := list bytes) := sys_new genesis_qc 0 ab.

Definition payload (i : N) : AppPayload := replicate 4 (b8 i).

(** The batch validator [i] proposes at time [t] for round [round]. *)
Definition empty_batch : PayloadBatch :=
  mkBatch (mkHeader 0 [] 0 [] [] [] [] []) [] genesis_qc 0.
Definition proposal (i t round : N) (payloads : list AppPayload) : PayloadBatch :=
  match build_batch (cfg i) t round genesis_qc payloads 0 (replicate 32 Byte.x00) with
  | Done b => b
  | _ => empty_batch
  end.

Definition vote (i round : N) (b : PayloadBatch) : VelocityVote :=
  match own_vote (cfg i) round (calculate_hash (pb_header b)) with
  | Done v => v
  | _ => mkVote 0 [] [] []
  end.

Definition run (msgs : list ConsensusMessage) : Sys (C := list bytes) :=
  match deliver_all (cfg 1) 20 env msgs start with
  | Done s => s
  | _ => start
  end.

Definition batch1 : PayloadBatch := proposal 2 5000 1 [payload 7].

(** Node 1 receives validator 2's proposal and the votes of validators 2 and 3. *)
Definition quorum_run : list ConsensusMessage :=
  [ IntentBatchProposal batch1; VelocityVoteMsg (vote 2 1 batch1); VelocityVoteMsg (vote 3 1 batch1) ].

Lemma cfg_registered : registered (cfg 1) ab.
Proof.
  split.
  - split; vm_compute; reflexivity.
  - exists (identity 1). split; vm_compute; reflexivity.
Qed.

Lemma run_reach msgs :
  Forall (λ msg, match msg with
                 | VelocityVoteMsg v => vv_voter_address v ≠ address 1
                 | _ => True
                 end) msgs →
  sys_reach (cfg 1) ab genesis_qc 0 (run msgs).
Proof.
  intros Hmsgs. unfold run. destruct (deliver_all (cfg 1) 20 env msgs start) as [s| |] eqn:Hrun;
    [|apply sys_reach_new..].
  apply (deliver_all_reach (cfg 1) ab genesis_qc 0 20 env msgs start s);
    [apply cfg_registered|reflexivity|reflexivity|exact Hmsgs|apply sys_reach_new|exact Hrun].
Qed.


(** The messages of a run other than this node's own votes. *)
Definition foreign (msgs : list ConsensusMessage) : Prop :=
  Forall (λ msg, match msg with
                 | VelocityVoteMsg v => vv_voter_address v ≠ address 1
                 | _ => True
                 end) msgs.

#[export] Instance foreign_dec msgs : Decision (foreign msgs).
Proof. apply Forall_dec. intros []; apply _. Defined.

Lemma quorum_reach : sys_reach (cfg 1) ab genesis_qc 0 (run quorum_run).
Proof. apply run_reach. apply (bool_decide_unpack (foreign quorum_run)). vm_compute. exact I. Qed.

(** The certificate node 1 sends in that run. *)
Definition quorum_qc : QuorumCertificate :=
  match last (sent (run quorum_run)) with
  | Some (BroadcastConsensusMessage (NewQuorumCertificate qc)) => qc
  | _ => genesis_qc
  end.

Lemma certificates_are_backed_witness :
  NoDup (qc_signatures quorum_qc).*1 ∧ (size ab * 2 / 3 + 1 ≤ length (qc_signatures quorum_qc))%nat ∧
  ∀ a sig, (a, sig) ∈ qc_signatures quorum_qc →
    a ∈ dom ab ∧ ∃ r, verify_vote_signature ab a r (qc_batch_hash quorum_qc) sig = true.
Proof.
  apply (certificates_are_backed (C := list bytes) (cfg 1) ab genesis_qc 0 (run quorum_run) quorum_qc);
    [apply cfg_registered|apply quorum_reach|].
  apply last_Some_elem_of. vm_compute. reflexivity.
Defined.

Lemma accepted_certificates_intersect_witness :
  ∃ common : gset Address, (size ab < 3 * size common)%nat ∧
    ∀ a, a ∈ common →
      (∃ sig, (a, sig) ∈ qc_signatures quorum_qc ∧
         verify_vote_signature ab a (qc_view_number quorum_qc) (qc_batch_hash quorum_qc) sig = true) ∧
      (∃ sig, (a, sig) ∈ qc_signatures quorum_qc ∧
         verify_vote_signature ab a (qc_view_number quorum_qc) (qc_batch_hash quorum_qc) sig = true).
Proof.
  apply (accepted_certificates_intersect ab quorum_qc quorum_qc).
  - apply map_size_non_empty_iff. vm_compute. discriminate.
  - vm_compute. reflexivity.
  - vm_compute. reflexivity.
Defined.


Lemma votes_are_checked_and_unique_witness :
  (∀ v, BroadcastConsensusMessage (VelocityVoteMsg v) ∈ sent (run quorum_run) →
     ∃ header, calculate_hash header = vv_batch_hash v ∧ verify_batch_signature ab header = true) ∧
  (∀ h, h ∉ processed_optimistic_batches (core_state (node (run quorum_run))) →
     (length (filter (λ x, x.2 = h) (signed (run quorum_run))) ≤ 1)%nat ∧
     NoDup (voters_of (core_state (node (run quorum_run))) h)).
Proof.
  apply (votes_are_checked_and_unique (cfg 1) ab genesis_qc 0 (run quorum_run));
    [apply cfg_registered|apply quorum_reach].
Defined.

(** The driver of a fresh node reads the state and decides to enter round 1. *)
Definition entering : Sys (C := list bytes) :=
  mkSys (node start) (Driver_write 1 0) [] [] [].

Lemma progress_is_monotone_witness :
  driver_ok (cfg 1) entering ∧
  qc_view_number (highest_seen_qc (core_state (node start))) ≤
    qc_view_number (highest_seen_qc (core_state (node entering))) ∧
  processed_optimistic_batches (core_state (node start)) ⊆
    processed_optimistic_batches (core_state (node entering)) ∧
  lex_le (position (node start)) (position (node entering)).
Proof.
  apply (progress_is_monotone (cfg 1) (λ _ _, False) (λ _ _, False) start entering).
  - split; [by left|done].
  - vm_compute. by split_and!.
  - apply (step_driver (cfg 1) _ _ start env true (node start) (Driver_write 1 0) []); [reflexivity|].
    vm_compute. reflexivity.
Defined.

Lemma committee_is_canonical_witness :
  determine_sub_committee 2 [address 3; address 1] 7 [] = determine_sub_committee 2 [address 1; address 3] 7 [] ∧
  NoDup (determine_sub_committee 2 [address 3; address 1] 7 []) ∧
  length (determine_sub_committee 2 [address 3; address 1] 7 []) = Nat.min 2 2 ∧
  (∀ a, a ∈ determine_sub_committee 2 [address 3; address 1] 7 [] → a ∈ [address 3; address 1]).
Proof.
  apply committee_is_canonical.
  - apply (bool_decide_unpack _). vm_compute. exact I.
  - apply Permutation_swap.
Defined.

Lemma proposal_is_well_formed_witness :
  ∃ n' b,
    task_step (cfg 1) env (node start) (Proposer_drain 1 genesis_qc) =
      Done (n', [], [Proposer_prev 1 genesis_qc []]) ∧
    mempool n' = [] ∧
    task_step (cfg 1) env n' (Proposer_prev 1 genesis_qc []) = Done (n', [], [Proposer_insert b]) ∧
    pb_payloads b = [] ∧ pb_round b = 1 ∧ pb_justify b = genesis_qc ∧
    h_payloads_root (pb_header b) = calculate_payloads_root (pb_payloads b) ∧
    verify_batch_signature ab (pb_header b) = true ∧ h_index (pb_header b) = 0 + 1 ∧
    h_prev_hash (pb_header b) = replicate 32 Byte.x00.
Proof.
  apply (proposal_is_well_formed (cfg 1) ab env (node start) genesis_qc 1 (identity 1)).
  - apply cfg_registered.
  - vm_compute. reflexivity.
  - exists (vrf 1). split; reflexivity.
  - vm_compute. reflexivity.
Defined.

Lemma round_certificate_is_accepted_witness :
  qc_is_valid ab
    (certificate (calculate_hash (pb_header batch1)) (to_pending batch1)
       [vote 2 1 batch1; vote 3 1 batch1; vote 4 1 batch1]) = true.
Proof.
  apply round_certificate_is_accepted.
  - apply (bool_decide_unpack _). vm_compute. exact I.
  - vm_compute. lia.
  - repeat constructor; vm_compute; reflexivity.
Defined.

(** Payloads are not checked against the header.  A proposal whose payloads
    are not the ones its signed header commits to is voted for and confirmed:
    here validator 2 commits to one payload and sends another, and node 1
    confirms the batch with the payloads it was sent. *)
Definition tampered : PayloadBatch :=
  mkBatch (pb_header batch1) [payload 9] (pb_justify batch1) (pb_round batch1).

Theorem payloads_are_not_checked :
  let s := run [IntentBatchProposal tampered; VelocityVoteMsg (vote 2 1 batch1);
                VelocityVoteMsg (vote 3 1 batch1)] in
  optimistically_confirmed_batches (core_state (node s)) = [tampered] ∧
  h_payloads_root (pb_header tampered) ≠ calculate_payloads_root (pb_payloads tampered).
Proof.
  split; [apply (bool_decide_unpack _); vm_compute; exact I|].
  apply (bool_decide_unpack _). vm_compute. exact I.
Qed.

(** Conflicting batches.  A node votes for every proposal whose header is
    signed, also for two of the same round, index and predecessor.  Here
    validator 2 proposes two batches for round 1; node 1 votes for both, and with
    the votes of two more validators that run the same code it confirms both. *)
Definition batch2 : PayloadBatch := proposal 2 5001 1 [payload 8].

Theorem conflicting_batches_are_confirmed :
  let s := run [IntentBatchProposal batch1; IntentBatchProposal batch2;
                VelocityVoteMsg (vote 2 1 batch1); VelocityVoteMsg (vote 3 1 batch1);
                VelocityVoteMsg (vote 2 1 batch2); VelocityVoteMsg (vote 3 1 batch2)] in
  optimistically_confirmed_batches (core_state (node s)) = [batch1; batch2] ∧
  calculate_hash (pb_header batch1) ≠ calculate_hash (pb_header batch2) ∧
  h_index (pb_header batch1) = h_index (pb_header batch2) ∧
  h_prev_hash (pb_header batch1) = h_prev_hash (pb_header batch2) ∧
  pb_round batch1 = pb_round batch2.
Proof.
  split_and!; try (vm_compute; reflexivity); apply (bool_decide_unpack _); vm_compute; exact I.
Qed.

(** A certificate that no other node accepts.  Votes are counted whatever
    round they carry, but a certificate is checked for one round.  Here
    validator 3 signs its vote for round 9; node 1 confirms the batch and
    broadcasts a certificate that every node with the same address book rejects,
    with a penalty of 50 for the sender. *)
Theorem mixed_round_certificate_is_rejected :
  let s := run [IntentBatchProposal batch1; VelocityVoteMsg (vote 2 1 batch1);
                VelocityVoteMsg (vote 3 9 batch1)] in
  optimistically_confirmed_batches (core_state (node s)) = [batch1] ∧
  ∃ qc, last (sent s) = Some (BroadcastConsensusMessage (NewQuorumCertificate qc)) ∧
    ∀ env' (n : Node (list bytes)) source, address_book n = ab →
      task_step (cfg 4) env' n (Qc_verify qc source) = Done (n, [ApplyPenalty source (-50)], []).
Proof.
  intros s. split; [apply (bool_decide_unpack _); vm_compute; exact I|].
  set (qc := match last (sent s) with
             | Some (BroadcastConsensusMessage (NewQuorumCertificate qc)) => qc
             | _ => genesis_qc
             end).
  exists qc. split; [vm_compute; reflexivity|]. intros env' n source Hn. unfold_section.
  assert (qc_is_valid ab qc = false) as Hq by (vm_compute; reflexivity). by rewrite Hn, Hq.
Qed.
End Net4.
