(* ===== verification/Round.v ===== *)
(** * A round that comes to its end ([evice-multi-sequencer/src/consensus/engine.rs])

    The safety theorems say what the engine never does; this file shows that it
    gets its work done: when a proposal and the votes of a quorum have arrived, in
    whatever order and however the handlers interleave, the batch is confirmed and
    its certificate is broadcast once the handlers are through, and they do get
    through.  A handler that panics is gone, as a tokio task is.  Runs may or may not
    have the driver's [abort] of an unfinished step: what the engine never does it
    does not do with it either, but a round comes to its end without it. *)

From S2P Require Import Prelude Bytes SeqTypes P2pTypes Committee Consensus ConsensusProps ToyCrypto ConsensusRuns.

(** Every case of a section, with what it returns. *)
Lemma bind_done {A B} (o : outcome A) (f : A → outcome B) b :
  (o ≫= f) = Done b → ∃ a, o = Done a ∧ f a = Done b.
Proof. destruct o as [a| |]; simpl; [by eauto|done..]. Qed.

Ltac section_cases Hstep :=
  unfold_section;
  repeat (case_match || (apply bind_done in Hstep as (? & ? & Hstep)));
  try done; simplify_eq/=.

(** The vote this node casts is its own, for the batch, and verifies. *)
Ltac own_vote_of Hreg :=
  match goal with H : own_vote _ _ _ = Done _ |- _ => destruct (own_vote_run _ _ _ _ _ Hreg H) as (? & ? & _) end.

(** Membership in a list of tasks that is cut at the one that runs. *)
Ltac mem := rewrite ?elem_of_app, ?elem_of_cons; tauto.
Ltac keep := split; [mem|tauto].

Section round.
Context `{!Crypto} `{!CryptoLaws} `{!Profile} `{!Logging} {C : Type} `{!Lru C} `{!LruLaws C} (cfg : Config).
Context (ab : AddressBook).
Implicit Types (s : Sys (C := C)) (n : Node C) (t : Task) (h : bytes).

(** ** Runs *)

(** A section runs, or panics and takes its task with it. *)
Inductive task_only : Sys → Sys → Prop :=
| task_runs s env l1 t l2 n cmds ts :
    env_keys env ≡ₚ elements (dom (address_book (node s))) →
    tasks s = l1 ++ t :: l2 → fresh_header s t → task_step cfg env (node s) t = Done (n, cmds, ts) →
    task_only s (mkSys n (driver s) (l1 ++ ts ++ l2) (sent s ++ cmds) (signed s ++ task_signs t))
| task_panics s env l1 t l2 :
    env_keys env ≡ₚ elements (dom (address_book (node s))) →
    tasks s = l1 ++ t :: l2 → fresh_header s t → task_step cfg env (node s) t = Panicked →
    task_only s (mkSys (node s) (driver s) (l1 ++ l2) (sent s) (signed s)).

(** The engine from its start, with the messages that were delivered to it; with
    [aborts], tasks may also end early. *)
Inductive run (aborts : bool) (qc0 : QuorumCertificate) (now : N) : list ConsensusMessage → Sys → Prop :=
| run_new : run aborts qc0 now [] (sys_new qc0 now ab)
| run_deliver D s msg source : run aborts qc0 now D s → authentic cfg ab s msg →
    run aborts qc0 now (D ++ [msg])
      (mkSys (node s) (driver s) (tasks s ++ [Message_check msg source]) (sent s) (signed s))
| run_payload D s payload : run aborts qc0 now D s →
    run aborts qc0 now D (mkSys (with_mempool (node s) (mempool (node s) ++ [payload])) (driver s) (tasks s) (sent s) (signed s))
| run_driver D s env ready n d ts : run aborts qc0 now D s →
    env_keys env ≡ₚ elements (dom (address_book (node s))) →
    driver_step cfg env ready (node s) (driver s) = Done (n, d, ts) →
    run aborts qc0 now D (mkSys n d (tasks s ++ ts) (sent s) (signed s))
| run_task D s s' : run aborts qc0 now D s → task_only s s' → run aborts qc0 now D s'
| run_abort D s l1 t l2 : aborts = true → run aborts qc0 now D s → tasks s = l1 ++ t :: l2 →
    run aborts qc0 now D (mkSys (node s) (driver s) (l1 ++ l2) (sent s) (signed s)).

Lemma task_only_step s s' : task_only s s' → sys_step cfg (authentic cfg ab) fresh_header s s'.
Proof. destruct 1; [by eapply step_task|by eapply step_end]. Qed.

Lemma run_reachable aborts qc0 now D s : run aborts qc0 now D s → sys_reach cfg ab qc0 now s.
Proof.
  induction 1; [constructor| | | | |]; eapply sys_reach_step; eauto.
  - by apply step_deliver.
  - by apply step_payload.
  - by eapply step_driver.
  - by apply task_only_step.
  - by eapply step_end.
Qed.

Lemma run_inv aborts qc0 now D s : registered cfg ab → run aborts qc0 now D s → inv cfg ab s.
Proof. intros Hreg Hrun. eapply reach_inv; [done|by eapply run_reachable]. Qed.

(** ** What one section does for a batch *)

(** Tasks that will look whether there is a quorum for [h]. *)
Definition counts h t : Prop :=
  match t with
  | Votes_quorum k | Votes_count k _ => k = h
  | Proposal_send v => vv_batch_hash v = h
  | _ => pusher t = Some h
  end.

(** Tasks that have a message before and after the filter for duplicates. *)
Definition before_filter (msg : ConsensusMessage) t : Prop :=
  ∃ source, t = Message_check msg source ∨ t = Message_put msg source.

Definition after_filter (msg : ConsensusMessage) t : Prop :=
  match msg, t with
  | VelocityVoteMsg v, (Vote_seen w | Vote_verify w | Vote_push w) => w = v
  | IntentBatchProposal b, (Proposal_verify c | Proposal_insert c) => c = b
  | NewQuorumCertificate qc, (Qc_verify k _ | Qc_update k _ | Qc_stale k _ | Qc_request k _) => k = qc
  | _, _ => False
  end.

Definition cached n (msg : ConsensusMessage) : Prop :=
  lru_contains (recently_processed_hashes n) (consensus_message_hash msg) = true.

Definition processed n h : Prop := h ∈ processed_optimistic_batches (core_state n).

(** What a section does to the votes, the confirmed batches and the pending
    proposals: nothing, or one of five things. *)
Inductive change n t n' : list P2pCommand → list Task → Prop :=
| change_none cmds ts :
    velocity_votes (core_state n') = velocity_votes (core_state n) →
    processed_optimistic_batches (core_state n') = processed_optimistic_batches (core_state n) →
    pending_proposals n' = pending_proposals n → change n t n' cmds ts
| change_pending b t' :
    core_state n' = core_state n →
    pending_proposals n' = <[batch_hash_of b := to_pending b]> (pending_proposals n) →
    pusher t' = Some (batch_hash_of b) → change n t n' [] [t']
| change_own h v t' :
    pusher t = Some h → pusher t' = None → counts h t' → vv_voter_address v = my_address cfg →
    core_state n' = push_vote (core_state n) h v → pending_proposals n' = pending_proposals n →
    change n t n' [] [t']
| change_vote v :
    t = Vote_push v → core_state n' = add_vote (core_state n) v → pending_proposals n' = pending_proposals n →
    change n t n' [] [Votes_quorum (vv_batch_hash v)]
| change_confirm h q b qc :
    t = Votes_count h q → core_state n' = confirm (core_state n) h b qc → qc_batch_hash qc = h →
    pending_proposals n' = pending_proposals n →
    change n t n' (broadcast (NewQuorumCertificate qc)) [Prune_read]
| change_prune confirmed :
    t = Prune_write confirmed → core_state n' = core_state n →
    pending_proposals n' = filter (λ e : bytes * PendingBatch, e.1 ∉ confirmed) (pending_proposals n) →
    change n t n' [] [].

Lemma section_change env n t n' cmds ts :
  registered cfg ab → task_step cfg env n t = Done (n', cmds, ts) → change n t n' cmds ts.
Proof.
  intros Hreg Hstep. destruct t as [msg source|msg source|b|b|b|v|h|h q| |confirmed|v|v|v|qc source|qc source|qc source
    |qc source|r k|r k seed|r|r qc|r qc ps|b|b|b]; section_cases Hstep; try by apply change_none.
  - by apply (change_pending n _ _ b).
  - own_vote_of Hreg. by eapply (change_own n _ _ (batch_hash_of b)).
  - by eapply change_confirm.
  - by eapply change_prune.
  - eapply (change_vote n _ _ v); [done| |done]. cbn. unfold add_vote. by rewrite decide_True.
  - eapply (change_vote n _ _ v); [done| |done]. cbn. unfold add_vote. by rewrite decide_False.
  - by apply (change_pending n _ _ b).
  - own_vote_of Hreg. by eapply (change_own n _ _ (batch_hash_of b)).
Qed.

Lemma processed_confirm (c : CoreConsensusState) h b qc :
  processed_optimistic_batches (confirm c h b qc) = {[h]} ∪ processed_optimistic_batches c.
Proof. done. Qed.

(** Confirmed batches stay confirmed; votes and pending proposals stay until then. *)
Lemma change_keeps n t n' cmds ts h :
  change n t n' cmds ts →
  (∀ confirmed, t = Prune_write confirmed → confirmed ⊆ processed_optimistic_batches (core_state n)) →
  (processed n h → processed n' h) ∧
  (∀ a, a ∈ voters_of (core_state n) h → processed n' h ∨ a ∈ voters_of (core_state n') h) ∧
  (is_Some (pending_proposals n !! h) → processed n' h ∨ is_Some (pending_proposals n' !! h)).
Proof.
  unfold processed. intros Hch Hprune.
  destruct Hch as [cmds ts Hv Hp Hq|b t' Hc Hq _|k v t' _ _ _ _ Hc Hq|v _ Hc Hq|k q b qc _ Hc _ Hq|confirmed Ht Hc Hq].
  - unfold voters_of, votes_of. rewrite Hv, Hp, Hq. auto.
  - rewrite Hc, Hq. split_and!; [done|auto|]. intros [x Hx]. right. rewrite lookup_insert. case_decide; eauto.
  - rewrite Hc, Hq. split_and!; [done| |auto]. intros a Ha. right. rewrite voters_of_push. case_decide; [subst; set_solver|done].
  - rewrite Hc, Hq. split_and!; [done| |auto]. intros a Ha. right. unfold voters_of. rewrite votes_of_add.
    case_decide; [rewrite fmap_app; set_solver|done].
  - rewrite Hc, Hq, processed_confirm. split_and!; [set_solver| |auto]. intros a Ha.
    destruct (decide (h ∈ {[k]} ∪ processed_optimistic_batches (core_state n))) as [?|Hno]; [by left|right].
    unfold voters_of. by rewrite votes_of_confirm, decide_False.
  - rewrite Hc, Hq. split_and!; [done|auto|]. intros [x Hx].
    destruct (decide (h ∈ confirmed)) as [Hin|Hno]; [left; by eapply Hprune|right].
    exists x. by apply map_lookup_filter_Some.
Qed.

(** A batch becomes pending only with a task that will vote for it; its votes
    change only with a task that will count them; it is confirmed only with its
    certificate sent. *)
Lemma change_new n t n' cmds ts h :
  change n t n' cmds ts →
  (is_Some (pending_proposals n' !! h) → is_Some (pending_proposals n !! h) ∨ ∃ t', t' ∈ ts ∧ pusher t' = Some h) ∧
  (votes_of (core_state n') h = votes_of (core_state n) h ∨ processed n' h ∨ ∃ t', t' ∈ ts ∧ counts h t') ∧
  (processed n' h → processed n h ∨
     ∃ qc, BroadcastConsensusMessage (NewQuorumCertificate qc) ∈ cmds ∧ qc_batch_hash qc = h).
Proof.
  unfold processed.
  destruct 1 as [cmds ts Hv Hp Hq|b t' Hc Hq Ht'|k v t' _ _ Hcount _ Hc Hq|v _ Hc Hq|k q b qc _ Hc Hk Hq|confirmed Ht Hc Hq].
  - unfold votes_of. rewrite Hv, Hp, Hq. auto.
  - rewrite Hc, Hq. split_and!; [|by left|auto]. rewrite lookup_insert. case_decide; [|auto].
    subst h. intros _. right. exists t'. set_solver.
  - rewrite Hc, Hq. split_and!; [auto| |auto]. rewrite votes_of_push. case_decide; [|by left]. subst k.
    right; right. exists t'. set_solver.
  - rewrite Hc, Hq. split_and!; [auto| |auto]. rewrite votes_of_add. case_decide as Hk; [|by left].
    right; right. eexists. split; [by left|]. by destruct Hk.
  - rewrite Hc, Hq, processed_confirm. split_and!; [auto| |].
    + rewrite votes_of_confirm. case_decide; [by right; left|by left].
    + intros [->%elem_of_singleton|?]%elem_of_union; [right|by left]. exists qc. split; [by left|done].
  - rewrite Hc, Hq. split_and!; [|by left|auto]. intros [x [Hx _]%map_lookup_filter_Some]. eauto.
Qed.

(** ** What becomes of a task *)

(** A message that matters for the batch, and what it is delivered for. *)
Definition relevant h (msg : ConsensusMessage) : Prop :=
  match msg with
  | VelocityVoteMsg v => verified ab v ∧ vv_batch_hash v = h
  | IntentBatchProposal b => batch_hash_of b = h ∧ verify_batch_signature ab (pb_header b) = true
  | NewQuorumCertificate _ => False
  end.

Definition effect h n (msg : ConsensusMessage) : Prop :=
  processed n h ∨
  match msg with
  | VelocityVoteMsg v => vv_voter_address v ∈ voters_of (core_state n) h
  | IntentBatchProposal _ => is_Some (pending_proposals n !! h)
  | NewQuorumCertificate _ => True
  end.

(** A task that is going to vote does so, and then counts. *)
Lemma pusher_next env n t n' cmds ts h :
  registered cfg ab → task_step cfg env n t = Done (n', cmds, ts) → pusher t = Some h →
  (my_address cfg ∈ voters_of (core_state n') h ∨ ∃ t', t' ∈ ts ∧ pusher t' = Some h) ∧
  ∃ t', t' ∈ ts ∧ counts h t'.
Proof.
  intros Hreg Hstep Hp. destruct t; try done; injection Hp as <-; section_cases Hstep.
  - own_vote_of Hreg. split; [|eexists; split; [by left|done]]. left. rewrite voters_of_push, decide_True by done. set_solver.
  - split; [right|]; eexists; (split; [by left|done]).
  - own_vote_of Hreg. split; [|eexists; split; [by left|done]]. left. rewrite voters_of_push, decide_True by done. set_solver.
Qed.

(** A task that counts goes on to do so, and finds a quorum that is there. *)
Lemma counts_next env n t n' cmds ts h :
  registered cfg ab → task_step cfg env n t = Done (n', cmds, ts) → counts h t →
  (∀ q, t = Votes_count h q → q = required_quorum ab) → is_Some (pending_proposals n !! h) →
  (required_quorum ab ≤ length (votes_of (core_state n) h))%nat →
  processed n' h ∨ ∃ t', t' ∈ ts ∧ counts h t'.
Proof.
  intros Hreg Hstep Hc Hq [b Hb] Hquorum. destruct (pusher t) as [k|] eqn:Hp.
  { assert (k = h) as ->. { destruct t; simpl in *; congruence. }
    right. by apply (pusher_next env n t n' cmds ts h). }
  destruct t; simpl in Hp, Hc; try done; subst.
  - right. section_cases Hstep. eexists. split; [by left|done].
  - right. section_cases Hstep. eexists. split; [by left|done].
  - left. specialize (Hq _ eq_refl). subst quorum. unfold processed, votes_of in *. section_cases Hstep.
    + done.
    + set_solver.
    + exfalso. unfold required_quorum in Hquorum. case_decide; lia.
Qed.

(** A message goes through the filter unless the cache has its hash. *)
Lemma filter_next env n t n' cmds ts msg :
  task_step cfg env n t = Done (n', cmds, ts) → before_filter msg t →
  cached n msg ∨ ∃ t', t' ∈ ts ∧ (before_filter msg t' ∨ after_filter msg t').
Proof.
  unfold cached. intros Hstep [source [-> | ->]]; section_cases Hstep; auto; right; eexists; (split; [by left|]).
  - left. exists source. by right.
  - by right.
  - by right.
  - by right.
Qed.

(** The cache learns a hash only from a message that then goes on. *)
Lemma cached_next env n t n' cmds ts k :
  task_step cfg env n t = Done (n', cmds, ts) → lru_contains (recently_processed_hashes n') k = true →
  lru_contains (recently_processed_hashes n) k = true ∨
  ∃ msg source t', t = Message_put msg source ∧ consensus_message_hash msg = k ∧ t' ∈ ts ∧ after_filter msg t'.
Proof.
  intros Hstep Hk. destruct t; section_cases Hstep; auto.
  all: apply lru_contains_other in Hk as [->|Hk]; [right|by auto]; do 3 eexists; (split_and!; [done|done|by left|done]).
Qed.

(** Behind the filter a relevant message has its effect. *)
Lemma after_next env n t n' cmds ts h msg :
  address_book n = ab → task_step cfg env n t = Done (n', cmds, ts) → after_filter msg t → relevant h msg →
  effect h n' msg ∨ ∃ t', t' ∈ ts ∧ after_filter msg t'.
Proof.
  intros Hbook Hstep Haf Hrel. unfold effect, processed. destruct msg as [b|v|qc]; [..|done]; destruct t; try done; simpl in Haf; subst.
  - destruct Hrel as [<- Hver]. section_cases Hstep; [|congruence]. right. eexists. split; [by left|done].
  - destruct Hrel as [<- Hver]. section_cases Hstep; left; right; [by eauto|]. rewrite lookup_insert_eq. eauto.
  - destruct Hrel as [Hver <-]. section_cases Hstep; [by left; left|]. right. eexists. split; [by left|done].
  - destruct Hrel as [Hver <-]. unfold verified in Hver. section_cases Hstep; [|congruence]. right. eexists. split; [by left|done].
  - destruct Hrel as [Hver <-]. left; right. section_cases Hstep.
    + unfold voters_of, votes_of. cbn. by rewrite lookup_insert_eq.
    + unfold voters_of, votes_of. cbn. rewrite lookup_insert_eq. cbn. rewrite fmap_app. set_solver.
Qed.

(** ** No panic

    The sections that matter for a batch do not panic, since its hash has 32
    bytes. *)
Lemma own_vote_done round h : registered cfg ab → ∃ v, own_vote cfg round h = Done v.
Proof.
  intros [Hkeys _]. unfold own_vote.
  destruct (vote_sign_run (mkVote round h (my_address cfg) (replicate SIGNATURE_SIZE Byte.x00))
    (signing_keys (validator_keys cfg)) Hkeys) as (v & Hv & _). eauto.
Qed.

Lemma counts_run env n t h :
  registered cfg ab → length h = 32%nat → counts h t → task_step cfg env n t ≠ Panicked.
Proof.
  intros Hreg Hh Hc. destruct t; simpl in Hc; try done; simplify_eq; unfold_section;
    rewrite ?log_hash_calculated, ?log_hash_long by lia; cbn [mbind outcome_bind];
    try destruct (own_vote_done (pb_round batch) (calculate_hash (pb_header batch)) Hreg) as [v ->]; try done.
  repeat case_match; try done; rewrite ?log_hash_long in * by lia; done.
Qed.

Lemma filter_run env n t msg : before_filter msg t → task_step cfg env n t ≠ Panicked.
Proof. intros [source [-> | ->]]; unfold_section; by repeat case_match. Qed.

Lemma after_filter_run env n t h msg : after_filter msg t → relevant h msg → task_step cfg env n t ≠ Panicked.
Proof. intros Haf Hrel. destruct msg; [..|done]; destruct t; try done; unfold_section; by repeat case_match. Qed.

(** ** The invariant: nothing that was delivered is forgotten *)
Record owes h (D : list ConsensusMessage) s : Prop := {
  owes_incoming t msg : t ∈ tasks s → before_filter msg t → msg ∈ D;
  owes_cache k : lru_contains (recently_processed_hashes (node s)) k = true →
    ∃ msg, msg ∈ D ∧ consensus_message_hash msg = k;
  owes_cached msg : msg ∈ D → relevant h msg → cached (node s) msg →
    effect h (node s) msg ∨ ∃ t, t ∈ tasks s ∧ after_filter msg t;
  owes_delivered msg : msg ∈ D → relevant h msg →
    effect h (node s) msg ∨ ∃ t, t ∈ tasks s ∧ (before_filter msg t ∨ after_filter msg t);
  owes_own : is_Some (pending_proposals (node s) !! h) →
    processed (node s) h ∨ my_address cfg ∈ voters_of (core_state (node s)) h ∨
    ∃ t, t ∈ tasks s ∧ pusher t = Some h;
  owes_count : is_Some (pending_proposals (node s) !! h) →
    (required_quorum ab ≤ length (votes_of (core_state (node s)) h))%nat →
    processed (node s) h ∨ ∃ t, t ∈ tasks s ∧ counts h t;
  owes_sent : processed (node s) h →
    ∃ qc, BroadcastConsensusMessage (NewQuorumCertificate qc) ∈ sent s ∧ qc_batch_hash qc = h;
}.

(** No two of the messages have the same hash. *)
Definition distinct_hashes (D : list ConsensusMessage) : Prop :=
  ∀ msg msg', msg ∈ D → msg' ∈ D → consensus_message_hash msg = consensus_message_hash msg' → msg = msg'.

Lemma NoDup_distinct_hashes D : NoDup (consensus_message_hash <$> D) → distinct_hashes D.
Proof.
  intros Hnd m m' (i & Hi)%list_elem_of_lookup (j & Hj)%list_elem_of_lookup Heq.
  assert (i = j) as ->; [|congruence].
  apply (NoDup_lookup _ i j (consensus_message_hash m) Hnd); rewrite list_lookup_fmap; [by rewrite Hi|by rewrite Hj, Heq].
Qed.

(** A task of the old list is in the new one, or is the one that ran. *)
Lemma task_stays (P : Task → Prop) l1 t l2 ts :
  (∃ u, u ∈ l1 ++ t :: l2 ∧ P u) → (P t → ∃ u, u ∈ ts ∧ P u) → ∃ u, u ∈ l1 ++ ts ++ l2 ∧ P u.
Proof.
  intros (u & Hu & HP) Hnext. apply elem_of_app in Hu as [Hu|[->|Hu]%elem_of_cons]; [exists u; keep| |exists u; keep].
  destruct (Hnext HP) as (u' & ? & ?). exists u'. keep.
Qed.

Lemma before_filter_from env n t n' cmds ts u msg :
  task_step cfg env n t = Done (n', cmds, ts) → u ∈ ts → before_filter msg u → before_filter msg t.
Proof.
  intros Hstep Hu [source [-> | ->]]; destruct t; section_cases Hstep; try (by apply elem_of_nil in Hu);
    apply list_elem_of_singleton in Hu; simplify_eq. eexists. by left.
Qed.

Lemma effect_keeps h n t n' cmds ts msg :
  change n t n' cmds ts →
  (∀ confirmed, t = Prune_write confirmed → confirmed ⊆ processed_optimistic_batches (core_state n)) →
  effect h n msg → effect h n' msg.
Proof.
  intros Hch Hprune. destruct (change_keeps n t n' cmds ts h Hch Hprune) as (Hp & Hv & Hq). unfold effect.
  intros [?|He]; [left; auto|]. destruct msg; [apply Hq, He|apply Hv, He|by right].
Qed.

(** What was going to become of a message behind the filter still does. *)
Lemma after_stays env h n t n' cmds ts l1 l2 msg :
  address_book n = ab → task_step cfg env n t = Done (n', cmds, ts) → change n t n' cmds ts →
  (∀ confirmed, t = Prune_write confirmed → confirmed ⊆ processed_optimistic_batches (core_state n)) →
  relevant h msg → effect h n msg ∨ (∃ u, u ∈ l1 ++ t :: l2 ∧ after_filter msg u) →
  effect h n' msg ∨ ∃ u, u ∈ l1 ++ ts ++ l2 ∧ after_filter msg u.
Proof.
  intros Hbook Hstep Hch Hprune Hrel [He|(u & Hu & Haf)]; [left; by eapply effect_keeps|].
  apply elem_of_app in Hu as [?|[->|?]%elem_of_cons]; [right; exists u; keep| |right; exists u; keep].
  destruct (after_next env n t n' cmds ts h msg Hbook Hstep Haf Hrel) as [?|(u & ? & ?)]; [by left|right; exists u; keep].
Qed.

(** A task that is going to vote stays, or has voted. *)
Lemma own_stays env h n t n' cmds ts l1 l2 :
  registered cfg ab → task_step cfg env n t = Done (n', cmds, ts) →
  (∃ u, u ∈ l1 ++ t :: l2 ∧ pusher u = Some h) →
  my_address cfg ∈ voters_of (core_state n') h ∨ ∃ u, u ∈ l1 ++ ts ++ l2 ∧ pusher u = Some h.
Proof.
  intros Hreg Hstep Hu. destruct (decide (pusher t = Some h)) as [Hk|Hk].
  - destruct (pusher_next _ _ _ _ _ _ _ Hreg Hstep Hk) as [[?|(u & ? & ?)] _]; [by left|right; exists u; keep].
  - right. by eapply task_stays.
Qed.

Lemma owes_task h D s env l1 t l2 n cmds ts :
  registered cfg ab → inv cfg ab s → distinct_hashes D → owes h D s →
  tasks s = l1 ++ t :: l2 → task_step cfg env (node s) t = Done (n, cmds, ts) →
  owes h D (mkSys n (driver s) (l1 ++ ts ++ l2) (sent s ++ cmds) (signed s ++ task_signs t)).
Proof.
  intros Hreg Hinv Hdist [] Hts Hstep. rewrite Hts in *.
  pose proof (section_change env _ _ _ _ _ Hreg Hstep) as Hch.
  pose proof (inv_tasks _ _ _ Hinv) as Hok. rewrite Hts, Forall_app, Forall_cons in Hok. destruct Hok as (_ & [_ Hok] & _).
  assert (∀ confirmed, t = Prune_write confirmed →
    confirmed ⊆ processed_optimistic_batches (core_state (node s))) as Hprune by (by intros confirmed ->).
  destruct (change_keeps _ _ _ _ _ h Hch Hprune) as (Hp & Hv & _).
  destruct (change_new _ _ _ _ _ h Hch) as (Hq' & Hv' & Hp').
  assert (t ∈ l1 ++ t :: l2) as Hin by mem.
  assert (∀ msg, relevant h msg → effect h (node s) msg ∨ (∃ u, u ∈ l1 ++ t :: l2 ∧ after_filter msg u) →
    effect h n msg ∨ ∃ u, u ∈ l1 ++ ts ++ l2 ∧ after_filter msg u) as Hafter.
  { intros msg. apply (after_stays env h (node s) t n cmds ts l1 l2); [apply (inv_book _ _ _ Hinv)|done..]. }
  split; cbn [node tasks sent].
  - intros u msg Hu Hb. apply elem_of_app in Hu as [Hu|[Hu|Hu]%elem_of_app]; [|apply (owes_incoming0 t); [done|]|].
    + apply (owes_incoming0 u); [mem|done].
    + by eapply before_filter_from.
    + apply (owes_incoming0 u); [mem|done].
  - intros k Hk. destruct (cached_next _ _ _ _ _ _ _ Hstep Hk) as [?|(msg & source & u & -> & <- & _)]; [auto|].
    exists msg. split; [|done]. apply (owes_incoming0 _ msg Hin). exists source. by right.
  - intros msg Hm Hrel Hc. destruct (cached_next _ _ _ _ _ _ _ Hstep Hc) as [?|(msg' & source & u & Ht & Heq & Hu & Haf)].
    + apply Hafter; auto.
    + right. exists u. split; [mem|]. rewrite <-(Hdist msg' msg); [done| |done|done].
      apply (owes_incoming0 t msg' Hin). exists source. by right.
  - intros msg Hm Hrel. destruct (owes_delivered0 msg Hm Hrel) as [He|(u & Hu & [Hb|Ha])].
    + left. by eapply effect_keeps.
    + apply elem_of_app in Hu as [?|[->|?]%elem_of_cons]; [right; exists u; keep| |right; exists u; keep].
      destruct (filter_next _ _ _ _ _ _ _ Hstep Hb) as [Hc|(u & ? & ?)]; [|right; exists u; keep].
      destruct (Hafter msg Hrel (owes_cached0 msg Hm Hrel Hc)) as [?|(u & ? & ?)]; [by left|right; exists u; auto].
    + destruct (Hafter msg Hrel) as [?|(u' & ? & ?)]; [eauto|by left|right; exists u'; auto].
  - intros Hpend. destruct (Hq' Hpend) as [Hold|(u & ? & ?)]; [|right; right; exists u; keep].
    destruct (owes_own0 Hold) as [?|[Hme|Hu]]; [left; auto|destruct (Hv _ Hme); auto|].
    right. by eapply own_stays.
  - intros Hpend Hquorum. destruct (Hq' Hpend) as [Hold|(u & Hu & Hpu)].
    2:{ right. exists u. split; [mem|]. by destruct u. }
    destruct Hv' as [Heq|[?|(u & ? & ?)]]; [|by left|right; exists u; keep]. rewrite Heq in Hquorum.
    destruct (owes_count0 Hold Hquorum) as [?|(u & Hu & Hc)]; [left; auto|].
    apply elem_of_app in Hu as [?|[->|?]%elem_of_cons]; [right; exists u; keep| |right; exists u; keep].
    destruct (counts_next env (node s) t n cmds ts h) as [?|(u & ? & ?)]; [done..| |done|done|by left|right; exists u; keep].
    intros q ->. done.
  - intros Hproc. destruct (Hp' Hproc) as [Hold|(qc & Hqc & ?)]; [|exists qc; keep].
    destruct (owes_sent0 Hold) as (qc & ? & ?). exists qc. keep.
Qed.

(** A task that panics carries nothing that is owed. *)
Lemma owes_panic h D s env l1 t l2 :
  registered cfg ab → length h = 32%nat → owes h D s → tasks s = l1 ++ t :: l2 →
  task_step cfg env (node s) t = Panicked →
  owes h D (mkSys (node s) (driver s) (l1 ++ l2) (sent s) (signed s)).
Proof.
  intros Hreg Hh [] Hts Hpanic. rewrite Hts in *.
  assert (∀ P : Task → Prop, (P t → False) → (∃ u, u ∈ l1 ++ t :: l2 ∧ P u) → ∃ u, u ∈ l1 ++ l2 ∧ P u) as Hdrop.
  { intros P HP Hu. apply (task_stays P l1 t l2 []); [done|tauto]. }
  assert (∀ msg, relevant h msg → ¬ after_filter msg t) as Ha by (intros msg Hrel Haf; by eapply after_filter_run).
  assert (¬ counts h t) as Hc by (intros Hc; by eapply counts_run).
  split; cbn [node tasks sent]; try done.
  - intros u msg Hu. apply owes_incoming0. revert Hu. mem.
  - intros msg Hm Hrel Hcache. destruct (owes_cached0 msg Hm Hrel Hcache) as [?|Hu]; [by left|right].
    eapply Hdrop; [|done]. by apply Ha.
  - intros msg Hm Hrel. destruct (owes_delivered0 msg Hm Hrel) as [?|Hu]; [by left|right].
    eapply Hdrop; [|done]. intros [Hb|?]; [by eapply filter_run|by eapply Ha].
  - intros Hpend. destruct (owes_own0 Hpend) as [?|[?|Hu]]; [auto..|]. right; right. eapply Hdrop; [|done].
    intros Hp. apply Hc. by destruct t.
  - intros Hpend Hq. destruct (owes_count0 Hpend Hq) as [?|Hu]; [auto|]. right. by eapply Hdrop.
Qed.

(** Steps that leave alone what the invariant speaks of and add tasks. *)
Lemma owes_more h D s n d ts :
  owes h D s → velocity_votes (core_state n) = velocity_votes (core_state (node s)) →
  processed_optimistic_batches (core_state n) = processed_optimistic_batches (core_state (node s)) →
  pending_proposals n = pending_proposals (node s) →
  recently_processed_hashes n = recently_processed_hashes (node s) →
  (∀ t msg, t ∈ ts → before_filter msg t → False) →
  owes h D (mkSys n d (tasks s ++ ts) (sent s) (signed s)).
Proof.
  intros [] Hv Hp Hq Hr Hts. unfold processed, voters_of, votes_of, effect, cached, processed, voters_of, votes_of in *.
  assert (∀ P : Task → Prop, (∃ u, u ∈ tasks s ∧ P u) → ∃ u, u ∈ tasks s ++ ts ∧ P u) as Hmore.
  { intros P (u & ? & ?). exists u. keep. }
  split; cbn [node tasks sent]; unfold processed, voters_of, votes_of, effect, cached, processed, voters_of, votes_of;
    rewrite ?Hv, ?Hp, ?Hq, ?Hr; try done.
  - intros t msg [Ht|Ht]%elem_of_app Hb; [by eapply owes_incoming0|by destruct (Hts _ _ Ht Hb)].
  - intros msg Hm Hrel Hc. destruct (owes_cached0 msg Hm Hrel Hc); auto.
  - intros msg Hm Hrel. destruct (owes_delivered0 msg Hm Hrel); auto.
  - intros Hpend. destruct (owes_own0 Hpend) as [?|[?|?]]; auto.
  - intros Hpend Hquorum. destruct (owes_count0 Hpend Hquorum); auto.
Qed.

Lemma owes_deliver h D s msg source :
  distinct_hashes (D ++ [msg]) → owes h D s →
  owes h (D ++ [msg]) (mkSys (node s) (driver s) (tasks s ++ [Message_check msg source]) (sent s) (signed s)).
Proof.
  intros Hdist [].
  assert (∀ P : Task → Prop, (∃ u, u ∈ tasks s ∧ P u) → ∃ u, u ∈ tasks s ++ [Message_check msg source] ∧ P u) as Hmore.
  { intros P (u & ? & ?). exists u. keep. }
  split; cbn [node tasks sent]; try done.
  - intros t m [Ht|Ht]%elem_of_app Hb; [apply elem_of_app; left; by eapply owes_incoming0|].
    apply list_elem_of_singleton in Ht as ->. destruct Hb as [? [[= <- <-]|?]]; [set_solver|done].
  - intros k (m & Hm & Hk)%owes_cache0. exists m. split; [by apply elem_of_app; left|done].
  - intros m Hm Hrel Hc. destruct (owes_cache0 _ Hc) as (m' & Hm' & Heq).
    assert (m ∈ D) as HD.
    { rewrite <-(Hdist m' m); [done|by apply elem_of_app; left|done|done]. }
    destruct (owes_cached0 m HD Hrel Hc); auto.
  - intros m [Hm|Hm]%elem_of_app Hrel; [destruct (owes_delivered0 m Hm Hrel); auto|].
    apply list_elem_of_singleton in Hm as ->. right. exists (Message_check msg source).
    split; [set_solver|]. left. exists source. by left.
  - intros Hpend. destruct (owes_own0 Hpend) as [?|[?|?]]; auto.
  - intros Hpend Hquorum. destruct (owes_count0 Hpend Hquorum); auto.
Qed.

Lemma owes_new h qc0 now : owes h [] (sys_new (C := C) qc0 now ab).
Proof.
  split; cbn [node tasks sent sys_new consensus_state_new core_state recently_processed_hashes pending_proposals].
  - by intros t msg ?%elem_of_nil.
  - intros k Hk. by rewrite lru_contains_empty in Hk.
  - by intros msg ?%elem_of_nil.
  - by intros msg ?%elem_of_nil.
  - intros [b Hb]. by rewrite lookup_empty in Hb.
  - intros [b Hb]. by rewrite lookup_empty in Hb.
  - unfold processed. cbn. set_solver.
Qed.

Lemma distinct_hashes_prefix D D' : distinct_hashes (D ++ D') → distinct_hashes D.
Proof. intros Hd msg msg' Hm Hm'. apply Hd; apply elem_of_app; auto. Qed.

Lemma owes_run qc0 now h D s :
  registered cfg ab → length h = 32%nat → distinct_hashes D → run false qc0 now D s → owes h D s.
Proof.
  intros Hreg Hh Hdist Hrun. induction Hrun as [|D s msg source Hrun IH Hauth|D s payload Hrun IH
    |D s env ready n d ts Hrun IH Henv Hstep|D s s' Hrun IH Hstep|]; [..|done].
  - apply owes_new.
  - apply owes_deliver; [done|]. apply IH. by eapply distinct_hashes_prefix.
  - pose proof (owes_more h D s (with_mempool (node s) (mempool (node s) ++ [payload])) (driver s) []) as Hmore.
    rewrite app_nil_r in Hmore. apply Hmore; [by apply IH|done..|]. by intros ? ? ?%elem_of_nil.
  - pose proof (inv_premature _ _ _ (run_inv _ _ _ _ _ Hreg Hrun)) as Hpre. specialize (IH Hdist).
    destruct (driver s) as [|r k|r k]; cbn [driver_step] in Hstep.
    + destruct ready; [apply bind_done in Hstep as (next & _ & Hstep)|]; simplify_eq;
        (apply owes_more; [done..|by intros ? ? ?%elem_of_nil]).
    + simplify_eq. apply owes_more; [done..|by intros ? ? ?%elem_of_nil].
    + rewrite Hpre, lookup_empty in Hstep. simplify_eq. apply owes_more; [done..|].
      intros t msg ->%list_elem_of_singleton [source [?|?]]; done.
  - specialize (IH Hdist). pose proof (run_inv _ _ _ _ _ Hreg Hrun) as Hinv. destruct Hstep; [by eapply owes_task|by eapply owes_panic].
Qed.

(** ** The handlers get through *)

(** How many sections a task may still have. *)
Definition rest t : nat :=
  match t with
  | Step_read _ _ => 15 | Step_elect _ _ _ => 14 | Proposer_parent _ => 13 | Proposer_drain _ _ => 12
  | Proposer_prev _ _ _ => 11 | Proposer_insert _ => 10 | Proposer_send _ => 9 | Proposer_vote _ => 8
  | Message_check _ _ => 11 | Message_put _ _ => 10
  | Proposal_verify _ => 9 | Proposal_insert _ => 8 | Proposal_vote _ => 7 | Proposal_send _ => 6
  | Vote_seen _ => 8 | Vote_verify _ => 7 | Vote_push _ => 6
  | Votes_quorum _ => 5 | Votes_count _ _ => 4 | Prune_read => 3 | Prune_write _ => 2
  | Qc_verify _ _ => 5 | Qc_update _ _ => 4 | Qc_stale _ _ => 3 | Qc_request _ _ => 2
  end.

Lemma rest_decreases env n t n' cmds ts :
  task_step cfg env n t = Done (n', cmds, ts) → (sum_list_with rest ts < rest t)%nat.
Proof. intros Hstep. destruct t; section_cases Hstep; cbn; lia. Qed.

Lemma task_only_ends s : sn task_only s.
Proof.
  remember (sum_list_with rest (tasks s)) as k eqn:Hk. revert s Hk. induction (lt_wf k) as [k _ IH]; intros s ->.
  constructor. intros s' Hstep. eapply IH; [|done].
  destruct Hstep as [s env l1 t l2 n cmds ts _ Hts _ Hrun|s env l1 t l2 _ Hts _ _]; rewrite Hts; cbn [tasks];
    rewrite !sum_list_with_app; cbn [sum_list_with].
  - apply rest_decreases in Hrun. lia.
  - assert (0 < rest t)%nat by (destruct t; cbn; lia). lia.
Qed.

Lemma bind_fuel {A B} (o : outcome A) (f : A → outcome B) :
  o ≠ NoFuel → (∀ a, f a ≠ NoFuel) → o ≫= f ≠ NoFuel.
Proof. destruct o; simpl; auto. Qed.

Lemma task_has_fuel env n t : task_step cfg env n t ≠ NoFuel.
Proof.
  destruct t; unfold_section; unfold own_vote, vote_sign, build_batch, public_key_bytes, keypair_sign, exact_length,
    log_hash, u64_add; cbv zeta; repeat first [done | apply bind_fuel; [|intros ?] | case_match].
Qed.

Lemma task_only_progress s :
  tasks s ≠ [] → Forall (fresh_header s) (tasks s) → ∃ s', task_only s s'.
Proof.
  intros Hne Hfresh. destruct (tasks s) as [|t l] eqn:Hts; [done|]. apply Forall_cons in Hfresh as [Ht _].
  set (env := mkEnv 0 0 (elements (dom (address_book (node s))))).
  destruct (task_step cfg env (node s) t) as [[[n cmds] ts]| |] eqn:Hrun; [eexists..|by apply task_has_fuel in Hrun].
  - by eapply (task_runs s env [] t l).
  - by eapply (task_panics s env [] t l).
Qed.

Lemma run_tasks aborts qc0 now D s s' : run aborts qc0 now D s → rtc task_only s s' → run aborts qc0 now D s'.
Proof. intros Hrun Hr. revert Hrun. induction Hr; eauto using run_task. Qed.

(** When the handlers are through, a batch that is known and has a quorum of votes
    among what was delivered, this node's own included, is confirmed. *)
Lemma settled_confirms qc0 now D s h vs :
  registered cfg ab → run false qc0 now D s → distinct_hashes D → length h = 32%nat → tasks s = [] →
  is_Some (pending_proposals (node s) !! h) ∨ processed (node s) h →
  (∀ v, v ∈ vs → VelocityVoteMsg v ∈ D ∧ verified ab v ∧ vv_batch_hash v = h) →
  NoDup (my_address cfg :: (vv_voter_address <$> vs)) → (required_quorum ab ≤ S (length vs))%nat → processed (node s) h.
Proof.
  intros Hreg Hrun Hdist Hh Hend [Hpend|?] Hvs Hnd Hq; [|done].
  destruct (owes_run qc0 now h D s Hreg Hh Hdist Hrun) as [_ _ _ Hdel Hown Hcount _].
  rewrite Hend in *. assert (∀ P : Task → Prop, (∃ u, u ∈ [] ∧ P u) → False) as Hnone.
  { intros P (u & Hu & _). by apply elem_of_nil in Hu. }
  destruct (Hown Hpend) as [?|[Hme|[]%Hnone]]; [done|].
  destruct (decide (h ∈ processed_optimistic_batches (core_state (node s)))) as [?|Hnp]; [done|].
  destruct (Hcount Hpend) as [?|[]%Hnone]; [|done].
  assert (length (my_address cfg :: (vv_voter_address <$> vs)) ≤ length (voters_of (core_state (node s)) h))%nat as Hlen.
  { apply submseteq_length, NoDup_submseteq; [done|]. intros a [->|Ha]%elem_of_cons; [done|].
    apply list_elem_of_fmap in Ha as (v & -> & Hv). destruct (Hvs v Hv) as (HD & Hve & Heq).
    by destruct (Hdel (VelocityVoteMsg v)) as [[?|?]|[]%Hnone]. }
  unfold voters_of in Hlen. simpl in Hlen. rewrite !length_fmap in Hlen. lia.
Qed.

(** C18. A quorum confirms its batch.  A proposal with a valid header and verified votes
    of other validators for it have been delivered, in whatever order and among
    whatever else, and with this node's own vote they are a quorum.  Then the
    handlers get through, whatever their schedule, and when they are the batch is
    confirmed and its certificate has been broadcast. *)
Theorem quorum_confirms_the_batch qc0 now D s b vs :
  registered cfg ab → run false qc0 now D s → distinct_hashes D →
  IntentBatchProposal b ∈ D → verify_batch_signature ab (pb_header b) = true →
  (∀ v, v ∈ vs → VelocityVoteMsg v ∈ D ∧ verified ab v ∧ vv_batch_hash v = calculate_hash (pb_header b)) →
  NoDup (my_address cfg :: (vv_voter_address <$> vs)) → (required_quorum ab ≤ S (length vs))%nat →
  sn task_only s ∧
  ∀ s', rtc task_only s s' →
    (tasks s' ≠ [] → Forall (fresh_header s') (tasks s') → ∃ s'', task_only s' s'') ∧
    (tasks s' = [] →
       calculate_hash (pb_header b) ∈ processed_optimistic_batches (core_state (node s')) ∧
       ∃ qc, BroadcastConsensusMessage (NewQuorumCertificate qc) ∈ sent s' ∧
         qc_batch_hash qc = calculate_hash (pb_header b)).
Proof.
  intros Hreg Hrun Hdist Hb Hver Hvs Hnd Hq. split; [apply task_only_ends|]. intros s' Hr.
  split; [by apply task_only_progress|]. intros Hend. eapply run_tasks in Hrun; [|done]. set (h := calculate_hash (pb_header b)) in *.
  pose proof (length_calculate_hash (pb_header b)) as Hlen.
  pose proof (owes_run qc0 now h D s' Hreg Hlen Hdist Hrun) as [_ _ _ Hdel _ _ Hsent].
  enough (processed (node s') h) as Hp by (split; [done|auto]).
  eapply settled_confirms; [done..| |done|done|done].
  destruct (Hdel (IntentBatchProposal b)) as [[?|?]|(u & Hu & _)]; [done|done|by right|by left|].
  rewrite Hend in Hu. by apply elem_of_nil in Hu.
Qed.

(** ** Where votes come from *)

(** The proposal a task has received, and the one it votes for. *)
Definition received_proposal t : option PayloadBatch :=
  match t with
  | Proposal_verify b | Proposal_insert b | Proposal_vote b => Some b
  | _ => None
  end.

(** Votes in hand or counted came from the network or are this node's own; votes
    that are sent are for proposals that came from the network. *)
Record heard (D : list ConsensusMessage) s : Prop := {
  heard_message t msg : t ∈ tasks s → before_filter msg t → msg ∈ D;
  heard_vote t v : t ∈ tasks s → incoming_vote t = Some v → VelocityVoteMsg v ∈ D;
  heard_proposal t b : t ∈ tasks s → received_proposal t = Some b → IntentBatchProposal b ∈ D;
  heard_send v : Proposal_send v ∈ tasks s →
    ∃ b, IntentBatchProposal b ∈ D ∧ batch_hash_of b = vv_batch_hash v;
  heard_votes k v : v ∈ votes_of (core_state (node s)) k →
    vv_voter_address v = my_address cfg ∨ VelocityVoteMsg v ∈ D;
  heard_sent v : BroadcastConsensusMessage (VelocityVoteMsg v) ∈ sent s →
    ∃ b, IntentBatchProposal b ∈ D ∧ batch_hash_of b = vv_batch_hash v;
}.

(** What a new task carries, the task before it carried. *)
Lemma task_carries env n t n' cmds ts u :
  registered cfg ab → task_step cfg env n t = Done (n', cmds, ts) → u ∈ ts →
  (∀ v, incoming_vote u = Some v → incoming_vote t = Some v) ∧
  (∀ b, received_proposal u = Some b →
     received_proposal t = Some b ∨ before_filter (IntentBatchProposal b) t) ∧
  (∀ v, u = Proposal_send v → ∃ b, received_proposal t = Some b ∧ batch_hash_of b = vv_batch_hash v).
Proof.
  intros Hreg Hstep Hu. destruct t; section_cases Hstep; try (by apply elem_of_nil in Hu);
    apply list_elem_of_singleton in Hu as ->; split_and!; cbn; intros; simplify_eq; eauto;
    try (right; eexists; by right).
  own_vote_of Hreg. eauto.
Qed.

Lemma task_sends env n t n' cmds ts v :
  task_step cfg env n t = Done (n', cmds, ts) → BroadcastConsensusMessage (VelocityVoteMsg v) ∈ cmds →
  t = Proposal_send v.
Proof.
  intros Hstep Hin. destruct t; section_cases Hstep; try (by apply elem_of_nil in Hin);
    apply list_elem_of_singleton in Hin; by simplify_eq.
Qed.

(** A counted vote was there, is this node's own or is the one that is added. *)
Lemma change_votes n t n' cmds ts k v :
  change n t n' cmds ts → v ∈ votes_of (core_state n') k →
  v ∈ votes_of (core_state n) k ∨ vv_voter_address v = my_address cfg ∨ incoming_vote t = Some v.
Proof.
  destruct 1 as [cmds ts Hv _ _|b t' Hc _ _|h w t' _ _ _ Hw Hc _|w -> Hc _|h q b qc _ Hc _ _|confirmed _ Hc _].
  - unfold votes_of. rewrite Hv. auto.
  - rewrite Hc. auto.
  - rewrite Hc, votes_of_push. case_decide; [|auto]. subst. intros [?| ->%list_elem_of_singleton]%elem_of_app; auto.
  - rewrite Hc, votes_of_add. case_decide; [|auto]. intros [?| ->%list_elem_of_singleton]%elem_of_app; auto.
  - rewrite Hc, votes_of_confirm. case_decide; [by intros ?%elem_of_nil|auto].
  - rewrite Hc. auto.
Qed.

Lemma heard_task D s env l1 t l2 n cmds ts :
  registered cfg ab → heard D s → tasks s = l1 ++ t :: l2 →
  task_step cfg env (node s) t = Done (n, cmds, ts) →
  heard D (mkSys n (driver s) (l1 ++ ts ++ l2) (sent s ++ cmds) (signed s ++ task_signs t)).
Proof.
  intros Hreg [] Hts Hstep. rewrite Hts in *. assert (t ∈ l1 ++ t :: l2) as Hin by mem.
  assert (∀ u, u ∈ l1 ++ ts ++ l2 → u ∈ l1 ++ t :: l2 ∨ u ∈ ts) as Hcase.
  { intros u. rewrite !elem_of_app, elem_of_cons. tauto. }
  split; cbn [node tasks sent].
  - intros u msg [?|Hu]%Hcase Hb; [by eapply heard_message0|]. eapply heard_message0; [done|]. by eapply before_filter_from.
  - intros u v [?|Hu]%Hcase Hv; [by eapply heard_vote0|].
    destruct (task_carries _ _ _ _ _ _ _ Hreg Hstep Hu) as (Hc & _ & _). eauto.
  - intros u b [?|Hu]%Hcase Hb; [by eapply heard_proposal0|].
    destruct (task_carries _ _ _ _ _ _ _ Hreg Hstep Hu) as (_ & Hc & _). destruct (Hc _ Hb); eauto.
  - intros v [?|Hu]%Hcase; [by eapply heard_send0|].
    destruct (task_carries _ _ _ _ _ _ _ Hreg Hstep Hu) as (_ & _ & Hc). destruct (Hc v eq_refl) as (b & ? & ?). eauto.
  - intros k v Hv. destruct (change_votes _ _ _ _ _ k v (section_change _ _ _ _ _ _ Hreg Hstep) Hv) as [?|[?|?]]; eauto.
  - intros v [?|Hv]%elem_of_app; [auto|]. apply (task_sends _ _ _ _ _ _ _ Hstep) in Hv as ->. auto.
Qed.

(** Nothing is heard of when only tasks are added that carry nothing new. *)
Lemma heard_more D D' s n d ts :
  heard D s → (∀ msg, msg ∈ D → msg ∈ D') →
  velocity_votes (core_state n) = velocity_votes (core_state (node s)) →
  (∀ t, t ∈ ts → (∀ msg, before_filter msg t → msg ∈ D') ∧ (∀ v, incoming_vote t = Some v → VelocityVoteMsg v ∈ D') ∧
     received_proposal t = None ∧ ∀ v, t ≠ Proposal_send v) →
  heard D' (mkSys n d (tasks s ++ ts) (sent s) (signed s)).
Proof.
  intros [] HD Hv Hts. split; cbn [node tasks sent].
  - intros t msg [?|Ht]%elem_of_app Hb; [eauto|]. by apply (Hts t).
  - intros t v [?|Ht]%elem_of_app Hi; [eauto|]. by apply (Hts t).
  - intros t b [?|Ht]%elem_of_app Hr; [eauto|]. destruct (Hts t Ht) as (_ & _ & Hn & _). congruence.
  - intros v [Hs|Ht]%elem_of_app; [destruct (heard_send0 v Hs) as (b & ? & ?); eauto|].
    destruct (Hts _ Ht) as (_ & _ & _ & Hn). by destruct (Hn v).
  - intros k v. unfold votes_of. rewrite Hv. intros Hin. destruct (heard_votes0 k v Hin); auto.
  - intros v Hs. destruct (heard_sent0 v Hs) as (b & ? & ?). eauto.
Qed.

Lemma heard_fewer D s l1 t l2 :
  heard D s → tasks s = l1 ++ t :: l2 → heard D (mkSys (node s) (driver s) (l1 ++ l2) (sent s) (signed s)).
Proof.
  intros [] Hts. rewrite Hts in *. assert (∀ u, u ∈ l1 ++ l2 → u ∈ l1 ++ t :: l2) as Hsub by (intros u; mem).
  split; cbn [node tasks sent]; eauto.
Qed.

Lemma heard_run aborts qc0 now D s : registered cfg ab → run aborts qc0 now D s → heard D s.
Proof.
  intros Hreg Hrun. induction Hrun as [|D s msg source Hrun IH Hauth|D s payload Hrun IH
    |D s env ready n d ts Hrun IH Henv Hstep|D s s' Hrun IH Hstep|D s l1 t l2 _ Hrun IH Hts].
  - split; cbn [node tasks sent sys_new]; try (by intros ? ? ?%elem_of_nil); try (by intros ? ?%elem_of_nil).
  - apply (heard_more D); [done| |done|]; [intros m; rewrite elem_of_app; auto|].
    intros t ->%list_elem_of_singleton. split_and!; [|by destruct msg; cbn; intros; simplify_eq; apply elem_of_app; right; left|done|done].
    intros m [? [[= <- <-]|?]]; [apply elem_of_app; right; by left|done].
  - pose proof (heard_more D D s (with_mempool (node s) (mempool (node s) ++ [payload])) (driver s) []) as Hmore.
    rewrite app_nil_r in Hmore. apply Hmore; [done..|]. by intros ? ?%elem_of_nil.
  - pose proof (inv_premature _ _ _ (run_inv _ _ _ _ _ Hreg Hrun)) as Hpre.
    destruct (driver s) as [|r k|r k]; cbn [driver_step] in Hstep.
    + destruct ready; [apply bind_done in Hstep as (next & _ & Hstep)|]; simplify_eq;
        (apply (heard_more D); [done..|by intros ? ?%elem_of_nil]).
    + simplify_eq. apply (heard_more D); [done..|by intros ? ?%elem_of_nil].
    + rewrite Hpre, lookup_empty in Hstep. simplify_eq. apply (heard_more D); [done..|].
      intros t ->%list_elem_of_singleton. split_and!; try done. by intros msg [source [?|?]].
  - destruct Hstep; [by eapply heard_task|by eapply heard_fewer].
  - by eapply heard_fewer.
Qed.

(** A batch is confirmed only when its votes are a quorum. *)
Lemma processed_next env n t n' cmds ts h :
  (∀ q, t = Votes_count h q → q = required_quorum ab) → task_step cfg env n t = Done (n', cmds, ts) →
  processed n' h → processed n h ∨ (required_quorum ab ≤ length (votes_of (core_state n) h))%nat.
Proof.
  unfold processed. intros Hq Hstep Hp. destruct t; section_cases Hstep; auto.
  apply elem_of_union in Hp as [->%elem_of_singleton|?]; [right|by left].
  specialize (Hq _ eq_refl). subst quorum. unfold votes_of.
  repeat match goal with H : velocity_votes _ !! _ = _ |- _ => rewrite H end. cbn. lia.
Qed.

Lemma driver_keeps_processed env ready n d n' d' ts :
  driver_step cfg env ready n d = Done (n', d', ts) →
  processed_optimistic_batches (core_state n') = processed_optimistic_batches (core_state n).
Proof.
  intros Hstep. destruct d; cbn [driver_step] in Hstep;
    repeat (case_match || (apply bind_done in Hstep as (? & ? & Hstep))); by simplify_eq/=.
Qed.

(** Without the votes of [U] there is no quorum: then a batch is not confirmed. *)
Lemma unheard_validators_block (aborts : bool) (qc0 : QuorumCertificate) (now : N) (D : list ConsensusMessage) s (U : gset Address) h :
  registered cfg ab → run aborts qc0 now D s → U ⊆ dom ab → my_address cfg ∉ U →
  (size ab < required_quorum ab + size U)%nat →
  (∀ v, VelocityVoteMsg v ∈ D → verified ab v → vv_batch_hash v = h → vv_voter_address v ∉ U) →
  ¬ processed (node s) h.
Proof.
  intros Hreg Hrun HU Hme Hmany. induction Hrun as [|D s msg source Hrun IH Hauth|D s payload Hrun IH
    |D s env ready n d ts Hrun IH Henv Hstep|D s s' Hrun IH Hstep|D s l1 t l2 _ Hrun IH Hts]; intros Hno.
  - unfold processed. cbn. set_solver.
  - apply IH. intros v Hv. apply Hno. apply elem_of_app. by left.
  - by apply IH.
  - unfold processed. cbn [node]. rewrite (driver_keeps_processed _ _ _ _ _ _ _ Hstep). by apply IH.
  - specialize (IH Hno). pose proof (run_inv _ _ _ _ _ Hreg Hrun) as Hinv. pose proof (heard_run _ _ _ _ _ Hreg Hrun) as Hheard.
    destruct Hstep as [s env l1 t l2 n cmds ts _ Hts _ Hstep|s env l1 t l2 _ Hts _ _]; [|done]. intros Hp.
    destruct (processed_next env (node s) t n cmds ts h) as [?|Hq]; [|done..|].
    { intros q ->. pose proof (inv_tasks _ _ _ Hinv) as Hok. rewrite Hts, Forall_app, Forall_cons in Hok. by destruct Hok as (_ & [_ ?] & _). }
    assert (length (voters_of (core_state (node s)) h) ≤ length (elements (dom ab ∖ U)))%nat as Hle.
    { apply submseteq_length, NoDup_submseteq; [by apply (inv_voters _ _ _ Hinv)|].
      intros x (v & -> & Hv)%list_elem_of_fmap. destruct (inv_votes _ _ _ Hinv _ _ Hv) as [<- Hver].
      apply elem_of_elements, elem_of_difference. split; [by eapply verify_vote_member|].
      destruct (heard_votes _ _ Hheard _ _ Hv) as [->|HD]; [done|by apply Hno]. }
    change (length (elements (dom ab ∖ U))) with (size (dom ab ∖ U)) in Hle. rewrite size_difference, size_dom in Hle by done.
    pose proof (subseteq_size U (dom ab) HU) as Hsize. rewrite size_dom in Hsize.
    unfold voters_of in Hle. rewrite length_fmap in Hle. lia.
  - by apply IH.
Qed.
End round.

(** C20. Silent validators leave only the proposer.  The proposer of a batch counts its
    own vote but does not broadcast it.  So when [f] of at most [3 * (f + 1)]
    validators are silent, no other validator ever confirms the batch: with four
    validators one silent one is enough, and with two or three none is needed.
    Here [j] has proposed the batch (it has not been handed the proposal by a peer)
    and votes in [j]'s name are those [j] has sent. *)
Theorem silent_validators_leave_only_the_proposer `{!Crypto} `{!CryptoLaws} `{!Profile} `{!Logging} {C : Type} `{!Lru C} `{!LruLaws C}
    (cfg_i cfg_j : Config) (ab : AddressBook) (aborts : bool) (qc0 : QuorumCertificate) (now now' : N) (D_i D_j : list ConsensusMessage) (s_i s_j : Sys (C := C)) (silent : gset Address) h :
  registered cfg_i ab → registered cfg_j ab → my_address cfg_i ≠ my_address cfg_j →
  silent ⊆ dom ab → my_address cfg_i ∉ silent → my_address cfg_j ∉ silent → (size ab ≤ 3 * (size silent + 1))%nat →
  run cfg_i ab aborts qc0 now D_i s_i → run cfg_j ab aborts qc0 now' D_j s_j →
  (∀ b, IntentBatchProposal b ∈ D_j → calculate_hash (pb_header b) ≠ h) →
  (∀ v, VelocityVoteMsg v ∈ D_i → verified ab v → vv_batch_hash v = h → vv_voter_address v ∉ silent) →
  (∀ v, VelocityVoteMsg v ∈ D_i → verified ab v → vv_voter_address v = my_address cfg_j →
     BroadcastConsensusMessage (VelocityVoteMsg v) ∈ sent s_j) →
  h ∉ processed_optimistic_batches (core_state (node s_i)) ∧
  ∀ b, b ∈ optimistically_confirmed_batches (core_state (node s_i)) → calculate_hash (pb_header b) ≠ h.
Proof.
  intros Hi Hj Hne Hsub Hsi Hsj Hsize Hrun_i Hrun_j Hown Hsilent Hsent.
  assert (h ∉ processed_optimistic_batches (core_state (node s_i))) as Hp.
  { apply (unheard_validators_block cfg_i ab aborts qc0 now D_i s_i ({[my_address cfg_j]} ∪ silent)); [done|done| | | |].
    - apply union_subseteq. split; [|done]. apply singleton_subseteq_l. destruct Hj as (_ & info & Hinfo & _). by eapply elem_of_dom_2.
    - rewrite elem_of_union, elem_of_singleton. tauto.
    - rewrite size_union, size_singleton by set_solver. unfold required_quorum. case_decide; [lia|].
      pose proof (Nat.div_mod_eq (size ab * 2) 3). pose proof (Nat.mod_upper_bound (size ab * 2) 3). lia.
    - intros v HD Hver Hh [Ha%elem_of_singleton|Ha]%elem_of_union; [|by eapply Hsilent].
      destruct (heard_sent _ _ _ (heard_run _ _ _ _ _ _ _ Hj Hrun_j) v) as (b & Hb & Heq); [by apply Hsent|].
      apply (Hown b Hb). by rewrite <-Hh. }
  split; [done|]. intros b Hb Heq. apply Hp. rewrite <-Heq.
  by apply (inv_confirmed_processed _ _ _ (run_inv _ _ _ _ _ _ _ Hi Hrun_i)).
Qed.

(** ** Runs *)
Section schedule.
Context `{!Crypto} `{!CryptoLaws} `{!Profile} `{!Logging} {C : Type} `{!Lru C} `{!LruLaws C} (cfg : Config).
Context (ab : AddressBook) (env : Env).

(** What a scheduler may choose: a message of a peer, a turn of the driver, or the
    next section of the task at a place. *)
Inductive Choice := Deliver (msg : ConsensusMessage) | Drive | Work (k : nat).

Definition choose (x : Choice) (s : Sys (C := C)) : option (Sys (C := C)) :=
  match x with
  | Deliver msg =>
      if match msg with VelocityVoteMsg v => bool_decide (vv_voter_address v ≠ my_address cfg) | _ => true end then
        Some (mkSys (node s) (driver s) (tasks s ++ [Message_check msg "peer"]) (sent s) (signed s))
      else None
  | Drive =>
      match driver_step cfg env true (node s) (driver s) with
      | Done (n, d, ts) => Some (mkSys n d (tasks s ++ ts) (sent s) (signed s))
      | _ => None
      end
  | Work k =>
      t ← tasks s !! k;
      if match t with Proposer_insert b => bool_decide (pending_proposals (node s) !! batch_hash_of b = None) | _ => true end then
        match task_step cfg env (node s) t with
        | Done (n, cmds, ts) =>
            Some (mkSys n (driver s) (take k (tasks s) ++ ts ++ drop (S k) (tasks s)) (sent s ++ cmds) (signed s ++ task_signs t))
        | _ => None
        end
      else None
  end.

Fixpoint schedule (xs : list Choice) (s : Sys (C := C)) : option (Sys (C := C)) :=
  match xs with
  | [] => Some s
  | x :: xs => s ← choose x s; schedule xs s
  end.

Definition delivered (xs : list Choice) : list ConsensusMessage :=
  omap (λ x, match x with Deliver msg => Some msg | _ => None end) xs.

Lemma choose_work k s s' :
  env_keys env ≡ₚ elements (dom (address_book (node s))) → choose (Work k) s = Some s' → task_only cfg s s'.
Proof.
  intros Henv. cbn [choose]. destruct (tasks s !! k) as [t|] eqn:Hk; [|done]. cbn. intros Hx. case_match eqn:Hf; [|done].
  destruct (task_step _ _ _ _) as [[[n cmds] ts]| |] eqn:Ht; [|done..]. injection Hx as <-.
  eapply task_runs; [done| | |done]; [by rewrite (take_drop_middle _ _ _ Hk)|].
  destruct t; try done. by apply bool_decide_eq_true in Hf.
Qed.

Lemma choose_run aborts qc0 now D x s s' :
  registered cfg ab → env_keys env ≡ₚ elements (dom ab) → run cfg ab aborts qc0 now D s → choose x s = Some s' →
  run cfg ab aborts qc0 now (D ++ delivered [x]) s'.
Proof.
  intros Hreg Henv Hrun. rewrite <-(inv_book _ _ _ (run_inv _ _ _ _ _ _ _ Hreg Hrun)) in Henv.
  destruct x as [msg| |k]; cbn [delivered omap list_omap]; rewrite ?app_nil_r.
  - cbn [choose]. intros Hx. case_match eqn:Hmsg; [|done]; injection Hx as <-. apply run_deliver; [done|].
    destruct msg; [done| |done]. apply bool_decide_eq_true in Hmsg. by intros _ ?.
  - cbn [choose]. destruct (driver_step _ _ _ _ _) as [[[n d] ts]| |] eqn:Hd; [|done..]. intros [= <-]. by eapply run_driver.
  - intros Hx. eapply run_task; [done|by eapply choose_work].
Qed.

Lemma schedule_run_from aborts qc0 now xs D s s' :
  registered cfg ab → env_keys env ≡ₚ elements (dom ab) → run cfg ab aborts qc0 now D s → schedule xs s = Some s' →
  run cfg ab aborts qc0 now (D ++ delivered xs) s'.
Proof.
  intros Hreg Henv. revert D s. induction xs as [|x xs IH]; intros D s Hs; cbn [schedule].
  - intros [= <-]. cbn. by rewrite app_nil_r.
  - destruct (choose x s) as [s1|] eqn:Hx; [|done]. cbn [mbind option_bind]. intros Hxs.
    assert (delivered (x :: xs) = delivered [x] ++ delivered xs) as -> by (by destruct x). rewrite app_assoc.
    apply IH with s1; [by apply choose_run with s|done].
Qed.

Lemma schedule_run aborts qc0 now xs s' :
  registered cfg ab → env_keys env ≡ₚ elements (dom ab) → schedule xs (sys_new qc0 now ab) = Some s' →
  run cfg ab aborts qc0 now (delivered xs) s'.
Proof. intros Hreg Henv. by apply (schedule_run_from aborts qc0 now xs []), run_new. Qed.
End schedule.

Module RoundRuns.
Import Net4.

(** Four validators: node 1 has the proposal of validator 2 and the votes of
    validators 3 and 4 before it has looked at any of them. *)
Definition quorum_delivered : list Choice :=
  [Deliver (VelocityVoteMsg (vote 4 1 batch1)); Deliver (IntentBatchProposal batch1); Deliver (VelocityVoteMsg (vote 3 1 batch1))].

Definition after (cfg : Config) (ab : AddressBook) (env : Env) (xs : list Choice) : Sys (C := list bytes) :=
  default (sys_new genesis_qc 0 ab) (schedule cfg env xs (sys_new genesis_qc 0 ab)).

Lemma after_is_run aborts cfg ab env xs :
  registered cfg ab → env_keys env = elements (dom ab) →
  (if schedule (C := list bytes) cfg env xs (sys_new genesis_qc 0 ab) is Some _ then true else false) = true →
  Round.run cfg ab aborts genesis_qc 0 (delivered xs) (after cfg ab env xs).
Proof.
  intros Hreg Henv Hs. apply (schedule_run cfg ab env); [done|by rewrite Henv|].
  unfold after. by destruct (schedule _ _ _ _).
Qed.

Lemma quorum_delivered_run :
  Round.run (cfg 1) ab false genesis_qc 0 (delivered quorum_delivered) (after (cfg 1) ab env quorum_delivered).
Proof. apply after_is_run; [apply cfg_registered|reflexivity|vm_compute; reflexivity]. Qed.

Lemma quorum_delivered_distinct : distinct_hashes (delivered quorum_delivered).
Proof. apply NoDup_distinct_hashes, (bool_decide_unpack _). vm_compute. exact I. Qed.

Lemma quorum_confirms_the_batch_witness :
  let s := after (cfg 1) ab env quorum_delivered in
  sn (task_only (cfg 1)) s ∧
  ∀ s', rtc (task_only (cfg 1)) s s' →
    (tasks s' ≠ [] → Forall (fresh_header s') (tasks s') → ∃ s'', task_only (cfg 1) s' s'') ∧
    (tasks s' = [] →
       calculate_hash (pb_header batch1) ∈ processed_optimistic_batches (core_state (node s')) ∧
       ∃ qc, BroadcastConsensusMessage (NewQuorumCertificate qc) ∈ sent s' ∧
         qc_batch_hash qc = calculate_hash (pb_header batch1)).
Proof.
  intros s. apply (quorum_confirms_the_batch (cfg 1) ab genesis_qc 0 (delivered quorum_delivered) s batch1
    [vote 3 1 batch1; vote 4 1 batch1]); [apply cfg_registered|apply quorum_delivered_run|apply quorum_delivered_distinct|..].
  - right. left.
  - vm_compute. reflexivity.
  - intros v [->|[->|[]%elem_of_nil]%elem_of_cons]%elem_of_cons; (split_and!; [|vm_compute; reflexivity..]);
      [right; right; left|left].
  - apply (bool_decide_unpack _). vm_compute. exact I.
  - vm_compute. lia.
Defined.

(** Four validators, of which 4 is silent: node 1 enters round 1, is elected and
    proposes, and confirms its batch with the votes of 2 and 3; node 2, which has the
    proposal and the vote of node 3, is left with two votes of the three it needs. *)
Definition works (k : nat) : list Choice := replicate k (Work 0).
Definition batch_of_1 : PayloadBatch := proposal 1 5000 1 [].

Definition proposer_run : list Choice :=
  [Drive; Drive; Drive] ++ works 10 ++ [Deliver (VelocityVoteMsg (vote 2 1 batch_of_1))] ++ works 7 ++
  [Deliver (VelocityVoteMsg (vote 3 1 batch_of_1))] ++ works 9.

Definition follower_run : list Choice :=
  [Deliver (IntentBatchProposal batch_of_1)] ++ works 8 ++
  [Deliver (VelocityVoteMsg (vote 3 1 batch_of_1))] ++ works 7.

Lemma node_registered i : i = 1 ∨ i = 2 → registered (cfg i) ab.
Proof. intros [-> | ->]; (split; [split; vm_compute; reflexivity|eexists; split; vm_compute; reflexivity]). Qed.

Lemma proposer_runs : Round.run (cfg 1) ab true genesis_qc 0 (delivered proposer_run) (after (cfg 1) ab env proposer_run).
Proof. apply after_is_run; [apply node_registered; by left|reflexivity|vm_compute; reflexivity]. Qed.

Lemma follower_runs : Round.run (cfg 2) ab true genesis_qc 0 (delivered follower_run) (after (cfg 2) ab env follower_run).
Proof. apply after_is_run; [apply node_registered; by right|reflexivity|vm_compute; reflexivity]. Qed.

(** Nobody hands node 1 its proposal, and node 2 is not handed a vote in the name of
    node 1 or of node 4. *)
Lemma proposer_hears b :
  IntentBatchProposal b ∈ delivered proposer_run → calculate_hash (pb_header b) ≠ calculate_hash (pb_header batch_of_1).
Proof. intros [H|[H|[]%elem_of_nil]%elem_of_cons]%elem_of_cons; discriminate H. Qed.

Lemma follower_hears i v : VelocityVoteMsg v ∈ delivered follower_run → i = 1 ∨ i = 4 → vv_voter_address v = address i → False.
Proof.
  intros [H|[H|[]%elem_of_nil]%elem_of_cons]%elem_of_cons Hi; [discriminate H|].
  assert (v = vote 3 1 batch_of_1) as -> by congruence. destruct Hi as [-> | ->]; vm_compute; discriminate.
Qed.

Lemma elem_by_decision (h : bytes) (hs : gset bytes) : bool_decide (h ∈ hs) = true → h ∈ hs.
Proof. apply bool_decide_eq_true_1. Qed.

Lemma proposer_confirms :
  calculate_hash (pb_header batch_of_1) ∈ processed_optimistic_batches (core_state (node (after (cfg 1) ab env proposer_run))).
Proof. refine (elem_by_decision _ _ _). vm_compute. reflexivity. Qed.

Lemma follower_is_done : tasks (after (cfg 2) ab env follower_run) = [].
Proof. vm_compute. reflexivity. Qed.

Lemma silent_validators_leave_only_the_proposer_witness :
  let h := calculate_hash (pb_header batch_of_1) in
  h ∈ processed_optimistic_batches (core_state (node (after (cfg 1) ab env proposer_run))) ∧
  tasks (after (cfg 2) ab env follower_run) = [] ∧
  (h ∉ processed_optimistic_batches (core_state (node (after (cfg 2) ab env follower_run))) ∧
   ∀ b, b ∈ optimistically_confirmed_batches (core_state (node (after (cfg 2) ab env follower_run))) →
     calculate_hash (pb_header b) ≠ h).
Proof.
  intros h. split; [apply proposer_confirms|]. split; [apply follower_is_done|].
  apply (silent_validators_leave_only_the_proposer (cfg 2) (cfg 1) ab true genesis_qc 0 0 (delivered follower_run) (delivered proposer_run)
    (after (cfg 2) ab env follower_run) (after (cfg 1) ab env proposer_run) {[address 4]} h).
  - apply node_registered. by right.
  - apply node_registered. by left.
  - by vm_compute.
  - apply singleton_subseteq_l, elem_of_dom. vm_compute. by eexists.
  - intros H%elem_of_singleton. vm_compute in H. discriminate H.
  - intros H%elem_of_singleton. vm_compute in H. discriminate H.
  - vm_compute. lia.
  - apply follower_runs.
  - apply proposer_runs.
  - apply proposer_hears.
  - intros v Hv _ _ Ha%elem_of_singleton. exact (follower_hears 4 v Hv ltac:(by right) Ha).
  - intros v Hv _ Ha. destruct (follower_hears 1 v Hv ltac:(by left) Ha).
Defined.
End RoundRuns.
