(* ===== verification/World.v ===== *)
(** * A network of validators ([evice-multi-sequencer/src/consensus/engine.rs])

    The engine of [Consensus], once per honest validator, with a network between
    them that may drop, repeat, delay and reorder messages and make up any message
    but a vote in an honest validator's name; tasks may be aborted.  The votes
    behind a confirmed batch are real. *)

From S2P Require Import Prelude Bytes SeqTypes P2pTypes Committee Consensus ConsensusProps ToyCrypto ConsensusRuns Round.

(** ** What one validator has said *)
Section casts.
Context `{!Crypto} `{!CryptoLaws} `{!Profile} `{!Logging} {C : Type} `{!Lru C} `{!LruLaws C} (cfg : Config).
Context (ab : AddressBook).
Implicit Types (s : Sys (C := C)) (n : Node C) (t : Task) (h : bytes).

Definition voted s h : Prop :=
  ∃ v, BroadcastConsensusMessage (VelocityVoteMsg v) ∈ sent s ∧ vv_batch_hash v = h.

Definition proposed s h : Prop :=
  ∃ b, BroadcastConsensusMessage (IntentBatchProposal b) ∈ sent s ∧ batch_hash_of b = h.

(** A task on its way to send a vote, or to propose. *)
Definition will_say h t : Prop :=
  match t with
  | Proposal_vote b | Proposer_send b => batch_hash_of b = h
  | Proposal_send v => vv_batch_hash v = h
  | _ => False
  end.

Definition known n h : Prop := is_Some (pending_proposals n !! h) ∨ processed n h.

(** The batch a task has built and is about to insert, send or vote for. *)
Definition built_by t : option PayloadBatch :=
  match t with
  | Proposer_insert b | Proposer_send b | Proposer_vote b => Some b
  | _ => None
  end.

(** A batch that [run_proposer_flow] makes. *)
Definition built (b : PayloadBatch) : Prop :=
  ∃ time r qc ps i ph, build_batch cfg time r qc ps i ph = Done b.

(** A vote of this node's own that it has signed. *)
Definition own s (v : VelocityVote) : Prop :=
  vv_voter_address v = my_address cfg ∧ verified ab v ∧ (vv_round_id v, vv_batch_hash v) ∈ signed s.

(** A signer this node may name in a certificate for [h]. *)
Definition signer (D : list ConsensusMessage) s h (a : Address) : Prop :=
  (a = my_address cfg ∧ ∃ r, (r, h) ∈ signed s) ∨
  ∃ v, VelocityVoteMsg v ∈ D ∧ verified ab v ∧ vv_voter_address v = a ∧ vv_batch_hash v = h.

Record casts (D : list ConsensusMessage) s : Prop := {
  casts_sent v : BroadcastConsensusMessage (VelocityVoteMsg v) ∈ sent s → own s v;
  casts_send v : Proposal_send v ∈ tasks s → own s v;
  casts_votes h v : v ∈ votes_of (core_state (node s)) h → signer D s h (vv_voter_address v);
  casts_qc qc a sig : BroadcastConsensusMessage (NewQuorumCertificate qc) ∈ sent s → (a, sig) ∈ qc_signatures qc →
    signer D s (qc_batch_hash qc) a;
  casts_proposed b : BroadcastConsensusMessage (IntentBatchProposal b) ∈ sent s → built b ∧ known (node s) (batch_hash_of b);
  casts_built b t : t ∈ tasks s → built_by t = Some b →
    built b ∧ (t = Proposer_insert b ∨ known (node s) (batch_hash_of b));
}.

(** A batch this node knows of it has voted for or proposed, or a task is about to. *)
Definition says s : Prop :=
  ∀ h, known (node s) h → voted s h ∨ proposed s h ∨ ∃ t, t ∈ tasks s ∧ will_say h t.

(** ** What a section adds *)
Section step.
Context (env : Env) (n n' : Node C) (t : Task) (cmds : list P2pCommand) (ts : list Task).
Context (Hreg : registered cfg ab) (Hstep : task_step cfg env n t = Done (n', cmds, ts)).

Lemma next_votes h v : v ∈ votes_of (core_state n') h →
  v ∈ votes_of (core_state n) h ∨ (vv_voter_address v = my_address cfg ∧ ∃ r, (r, h) ∈ task_signs t) ∨
  (t = Vote_push v ∧ vv_batch_hash v = h).
Proof.
  destruct t; section_cases Hstep; auto; cbn [core_state with_core task_signs].
  - own_vote_of Hreg. rewrite votes_of_push. case_decide; [|auto]. subst h.
    intros [?| ->%list_elem_of_singleton]%elem_of_app; [auto|]. right; left. split; [done|]. eexists. by left.
  - rewrite votes_of_confirm. intros Hv. case_decide; [by apply elem_of_nil in Hv|auto].
  - intros Hv. unfold votes_of in Hv |- *. cbn [velocity_votes with_votes] in Hv. rewrite lookup_insert in Hv.
    case_decide; [|auto]. subst h. auto.
  - intros Hv. unfold votes_of in Hv |- *. cbn [velocity_votes with_votes] in Hv. rewrite lookup_insert in Hv.
    case_decide; [|auto]. subst h. apply elem_of_app in Hv as [?| ->%list_elem_of_singleton]; auto.
  - own_vote_of Hreg. rewrite votes_of_push. case_decide; [|auto]. subst h.
    intros [?| ->%list_elem_of_singleton]%elem_of_app; [auto|]. right; left. split; [done|]. eexists. by left.
Qed.

Lemma next_send v : Proposal_send v ∈ ts →
  vv_voter_address v = my_address cfg ∧ verified ab v ∧ (vv_round_id v, vv_batch_hash v) ∈ task_signs t.
Proof.
  intros Hv. destruct t; section_cases Hstep; try (by apply elem_of_nil in Hv);
    apply list_elem_of_singleton in Hv; simplify_eq.
  match goal with H : own_vote _ _ _ = Done _ |- _ => destruct (own_vote_run _ _ _ _ _ Hreg H) as (? & -> & -> & ?) end.
  split_and!; [done..|]. by left.
Qed.

Lemma next_qc qc a sig : BroadcastConsensusMessage (NewQuorumCertificate qc) ∈ cmds → (a, sig) ∈ qc_signatures qc →
  ∃ v, v ∈ votes_of (core_state n) (qc_batch_hash qc) ∧ vv_voter_address v = a.
Proof.
  intros Hqc Hin. destruct t; section_cases Hstep; try (by apply elem_of_nil in Hqc);
    apply list_elem_of_singleton in Hqc; simplify_eq.
  cbn [certificate qc_signatures] in Hin. apply list_elem_of_fmap in Hin as (v & [= -> ->] & Hv).
  exists v. unfold votes_of. cbn [certificate qc_batch_hash].
  repeat match goal with H : velocity_votes _ !! _ = _ |- _ => rewrite H end. done.
Qed.

Lemma next_known h : known n' h → known n h ∨ ∃ u, u ∈ ts ∧ will_say h u.
Proof.
  unfold known, processed. destruct t; section_cases Hstep; try tauto; intros Hk.
  all: try (destruct Hk as [[x Hx]|?]; [|tauto]; try (rewrite lookup_insert in Hx; case_decide; [|eauto];
    right; eexists; split; [by left|done]); try (apply map_lookup_filter_Some in Hx as [Hx _]; eauto)).
  destruct Hk as [?|[->%elem_of_singleton|?]%elem_of_union]; [tauto| |tauto]. left; left. eauto.
Qed.

Lemma next_say h : will_say h t → (∃ u, u ∈ ts ∧ will_say h u) ∨
  (∃ v, BroadcastConsensusMessage (VelocityVoteMsg v) ∈ cmds ∧ vv_batch_hash v = h) ∨
  (∃ b, BroadcastConsensusMessage (IntentBatchProposal b) ∈ cmds ∧ batch_hash_of b = h).
Proof.
  intros Hs. destruct t; try done; simpl in Hs; section_cases Hstep.
  - own_vote_of Hreg. left. eexists. split; [by left|done].
  - right; left. eexists. split; [by left|done].
  - right; right. eexists. split; [by left|done].
Qed.

Lemma next_proposed b : BroadcastConsensusMessage (IntentBatchProposal b) ∈ cmds → t = Proposer_send b.
Proof.
  intros Hin. destruct t; section_cases Hstep; try (by apply elem_of_nil in Hin);
    apply list_elem_of_singleton in Hin; by simplify_eq.
Qed.

Lemma next_built u b : u ∈ ts → built_by u = Some b →
  (u = Proposer_insert b ∧ built b) ∨
  (built_by t = Some b ∧ (t = Proposer_insert b → known n' (batch_hash_of b))).
Proof.
  intros Hu Hb. destruct t; section_cases Hstep; try (by apply elem_of_nil in Hu);
    apply list_elem_of_singleton in Hu; simplify_eq/=.
  - left. split; [done|]. by do 6 eexists.
  - left. split; [done|]. by do 6 eexists.
  - right. split; [done|]. intros _. left. cbn. rewrite lookup_insert_eq. eauto.
  - right. split; [done|]. done.
Qed.
End step.

(** ** The invariant *)

(** More is delivered, signed and known as time goes on. *)
Lemma own_mono s s' v : (∀ x, x ∈ signed s → x ∈ signed s') → own s v → own s' v.
Proof. intros Hs (? & ? & ?). split_and!; auto. Qed.

Lemma signer_mono D D' s s' h a :
  (∀ msg, msg ∈ D → msg ∈ D') → (∀ x, x ∈ signed s → x ∈ signed s') → signer D s h a → signer D' s' h a.
Proof.
  intros HD Hs [(-> & r & ?)|(v & ? & ? & ? & ?)]; [left; split; [done|]; exists r; auto|right; exists v; auto].
Qed.

Lemma known_keeps env n t n' cmds ts h :
  registered cfg ab → task_step cfg env n t = Done (n', cmds, ts) →
  (∀ confirmed, t = Prune_write confirmed → confirmed ⊆ processed_optimistic_batches (core_state n)) →
  known n h → known n' h.
Proof.
  intros Hreg Hstep Hprune.
  destruct (change_keeps cfg n t n' cmds ts h (section_change cfg ab env n t n' cmds ts Hreg Hstep) Hprune) as (Hp & _ & Hq).
  intros [Hk|Hk]; [destruct (Hq Hk); [by right|by left]|right; auto].
Qed.

Lemma casts_task D s env l1 t l2 n cmds ts :
  registered cfg ab → inv cfg ab s → heard cfg D s → casts D s → tasks s = l1 ++ t :: l2 →
  task_step cfg env (node s) t = Done (n, cmds, ts) →
  casts D (mkSys n (driver s) (l1 ++ ts ++ l2) (sent s ++ cmds) (signed s ++ task_signs t)).
Proof.
  intros Hreg Hinv Hheard [] Hts Hstep. rewrite Hts in *.
  assert (t ∈ l1 ++ t :: l2) as Hin by mem.
  pose proof (inv_tasks _ _ _ Hinv) as Hok. rewrite Hts, Forall_app, Forall_cons in Hok. destruct Hok as (_ & [_ Hok] & _).
  assert (∀ h, known (node s) h → known n h) as Hkeep.
  { intros h. eapply known_keeps; [done..|]. by intros confirmed ->. }
  set (s' := mkSys n (driver s) (l1 ++ ts ++ l2) (sent s ++ cmds) (signed s ++ task_signs t)).
  assert (∀ x, x ∈ signed s → x ∈ signed s') as Hgrow by (intros x; cbn; rewrite elem_of_app; auto).
  assert (∀ h a, signer D s h a → signer D s' h a) as Hsig by (intros h a; by apply signer_mono).
  fold s'. split; unfold s'; cbn [node tasks sent].
  - intros v [?|Hv]%elem_of_app; [by eapply own_mono; eauto|].
    apply (task_sends _ _ _ _ _ _ _ _ Hstep) in Hv as ->. by eapply own_mono; eauto.
  - intros v Hv. assert (Proposal_send v ∈ l1 ++ t :: l2 ∨ Proposal_send v ∈ ts) as [?|Hn] by (revert Hv; mem).
    + by eapply own_mono; eauto.
    + destruct (next_send _ _ _ _ _ _ Hreg Hstep v Hn) as (? & ? & ?). split_and!; [done..|]. cbn. mem.
  - intros h v Hv. destruct (next_votes _ _ _ _ _ _ Hreg Hstep h v Hv) as [?|[(-> & r & ?)|[-> <-]]]; [auto| |].
    + left. split; [done|]. exists r. cbn. mem.
    + right. exists v. split_and!; [|done..]. by eapply (heard_vote _ _ _ Hheard (Vote_push v)); [rewrite Hts|].
  - intros qc a sig [?|Hqc]%elem_of_app Ha; [eauto|].
    destruct (next_qc _ _ _ _ _ _ Hstep qc a sig Hqc Ha) as (v & Hv & <-). auto.
  - intros b [Hb|Hb]%elem_of_app; [destruct (casts_proposed0 b Hb); auto|].
    apply (next_proposed _ _ _ _ _ _ Hstep) in Hb as ->. destruct (casts_built0 b _ Hin eq_refl) as [? [?|?]]; [done|auto].
  - intros b u Hu Hb. assert (u ∈ l1 ++ t :: l2 ∨ u ∈ ts) as [Hold|Hn] by (revert Hu; mem).
    + destruct (casts_built0 b u Hold Hb) as [? [?|?]]; auto.
    + destruct (next_built _ _ _ _ _ _ Hstep u b Hn Hb) as [[-> ?]|[Ht Hk]]; [auto|].
      destruct (casts_built0 b t Hin Ht) as [? [?|?]]; auto.
Qed.

Lemma says_task s env l1 t l2 n cmds ts :
  registered cfg ab → says s → tasks s = l1 ++ t :: l2 → task_step cfg env (node s) t = Done (n, cmds, ts) →
  says (mkSys n (driver s) (l1 ++ ts ++ l2) (sent s ++ cmds) (signed s ++ task_signs t)).
Proof.
  intros Hreg Hsays Hts Hstep h Hk. unfold voted, proposed. cbn [node tasks sent] in *.
  destruct (next_known _ _ _ _ _ _ Hstep h Hk) as [Hold|(u & ? & ?)]; [|right; right; exists u; keep].
  destruct (Hsays h Hold) as [(v & ? & ?)|[(b & ? & ?)|(u & Hu & Hsay)]].
  - left. exists v. keep.
  - right; left. exists b. keep.
  - rewrite Hts in Hu. apply elem_of_app in Hu as [?|[->|?]%elem_of_cons]; [right; right; exists u; keep| |right; right; exists u; keep].
    destruct (next_say _ _ _ _ _ _ Hreg Hstep h Hsay) as [(u & ? & ?)|[(v & ? & ?)|(b & ? & ?)]];
      [right; right; exists u; keep|left; exists v; keep|right; left; exists b; keep].
Qed.

Lemma say_run env n t h : registered cfg ab → will_say h t → task_step cfg env n t ≠ Panicked.
Proof.
  intros Hreg Hs. destruct t; try done; unfold_section; rewrite ?log_hash_calculated; cbn [mbind outcome_bind]; try done.
  by destruct (own_vote_done cfg ab (pb_round batch) (calculate_hash (pb_header batch)) Hreg) as [v ->].
Qed.

(** Steps that say nothing. *)
Lemma casts_more D D' s n d ts :
  casts D s → (∀ msg, msg ∈ D → msg ∈ D') →
  velocity_votes (core_state n) = velocity_votes (core_state (node s)) →
  processed_optimistic_batches (core_state n) = processed_optimistic_batches (core_state (node s)) →
  pending_proposals n = pending_proposals (node s) →
  (∀ t, t ∈ ts → built_by t = None ∧ ∀ v, t ≠ Proposal_send v) →
  casts D' (mkSys n d (tasks s ++ ts) (sent s) (signed s)).
Proof.
  intros [] HD Hv Hp Hq Hts. set (s' := mkSys n d (tasks s ++ ts) (sent s) (signed s)).
  assert (∀ h, known n h ↔ known (node s) h) as Hk by (intros h; unfold known, processed; by rewrite Hp, Hq).
  assert (∀ h a, signer D s h a → signer D' s' h a) as Hsig by (intros h a; by apply signer_mono).
  split; unfold s'; cbn [node tasks sent].
  - auto.
  - intros v Hu. apply elem_of_app in Hu as [?|Hu]; [by apply casts_send0|]. destruct (Hts _ Hu) as [_ Hn]. by destruct (Hn v).
  - intros h v. unfold votes_of. rewrite Hv. auto.
  - eauto.
  - intros b Hb. rewrite Hk. auto.
  - intros b t [?|Ht]%elem_of_app Hb; [rewrite Hk; eauto|]. destruct (Hts _ Ht) as [? _]. congruence.
Qed.

Lemma says_more s n d ts :
  says s → processed_optimistic_batches (core_state n) = processed_optimistic_batches (core_state (node s)) →
  pending_proposals n = pending_proposals (node s) → says (mkSys n d (tasks s ++ ts) (sent s) (signed s)).
Proof.
  intros Hsays Hp Hq h Hk. cbn [node] in Hk. unfold known, processed in Hk. rewrite Hp, Hq in Hk.
  destruct (Hsays h Hk) as [?|[?|(t & ? & ?)]]; [by left|by right; left|]. right; right. exists t. cbn. keep.
Qed.

Lemma casts_fewer D s l1 t l2 :
  casts D s → tasks s = l1 ++ t :: l2 → casts D (mkSys (node s) (driver s) (l1 ++ l2) (sent s) (signed s)).
Proof.
  intros [] Hts. rewrite Hts in *. assert (∀ u, u ∈ l1 ++ l2 → u ∈ l1 ++ t :: l2) as Hsub by (intros u; mem).
  split; cbn [node tasks sent]; eauto.
Qed.

Lemma says_panic s env l1 t l2 :
  registered cfg ab → says s → tasks s = l1 ++ t :: l2 → task_step cfg env (node s) t = Panicked →
  says (mkSys (node s) (driver s) (l1 ++ l2) (sent s) (signed s)).
Proof.
  intros Hreg Hsays Hts Hpanic h Hk. destruct (Hsays h Hk) as [?|[?|(u & Hu & Hs)]]; [by left|by right; left|].
  right; right. exists u. split; [|done]. cbn. rewrite Hts in Hu.
  apply elem_of_app in Hu as [?|[->|?]%elem_of_cons]; [mem| |mem]. by eapply say_run in Hpanic.
Qed.

(** What the driver does, for an invariant that adding quiet tasks preserves. *)
Lemma driver_adds aborts qc0 now D s env ready n d ts :
  registered cfg ab → run cfg ab aborts qc0 now D s → driver_step cfg env ready (node s) (driver s) = Done (n, d, ts) →
  velocity_votes (core_state n) = velocity_votes (core_state (node s)) ∧
  processed_optimistic_batches (core_state n) = processed_optimistic_batches (core_state (node s)) ∧
  pending_proposals n = pending_proposals (node s) ∧ ∀ t, t ∈ ts → built_by t = None ∧ ∀ v, t ≠ Proposal_send v.
Proof.
  intros Hreg Hrun Hstep. pose proof (inv_premature _ _ _ (run_inv _ _ _ _ _ _ _ Hreg Hrun)) as Hpre.
  destruct (driver s) as [|r k|r k]; cbn [driver_step] in Hstep.
  - destruct ready; [apply bind_done in Hstep as (next & _ & Hstep)|]; simplify_eq; split_and!; try done; by intros ? ?%elem_of_nil.
  - simplify_eq. split_and!; try done. by intros ? ?%elem_of_nil.
  - rewrite Hpre, lookup_empty in Hstep. simplify_eq. split_and!; try done. by intros t ->%list_elem_of_singleton.
Qed.

Lemma casts_run aborts qc0 now D s : registered cfg ab → run cfg ab aborts qc0 now D s → casts D s.
Proof.
  intros Hreg Hrun. induction Hrun as [|D s msg source Hrun IH Hauth|D s payload Hrun IH
    |D s env ready n d ts Hrun IH Henv Hstep|D s s' Hrun IH Hstep|D s l1 t l2 _ Hrun IH Hts].
  - split; cbn [node tasks sent sys_new]; try (by intros ? ?%elem_of_nil); try (by intros ? ? ?%elem_of_nil).
    by intros ? ? ? ?%elem_of_nil.
  - apply (casts_more D); [done| |done..|]; [intros m; mem|]. by intros t ->%list_elem_of_singleton.
  - pose proof (casts_more D D s (with_mempool (node s) (mempool (node s) ++ [payload])) (driver s) []) as Hmore.
    rewrite app_nil_r in Hmore. apply Hmore; [done..|]. by intros ? ?%elem_of_nil.
  - destruct (driver_adds _ _ _ _ _ _ _ _ _ _ Hreg Hrun Hstep) as (? & ? & ? & ?). by apply (casts_more D).
  - pose proof (run_inv _ _ _ _ _ _ _ Hreg Hrun) as Hinv. pose proof (heard_run _ _ _ _ _ _ _ Hreg Hrun) as Hheard.
    destruct Hstep; [by eapply casts_task|by eapply casts_fewer].
  - by eapply casts_fewer.
Qed.

Lemma says_run qc0 now D s : registered cfg ab → run cfg ab false qc0 now D s → says s.
Proof.
  intros Hreg Hrun. induction Hrun as [|D s msg source Hrun IH Hauth|D s payload Hrun IH
    |D s env ready n d ts Hrun IH Henv Hstep|D s s' Hrun IH Hstep|]; [..|done].
  - intros h [[x Hx]|Hx]; [done|]. unfold processed in Hx. cbn in Hx. set_solver.
  - by apply says_more.
  - pose proof (says_more s (with_mempool (node s) (mempool (node s) ++ [payload])) (driver s) []) as Hmore.
    rewrite app_nil_r in Hmore. by apply Hmore.
  - destruct (driver_adds _ _ _ _ _ _ _ _ _ _ Hreg Hrun Hstep) as (_ & ? & ? & _). by apply says_more.
  - destruct Hstep; [by eapply says_task|by eapply says_panic].
Qed.

(** A batch is confirmed with its certificate sent. *)
Lemma run_confirmed aborts qc0 now D s h :
  registered cfg ab → run cfg ab aborts qc0 now D s → processed (node s) h →
  ∃ qc, BroadcastConsensusMessage (NewQuorumCertificate qc) ∈ sent s ∧ qc_batch_hash qc = h.
Proof.
  intros Hreg Hrun. induction Hrun as [|D s msg source Hrun IH Hauth|D s payload Hrun IH
    |D s env ready n d ts Hrun IH Henv Hstep|D s s' Hrun IH Hstep|]; [|done|done| | |done].
  - unfold processed. cbn. set_solver.
  - unfold processed in *. cbn [node sent]. by rewrite (driver_keeps_processed _ _ _ _ _ _ _ _ Hstep).
  - destruct Hstep as [s env l1 t l2 n cmds ts _ _ _ Hstep|]; [|done]. intros Hp.
    destruct (change_new cfg _ _ _ _ _ h (section_change cfg ab _ _ _ _ _ _ Hreg Hstep)) as (_ & _ & Hnew).
    destruct (Hnew Hp) as [Hold|(qc & ? & ?)]; [destruct (IH Hold) as (qc & ? & ?)|]; exists qc; cbn; keep.
Qed.
End casts.

(** ** The network *)

(** Of a quorum, more than a third of everybody is honest when less than a third is not. *)
Lemma honest_share (ab : AddressBook) (Q H : gset Address) :
  Q ⊆ dom ab → (required_quorum ab ≤ size Q)%nat → (3 * size (dom ab ∖ H) < size ab)%nat →
  (size ab < 3 * size (Q ∩ H))%nat.
Proof.
  intros Hsub Hq Hf. assert (size Q = size (Q ∩ H) + size (Q ∖ H))%nat as Hsplit.
  { rewrite <-size_union by set_solver. f_equal. apply set_eq. intros x. destruct (decide (x ∈ H)); set_solver. }
  assert (size (Q ∖ H) ≤ size (dom ab ∖ H))%nat by (apply subseteq_size; set_solver).
  unfold required_quorum in Hq. cbv zeta in Hq. case_decide; [lia|].
  pose proof (Nat.div_mod_eq (size ab * 2) 3). pose proof (Nat.mod_upper_bound (size ab * 2) 3). lia.
Qed.

(** An honest validator: what was delivered to it, and its engine. *)
Record Member (C : Type) := mkMember { m_delivered : list ConsensusMessage; m_sys : Sys (C := C) }.
Arguments mkMember {C}.
Arguments m_delivered {C}.
Arguments m_sys {C}.

Section world.
Context `{!Crypto} `{!CryptoLaws} `{!Profile} `{!Logging} {C : Type} `{!Lru C} `{!LruLaws C}.
Context (ab : AddressBook) (cfg : Address → Config) (aborts : bool) (qc0 : QuorumCertificate) (honest : gset Address).

(** Every honest validator runs under its address and is registered. *)
Context (Hcfg : ∀ a, a ∈ honest → my_address (cfg a) = a ∧ registered (cfg a) ab).

Abbreviation World := (gmap Address (Member C)).
Implicit Types (W : World) (m : Member C) (h : bytes).

(** The network makes up no vote of an honest validator. *)
Definition unforged W (msg : ConsensusMessage) : Prop :=
  match msg with
  | VelocityVoteMsg v => verified ab v → ∀ m, W !! vv_voter_address v = Some m →
      (vv_round_id v, vv_batch_hash v) ∈ signed (m_sys m)
  | _ => True
  end.

(** A validator is handed a message or a payload, its driver ticks, or one of its
    tasks runs, or ends early where there are [aborts]. *)
Inductive member_step (c : Config) (may : ConsensusMessage → Prop) : Member C → Member C → Prop :=
| member_deliver D s msg source : may msg →
    member_step c may (mkMember D s)
      (mkMember (D ++ [msg]) (mkSys (node s) (driver s) (tasks s ++ [Message_check msg source]) (sent s) (signed s)))
| member_payload D s payload :
    member_step c may (mkMember D s)
      (mkMember D (mkSys (with_mempool (node s) (mempool (node s) ++ [payload])) (driver s) (tasks s) (sent s) (signed s)))
| member_driver D s env ready n d ts :
    env_keys env ≡ₚ elements (dom (address_book (node s))) → driver_step c env ready (node s) (driver s) = Done (n, d, ts) →
    member_step c may (mkMember D s) (mkMember D (mkSys n d (tasks s ++ ts) (sent s) (signed s)))
| member_task D s s' : task_only c s s' → member_step c may (mkMember D s) (mkMember D s')
| member_abort D s l1 t l2 : aborts = true → tasks s = l1 ++ t :: l2 →
    member_step c may (mkMember D s) (mkMember D (mkSys (node s) (driver s) (l1 ++ l2) (sent s) (signed s))).

Inductive world_step W : World → Prop :=
| world_move a m m' : W !! a = Some m → member_step (cfg a) (unforged W) m m' → world_step W (<[a := m']> W).

Inductive world_reach : World → Prop :=
| world_start W : dom W = honest → (∀ a m, W !! a = Some m → ∃ now, m = mkMember [] (sys_new qc0 now ab)) → world_reach W
| world_next W W' : world_reach W → world_step W W' → world_reach W'.

(** ** Every validator of the network runs as one alone does *)
Lemma member_step_signed c may m m' x : member_step c may m m' → x ∈ signed (m_sys m) → x ∈ signed (m_sys m').
Proof. destruct 1 as [| | |D s s' Ht|]; try done. destruct Ht; cbn; rewrite ?elem_of_app; auto. Qed.

Definition sound W a m : Prop :=
  (∃ now, run (cfg a) ab aborts qc0 now (m_delivered m) (m_sys m)) ∧ ∀ msg, msg ∈ m_delivered m → unforged W msg.

Lemma unforged_step W W' msg : world_step W W' → unforged W msg → unforged W' msg.
Proof.
  intros [a m m' Ha Hm]. destruct msg as [|v|]; [done| |done]. intros Hun Hv m1. rewrite lookup_insert.
  case_decide as Heq; [subst a; intros [= <-]; eapply member_step_signed; [done|by apply Hun]|by apply Hun].
Qed.

Lemma member_step_run W a m m' now :
  a ∈ honest → W !! a = Some m → run (cfg a) ab aborts qc0 now (m_delivered m) (m_sys m) → member_step (cfg a) (unforged W) m m' →
  run (cfg a) ab aborts qc0 now (m_delivered m') (m_sys m').
Proof.
  intros Ha Hm Hrun Hstep. destruct Hstep as [D s msg source Hmay|D s payload|D s env ready n d ts Henv Hd|D s s' Ht|D s l1 t l2 Hab Hts].
  - apply run_deliver; [done|]. destruct msg as [|v|]; [done| |done]. intros Hv Heq.
    apply (Hmay Hv (mkMember D s)). rewrite Heq. by destruct (Hcfg a Ha) as [-> _].
  - by apply run_payload.
  - by eapply run_driver.
  - by eapply run_task.
  - by eapply run_abort.
Qed.

Lemma world_sound W : world_reach W → dom W = honest ∧ ∀ a m, W !! a = Some m → sound W a m.
Proof.
  induction 1 as [W Hdom Hnew|W W' Hr [Hdom IH] Hstep].
  - split; [done|]. intros a m (now & ->)%Hnew. split; [exists now; apply run_new|]. by intros msg ?%elem_of_nil.
  - pose proof (λ msg, unforged_step W W' msg Hstep) as Hun. destruct Hstep as [a m m' Ha Hm].
    assert (a ∈ honest) as Hin by (rewrite <-Hdom; by eapply elem_of_dom_2).
    split; [rewrite dom_insert_L; set_solver|]. intros x mx. rewrite lookup_insert. case_decide as Heq.
    + subst x. intros [= <-]. destruct (IH a m Ha) as [[now Hrun] Hold]. split; [exists now; by eapply member_step_run|].
      destruct Hm; cbn [m_delivered] in *; auto. intros x [?|Hx]%elem_of_app; [auto|].
      apply list_elem_of_singleton in Hx as ->. auto.
    + intros Hx. destruct (IH x mx Hx) as [? Hold]. split; auto.
Qed.

Lemma world_member W a m : world_reach W → W !! a = Some m →
  my_address (cfg a) = a ∧ registered (cfg a) ab ∧ sound W a m.
Proof.
  intros [Hdom Hs]%world_sound Ha. destruct (Hcfg a) as [? ?]; [rewrite <-Hdom; by eapply elem_of_dom_2|]. auto.
Qed.

(** A signer of an honest validator's certificate, when it is honest too, has signed. *)
Lemma signer_signed W a m h x mx :
  world_reach W → W !! a = Some m → signer (cfg a) ab (m_delivered m) (m_sys m) h x → W !! x = Some mx →
  ∃ r, (r, h) ∈ signed (m_sys mx).
Proof.
  intros Hr Ha Hsig Hx. destruct (world_member W a m Hr Ha) as (Hme & _ & _ & Hun).
  destruct Hsig as [(-> & r & Hs)|(v & HD & Hv & <- & <-)].
  - rewrite Hme in Hx. exists r. congruence.
  - exists (vv_round_id v). by apply (Hun _ HD Hv).
Qed.

(** C14. Confirmed batches have honest votes.  Whatever the network does and whichever
    tasks are aborted, behind every batch an honest validator has confirmed there is
    a quorum of validators, of which every honest one has signed a vote for the
    batch; so with less than a third of the validators faulty, more than a third are
    honest and have voted for it. *)
Theorem confirmed_batches_have_honest_votes W a m h :
  world_reach W → W !! a = Some m → h ∈ processed_optimistic_batches (core_state (node (m_sys m))) →
  ∃ Q : gset Address, Q ⊆ dom ab ∧ (required_quorum ab ≤ size Q)%nat ∧
    (∀ x mx, x ∈ Q → W !! x = Some mx → ∃ r, (r, h) ∈ signed (m_sys mx)) ∧
    (3 * size (dom ab ∖ dom W) < size ab → size ab < 3 * size (Q ∩ dom W))%nat.
Proof.
  intros Hr Ha Hp. destruct (world_member W a m Hr Ha) as (Hme & Hreg & [now Hrun] & _).
  destruct (run_confirmed (cfg a) ab aborts qc0 now (m_delivered m) (m_sys m) h Hreg Hrun Hp) as (qc & Hqc & <-).
  destruct (inv_sent _ _ _ (run_inv _ _ _ _ _ _ _ Hreg Hrun) qc Hqc) as (Hnd & Hlen & Hver).
  set (Q := list_to_set (qc_signatures qc).*1 : gset Address). exists Q.
  assert (size Q = length (qc_signatures qc)) as HQ by (unfold Q; rewrite size_list_to_set by done; by rewrite length_fmap).
  assert (Q ⊆ dom ab) as Hsub.
  { intros x [[y sig] [-> Hx]]%elem_of_list_to_set%list_elem_of_fmap. rewrite Forall_forall in Hver.
    destruct (Hver _ Hx) as [r Hv]. by eapply verify_vote_member. }
  split_and!; [done|by rewrite HQ| |].
  - intros x mx [[y sig] [-> Hx]]%elem_of_list_to_set%list_elem_of_fmap Hmx.
    eapply (signer_signed W a m); [done|done| |done]. exact (casts_qc _ _ _ _ (casts_run _ _ _ _ _ _ _ Hreg Hrun) qc _ _ Hqc Hx).
  - intros Hfaulty. apply honest_share; [done|by rewrite HQ|done].
Qed.
End world.
