(* ===== verification/NetworkRound.v ===== *)
(** * A round of the whole network ([evice-multi-sequencer/src/consensus/engine.rs])

    When the network hands every broadcast to everybody and no task is aborted, the
    honest validators of [World] come to rest, and at rest every batch that one of
    them has proposed is confirmed on all of them.  The bound on their number is
    sharp: [silent_validators_leave_only_the_proposer] of [Round]. *)

From S2P Require Import Prelude Bytes SeqTypes P2pTypes Committee Consensus ConsensusProps ToyCrypto ConsensusRuns Round World.

(** ** Sums over a map *)
Section total.
Context {K A : Type} `{Countable K}.
Implicit Types (f g : A → nat) (M : gmap K A).

Definition total f M : nat := sum_list_with (f ∘ snd) (map_to_list M).

Lemma total_insert_new f M k x : M !! k = None → total f (<[k := x]> M) = (f x + total f M)%nat.
Proof. intros Hk. unfold total. by rewrite map_to_list_insert. Qed.

Lemma total_insert f M k x y : M !! k = Some x → (total f (<[k := y]> M) + f x = total f M + f y)%nat.
Proof.
  intros Hk. rewrite <-(insert_delete_id M k x Hk) at 2. rewrite <-insert_delete_eq.
  rewrite !total_insert_new by apply lookup_delete_eq. lia.
Qed.

Lemma total_le f g M : (∀ x, f x ≤ g x)%nat → (total f M ≤ total g M)%nat.
Proof. intros Hle. unfold total. induction (map_to_list M) as [|[k x] l IH]; cbn; [done|]. specialize (Hle x). lia. Qed.

Lemma total_ext f g M : (∀ x, f x = g x) → total f M = total g M.
Proof. intros Heq. apply Nat.le_antisymm; apply total_le; intros x; by rewrite Heq. Qed.

Lemma total_plus f M c : total (λ x, (f x + c)%nat) M = (total f M + size M * c)%nat.
Proof.
  unfold total. rewrite <-length_map_to_list. induction (map_to_list M) as [|[k x] l IH]; cbn; [done|].
  cbn in IH. rewrite IH. lia.
Qed.

(** A summand that goes down takes the sum with it. *)
Lemma total_drop f g M k x c :
  M !! k = Some x → (∀ y, f y ≤ g y)%nat → (f x + c ≤ g x)%nat → (total f M + c ≤ total g M)%nat.
Proof.
  intros Hk Hle Hx. rewrite <-(insert_delete_id M k x Hk), !total_insert_new by apply lookup_delete_eq.
  pose proof (total_le f g (delete k M) Hle). lia.
Qed.
End total.

(** ** The network comes to rest *)
Section rest.
Context `{!Crypto} `{!CryptoLaws} `{!Profile} `{!Logging} {C : Type} `{!Lru C} `{!LruLaws C}.
Context (ab : AddressBook) (cfg : Address → Config) (qc0 : QuorumCertificate) (honest : gset Address).
Context (Hcfg : ∀ a, a ∈ honest → my_address (cfg a) = a ∧ registered (cfg a) ab).

Abbreviation World := (gmap Address (Member C)).
Implicit Types (W : World) (m : Member C) (D : list ConsensusMessage).

Definition broadcasts m (msg : ConsensusMessage) : Prop := BroadcastConsensusMessage msg ∈ sent (m_sys m).

(** A task runs, or a message of another validator arrives that had not. *)
Inductive work W : World → Prop :=
| work_task a D s s' : W !! a = Some (mkMember D s) → task_only (cfg a) s s' → work W (<[a := mkMember D s']> W)
| work_deliver a D s x m msg source :
    W !! a = Some (mkMember D s) → W !! x = Some m → x ≠ a → broadcasts m msg → msg ∉ D →
    work W (<[a := mkMember (D ++ [msg])
      (mkSys (node s) (driver s) (tasks s ++ [Message_check msg source]) (sent s) (signed s))]> W).

(** Nothing is left to do. *)
Definition at_rest W : Prop :=
  ∀ a m, W !! a = Some m → tasks (m_sys m) = [] ∧
    ∀ x mx msg, W !! x = Some mx → x ≠ a → broadcasts mx msg → msg ∈ m_delivered m.

Lemma work_step W W' : world_reach ab cfg false qc0 honest W → work W W' → world_step ab cfg false W W'.
Proof.
  intros Hr [a D s s' Ha Ht|a D s x m msg source Ha Hx Hne Hm HD]; eapply world_move; [done|by apply member_task|done|].
  apply member_deliver. destruct msg as [|v|]; [done| |done]. intros _ m'.
  destruct (world_member ab cfg false qc0 honest Hcfg W x m Hr Hx) as (Hme & Hreg & [now Hrun] & _).
  destruct (casts_sent _ _ _ _ (casts_run _ _ _ _ _ _ _ Hreg Hrun) v Hm) as (Hv & _ & Hs).
  rewrite Hv, Hme, Hx. by intros [= <-].
Qed.

Lemma work_reach W W' : world_reach ab cfg false qc0 honest W → rtc work W W' → world_reach ab cfg false qc0 honest W'.
Proof. intros Hr Hw. induction Hw as [|W W1 W2 Hw _ IH]; [done|]. apply IH. eapply world_next; [done|by apply work_step]. Qed.

(** *** The measure *)

(** The broadcasts a task may still make, of certificates, votes and proposals,
    where each is work for [k] validators. *)
Section measure.
Context (k : nat).

Definition certificates : nat := k * 12.
Definition votes : nat := k * (12 + certificates).
Definition proposals : nat := k * (12 + (certificates + votes)).

Definition message_extra (msg : ConsensusMessage) : nat :=
  match msg with
  | IntentBatchProposal _ => certificates + votes
  | VelocityVoteMsg _ => certificates
  | NewQuorumCertificate _ => 0
  end.

Definition extra (t : Task) : nat :=
  match t with
  | Message_check msg _ | Message_put msg _ => message_extra msg
  | Proposal_verify _ | Proposal_insert _ | Proposal_vote _ | Proposal_send _ => certificates + votes
  | Vote_seen _ | Vote_verify _ | Vote_push _ | Votes_quorum _ | Votes_count _ _ | Proposer_vote _ => certificates
  | Prune_read | Prune_write _ | Qc_verify _ _ | Qc_update _ _ | Qc_stale _ _ | Qc_request _ _ => 0
  | Step_read _ _ | Step_elect _ _ _ | Proposer_parent _ | Proposer_drain _ _ | Proposer_prev _ _ _
  | Proposer_insert _ | Proposer_send _ => certificates + proposals
  end.

Definition weight (t : Task) : nat := rest t + extra t.

Definition cost (c : P2pCommand) : nat :=
  match c with BroadcastConsensusMessage msg => 12 + message_extra msg | _ => 0 end.

Lemma weight_decreases c env (n : Node C) t n' cmds ts :
  task_step c env n t = Done (n', cmds, ts) → (sum_list_with weight ts + k * sum_list_with cost cmds < weight t)%nat.
Proof.
  intros Hstep. destruct t; section_cases Hstep; unfold weight, broadcast; cbn [sum_list_with rest extra message_extra cost];
    unfold proposals, votes, certificates; lia.
Qed.

Lemma weight_pos t : (0 < weight t)%nat.
Proof. unfold weight. destruct t; cbn; lia. Qed.

(** The messages among some commands that are not among those delivered. *)
Definition miss D (c : P2pCommand) : nat :=
  match c with BroadcastConsensusMessage msg => if decide (msg ∈ D) then 0 else cost c | _ => 0 end.

Definition bag W D : nat := total (λ m, sum_list_with (miss D) (sent (m_sys m))) W.

Definition missing W : nat := total (λ m, bag W (m_delivered m)) W.

Definition to_do W : nat := total (λ m, sum_list_with weight (tasks (m_sys m))) W + missing W.
End measure.

(** *** Every step is less to do *)
Section less.
Context (k : nat).

Lemma miss_le D c : (miss k D c ≤ cost k c)%nat.
Proof. destruct c; cbn; try lia. case_decide; lia. Qed.

Lemma sum_list_with_le {A} (f g : A → nat) l : (∀ x, f x ≤ g x)%nat → (sum_list_with f l ≤ sum_list_with g l)%nat.
Proof. intros Hle. induction l as [|x l IH]; cbn; [done|]. specialize (Hle x). lia. Qed.

(** A message that is delivered is missing no more. *)
Lemma miss_deliver D msg c : (miss k (D ++ [msg]) c ≤ miss k D c)%nat.
Proof. destruct c; cbn; try lia. repeat case_decide; set_solver by lia. Qed.

Lemma miss_sent D msg cs :
  BroadcastConsensusMessage msg ∈ cs → msg ∉ D →
  (sum_list_with (miss k (D ++ [msg])) cs + cost k (BroadcastConsensusMessage msg) ≤ sum_list_with (miss k D) cs)%nat.
Proof.
  intros Hin HD. apply list_elem_of_split in Hin as (l1 & l2 & ->). rewrite !sum_list_with_app. cbn [sum_list_with].
  pose proof (sum_list_with_le _ _ l1 (miss_deliver D msg)). pose proof (sum_list_with_le _ _ l2 (miss_deliver D msg)).
  assert (miss k (D ++ [msg]) (BroadcastConsensusMessage msg) = 0%nat) as -> by (cbn; by rewrite decide_True by set_solver).
  assert (miss k D (BroadcastConsensusMessage msg) = cost k (BroadcastConsensusMessage msg)) as -> by (cbn; by rewrite decide_False).
  lia.
Qed.

(** What one validator sends is missing on at most everybody. *)
Lemma bag_sends W a D s s' cmds D' :
  W !! a = Some (mkMember D s) → sent s' = sent s ++ cmds →
  (bag k (<[a := mkMember D s']> W) D' ≤ bag k W D' + sum_list_with (cost k) cmds)%nat.
Proof.
  intros Ha Hs. pose proof (total_insert (λ m, sum_list_with (miss k D') (sent (m_sys m))) W a _ (mkMember D s') Ha) as Heq.
  cbn [m_sys] in Heq. rewrite Hs, sum_list_with_app in Heq. unfold bag.
  pose proof (sum_list_with_le _ _ cmds (miss_le D')). lia.
Qed.

Lemma missing_sends W a D s s' cmds :
  W !! a = Some (mkMember D s) → sent s' = sent s ++ cmds →
  (missing k (<[a := mkMember D s']> W) ≤ missing k W + size W * sum_list_with (cost k) cmds)%nat.
Proof.
  intros Ha Hs. set (W' := <[a := mkMember D s']> W). unfold missing.
  pose proof (total_insert (λ m, bag k W' (m_delivered m)) W a _ (mkMember D s') Ha) as Heq. cbn [m_delivered] in Heq.
  fold W' in Heq. rewrite <-total_plus.
  pose proof (total_le (λ m, bag k W' (m_delivered m)) (λ m, bag k W (m_delivered m) + sum_list_with (cost k) cmds)%nat W) as Hle.
  assert (∀ D', bag k W' D' ≤ bag k W D' + sum_list_with (cost k) cmds)%nat as Hb by (intros D'; by apply (bag_sends W a D s)).
  specialize (Hle (λ m, Hb _)). lia.
Qed.

Lemma bag_keeps W a m m' D : W !! a = Some m → sent (m_sys m') = sent (m_sys m) → bag k (<[a := m']> W) D = bag k W D.
Proof.
  intros Ha Hs. pose proof (total_insert (λ m, sum_list_with (miss k D) (sent (m_sys m))) W a m m' Ha) as Heq.
  cbn beta in Heq. rewrite Hs in Heq. unfold bag. lia.
Qed.

Lemma missing_deliver W a D s s' x m msg :
  W !! a = Some (mkMember D s) → W !! x = Some m → broadcasts m msg → msg ∉ D → sent s' = sent s →
  (missing k (<[a := mkMember (D ++ [msg]) s']> W) + cost k (BroadcastConsensusMessage msg) ≤ missing k W)%nat.
Proof.
  intros Ha Hx Hm HD Hs. set (W' := <[a := mkMember (D ++ [msg]) s']> W). unfold missing.
  rewrite (total_ext _ (λ m, bag k W (m_delivered m)) W') by (intros m'; by apply (bag_keeps W a (mkMember D s))).
  pose proof (total_insert (λ m, bag k W (m_delivered m)) W a _ (mkMember (D ++ [msg]) s') Ha) as Heq.
  cbn [m_delivered] in Heq. fold W' in Heq.
  enough (bag k W (D ++ [msg]) + cost k (BroadcastConsensusMessage msg) ≤ bag k W D)%nat by lia.
  apply (total_drop _ _ W x m); [done| |by apply miss_sent]. intros m'. apply sum_list_with_le, miss_deliver.
Qed.
End less.

Lemma work_less W W' : work W W' → size W' = size W ∧ (to_do (size W) W' < to_do (size W) W)%nat.
Proof.
  intros Hw. set (k := size W). destruct Hw as [a D s s' Ha Ht|a D s x m msg source Ha Hx Hne Hm HD];
    (split; [by rewrite map_size_insert, Ha|]); unfold to_do;
    pose proof (λ m', total_insert (λ m, sum_list_with (weight k) (tasks (m_sys m))) W a _ m' Ha) as Htasks;
    cbn [m_sys] in Htasks.
  - destruct Ht as [s env l1 t l2 n cmds ts _ Hts _ Hrun|s env l1 t l2 _ Hts _ _];
      rewrite Hts, sum_list_with_app in Htasks; cbn [sum_list_with] in Htasks.
    + set (s' := mkSys _ _ _ _ _). pose proof (missing_sends k W a D s s' cmds Ha eq_refl) as Hmiss.
      apply (weight_decreases k) in Hrun. specialize (Htasks (mkMember D s')). cbn [m_sys] in Htasks.
      cbn [tasks s'] in Htasks. rewrite !sum_list_with_app in Htasks. fold k in Hmiss. lia.
    + set (s' := mkSys _ _ _ _ _). pose proof (missing_sends k W a D s s' [] Ha) as Hmiss.
      cbn [sent s'] in Hmiss. rewrite app_nil_r in Hmiss. specialize (Hmiss eq_refl). cbn [sum_list_with] in Hmiss.
      specialize (Htasks (mkMember D s')). cbn [m_sys tasks s'] in Htasks. rewrite !sum_list_with_app in Htasks.
      pose proof (weight_pos k t). lia.
  - set (s' := mkSys _ _ _ _ _). pose proof (missing_deliver k W a D s s' x m msg Ha Hx Hm HD eq_refl) as Hmiss.
    specialize (Htasks (mkMember (D ++ [msg]) s')). cbn [m_sys tasks s'] in Htasks.
    rewrite sum_list_with_app in Htasks. cbn [sum_list_with] in Htasks.
    assert (weight k (Message_check msg source) = 11 + message_extra k msg)%nat by done. cbn [cost] in Hmiss. lia.
Qed.

Lemma work_ends W : sn work W.
Proof.
  remember (size W) as k eqn:Hk. remember (to_do k W) as i eqn:Hi. revert W Hk Hi.
  induction (lt_wf i) as [i _ IH]; intros W -> ->.
  constructor. intros W' [Hsize Hless]%work_less. eapply IH; [exact Hless|done|done].
Qed.

(** ** There is work until everything is done *)
Definition arrived D (c : P2pCommand) : Prop :=
  match c with BroadcastConsensusMessage msg => msg ∈ D | _ => True end.

#[local] Instance arrived_dec D c : Decision (arrived D c).
Proof. destruct c; cbn; apply _. Defined.

Lemma not_arrived D cs : ¬ Forall (arrived D) cs → ∃ msg, BroadcastConsensusMessage msg ∈ cs ∧ msg ∉ D.
Proof. intros (c & Hc & Hn)%not_Forall_Exists%Exists_exists; [|apply _]. destruct c; cbn in Hn; try done. eauto. Qed.

Lemma work_progress W :
  (∀ a m, W !! a = Some m → Forall (fresh_header (m_sys m)) (tasks (m_sys m))) → at_rest W ∨ ∃ W', work W W'.
Proof.
  intros Hfresh.
  destruct (decide (map_Forall (λ _ m, tasks (m_sys m) = []) W)) as [Htasks|(a & [D s] & Ha & Hne)%map_not_Forall]; [| |apply _].
  2:{ right. destruct (task_only_progress (cfg a) s Hne (Hfresh _ _ Ha)) as [s' Hs']. eexists. by eapply work_task. }
  set (P (a : Address) m (x : Address) (mx : Member C) := x ≠ a → Forall (arrived (m_delivered m)) (sent (m_sys mx))).
  destruct (decide (map_Forall (λ a m, map_Forall (P a m) W) W)) as [Hall|(a & [D s] & Ha & Hn)%map_not_Forall]; [| |apply _].
  - left. intros a m Ha. split; [by apply (Htasks a)|]. intros x mx msg Hx Hne Hmsg.
    pose proof (Hall a m Ha x mx Hx Hne) as Harr. rewrite Forall_forall in Harr. exact (Harr _ Hmsg).
  - right. apply map_not_Forall in Hn as (x & mx & Hx & Hn); [|apply _].
    destruct (decide (x = a)) as [->|Hne]; [destruct Hn; by intros ?|].
    destruct (not_arrived D (sent (m_sys mx))) as (msg & ? & ?); [intros Harr; apply Hn; by intros _|].
    eexists. by eapply (work_deliver W a D s x mx msg "peer").
Qed.

(** ** At rest a proposed batch is confirmed *)

(** What was broadcast stays so. *)
Lemma work_broadcasts W W' a m msg :
  rtc work W W' → W !! a = Some m → broadcasts m msg → size W' = size W ∧ ∃ m', W' !! a = Some m' ∧ broadcasts m' msg.
Proof.
  intros Hw. revert m. induction Hw as [W|W W1 W2 Hstep _ IH]; intros m Ha Hm; [eauto|].
  assert (∃ m1, W1 !! a = Some m1 ∧ broadcasts m1 msg) as (m1 & Ha1 & Hm1).
  { destruct Hstep as [x D s s' Hx Ht|x D s y my msg' source Hx _ _ _ _]; rewrite lookup_insert; case_decide as Heq; eauto;
      subst x; rewrite Ha in Hx; simplify_eq; eexists; (split; [done|]); [|done].
    destruct Ht; unfold broadcasts in *; cbn in *; [apply elem_of_app; by left|done]. }
  destruct (IH m1 Ha1 Hm1) as [-> Hend]. split; [by apply work_less|done].
Qed.

(** Elements with a property, one for each of some values. *)
Lemma pick_each {A B} (f : A → B) (P : A → Prop) (l : list B) :
  (∀ y, y ∈ l → ∃ x, f x = y ∧ P x) → ∃ xs, f <$> xs = l ∧ ∀ x, x ∈ xs → P x.
Proof.
  induction l as [|y l IH]; intros Hl; [exists []; split; [done|]; by intros x ?%elem_of_nil|].
  destruct (Hl y) as (x & <- & Hx); [by left|]. destruct IH as (xs & <- & Hxs); [intros z Hz; apply Hl; by right|].
  exists (x :: xs). split; [done|]. intros z [->|?]%elem_of_cons; auto.
Qed.

Lemma size_add (x : Address) (X : gset Address) : (size ({[x]} ∪ X) ≤ S (size X))%nat.
Proof.
  rewrite size_union_alt, size_singleton. pose proof (subseteq_size (X ∖ {[x]}) X ltac:(set_solver)). lia.
Qed.

Lemma size_without_two (X : gset Address) a p : (size X ≤ S (S (size (X ∖ {[a; p]}))))%nat.
Proof.
  assert (X ⊆ {[a]} ∪ ({[p]} ∪ X ∖ {[a; p]})) as Hsub.
  { intros x Hx. destruct (decide (x = a)), (decide (x = p)); set_solver. }
  apply subseteq_size in Hsub. pose proof (size_add a ({[p]} ∪ X ∖ {[a; p]})). pose proof (size_add p (X ∖ {[a; p]})). lia.
Qed.

Section settled.
Context (W : World) (p : Address) (mp : Member C) (b : PayloadBatch).
Context (Hr : world_reach ab cfg false qc0 honest W) (Hq : at_rest W).
Context (Hdist : ∀ a m, W !! a = Some m → distinct_hashes (m_delivered m)).
Context (Hp : W !! p = Some mp) (Hb : broadcasts mp (IntentBatchProposal b)) (Hvrf : vrf_registered (cfg p) ab).
Context (Hone : ∀ a m b', W !! a = Some m → broadcasts m (IntentBatchProposal b') →
  batch_hash_of b' = batch_hash_of b → pb_header b' = pb_header b).

Lemma proposed_built a m b' : W !! a = Some m → broadcasts m (IntentBatchProposal b') →
  h_authority (pb_header b') = a ∧ (vrf_registered (cfg a) ab → verify_batch_signature ab (pb_header b') = true) ∧
  known (node (m_sys m)) (batch_hash_of b').
Proof.
  intros Ha Hm. destruct (world_member ab cfg false qc0 honest Hcfg W a m Hr Ha) as (Hme & Hreg & [now Hrun] & _).
  destruct (casts_proposed _ _ _ _ (casts_run _ _ _ _ _ _ _ Hreg Hrun) b' Hm) as [(t & r & qc & ps & i & ph & Hbuild) Hk].
  destruct (build_batch_done (cfg a) ab _ _ _ _ _ _ _ Hbuild) as (_ & _ & _ & _ & _ & Hauth & _ & Hver).
  split_and!; [congruence|auto|done].
Qed.

Lemma settled_known a m : W !! a = Some m → known (node (m_sys m)) (batch_hash_of b).
Proof.
  intros Ha. destruct (decide (p = a)) as [->|Hne].
  { rewrite Hp in Ha. simplify_eq. by apply (proposed_built a). }
  destruct (world_member ab cfg false qc0 honest Hcfg W a m Hr Ha) as (Hme & Hreg & [now Hrun] & _). destruct (Hq a m Ha) as [Hend Hall].
  pose proof (owes_run (cfg a) ab qc0 now (batch_hash_of b) _ _ Hreg (length_calculate_hash _) (Hdist a m Ha) Hrun) as Howes.
  destruct (proposed_built p mp b Hp Hb) as (_ & Hver & _).
  destruct (owes_delivered _ _ _ _ _ Howes (IntentBatchProposal b)) as [[?|?]|(u & Hu & _)];
    [by apply (Hall p mp)|split; auto|by right|by left|]. rewrite Hend in Hu. by apply elem_of_nil in Hu.
Qed.

(** Everybody but the proposer has broadcast its vote. *)
Lemma settled_vote a m : W !! a = Some m → a ≠ p →
  ∃ v, vv_voter_address v = a ∧ broadcasts m (VelocityVoteMsg v) ∧ verified ab v ∧ vv_batch_hash v = batch_hash_of b.
Proof.
  intros Ha Hne. destruct (world_member ab cfg false qc0 honest Hcfg W a m Hr Ha) as (Hme & Hreg & [now Hrun] & _).
  pose proof (casts_run _ _ _ _ _ _ _ Hreg Hrun) as Hcasts.
  destruct (says_run _ _ _ _ _ _ Hreg Hrun _ (settled_known a m Ha)) as [(v & Hv & Hh)|[(b' & Hb' & Hh)|(t & Ht & _)]].
  - destruct (casts_sent _ _ _ _ Hcasts v Hv) as (? & ? & _). exists v. split_and!; [congruence|done..].
  - destruct (proposed_built a m b' Ha Hb') as (Ha' & _). destruct (proposed_built p mp b Hp Hb) as (Hp' & _).
    rewrite (Hone a m b' Ha Hb' Hh) in Ha'. congruence.
  - destruct (Hq a m Ha) as [Hend _]. rewrite Hend in Ht. by apply elem_of_nil in Ht.
Qed.

Lemma settled_confirmed a m : (required_quorum ab < size W)%nat → W !! a = Some m → processed (node (m_sys m)) (batch_hash_of b).
Proof.
  intros Hquorum Ha. destruct (world_member ab cfg false qc0 honest Hcfg W a m Hr Ha) as (Hme & Hreg & [now Hrun] & _).
  destruct (Hq a m Ha) as [Hend Hall].
  destruct (pick_each vv_voter_address (λ v, VelocityVoteMsg v ∈ m_delivered m ∧ verified ab v ∧ vv_batch_hash v = batch_hash_of b)
    (elements (dom W ∖ {[a; p]}))) as (vs & Hvs & Hin).
  { intros x Hx%elem_of_elements. assert (x ∈ dom W) as [mx Hmx]%elem_of_dom by set_solver.
    destruct (settled_vote x mx Hmx) as (v & Hv & Hs & ? & ?); [set_solver|]. exists v. split_and!; [done| |done..].
    eapply Hall; [done|set_solver|done]. }
  eapply (settled_confirms (cfg a) ab); [done|done|by eapply Hdist|apply length_calculate_hash|done| |exact Hin|..].
  - exact (settled_known a m Ha).
  - rewrite Hvs, Hme. constructor; [rewrite elem_of_elements; set_solver|apply NoDup_elements].
  - rewrite <-(length_fmap vv_voter_address vs), Hvs. change (length (elements ?X)) with (size X).
    pose proof (size_without_two (dom W) a p) as Hsize. rewrite size_dom in Hsize. lia.
Qed.
End settled.

End rest.

(** ** A scheduler that works until nothing is left *)
Section settle.
Context `{!Crypto} `{!CryptoLaws} `{!Profile} `{!Logging} {C : Type} `{!Lru C} `{!LruLaws C}.
Context (ab : AddressBook) (cfg : Address → Config) (qc0 : QuorumCertificate) (honest : gset Address) (env : Env).
Context (Hcfg : ∀ a, a ∈ honest → my_address (cfg a) = a ∧ registered (cfg a) ab).
Context (Henv : env_keys env ≡ₚ elements (dom ab)).
Implicit Types (W : gmap Address (Member C)) (D : list ConsensusMessage).

(** The first task of a validator. *)
Definition run_first W (e : Address * Member C) : option (gmap Address (Member C)) :=
  s ← choose (cfg e.1) env (Work 0) (m_sys e.2); Some (<[e.1 := mkMember (m_delivered e.2) s]> W).

(** What one validator has sent that another has not been handed. *)
Definition undelivered W (e : Address * Member C) : list ConsensusMessage :=
  '(x, m) ← map_to_list W;
  if decide (x = e.1) then []
  else omap (λ c, match c with
                  | BroadcastConsensusMessage msg => if decide (msg ∈ m_delivered e.2) then None else Some msg
                  | _ => None
                  end) (sent (m_sys m)).

Definition hand_first W (e : Address * Member C) : option (gmap Address (Member C)) :=
  msg ← head (undelivered W e);
  let s := m_sys e.2 in
  Some (<[e.1 := mkMember (m_delivered e.2 ++ [msg])
    (mkSys (node s) (driver s) (tasks s ++ [Message_check msg "peer"]) (sent s) (signed s))]> W).

Fixpoint first_some {A B} (f : A → option B) (l : list A) : option B :=
  match l with
  | [] => None
  | x :: l => match f x with Some y => Some y | None => first_some f l end
  end.

Definition settle_step W : option (gmap Address (Member C)) :=
  match first_some (run_first W) (map_to_list W) with
  | Some W' => Some W'
  | None => first_some (hand_first W) (map_to_list W)
  end.

Fixpoint settle (fuel : nat) W : gmap Address (Member C) :=
  match fuel with
  | O => W
  | S fuel => match settle_step W with Some W' => settle fuel W' | None => W end
  end.

Lemma first_some_Some {A B} (f : A → option B) l y : first_some f l = Some y → ∃ x, x ∈ l ∧ f x = Some y.
Proof.
  induction l as [|x l IH]; cbn; [done|]. destruct (f x) eqn:Hx; [intros [= <-]; exists x; set_solver|].
  intros (z & ? & ?)%IH. exists z. set_solver.
Qed.

Lemma settle_step_work W W' : world_reach ab cfg false qc0 honest W → settle_step W = Some W' → work cfg W W'.
Proof.
  intros Hr. unfold settle_step. case_match eqn:Hrun.
  - intros [= ->]. apply first_some_Some in Hrun as ([a [D s]] & Ha%elem_of_map_to_list & Hs).
    unfold run_first in Hs. cbn [fst snd m_sys m_delivered] in Hs.
    destruct (choose _ _ _ _) as [s'|] eqn:Hc; [|done]. injection Hs as <-. apply work_task with s; [done|].
    destruct (world_member ab cfg false qc0 honest Hcfg W a _ Hr Ha) as (_ & Hreg & [now Hrun] & _).
    pose proof (inv_book _ _ _ (run_inv _ _ _ _ _ _ _ Hreg Hrun)) as Hbook. cbn [m_sys] in Hbook.
    apply (choose_work _ env 0); [by rewrite Hbook|done].
  - intros ([a [D s]] & Ha%elem_of_map_to_list & Hs)%first_some_Some. unfold hand_first in Hs.
    destruct (undelivered W _) as [|msg l] eqn:Hu; [done|]. injection Hs as <-. cbn [fst snd m_sys m_delivered].
    assert (msg ∈ undelivered W (a, mkMember D s)) as Hm by (rewrite Hu; by left).
    apply list_elem_of_bind in Hm as ([x m] & Hm & Hx%elem_of_map_to_list). cbn in Hm. case_decide as Hne; [by apply elem_of_nil in Hm|].
    apply list_elem_of_omap in Hm as (c & Hc & Hm). destruct c; try done. case_decide; [done|]. injection Hm as ->.
    by apply (work_deliver cfg W a D s x m).
Qed.

Lemma settle_work fuel W : world_reach ab cfg false qc0 honest W → rtc (work cfg) W (settle fuel W).
Proof.
  revert W. induction fuel as [|fuel IH]; intros W Hr; cbn; [done|]. case_match eqn:Hs; [|done].
  apply (settle_step_work W) in Hs; [|done]. eapply rtc_l; [done|]. apply IH.
  eapply world_next; [done|]. by apply (work_step ab cfg qc0 honest Hcfg).
Qed.

(** Whether nothing is left to do, the hashes of what was delivered are distinct,
    and no proposal has the header hash of another batch. *)
Definition rested W (e : Address * Member C) : bool :=
  bool_decide (tasks (m_sys e.2) = []) && bool_decide (undelivered W e = []).

Definition no_collision (b : PayloadBatch) (e : Address * Member C) : bool :=
  bool_decide (NoDup (consensus_message_hash <$> m_delivered e.2)) &&
  forallb (λ c, match c with
                | BroadcastConsensusMessage (IntentBatchProposal b') => bool_decide (pb_header b' = pb_header b)
                | _ => true
                end) (sent (m_sys e.2)).

Definition for_each (f : Address * Member C → bool) W : bool := forallb f (map_to_list W).

Lemma for_each_spec f W a m : for_each f W = true → W !! a = Some m → f (a, m) = true.
Proof.
  unfold for_each. rewrite forallb_forall. intros Hf Ha%elem_of_map_to_list. by apply Hf, list_elem_of_In.
Qed.

Lemma rested_at_rest W : for_each (rested W) W = true → at_rest W.
Proof.
  intros Hf a m Ha. pose proof (for_each_spec _ _ _ _ Hf Ha) as Hr. unfold rested in Hr.
  apply andb_prop in Hr as [Ht%bool_decide_eq_true Hu%bool_decide_eq_true]. split; [done|].
  intros x mx msg Hx Hne Hm. destruct (decide (msg ∈ m_delivered m)) as [?|Hno]; [done|].
  assert (msg ∈ undelivered W (a, m)) as Hin; [|rewrite Hu in Hin; by apply elem_of_nil in Hin].
  apply list_elem_of_bind. exists (x, mx). split; [|by apply elem_of_map_to_list]. rewrite decide_False by done.
  apply list_elem_of_omap. exists (BroadcastConsensusMessage msg). split; [exact Hm|]. by rewrite decide_False.
Qed.

Lemma no_collision_spec b W : for_each (no_collision b) W = true →
  (∀ a m, W !! a = Some m → distinct_hashes (m_delivered m)) ∧
  ∀ a m b', W !! a = Some m → broadcasts m (IntentBatchProposal b') →
    calculate_hash (pb_header b') = calculate_hash (pb_header b) → pb_header b' = pb_header b.
Proof.
  intros Hf. split.
  - intros a m Ha. pose proof (for_each_spec _ _ _ _ Hf Ha) as Hc. apply andb_prop in Hc as [Hc%bool_decide_eq_true _].
    by apply NoDup_distinct_hashes.
  - intros a m b' Ha Hb _. pose proof (for_each_spec _ _ _ _ Hf Ha) as Hc. apply andb_prop in Hc as [_ Hc].
    rewrite forallb_forall in Hc. apply list_elem_of_In in Hb. specialize (Hc _ Hb). by apply bool_decide_eq_true in Hc.
Qed.

(** Everybody at the start. *)
Definition fresh_world (now : N) : gmap Address (Member C) :=
  set_to_map (λ a, (a, mkMember [] (sys_new qc0 now ab))) honest.

Lemma fresh_world_lookup now a m :
  fresh_world now !! a = Some m ↔ a ∈ honest ∧ m = mkMember [] (sys_new qc0 now ab).
Proof.
  unfold fresh_world. rewrite lookup_set_to_map by done. split; [by intros (x & ? & [= <- <-])|intros [? ->]; by exists a].
Qed.

Lemma fresh_world_reach now : world_reach ab cfg false qc0 honest (fresh_world now).
Proof.
  apply world_start.
  - apply set_eq. intros a. rewrite elem_of_dom. split; [intros [m Hm]; by apply fresh_world_lookup in Hm as [? _]|].
    intros Ha. exists (mkMember [] (sys_new qc0 now ab)). by apply fresh_world_lookup.
  - intros a m [_ ->]%fresh_world_lookup. by exists now.
Qed.

(** Turns of one validator's driver and tasks. *)
Lemma turns_reach W a D s xs s' :
  world_reach ab cfg false qc0 honest W → W !! a = Some (mkMember D s) → delivered xs = [] → schedule (cfg a) env xs s = Some s' →
  world_reach ab cfg false qc0 honest (<[a := mkMember D s']> W).
Proof.
  revert W s. induction xs as [|x xs IH]; intros W s Hr Ha Hxs; cbn [schedule].
  - intros [= <-]. by rewrite insert_id.
  - destruct (choose _ _ x s) as [s1|] eqn:Hx; [|done]. cbn [mbind option_bind]. intros Hs'.
    rewrite <-(insert_insert_eq W a _ (mkMember D s1)). apply IH with s1; [|by rewrite lookup_insert_eq| |done].
    2:{ by destruct x. }
    destruct (world_member ab cfg false qc0 honest Hcfg W a _ Hr Ha) as (_ & Hreg & [now Hrun] & _).
    pose proof (inv_book _ _ _ (run_inv _ _ _ _ _ _ _ Hreg Hrun)) as Hbook. cbn [m_sys] in Hbook.
    eapply world_next; [done|]. eapply world_move; [done|]. destruct x as [msg| |k]; [done| |].
    + cbn [choose] in Hx. destruct (driver_step _ _ _ _ _) as [[[n d] ts]| |] eqn:Hd; [|done..]. injection Hx as <-.
      eapply member_driver; [by rewrite Hbook|exact Hd].
    + apply member_task. eapply choose_work; [by rewrite Hbook|done].
Qed.
End settle.

(** ** Four honest validators *)
Module NetworkRuns.
Import Net4 RoundRuns.

Definition keys_at (a : Address) : Config :=
  let x := default Byte.x00 (head a) in
  mkConfig a (mkValidatorKeys (mkKeyPair (replicate 1312 x) (replicate 1312 x)) (replicate 32 x)) (mkParams 4 1200).

Definition everyone : gset Address := dom ab.
Definition first_world : gmap Address (Member (list bytes)) := fresh_world ab genesis_qc everyone 0.

(** Validator 1 enters round 1, is elected, and proposes a batch. *)
Definition proposer : Address := address 1.
Definition proposing : list Choice := [Drive; Drive; Drive] ++ works 7.
Definition proposer_sys : Sys (C := list bytes) := default start (schedule (keys_at proposer) env proposing start).
Definition proposed_world : gmap Address (Member (list bytes)) := <[proposer := mkMember [] proposer_sys]> first_world.
Definition batch : PayloadBatch := proposal 1 5000 1 [].

Definition last_world : gmap Address (Member (list bytes)) := settle keys_at env 300 proposed_world.

Lemma keys_registered a : a ∈ everyone → my_address (keys_at a) = a ∧ registered (keys_at a) ab.
Proof.
  intros Ha. split; [done|]. assert (a ∈ elements everyone) as Hin by (by apply elem_of_elements). clear Ha.
  assert (elements everyone = address <$> [2; 4; 1; 3]) as Heq by (vm_compute; reflexivity). rewrite Heq in Hin.
  apply list_elem_of_fmap in Hin as (i & -> & Hi).
  repeat (apply elem_of_cons in Hi as [->|Hi]; [split; [split; vm_compute; reflexivity|eexists; split; vm_compute; reflexivity]|]).
  apply elem_of_nil in Hi as [].
Qed.

Lemma env_complete : env_keys env ≡ₚ elements (dom ab).
Proof. reflexivity. Qed.

Lemma proposer_schedules : (if schedule (keys_at proposer) env proposing start is Some _ then true else false) = true.
Proof. vm_compute. reflexivity. Qed.

Lemma proposer_member : bool_decide (proposer ∈ everyone) = true.
Proof. vm_compute. reflexivity. Qed.

Lemma proposed_reach : world_reach ab keys_at false genesis_qc everyone proposed_world.
Proof.
  apply (turns_reach ab keys_at genesis_qc everyone env keys_registered env_complete first_world proposer [] start proposing).
  - apply fresh_world_reach.
  - apply fresh_world_lookup. split; [exact (bool_decide_eq_true_1 _ proposer_member)|reflexivity].
  - reflexivity.
  - pose proof proposer_schedules as Hsome. unfold proposer_sys. destruct (schedule _ _ _ _); [reflexivity|discriminate Hsome].
Qed.

Lemma proposer_proposed :
  proposed_world !! proposer = Some (mkMember [] proposer_sys) ∧
  broadcasts (mkMember [] proposer_sys) (IntentBatchProposal batch) ∧ vrf_registered (keys_at proposer) ab.
Proof.
  split; [apply lookup_insert_eq|]. split.
  - assert (head (sent proposer_sys) = Some (BroadcastConsensusMessage (IntentBatchProposal batch))) as Hh by (vm_compute; reflexivity).
    unfold broadcasts. cbn [m_sys]. destruct (sent proposer_sys); [discriminate Hh|]. injection Hh as ->. left.
  - exists (identity 1), (vrf 1). split_and!; vm_compute; reflexivity.
Qed.

Definition confirmed_at (a : Address) (h : bytes) (W : gmap Address (Member (list bytes))) : bool :=
  match W !! a with
  | Some m => bool_decide (h ∈ processed_optimistic_batches (core_state (node (m_sys m))))
  | None => false
  end.

Lemma confirmed_at_spec a h W : confirmed_at a h W = true →
  ∃ m, W !! a = Some m ∧ h ∈ processed_optimistic_batches (core_state (node (m_sys m))).
Proof. unfold confirmed_at. destruct (W !! a) as [m|]; [|done]. intros ?%bool_decide_eq_true. by exists m. Qed.

Lemma last_world_checks :
  (let W := last_world in
   confirmed_at (address 2) (calculate_hash (pb_header batch)) W && for_each (rested W) W && for_each (no_collision batch) W) = true.
Proof. vm_compute. reflexivity. Qed.

Lemma last_world_work : rtc (work keys_at) proposed_world last_world.
Proof. exact (settle_work ab keys_at genesis_qc everyone env keys_registered env_complete 300 proposed_world proposed_reach). Qed.

Lemma last_world_reach : world_reach ab keys_at false genesis_qc everyone last_world.
Proof. exact (work_reach ab keys_at genesis_qc everyone keys_registered proposed_world last_world proposed_reach last_world_work). Qed.

Lemma last_world_rests :
  (∃ m, last_world !! address 2 = Some m ∧ calculate_hash (pb_header batch) ∈ processed_optimistic_batches (core_state (node (m_sys m)))) ∧
  at_rest last_world ∧ for_each (no_collision batch) last_world = true.
Proof.
  pose proof last_world_checks as Hc. cbv zeta in Hc. apply andb_prop in Hc as [[Ha Hr]%andb_prop Hn].
  split; [exact (confirmed_at_spec _ _ _ Ha)|]. split; [exact (rested_at_rest _ Hr)|exact Hn].
Qed.


Lemma confirmed_batches_have_honest_votes_witness :
  ∃ m (Q : gset Address), last_world !! address 2 = Some m ∧ Q ⊆ dom ab ∧ (required_quorum ab ≤ size Q)%nat ∧
    (∀ x mx, x ∈ Q → last_world !! x = Some mx → ∃ r, (r, calculate_hash (pb_header batch)) ∈ signed (m_sys mx)).
Proof.
  destruct last_world_rests as ((m & Hm & Hin) & _). exists m.
  destruct (confirmed_batches_have_honest_votes ab keys_at false genesis_qc everyone keys_registered last_world (address 2) m
    (calculate_hash (pb_header batch)) last_world_reach Hm Hin) as (Q & H1 & H2 & H3 & _).
  exists Q. split; [exact Hm|]. split; [exact H1|]. split; [exact H2|exact H3].
Defined.
End NetworkRuns.
