(* ===== verification/Swarm.v ===== *)
(** * The network task ([evice-multi-sequencer/src/p2p/swarm.rs])

    The event loop between libp2p and the consensus engine.  One branch of the
    loop's [select!] is one function from the loop's state to its new state and
    the actions it takes; what libp2p decides (which peers are connected, the
    order of a map, the decoded form of a message) is an argument.  A task that
    the loop spawns is taken with the event that spawns it. *)

From S2P Require Import Prelude Bytes SeqTypes P2pTypes Committee Consensus.

Inductive SyncResponse :=
| Peers (addrs : list string)
| ConsensusResponse (msg : option ConsensusMessage)
| FullProposal (batch : option PendingBatch)
| FullProposalReceivedAck
| VoteAck
| PeersReceivedAck.

(** What the loop does to the outside. *)
Inductive Action :=
| Publish (data : bytes)
| SendRequest (peer : PeerId) (request : SyncRequest)
| SendResponse (response : SyncResponse)
| Dial (addr : Multiaddr)
| DialPeer (peer : PeerId)
| AddAddress (peer : PeerId) (addr : Multiaddr)
| AddExplicitPeer (peer : PeerId)
| GetClosestPeers
| ToConsensus (msg : ConsensusMessage) (peer : PeerId)
| ToSelf (cmd : P2pCommand)
| ReplyPeers (peers : list PeerId).

(** borsh and multiaddress text. *)
Class Wire := {
  encode_chain_message : ChainMessage → option bytes;
  decode_chain_message : bytes → option ChainMessage;
  decode_sync_request : bytes → option SyncRequest;
  show_multiaddr : Multiaddr → string;
}.

Record Swarm := mkSwarm {
  peer_scores : gmap PeerId PeerInfo;
  known_peers : gmap PeerId Multiaddr;
  pending_dials : gset PeerId;
  stable_since : option N;
  initial_discovery_triggered : bool;
  network_ready_flag : bool;
}.

Definition swarm_new : Swarm := mkSwarm ∅ ∅ ∅ None false false.

Definition set_scores (s : Swarm) scores :=
  mkSwarm scores (known_peers s) (pending_dials s) (stable_since s) (initial_discovery_triggered s)
    (network_ready_flag s).
Definition set_known (s : Swarm) known :=
  mkSwarm (peer_scores s) known (pending_dials s) (stable_since s) (initial_discovery_triggered s)
    (network_ready_flag s).
Definition set_dials (s : Swarm) dials :=
  mkSwarm (peer_scores s) (known_peers s) dials (stable_since s) (initial_discovery_triggered s)
    (network_ready_flag s).
Definition set_ready (s : Swarm) since ready :=
  mkSwarm (peer_scores s) (known_peers s) (pending_dials s) since (initial_discovery_triggered s) ready.
Definition set_discovery (s : Swarm) :=
  mkSwarm (peer_scores s) (known_peers s) (pending_dials s) (stable_since s) true (network_ready_flag s).

(** [addr.iter().last()] when it is a peer. *)
Definition last_peer_id (addr : Multiaddr) : option PeerId :=
  match last addr with
  | Some (P2p peer) => Some peer
  | _ => None
  end.

Definition is_loopback (dev_mode : bool) (addr : Multiaddr) : bool :=
  if dev_mode then false
  else existsb (λ p, match p with Ip loopback => loopback | _ => false end) addr.

Section swarm.
Context `{!Crypto} `{!Profile} `{!Logging} `{!Net} `{!Wire}.
Context {C : Type} (local_peer_id : PeerId) (is_bootstrap_node dev_mode : bool).
Implicit Types (s : Swarm) (n : Node C).

Definition required_peer_threshold (ab : AddressBook) : nat :=
  let num_validators := length (get_all_peer_ids (map_to_list ab)) in
  if decide (0 < num_validators)%nat then Nat.max (num_validators * 2 / 3) 1 else 1%nat.

(** The start of the loop: the bootstrap addresses that can be read are dialled. *)
Definition bootstrap_dials (bootstrap_nodes : list string) : list Action :=
  omap (λ text, Dial <$> parse_multiaddr text) bootstrap_nodes.

(** One second has passed: the first branch. *)
Definition stability_tick s (now : N) (current_peers threshold : nat) : Swarm :=
  if decide (threshold ≤ current_peers)%nat then
    let stable_instant := default now (stable_since s) in
    set_ready s (Some stable_instant)
      (if decide (NETWORK_STABILITY_WINDOW ≤ saturating_sub now stable_instant) then true
       else network_ready_flag s)
  else set_ready s None false.

(** A command of the consensus engine; [connected] are libp2p's peers, [dial_ok]
    whether a dial is accepted. *)
Definition handle_p2p_command s (now : N) (connected : list PeerId) (dial_ok : bool) (cmd : P2pCommand)
    : outcome (Swarm * list Action) :=
  match cmd with
  | BroadcastConsensusMessage msg =>
      Done (s, match encode_chain_message (NewConsensusMessage msg) with
               | Some encoded => [Publish encoded]
               | None => []
               end)
  | SendDirectRequest destination request =>
      _ ← match request with
          | SubmitVote vote => log_hash Debug (vv_batch_hash vote)
          | _ => Done ()
          end;
      Done (s, [SendRequest destination request])
  | ApplyPenalty peer penalty =>
      match peer_scores s !! peer with
      | Some info => info' ← apply_penalty now penalty info;
                     Done (set_scores s (<[peer := info']> (peer_scores s)), [])
      | None => Done (s, [])
      end
  | DialAddress addr =>
      match last_peer_id addr with
      | Some peer =>
          if decide (peer ∉ connected ∧ peer ∉ pending_dials s) then
            if dial_ok then Done (set_dials s ({[peer]} ∪ pending_dials s), [Dial addr])
            else Done (s, [Dial addr])
          else Done (s, [])
      | None => Done (s, [])
      end
  | GetConnectedPeers => Done (s, [ReplyPeers connected])
  end.

(** Kademlia found peers. *)
Definition handle_closest_peers (connected peers : list PeerId) : list Action :=
  omap (λ p, if decide (p ≠ local_peer_id ∧ p ∉ connected) then Some (DialPeer p) else None) peers.

(** Identify: the peer's listen addresses.  [known] is the traversal of
    [known_peers]. *)
Definition handle_identify s (peer : PeerId) (listen_addrs : list Multiaddr)
    (known : list (PeerId * Multiaddr)) : outcome (Swarm * list Action) :=
  let accepted := filter (λ addr, is_loopback dev_mode addr = false) listen_addrs in
  let adds := AddAddress peer <$> accepted in
  let valid_addrs := (λ addr, addr ++ [P2p peer]) <$> accepted in
  if is_bootstrap_node then
    match valid_addrs with
    | [] => Done (s, adds)
    | first_addr :: _ =>
        match known_peers s !! peer with
        | Some _ => Done (s, adds)
        | None =>
            let existing := show_multiaddr ∘ snd <$> known in
            let to_newcomer := match existing with
                               | [] => []
                               | _ => [SendRequest peer (InformAboutPeers existing)]
                               end in
            let newcomer := show_multiaddr <$> valid_addrs in
            let to_others := (λ e : PeerId * Multiaddr, SendRequest e.1 (InformAboutPeers newcomer)) <$> known in
            Done (set_known s (<[peer := first_addr]> (known_peers s)), adds ++ to_newcomer ++ to_others)
        end
    end
  else Done (s, adds).

Definition handle_connection_established s (peer : PeerId) (addr : Multiaddr) (connected : list PeerId)
    : Swarm * list Action :=
  let s := set_dials s (pending_dials s ∖ {[peer]}) in
  let s := set_scores s (<[peer := default peer_new (peer_scores s !! peer)]> (peer_scores s)) in
  let acts := [AddAddress peer addr; AddExplicitPeer peer] in
  if decide (initial_discovery_triggered s = false ∧ 0 < length connected)%nat
  then (set_discovery s, acts ++ [GetClosestPeers]) else (s, acts).

Definition handle_connection_closed s (peer : PeerId) : Swarm :=
  set_scores (set_dials s (pending_dials s ∖ {[peer]})) (delete peer (peer_scores s)).

(** The search of [GetFullProposal] and of the fallback topic. *)
Definition confirmed_to_pending (b : PayloadBatch) : PendingBatch :=
  mkPending (pb_header b) (pb_payloads b) (pb_justify b) (pb_round b).

Definition find_proposal (consensus_state : option (Node C)) (hash : bytes) : option PendingBatch :=
  match consensus_state with
  | None => None
  | Some n =>
    match pending_proposals n !! hash with
    | Some pending => Some pending
    | None => confirmed_to_pending ∘ snd <$>
        list_find (λ b, calculate_hash (pb_header b) = hash)
          (optimistically_confirmed_batches (core_state n))
    end
  end.

(** A gossip message on the fallback topic.  The first log message is written
    by the loop itself, the others by the task it spawns. *)
Definition handle_fallback_gossip s (cs : option (Node C)) (peer : PeerId) (data : bytes)
    : outcome (Swarm * list Action) :=
  match decode_sync_request data with
  | Some (GetFullProposal hash) =>
      _ ← log_hash Info hash;
      match find_proposal cs hash with
      | Some batch =>
          let confirmation := mkConfirmation (pd_header batch) (message_hash <$> pd_payloads batch)
                                (pd_parent_qc batch) (pd_round batch) in
          Done (s, [ToSelf (SendDirectRequest peer (FullProposalForCommittee confirmation (pd_payloads batch)))])
      | None => _ ← log_hash Debug hash; Done (s, [])
      end
  | _ => Done (s, [])
  end.

(** A gossip message on the main topic: hand it to the engine and score the
    peer. *)
Definition handle_gossip s (now : N) (peer : PeerId) (data : bytes) : outcome (Swarm * list Action) :=
  let info := default peer_new (peer_scores s !! peer) in
  let '(acts, penalty) :=
    match decode_chain_message data with
    | Some (NewConsensusMessage msg) => ([ToConsensus msg peer], 0%Z)
    | Some (NewPayload _) => ([], 0%Z)
    | None => ([], PENALTY_DESERIALIZATION_ERROR)
    end in
  info' ← if decide (penalty < 0)%Z then apply_penalty now penalty info
          else apply_reward REWARD_VALID_MESSAGE info;
  Done (set_scores s (<[peer := info']> (peer_scores s)), acts).

(** A direct request, and the response to one of this node's requests. *)
Definition to_batch (b : PendingBatch) : PayloadBatch :=
  mkBatch (pd_header b) (pd_payloads b) (pd_parent_qc b) (pd_round b).

Definition handle_sync_request s (cs : option (Node C)) (peer : PeerId) (request : SyncRequest)
    : outcome (Swarm * list Action) :=
  match request with
  | SubmitVote vote =>
      _ ← log_hash Debug (vv_batch_hash vote);
      Done (s, [ToConsensus (VelocityVoteMsg vote) peer; SendResponse VoteAck])
  | ConsensusRequest msg => Done (s, [ToConsensus msg peer; SendResponse (ConsensusResponse None)])
  | GetFullProposal hash =>
      match find_proposal cs hash with
      | Some batch => _ ← log_hash Info hash; Done (s, [SendResponse (FullProposal (Some batch))])
      | None => _ ← log_hash Warn hash; Done (s, [SendResponse (FullProposal None)])
      end
  | FullProposalForCommittee confirmation payloads =>
      let batch := mkBatch (oc_header confirmation) payloads (oc_parent_qc confirmation)
                     (oc_round confirmation) in
      Done (s, [ToConsensus (IntentBatchProposal batch) peer; SendResponse FullProposalReceivedAck])
  | InformAboutPeers addrs =>
      let dials := omap (λ text, addr ← parse_multiaddr text; id ← last_peer_id addr;
                                 if decide (id ≠ local_peer_id) then Some (ToSelf (DialAddress addr))
                                 else None) addrs in
      Done (s, dials ++ [SendResponse PeersReceivedAck])
  end.

Definition handle_sync_response s (peer : PeerId) (response : SyncResponse) : Swarm * list Action :=
  match response with
  | ConsensusResponse (Some msg) => (s, [ToConsensus msg peer])
  | FullProposal (Some batch) => (s, [ToConsensus (IntentBatchProposal (to_batch batch)) peer])
  | _ => (s, [])
  end.

(** ** The loop *)
Inductive SwarmEvent :=
| Ev_tick (now : N) (current_peers threshold : nat)
| Ev_command (now : N) (connected : list PeerId) (dial_ok : bool) (cmd : P2pCommand)
| Ev_response (response : SyncResponse)
| Ev_closest_peers (connected peers : list PeerId)
| Ev_identify (peer : PeerId) (listen_addrs : list Multiaddr) (known : list (PeerId * Multiaddr))
| Ev_established (peer : PeerId) (addr : Multiaddr) (connected : list PeerId)
| Ev_closed (peer : PeerId)
| Ev_fallback (cs : option (Node C)) (peer : PeerId) (data : bytes)
| Ev_gossip (now : N) (peer : PeerId) (data : bytes)
| Ev_request (cs : option (Node C)) (peer : PeerId) (request : SyncRequest)
| Ev_sync_response (peer : PeerId) (response : SyncResponse).

Definition swarm_step s (ev : SwarmEvent) : outcome (Swarm * list Action) :=
  match ev with
  | Ev_tick now current threshold => Done (stability_tick s now current threshold, [])
  | Ev_command now connected dial_ok cmd => handle_p2p_command s now connected dial_ok cmd
  | Ev_response response => Done (s, [SendResponse response])
  | Ev_closest_peers connected peers => Done (s, handle_closest_peers connected peers)
  | Ev_identify peer addrs known => handle_identify s peer addrs known
  | Ev_established peer addr connected => Done (handle_connection_established s peer addr connected)
  | Ev_closed peer => Done (handle_connection_closed s peer, [])
  | Ev_fallback cs peer data => handle_fallback_gossip s cs peer data
  | Ev_gossip now peer data => handle_gossip s now peer data
  | Ev_request cs peer request => handle_sync_request s cs peer request
  | Ev_sync_response peer response => Done (handle_sync_response s peer response)
  end.
End swarm.
