(* ===== verification/NetworkTheorems.v ===== *)
(** * The network layer's contract

    The address book, the peer scores, the readiness signal and the answers to
    proposal requests, with their witnesses; and runs that depart from what the
    code means to do. *)

From S2P Require Import Prelude Bytes SeqTypes P2pTypes Committee Consensus ConsensusProps ToyCrypto ConsensusRuns Swarm.
From Stdlib Require Import Strings.Ascii.

(** ** The address book *)
Section book.
Context `{!Net} `{!NetLaws} `{!Profile}.

(** The address book is a function of the genesis.  When the accounts name
    distinct addresses, every order of traversal builds the same book, and it
    holds exactly the accounts that are complete: a 20-byte address and a
    multiaddress with a peer. *)
Theorem address_book_is_canonical tr tr' :
  NoDup (genesis_entries tr).*1 → tr ≡ₚ tr' →
  ∃ ab, update_from_genesis ∅ tr = Done ab ∧ update_from_genesis ∅ tr' = Done ab ∧
    ∀ a info, ab !! a = Some info ↔ ∃ e, e ∈ tr ∧ genesis_entry e = Some (a, info).
Proof.
  intros Hnd Hp. assert (genesis_entries tr ≡ₚ genesis_entries tr') as Hpe by (unfold genesis_entries; by rewrite Hp).
  exists (list_to_map (genesis_entries tr)). split_and!.
  - rewrite update_from_genesis_fresh by done. by rewrite (right_id_L ∅ (∪)).
  - rewrite update_from_genesis_fresh by (rewrite <-?Hpe; done). rewrite (right_id_L ∅ (∪)).
    f_equal. symmetry. by apply list_to_map_proper.
  - intros a info. rewrite <-elem_of_list_to_map by done. unfold genesis_entries.
    rewrite list_elem_of_omap. done.
Qed.

(** The bootstrapped genesis has no validators.  [--bootstrap] files each
    account under the hexadecimal form of its 1312-byte public key, the address
    book accepts 20-byte addresses only: the book built from a bootstrapped
    genesis is empty, whatever the keys and in whatever order. *)
Theorem bootstrapped_book_is_empty keys tr :
  Forall (λ k : bytes * bytes * string, length k.1.1 = PUBLIC_KEY_SIZE) keys →
  tr ≡ₚ map_to_list (bootstrap_accounts keys) →
  update_from_genesis ∅ tr = Done ∅.
Proof.
  intros Hkeys Htr.
  assert (∀ a acc, bootstrap_accounts keys !! a = Some acc → genesis_entry (a, acc) = None) as Hnone.
  { unfold bootstrap_accounts. clear Htr. induction keys as [|[[pk vpk] addr] keys IH] using rev_ind; [done|].
    apply Forall_app in Hkeys as [Hkeys Hk]. apply Forall_cons in Hk as [Hk _]. simpl in Hk.
    rewrite foldl_app. simpl. intros a acc. rewrite lookup_insert_Some. intros [[<- <-]|[_ ?]]; [|by eapply IH].
    apply (bootstrap_entry pk vpk addr). rewrite Hk. done. }
  assert (∀ e, e ∈ tr → genesis_entry e = None) as Htr'.
  { intros [a acc] Hin. rewrite Htr in Hin. apply elem_of_map_to_list in Hin. auto. }
  clear Htr. induction tr as [|e tr IH]; simpl; [done|]. rewrite Htr' by set_solver. simpl. apply IH. set_solver.
Qed.
End book.

(** ** The event loop *)
Section loop.
Context `{!Crypto} `{!Profile} `{!Logging} `{!Net} `{!Wire}.
Context {C : Type} (local_peer_id : PeerId) (is_bootstrap_node dev_mode : bool).
Implicit Types (s : Swarm) (ev : SwarmEvent (C := C)).

Fixpoint swarm_run s (evs : list SwarmEvent) : outcome Swarm :=
  match evs with
  | [] => Done s
  | ev :: evs => '(s, _) ← swarm_step (C := C) local_peer_id is_bootstrap_node dev_mode s ev; swarm_run s evs
  end.

Definition scores_ok s : Prop := map_Forall (λ _, score_ok) (peer_scores s).

(** The consensus engine's penalties, and every other penalty in use. *)
Definition penalty_ok ev : Prop :=
  match ev with
  | Ev_command _ _ _ (ApplyPenalty _ d) => small d ∧ (d ≤ 0)%Z
  | _ => True
  end.

(** The events whose handling formats a hash for the log. *)
Definition logs_hash ev : option bytes :=
  match ev with
  | Ev_command _ _ _ (SendDirectRequest _ (SubmitVote v)) => Some (vv_batch_hash v)
  | Ev_fallback _ _ data =>
      match decode_sync_request data with Some (GetFullProposal h) => Some h | _ => None end
  | Ev_request _ _ (SubmitVote v) => Some (vv_batch_hash v)
  | Ev_request _ _ (GetFullProposal h) => Some h
  | _ => None
  end.

Definition log_safe ev : Prop :=
  match logs_hash ev with
  | Some h => (4 ≤ length h)%nat
  | None => True
  end.

Lemma scores_ok_insert s p info :
  scores_ok s → score_ok info → scores_ok (set_scores s (<[p := info]> (peer_scores s))).
Proof. intros Hs Hi. by apply map_Forall_insert_2. Qed.

Lemma score_ok_default s p : scores_ok s → score_ok (default peer_new (peer_scores s !! p)).
Proof.
  intros Hs. destruct (peer_scores s !! p) as [i|] eqn:Hi; simpl; [by apply (Hs p)|].
  unfold score_ok, peer_new, INITIAL_PEER_SCORE, BAN_THRESHOLD, MAX_PEER_SCORE. simpl. lia.
Qed.

Lemma swarm_step_scores s ev :
  scores_ok s → penalty_ok ev → log_safe ev →
  ∃ s' acts, swarm_step local_peer_id is_bootstrap_node dev_mode s ev = Done (s', acts) ∧ scores_ok s'.
Proof.
  intros Hs Hpen Hlog. destruct ev; cbn [swarm_step]; unfold log_safe in Hlog; cbn [logs_hash] in Hlog.
  - unfold stability_tick. case_decide; eauto.
  - destruct cmd; cbn [handle_p2p_command]; eauto.
    + destruct request; cbn [mbind outcome_bind]; rewrite ?log_hash_long by done; cbn [mbind outcome_bind]; eauto.
    + destruct (peer_scores s !! peer) as [i|] eqn:Hi; [|eauto]. destruct Hpen as [Hsm Hneg].
      destruct (apply_penalty_run now penalty i (Hs _ _ Hi) Hsm Hneg) as (i' & -> & Hi' & _). simpl.
      eauto using scores_ok_insert.
    + repeat case_match; eauto.
  - eauto.
  - eauto.
  - unfold handle_identify. repeat case_match; eauto.
  - unfold handle_connection_established. case_decide; (do 2 eexists; split; [done|]);
      apply (scores_ok_insert s); auto using score_ok_default.
  - do 2 eexists. split; [done|]. by apply map_Forall_delete.
  - unfold handle_fallback_gossip. destruct (decode_sync_request data) as [[]|]; eauto.
    rewrite !(log_hash_long _ hash) by done. cbn [mbind outcome_bind]. case_match; eauto.
  - unfold handle_gossip. pose proof (score_ok_default s peer Hs) as Hi.
    destruct (apply_penalty_run now PENALTY_DESERIALIZATION_ERROR _ Hi) as (i1 & Hpenalty & ? & _); [done|done|].
    destruct (apply_reward_run REWARD_VALID_MESSAGE _ Hi) as (i2 & Hreward & ? & _); [done|done|].
    destruct (decode_chain_message data) as [[]|];
      [rewrite decide_False, Hreward by done|rewrite decide_False, Hreward by done|rewrite decide_True, Hpenalty by done];
      cbn [mbind outcome_bind]; eauto using scores_ok_insert.
  - destruct request; cbn [handle_sync_request]; eauto.
    + case_match; rewrite log_hash_long by done; simpl; eauto.
    + rewrite log_hash_long by done. simpl. eauto.
  - unfold handle_sync_response. repeat case_match; eauto.
Qed.

(** C26. Peer scores are bounded and the loop does not stop.  As long as the
    hashes that are formatted for the log have four bytes, the loop handles any
    sequence of events, and every score it keeps is between -51 and 100, so the
    32-bit additions never overflow. *)
Theorem swarm_is_total_and_scores_bounded evs :
  Forall penalty_ok evs → Forall log_safe evs →
  ∃ s, swarm_run swarm_new evs = Done s ∧
    ∀ p info, peer_scores s !! p = Some info → (-51 ≤ score info ≤ 100)%Z.
Proof.
  intros Hpen Hlog. assert (scores_ok swarm_new) as Hs by apply map_Forall_empty.
  assert (∃ s, swarm_run swarm_new evs = Done s ∧ scores_ok s) as (s & Hrun & Hok); [|by exists s].
  revert Hs. generalize swarm_new. induction Hpen as [|ev evs Hev _ IH]; intros s Hs; [by exists s|].
  apply Forall_cons in Hlog as [Hl Hlog]. simpl.
  destruct (swarm_step_scores s ev Hs Hev Hl) as (s' & acts & -> & Hs'). simpl. by apply IH.
Qed.

(** *** Readiness *)

(** The ticks of a run: the time and the number of connected peers. *)
Definition tick_of ev : option (N * nat) :=
  match ev with
  | Ev_tick now peers _ => Some (now, peers)
  | _ => None
  end.

Definition threshold_is (threshold : nat) ev : Prop :=
  match ev with
  | Ev_tick _ _ t => t = threshold
  | _ => True
  end.

Definition good (threshold : nat) (e : N * nat) : Prop := (threshold ≤ e.2)%nat.

(** What the loop remembers of the ticks so far: the good ones since the last
    bad one, by the time of the first, and whether they span the window. *)
Definition ready_inv (threshold : nat) (l : list (N * nat)) s : Prop :=
  match stable_since s with
  | None => network_ready_flag s = false ∧ (l = [] ∨ ∃ l' e, l = l' ++ [e] ∧ ¬ good threshold e)
  | Some t0 => ∃ l1 p0 l2, l = l1 ++ (t0, p0) :: l2 ∧ Forall (good threshold) ((t0, p0) :: l2) ∧
      (l1 = [] ∨ ∃ l' e, l1 = l' ++ [e] ∧ ¬ good threshold e) ∧
      (network_ready_flag s = true ↔ ∃ e, e ∈ (t0, p0) :: l2 ∧ t0 + NETWORK_STABILITY_WINDOW ≤ e.1)
  end.

Lemma ready_inv_tick threshold l s now peers :
  ready_inv threshold l s → ready_inv threshold (l ++ [(now, peers)]) (stability_tick s now peers threshold).
Proof.
  unfold ready_inv, stability_tick, saturating_sub. intros Hinv.
  case_decide as Hgood; simpl; [|split; [done|right; exists l, (now, peers); done]].
  destruct (stable_since s) as [t0|]; simpl.
  - destruct Hinv as (l1 & p0 & l2 & -> & Hall & Hmax & Hready). exists l1, p0, (l2 ++ [(now, peers)]).
    split_and!; [by rewrite <-app_assoc| |done|].
    + rewrite app_comm_cons. apply Forall_app. split; [done|]. by repeat constructor.
    + case_decide as Hw.
      * split; [intros _|done]. exists (now, peers). split; [set_solver|]. simpl.
        unfold NETWORK_STABILITY_WINDOW in *. lia.
      * rewrite Hready. unfold NETWORK_STABILITY_WINDOW in *. setoid_rewrite elem_of_cons.
        setoid_rewrite elem_of_app. setoid_rewrite list_elem_of_singleton. split; [naive_solver|].
        intros (e & [->|[?| ->]] & He); simpl in *; [eauto|eauto|lia].
  - destruct Hinv as [Hf Hl]. exists l, peers, []. split_and!; [done|by repeat constructor|done|].
    rewrite decide_False by (unfold NETWORK_STABILITY_WINDOW; lia). rewrite Hf. split; [done|].
    intros (e & ->%list_elem_of_singleton & He). simpl in He. unfold NETWORK_STABILITY_WINDOW in He. lia.
Qed.

Lemma swarm_step_ready s ev s' acts :
  tick_of ev = None → swarm_step local_peer_id is_bootstrap_node dev_mode s ev = Done (s', acts) →
  stable_since s' = stable_since s ∧ network_ready_flag s' = network_ready_flag s.
Proof.
  assert (∀ {A} (o : outcome A) f, (o ≫= f) = Done (s', acts) → ∃ a : A, f a = Done (s', acts)) as Hbind.
  { intros A [a| |] f; simpl; [by eauto|done..]. }
  destruct ev; try done; intros _; cbn [swarm_step];
    unfold handle_p2p_command, handle_identify, handle_connection_established, handle_connection_closed,
      handle_fallback_gossip, handle_gossip, handle_sync_request, handle_sync_response;
    intros Hstep; repeat (case_match || (apply Hbind in Hstep as [? Hstep])); by simplify_eq/=.
Qed.

Lemma swarm_run_ready threshold evs l s s' :
  ready_inv threshold l s → Forall (threshold_is threshold) evs → swarm_run s evs = Done s' →
  ready_inv threshold (l ++ omap tick_of evs) s'.
Proof.
  intros Hinv Hevs. revert l s Hinv. induction Hevs as [|ev evs Hev _ IH]; intros l s Hinv Hrun; simpl in Hrun.
  { apply done_inj in Hrun as <-. simpl. by rewrite app_nil_r. }
  destruct (swarm_step _ _ _ s ev) as [[s1 acts]| |] eqn:Hstep; try done. cbn [mbind outcome_bind] in Hrun.
  csimpl. destruct (tick_of ev) as [[now peers]|] eqn:Htick.
  - destruct ev; try done. simpl in *. simplify_eq. rewrite cons_middle, app_assoc.
    eapply IH; [|done]. by apply ready_inv_tick.
  - destruct (swarm_step_ready s ev s1 acts Htick Hstep) as [Hs Hr]. eapply IH; [|done].
    unfold ready_inv in *. by rewrite Hs, Hr.
Qed.

(** A list of good ticks at the end is part of the maximal one. *)
Lemma maximal_suffix threshold (l1 l2 k1 k2 : list (N * nat)) :
  l1 ++ l2 = k1 ++ k2 → Forall (good threshold) l2 →
  (k1 = [] ∨ ∃ k e, k1 = k ++ [e] ∧ ¬ good threshold e) → ∃ m, k2 = m ++ l2.
Proof.
  intros Heq Hall Hmax. apply app_eq_inv in Heq as [(j & Hl1 & Hk2)|(j & Hk1 & Hl2)]; [by exists j|]. subst l2.
  destruct j as [|x j _] using rev_ind; [by exists []|].
  destruct Hmax as [->|(k & e & -> & He)]; [by destruct l1, j|].
  rewrite app_assoc in Hk1. apply app_inj_2 in Hk1 as [_ Hx]; [|done]. simplify_eq.
  rewrite !Forall_app, Forall_singleton in Hall. tauto.
Qed.

(** The readiness signal.  After any run of the loop with a clock that does
    not go back, the consensus engine is told that the network is ready exactly
    when the latest ticks, without a gap, all saw the required number of peers,
    and they span at least three seconds. *)
Theorem network_ready_iff_stable threshold evs s :
  Forall (threshold_is threshold) evs → StronglySorted N.le (omap tick_of evs).*1 →
  swarm_run swarm_new evs = Done s →
  network_ready_flag s = true ↔
  ∃ l1 e l2 e', omap tick_of evs = l1 ++ e :: l2 ∧ Forall (good threshold) (e :: l2) ∧
    e' ∈ e :: l2 ∧ e.1 + 3000 ≤ e'.1.
Proof.
  intros Hevs Hsorted Hrun. assert (ready_inv threshold [] swarm_new) as Hinv0 by (split; [done|by left]).
  pose proof (swarm_run_ready threshold evs [] swarm_new s Hinv0 Hevs Hrun) as Hinv. simpl in Hinv.
  set (l := omap tick_of evs) in *. clearbody l. unfold ready_inv in Hinv. split.
  - intros Hready. destruct (stable_since s) as [t0|]; [|by destruct Hinv as [Hf _]; rewrite Hf in Hready].
    destruct Hinv as (l1 & p0 & l2 & -> & Hall & _ & Hiff). apply Hiff in Hready as (e & He & Hw).
    exists l1, (t0, p0), l2, e. done.
  - intros (l1 & e & l2 & e' & Hl & Hall & He' & Hw).
    destruct (stable_since s) as [t0|].
    + destruct Hinv as (k1 & p0 & k2 & Hk & Hgood & Hmax & Hiff). apply Hiff. clear Hiff. rewrite Hk in Hl, Hsorted.
      symmetry in Hl. destruct (maximal_suffix _ _ _ _ _ Hl Hall Hmax) as [m Hm].
      exists e'. split; [rewrite Hm; set_solver|]. unfold NETWORK_STABILITY_WINDOW.
      assert (t0 ≤ e.1); [|lia]. rewrite fmap_app in Hsorted. simpl in Hsorted.
      apply StronglySorted_app in Hsorted as (_ & _ & Hs). inversion Hs as [|? ? _ Hle]; subst.
      destruct m as [|y m]; simplify_eq/=; [lia|]. rewrite fmap_app in Hle. decompose_Forall_hyps. done.
    + destruct Hinv as [_ Hmax]. rewrite <-(app_nil_r l) in Hl. symmetry in Hl.
      destruct (maximal_suffix _ _ _ _ _ Hl Hall Hmax) as [m Hm]. by destruct m.
Qed.

(** A short hash stops the network task.  A request for a full proposal on
    the fallback topic is logged with the first four bytes of the hash it
    carries before anything is checked; when informational messages are on, a
    hash of fewer than four bytes panics the event loop, whoever sends it and
    whatever the node's state. *)
Theorem short_hash_panics_the_loop s (cs : option (Node C)) peer data hash :
  decode_sync_request data = Some (GetFullProposal hash) → log_enabled Info = true →
  (length hash < 4)%nat →
  swarm_step local_peer_id is_bootstrap_node dev_mode s (Ev_fallback cs peer data) = Panicked.
Proof.
  intros Hdata Hlog Hlen. cbn [swarm_step]. unfold handle_fallback_gossip. rewrite Hdata.
  assert (log_hash Info hash = Panicked) as ->; [|done].
  unfold log_hash. rewrite decide_True by done. by destruct (log_enabled Info).
Qed.
End loop.

(** ** Answers to proposal requests *)
Section proposals.
Context `{!Crypto} `{!CryptoLaws} `{!Profile} `{!Logging} `{!Net} `{!Wire} {C : Type} `{!Lru C}.
Context (cfg : Config) (ab : AddressBook) (local_peer_id : PeerId).

(** Requested proposals.  A node answers a request for a full proposal with
    a batch whose header has the requested hash, and it finds one exactly when
    the batch is pending or among the confirmed batches it still holds; the
    requester hands the answer to its engine as a proposal. *)
Theorem requested_proposal_is_found qc0 now (sys : Sys (C := C)) s peer hash :
  registered cfg ab → sys_reach cfg ab qc0 now sys → (4 ≤ length hash)%nat →
  ∃ answer, handle_sync_request local_peer_id s (Some (node sys)) peer (GetFullProposal hash) =
      Done (s, [SendResponse (FullProposal answer)]) ∧
    (is_Some answer ↔ is_Some (pending_proposals (node sys) !! hash) ∨
       ∃ b, b ∈ optimistically_confirmed_batches (core_state (node sys)) ∧
         calculate_hash (pb_header b) = hash) ∧
    ∀ b, answer = Some b →
      calculate_hash (pd_header b) = hash ∧
      handle_sync_response s peer (FullProposal answer) =
        (s, [ToConsensus (IntentBatchProposal (to_batch b)) peer]).
Proof.
  intros Hreg Hs Hlen. pose proof (reach_inv cfg ab qc0 now sys Hreg Hs) as Hinv.
  exists (find_proposal (Some (node sys)) hash). split_and!.
  - cbn [handle_sync_request]. case_match; rewrite log_hash_long by done; done.
  - simpl. destruct (pending_proposals (node sys) !! hash) as [b|]; [naive_solver|].
    rewrite fmap_is_Some. split.
    + intros [[i b] Hb]. apply list_find_Some in Hb as (Hi & Hh & _). right. exists b.
      split; [by eapply list_elem_of_lookup_2|done].
    + intros [[? ?]|(b & Hin & Hh)]; [done|]. by eapply list_find_elem_of.
  - intros b Hb. split; [|by rewrite Hb]. simpl in Hb.
    destruct (pending_proposals (node sys) !! hash) as [b'|] eqn:Hp; simplify_eq.
    + by eapply (inv_pending cfg ab sys).
    + apply fmap_Some in Hb as ([i b'] & Hb & ->). by apply list_find_Some in Hb as (_ & ? & _).
Qed.
End proposals.

(** ** Runs *)
Module NetworkRuns.
Import Net4.

#[export] Instance toy_wire : Wire := {|
  encode_chain_message := λ _, None;
  decode_chain_message := λ bs, match bs with [] => None | _ => Some (NewPayload bs) end;
  decode_sync_request := Some ∘ GetFullProposal;
  show_multiaddr := λ _, ""%string;
|}.

Definition account (i : N) : string * GenesisAccount :=
  (to_hex (address i), mkAccount (to_hex (pk i)) (Some (to_hex (vrf i))) (Some "peer"%string)).

Lemma address_book_is_canonical_witness :
  ∃ ab, update_from_genesis ∅ [account 1; account 2] = Done ab ∧
    update_from_genesis ∅ [account 2; account 1] = Done ab ∧
    ∀ a info, ab !! a = Some info ↔
      ∃ e, e ∈ [account 1; account 2] ∧ genesis_entry e = Some (a, info).
Proof.
  apply address_book_is_canonical.
  - apply (bool_decide_unpack _). vm_compute. exact I.
  - apply Permutation_swap.
Defined.

Lemma bootstrapped_book_is_empty_witness :
  update_from_genesis ∅ (map_to_list (bootstrap_accounts [(pk 1, vrf 1, "peer"%string)])) = Done ∅.
Proof.
  apply (bootstrapped_book_is_empty [(pk 1, vrf 1, "peer"%string)]).
  - by repeat constructor.
  - reflexivity.
Defined.

(** A peer connects, misbehaves and is penalised, over four ticks. *)
Definition events : list (SwarmEvent (C := list bytes)) :=
  [ Ev_established "p"%string [Ip true] ["p"%string];
    Ev_tick 1000 1 1; Ev_gossip 1500 "p"%string []; Ev_tick 2000 2 1; Ev_tick 3000 1 1;
    Ev_command 3500 [] true (ApplyPenalty "p"%string (-50)); Ev_tick 4000 1 1 ].

Lemma swarm_is_total_and_scores_bounded_witness :
  ∃ s, swarm_run "me"%string false false swarm_new events = Done s ∧
    ∀ p info, peer_scores s !! p = Some info → (-51 ≤ score info ≤ 100)%Z.
Proof.
  apply swarm_is_total_and_scores_bounded.
  - repeat constructor; unfold small; lia.
  - by repeat constructor.
Defined.

Definition final : Swarm :=
  match swarm_run "me"%string false false swarm_new events with Done s => s | _ => swarm_new end.

Lemma network_ready_iff_stable_witness :
  network_ready_flag final = true ↔
  ∃ l1 e l2 e', omap tick_of events = l1 ++ e :: l2 ∧ Forall (good 1) (e :: l2) ∧
    e' ∈ e :: l2 ∧ e.1 + 3000 ≤ e'.1.
Proof.
  apply (network_ready_iff_stable "me"%string false false 1 events final).
  - by repeat constructor.
  - cbn. repeat first [apply SSorted_nil | apply SSorted_cons | apply Forall_nil_2 | apply Forall_cons_2]; lia.
  - vm_compute. reflexivity.
Defined.

Lemma requested_proposal_is_found_witness :
  ∃ answer,
    handle_sync_request "me"%string swarm_new (Some (node (run quorum_run))) "p"%string
      (GetFullProposal (calculate_hash (pb_header batch1))) =
      Done (swarm_new, [SendResponse (FullProposal answer)]) ∧
    (is_Some answer ↔
       is_Some (pending_proposals (node (run quorum_run)) !! calculate_hash (pb_header batch1)) ∨
       ∃ b, b ∈ optimistically_confirmed_batches (core_state (node (run quorum_run))) ∧
         calculate_hash (pb_header b) = calculate_hash (pb_header batch1)) ∧
    ∀ b, answer = Some b →
      calculate_hash (pd_header b) = calculate_hash (pb_header batch1) ∧
      handle_sync_response swarm_new "p"%string (FullProposal answer) =
        (swarm_new, [ToConsensus (IntentBatchProposal (to_batch b)) "p"%string]).
Proof.
  apply (requested_proposal_is_found (cfg 1) ab "me"%string genesis_qc 0 (run quorum_run) swarm_new).
  - apply cfg_registered.
  - apply quorum_reach.
  - rewrite length_calculate_hash. lia.
Defined.

Lemma short_hash_panics_the_loop_witness :
  @swarm_step _ true (λ _, true) _ _ (list bytes) "me"%string false false swarm_new
    (Ev_fallback None "p"%string [Byte.x01]) = Panicked.
Proof.
  apply (@short_hash_panics_the_loop _ true (λ _, true) _ _ (list bytes) "me"%string false false
    swarm_new None "p"%string [Byte.x01] [Byte.x01]); [reflexivity|reflexivity|].
  simpl. lia.
Defined.
End NetworkRuns.
