(* ===== verification/Transaction.v ===== *)
(** * Transactions ([zkapp/common/src/transaction.rs])

    The payloads, their base gas, the order of the transaction pool and the
    bytes that are signed.  The encoding of the payload (bincode) is third-party
    and enters as the interface [DataCodec]. *)

From S2P Require Import Prelude Bytes SeqTypes.

Inductive TransactionData :=
| Transfer (recipient : Address) (amount : N)
| Stake (amount : N)
| SubmitRollupBatch (old_state_root new_state_root compressed_batch zk_proof : bytes) (is_test_tx : bool)
    (vrf_output vrf_proof : bytes) (dac_signatures : list bytes)
| SubmitAggregateRollupBatch (initial_state_root final_state_root aggregated_proof : bytes) (num_batches : N)
| DepositToL2 (amount : N)
| RegisterAsSequencer
| DeregisterAsSequencer
| DeployContract (code : bytes)
| CallContract (contract_address : Address) (call_data : bytes)
| UpdateNetworkIdentity (multiaddr : bytes)
| ImAlive.

Definition BASE_TX_GAS : N := 21000.

(** [a + b + n * k] in 64 bits, as the source groups it. *)
Definition gas `{!Profile} (extra n k : N) : outcome N :=
  base ← u64_add BASE_TX_GAS extra;
  per ← u64_mul n k;
  u64_add base per.

Definition base_gas_cost `{!Profile} (d : TransactionData) : outcome N :=
  match d with
  | Transfer _ _ => Done BASE_TX_GAS
  | Stake _ => u64_add BASE_TX_GAS 5000
  | DepositToL2 _ => u64_add BASE_TX_GAS 20000
  | SubmitRollupBatch _ _ compressed_batch _ _ _ _ _ =>
      gas 300000 (N.of_nat (length compressed_batch)) 50
  | SubmitAggregateRollupBatch _ _ _ num_batches => gas 500000 num_batches 10000
  | DeployContract code => gas 150000 (N.of_nat (length code)) 200
  | CallContract _ _ => u64_add BASE_TX_GAS 5000
  | RegisterAsSequencer | DeregisterAsSequencer => u64_add BASE_TX_GAS 10000
  | UpdateNetworkIdentity multiaddr => gas 1000 (N.of_nat (length multiaddr)) 20
  | ImAlive => Done BASE_TX_GAS
  end.

Record Transaction := mkTransaction {
  sender_public_key : bytes;
  data : TransactionData;
  nonce : N;
  max_fee_per_gas : N;
  max_priority_fee_per_gas : N;
  tx_signature : Signature;
  chain_id : bytes;
}.

(** ** The order of the pool *)
Definition FAKE_BASE_FEE : N := 10.

Definition effective_tip (t : Transaction) : N :=
  N.min (saturating_sub (max_fee_per_gas t) FAKE_BASE_FEE) (max_priority_fee_per_gas t).

(** [Ord::cmp]: by the tip, then the lower nonce first. *)
Definition cmp (a b : Transaction) : comparison :=
  match effective_tip a ?= effective_tip b with
  | Eq => nonce b ?= nonce a
  | c => c
  end.

Definition partial_cmp (a b : Transaction) : option comparison := Some (cmp a b).

(** ** Signed bytes *)
Class DataCodec := encode_data : TransactionData → option bytes.

Section signing.
Context `{!Crypto} `{!DataCodec}.

Definition sender (t : Transaction) : Address := public_key_to_address (sender_public_key t).

Definition tx_canonical_bytes (t : Transaction) : outcome bytes :=
  encoded ← unwrap (encode_data (data t));
  Done (chain_id t ++ sender_public_key t ++ encoded ++ to_be_bytes (nonce t) ++
        to_be_bytes (max_fee_per_gas t) ++ to_be_bytes (max_priority_fee_per_gas t)).

Definition tx_message_hash (t : Transaction) : outcome bytes :=
  bs ← tx_canonical_bytes t; Done (sha256 bs).

(** [PartialEq::eq]: equality of the message hashes. *)
Definition tx_eq (a b : Transaction) : outcome bool :=
  ha ← tx_message_hash a;
  hb ← tx_message_hash b;
  Done (bool_decide (ha = hb)).
End signing.

(** ** Lemmas *)

(** The gas of a payload of a realistic size is the exact sum. *)
Lemma base_gas_exact `{!Profile} d :
  (match d with
   | SubmitRollupBatch _ _ b _ _ _ _ _ | DeployContract b | UpdateNetworkIdentity b =>
       N.of_nat (length b) < 2 ^ 48
   | SubmitAggregateRollupBatch _ _ _ k => k < 2 ^ 32
   | _ => True
   end) →
  ∃ g, base_gas_cost d = Done g ∧ BASE_TX_GAS ≤ g < U64.
Proof.
  assert (∀ extra n k, extra ≤ 500000 → n < 2 ^ 48 → k ≤ 10000 →
    gas extra n k = Done (BASE_TX_GAS + extra + n * k) ∧ BASE_TX_GAS + extra + n * k < U64) as Hgas.
  { intros extra n k He Hn Hk. assert (n * k ≤ 2 ^ 48 * 10000) by nia. unfold gas, BASE_TX_GAS.
    rewrite u64_add_ok by (unfold U64; lia). cbn [mbind outcome_bind].
    rewrite u64_mul_ok by (unfold U64; lia). cbn [mbind outcome_bind].
    rewrite u64_add_ok by (unfold U64; lia). split; [done|unfold U64; lia]. }
  destruct d; simpl; intros Hd; try (by eexists); try (by rewrite u64_add_ok; eexists).
  - destruct (Hgas 300000 _ 50 ltac:(lia) Hd ltac:(lia)) as [-> ?]. eexists. split; [done|lia].
  - destruct (Hgas 500000 num_batches 10000) as [-> ?]; [lia|lia|lia|]. eexists. split; [done|lia].
  - destruct (Hgas 150000 _ 200 ltac:(lia) Hd ltac:(lia)) as [-> ?]. eexists. split; [done|lia].
  - destruct (Hgas 1000 _ 20 ltac:(lia) Hd ltac:(lia)) as [-> ?]. eexists. split; [done|lia].
Qed.

(** The pool's order is a total preorder: it does not depend on the order of the
    arguments and it is transitive. *)
Lemma cmp_antisym a b : cmp b a = CompOpp (cmp a b).
Proof.
  unfold cmp. rewrite (N.compare_antisym (effective_tip a)).
  destruct (effective_tip a ?= effective_tip b); simpl; [apply N.compare_antisym|done..].
Qed.

Lemma cmp_spec a b :
  cmp a b ≠ Gt ↔ effective_tip a < effective_tip b ∨
    effective_tip a = effective_tip b ∧ nonce b ≤ nonce a.
Proof.
  unfold cmp. destruct (N.compare_spec (effective_tip a) (effective_tip b)).
  - rewrite N.compare_le_iff. split; [auto|]. intros [?|[_ ?]]; [lia|done].
  - split; [auto|done].
  - split; [done|]. intros [?|[? _]]; lia.
Qed.

Lemma cmp_trans a b c : cmp a b ≠ Gt → cmp b c ≠ Gt → cmp a c ≠ Gt.
Proof. rewrite !cmp_spec. lia. Qed.
