(* ===== verification/Wire.v ===== *)
(** * What the sequencer puts on the wire ([evice-multi-sequencer/src/lib.rs],
      [consensus/types.rs], [p2p/types.rs], [common/src/transaction.rs])

    The borsh formats that the source derives for its messages, and the bridge of
    [node/src/main.rs] that reads transactions out of payloads.  [WireLaws] is what
    the network loop's clients may rely on; the derived formats satisfy it. *)

From S2P Require Import Prelude Bytes Borsh SeqTypes P2pTypes Committee Consensus ToyCrypto Swarm Transaction.

(** ** The derived formats *)

(** Field by field, in the order of the declaration. *)
Ltac solve_iso := intros; repeat match goal with
  | x : (_ * _)%type |- _ => destruct x
  | x : (_ + _)%type |- _ => destruct x
  | x : () |- _ => destruct x
  end; try reflexivity; match goal with x : _ |- _ => destruct x; reflexivity end.

#[local] Obligation Tactic := solve_iso.

Definition fmt_address : Format Address := fmt_fixed ADDRESS_SIZE.

Lemma solid_address : solid fmt_address.
Proof. apply solid_fixed. unfold ADDRESS_SIZE. lia. Qed.

(** [QuorumCertificate] *)
Program Definition fmt_qc : Format QuorumCertificate :=
  fmt_iso (fmt_pair fmt_bytes (fmt_pair fmt_u64
            (fmt_vec (fmt_pair fmt_address fmt_bytes) (solid_pair _ _ solid_address))))
    (λ '(batch_hash, (view_number, signatures)), mkQc batch_hash view_number signatures)
    (λ qc, (qc_batch_hash qc, (qc_view_number qc, qc_signatures qc))) _ _.

(** [BatchHeader] *)
Program Definition fmt_header : Format BatchHeader :=
  fmt_iso (fmt_pair fmt_u64 (fmt_pair fmt_bytes (fmt_pair fmt_u64 (fmt_pair fmt_bytes
            (fmt_pair fmt_address (fmt_pair fmt_bytes (fmt_pair fmt_bytes fmt_bytes)))))))
    (λ '(index, (prev_hash, (timestamp, (payloads_root, (authority, (vrf_output, (vrf_proof, signature))))))),
       mkHeader index prev_hash timestamp payloads_root authority vrf_output vrf_proof signature)
    (λ h, (h_index h, (h_prev_hash h, (h_timestamp h, (h_payloads_root h,
            (h_authority h, (h_vrf_output h, (h_vrf_proof h, h_signature h)))))))) _ _.

(** [VelocityVote] *)
Program Definition fmt_vote : Format VelocityVote :=
  fmt_iso (fmt_pair fmt_u64 (fmt_pair fmt_bytes (fmt_pair fmt_address fmt_bytes)))
    (λ '(round_id, (batch_hash, (voter_address, signature))), mkVote round_id batch_hash voter_address signature)
    (λ v, (vv_round_id v, (vv_batch_hash v, (vv_voter_address v, vv_signature v)))) _ _.

(** [AppPayload] is its bytes. *)
Definition fmt_payload : Format AppPayload := fmt_bytes.
Definition fmt_payloads : Format (list AppPayload) := fmt_vec fmt_payload solid_bytes.

(** [PayloadBatch] *)
Program Definition fmt_batch : Format PayloadBatch :=
  fmt_iso (fmt_pair fmt_header (fmt_pair fmt_payloads (fmt_pair fmt_qc fmt_u64)))
    (λ '(header, (payloads, (justify, round))), mkBatch header payloads justify round)
    (λ b, (pb_header b, (pb_payloads b, (pb_justify b, pb_round b)))) _ _.

(** [OptimisticConfirmation] *)
Program Definition fmt_confirmation : Format OptimisticConfirmation :=
  fmt_iso (fmt_pair fmt_header (fmt_pair (fmt_vec fmt_bytes solid_bytes) (fmt_pair fmt_qc fmt_u64)))
    (λ '(header, (payload_hashes, (parent_qc, round))), mkConfirmation header payload_hashes parent_qc round)
    (λ c, (oc_header c, (oc_payload_hashes c, (oc_parent_qc c, oc_round c)))) _ _.

(** [ConsensusMessage]; a [Box] is its content. *)
Program Definition fmt_consensus_message : Format ConsensusMessage :=
  fmt_iso (fmt_enum (v_cons fmt_batch (v_cons fmt_vote (v_last fmt_qc))))
    (λ v, match v with
          | inl batch => IntentBatchProposal batch
          | inr (inl vote) => VelocityVoteMsg vote
          | inr (inr qc) => NewQuorumCertificate qc
          end)
    (λ msg, match msg with
            | IntentBatchProposal batch => inl batch
            | VelocityVoteMsg vote => inr (inl vote)
            | NewQuorumCertificate qc => inr (inr qc)
            end) _ _.

(** [ChainMessage] *)
Program Definition fmt_chain_message : Format ChainMessage :=
  fmt_iso (fmt_enum (v_cons fmt_payload (v_last fmt_consensus_message)))
    (λ v, match v with inl payload => NewPayload payload | inr msg => NewConsensusMessage msg end)
    (λ msg, match msg with NewPayload payload => inl payload | NewConsensusMessage msg => inr msg end) _ _.

(** [SyncRequest]: borsh is used on the fallback topic. *)
Program Definition fmt_sync_request : Format SyncRequest :=
  fmt_iso (fmt_enum (v_cons (fmt_vec fmt_string solid_string) (v_cons fmt_consensus_message (v_cons fmt_bytes
            (v_cons (fmt_pair fmt_confirmation fmt_payloads) (v_last fmt_vote))))))
    (λ v, match v with
          | inl addrs => InformAboutPeers addrs
          | inr (inl msg) => ConsensusRequest msg
          | inr (inr (inl hash)) => GetFullProposal hash
          | inr (inr (inr (inl (confirmation, payloads)))) => FullProposalForCommittee confirmation payloads
          | inr (inr (inr (inr vote))) => SubmitVote vote
          end)
    (λ r, match r with
          | InformAboutPeers addrs => inl addrs
          | ConsensusRequest msg => inr (inl msg)
          | GetFullProposal hash => inr (inr (inl hash))
          | FullProposalForCommittee confirmation payloads => inr (inr (inr (inl (confirmation, payloads))))
          | SubmitVote vote => inr (inr (inr (inr vote)))
          end) _ _.

(** [TransactionData].  The position of a variant: *)
#[local] Abbreviation at0 x := (inl x) (only parsing).
#[local] Abbreviation at1 x := (inr (inl x)) (only parsing).
#[local] Abbreviation at2 x := (inr (inr (inl x))) (only parsing).
#[local] Abbreviation at3 x := (inr (inr (inr (inl x)))) (only parsing).
#[local] Abbreviation at4 x := (inr (inr (inr (inr (inl x))))) (only parsing).
#[local] Abbreviation at5 x := (inr (inr (inr (inr (inr (inl x)))))) (only parsing).
#[local] Abbreviation at6 x := (inr (inr (inr (inr (inr (inr (inl x))))))) (only parsing).
#[local] Abbreviation at7 x := (inr (inr (inr (inr (inr (inr (inr (inl x)))))))) (only parsing).
#[local] Abbreviation at8 x := (inr (inr (inr (inr (inr (inr (inr (inr (inl x))))))))) (only parsing).
#[local] Abbreviation at9 x := (inr (inr (inr (inr (inr (inr (inr (inr (inr (inl x)))))))))) (only parsing).
#[local] Abbreviation at10 x := (inr (inr (inr (inr (inr (inr (inr (inr (inr (inr x)))))))))) (only parsing).

Definition data_variants :=
  v_cons (fmt_pair fmt_address fmt_u64) (
  v_cons fmt_u64 (
  v_cons (fmt_pair fmt_bytes (fmt_pair fmt_bytes (fmt_pair fmt_bytes (fmt_pair fmt_bytes (fmt_pair fmt_bool
              (fmt_pair fmt_bytes (fmt_pair fmt_bytes (fmt_vec fmt_bytes solid_bytes)))))))) (
  v_cons (fmt_pair fmt_bytes (fmt_pair fmt_bytes (fmt_pair fmt_bytes fmt_u32))) (
  v_cons fmt_u64 (
  v_cons fmt_unit (
  v_cons fmt_unit (
  v_cons fmt_bytes (
  v_cons (fmt_pair fmt_address fmt_bytes) (
  v_cons fmt_bytes (
  v_last fmt_unit)))))))))).

Definition data_to v : TransactionData :=
  match v with
  | at0 (recipient, amount) => Transfer recipient amount
  | at1 amount => Stake amount
  | at2 (old_state_root, (new_state_root, (compressed_batch, (zk_proof, (is_test_tx, (vrf_output, (vrf_proof, dac_signatures))))))) =>
      SubmitRollupBatch old_state_root new_state_root compressed_batch zk_proof is_test_tx vrf_output vrf_proof dac_signatures
  | at3 (initial_state_root, (final_state_root, (aggregated_proof, num_batches))) =>
      SubmitAggregateRollupBatch initial_state_root final_state_root aggregated_proof num_batches
  | at4 amount => DepositToL2 amount
  | at5 () => RegisterAsSequencer
  | at6 () => DeregisterAsSequencer
  | at7 code => DeployContract code
  | at8 (contract_address, call_data) => CallContract contract_address call_data
  | at9 multiaddr => UpdateNetworkIdentity multiaddr
  | at10 () => ImAlive
  end.

Definition data_from (d : TransactionData) :=
  match d with
  | Transfer recipient amount => at0 (recipient, amount)
  | Stake amount => at1 amount
  | SubmitRollupBatch old_state_root new_state_root compressed_batch zk_proof is_test_tx vrf_output vrf_proof dac_signatures =>
      at2 (old_state_root, (new_state_root, (compressed_batch, (zk_proof, (is_test_tx, (vrf_output, (vrf_proof, dac_signatures)))))))
  | SubmitAggregateRollupBatch initial_state_root final_state_root aggregated_proof num_batches =>
      at3 (initial_state_root, (final_state_root, (aggregated_proof, num_batches)))
  | DepositToL2 amount => at4 amount
  | RegisterAsSequencer => at5 ()
  | DeregisterAsSequencer => at6 ()
  | DeployContract code => at7 code
  | CallContract contract_address call_data => at8 (contract_address, call_data)
  | UpdateNetworkIdentity multiaddr => at9 multiaddr
  | ImAlive => at10 ()
  end.

Lemma data_from_to v : data_from (data_to v) = v.
Proof. solve_iso. Qed.

Lemma data_to_from d : data_to (data_from d) = d.
Proof. by destruct d. Qed.

Definition fmt_data : Format TransactionData := fmt_iso (fmt_enum data_variants) data_to data_from data_from_to data_to_from.

(** [Transaction]; the sender's key has a hand-written format, its bytes. *)
Program Definition fmt_transaction : Format Transaction :=
  fmt_iso (fmt_pair (fmt_fixed PUBLIC_KEY_SIZE) (fmt_pair fmt_data (fmt_pair fmt_u64 (fmt_pair fmt_u64
            (fmt_pair fmt_u64 (fmt_pair fmt_bytes fmt_text))))))
    (λ '(key, (data, (nonce, (max_fee, (max_priority_fee, (signature, chain_id)))))),
       mkTransaction key data nonce max_fee max_priority_fee signature chain_id)
    (λ t, (sender_public_key t, (data t, (nonce t, (max_fee_per_gas t,
            (max_priority_fee_per_gas t, (tx_signature t, chain_id t))))))) _ _.

(** ** The bridge

    The task of [main] that is to carry sequenced payloads to the engine: it reads
    a transaction out of a payload and logs what it is. *)
Inductive BridgeLog :=
| BridgeCall (from : Address) (call_data_len : nat)
| BridgeIgnored (from : Address)
| BridgeUnreadable.

Definition bridge_step `{!Crypto} (msg : ChainMessage) : list BridgeLog :=
  match msg with
  | NewPayload payload =>
      match from_slice fmt_transaction payload with
      | Some tx =>
          match data tx with
          | CallContract _ call_data => [BridgeCall (sender tx) (length call_data)]
          | _ => [BridgeIgnored (sender tx)]
          end
      | None => [BridgeUnreadable]
      end
  | NewConsensusMessage _ => []
  end.

(** The bridge takes a payload for a transaction exactly when the payload is the
    encoding of one. *)
Lemma bridge_reads_encodings `{!Crypto} payload :
  bridge_step (NewPayload payload) ≠ [BridgeUnreadable] ↔ ∃ tx, to_vec fmt_transaction tx = Some payload.
Proof.
  cbn [bridge_step]. destruct (from_slice fmt_transaction payload) as [tx|] eqn:Htx.
  - split; [|by destruct (data tx)]. intros _. exists tx. by apply from_slice_to_vec.
  - split; [done|]. intros [tx Hto%from_slice_to_vec]. congruence.
Qed.

(** ** The contract of the wire *)
Class WireLaws `{!Wire} := {
  decode_chain_message_iff msg bs : decode_chain_message bs = Some msg ↔ encode_chain_message msg = Some bs;
}.

(** The derived formats, with any rendering of multiaddresses. *)
Definition borsh_wire (show : Multiaddr → string) : Wire := {|
  encode_chain_message := to_vec fmt_chain_message;
  decode_chain_message := from_slice fmt_chain_message;
  decode_sync_request := from_slice fmt_sync_request;
  show_multiaddr := show;
|}.

#[export] Instance borsh_wire_laws show : @WireLaws (borsh_wire show).
Proof. split. intros msg bs. apply from_slice_to_vec. Qed.

(** borsh as the engine uses it for the identity of a message. *)
Class MessageCodecLaws `{!Crypto} :=
  borsh_to_vec_inj msg msg' bs : borsh_to_vec msg = Some bs → borsh_to_vec msg' = Some bs → msg = msg'.

Section gossip.
Context `{!Crypto} `{!Profile} `{!Logging} `{!Net} `{!Wire} `{!WireLaws}.

(** C23. Gossip is faithful.  What a node publishes for a message of its engine is
    handed, by every node that receives it, to that node's engine as the same
    message, and the sender's score rises by two, up to 100; and no other bytes
    make a node hand that message to its engine. *)
Theorem gossip_is_faithful s now connected dial_ok msg data s' now' peer :
  handle_p2p_command s now connected dial_ok (BroadcastConsensusMessage msg) = Done (s, [Publish data]) →
  map_Forall (λ _, score_ok) (peer_scores s') →
  (∃ s'' info, handle_gossip s' now' peer data = Done (s'', [ToConsensus msg peer]) ∧
     peer_scores s'' = <[peer := info]> (peer_scores s') ∧
     score info = Z.min (score (default peer_new (peer_scores s' !! peer)) + 2) 100) ∧
  (∀ data' s'' acts peer', handle_gossip s' now' peer data' = Done (s'', acts) →
     ToConsensus msg peer' ∈ acts → data' = data ∧ peer' = peer).
Proof.
  intros Hpub Hok. cbn [handle_p2p_command] in Hpub.
  destruct (encode_chain_message (NewConsensusMessage msg)) as [bs|] eqn:Henc; [|done].
  injection Hpub as ->. assert (score_ok (default peer_new (peer_scores s' !! peer))) as Hscore.
  { destruct (peer_scores s' !! peer) as [info|] eqn:Hp; [by apply (Hok _ _ Hp)|]. by vm_compute. }
  unfold handle_gossip. split.
  - rewrite (proj2 (decode_chain_message_iff _ _) Henc). cbv beta iota zeta. rewrite decide_False by lia.
    destruct (apply_reward_run REWARD_VALID_MESSAGE _ Hscore) as (info & Hrun & _ & Hs & _);
      [by vm_compute..|]. rewrite Hrun. cbn [mbind outcome_bind]. by exists (set_scores s' (<[peer := info]> (peer_scores s'))), info.
  - intros data' s'' acts peer'. destruct (decode_chain_message data') as [[payload|msg']|] eqn:Hdec.
    + destruct (decide _); [by destruct (apply_penalty _ _ _); [intros [= <- <-]; set_solver|..]|].
      destruct (apply_reward _ _); [intros [= <- <-]; set_solver|done..].
    + rewrite decide_False by lia. destruct (apply_reward _ _); [|done..]. cbn [mbind outcome_bind].
      intros [= <- <-] [= <- <-]%list_elem_of_singleton. apply decode_chain_message_iff in Hdec.
      split; [congruence|done].
    + destruct (decide _); [by destruct (apply_penalty _ _ _); [intros [= <- <-]; set_solver|..]|].
      destruct (apply_reward _ _); [intros [= <- <-]; set_solver|done..].
Qed.
End gossip.

(** ** The filter for duplicates *)
Section duplicates.
Context `{!Crypto} `{!MessageCodecLaws} `{!Profile} `{!Logging}.
Context {C : Type} `{!Lru C} `{!LruLaws C}.
Context (cfg : Config).
Implicit Types (n : Node C).

(** A history of the node: sections of tasks, and any other change of the node
    that leaves the cache alone. *)
Inductive history : Node C → list Task → Node C → Prop :=
| history_nil n : recently_processed_hashes n = lru_empty → history n [] n
| history_task n0 ts n env t n' cmds ts' :
    history n0 ts n → task_step cfg env n t = Done (n', cmds, ts') → history n0 (ts ++ [t]) n'
| history_other n0 ts n n' :
    history n0 ts n → recently_processed_hashes n' = recently_processed_hashes n → history n0 ts n'.

(** Only the section that stores a message's hash writes the cache. *)
Lemma task_step_recent env n t n' cmds ts k :
  task_step cfg env n t = Done (n', cmds, ts) → lru_contains (recently_processed_hashes n') k = true →
  lru_contains (recently_processed_hashes n) k = true ∨
  ∃ msg source, t = Message_put msg source ∧ consensus_message_hash msg = k.
Proof.
  intros Hstep Hk. destruct t; unfold_section; unfold mbind, outcome_bind in Hstep;
    repeat case_match; try done; simplify_eq; eauto.
  all: cbn [recently_processed_hashes with_recent] in Hk; apply lru_contains_other in Hk as [->|Hk]; eauto.
Qed.

Lemma history_recent n0 ts n k :
  history n0 ts n → lru_contains (recently_processed_hashes n) k = true →
  ∃ msg source, Message_put msg source ∈ ts ∧ consensus_message_hash msg = k.
Proof.
  induction 1 as [n Hn|n0 ts n env t n' cmds ts' Hh IH Hstep|n0 ts n n' Hh IH Heq]; intros Hk.
  - by rewrite Hn, lru_contains_empty in Hk.
  - destruct (task_step_recent _ _ _ _ _ _ _ Hstep Hk) as [Hold|(msg & source & -> & <-)].
    + destruct (IH Hold) as (msg & source & Hin & <-). exists msg, source. set_solver.
    + exists msg, source. set_solver.
  - rewrite Heq in Hk. auto.
Qed.

(** A collision of the hash. *)
Definition sha256_collision : Prop := ∃ x y, x ≠ y ∧ sha256 x = sha256 y.

Lemma consensus_message_hash_inj msg msg' :
  is_Some (borsh_to_vec msg) → is_Some (borsh_to_vec msg') →
  consensus_message_hash msg = consensus_message_hash msg' → msg = msg' ∨ sha256_collision.
Proof.
  intros [bs Hbs] [bs' Hbs']. unfold consensus_message_hash. rewrite Hbs, Hbs'. intros Heq.
  destruct (decide (bs = bs')) as [<-|Hne]; [left; by eapply borsh_to_vec_inj|right; by exists bs, bs'].
Qed.

(** No message is lost to the filter.  Whatever the node did before, if the engine
    drops a message as a duplicate, the same message was taken up before, or
    SHA-256 has a collision.  Every message is small enough to be encoded. *)
Theorem dropped_message_was_processed n0 ts n msg source :
  history n0 ts n → is_Some (borsh_to_vec msg) →
  (∀ m from, Message_put m from ∈ ts → is_Some (borsh_to_vec m)) →
  message_check n msg source = Done (n, [], []) →
  (∃ from, Message_put msg from ∈ ts) ∨ sha256_collision.
Proof.
  intros Hh Hmsg Hall Hdrop. unfold message_check in Hdrop. destruct (lru_contains _ _) eqn:Hc; [|done].
  destruct (history_recent _ _ _ _ Hh Hc) as (msg' & from & Hin & Heq).
  destruct (consensus_message_hash_inj msg' msg (Hall _ _ Hin) Hmsg Heq) as [->|?]; eauto.
Qed.
End duplicates.

(** ** Runs *)
Module WireRuns.
#[local] Instance debug : Profile := true.
#[local] Instance all_levels : Logging := λ _, true.
#[local] Instance wire : Wire := borsh_wire (λ _, "m"%string).
#[local] Instance no_net : Net := ToyCrypto.toy_net.

Definition small_qc : QuorumCertificate := mkQc [Byte.xaa] 258 [(replicate 20 Byte.x01, [Byte.x07; Byte.x08])].
Definition qc_message : ConsensusMessage := NewQuorumCertificate small_qc.

(** The bytes of a gossiped certificate: the two variant numbers, the hash behind
    its length, the view in little-endian, one signature. *)
Definition qc_bytes : bytes :=
  [Byte.x01; Byte.x02; Byte.x01; Byte.x00; Byte.x00; Byte.x00; Byte.xaa;
   Byte.x02; Byte.x01; Byte.x00; Byte.x00; Byte.x00; Byte.x00; Byte.x00; Byte.x00;
   Byte.x01; Byte.x00; Byte.x00; Byte.x00] ++ replicate 20 Byte.x01 ++
  [Byte.x02; Byte.x00; Byte.x00; Byte.x00; Byte.x07; Byte.x08].

Example qc_is_encoded : to_vec fmt_chain_message (NewConsensusMessage qc_message) = Some qc_bytes.
Proof. vm_compute. reflexivity. Qed.

(** A trailing byte, a missing byte and an unknown variant are refused. *)
Example malformed_is_refused :
  from_slice fmt_chain_message (qc_bytes ++ [Byte.x00]) = None ∧
  from_slice fmt_chain_message (take 40 qc_bytes) = None ∧
  from_slice fmt_chain_message [Byte.x02] = None.
Proof. vm_compute. done. Qed.

Lemma gossip_is_faithful_witness :
  (∃ s'' info, handle_gossip swarm_new 5 "peer" qc_bytes = Done (s'', [ToConsensus qc_message "peer"]) ∧
     peer_scores s'' = <["peer"%string := info]> ∅ ∧ score info = 2%Z) ∧
  (∀ data' s'' acts peer', handle_gossip swarm_new 5 "peer" data' = Done (s'', acts) →
     ToConsensus qc_message peer' ∈ acts → data' = qc_bytes ∧ peer' = "peer"%string).
Proof.
  apply (gossip_is_faithful swarm_new 0 [] true qc_message qc_bytes swarm_new 5 "peer").
  - vm_compute. reflexivity.
  - apply map_Forall_empty.
Defined.

(** A contract call in a payload, as the bridge sees it. *)
Definition call_tx : Transaction :=
  mkTransaction (replicate 1312 Byte.x05) (CallContract (replicate 20 Byte.x02) [Byte.x01; Byte.x02; Byte.x03])
    1 2 3 [] [Byte.x65].

Example bridge_sees_the_call :
  bridge_step (NewPayload (default [] (to_vec fmt_transaction call_tx))) = [BridgeCall (sender call_tx) 3].
Proof. vm_compute. reflexivity. Qed.

(** The stand-ins for the cryptography, with borsh as it is. *)
#[local] Instance borsh_crypto : Crypto := {|
  sha256 := toy_hash; keccak256 := toy_hash;
  pk_from_bytes := @pk_from_bytes toy_crypto; sk_from_bytes := @sk_from_bytes toy_crypto;
  sig_from_bytes := @sig_from_bytes toy_crypto; detached_sign := @detached_sign toy_crypto;
  verify_detached_signature := @verify_detached_signature toy_crypto; key_pair := @key_pair toy_crypto;
  vrf_pk_from_bytes := @vrf_pk_from_bytes toy_crypto; preout_from_bytes := @preout_from_bytes toy_crypto;
  proof_from_bytes := @proof_from_bytes toy_crypto; vrf_sign := @vrf_sign toy_crypto;
  vrf_verify := @vrf_verify toy_crypto; vrf_pair := @vrf_pair toy_crypto;
  borsh_to_vec := to_vec fmt_consensus_message;
  shuffle := @shuffle toy_crypto; vrf_secret_from_bytes := @vrf_secret_from_bytes toy_crypto;
|}.

#[local] Instance borsh_message_laws : MessageCodecLaws.
Proof. intros msg msg' bs. apply to_vec_inj. Qed.

Definition config : Config := mkConfig [] (mkValidatorKeys (mkKeyPair [] []) []) (mkParams 4 1200).
Definition fresh : Node (list bytes) := consensus_state_new genesis_qc 0 ∅.
Definition after : Node (list bytes) := with_recent fresh [consensus_message_hash qc_message].

Lemma dropped_message_was_processed_witness :
  (∃ from, Message_put qc_message from ∈ [Message_put qc_message "peer"]) ∨ sha256_collision.
Proof.
  apply (dropped_message_was_processed config fresh [Message_put qc_message "peer"] after qc_message "other").
  - apply (history_task config fresh [] fresh (mkEnv 0 0 []) (Message_put qc_message "peer") after [] [Qc_verify small_qc "peer"]).
    + by apply history_nil.
    + vm_compute. reflexivity.
  - vm_compute. by eexists.
  - intros m from [= -> ->]%list_elem_of_singleton. vm_compute. by eexists.
  - vm_compute. reflexivity.
Defined.
End WireRuns.
