(* ===== verification/Channels.v ===== *)
(** * The channels between the network and the engine ([p2p/swarm.rs],
      [consensus/engine.rs], [node/src/main.rs])

    The network loop and the engine talk through bounded channels, and the loop
    shares the table of peer scores with the tasks it spawns.  [Swarm.v] says what
    a branch of the loop does; this file says where it waits: for a place in a
    channel or for the table.  A branch's sends are read off the actions of
    [Swarm.v]; those of a gossiped message are made while the table is locked.

    tokio serves the waiters of a mutex and of a channel in their order; the steps
    below let any of them go first, so what holds for all of them holds for
    tokio's. *)

From S2P Require Import Prelude Bytes SeqTypes P2pTypes Committee Consensus ToyCrypto Swarm Transaction Wire.

(** Places in a channel. *)
Definition CONSENSUS_MSG_CAPACITY : nat := 100.
Definition P2P_CMD_CAPACITY : nat := 100.
Definition RESPONSE_CAPACITY : nat := 32.

(** What a branch or a task does that may have to wait. *)
Inductive Op :=
| LockScores
| UnlockScores
| SendEngine
| SendReply
| SendCommand (cmd : P2pCommand).

(** The sends among a branch's actions, in their order. *)
Definition send_op (a : Action) : option Op :=
  match a with
  | ToConsensus _ _ => Some SendEngine
  | SendResponse _ => Some SendReply
  | ToSelf cmd => Some (SendCommand cmd)
  | _ => None
  end.

Definition send_ops (acts : list Action) : list Op := omap send_op acts.

Section channels.
Context `{!Crypto} `{!Profile} `{!Logging} `{!Net} `{!Wire}.
Context {C : Type} (local_peer_id : PeerId) (is_bootstrap_node dev_mode : bool).
(** Whether the node is an authority, so that an engine reads the messages. *)
Context (listening : bool).
Implicit Types (ev : SwarmEvent (C := C)) (acts : list Action).

(** What the loop does itself, in the branch of an event. *)
Definition loop_ops ev acts : list Op :=
  match ev with
  | Ev_command _ _ _ (ApplyPenalty _ _) | Ev_established _ _ _ | Ev_closed _ => [LockScores; UnlockScores]
  | Ev_sync_response _ _ => send_ops acts
  | _ => []
  end.

(** What the task does that the branch spawns. *)
Definition task_ops ev acts : list (list Op) :=
  match ev with
  | Ev_gossip _ _ _ => [LockScores :: send_ops acts ++ [UnlockScores]]
  | Ev_fallback _ _ _ | Ev_request _ _ _ => [send_ops acts]
  | _ => []
  end.

(** Events that come from outside the node. *)
Definition external ev : bool :=
  match ev with
  | Ev_command _ _ _ _ | Ev_response _ => false
  | _ => true
  end.

(** The processes, the loop first; who has the table; what is in the channels. *)
Record Channels := mkChannels {
  procs : list (list Op);
  owner : option nat;
  to_engine : nat;
  replies : nat;
  commands : list P2pCommand;
}.

Definition net_new : Channels := mkChannels [[]] None 0 0 [].

(** One process moves. *)
Inductive proc_step (s : Channels) (i : nat) : Channels → Prop :=
| step_lock p : procs s !! i = Some (LockScores :: p) → owner s = None →
    proc_step s i (mkChannels (<[i := p]> (procs s)) (Some i) (to_engine s) (replies s) (commands s))
| step_unlock p : procs s !! i = Some (UnlockScores :: p) → owner s = Some i →
    proc_step s i (mkChannels (<[i := p]> (procs s)) None (to_engine s) (replies s) (commands s))
| step_send_engine p : procs s !! i = Some (SendEngine :: p) → (to_engine s < CONSENSUS_MSG_CAPACITY)%nat →
    proc_step s i (mkChannels (<[i := p]> (procs s)) (owner s) (S (to_engine s)) (replies s) (commands s))
| step_send_reply p : procs s !! i = Some (SendReply :: p) → (replies s < RESPONSE_CAPACITY)%nat →
    proc_step s i (mkChannels (<[i := p]> (procs s)) (owner s) (to_engine s) (S (replies s)) (commands s))
| step_send_command p cmd : procs s !! i = Some (SendCommand cmd :: p) →
    (length (commands s) < P2P_CMD_CAPACITY)%nat →
    proc_step s i (mkChannels (<[i := p]> (procs s)) (owner s) (to_engine s) (replies s) (commands s ++ [cmd])).

(** What the node does by itself: a process moves, the engine takes a message and
    starts its handler, which sends at most two commands, or the loop, back at its
    [select!], takes a reply or a command. *)
Inductive internal : Channels → Channels → Prop :=
| int_proc s i s' : proc_step s i s' → internal s s'
| int_engine s k cmds : listening = true → to_engine s = S k → (length cmds ≤ 2)%nat →
    internal s (mkChannels (procs s ++ [SendCommand <$> cmds]) (owner s) k (replies s) (commands s))
| int_reply s k : procs s !! 0%nat = Some [] → replies s = S k →
    internal s (mkChannels (procs s) (owner s) (to_engine s) k (commands s))
| int_command s now connected dial_ok cmd cmds :
    procs s !! 0%nat = Some [] → commands s = cmd :: cmds →
    internal s (mkChannels (<[0%nat := loop_ops (Ev_command now connected dial_ok cmd) []]> (procs s)) (owner s)
                  (to_engine s) (replies s) cmds).

(** What happens to it: an event of libp2p, taken by the loop at its [select!], or
    a step of the round, which sends at most two commands. *)
Inductive outside : Channels → Channels → Prop :=
| out_event s sw sw' ev acts :
    procs s !! 0%nat = Some [] → external ev = true →
    swarm_step local_peer_id is_bootstrap_node dev_mode sw ev = Done (sw', acts) →
    outside s (mkChannels (<[0%nat := loop_ops ev acts]> (procs s) ++ task_ops ev acts) (owner s)
                 (to_engine s) (replies s) (commands s))
| out_round s cmds : listening = true → (length cmds ≤ 2)%nat →
    outside s (mkChannels (procs s ++ [SendCommand <$> cmds]) (owner s) (to_engine s) (replies s) (commands s)).

Definition net_step (s s' : Channels) : Prop := internal s s' ∨ outside s s'.

Definition net_reach : Channels → Prop := rtc net_step net_new.

(** Everything is done and the loop waits for the next event. *)
Definition quiet (s : Channels) : Prop :=
  Forall (.= []) (procs s) ∧ owner s = None ∧ to_engine s = 0%nat ∧ replies s = 0%nat ∧ commands s = [].

(** ** The invariant *)

(** A process that does not hold the table only sends, or is about to take the
    table, send to the engine and give it back; one that holds it has the last two
    to do. *)
Definition is_send (o : Op) : Prop := o ≠ LockScores ∧ o ≠ UnlockScores.
Definition holding (p : list Op) : Prop := ∃ k, p = replicate k SendEngine ++ [UnlockScores].
Definition idle (p : list Op) : Prop := Forall is_send p ∨ ∃ q, p = LockScores :: q ∧ holding q.

(** The loop itself never sends to its own channels. *)
Definition loop_only (p : list Op) : Prop := Forall (λ o, match o with SendReply | SendCommand _ => False | _ => True end) p.

Record channels_ok (s : Channels) : Prop := {
  ok_owner i : owner s = Some i → ∃ p, procs s !! i = Some p ∧ holding p;
  ok_idle i p : procs s !! i = Some p → owner s ≠ Some i → idle p;
  ok_loop : ∃ p, procs s !! 0%nat = Some p ∧ loop_only p;
}.

Lemma idle_sends (p : list Op) : Forall is_send p → idle p.
Proof. by left. Qed.

Lemma idle_nil : idle [].
Proof. left. constructor. Qed.

Lemma idle_commands cmds : idle (SendCommand <$> cmds).
Proof. left. apply Forall_fmap, Forall_true. by intros cmd. Qed.

Lemma send_ops_sends acts : Forall is_send (send_ops acts).
Proof.
  unfold send_ops. induction acts as [|a acts IH]; csimpl; [constructor|].
  destruct a; simpl; try done; by constructor.
Qed.

(** One process changes and the others keep what they have. *)
Lemma ok_insert s i q p o (m r : nat) (c : list P2pCommand) :
  channels_ok s → procs s !! i = Some q → (loop_only q → loop_only p) →
  (∀ j, j ≠ i → owner s = Some j ↔ o = Some j) → (o = Some i → holding p) → (o ≠ Some i → idle p) →
  channels_ok (mkChannels (<[i := p]> (procs s)) o m r c).
Proof.
  intros [Hown Hidle (q0 & Hq0 & Hl0)] Hq Hloop Hoth Hh Hi. split; cbn [procs owner].
  - intros j ->. destruct (decide (j = i)) as [->|Hne].
    + exists p. split; [|by apply Hh]. apply list_lookup_insert_eq. by eapply lookup_lt_Some.
    + rewrite list_lookup_insert_ne by done. apply Hown. by apply Hoth.
  - intros j q' [(-> & <- & _)|[Hne Hj]]%list_lookup_insert_Some Ho; [by apply Hi|].
    apply (Hidle j); [done|]. by rewrite Hoth.
  - destruct (decide (i = 0%nat)) as [->|Hne].
    + exists p. split; [apply list_lookup_insert_eq; by eapply lookup_lt_Some|]. apply Hloop. congruence.
    + exists q0. by rewrite list_lookup_insert_ne.
Qed.

(** New processes that hold nothing. *)
Lemma ok_spawn s ps (m r : nat) (c : list P2pCommand) :
  channels_ok s → Forall idle ps → channels_ok (mkChannels (procs s ++ ps) (owner s) m r c).
Proof.
  intros [Hown Hidle (q0 & Hq0 & Hl0)] Hps. split; cbn [procs owner].
  - intros j (p & Hp & ?)%Hown. exists p. split; [by apply lookup_app_l_Some|done].
  - intros j p [Hp|[_ Hp]]%lookup_app_Some Hne; [by apply (Hidle j)|].
    by eapply Forall_lookup_1 in Hps.
  - exists q0. split; [by apply lookup_app_l_Some|done].
Qed.

Lemma ok_same s (m r : nat) (c : list P2pCommand) :
  channels_ok s → channels_ok (mkChannels (procs s) (owner s) m r c).
Proof. by intros []. Qed.

Lemma loop_only_tail o p : loop_only (o :: p) → loop_only p.
Proof. by intros [_ ?]%Forall_cons. Qed.

(** What is left of a process after a send. *)
Lemma after_send s i o p :
  channels_ok s → procs s !! i = Some (o :: p) → is_send o →
  (owner s = Some i → holding p) ∧ (owner s ≠ Some i → idle p).
Proof.
  intros Hok Hi Ho. split; intros Hown.
  - destruct (ok_owner s Hok i Hown) as (q & Hq & k & Hk). rewrite Hi in Hq. injection Hq as <-.
    destruct k as [|k]; injection Hk as -> ->; [by destruct Ho|by exists k].
  - destruct (ok_idle s Hok i _ Hi Hown) as [[_ ?]%Forall_cons|(q & [= -> _] & _)]; [by left|by destruct Ho].
Qed.

Lemma ok_proc_step s i s' : channels_ok s → proc_step s i s' → channels_ok s'.
Proof.
  intros Hok. assert (∀ o p (m r : nat) c, procs s !! i = Some (o :: p) → is_send o →
    channels_ok (mkChannels (<[i := p]> (procs s)) (owner s) m r c)) as Hsend.
  { intros o p m r c Hi Ho. destruct (after_send s i o p Hok Hi Ho).
    eapply ok_insert; eauto using loop_only_tail. }
  destruct 1 as [p Hp Hown|p Hp Hown|p Hp _|p Hp _|p cmd Hp _]; try by eapply Hsend.
  - assert (owner s ≠ Some i) as Hne by congruence.
    destruct (ok_idle s Hok i _ Hp Hne) as [[[Hno _] _]%Forall_cons|(q & [= <-] & Hq)]; [done|].
    eapply ok_insert; eauto using loop_only_tail; [|done]. intros j Hj. rewrite Hown. split; congruence.
  - destruct (ok_owner s Hok i Hown) as (q & Hq & k & Hk). rewrite Hp in Hq. injection Hq as <-.
    destruct k as [|k]; [injection Hk as ->|done].
    eapply ok_insert; eauto using loop_only_tail, idle_nil; [|done]. intros j Hj. rewrite Hown. split; congruence.
Qed.

(** The loop at its [select!] holds nothing. *)
Lemma loop_free s : channels_ok s → procs s !! 0%nat = Some [] → owner s ≠ Some 0%nat.
Proof.
  intros Hok Hsel Hown. destruct (ok_owner s Hok _ Hown) as (p & Hp & k & Hk). rewrite Hsel in Hp.
  injection Hp as <-. by destruct k.
Qed.

Lemma loop_ops_ok sw sw' ev acts :
  swarm_step local_peer_id is_bootstrap_node dev_mode sw ev = Done (sw', acts) →
  idle (loop_ops ev acts) ∧ loop_only (loop_ops ev acts).
Proof.
  assert (idle [LockScores; UnlockScores] ∧ loop_only [LockScores; UnlockScores]) as Hlock.
  { split; [right; exists [UnlockScores]; split; [done|by exists 0%nat]|by repeat constructor]. }
  assert (idle [] ∧ loop_only []) as Hnil by (split; [apply idle_nil|constructor]).
  destruct ev; cbn [loop_ops]; intros Hstep; try done; [by destruct cmd|].
  split; [apply idle_sends, send_ops_sends|]. cbn [swarm_step] in Hstep. injection Hstep as Hstep.
  unfold handle_sync_response in Hstep. repeat case_match; simplify_eq; by repeat constructor.
Qed.

Lemma task_ops_ok sw sw' ev acts :
  swarm_step local_peer_id is_bootstrap_node dev_mode sw ev = Done (sw', acts) → Forall idle (task_ops ev acts).
Proof.
  destruct ev; cbn [task_ops]; intros Hstep; try apply Forall_nil_2; apply Forall_singleton;
    try apply idle_sends, send_ops_sends.
  right. eexists. split; [done|]. cbn [swarm_step] in Hstep. unfold handle_gossip in Hstep.
  destruct (decode_chain_message data) as [[payload|msg]|];
    (destruct (decide _); [destruct (apply_penalty _ _ _)|destruct (apply_reward _ _)]); try done;
    injection Hstep as <- <-; first [by exists 0%nat|by exists 1%nat].
Qed.

Lemma ok_net_step s s' : channels_ok s → net_step s s' → channels_ok s'.
Proof.
  intros Hok [Hint|Hout].
  - destruct Hint as [s i s' Hp|s k cmds _ _ _|s k _ _|s now connected dial_ok cmd cmds Hsel _].
    + by eapply ok_proc_step.
    + apply ok_spawn; [done|]. apply Forall_singleton, idle_commands.
    + by apply ok_same.
    + pose proof (loop_free s Hok Hsel). eapply ok_insert; [done..| | |congruence|].
      * intros _. by destruct cmd; repeat constructor.
      * done.
      * intros _. destruct cmd; try apply idle_nil. right. exists [UnlockScores]. split; [done|by exists 0%nat].
  - destruct Hout as [s sw sw' ev acts Hsel _ Hstep|s cmds _ _].
    + pose proof (loop_free s Hok Hsel). destruct (loop_ops_ok _ _ _ _ Hstep) as [Hi Hl].
      apply (ok_spawn (mkChannels (<[0%nat := loop_ops ev acts]> (procs s)) (owner s) (to_engine s) (replies s) (commands s)));
        [|by eapply task_ops_ok].
      eapply ok_insert; [done..|by intros _|done|congruence|done].
    + apply ok_spawn; [done|]. apply Forall_singleton, idle_commands.
Qed.

Lemma ok_net_new : channels_ok net_new.
Proof.
  split; cbn [procs owner net_new].
  - done.
  - intros i p [-> <-]%list_lookup_singleton_Some _. apply idle_nil.
  - exists []. split; [done|constructor].
Qed.

Lemma ok_reach s : net_reach s → channels_ok s.
Proof. intros Hr. unfold net_reach in Hr. pose proof ok_net_new as Hok. induction Hr; eauto using ok_net_step. Qed.

(** ** Progress *)
Lemma head_of_holder s i : channels_ok s → owner s = Some i →
  ∃ p, procs s !! i = Some (SendEngine :: p) ∨ procs s !! i = Some (UnlockScores :: p).
Proof.
  intros Hok Hown. destruct (ok_owner s Hok i Hown) as (p & Hp & [|k] & ->); cbn in Hp; eauto.
Qed.

(** When the engine reads its channel, a node with anything left to do can do
    something. *)
Lemma listening_progress s : listening = true → channels_ok s → quiet s ∨ ∃ s', internal s s'.
Proof.
  intros Hlis Hok. destruct (to_engine s) as [|k] eqn:Hk; [|right; eexists; eapply (int_engine s k []); [done|done|simpl; lia]].
  assert (∀ i p, procs s !! i = Some (SendEngine :: p) → ∃ s', internal s s') as Hse.
  { intros i p Hp. eexists. eapply int_proc, step_send_engine; [done|]. rewrite Hk. unfold CONSENSUS_MSG_CAPACITY. lia. }
  destruct (owner s) as [i|] eqn:Hown.
  { right. destruct (head_of_holder s i Hok Hown) as (p & [Hp|Hp]); [eauto|].
    eexists. by eapply int_proc, step_unlock. }
  assert (∀ i p, procs s !! i = Some (UnlockScores :: p) → False) as Hno.
  { intros i p Hp. destruct (ok_idle s Hok i _ Hp) as [[[_ ?] _]%Forall_cons|(? & ? & _)]; congruence. }
  assert (∀ i p, procs s !! i = Some (LockScores :: p) → ∃ s', internal s s') as Hlock.
  { intros i p Hp. eexists. by eapply int_proc, step_lock. }
  destruct (ok_loop s Hok) as ([|o p] & Hp & Hl).
  2:{ right. destruct o; eauto; [by destruct (Hno _ _ Hp)|apply Forall_cons in Hl as [[] _]..]. }
  destruct (replies s) as [|r] eqn:Hr; [|right; eexists; by eapply int_reply].
  destruct (commands s) as [|cmd cmds] eqn:Hc; [|right; eexists; by eapply (int_command s 0 [] true)].
  destruct (decide (Forall (.= []) (procs s))) as [Hall|Hex]; [by left|right].
  apply not_Forall_Exists in Hex; [|apply _]. apply Exists_exists in Hex as (q & [i Hi]%list_elem_of_lookup_1 & Hne).
  destruct q as [|[] q]; [by destruct Hne| |by destruct (Hno _ _ Hi)| | |]; eauto.
  - eexists. eapply int_proc, step_send_reply; [done|]. rewrite Hr. unfold RESPONSE_CAPACITY. lia.
  - eexists. eapply int_proc, step_send_command; [done|]. rewrite Hc. unfold P2P_CMD_CAPACITY. simpl. lia.
Qed.

(** ** Termination

    The work that is left: a message for the engine may still become two commands,
    and a command two operations on the table. *)
Definition op_work (o : Op) : nat :=
  match o with
  | LockScores | UnlockScores => 1
  | SendEngine => 10
  | SendReply => 2
  | SendCommand _ => 4
  end.

Definition proc_work : list Op → nat := sum_list_with op_work.

Definition work (s : Channels) : nat :=
  sum_list_with proc_work (procs s) + 9 * to_engine s + replies s + 3 * length (commands s).

Lemma work_insert (ps : list (list Op)) i q p :
  ps !! i = Some q →
  (sum_list_with proc_work (<[i := p]> ps) + proc_work q = sum_list_with proc_work ps + proc_work p)%nat.
Proof.
  intros Hi. rewrite (insert_take_drop ps i) by (by eapply lookup_lt_Some).
  rewrite <-(take_drop_middle ps i q Hi) at 3. rewrite !sum_list_with_app. simpl. lia.
Qed.

Lemma work_commands cmds : proc_work (SendCommand <$> cmds) = (4 * length cmds)%nat.
Proof. unfold proc_work. induction cmds as [|c cmds IH]; csimpl; [done|]. rewrite IH. lia. Qed.

Lemma internal_decreases s s' : internal s s' → (work s' < work s)%nat.
Proof.
  unfold work. destruct 1 as [s i s' Hp|s k cmds _ Hk Hlen|s k _ Hk|s now connected dial_ok cmd cmds Hsel Hc].
  - destruct Hp as [p Hp _|p Hp _|p Hp _|p Hp _|p cmd Hp _]; pose proof (work_insert _ _ _ p Hp) as Hw;
      cbn [procs to_engine replies commands]; rewrite ?length_app; cbn in *; lia.
  - cbn [procs to_engine replies commands]. rewrite sum_list_with_app, Hk. simpl. rewrite work_commands. lia.
  - cbn [procs to_engine replies commands]. rewrite Hk. lia.
  - pose proof (work_insert _ _ _ (loop_ops (Ev_command now connected dial_ok cmd) []) Hsel) as Hw.
    cbn [procs to_engine replies commands]. rewrite Hc. destruct cmd; cbn in *; lia.
Qed.

Lemma internal_ends s : sn internal s.
Proof.
  remember (work s) as n eqn:Hn. revert s Hn. induction (lt_wf n) as [n _ IH]; intros s ->.
  constructor. intros s' Hstep. eapply IH; [by apply internal_decreases|done].
Qed.

Lemma quiet_is_reached s : listening = true → channels_ok s → ∃ s', rtc internal s s' ∧ quiet s'.
Proof.
  intros Hlis. induction (internal_ends s) as [s _ IH]. intros Hok.
  destruct (listening_progress s Hlis Hok) as [Hq|[s' Hs']]; [by exists s|].
  destruct (IH s' Hs') as (s'' & Hr & Hq); [by eapply ok_net_step; [|left]|].
  exists s''. split; [by eapply rtc_l|done].
Qed.


(** ** Without an engine *)

(** The loop waits for the table, and the task that has it for a place in a
    channel that nobody reads. *)
Definition frozen (s : Channels) : Prop :=
  procs s !! 0%nat = Some [LockScores; UnlockScores] ∧ to_engine s = CONSENSUS_MSG_CAPACITY ∧
  ∃ i, i ≠ 0%nat ∧ owner s = Some i ∧ procs s !! i = Some [SendEngine; UnlockScores].

Lemma frozen_step s s' : listening = false → frozen s → net_step s s' → frozen s'.
Proof.
  intros Hlis (Hloop & Hfull & i & Hi0 & Hown & Hi) Hstep.
  assert (∀ j o p, procs s !! j = Some (o :: p) → o ≠ LockScores → o ≠ SendEngine → j ≠ 0%nat ∧ j ≠ i) as Hj.
  { intros j o p Hp Ho1 Ho2. split; intros ->; congruence. }
  destruct Hstep as [Hint|Hout].
  - destruct Hint as [s j s' Hp|s k cmds Hl|s k Hsel|s now connected dial_ok cmd cmds Hsel]; try congruence.
    destruct Hp as [p Hp Ho|p Hp Ho|p Hp Hlt|p Hp _|p cmd Hp _]; try congruence.
    + lia.
    + destruct (Hj _ _ _ Hp ltac:(done) ltac:(done)) as [? Hne].
      split_and!; cbn [procs to_engine owner]; [by rewrite list_lookup_insert_ne|done|].
      exists i. by rewrite list_lookup_insert_ne.
    + destruct (Hj _ _ _ Hp ltac:(done) ltac:(done)) as [? Hne].
      split_and!; cbn [procs to_engine owner]; [by rewrite list_lookup_insert_ne|done|].
      exists i. by rewrite list_lookup_insert_ne.
  - destruct Hout; congruence.
Qed.

Lemma frozen_forever s s' : listening = false → frozen s → rtc net_step s s' → frozen s'.
Proof. intros Hlis Hf Hr. revert Hf. induction Hr; eauto using frozen_step. Qed.

(** A consensus message arrives by gossip. *)
Lemma gossip_arrives data msg (m : nat) ps :
  decode_chain_message data = Some (NewConsensusMessage msg) →
  outside (mkChannels ([] :: ps) None m 0 [])
    (mkChannels ([] :: ps ++ [[LockScores; SendEngine; UnlockScores]]) None m 0 []).
Proof.
  intros Hdec. destruct (apply_reward_run REWARD_VALID_MESSAGE peer_new) as (info & Hrun & _); [by vm_compute..|].
  eapply (out_event (mkChannels ([] :: ps) None m 0 []) swarm_new _ (Ev_gossip 0 ""%string data) [ToConsensus msg ""%string]);
    [done..|]. cbn [swarm_step]. unfold handle_gossip. rewrite Hdec. cbv beta iota zeta.
  rewrite decide_False by lia. cbn [peer_scores swarm_new]. rewrite lookup_empty. cbn [default from_option id].
  rewrite Hrun. done.
Qed.

Lemma last_replaced (ps : list (list Op)) p q : <[S (length ps) := q]> ([] :: ps ++ [p]) = [] :: ps ++ [q].
Proof. cbn. f_equal. rewrite <-(Nat.add_0_r (length ps)). apply (insert_app_r ps [p] 0). Qed.

(** The task takes the table. *)
Lemma task_locks ps p (m : nat) :
  net_step (mkChannels ([] :: ps ++ [LockScores :: p]) None m 0 [])
    (mkChannels ([] :: ps ++ [p]) (Some (S (length ps))) m 0 []).
Proof.
  left. eapply int_proc with (i := S (length ps)).
  replace ([] :: ps ++ [p]) with (<[S (length ps) := p]> ([] :: ps ++ [LockScores :: p])).
  - eapply (step_lock (mkChannels _ None m 0 [])); [|done]. by apply (list_lookup_middle ps [] _ (length ps)).
  - apply last_replaced.
Qed.

(** Messages arrive one after the other and fill the channel. *)
Lemma channel_fills data msg k :
  decode_chain_message data = Some (NewConsensusMessage msg) → (k ≤ CONSENSUS_MSG_CAPACITY)%nat →
  net_reach (mkChannels ([] :: replicate k []) None k 0 []).
Proof.
  intros Hdec. induction k as [|k IH]; intros Hk; [constructor|].
  unfold net_reach. etransitivity; [apply IH; lia|]. set (ps := replicate k [] : list (list Op)).
  assert (length ps = k) as Hps by apply length_replicate.
  eapply rtc_l; [right; by eapply (gossip_arrives data msg)|]. eapply rtc_l; [apply task_locks|].
  rewrite Hps. assert (∀ p, ([] :: ps ++ [p]) !! S k = Some p) as Hlook.
  { intros p. by apply (list_lookup_middle ps [] _ k). }
  assert (∀ p q, <[S k := q]> ([] :: ps ++ [p]) = [] :: ps ++ [q]) as Hins.
  { intros p q. rewrite <-Hps. apply last_replaced. }
  eapply rtc_l.
  { left. eapply (int_proc _ (S k)), step_send_engine; [apply Hlook|]. cbn [to_engine]. lia. }
  cbn [procs owner to_engine replies commands]. rewrite Hins. eapply rtc_l.
  { left. eapply (int_proc _ (S k)), step_unlock; [apply Hlook|done]. }
  cbn [procs owner to_engine replies commands]. rewrite Hins.
  replace (ps ++ [[]]) with (replicate (S k) [] : list (list Op)) by (by rewrite replicate_S_end).
  constructor.
Qed.

(** C25. A node without an engine freezes.  On a node that is not an authority nothing
    reads the channel of consensus messages.  After a hundred gossiped messages
    and one more, whose task keeps the table locked while it waits for a place, a
    closed connection makes the loop wait for the table; from then on, whatever
    happens, the loop stays where it is. *)
Theorem observer_node_freezes data msg :
  listening = false → decode_chain_message data = Some (NewConsensusMessage msg) →
  ∃ s, net_reach s ∧ ∀ s', rtc net_step s s' → procs s' !! 0%nat = Some [LockScores; UnlockScores].
Proof.
  intros Hlis Hdec. set (ps := replicate CONSENSUS_MSG_CAPACITY [] : list (list Op)).
  exists (mkChannels ([LockScores; UnlockScores] :: ps ++ [[SendEngine; UnlockScores]]) (Some (S (length ps)))
            CONSENSUS_MSG_CAPACITY 0 []). split.
  - unfold net_reach. etransitivity; [by apply (channel_fills data msg CONSENSUS_MSG_CAPACITY)|].
    eapply rtc_l; [right; by eapply (gossip_arrives data msg)|]. eapply rtc_l; [apply task_locks|].
    apply rtc_once. right.
    pose proof (out_event (mkChannels ([] :: ps ++ [[SendEngine; UnlockScores]]) (Some (S (length ps))) CONSENSUS_MSG_CAPACITY 0 [])
      swarm_new _ (Ev_closed ""%string) [] eq_refl eq_refl eq_refl) as Hout.
    cbn [procs owner to_engine replies commands loop_ops task_ops] in Hout. by rewrite app_nil_r in Hout.
  - intros s' Hr. eapply frozen_forever in Hr as [? _]; [done|done|].
    split_and!; [done..|]. exists (S (length ps)). split_and!; [done..|]. by apply (list_lookup_middle ps [] _ (length ps)).
Qed.
End channels.

(** ** Runs *)
Module ChannelRuns.
#[local] Instance debug : Profile := true.
#[local] Instance all_levels : Logging := λ _, true.
#[local] Instance wire : Wire := borsh_wire (λ _, "m"%string).

Lemma qc_bytes_decode : decode_chain_message WireRuns.qc_bytes = Some (NewConsensusMessage WireRuns.qc_message).
Proof. vm_compute. reflexivity. Qed.

(** A message has arrived and waits for its task. *)
Definition arrived : Channels := mkChannels [[]; [LockScores; SendEngine; UnlockScores]] None 0 0 [].


Lemma observer_node_freezes_witness :
  ∃ s, net_reach (C := list bytes) "me" false false false s ∧
    ∀ s', rtc (net_step (C := list bytes) "me" false false false) s s' →
      procs s' !! 0%nat = Some [LockScores; UnlockScores].
Proof. exact (observer_node_freezes "me" false false false _ _ eq_refl qc_bytes_decode). Defined.
End ChannelRuns.
