(* ===== verification/Rollup.v ===== *)
(** * The rollup circuit ([zkapp/zk-prover/src/lib.rs])

    [IntentRollupAir] as constraints on an execution trace over a prime field.
    Plonky3 applies a [when_transition] constraint to every pair of consecutive
    rows; a field element is an integer and equality is modulo the field's
    modulus. *)

From S2P Require Import Prelude.
Local Open Scope Z_scope.

Record IntentRollupCols := mkRow {
  intent_id : Z;
  user_input_amount : Z;
  user_min_output : Z;
  solver_actual_output : Z;
  user_balance : Z;
  solver_balance : Z;
}.

Definition width : nat := 6.

Section air.
Context (modulus : Z).

Definition assert_eq (a b : Z) : bool := bool_decide (a mod modulus = b mod modulus).

(** The constraints on two consecutive rows. *)
Definition eval (local next : IntentRollupCols) : bool :=
  assert_eq (user_balance next + user_input_amount local) (user_balance local + solver_actual_output local) &&
  assert_eq (solver_balance next + solver_actual_output local) (solver_balance local + user_input_amount local).

(** A trace is accepted when every transition is. *)
Fixpoint accepts (trace : list IntentRollupCols) : bool :=
  match trace with
  | local :: ((next :: _) as rest) => eval local next && accepts rest
  | _ => true
  end.

(** The sums over the rows that have a successor. *)
Definition inputs (trace : list IntentRollupCols) : Z :=
  foldr (λ r acc, user_input_amount r + acc) 0 (removelast trace).
Definition outputs (trace : list IntentRollupCols) : Z :=
  foldr (λ r acc, solver_actual_output r + acc) 0 (removelast trace).

Lemma eval_spec local next :
  eval local next = true →
  (user_balance next) mod modulus =
    (user_balance local - user_input_amount local + solver_actual_output local) mod modulus ∧
  (solver_balance next) mod modulus =
    (solver_balance local + user_input_amount local - solver_actual_output local) mod modulus.
Proof.
  unfold eval, assert_eq. rewrite andb_true_iff, !bool_decide_eq_true. intros [Hu Hs].
  split.
  - replace (user_balance next) with ((user_balance next + user_input_amount local) - user_input_amount local) by lia.
    rewrite Zminus_mod, Hu, <-Zminus_mod. f_equal; lia.
  - replace (solver_balance next) with ((solver_balance next + solver_actual_output local) - solver_actual_output local) by lia.
    rewrite Zminus_mod, Hs, <-Zminus_mod. f_equal; lia.
Qed.

(** C37. Balances.  In an accepted trace the last user balance is the first one
    less all inputs plus all outputs, the last solver balance the first one plus
    all inputs less all outputs, in the field; so their sum is conserved. *)
Theorem accepted_trace_settles_balances first rest :
  accepts (first :: rest) = true →
  let trace := first :: rest in
  let final := default first (last trace) in
  (user_balance final) mod modulus = (user_balance first - inputs trace + outputs trace) mod modulus ∧
  (solver_balance final) mod modulus = (solver_balance first + inputs trace - outputs trace) mod modulus ∧
  (user_balance final + solver_balance final) mod modulus =
    (user_balance first + solver_balance first) mod modulus.
Proof.
  intros Hacc. cut (∀ first, accepts (first :: rest) = true →
    (user_balance (default first (last (first :: rest)))) mod modulus =
      (user_balance first - inputs (first :: rest) + outputs (first :: rest)) mod modulus ∧
    (solver_balance (default first (last (first :: rest)))) mod modulus =
      (solver_balance first + inputs (first :: rest) - outputs (first :: rest)) mod modulus).
  { intros Hall. destruct (Hall first Hacc) as [Hu Hs]. split_and!; [done|done|].
    rewrite Zplus_mod, Hu, Hs, <-Zplus_mod. f_equal; lia. }
  clear. induction rest as [|next rest IH]; intros first Hacc.
  { unfold inputs, outputs. simpl. split; f_equal; lia. }
  cbn [accepts] in Hacc. apply andb_true_iff in Hacc as [Heval Hacc].
  apply eval_spec in Heval as [Hu Hs]. destruct (IH next Hacc) as [IHu IHs].
  assert (default first (last (first :: next :: rest)) = default next (last (next :: rest))) as Hlast.
  { rewrite last_cons_cons. destruct (last (next :: rest)) eqn:Hl; [done|]. by apply last_None in Hl. }
  rewrite Hlast, IHu, IHs.
  change (inputs (first :: next :: rest)) with (user_input_amount first + inputs (next :: rest)).
  change (outputs (first :: next :: rest)) with (solver_actual_output first + outputs (next :: rest)).
  split.
  - rewrite Zplus_mod, (Zminus_mod (user_balance next)), Hu, <-Zminus_mod, <-Zplus_mod. f_equal; lia.
  - rewrite Zminus_mod, (Zplus_mod (solver_balance next)), Hs, <-Zplus_mod, <-Zminus_mod. f_equal; lia.
Qed.

Definition set_min (m : Z) (r : IntentRollupCols) : IntentRollupCols :=
  mkRow (intent_id r) (user_input_amount r) m (solver_actual_output r) (user_balance r) (solver_balance r).

(** Slippage is not constrained.  The circuit's comment says that a proof
    must fail when the solver pays less than the user's minimum; replacing the
    minimum of every row by anything at all changes no constraint. *)
Theorem minimum_output_is_unconstrained m trace :
  accepts (set_min m <$> trace) = accepts trace.
Proof.
  induction trace as [|local [|next rest] IH]; [done..|].
  change (eval (set_min m local) (set_min m next) && accepts (set_min m <$> next :: rest) =
    eval local next && accepts (next :: rest)). by rewrite IH.
Qed.
End air.

Module RollupRuns.
(** A swap of 100 for 98 with a minimum of 99, in the Goldilocks field. *)
Definition goldilocks : Z := 18446744069414584321.

Definition swap : list IntentRollupCols :=
  [mkRow 1 100 99 98 500 300; mkRow 0 0 0 0 498 302].

Lemma accepted_trace_settles_balances_witness :
  let final := default (mkRow 1 100 99 98 500 300) (last swap) in
  (user_balance final) mod goldilocks = (user_balance (mkRow 1 100 99 98 500 300) - inputs swap + outputs swap) mod goldilocks ∧
  (solver_balance final) mod goldilocks = (solver_balance (mkRow 1 100 99 98 500 300) + inputs swap - outputs swap) mod goldilocks ∧
  (user_balance final + solver_balance final) mod goldilocks =
    (user_balance (mkRow 1 100 99 98 500 300) + solver_balance (mkRow 1 100 99 98 500 300)) mod goldilocks.
Proof.
  apply (accepted_trace_settles_balances goldilocks (mkRow 1 100 99 98 500 300) [mkRow 0 0 0 0 498 302]).
  vm_compute. reflexivity.
Defined.
End RollupRuns.
