(* ===== verification/Files.v ===== *)
(** * Paths and files

    What [keystore.rs] and the start of the node use of [std::path] and
    [std::fs]: a file system as a map from paths to contents with a set of
    directories, and each call with the outcome the operating system chooses for
    it.  A call that fails leaves what it did before failing, so a crash after a
    call is covered by the failure of the next one. *)

From S2P Require Import Prelude Bytes.
From Stdlib Require Strings.String.

(** [String::into_bytes] and the string with given bytes. *)
Abbreviation str_bytes := String.list_byte_of_string.
Abbreviation bytes_str := String.string_of_list_byte.

(** A path is its components below the root or below the current directory;
    [mkPath false []] is the empty path. *)
Record Path := mkPath { absolute : bool; components : list string }.

#[export] Instance path_eq_dec : EqDecision Path.
Proof. solve_decision. Defined.

#[export] Instance path_countable : Countable Path :=
  inj_countable' (λ p, (absolute p, components p)) (λ e, mkPath e.1 e.2) (λ p, match p with mkPath _ _ => eq_refl end).

(** [Path::parent]: none for the root and for the empty path. *)
Definition parent (p : Path) : option Path :=
  match components p with
  | [] => None
  | cs => Some (mkPath (absolute p) (take (length cs - 1) cs))
  end.

Definition join (dir : Path) (name : string) : Path :=
  mkPath (absolute dir) (components dir ++ [name]).

(** The empty path names no directory that can be opened, although a file name
    joined to it is a path below the current directory. *)
Definition is_empty_path (p : Path) : bool :=
  negb (absolute p) && bool_decide (components p = []).

Record Fs := mkFs { files : gmap Path bytes; dirs : gset Path }.

Inductive IoError := NoParentDir | NotFound | AlreadyExists | InvalidData | OsError.

(** ** Computations on the file system that may fail *)
Definition FsM (E A : Type) : Type := Fs → Fs * result A E.

#[export] Instance fsm_ret E : MRet (FsM E) := λ A a fs, (fs, Ok a).
#[export] Instance fsm_bind E : MBind (FsM E) := λ A B f m fs,
  match m fs with
  | (fs, Ok a) => f a fs
  | (fs, Err e) => (fs, Err e)
  end.

Definition fail {E A} (e : E) : FsM E A := λ fs, (fs, Err e).

(** The [?] operator: an error is converted and returned. *)
Definition question {E E' A} (conv : E → E') (r : result A E) : FsM E' A :=
  match r with
  | Ok a => mret a
  | Err e => fail (conv e)
  end.

Section calls.
Context {E : Type} (io : IoError → E).

(** A call that only succeeds or fails ([sync_all], for one). *)
Definition attempt (ok : bool) : FsM E () := if ok then mret () else fail (io OsError).

(** A directory in which a path can be made; the empty path is the current
    directory, which exists. *)
Definition is_dir (d : Path) (fs : Fs) : bool := is_empty_path d || bool_decide (d ∈ dirs fs).

(** [OpenOptions::write(true).create_new(true)]. *)
Definition create_new (ok : bool) (p : Path) : FsM E () := λ fs,
  match parent p with
  | Some d =>
      if is_dir d fs then
        if decide (is_Some (files fs !! p)) then fail (io AlreadyExists) fs
        else if ok then (mkFs (<[p := []]> (files fs)) (dirs fs), Ok ()) else fail (io OsError) fs
      else fail (io NotFound) fs
  | None => fail (io OsError) fs
  end.

(** [File::write_all] to a fresh file; [stop] is where it fails, if it does. *)
Definition write_all (stop : option nat) (p : Path) (content : bytes) : FsM E () := λ fs,
  match stop with
  | None => (mkFs (<[p := content]> (files fs)) (dirs fs), Ok ())
  | Some n => (mkFs (<[p := take n content]> (files fs)) (dirs fs), Err (io OsError))
  end.

(** [fs::rename] of a file replaces the target in one step. *)
Definition rename (ok : bool) (from to : Path) : FsM E () := λ fs,
  match files fs !! from with
  | Some content =>
      if ok then (mkFs (<[to := content]> (delete from (files fs))) (dirs fs), Ok ())
      else fail (io OsError) fs
  | None => fail (io NotFound) fs
  end.

(** [File::open] on a directory. *)
Definition open_dir (ok : bool) (d : Path) : FsM E () := λ fs,
  if is_empty_path d then fail (io NotFound) fs
  else if decide (d ∈ dirs fs) then attempt ok fs else fail (io NotFound) fs.

(** [fs::read]. *)
Definition read (ok : bool) (p : Path) : FsM E bytes := λ fs,
  match files fs !! p with
  | Some content => if ok then (fs, Ok content) else fail (io OsError) fs
  | None => fail (io NotFound) fs
  end.

(** [File::open] and [read_to_string]: the contents must be UTF-8. *)
Definition read_to_string (ok : bool) (p : Path) : FsM E string :=
  content ← read ok p;
  if is_utf8 content then mret (bytes_str content) else fail (io InvalidData).

(** [fs::write] creates or truncates; [stop] as for [write_all]. *)
Definition fs_write (ok : bool) (stop : option nat) (p : Path) (content : bytes) : FsM E () := λ fs,
  match parent p with
  | Some d => if is_dir d fs && ok then write_all stop p content fs else fail (io OsError) fs
  | None => fail (io OsError) fs
  end.

(** [fs::create_dir_all]: the directory and its ancestors. *)
Definition create_dir_all (ok : bool) (d : Path) : FsM E () := λ fs,
  if ok then
    (mkFs (files fs) (list_to_set ((λ n, mkPath (absolute d) (take n (components d))) <$>
                                     seq 1 (length (components d))) ∪ dirs fs), Ok ())
  else fail (io OsError) fs.
End calls.

(** ** Lemmas *)
Lemma parent_join d name : parent (join d name) = Some d.
Proof.
  destruct d as [a cs]. assert (length (cs ++ [name]) - 1 = length cs)%nat as Hlen.
  { rewrite length_app. simpl. lia. }
  unfold parent, join. cbn [absolute components]. destruct (cs ++ [name]) as [|c l] eqn:Heq; [by destruct cs|].
  by rewrite Hlen, <-Heq, take_app_length.
Qed.

Lemma is_dir_create_dir_all fs fs' d :
  create_dir_all (E := IoError) id true d fs = (fs', Ok ()) → components d ≠ [] → is_dir d fs' = true.
Proof.
  intros Hrun Hne. unfold create_dir_all in Hrun. simplify_eq. unfold is_dir. simpl.
  apply orb_true_intro. right. apply bool_decide_eq_true. apply elem_of_union_l.
  apply elem_of_list_to_set, list_elem_of_fmap. exists (length (components d)). split.
  - rewrite take_ge by lia. by destruct d.
  - apply elem_of_seq. destruct d as [a [|c cs]]; [done|]. simpl. lia.
Qed.

Lemma string_bytes_roundtrip s : bytes_str (str_bytes s) = s.
Proof. apply String.string_of_list_byte_of_string. Qed.
