(* ===== verification/Keystore.v ===== *)
(** * The validator keystore ([evice-multi-sequencer/src/keystore.rs])

    A validator's secret key, encrypted under a password, as a JSON file.  The
    ciphers come from third-party crates (scrypt, chacha20poly1305, sha3,
    serde_json): they are the interfaces [KeyCiphers] and [KeystoreJson].  The
    random salt, nonce and identifiers are arguments. *)

From S2P Require Import Prelude Bytes Files SeqTypes P2pTypes Committee Consensus ToyCrypto.

Record CipherParams := mkCipherParams { cp_nonce : string }.

Record KdfParams := mkKdfParams {
  kp_dklen : N;
  kp_n : N;
  kp_p : N;
  kp_r : N;
  kp_salt : string;
}.

Record KeyCrypto := mkKeyCrypto {
  kc_cipher : string;
  kc_ciphertext : string;
  kc_cipherparams : CipherParams;
  kc_kdf : string;
  kc_kdfparams : KdfParams;
  kc_mac : string;
}.

Record Keystore := mkKeystore {
  ks_address : string;
  ks_public_key : string;
  ks_crypto : KeyCrypto;
  ks_id : string;
  ks_version : N;
}.

#[export] Instance cipher_params_eq_dec : EqDecision CipherParams.
Proof. solve_decision. Defined.
#[export] Instance kdf_params_eq_dec : EqDecision KdfParams.
Proof. solve_decision. Defined.
#[export] Instance key_crypto_eq_dec : EqDecision KeyCrypto.
Proof. solve_decision. Defined.
#[export] Instance keystore_eq_dec : EqDecision Keystore.
Proof. solve_decision. Defined.

Inductive KeystoreError :=
| Io (e : IoError)
| Serde
| Hex
| ScryptParamsError
| ScryptOutputLen
| Cipher
| PaddingError
| InvalidPassword
| InvalidKeyLength
| UnsupportedVersion (version : N)
| AeadError.

(** ** The cipher crates *)
Class KeyCiphers := {
  (** [scrypt::Params] and [Params::new(log_n, r, p, len)] *)
  ScryptParams : Type;
  scrypt_params_new : N → N → N → nat → option ScryptParams;
  (** [scrypt(password, salt, params, output)] with an output of [n] bytes *)
  scrypt : bytes → bytes → ScryptParams → nat → option bytes;
  (** XChaCha20-Poly1305 by key and nonce *)
  aead_encrypt : bytes → bytes → bytes → option bytes;
  aead_decrypt : bytes → bytes → bytes → option bytes;
}.

Class KeyCiphersLaws `{!KeyCiphers} := {
  (** the parameters the code writes are valid *)
  scrypt_params_standard : is_Some (scrypt_params_new 18 8 1 32);
  (** a 32-byte output is allowed, and filled *)
  scrypt_output pw salt params : ∃ key, scrypt pw salt params 32 = Some key ∧ length key = 32%nat;
  (** messages of a key's size can be encrypted and read back *)
  aead_encrypt_ok key nonce m :
    length key = 32%nat → length nonce = 24%nat → length m = PRIVATE_KEY_SIZE →
    is_Some (aead_encrypt key nonce m);
  aead_decrypt_encrypt key nonce m c :
    aead_encrypt key nonce m = Some c → aead_decrypt key nonce c = Some m;
  (** a ciphertext is accepted only if its tag is the one encryption computes *)
  aead_authentic key nonce m c :
    aead_decrypt key nonce c = Some m → aead_encrypt key nonce m = Some c;
}.

(** serde_json on keystores. *)
Class KeystoreJson := {
  to_string_pretty : Keystore → option string;
  from_str : string → option Keystore;
}.

Class KeystoreJsonLaws `{!KeystoreJson} := {
  to_string_pretty_ok ks : ∃ text, to_string_pretty ks = Some text ∧ from_str text = Some ks ∧
    is_utf8 (str_bytes text) = true;
}.

Section keystore.
Context `{!Crypto} `{!KeyCiphers} `{!KeystoreJson} `{!Net}.

(** The part of the derived key and the ciphertext that the MAC covers. *)
Definition mac_of (derived_key ciphertext : bytes) : string :=
  hex_encode (keccak256 (drop 16 derived_key ++ ciphertext)).

Definition keystore_new (pk_bytes : bytes) (password : string) (pub_key_full_bytes : bytes)
    (salt nonce_bytes : bytes) (id : string) : result Keystore KeystoreError :=
  let kdfparams := mkKdfParams 32 262144 1 8 (hex_encode salt) in
  match scrypt_params_new 18 8 1 32 with
  | None => Err ScryptParamsError
  | Some scrypt_params =>
    match scrypt (str_bytes password) salt scrypt_params 32 with
    | None => Err ScryptOutputLen
    | Some derived_key =>
      match aead_encrypt derived_key nonce_bytes pk_bytes with
      | None => Err AeadError
      | Some ciphertext =>
          Ok (mkKeystore (hex_encode (public_key_to_address pub_key_full_bytes))
                (hex_encode pub_key_full_bytes)
                (mkKeyCrypto "xchacha20poly1305" (hex_encode ciphertext)
                   (mkCipherParams (hex_encode nonce_bytes)) "scrypt" kdfparams
                   (mac_of derived_key ciphertext))
                id 4)
      end
    end
  end.

(** [decrypt] returns an error, and panics in [copy_from_slice] on a nonce that
    has not 24 bytes and in [ilog2] on the cost zero. *)
Definition decrypt (ks : Keystore) (password : string) : outcome (result bytes KeystoreError) :=
  if decide (ks_version ks < 4) then Done (Err (UnsupportedVersion (ks_version ks)))
  else
    let crypto := ks_crypto ks in
    match hex_decode (kp_salt (kc_kdfparams crypto)) with
    | None => Done (Err Hex)
    | Some salt =>
      match hex_decode (cp_nonce (kc_cipherparams crypto)) with
      | None => Done (Err Hex)
      | Some nonce_bytes =>
        nonce ← exact_length 24 nonce_bytes;
        match hex_decode (kc_ciphertext crypto) with
        | None => Done (Err Hex)
        | Some ciphertext_bytes =>
          log_n ← (if decide (kp_n (kc_kdfparams crypto) = 0) then Panicked
                   else Done (N.log2 (kp_n (kc_kdfparams crypto))));
          match scrypt_params_new log_n (kp_r (kc_kdfparams crypto)) (kp_p (kc_kdfparams crypto)) 32 with
          | None => Done (Err ScryptParamsError)
          | Some scrypt_params =>
            match scrypt (str_bytes password) salt scrypt_params 32 with
            | None => Done (Err ScryptOutputLen)
            | Some derived_key =>
              if decide (mac_of derived_key ciphertext_bytes ≠ kc_mac crypto) then
                Done (Err InvalidPassword)
              else
                match aead_decrypt derived_key nonce ciphertext_bytes with
                | None => Done (Err AeadError)
                | Some decrypted_vec =>
                    if decide (length decrypted_vec ≠ PRIVATE_KEY_SIZE) then Done (Err InvalidKeyLength)
                    else Done (Ok decrypted_vec)
                end
            end
          end
        end
      end
    end.

Definition from_path (ok : bool) (path : Path) : FsM KeystoreError Keystore :=
  contents ← read_to_string Io ok path;
  match from_str contents with
  | Some ks => mret ks
  | None => fail Serde
  end.

(** The outcomes of the calls of [save_to_path], and the random file name. *)
Record SaveEnv := mkSaveEnv {
  sv_uuid : string;
  sv_open : bool;
  sv_write : option nat;
  sv_sync : bool;
  sv_rename : bool;
  sv_open_dir : bool;
  sv_sync_dir : bool;
}.

Definition tmp_name (uuid : string) : string := ("." +:+ uuid +:+ ".tmp")%string.

Definition save_to_path (ks : Keystore) (path : Path) (env : SaveEnv) : FsM KeystoreError () :=
  match parent path with
  | None => fail (Io NoParentDir)
  | Some dir =>
      let tmp_path := join dir (tmp_name (sv_uuid env)) in
      match to_string_pretty ks with
      | None => fail Serde
      | Some json =>
          _ ← create_new Io (sv_open env) tmp_path;
          _ ← write_all Io (sv_write env) tmp_path (str_bytes json);
          _ ← attempt Io (sv_sync env);
          _ ← rename Io (sv_rename env) tmp_path path;
          _ ← open_dir Io (sv_open_dir env) dir;
          attempt Io (sv_sync_dir env)
      end
  end.
End keystore.

(** ** The contract *)
Section contract.
Context `{!Crypto} `{!KeyCiphers} `{!KeyCiphersLaws} `{!KeystoreJson} `{!KeystoreJsonLaws} `{!Net} `{!NetLaws}.
Implicit Types (ks : Keystore) (path : Path) (fs : Fs).

Lemma keystore_new_run sk pw pk salt nonce id :
  length sk = PRIVATE_KEY_SIZE → length nonce = 24%nat →
  ∃ params key c,
    scrypt_params_new 18 8 1 32 = Some params ∧ scrypt (str_bytes pw) salt params 32 = Some key ∧
    aead_encrypt key nonce sk = Some c ∧
    keystore_new sk pw pk salt nonce id =
      Ok (mkKeystore (hex_encode (public_key_to_address pk)) (hex_encode pk)
            (mkKeyCrypto "xchacha20poly1305" (hex_encode c) (mkCipherParams (hex_encode nonce)) "scrypt"
               (mkKdfParams 32 262144 1 8 (hex_encode salt)) (mac_of key c)) id 4).
Proof.
  intros Hsk Hnonce. destruct scrypt_params_standard as [params Hp].
  destruct (scrypt_output (str_bytes pw) salt params) as (key & Hk & Hlen).
  destruct (aead_encrypt_ok key nonce sk) as [c Hc]; [done..|].
  exists params, key, c. split_and!; [done..|]. unfold keystore_new. by rewrite Hp, Hk, Hc.
Qed.

(** Decryption up to the MAC, on a keystore that [keystore_new] made. *)
Lemma decrypt_new sk pw pk salt nonce id ks pw' :
  length nonce = 24%nat → keystore_new sk pw pk salt nonce id = Ok ks →
  ∃ params key key' c,
    scrypt (str_bytes pw) salt params 32 = Some key ∧ scrypt (str_bytes pw') salt params 32 = Some key' ∧
    aead_encrypt key nonce sk = Some c ∧
    decrypt ks pw' =
      if decide (mac_of key' c ≠ mac_of key c) then Done (Err InvalidPassword)
      else match aead_decrypt key' nonce c with
           | None => Done (Err AeadError)
           | Some m => if decide (length m ≠ PRIVATE_KEY_SIZE) then Done (Err InvalidKeyLength) else Done (Ok m)
           end.
Proof.
  intros Hnonce Hnew. unfold keystore_new in Hnew.
  destruct (scrypt_params_new 18 8 1 32) as [params|] eqn:Hp; [|done].
  destruct (scrypt (str_bytes pw) salt params 32) as [key|] eqn:Hk; [|done].
  destruct (aead_encrypt key nonce sk) as [c|] eqn:Hc; [|done]. injection Hnew as <-.
  destruct (scrypt_output (str_bytes pw') salt params) as (key' & Hk' & _).
  exists params, key, key', c. split_and!; [done..|]. unfold decrypt.
  cbn [ks_version ks_crypto kc_kdfparams kc_cipherparams kc_ciphertext kc_mac kp_salt kp_n kp_r kp_p cp_nonce].
  rewrite decide_False by done.
  rewrite !hex_decode_encode. unfold exact_length. rewrite (decide_True _ _ Hnonce). cbn [mbind outcome_bind].
  rewrite (decide_False (P := 262144 = 0)) by done. cbn [mbind outcome_bind]. change (N.log2 262144) with 18. by rewrite Hp, Hk'.
Qed.

(** A saved file is complete. *)
Lemma save_to_path_run ks path env dir fs :
  parent path = Some dir → dir ∈ dirs fs → is_empty_path dir = false →
  files fs !! join dir (tmp_name (sv_uuid env)) = None →
  sv_open env = true → sv_write env = None → sv_sync env = true → sv_rename env = true →
  sv_open_dir env = true → sv_sync_dir env = true →
  ∃ text fs', to_string_pretty ks = Some text ∧ save_to_path ks path env fs = (fs', Ok ()) ∧
    files fs' !! path = Some (str_bytes text) ∧ dirs fs' = dirs fs.
Proof.
  intros Hpar Hdir Hne Htmp Ho Hw Hs Hr Hod Hsd. destruct (to_string_pretty_ok ks) as (text & Ht & _).
  exists text. eexists. split; [done|]. unfold save_to_path. rewrite Hpar, Ht, Ho, Hw, Hs, Hr, Hod, Hsd.
  assert (is_dir dir fs = true) as Hisdir.
  { unfold is_dir. apply orb_true_intro. right. by apply bool_decide_eq_true. }
  unfold mbind, fsm_bind, create_new. rewrite parent_join, Hisdir, decide_False by (rewrite Htmp; by intros []).
  cbn [write_all attempt mret fsm_ret files dirs]. unfold rename. cbn [files dirs]. rewrite lookup_insert_eq.
  unfold open_dir. cbn [dirs]. rewrite Hne, decide_True by done. split; [done|].
  cbn [files dirs]. by rewrite lookup_insert_eq.
Qed.

(** What is written can be read back: the composition of the four operations. *)
Lemma keystore_file_run sk pw pk salt nonce id path dir env fs :
  length sk = PRIVATE_KEY_SIZE → length nonce = 24%nat →
  parent path = Some dir → dir ∈ dirs fs → is_empty_path dir = false →
  files fs !! join dir (tmp_name (sv_uuid env)) = None →
  env = mkSaveEnv (sv_uuid env) true None true true true true →
  ∃ ks fs', keystore_new sk pw pk salt nonce id = Ok ks ∧
    save_to_path ks path env fs = (fs', Ok ()) ∧ from_path true path fs' = (fs', Ok ks) ∧
    decrypt ks pw = Done (Ok sk) ∧
    hex_decode (ks_public_key ks) = Some pk ∧ hex_decode (ks_address ks) = Some (public_key_to_address pk).
Proof.
  intros Hsk Hnonce Hpar Hdir Hne Htmp Henv.
  destruct (keystore_new_run sk pw pk salt nonce id) as (params & key & c & Hp & Hk & Hc & Hnew); [done..|].
  set (ks := mkKeystore _ _ _ _ _) in Hnew. exists ks.
  destruct (save_to_path_run ks path env dir fs) as (text & fs' & Ht & Hsave & Hfile & _);
    [done..|rewrite Henv; done|rewrite Henv; done|rewrite Henv; done|rewrite Henv; done|rewrite Henv; done|rewrite Henv; done|].
  exists fs'. split_and!; [done|done| | |apply hex_decode_encode|apply hex_decode_encode].
  - destruct (to_string_pretty_ok ks) as (text' & Ht' & Hparse & Hutf). simplify_eq.
    unfold from_path, read_to_string, read, mbind, fsm_bind. rewrite Hfile. rewrite Hutf, string_bytes_roundtrip.
    cbn [mret fsm_ret]. by rewrite Hparse.
  - destruct (decrypt_new sk pw pk salt nonce id ks pw Hnonce Hnew) as (params' & key1 & key2 & c' & Hk1 & Hk2 & Hc' & ->).
    assert (key1 = key2) as -> by congruence. rewrite decide_False by tauto.
    rewrite (aead_decrypt_encrypt _ _ _ _ Hc'). by rewrite decide_False by tauto.
Qed.

(** C27. A key written to a keystore can be read back.  A keystore made from a
    secret key and a password, saved to a file and loaded again is the same
    keystore; it opens with the password and gives the secret key; its public
    fields are the public key and its address. *)
Theorem keystore_file_roundtrip sk pw pk salt nonce id path dir env fs :
  length sk = PRIVATE_KEY_SIZE → length nonce = 24%nat →
  parent path = Some dir → dir ∈ dirs fs → is_empty_path dir = false →
  files fs !! join dir (tmp_name (sv_uuid env)) = None →
  env = mkSaveEnv (sv_uuid env) true None true true true true →
  ∃ ks fs', keystore_new sk pw pk salt nonce id = Ok ks ∧
    save_to_path ks path env fs = (fs', Ok ()) ∧ from_path true path fs' = (fs', Ok ks) ∧
    decrypt ks pw = Done (Ok sk) ∧
    hex_decode (ks_public_key ks) = Some pk ∧ hex_decode (ks_address ks) = Some (public_key_to_address pk).
Proof. apply keystore_file_run. Qed.

(** C28. Only an authentic keystore opens.  When [decrypt] returns a key, the
    keystore has a supported version, its MAC is the one of the key derived from
    the password, its ciphertext is the encryption of exactly that secret key
    under the derived key, and the secret key has its full length. *)
Theorem decrypted_key_is_authentic ks pw sk :
  decrypt ks pw = Done (Ok sk) →
  4 ≤ ks_version ks ∧ length sk = PRIVATE_KEY_SIZE ∧
  ∃ salt nonce params key c,
    hex_decode (kp_salt (kc_kdfparams (ks_crypto ks))) = Some salt ∧
    hex_decode (cp_nonce (kc_cipherparams (ks_crypto ks))) = Some nonce ∧ length nonce = 24%nat ∧
    scrypt (str_bytes pw) salt params 32 = Some key ∧
    hex_decode (kc_ciphertext (ks_crypto ks)) = Some c ∧
    aead_encrypt key nonce sk = Some c ∧ kc_mac (ks_crypto ks) = mac_of key c.
Proof.
  unfold decrypt. case_decide as Hv; [done|].
  destruct (hex_decode (kp_salt _)) as [salt|] eqn:Hsalt; [|done].
  destruct (hex_decode (cp_nonce _)) as [nonce|] eqn:Hnonce; [|done].
  unfold exact_length. destruct (decide (length nonce = 24%nat)) as [Hlen|]; [|done]. cbn [mbind outcome_bind].
  destruct (hex_decode (kc_ciphertext _)) as [c|] eqn:Hc; [|done]. case_decide as Hn; [done|].
  cbn [mbind outcome_bind]. destruct (scrypt_params_new _ _ _ _) as [params|]; [|done].
  destruct (scrypt _ _ _ _) as [key|] eqn:Hk; [|done]. case_decide as Hmac; [done|].
  destruct (aead_decrypt _ _ _) as [m|] eqn:Hd; [|done]. case_decide as Hm; [done|]. intros [= ->].
  split_and!; [lia|clear -Hm; by destruct (decide (length sk = PRIVATE_KEY_SIZE))|]. exists salt, nonce, params, key, c.
  split_and!; [done..|by apply aead_authentic|]. clear -Hmac.
  by destruct (decide (mac_of key c = kc_mac (ks_crypto ks))).
Qed.

(** A password is refused when the key derived from it gives another MAC. *)
Theorem wrong_password_is_refused sk pw pk salt nonce id ks pw' :
  length nonce = 24%nat → keystore_new sk pw pk salt nonce id = Ok ks →
  (∀ params key key' c, scrypt (str_bytes pw) salt params 32 = Some key →
     scrypt (str_bytes pw') salt params 32 = Some key' → aead_encrypt key nonce sk = Some c →
     mac_of key' c ≠ mac_of key c) →
  decrypt ks pw' = Done (Err InvalidPassword).
Proof.
  intros Hnonce Hnew Hmac.
  destruct (decrypt_new sk pw pk salt nonce id ks pw' Hnonce Hnew) as (params & key & key' & c & Hk & Hk' & Hc & ->).
  by rewrite decide_True by eauto.
Qed.
End contract.

Section errors.
Context `{!Crypto} `{!KeyCiphers} `{!KeystoreJson} `{!Net}.

(** What opening a keystore file can do.  [decrypt] never loops; it panics
    exactly on a file of a supported version whose salt and nonce are
    hexadecimal and whose nonce has not 24 bytes, or whose ciphertext is also
    hexadecimal and whose cost parameter is zero; on every other file it returns
    a key or an error. *)
Theorem decrypt_panics_iff ks pw :
  decrypt ks pw = Panicked ↔
  4 ≤ ks_version ks ∧ is_Some (hex_decode (kp_salt (kc_kdfparams (ks_crypto ks)))) ∧
  ∃ nonce, hex_decode (cp_nonce (kc_cipherparams (ks_crypto ks))) = Some nonce ∧
    (length nonce ≠ 24%nat ∨
     is_Some (hex_decode (kc_ciphertext (ks_crypto ks))) ∧ kp_n (kc_kdfparams (ks_crypto ks)) = 0).
Proof.
  unfold decrypt. case_decide as Hv; [split; [done|intros [? _]; lia]|].
  destruct (hex_decode (kp_salt _)) as [salt|]; [|split; [done|intros (_ & [? ?] & _); done]].
  destruct (hex_decode (cp_nonce _)) as [nonce|]; [|split; [done|intros (_ & _ & ? & ? & _); done]].
  unfold exact_length. destruct (decide (length nonce = 24%nat)) as [Hlen|Hlen]; cbn [mbind outcome_bind].
  2:{ split; [intros _|done]. split_and!; [lia|done|]. exists nonce. auto. }
  destruct (hex_decode (kc_ciphertext _)) as [c|]; [|split; [done|]].
  2:{ intros (_ & _ & n & [= <-] & [?|[[? ?] _]]); done. }
  case_decide as Hn; cbn [mbind outcome_bind].
  { split; [intros _|done]. split_and!; [lia|done|]. exists nonce. eauto. }
  split; [intros Hp; exfalso; repeat (case_match || case_decide); done|].
  intros (_ & _ & n & [= <-] & [?|[_ ?]]); done.
Qed.

Lemma decrypt_has_fuel ks pw : decrypt ks pw ≠ NoFuel.
Proof. unfold decrypt, exact_length. repeat (case_decide || case_match || cbn [mbind outcome_bind]); done. Qed.

(** What [save_to_path] guarantees of the files, whatever its result. *)
Definition saved (path tmp : Path) (content : bytes) (fs : Fs) (out : Fs * result () KeystoreError) : Prop :=
  (files out.1 !! path = files fs !! path ∨ files out.1 !! path = Some content) ∧
  (out.2 = Ok () → files out.1 !! path = Some content) ∧
  (∀ q, q ≠ path → q ≠ tmp → files out.1 !! q = files fs !! q).

Lemma saved_tmp path tmp content fs fs' e :
  path ≠ tmp → (∀ q, q ≠ tmp → files fs' !! q = files fs !! q) →
  saved path tmp content fs (fs', Err e).
Proof. intros Hne Hq. split_and!; [left; by apply Hq|done|intros q _ ?; by apply Hq]. Qed.

(** C29. Saving is atomic.  Whatever call fails, and wherever, the keystore's
    file holds what it held before or the whole new keystore, never a part of
    it; it holds the new one when the call succeeds; and no other file but the
    temporary one changes. *)
Theorem save_is_atomic ks path env fs dir text :
  parent path = Some dir → path ≠ join dir (tmp_name (sv_uuid env)) → to_string_pretty ks = Some text →
  saved path (join dir (tmp_name (sv_uuid env))) (str_bytes text) fs (save_to_path ks path env fs).
Proof.
  intros Hpar Hne Ht. set (tmp := join dir (tmp_name (sv_uuid env))) in *.
  unfold save_to_path. rewrite Hpar, Ht. fold tmp. unfold mbind, fsm_bind.
  destruct (create_new Io (sv_open env) tmp fs) as [fs1 [[]|e]] eqn:Hcreate; unfold create_new, fail in Hcreate;
    [assert (fs1 = mkFs (<[tmp := []]> (files fs)) (dirs fs)) as ->|assert (fs1 = fs) as ->];
    [repeat (case_match || case_decide); by simplify_eq| |repeat (case_match || case_decide); by simplify_eq|
     by apply saved_tmp].
  assert (∀ c q, q ≠ tmp → (<[tmp := c]> (<[tmp := []]> (files fs))) !! q = files fs !! q) as Hother.
  { intros c q Hq. by rewrite !lookup_insert_ne. }
  unfold write_all. destruct (sv_write env) as [n|]; [apply saved_tmp; [done|by apply Hother]|].
  unfold attempt at 1. destruct (sv_sync env); cbn [mret fsm_ret fail]; [|apply saved_tmp; [done|by apply Hother]].
  unfold rename. cbn [files dirs]. rewrite lookup_insert_eq.
  destruct (sv_rename env); cbn [fail]; [|apply saved_tmp; [done|by apply Hother]].
  match goal with |- saved _ _ _ _ ?out => assert (out.1 = mkFs (<[path := str_bytes text]>
    (delete tmp (<[tmp := str_bytes text]> (<[tmp := []]> (files fs))))) (dirs fs)) as Hout end.
  { unfold open_dir, attempt, fail, mret, fsm_ret. repeat (case_match || case_decide); by simplify_eq/=. }
  unfold saved. rewrite Hout. cbn [files]. rewrite lookup_insert_eq. split_and!; [by right|done|].
  intros q Hq Hqt. rewrite lookup_insert_ne, lookup_delete_ne by done. by apply Hother.
Qed.
End errors.

(** ** Runs *)
Module KeystoreRuns.

(** A derived key that is a hash, and a cipher whose tag is the key. *)
#[export] Instance toy_ciphers : KeyCiphers := {|
  ScryptParams := ();
  scrypt_params_new := λ log_n r p _, if decide (log_n < 64 ∧ 0 < r ∧ 0 < p) then Some () else None;
  scrypt := λ pw salt _ n, Some (be_bytes n (poly (pw ++ salt)));
  aead_encrypt := λ key nonce m, Some (m ++ key);
  aead_decrypt := λ key nonce c,
    let m := take (length c - length key) c in if decide (c = m ++ key) then Some m else None;
|}.

#[export] Instance toy_ciphers_laws : KeyCiphersLaws.
Proof.
  split; cbn [scrypt_params_new scrypt aead_encrypt aead_decrypt toy_ciphers].
  - rewrite decide_True by done. by eexists.
  - intros pw salt params. eexists. split; [done|]. apply length_be_bytes.
  - intros key nonce m _ _ _. by eexists.
  - intros key nonce m c [= <-]. rewrite length_app, Nat.add_sub, take_app_length. by rewrite decide_True.
  - intros key nonce m c. case_decide as Hc; [|done]. intros [= <-]. by rewrite <-Hc.
Qed.

#[export] Instance keystore_countable : Countable Keystore.
Proof.
  refine (inj_countable'
    (λ ks, (ks_address ks, ks_public_key ks, ks_id ks, ks_version ks,
            (kc_cipher (ks_crypto ks), kc_ciphertext (ks_crypto ks), cp_nonce (kc_cipherparams (ks_crypto ks)),
             kc_kdf (ks_crypto ks), kc_mac (ks_crypto ks)),
            (kp_dklen (kc_kdfparams (ks_crypto ks)), kp_n (kc_kdfparams (ks_crypto ks)),
             kp_p (kc_kdfparams (ks_crypto ks)), kp_r (kc_kdfparams (ks_crypto ks)),
             kp_salt (kc_kdfparams (ks_crypto ks)))))
    (λ '(a, k, i, v, (c, ct, n, kdf, mac), (d, kn, kp, kr, s)),
       mkKeystore a k (mkKeyCrypto c ct (mkCipherParams n) kdf (mkKdfParams d kn kp kr s) mac) i v) _).
  by intros [? ? [? ? [?] ? [] ?] ? ?].
Defined.

(** A number as a text of binary digits. *)
Fixpoint bits (p : positive) : bytes :=
  match p with
  | xH => []
  | xO p => Byte.x30 :: bits p
  | xI p => Byte.x31 :: bits p
  end.

Fixpoint unbits (bs : bytes) : positive :=
  match bs with
  | [] => xH
  | b :: bs => if decide (b = Byte.x30) then xO (unbits bs) else xI (unbits bs)
  end.

Lemma unbits_bits p : unbits (bits p) = p.
Proof. induction p as [p IH|p IH|]; cbn [bits unbits]; [|by rewrite decide_True, IH|done]. by rewrite decide_False, IH by done. Qed.

Lemma bits_ascii p : Forall (λ b, Byte.to_N b <= 127) (bits p).
Proof. induction p; by constructor. Qed.

#[export] Instance toy_json : KeystoreJson := {|
  to_string_pretty := λ ks, Some (bytes_str (bits (encode ks)));
  from_str := λ text, decode (unbits (str_bytes text));
|}.

#[export] Instance toy_json_laws : KeystoreJsonLaws.
Proof.
  split. intros ks. eexists. split; [done|]. cbn [from_str toy_json].
  rewrite String.list_byte_of_string_of_list_byte, unbits_bits, decode_encode. split; [done|].
  apply ascii_is_utf8, bits_ascii.
Qed.

Definition home : Path := mkPath true ["home"%string].
Definition key_file : Path := join home "validator.json".
Definition disk0 : Fs := mkFs ∅ {[home]}.
Definition good_env : SaveEnv := mkSaveEnv "1" true None true true true true.
Definition secret : bytes := replicate PRIVATE_KEY_SIZE Byte.x07.
Definition public : bytes := replicate PUBLIC_KEY_SIZE Byte.x08.
Definition nonce24 : bytes := replicate 24 Byte.x01.
Definition salt32 : bytes := replicate 32 Byte.x02.

Lemma keystore_file_roundtrip_witness :
  ∃ ks fs', keystore_new secret "pw" public salt32 nonce24 "id" = Ok ks ∧
    save_to_path ks key_file good_env disk0 = (fs', Ok ()) ∧ from_path true key_file fs' = (fs', Ok ks) ∧
    decrypt ks "pw" = Done (Ok secret) ∧
    hex_decode (ks_public_key ks) = Some public ∧
    hex_decode (ks_address ks) = Some (public_key_to_address public).
Proof.
  apply (keystore_file_roundtrip secret "pw" public salt32 nonce24 "id" key_file home good_env disk0);
    reflexivity.
Defined.

Definition stored : Keystore :=
  match keystore_new secret "pw" public salt32 nonce24 "id" with
  | Ok ks => ks
  | Err _ => mkKeystore "" "" (mkKeyCrypto "" "" (mkCipherParams "") "" (mkKdfParams 0 0 0 0 "") "") "" 0
  end.

Lemma decrypted_key_is_authentic_witness :
  4 ≤ 4 ∧ length secret = PRIVATE_KEY_SIZE ∧
  ∃ salt nonce params key c,
    hex_decode (kp_salt (kc_kdfparams (ks_crypto stored))) = Some salt ∧
    hex_decode (cp_nonce (kc_cipherparams (ks_crypto stored))) = Some nonce ∧ length nonce = 24%nat ∧
    scrypt (str_bytes "pw") salt params 32 = Some key ∧
    hex_decode (kc_ciphertext (ks_crypto stored)) = Some c ∧
    aead_encrypt key nonce secret = Some c ∧ kc_mac (ks_crypto stored) = mac_of key c.
Proof. apply (decrypted_key_is_authentic stored "pw" secret). vm_compute. reflexivity. Defined.

Lemma save_is_atomic_witness :
  saved key_file (join home (tmp_name "1")) (bits (encode stored)) disk0
    (save_to_path stored key_file (mkSaveEnv "1" true (Some 3%nat) true true true true) disk0).
Proof.
  rewrite <-(String.list_byte_of_string_of_list_byte (bits (encode stored))).
  apply (save_is_atomic stored key_file (mkSaveEnv "1" true (Some 3%nat) true true true true) disk0 home);
    [reflexivity|by vm_compute|reflexivity].
Defined.

(** A keystore saved under a bare file name is on the disk, but the call reports
    an input/output error: the parent of a bare name is the empty path, which
    cannot be opened for synchronisation. *)
Theorem bare_file_name_is_saved_but_reported_as_failed ks :
  let path := mkPath false ["validator.json"%string] in
  ∃ text fs', to_string_pretty ks = Some text ∧
    save_to_path ks path good_env disk0 = (fs', Err (Io NotFound)) ∧
    files fs' !! path = Some (str_bytes text).
Proof.
  intros path. do 2 eexists. split; [done|]. unfold save_to_path. cbn [to_string_pretty toy_json].
  set (text := bytes_str _). split; [reflexivity|]. cbn [files]. by rewrite lookup_insert_eq.
Qed.

(** A keystore file whose nonce was cut short stops the node instead of being
    reported as corrupt. *)
Example short_nonce_panics :
  let c := ks_crypto stored in
  decrypt (mkKeystore (ks_address stored) (ks_public_key stored)
    (mkKeyCrypto (kc_cipher c) (kc_ciphertext c) (mkCipherParams (hex_encode [Byte.x01])) (kc_kdf c)
       (kc_kdfparams c) (kc_mac c)) "id" 4) "pw" = Panicked.
Proof. vm_compute. reflexivity. Qed.
End KeystoreRuns.
