(* ===== verification/Json.v ===== *)
(** * JSON values

    [serde_json::Value] as the C interface and the WebSocket use it: values,
    indexing, conversions, and a type discipline for the messages that are sent.
    Reading and printing text is serde_json's: the interface [JsonText]. *)

From S2P Require Import Prelude Bytes Files.

#[local] Set Warnings "-register-all".

(** A number is an unsigned integer, or kept as its text when it is negative or
    has a fraction. *)
Inductive Json :=
| JNull
| JBool (b : bool)
| JNum (n : N)
| JOtherNum (text : string)
| JStr (s : string)
| JArr (l : list Json)
| JObj (fields : list (string * Json)).

(** [value[key]]: [Null] for a missing key and for a value that is no object. *)
Fixpoint json_field (key : string) (fields : list (string * Json)) : Json :=
  match fields with
  | [] => JNull
  | (k, v) :: fields => if decide (k = key) then v else json_field key fields
  end.

Definition json_index (j : Json) (key : string) : Json :=
  match j with
  | JObj fields => json_field key fields
  | _ => JNull
  end.

Definition as_u64 (j : Json) : option N :=
  match j with
  | JNum n => if decide (n < U64) then Some n else None
  | _ => None
  end.

Definition as_str (j : Json) : option string :=
  match j with
  | JStr s => Some s
  | _ => None
  end.

(** [serde_json::from_str] and [to_string]. *)
Class JsonText := {
  json_from_str : string → option Json;
  json_to_string : Json → string;
}.

(** Control characters are escaped in JSON text. *)
Class JsonTextLaws `{!JsonText} := {
  json_no_nul j : Byte.x00 ∉ str_bytes (json_to_string j);
}.

(** ** Types of messages *)
Inductive JType :=
| TNum
| TBool
| TStr
| TOpt (t : JType)
| TArr (t : JType)
| TObj (fields : list (string * JType)).

Fixpoint has_type (t : JType) (j : Json) {struct t} : bool :=
  match t, j with
  | TNum, JNum _ => true
  | TBool, JBool _ => true
  | TStr, JStr _ => true
  | TOpt _, JNull => true
  | TOpt t, _ => has_type t j
  | TArr t, JArr l => forallb (has_type t) l
  | TObj fields, JObj values =>
      (fix go (fields : list (string * JType)) (values : list (string * Json)) : bool :=
         match fields, values with
         | [], [] => true
         | (k, t) :: fields, (k', v) :: values => bool_decide (k = k') && has_type t v && go fields values
         | _, _ => false
         end) fields values
  | _, _ => false
  end.

Lemma has_type_arr {A} (f : A → Json) t l :
  (∀ a, has_type t (f a) = true) → has_type (TArr t) (JArr (f <$> l)) = true.
Proof. intros Hf. cbn [has_type]. induction l as [|a l IH]; [done|]. csimpl. by rewrite Hf, IH. Qed.

Lemma as_u64_lt j n : as_u64 j = Some n → n < U64.
Proof. destruct j; try done. cbn [as_u64]. case_decide; [by intros [= ->]|done]. Qed.

(** ** A printer, for concrete runs *)
Module JsonRuns.
Fixpoint show (j : Json) : string :=
  match j with
  | JNull => "null"
  | JBool b => if b then "true" else "false"
  | JNum n => pretty.pretty n
  | JOtherNum text => text
  | JStr s => String.String (Ascii.ascii_of_nat 34) (s +:+ String.String (Ascii.ascii_of_nat 34) "")
  | JArr l => ("[" +:+ foldr (λ j acc, show j +:+ "," +:+ acc) "]" l)%string
  | JObj fields => ("{" +:+ foldr (λ e acc, e.1 +:+ ":" +:+ show e.2 +:+ "," +:+ acc) "}" fields)%string
  end.
End JsonRuns.
