(* ===== verification/Ffi.v ===== *)
(** * The C interface ([zkapp/ffi/src/lib.rs], [error.rs])

    The functions a C host calls: one global engine behind a [OnceLock] and a
    mutex, JSON in and out, strings that the host must free.  A C string is
    [None] for a null pointer and else its bytes; a returned pointer is its
    address, 0 for null; the heap holds the strings that were handed out and not
    freed.  A panic leaves an [extern "C"] function by aborting the process, so a
    poisoned mutex is never seen and [lock().unwrap()] succeeds. *)

From S2P Require Import Prelude BTree Slab OrderBook BookSpec Matching BookProps Bytes Files Json.

Inductive EviceFfiError :=
| Success
| NullPointer
| InvalidUtf8
| EngineNotInitialized
| InvalidJson
| OrderNotFound
| InvalidOrderParams
| AuctionNotFound
| InvalidIntent
| BidRejected
| WalError
| InternalError.

(** The discriminants of the C enumeration. *)
Definition ffi_code (e : EviceFfiError) : N :=
  match e with
  | Success => 0
  | NullPointer => 1
  | InvalidUtf8 => 2
  | EngineNotInitialized => 3
  | InvalidJson => 4
  | OrderNotFound => 5
  | InvalidOrderParams => 6
  | AuctionNotFound => 7
  | InvalidIntent => 8
  | BidRejected => 9
  | WalError => 10
  | InternalError => 99
  end.

Definition ffi_unwrap (e : EviceFfiError) : outcome () :=
  match e with
  | Success => Done ()
  | _ => Panicked
  end.

(** The allocator behind [CString::into_raw]: an address not in use. *)
Class Alloc := alloc : gset N → N.

Class AllocLaws `{!Alloc} := {
  alloc_fresh used : alloc used ∉ used;
  alloc_not_null used : alloc used ≠ 0;
}.

Record Ffi (S : Type) := mkFfi { engine : option (OrderBook S); heap : gmap N string }.
Arguments mkFfi {S}.
Arguments engine {S}.
Arguments heap {S}.

(** [CStr::from_ptr] and [to_str]. *)
Definition c_str_to_string (ptr : option bytes) : result string EviceFfiError :=
  match ptr with
  | None => Err NullPointer
  | Some bs => if is_utf8 bs then Ok (bytes_str bs) else Err InvalidUtf8
  end.

(** The trades among the events, as JSON. *)
Definition events_to_fills_json (events : list EngineEvent) : list Json :=
  omap (λ e,
    match e with
    | TradeExecuted maker_id taker_id price quantity =>
        Some (JObj [("maker_order_id"%string, JNum maker_id); ("taker_order_id"%string, JNum taker_id);
                    ("price"%string, JNum price); ("quantity"%string, JNum quantity)])
    | _ => None
    end) events.

(** The fields of an order with their defaults. *)
Definition order_of_json (parsed : Json) : N * N * Side * N * N :=
  let order_id := default 0 (as_u64 (json_index parsed "order_id")) in
  let user_id := default 0 (as_u64 (json_index parsed "user_id")) in
  let text := default "bid"%string (as_str (json_index parsed "side")) in
  let side := if decide (text = "ask"%string ∨ text = "Ask"%string ∨ text = "ASK"%string) then Ask else Bid in
  let price := default 0 (as_u64 (json_index parsed "price")) in
  let quantity := default 0 (as_u64 (json_index parsed "quantity")) in
  (order_id, user_id, side, price, quantity).

(** The replies. *)
Definition place_reply (order_id : N) (events : list EngineEvent) : Json :=
  let fills := events_to_fills_json events in
  JObj [("success"%string, JBool true); ("order_id"%string, JNum order_id);
        ("fills"%string, JArr fills); ("fill_count"%string, JNum (N.of_nat (length fills)))].

Definition is_order_cancelled (e : EngineEvent) : bool :=
  match e with
  | OrderCancelled _ => true
  | _ => false
  end.

Definition cancel_reply (order_id : N) (events : list EngineEvent) : Json :=
  let cancelled := existsb is_order_cancelled events in
  JObj [("success"%string, JBool cancelled); ("order_id"%string, JNum order_id);
        ("message"%string, JStr (if cancelled then "Order cancelled"%string
                                 else "Order not found or unauthorized"%string))].

Definition level_json (l : OrderLevel) : Json :=
  JObj [("price"%string, JNum (l_price l)); ("quantity"%string, JNum (l_quantity l))].

Definition depth_reply (asks bids : list OrderLevel) : Json :=
  JObj [("bids"%string, JArr (level_json <$> bids)); ("asks"%string, JArr (level_json <$> asks))].

Definition best_json (l : list OrderLevel) : Json :=
  match l with
  | [] => JNull
  | x :: _ => JNum (l_price x)
  end.

Definition status_reply (asks bids : list OrderLevel) : Json :=
  JObj [("initialized"%string, JBool true); ("best_bid"%string, best_json bids);
        ("best_ask"%string, best_json asks); ("version"%string, JStr "0.1.0"%string)].

Definition uninitialized_reply : Json :=
  JObj [("initialized"%string, JBool false); ("error"%string, JStr "Engine not initialized"%string)].

Section ffi.
Context {S : Type} `{!SlabOps S Order} `{!Profile} `{!JsonText} `{!Alloc}.
Implicit Types (st : Ffi S).

(** [CString::new] refuses an interior NUL; the string is then owned by the
    caller. *)
Definition to_c_string st (s : string) : Ffi S * N :=
  if decide (Byte.x00 ∈ str_bytes s) then (st, 0)
  else let p := alloc (dom (heap st)) in (mkFfi (engine st) (<[p := s]> (heap st)), p).

Definition get_engine st : result (OrderBook S) EviceFfiError :=
  match engine st with
  | Some b => Ok b
  | None => Err EngineNotInitialized
  end.

Definition set_engine st (b : OrderBook S) : Ffi S := mkFfi (Some b) (heap st).

(** [OnceLock::get_or_init]. *)
Definition evice_engine_init st : Ffi S * EviceFfiError :=
  match engine st with
  | Some _ => (st, Success)
  | None => (set_engine st new, Success)
  end.

Definition evice_engine_destroy st : Ffi S * EviceFfiError := (st, Success).

Definition evice_place_order st (order_json : option bytes) : outcome (Ffi S * N) :=
  match c_str_to_string order_json with
  | Err _ => Done (st, 0)
  | Ok json_str =>
    match get_engine st with
    | Err _ => Done (st, 0)
    | Ok b =>
      match json_from_str json_str with
      | None => Done (st, 0)
      | Some parsed =>
        let '(order_id, user_id, side, price, quantity) := order_of_json parsed in
        if decide (price = 0 ∨ quantity = 0) then Done (st, 0)
        else
          '(b, events) ← place_limit_order b order_id user_id side price quantity;
          Done (to_c_string (set_engine st b) (json_to_string (place_reply order_id events)))
      end
    end
  end.

Definition evice_cancel_order st (order_id user_id : N) : outcome (Ffi S * N) :=
  match get_engine st with
  | Err _ => Done (st, 0)
  | Ok b =>
      '(b, events) ← cancel_order b order_id user_id;
      Done (to_c_string (set_engine st b) (json_to_string (cancel_reply order_id events)))
  end.

Definition evice_get_depth st (levels : nat) : outcome (Ffi S * N) :=
  match get_engine st with
  | Err _ => Done (st, 0)
  | Ok b =>
      '(asks, bids) ← get_depth b levels;
      Done (to_c_string st (json_to_string (depth_reply asks bids)))
  end.

Definition evice_get_status st : outcome (Ffi S * N) :=
  match engine st with
  | None => Done (to_c_string st (json_to_string uninitialized_reply))
  | Some b =>
      '(asks, bids) ← get_depth b 1;
      Done (to_c_string st (json_to_string (status_reply asks bids)))
  end.

(** Freeing a pointer that is not live is undefined behaviour; it is taken as a
    crash here, and the theorems ask the host not to do it. *)
Definition evice_free_string st (s : N) : outcome (Ffi S) :=
  if decide (s = 0) then Done st
  else if decide (is_Some (heap st !! s)) then Done (mkFfi (engine st) (delete s (heap st)))
  else Panicked.

(** ** A host's session *)
Inductive Call :=
| CInit
| CDestroy
| CPlace (order_json : option bytes)
| CCancel (order_id user_id : N)
| CDepth (levels : nat)
| CStatus
| CFree (s : N).

Inductive Ret := RCode (e : EviceFfiError) | RPtr (p : N) | RUnit.

Definition ffi_step st (c : Call) : outcome (Ffi S * Ret) :=
  match c with
  | CInit => let '(st, e) := evice_engine_init st in Done (st, RCode e)
  | CDestroy => let '(st, e) := evice_engine_destroy st in Done (st, RCode e)
  | CPlace arg => '(st, p) ← evice_place_order st arg; Done (st, RPtr p)
  | CCancel order_id user_id => '(st, p) ← evice_cancel_order st order_id user_id; Done (st, RPtr p)
  | CDepth levels => '(st, p) ← evice_get_depth st levels; Done (st, RPtr p)
  | CStatus => '(st, p) ← evice_get_status st; Done (st, RPtr p)
  | CFree s => st ← evice_free_string st s; Done (st, RUnit)
  end.

(** The host frees null or a string it was given and still owns. *)
Definition legal st (c : Call) : Prop :=
  match c with
  | CFree s => s = 0 ∨ is_Some (heap st !! s)
  | _ => True
  end.

Inductive ffi_reach : Ffi S → Prop :=
| ffi_start : ffi_reach (mkFfi None ∅)
| ffi_call st c st' r : ffi_reach st → legal st c → ffi_step st c = Done (st', r) → ffi_reach st'.

(** The calls that add up the quantities of a level. *)
Definition is_query (c : Call) : bool :=
  match c with
  | CDepth _ | CStatus => true
  | _ => false
  end.

(** The text of a call's reply, by the interface's documentation. *)
Definition fill_type : JType :=
  TObj [("maker_order_id"%string, TNum); ("taker_order_id"%string, TNum); ("price"%string, TNum);
        ("quantity"%string, TNum)].

Definition level_type : JType := TObj [("price"%string, TNum); ("quantity"%string, TNum)].

Definition reply_types (c : Call) : list JType :=
  match c with
  | CPlace _ => [TObj [("success"%string, TBool); ("order_id"%string, TNum); ("fills"%string, TArr fill_type);
                       ("fill_count"%string, TNum)]]
  | CCancel _ _ => [TObj [("success"%string, TBool); ("order_id"%string, TNum); ("message"%string, TStr)]]
  | CDepth _ => [TObj [("bids"%string, TArr level_type); ("asks"%string, TArr level_type)]]
  | CStatus => [TObj [("initialized"%string, TBool); ("best_bid"%string, TOpt TNum);
                      ("best_ask"%string, TOpt TNum); ("version"%string, TStr)];
                TObj [("initialized"%string, TBool); ("error"%string, TStr)]]
  | _ => []
  end.
End ffi.

(** ** The contract *)
Section contract.
Context {S : Type} `{!SlabOps S Order} `{!SlabLaws S Order} `{!Profile}.
Context `{!JsonText} `{!JsonTextLaws} `{!Alloc} `{!AllocLaws}.
Implicit Types (st : Ffi S).

(** [st'] is [st] with the reply [j] handed to the host at the fresh address [p]. *)
Definition answered st (j : Json) st' (p : N) : Prop :=
  p ≠ 0 ∧ heap st !! p = None ∧ heap st' = <[p := json_to_string j]> (heap st).

Lemma to_c_string_run st b j :
  ∃ st' p, to_c_string (set_engine st b) (json_to_string j) = (st', p) ∧ engine st' = Some b ∧ answered st j st' p.
Proof.
  unfold to_c_string. rewrite decide_False by apply json_no_nul. do 2 eexists. split; [done|].
  split; [done|]. split_and!; [apply alloc_not_null|apply not_elem_of_dom, alloc_fresh|done].
Qed.

Lemma set_engine_id st b : engine st = Some b → set_engine st b = st.
Proof. destruct st as [e h]. simpl. by intros ->. Qed.

(** The engine of a session is a book that some client can reach. *)
Definition ffi_ok st : Prop := ∀ b, engine st = Some b → reachable any_client b.

(** A reply is null and changes nothing, or is a fresh string of the call's type. *)
Definition reply_ok st (c : Call) st' (r : Ret) : Prop :=
  match r with
  | RPtr p => (p = 0 ∧ st' = st) ∨
      ∃ j t, answered st j st' p ∧ t ∈ reply_types c ∧ has_type t j = true
  | _ => True
  end.

Lemma fills_typed events : has_type (TArr fill_type) (JArr (events_to_fills_json events)) = true.
Proof.
  unfold events_to_fills_json. cbn [has_type]. induction events as [|e events IH]; [done|].
  csimpl. destruct e; csimpl; done.
Qed.

Lemma depth_typed asks bids : has_type (TObj [("bids"%string, TArr level_type); ("asks"%string, TArr level_type)])
  (depth_reply asks bids) = true.
Proof.
  unfold depth_reply. cbn [has_type]. rewrite !bool_decide_true by done.
  pose proof (has_type_arr level_json level_type) as Hl. cbn [has_type] in Hl. by rewrite !Hl.
Qed.

Lemma best_typed l : has_type (TOpt TNum) (best_json l) = true.
Proof. by destruct l. Qed.

Lemma status_typed asks bids :
  has_type (TObj [("initialized"%string, TBool); ("best_bid"%string, TOpt TNum);
                  ("best_ask"%string, TOpt TNum); ("version"%string, TStr)]) (status_reply asks bids) = true.
Proof. by destruct asks, bids. Qed.

Lemma order_of_json_lt j oid uid side price qty : order_of_json j = (oid, uid, side, price, qty) → qty < U64.
Proof.
  unfold order_of_json. intros [= _ _ _ _ <-].
  destruct (as_u64 (json_index j "quantity")) as [n|] eqn:Hn; [|done]. by apply as_u64_lt in Hn.
Qed.

(** Replying after an operation of the book. *)
Lemma reply_run st c b e (o : outcome (OrderBook S * list EngineEvent)) reply t :
  reachable any_client b → entry_u64 e → apply_entry b e = o → t ∈ reply_types c →
  (∀ evs, has_type t (reply evs) = true) →
  ∃ st' p, ('(b, evs) ← o; Done (to_c_string (set_engine st b) (json_to_string (reply evs)))) = Done (st', p) ∧
    ffi_ok st' ∧ reply_ok st c st' (RPtr p).
Proof.
  intros Hr He <- Ht Htyped. destruct (apply_entry_wf b e (reachable_wf _ _ Hr) He) as (b' & evs & Hrun & _).
  rewrite Hrun. cbn [mbind outcome_bind].
  destruct (to_c_string_run st b' (reply evs)) as (st' & p & -> & Hb & Hans).
  exists st', p. split_and!; [done| |right; eauto 10].
  intros b1 Hb1. simplify_eq. by eapply (reach_step _ b e).
Qed.

Lemma query_run st c b limit reply t :
  engine st = Some b → reachable any_client b → t ∈ reply_types c → (∀ asks bids, has_type t (reply asks bids) = true) →
  let run := ('(asks, bids) ← get_depth b limit; Done (to_c_string st (json_to_string (reply asks bids)))) in
  (∃ st' p, run = Done (st', p) ∧ ffi_ok st' ∧ reply_ok st c st' (RPtr p)) ∨
  overflow_checks = true ∧ run = Panicked.
Proof.
  intros Hb Hr Ht Htyped run. subst run.
  destruct (get_depth_outcome b limit) as [[[asks bids] ->]|[Hc ->]]; [left|right; done].
  cbn [mbind outcome_bind]. destruct (to_c_string_run st b (reply asks bids)) as (st' & p & Hrun & Hb' & Hans).
  rewrite (set_engine_id st b Hb) in Hrun. rewrite Hrun. exists st', p. split_and!; [done| |right; eauto 10].
  intros b1 Hb1. by simplify_eq.
Qed.

Lemma ffi_step_outcome st c :
  ffi_ok st → legal st c →
  (∃ st' r, ffi_step st c = Done (st', r) ∧ ffi_ok st' ∧ reply_ok st c st' r) ∨
  overflow_checks = true ∧ is_query c = true ∧ ffi_step st c = Panicked.
Proof.
  intros Hok Hlegal. destruct c as [| |arg|oid uid|levels| |s]; cbn [ffi_step].
  - left. unfold evice_engine_init. destruct (engine st) as [b|] eqn:Hb; do 2 eexists; (split; [done|]); [done|].
    split; [|done]. intros b [= <-]. apply reach_new.
  - left. by do 2 eexists.
  - left. unfold evice_place_order, get_engine.
    assert (∃ st' r, ('(st, p) ← Done (st, 0); Done (st, RPtr p)) = Done (st', r) ∧ ffi_ok st' ∧
      reply_ok st (CPlace arg) st' r) as Hnull by (do 2 eexists; split; [done|]; split; [done|by left]).
    destruct (c_str_to_string arg) as [text|]; [|done]. destruct (engine st) as [b|] eqn:Hb; [|done].
    destruct (json_from_str text) as [j|]; [|done].
    destruct (order_of_json j) as [[[[oid uid] side] price] qty] eqn:Hj. case_decide; [done|].
    destruct (reply_run st (CPlace arg) b (Place oid uid side price qty) _ (place_reply oid) _ (Hok _ Hb)
      (order_of_json_lt _ _ _ _ _ _ Hj) eq_refl (list_elem_of_here _ _)) as (st' & p & Hrun & ?).
    { intros evs. pose proof (fills_typed evs) as Hf. cbn [has_type] in Hf. cbn [place_reply has_type].
      by rewrite !bool_decide_true, Hf by done. }
    cbn [apply_entry] in Hrun. rewrite Hrun. simpl. eauto.
  - left. unfold evice_cancel_order, get_engine. destruct (engine st) as [b|] eqn:Hb.
    2:{ do 2 eexists. split; [done|]. split; [done|by left]. }
    destruct (reply_run st (CCancel oid uid) b (Cancel oid uid) _ (cancel_reply oid) _ (Hok _ Hb) I eq_refl
      (list_elem_of_here _ _)) as (st' & p & Hrun & ?); [done|].
    cbn [apply_entry] in Hrun. rewrite Hrun. simpl. eauto.
  - unfold evice_get_depth, get_engine. destruct (engine st) as [b|] eqn:Hb.
    2:{ left. do 2 eexists. split; [done|]. split; [done|by left]. }
    destruct (query_run st (CDepth levels) b levels depth_reply _ Hb (Hok _ Hb) (list_elem_of_here _ _) depth_typed)
      as [(st' & p & -> & ?)|[Hc ->]]; [left|right; done]. simpl. eauto.
  - unfold evice_get_status. destruct (engine st) as [b|] eqn:Hb.
    2:{ left. unfold to_c_string. rewrite decide_False by apply json_no_nul. do 2 eexists. split; [done|].
        split; [by intros b [=]; simplify_eq|]. right. eexists _, _.
        split; [split_and!; [apply alloc_not_null|apply not_elem_of_dom, alloc_fresh|done]|].
        split; [apply list_elem_of_further, list_elem_of_here|done]. }
    destruct (query_run st CStatus b 1 status_reply _ Hb (Hok _ Hb) (list_elem_of_here _ _) status_typed)
      as [(st' & p & -> & ?)|[Hc ->]]; [left|right; done]. simpl. eauto.
  - left. unfold evice_free_string. case_decide as Hs; [by do 2 eexists|].
    destruct Hlegal as [?|Hlive]; [done|]. rewrite decide_True by done. by do 2 eexists.
Qed.

Lemma ffi_reach_ok st : ffi_reach st → ffi_ok st.
Proof.
  induction 1 as [|st c st' r _ IH Hl Hrun]; [by intros b [=]|].
  destruct (ffi_step_outcome st c IH Hl) as [(st1 & r1 & Hrun1 & ? & _)|(_ & _ & Hp)]; [by same_run|congruence].
Qed.

(** C35. The C interface is memory-safe and total.  In every session in which the
    host frees only strings it owns, each call returns, except that a build with
    overflow checks may abort in a depth or status query; the engine's book
    stays one that clients can reach; and a call returns null and changes
    nothing, or a fresh non-null string, and freeing that string restores the
    heap exactly. *)
Theorem ffi_session_is_safe st c :
  ffi_reach st → legal st c →
  (∃ st' r, ffi_step st c = Done (st', r) ∧ (∀ b, engine st' = Some b → reachable any_client b) ∧
     ∀ p, r = RPtr p → (p = 0 ∧ st' = st) ∨
       p ≠ 0 ∧ heap st !! p = None ∧
       ∃ st'', evice_free_string st' p = Done st'' ∧ heap st'' = heap st ∧ engine st'' = engine st') ∨
  overflow_checks = true ∧ is_query c = true ∧ ffi_step st c = Panicked.
Proof.
  intros Hr%ffi_reach_ok Hl.
  destruct (ffi_step_outcome st c Hr Hl) as [(st' & r & Hrun & Hok & Hrep)|?]; [left|by right].
  exists st', r. split_and!; [done..|]. intros p ->. destruct Hrep as [?|(j & t & (Hp & Hnone & Hheap) & _)]; [by left|].
  right. split_and!; [done..|]. unfold evice_free_string. rewrite decide_False by done.
  rewrite Hheap, lookup_insert_eq, decide_True by done. eexists. split; [done|]. split; [|done].
  simpl. by apply delete_insert_id.
Qed.


(** What [evice_place_order] needs to accept a request. *)
Definition order_request st (arg : option bytes) (b : OrderBook S) (order : N * N * Side * N * N) : Prop :=
  ∃ bs j, arg = Some bs ∧ is_utf8 bs = true ∧ engine st = Some b ∧ json_from_str (bytes_str bs) = Some j ∧
    order_of_json j = order ∧ order.1.2 ≠ 0 ∧ order.2 ≠ 0.


(** Depth and status, while no level holds [2^64] units. *)
Theorem ffi_queries_are_exact st b levels :
  ffi_reach st → engine st = Some b →
  (∀ s, Forall (λ l, l_quantity l < U64) (spec_depth (view_side s (view b)))) →
  let asks := spec_depth (v_asks (view b)) in
  let bids := spec_depth (v_bids (view b)) in
  (∃ st' p, evice_get_depth st levels = Done (st', p) ∧ engine st' = Some b ∧
     answered st (depth_reply (take levels asks) (take levels bids)) st' p) ∧
  (∃ st' p, evice_get_status st = Done (st', p) ∧ engine st' = Some b ∧
     answered st (status_reply (take 1 asks) (take 1 bids)) st' p).
Proof.
  intros Hr%ffi_reach_ok Hb Hvol asks bids. pose proof (reachable_wf _ _ (Hr _ Hb)) as Hwf.
  assert (∀ n, get_depth b n = Done (take n asks, take n bids)) as Hd by (intros n; by apply get_depth_exact).
  unfold evice_get_depth, evice_get_status, get_engine. rewrite Hb, !Hd. cbn [mbind outcome_bind].
  split; [destruct (to_c_string_run st b (depth_reply (take levels asks) (take levels bids))) as (st' & p & Hc & ? & ?)
         |destruct (to_c_string_run st b (status_reply (take 1 asks) (take 1 bids))) as (st' & p & Hc & ? & ?)];
    rewrite (set_engine_id st b Hb) in Hc; rewrite Hc; eauto.
Qed.
End contract.

(** ** Runs *)
Module FfiRuns.
#[local] Instance debug : Profile := true.
Local Abbreviation State := (Ffi (VecSlab Order)).

(** One address above all addresses in use. *)
#[export] Instance bump_alloc : Alloc := λ used, N.succ (foldr N.max 0 (elements used)).

#[export] Instance bump_alloc_laws : AllocLaws.
Proof.
  split; intros used; unfold alloc, bump_alloc; [|lia]. intros Hin%elem_of_elements.
  assert (∀ l n, n ∈ l → n <= foldr N.max 0 l) as Hmax.
  { intros l n. induction l as [|x l IH]; [by intros ?%elem_of_nil|].
    intros [->|?%IH]%elem_of_cons; simpl; lia. }
  apply Hmax in Hin. lia.
Qed.

Definition order_json (side : string) : Json :=
  JObj [("order_id"%string, JNum 1); ("user_id"%string, JNum 100); ("side"%string, JStr side);
        ("price"%string, JNum 5000); ("quantity"%string, JNum 10)].

(** A reader that knows four texts, and a printer. *)
#[export] Instance toy_json_text : JsonText := {|
  json_from_str := λ s,
    if decide (s = "bid"%string) then Some (order_json "bid")
    else if decide (s = "SELL"%string) then Some (order_json "SELL")
    else if decide (s = "empty"%string) then Some (JObj [])
    else None;
  json_to_string := λ j, bytes_str (filter (.≠ Byte.x00) (str_bytes (JsonRuns.show j)));
|}.

#[export] Instance toy_json_text_laws : JsonTextLaws.
Proof.
  split. intros j. cbn [json_to_string toy_json_text]. rewrite String.list_byte_of_string_of_list_byte.
  intros [? _]%list_elem_of_filter. done.
Qed.

Definition run_calls (l : list Call) : State :=
  foldl (λ st c, match ffi_step st c with Done r => r.1 | _ => st end) (mkFfi None ∅) l.

Definition initialised : State := run_calls [CInit].
Definition with_order : State := run_calls [CInit; CPlace (Some (str_bytes "bid"))].

Lemma initialised_reach : ffi_reach initialised.
Proof. eapply (ffi_call (mkFfi None ∅) CInit); [apply ffi_start|done|reflexivity]. Qed.

Lemma with_order_reach : ffi_reach with_order.
Proof.
  apply (ffi_call initialised (CPlace (Some (str_bytes "bid"))) with_order (RPtr 1));
    [apply initialised_reach|exact I|vm_compute; reflexivity].
Qed.

Lemma ffi_session_is_safe_witness :
  (∃ st' r, ffi_step with_order (CDepth 3) = Done (st', r) ∧
     (∀ b, engine st' = Some b → reachable any_client b) ∧
     ∀ p, r = RPtr p → (p = 0 ∧ st' = with_order) ∨
       p ≠ 0 ∧ heap with_order !! p = None ∧
       ∃ st'', evice_free_string st' p = Done st'' ∧ heap st'' = heap with_order ∧ engine st'' = engine st') ∨
  overflow_checks = true ∧ is_query (CDepth 3) = true ∧ ffi_step with_order (CDepth 3) = Panicked.
Proof. exact (ffi_session_is_safe with_order (CDepth 3) with_order_reach I). Defined.



(** [evice_engine_destroy] is documented to require a new initialisation, which
    suggests an empty engine; the book survives both. *)
Theorem destroyed_engine_keeps_its_book :
  (∃ b, engine (run_calls [CInit; CPlace (Some (str_bytes "bid")); CDestroy; CInit]) = Some b ∧
     view b = mkView [mkOrder 1 100 5000 10 Bid 0] []) ∧
  (∃ st p, ffi_step (run_calls [CInit; CPlace (Some (str_bytes "bid")); CDestroy]) CStatus = Done (st, RPtr p) ∧ p ≠ 0).
Proof. split; [eexists; split; vm_compute; reflexivity|]. do 2 eexists. split; [vm_compute; reflexivity|done]. Qed.

(** A side other than ["ask"] is a bid: here an order to ["SELL"] buys, and the
    reply says that it succeeded. *)
Theorem unknown_side_is_a_bid :
  ∃ st p b, ffi_step initialised (CPlace (Some (str_bytes "SELL"))) = Done (st, RPtr p) ∧ p ≠ 0 ∧
    engine st = Some b ∧ view b = mkView [mkOrder 1 100 5000 10 Bid 0] [].
Proof. do 3 eexists. split; [vm_compute; reflexivity|]. split; [done|]. split; vm_compute; reflexivity. Qed.
End FfiRuns.
