(* ===== verification/LockOrder.v ===== *)
(** * The locks of the sequencer ([consensus/engine.rs], [consensus/state.rs],
      [p2p/swarm.rs])

    The handlers of the engine and of the network loop share the consensus state
    through asynchronous locks.  [Consensus.v] takes a handler's critical
    sections as atomic; this file looks at how they are entered: every path of
    every handler as the sequence of its lock operations, and the interleaving of
    any number of them.

    The locks are tokio's.  [RwPolicy] is the rule by which a waiting task is let
    in; its laws are tokio's documentation: a lock is shared by readers or
    exclusive, requests are queued first in, first out, and "a read lock will not
    be given out until all write lock requests that were queued before it have
    been acquired and released". *)

From S2P Require Import Prelude.

Inductive Lock := StateLock | CoreLock | PendingLock | BookLock | CacheLock | QueuesLock | MempoolLock.
Inductive Mode := Read | Write.
Inductive LockOp := Acq (l : Lock) (m : Mode) | Rel (l : Lock).

#[export] Instance lock_eq_dec : EqDecision Lock.
Proof. solve_decision. Defined.
#[export] Instance mode_eq_dec : EqDecision Mode.
Proof. solve_decision. Defined.

#[export] Instance lock_op_eq_dec : EqDecision LockOp.
Proof. solve_decision. Defined.

Class RwPolicy := may_acquire : list Mode → list Mode → Mode → bool.

(** [may_acquire holders ahead m]: a request in mode [m] is granted while the
    lock is held in the modes [holders] and the requests [ahead] wait before it. *)
Class RwPolicyLaws `{!RwPolicy} := {
  write_is_exclusive holders ahead : may_acquire holders ahead Write = true → holders = [];
  read_excludes_write holders ahead : may_acquire holders ahead Read = true → Write ∉ holders;
  read_waits_for_writers holders ahead : may_acquire holders ahead Read = true → Write ∉ ahead;
  first_is_served m : may_acquire [] [] m = true;
}.

(** ** The paths through the handlers *)

(** A critical section; [body] is what happens inside. *)
Definition guarded (l : Lock) (m : Mode) (body : list LockOp) : list LockOp := Acq l m :: body ++ [Rel l].
Definition section (l : Lock) (m : Mode) : list LockOp := guarded l m [].

(** One path after another. *)
Definition then_ (p : list LockOp) (ps : list (list LockOp)) : list (list LockOp) := (p ++.) <$> ps.

(** A tokio mutex is a lock that is only written. *)
Definition process_votes_paths : list (list LockOp) :=
  then_ (section BookLock Write)
    [ section CoreLock Write;
      guarded CoreLock Write (section PendingLock Read);
      guarded CoreLock Write (section PendingLock Read) ++ section CoreLock Read ++ section PendingLock Write ].

Definition batch_proposal_paths : list (list LockOp) :=
  section BookLock Write ::
  (section BookLock Write ++ section PendingLock Write) ::
  then_ (section BookLock Write ++ section PendingLock Write ++ section CoreLock Write) process_votes_paths.

Definition velocity_vote_paths : list (list LockOp) :=
  section CoreLock Read ::
  (section CoreLock Read ++ section BookLock Write) ::
  then_ (section CoreLock Read ++ section BookLock Write ++ section CoreLock Write) process_votes_paths.

Definition quorum_certificate_paths : list (list LockOp) :=
  [ section BookLock Write;
    section BookLock Write ++ section CoreLock Write;
    section BookLock Write ++ guarded CoreLock Write (section PendingLock Read);
    section BookLock Write ++ guarded CoreLock Write (section PendingLock Read) ++ section QueuesLock Write ].

Definition consensus_message_paths : list (list LockOp) :=
  section CacheLock Read ::
  (section CacheLock Read ++ section CacheLock Write) ::
  then_ (section CacheLock Read ++ section CacheLock Write)
    (batch_proposal_paths ++ velocity_vote_paths ++ quorum_certificate_paths).

Definition round_step_paths : list (list LockOp) :=
  section CoreLock Read ::
  (section CoreLock Read ++ section BookLock Write) ::
  then_ (section CoreLock Read ++ section BookLock Write ++
         section CoreLock Read ++ section MempoolLock Write ++ section CoreLock Read ++
         section PendingLock Write ++ section CoreLock Write) process_votes_paths.

Definition driver_paths : list (list LockOp) :=
  [ section CoreLock Read;
    section CoreLock Read ++ section CoreLock Write ++ section QueuesLock Write ].

Definition engine_paths : list (list LockOp) :=
  driver_paths ++ round_step_paths ++ consensus_message_paths.

(** A request for a proposal that is pending, and for one that is not: the guard
    of the pending proposals is kept while the confirmed batches are searched. *)
Definition serve_pending : list LockOp := guarded StateLock Read (section PendingLock Read).
Definition serve_confirmed : list LockOp :=
  guarded StateLock Read (guarded PendingLock Read (section CoreLock Read)).

(** The fallback topic: the temporaries of an [if let] live to the end of its
    [else], so both guards are kept, and the state is read a second time. *)
Definition fallback_confirmed : list LockOp :=
  guarded StateLock Read (guarded PendingLock Read (guarded StateLock Read (section CoreLock Read))).

(** ** Interleaving *)
Record Task := mkTask { held : list (Lock * Mode); prog : list LockOp }.

Record Sys := mkSys { tasks : list Task; waiting : list (nat * (Lock * Mode)) }.

(** The modes in which a lock is held, and in which requests wait for it. *)
Definition held_modes (l : Lock) (h : list (Lock * Mode)) : list Mode :=
  omap (λ e, if decide (e.1 = l) then Some e.2 else None) h.

Definition holders (l : Lock) (ts : list Task) : list Mode := ts ≫= λ t, held_modes l (held t).

Definition ahead (l : Lock) (w : list (nat * (Lock * Mode))) : list Mode :=
  omap (λ e, if decide (e.2.1 = l) then Some e.2.2 else None) w.

Fixpoint release (l : Lock) (h : list (Lock * Mode)) : list (Lock * Mode) :=
  match h with
  | [] => []
  | e :: h => if decide (e.1 = l) then h else e :: release l h
  end.

Section steps.
Context `{!RwPolicy}.
Implicit Types (s : Sys).

(** A task asks for its next lock, is let in, or leaves. *)
Inductive lock_step : Sys → Sys → Prop :=
| step_request s t task l m p :
    tasks s !! t = Some task → prog task = Acq l m :: p → t ∉ (waiting s).*1 →
    lock_step s (mkSys (tasks s) (waiting s ++ [(t, (l, m))]))
| step_grant s t task l m p w1 w2 :
    waiting s = w1 ++ (t, (l, m)) :: w2 → tasks s !! t = Some task → prog task = Acq l m :: p →
    may_acquire (holders l (tasks s)) (ahead l w1) m = true →
    lock_step s (mkSys (<[t := mkTask ((l, m) :: held task) p]> (tasks s)) (w1 ++ w2))
| step_release s t task l p :
    tasks s !! t = Some task → prog task = Rel l :: p →
    lock_step s (mkSys (<[t := mkTask (release l (held task)) p]> (tasks s)) (waiting s)).

Definition start (ps : list (list LockOp)) : Sys := mkSys (mkTask [] <$> ps) [].

Definition lock_reach (ps : list (list LockOp)) : Sys → Prop := rtc lock_step (start ps).

(** All tasks are through. *)
Definition finished s : Prop := Forall (λ t, prog t = []) (tasks s).
End steps.

(** ** The order of locks *)
Definition rank (l : Lock) : nat :=
  match l with
  | StateLock => 0
  | CoreLock => 1
  | PendingLock => 2
  | BookLock | CacheLock | QueuesLock | MempoolLock => 3
  end.

(** Locks are taken in increasing rank, released only when held, and all released
    at the end. *)
Fixpoint ordered (h : list (Lock * Mode)) (p : list LockOp) : bool :=
  match p with
  | [] => bool_decide (h = [])
  | Acq l m :: p => forallb (λ e, bool_decide (rank e.1 < rank l)%nat) h && ordered ((l, m) :: h) p
  | Rel l :: p => bool_decide (l ∈ h.*1) && ordered (release l h) p
  end.

Section order.
Context `{!RwPolicy}.
Implicit Types (s : Sys).

(** Every task follows the order, and what waits is what the tasks ask for. *)
Record lock_inv s : Prop := {
  inv_ordered : Forall (λ t, ordered (held t) (prog t) = true) (tasks s);
  inv_waiting t l m : (t, (l, m)) ∈ waiting s →
    ∃ task p, tasks s !! t = Some task ∧ prog task = Acq l m :: p;
  inv_once : NoDup (waiting s).*1;
}.

Lemma lock_inv_start ps : Forall (λ p, ordered [] p = true) ps → lock_inv (start ps).
Proof. intros Hps. split; [by apply Forall_fmap|by intros ??? ?%elem_of_nil|constructor]. Qed.

(** A waiting task other than [t] is not changed by a step of [t]. *)
Lemma inv_waiting_other s t task (w : list (nat * (Lock * Mode))) :
  lock_inv s → (∀ e, e ∈ w → e ∈ waiting s ∧ e.1 ≠ t) →
  ∀ t' l m, (t', (l, m)) ∈ w →
  ∃ task' p, <[t := task]> (tasks s) !! t' = Some task' ∧ prog task' = Acq l m :: p.
Proof.
  intros Hinv Hw t' l m Hin. destruct (Hw _ Hin) as [Hin' Hne]. simpl in Hne.
  destruct (inv_waiting s Hinv _ _ _ Hin') as (task' & p & Ht & Hp). exists task', p.
  by rewrite list_lookup_insert_ne.
Qed.

Lemma lock_inv_step s s' : lock_inv s → lock_step s s' → lock_inv s'.
Proof.
  intros Hinv Hstep. pose proof (inv_ordered s Hinv) as Hord. pose proof (inv_once s Hinv) as Hnd.
  destruct Hstep as [s t task l m p Ht Hp Hnew|s t task l m p w1 w2 Hw Ht Hp _|s t task l p Ht Hp]; simpl in *.
  - split; simpl; [done| |].
    + intros t' l' m' [Hin|Heq%list_elem_of_singleton]%elem_of_app; [by apply (inv_waiting s Hinv)|].
      simplify_eq. eauto.
    + rewrite fmap_app. apply NoDup_app. split_and!; [done| |apply NoDup_singleton].
      intros x Hx ->%list_elem_of_singleton. by apply Hnew.
  - pose proof (Forall_lookup_1 _ _ _ _ Hord Ht) as Htask. simpl in Htask. rewrite Hp in Htask.
    rewrite Hw, fmap_app, fmap_cons in Hnd. apply NoDup_app in Hnd as (Hnd1 & Hdis & Hnd2).
    apply NoDup_cons in Hnd2 as [Hn2 Hnd2]. split; simpl.
    + apply Forall_insert; [done|]. simpl in Htask |- *. by apply andb_prop in Htask as [_ ?].
    + apply inv_waiting_other; [done|]. intros e [He|He]%elem_of_app; rewrite Hw.
      * split; [set_solver|]. intros Heq. apply (Hdis e.1); [by apply list_elem_of_fmap_2|rewrite Heq; left].
      * split; [set_solver|]. intros Heq. apply Hn2. simpl. rewrite <-Heq. by apply list_elem_of_fmap_2.
    + rewrite fmap_app. apply NoDup_app. split_and!; [done|set_solver|done].
  - pose proof (Forall_lookup_1 _ _ _ _ Hord Ht) as Htask. simpl in Htask. rewrite Hp in Htask.
    split; simpl; [| |done].
    + apply Forall_insert; [done|]. simpl in Htask |- *. by apply andb_prop in Htask as [_ ?].
    + apply inv_waiting_other; [done|]. intros e He. split; [done|]. intros Heq. destruct e as [t' [l' m']].
      simpl in Heq. subst t'. destruct (inv_waiting s Hinv _ _ _ He) as (? & ? & ? & ?). congruence.
Qed.

Lemma lock_inv_reach ps s : Forall (λ p, ordered [] p = true) ps → lock_reach ps s → lock_inv s.
Proof.
  intros Hps Hr. apply lock_inv_start in Hps. unfold lock_reach in Hr. revert Hps.
  induction Hr; eauto using lock_inv_step.
Qed.
End order.

(** ** Progress *)
Section progress.
Context `{!RwPolicy} `{!RwPolicyLaws}.
Implicit Types (s : Sys).

Lemma elem_of_held_modes l m h : m ∈ held_modes l h → (l, m) ∈ h.
Proof. intros ([l' m'] & Hin & He)%list_elem_of_omap. simpl in He. case_decide; by simplify_eq. Qed.

Lemma holders_empty l s :
  (∀ t task m, tasks s !! t = Some task → (l, m) ∉ held task) → holders l (tasks s) = [].
Proof.
  intros Hno. destruct (holders l (tasks s)) as [|m ms] eqn:Hh; [done|]. exfalso.
  assert (m ∈ holders l (tasks s)) as Hin by (rewrite Hh; left). unfold holders in Hin.
  apply list_elem_of_bind in Hin as (task & Hm%elem_of_held_modes & [t Ht]%list_elem_of_lookup_1).
  by apply (Hno t task m).
Qed.

Lemma holder_or_free s l :
  (∀ t task m, tasks s !! t = Some task → (l, m) ∉ held task) ∨
  ∃ t task m, tasks s !! t = Some task ∧ (l, m) ∈ held task.
Proof.
  destruct (decide (Exists (λ task, l ∈ (held task).*1) (tasks s))) as [Hex|Hno].
  - right. apply Exists_exists in Hex as (task & [t Ht]%list_elem_of_lookup_1 & Hin).
    apply list_elem_of_fmap in Hin as ([l' m] & -> & Hin). by exists t, task, m.
  - left. intros t task m Ht Hin. apply Hno, Exists_exists. exists task.
    split; [by eapply list_elem_of_lookup_2|]. by apply (list_elem_of_fmap_2 fst _ (l, m)).
Qed.

(** The first request for a lock in the queue has no request ahead. *)
Lemma first_request (P : Lock) (w : list (nat * (Lock * Mode))) :
  P ∈ w.*2.*1 → ∃ w1 t m w2, w = w1 ++ (t, (P, m)) :: w2 ∧ ahead P w1 = [].
Proof.
  induction w as [|[t [l m]] w IH]; [by intros ?%elem_of_nil|]. csimpl.
  destruct (decide (l = P)) as [->|Hne]; [intros _; by exists [], t, m, w|].
  intros [?|Hin]%elem_of_cons; [done|]. destruct (IH Hin) as (w1 & t' & m' & w2 & -> & Ha).
  exists ((t, (l, m)) :: w1), t', m', w2. split; [done|]. unfold ahead. csimpl. by rewrite decide_False.
Qed.

(** A lock of the highest rank among those waited for. *)
Lemma highest_wanted (ls : list Lock) :
  ls ≠ [] → ∃ l, l ∈ ls ∧ ∀ l', l' ∈ ls → (rank l' ≤ rank l)%nat.
Proof.
  induction ls as [|l ls IH]; [done|]. intros _. destruct ls as [|l0 ls]; [exists l; set_solver|].
  destruct IH as (l1 & Hin & Hmax); [done|]. destruct (decide (rank l ≤ rank l1)%nat).
  - exists l1. split; [by right|]. intros l' [->|?]%elem_of_cons; auto.
  - exists l. split; [by left|]. intros l' [->|?%Hmax]%elem_of_cons; lia.
Qed.

Lemma held_below l m t p : ordered (held t) (Acq l m :: p) = true →
  ∀ l' m', (l', m') ∈ held t → (rank l' < rank l)%nat.
Proof.
  intros Ho l' m' Hin. simpl in Ho. apply andb_prop in Ho as [Hall _].
  rewrite forallb_forall in Hall. specialize (Hall (l', m')). apply list_elem_of_In in Hin.
  by apply Hall, bool_decide_eq_true in Hin.
Qed.

(** What a task that cannot ask or leave is doing. *)
Lemma step_or_waits s t task :
  lock_inv s → tasks s !! t = Some task → prog task ≠ [] →
  (∃ s', lock_step s s') ∨ ∃ l m p, prog task = Acq l m :: p ∧ (t, (l, m)) ∈ waiting s.
Proof.
  intros Hinv Ht Hne. destruct (prog task) as [|[l m|l] p] eqn:Hp; [done| |left; eexists; by eapply step_release].
  destruct (decide (t ∈ (waiting s).*1)) as [Hin|Hnot]; [right|left; eexists; by eapply step_request].
  apply list_elem_of_fmap in Hin as ([t' [l' m']] & -> & Hin).
  destruct (inv_waiting s Hinv _ _ _ Hin) as (task' & p' & Ht' & Hp'). simpl in *.
  rewrite Ht in Ht'. injection Ht' as <-. rewrite Hp in Hp'. injection Hp' as -> -> ->. eauto.
Qed.

Lemma ordered_progress s : lock_inv s → finished s ∨ ∃ s', lock_step s s'.
Proof.
  intros Hinv. destruct (decide (finished s)) as [?|Hnf]; [by left|right]. unfold finished in Hnf.
  apply not_Forall_Exists in Hnf; [|apply _]. apply Exists_exists in Hnf as (task & [t Ht]%list_elem_of_lookup_1 & Hne).
  destruct (step_or_waits s t task Hinv Ht Hne) as [?|(l0 & m0 & p0 & _ & Hw0)]; [done|].
  destruct (highest_wanted (waiting s).*2.*1) as (l & Hl & Hmax).
  { intros Hnil. apply fmap_nil_inv, fmap_nil_inv in Hnil. rewrite Hnil in Hw0. by apply elem_of_nil in Hw0. }
  destruct (first_request l (waiting s) Hl) as (w1 & t1 & m1 & w2 & Hw & Ha).
  destruct (inv_waiting s Hinv t1 l m1) as (task1 & p1 & Ht1 & Hp1); [rewrite Hw; set_solver|].
  destruct (holder_or_free s l) as [Hfree|(t2 & task2 & m2 & Ht2 & Hheld)].
  - eexists. eapply step_grant; [done..|]. rewrite holders_empty, Ha by done. apply first_is_served.
  - pose proof (Forall_lookup_1 _ _ _ _ (inv_ordered s Hinv) Ht2) as Ho. simpl in Ho.
    assert (prog task2 ≠ []) as Hne2.
    { intros Hnil. rewrite Hnil in Ho. apply bool_decide_eq_true in Ho. rewrite Ho in Hheld. by apply elem_of_nil in Hheld. }
    destruct (step_or_waits s t2 task2 Hinv Ht2 Hne2) as [?|(l2 & m3 & p2 & Hp2 & Hw2)]; [done|].
    rewrite Hp2 in Ho. apply (held_below _ _ _ _ Ho) in Hheld.
    assert (rank l2 ≤ rank l)%nat; [|lia]. apply Hmax. rewrite <-list_fmap_compose.
    by apply (list_elem_of_fmap_2 (fst ∘ snd) _ (t2, (l2, m3))).
Qed.
End progress.

(** ** Termination *)
Section termination.
Context `{!RwPolicy}.
Implicit Types (s : Sys).

(** The operations that are left, and then the requests that can still be made. *)
Definition ops_left (ts : list Task) : nat := sum_list_with (length ∘ prog) ts.

Definition work s : nat :=
  S (length (tasks s)) * ops_left (tasks s) + (length (tasks s) - length (waiting s)).

Lemma ops_left_insert ts t task h p op :
  ts !! t = Some task → prog task = op :: p → ops_left ts = S (ops_left (<[t := mkTask h p]> ts)).
Proof.
  intros Ht Hp. rewrite (insert_take_drop ts t) by (by eapply lookup_lt_Some).
  rewrite <-(take_drop_middle ts t task Ht) at 1. unfold ops_left. rewrite !sum_list_with_app.
  simpl. rewrite Hp. simpl. lia.
Qed.

Lemma waiting_bound s : lock_inv s → (length (waiting s) ≤ length (tasks s))%nat.
Proof.
  intros Hinv. rewrite <-(length_fmap fst), <-(length_seq (length (tasks s)) 0).
  apply submseteq_length, NoDup_submseteq; [apply (inv_once s Hinv)|].
  intros t ([t' [l m]] & -> & Hin)%list_elem_of_fmap.
  destruct (inv_waiting s Hinv _ _ _ Hin) as (task & p & Ht & _). apply elem_of_seq.
  apply lookup_lt_Some in Ht. simpl. lia.
Qed.

Lemma work_decreases s s' : lock_inv s → lock_step s s' → (work s' < work s)%nat.
Proof.
  intros Hinv Hstep. pose proof (waiting_bound s' (lock_inv_step _ _ Hinv Hstep)) as Hb'. revert Hb'. unfold work.
  destruct Hstep as [s t task l m p Ht Hp _|s t task l m p w1 w2 Hw Ht Hp _|s t task l p Ht Hp];
    cbn [tasks waiting]; rewrite ?length_insert.
  - rewrite length_app. simpl. lia.
  - rewrite (ops_left_insert _ _ _ ((l, m) :: held task) _ _ Ht Hp), Hw, !length_app. simpl. nia.
  - rewrite (ops_left_insert _ _ _ (release l (held task)) _ _ Ht Hp). nia.
Qed.

Lemma every_schedule_ends s : lock_inv s → sn lock_step s.
Proof.
  remember (work s) as n eqn:Hn. revert s Hn. induction (lt_wf n) as [n _ IH]; intros s -> Hinv.
  constructor. intros s' Hstep. eapply IH; [by apply work_decreases|done|by eapply lock_inv_step].
Qed.
End termination.

(** ** Deadlock *)

(** A path of a handler on which a batch is confirmed, and one on which a
    proposal is stored. *)
Definition vote_confirms : list LockOp :=
  section CacheLock Read ++ section CacheLock Write ++
  section CoreLock Read ++ section BookLock Write ++ section CoreLock Write ++
  section BookLock Write ++ guarded CoreLock Write (section PendingLock Read) ++
  section CoreLock Read ++ section PendingLock Write.

Definition proposal_known : list LockOp :=
  section CacheLock Read ++ section CacheLock Write ++ section BookLock Write ++ section PendingLock Write.

Lemma deadlocking_paths : vote_confirms ∈ engine_paths ∧ proposal_known ∈ engine_paths.
Proof.
  unfold engine_paths, vote_confirms, proposal_known. split; apply (bool_decide_eq_true_1 _); vm_compute; reflexivity.
Qed.

(** The three tasks when they have met: the request holds the pending proposals
    and wants the core, the vote holds the core and wants the proposals, and the
    proposal waits to write them, ahead of the vote. *)
Definition stuck_request : Task :=
  mkTask [(PendingLock, Read); (StateLock, Read)] (drop 2 serve_confirmed).
Definition stuck_vote : Task := mkTask [(CoreLock, Write)] (drop 13 vote_confirms).
Definition stuck_proposal : Task := mkTask [] (drop 6 proposal_known).

Definition stuck_queue : list (nat * (Lock * Mode)) :=
  [(2%nat, (PendingLock, Write)); (1%nat, (PendingLock, Read)); (0%nat, (CoreLock, Read))].

Definition stuck (s : Sys) : Prop :=
  tasks s !! 0%nat = Some stuck_request ∧ tasks s !! 1%nat = Some stuck_vote ∧
  tasks s !! 2%nat = Some stuck_proposal ∧
  filter (λ e : nat * (Lock * Mode), (e.1 < 3)%nat) (waiting s) = stuck_queue.

(** A schedule: a task asks, or runs one operation when nothing stands in its
    way. *)
Inductive Sched := Ask (t : nat) | Run (t : nat).

Definition sched_step (s : Sys) (c : Sched) : option Sys :=
  match c with
  | Ask t =>
      task ← tasks s !! t;
      match prog task with
      | Acq l m :: _ => if decide (t ∈ (waiting s).*1) then None
                        else Some (mkSys (tasks s) (waiting s ++ [(t, (l, m))]))
      | _ => None
      end
  | Run t =>
      task ← tasks s !! t;
      match prog task with
      | Acq l m :: p =>
          if decide (t ∉ (waiting s).*1 ∧ holders l (tasks s) = [] ∧ ahead l (waiting s) = [])
          then Some (mkSys (<[t := mkTask ((l, m) :: held task) p]> (tasks s)) (waiting s)) else None
      | Rel l :: p => Some (mkSys (<[t := mkTask (release l (held task)) p]> (tasks s)) (waiting s))
      | [] => None
      end
  end.

Fixpoint sched_run (s : Sys) (cs : list Sched) : option Sys :=
  match cs with
  | [] => Some s
  | c :: cs => s ← sched_step s c; sched_run s cs
  end.

(** Idle tasks beside a system. *)
Definition beside (others : list (list LockOp)) (s : Sys) : Sys :=
  mkSys (tasks s ++ (mkTask [] <$> others)) (waiting s).

Section deadlock.
Context `{!RwPolicy} `{!RwPolicyLaws}.
Implicit Types (s : Sys).

Lemma sched_step_sound s c s' : sched_step s c = Some s' → rtc lock_step s s'.
Proof.
  destruct c as [t|t]; simpl; destruct (tasks s !! t) as [task|] eqn:Ht; try done; simpl;
    destruct (prog task) as [|[l m|l] p] eqn:Hp; try done.
  - case_decide; [done|]. intros [= <-]. eapply rtc_once, step_request; done.
  - case_decide as Hc; [|done]. destruct Hc as (Hn & Hh & Ha). intros [= <-].
    eapply rtc_l; [by eapply step_request|]. apply rtc_once.
    rewrite <-(app_nil_r (waiting s)) at 2.
    eapply (step_grant (mkSys (tasks s) (waiting s ++ [(t, (l, m))]))); [done..|].
    simpl. rewrite Hh, Ha. apply first_is_served.
  - intros [= <-]. by eapply rtc_once, step_release.
Qed.

Lemma sched_run_sound cs s s' : sched_run s cs = Some s' → rtc lock_step s s'.
Proof.
  revert s. induction cs as [|c cs IH]; intros s; simpl; [by intros [= ->]|].
  destruct (sched_step s c) as [s1|] eqn:Hs; [|done]. simpl. intros Hrun.
  etrans; [by eapply sched_step_sound|auto].
Qed.

Lemma holders_beside l ts others : holders l (ts ++ (mkTask [] <$> others)) = holders l ts.
Proof.
  unfold holders. rewrite bind_app. rewrite <-(app_nil_r (ts ≫= _)) at 2. f_equal.
  induction others as [|p others IH]; [done|]. csimpl. done.
Qed.

Lemma beside_step others s s' : lock_step s s' → lock_step (beside others s) (beside others s').
Proof.
  destruct 1 as [s t task l m p Ht Hp Hn|s t task l m p w1 w2 Hw Ht Hp Hm|s t task l p Ht Hp]; unfold beside; simpl;
    rewrite <-?insert_app_l by (by eapply lookup_lt_Some).
  - eapply (step_request (mkSys (tasks s ++ (mkTask [] <$> others)) (waiting s)));
      [by apply lookup_app_l_Some|done..].
  - eapply (step_grant (mkSys (tasks s ++ (mkTask [] <$> others)) (waiting s)));
      [done|by apply lookup_app_l_Some|done|]. simpl. by rewrite holders_beside.
  - eapply (step_release (mkSys (tasks s ++ (mkTask [] <$> others)) (waiting s))); [by apply lookup_app_l_Some|done].
Qed.

Lemma elem_of_holders ts t task l m :
  ts !! t = Some task → (l, m) ∈ held task → m ∈ holders l ts.
Proof.
  intros Ht Hin. unfold holders. apply list_elem_of_bind. exists task.
  split; [|by eapply list_elem_of_lookup_2]. apply list_elem_of_omap. exists (l, m). simpl. by rewrite decide_True.
Qed.

(** Nobody else can let the three go. *)
Lemma stuck_step s s' : stuck s → lock_step s s' → stuck s'.
Proof.
  intros (Ht0 & Ht1 & Ht2 & Hq) Hstep.
  assert (∀ t, (t < 3)%nat → t ∈ (waiting s).*1) as Hwait.
  { intros t Ht. assert (t ∈ stuck_queue.*1) as Hin by (destruct t as [|[|[|]]]; [set_solver..|lia]).
    rewrite <-Hq in Hin. apply list_elem_of_fmap in Hin as (e & -> & [_ He]%list_elem_of_filter).
    by apply list_elem_of_fmap_2. }
  assert (Write ∈ holders CoreLock (tasks s)) as HC by (eapply elem_of_holders; [exact Ht1|by left]).
  assert (Read ∈ holders PendingLock (tasks s)) as HP by (eapply elem_of_holders; [exact Ht0|by left]).
  assert (∀ t h p, (3 ≤ t)%nat → stuck (mkSys (<[t := mkTask h p]> (tasks s)) (waiting s))) as Hother.
  { intros t h p Ht. unfold stuck. simpl. by rewrite !list_lookup_insert_ne by lia. }
  destruct Hstep as [s t task l m p Ht Hp Hn|s t task l m p w1 w2 Hw Ht Hp Hm|s t task l p Ht Hp].
  - assert (3 ≤ t)%nat by (apply Nat.nlt_ge; intros ?%Hwait; done). unfold stuck. simpl. split_and!; [done..|].
    rewrite filter_app, Hq, filter_cons_False by (simpl; lia). done.
  - assert (¬ t < 3)%nat as Ht3.
    { intros Hlt. rewrite Hw, filter_app, filter_cons_True in Hq by done.
      destruct t as [|[|[|]]]; [| | |lia]; simplify_eq; injection Hp as <- <- _.
      - by apply read_excludes_write in Hm.
      - apply read_waits_for_writers in Hm. apply Hm.
        assert ((2%nat, (PendingLock, Write)) ∈ filter (λ e : nat * (Lock * Mode), (e.1 < 3)%nat) w1) as Hin.
        { unfold stuck_queue in Hq. destruct (filter _ w1) as [|e1 es]; [done|]. injection Hq as -> _. by left. }
        apply list_elem_of_filter in Hin as [_ Hin]. unfold ahead. apply list_elem_of_omap.
        eexists. split; [done|]. done.
      - apply write_is_exclusive in Hm. rewrite Hm in HP. by apply elem_of_nil in HP. }
    destruct (Hother t ((l, m) :: held task) p) as (?&?&?&_); [lia|]. split_and!; [done..|]. simpl.
    rewrite <-Hq, Hw, !filter_app, filter_cons_False by done. done.
  - apply Hother. destruct t as [|[|[|]]]; [| | |lia]; simplify_eq.
Qed.

Lemma stuck_forever s s' : stuck s → rtc lock_step s s' → stuck s'.
Proof. intros Hs Hr. induction Hr; eauto using stuck_step. Qed.
End deadlock.

(** ** The contract *)
Section contract.
Context `{!RwPolicy} `{!RwPolicyLaws}.

Lemma engine_paths_ordered p : p ∈ engine_paths ∨ p = serve_pending → ordered [] p = true.
Proof.
  assert (Forall (λ p, ordered [] p = true) (serve_pending :: engine_paths)) as Hall.
  { apply (bool_decide_unpack _). vm_compute. exact I. }
  rewrite Forall_forall in Hall. intros [?| ->]; apply Hall; [by right|by left].
Qed.

(** C21. The engine's locks never deadlock.  Whatever handlers of the engine run at
    the same time, on whatever paths, together with any number of requests for
    pending proposals, every schedule ends, and it can only end when every task
    is through. *)
Theorem engine_locks_never_deadlock ps s :
  Forall (λ p, p ∈ engine_paths ∨ p = serve_pending) ps → lock_reach ps s →
  sn lock_step s ∧ (finished s ∨ ∃ s', lock_step s s').
Proof.
  intros Hps Hr. assert (lock_inv s) as Hinv.
  { eapply lock_inv_reach; [|done]. eapply Forall_impl; [done|]. apply engine_paths_ordered. }
  split; [by apply every_schedule_ends|by apply ordered_progress].
Qed.

(** C22. A proposal request can stop the node for good.  A request for a proposal
    that is not pending keeps the pending proposals locked while it asks for the
    core; a vote that completes a quorum keeps the core locked while it asks for
    the pending proposals; a proposal that waits to be stored keeps the vote from
    sharing them.  Whatever else runs, a schedule leads to a state from which
    none of the three ever moves again, and the core stays locked. *)
Theorem proposal_request_deadlocks_the_node others :
  ∃ s, lock_reach (serve_confirmed :: vote_confirms :: proposal_known :: others) s ∧
    ∀ s', rtc lock_step s s' →
      tasks s' !! 0%nat = Some stuck_request ∧ tasks s' !! 1%nat = Some stuck_vote ∧
      tasks s' !! 2%nat = Some stuck_proposal ∧ Write ∈ holders CoreLock (tasks s').
Proof.
  set (schedule := replicate 2 (Run 0) ++ replicate 13 (Run 1) ++ replicate 6 (Run 2) ++ [Ask 2; Ask 1; Ask 0]).
  destruct (sched_run (start [serve_confirmed; vote_confirms; proposal_known]) schedule) as [s|] eqn:Hs;
    [|vm_compute in Hs; done].
  exists (beside others s). split.
  - unfold lock_reach. change (start (serve_confirmed :: vote_confirms :: proposal_known :: others))
      with (beside others (start [serve_confirmed; vote_confirms; proposal_known])).
    apply sched_run_sound in Hs. clear schedule. eapply (rtc_congruence (beside others)); [|done]. apply beside_step.
  - intros s' Hr. assert (stuck (beside others s)) as Hst.
    { vm_compute in Hs. injection Hs as <-. by split_and!. }
    destruct (stuck_forever _ _ Hst Hr) as (? & Hvote & ? & _). split_and!; [done..|].
    eapply elem_of_holders; [exact Hvote|by left].
Qed.
End contract.

(** ** Runs *)
Module LockRuns.

(** Strictly first in, first out, readers in front sharing the lock. *)
#[export] Instance fifo_policy : RwPolicy := λ holders ahead m,
  match m with
  | Write => bool_decide (holders = [] ∧ ahead = [])
  | Read => bool_decide (Write ∉ holders ∧ Write ∉ ahead)
  end.

#[export] Instance fifo_policy_laws : RwPolicyLaws.
Proof.
  split; unfold may_acquire, fifo_policy.
  - intros h a Hb%bool_decide_eq_true. naive_solver.
  - intros h a Hb%bool_decide_eq_true. naive_solver.
  - intros h a Hb%bool_decide_eq_true. naive_solver.
  - intros []; apply bool_decide_eq_true; split; [apply not_elem_of_nil..|done|done].
Qed.

Lemma engine_locks_never_deadlock_witness :
  sn lock_step (start [vote_confirms; proposal_known; serve_pending]) ∧
  (finished (start [vote_confirms; proposal_known; serve_pending]) ∨
   ∃ s', lock_step (start [vote_confirms; proposal_known; serve_pending]) s').
Proof.
  apply (engine_locks_never_deadlock [vote_confirms; proposal_known; serve_pending]).
  - pose proof deadlocking_paths as [? ?]. apply Forall_cons; split; [by left|].
    apply Forall_cons; split; [by left|]. apply Forall_singleton. by right.
  - constructor.
Defined.

Lemma proposal_request_deadlocks_the_node_witness :
  ∃ s, lock_reach [serve_confirmed; vote_confirms; proposal_known] s ∧
    ∀ s', rtc lock_step s s' →
      tasks s' !! 0%nat = Some stuck_request ∧ tasks s' !! 1%nat = Some stuck_vote ∧
      tasks s' !! 2%nat = Some stuck_proposal ∧ Write ∈ holders CoreLock (tasks s').
Proof. exact (proposal_request_deadlocks_the_node []). Defined.

(** The requests that break the order. *)
Example unordered_paths :
  ordered [] serve_confirmed = false ∧ ordered [] fallback_confirmed = false.
Proof. split; reflexivity. Qed.
End LockRuns.
