(* ===== verification/ZkCore.v ===== *)
(** * The zk core types ([zkapp/zk-core/src/lib.rs], [borsh_helpers.rs])

    Addresses and withdrawal proofs with their hand-written encodings, equality
    and hash.  Field elements and Merkle paths are arkworks', the length-prefixed
    vector is borsh's: the interface [ArkCodec] holds their encoders and
    decoders.  A reader is the bytes that are left. *)

From S2P Require Import Prelude Bytes SeqTypes P2pTypes.

(** [ark_crypto_primitives::merkle_tree::Path]. *)
Record MerklePath (Fr : Type) := mkMerklePath {
  leaf_sibling_hash : Fr;
  auth_path : list Fr;
  leaf_index : N;
}.
Arguments mkMerklePath {Fr}.
Arguments leaf_sibling_hash {Fr}.
Arguments auth_path {Fr}.
Arguments leaf_index {Fr}.

(** A decoder consumes a prefix of what it is given. *)
Definition decoder (A : Type) : Type := bytes → option (A * bytes).

Class ArkCodec (Fr : Type) := {
  fr_serialize_uncompressed : Fr → option bytes;
  fr_deserialize_uncompressed : decoder Fr;
  path_serialize_uncompressed : MerklePath Fr → option bytes;
  path_deserialize_uncompressed : decoder (MerklePath Fr);
  (** borsh on [Vec<u8>] *)
  vec_serialize : bytes → option bytes;
  vec_deserialize : decoder bytes;
  (** [into_bigint().to_bytes_be()] *)
  fr_to_bytes_be : Fr → bytes;
}.

(** What a decoder promises of its encoder, in front of any other bytes. *)
Definition inverts {A} (dec : decoder A) (enc : A → option bytes) : Prop :=
  ∀ a bs rest, enc a = Some bs → dec (bs ++ rest) = Some (a, rest).

Class ArkCodecLaws (Fr : Type) `{!ArkCodec Fr} := {
  fr_inverts : inverts fr_deserialize_uncompressed fr_serialize_uncompressed;
  path_inverts : inverts path_deserialize_uncompressed path_serialize_uncompressed;
  vec_inverts : inverts vec_deserialize vec_serialize;
}.

Record WithdrawalProof (Fr : Type) := mkProof {
  l2_state_root : bytes;
  leaf_data : Fr * Fr;
  merkle_path : MerklePath Fr;
}.
Arguments mkProof {Fr}.
Arguments l2_state_root {Fr}.
Arguments leaf_data {Fr}.
Arguments merkle_path {Fr}.

Section zk_core.
Context {Fr : Type} `{!EqDecision Fr} `{!ArkCodec Fr} `{!Net}.

(** ** [borsh_helpers.rs]

    A writer is a growing buffer; an encoder's failure is the only error. *)
Definition serialize_fr (fr : Fr) (writer : bytes) : option bytes :=
  buf ← fr_serialize_uncompressed fr; Some (writer ++ buf).

Definition deserialize_fr : decoder Fr := fr_deserialize_uncompressed.

Definition serialize_leaf (leaf : Fr * Fr) (writer : bytes) : option bytes :=
  writer ← serialize_fr leaf.1 writer;
  serialize_fr leaf.2 writer.

Definition deserialize_leaf : decoder (Fr * Fr) := λ reader,
  '(x, reader) ← deserialize_fr reader;
  '(y, reader) ← deserialize_fr reader;
  Some ((x, y), reader).

Definition serialize_path (path : MerklePath Fr) (writer : bytes) : option bytes :=
  buf ← path_serialize_uncompressed path; Some (writer ++ buf).

(** [read_to_end] takes everything that is left; what the path does not use is
    dropped. *)
Definition deserialize_path : decoder (MerklePath Fr) := λ reader,
  '(path, _) ← path_deserialize_uncompressed reader;
  Some (path, []).

(** ** Withdrawal proofs *)
Definition proof_serialize (p : WithdrawalProof Fr) (writer : bytes) : option bytes :=
  root ← vec_serialize (l2_state_root p);
  writer ← serialize_leaf (leaf_data p) (writer ++ root);
  serialize_path (merkle_path p) writer.

Definition proof_deserialize : decoder (WithdrawalProof Fr) := λ reader,
  '(root, reader) ← vec_deserialize reader;
  '(leaf, reader) ← deserialize_leaf reader;
  '(path, reader) ← deserialize_path reader;
  Some (mkProof root leaf path, reader).

(** [PartialEq]: the sibling of the leaf and its index are not compared. *)
Definition proof_eq (p q : WithdrawalProof Fr) : bool :=
  bool_decide (l2_state_root p = l2_state_root q) && bool_decide (leaf_data p = leaf_data q) &&
  bool_decide (auth_path (merkle_path p) = auth_path (merkle_path q)).

(** [Hash]: what is fed to the hasher. *)
Definition proof_hash (p : WithdrawalProof Fr) : list bytes :=
  l2_state_root p :: fr_to_bytes_be (leaf_data p).1 :: fr_to_bytes_be (leaf_data p).2 ::
  (fr_to_bytes_be <$> auth_path (merkle_path p)).

(** ** The serde helpers

    The inner value is a byte string; serialising a field element or a path is
    unwrapped. *)
Definition fr_array_serialize (source : Fr * Fr) : outcome bytes :=
  x ← unwrap (fr_serialize_uncompressed source.1);
  y ← unwrap (fr_serialize_uncompressed source.2);
  Done (x ++ y).

Definition fr_array_deserialize (bs : bytes) : option (Fr * Fr) := fst <$> deserialize_leaf bs.

Definition ark_path_serialize (source : MerklePath Fr) : outcome bytes :=
  unwrap (path_serialize_uncompressed source).

Definition ark_path_deserialize (bs : bytes) : option (MerklePath Fr) :=
  fst <$> path_deserialize_uncompressed bs.

(** ** Addresses: shown as [0x...], read back from exactly twenty bytes. *)
Definition address_display (a : Address) : string := "0x" +:+ hex_encode a.

Definition address_deserialize (bs : bytes) : option Address :=
  if decide (length bs = ADDRESS_SIZE) then Some bs else None.
End zk_core.

(** ** The contract *)
Section contract.
Context {Fr : Type} `{!EqDecision Fr} `{!ArkCodec Fr} `{!ArkCodecLaws Fr}.
Implicit Types (p q : WithdrawalProof Fr).

Lemma serialize_leaf_inverts (leaf : Fr * Fr) w bs :
  serialize_leaf leaf w = Some bs → ∃ tail, bs = w ++ tail ∧
    ∀ rest, deserialize_leaf (tail ++ rest) = Some (leaf, rest).
Proof.
  unfold serialize_leaf, serialize_fr, deserialize_leaf, deserialize_fr. destruct leaf as [x y]. simpl.
  destruct (fr_serialize_uncompressed x) as [bx|] eqn:Hx; [|done]. simpl.
  destruct (fr_serialize_uncompressed y) as [by'|] eqn:Hy; [|done]. simpl. intros [= <-].
  exists (bx ++ by'). rewrite <-app_assoc. split; [done|]. intros rest.
  rewrite <-app_assoc, (fr_inverts _ _ _ Hx). simpl. by rewrite (fr_inverts _ _ _ Hy).
Qed.

(** What [proof_deserialize] makes of an encoded proof and of what follows it. *)
Lemma proof_deserialize_serialize p bs rest :
  proof_serialize p [] = Some bs → proof_deserialize (bs ++ rest) = Some (p, []).
Proof.
  unfold proof_serialize, proof_deserialize, serialize_path, deserialize_path.
  destruct (vec_serialize (l2_state_root p)) as [root|] eqn:Hroot; [|done]. simpl.
  destruct (serialize_leaf (leaf_data p) root) as [w|] eqn:Hleaf; [|done]. simpl.
  destruct (path_serialize_uncompressed (merkle_path p)) as [path|] eqn:Hpath; [|done]. simpl. intros [= <-].
  destruct (serialize_leaf_inverts _ _ _ Hleaf) as (tail & -> & Htail).
  rewrite <-!app_assoc, (vec_inverts _ _ _ Hroot). simpl. rewrite Htail. simpl.
  rewrite (path_inverts _ _ _ Hpath). simpl. by destruct p.
Qed.

(** A withdrawal proof that was written can be read back: the decoder gives
    the same proof and leaves nothing.  It also swallows whatever follows the
    proof, so an encoding is not unique and a proof can only be the last value of
    a message. *)
Theorem withdrawal_proof_roundtrip p bs rest :
  proof_serialize p [] = Some bs →
  proof_deserialize bs = Some (p, []) ∧ proof_deserialize (bs ++ rest) = Some (p, []).
Proof.
  intros Hs. split; [|by apply proof_deserialize_serialize].
  rewrite <-(app_nil_r bs). by apply proof_deserialize_serialize.
Qed.

(** The serde form of the leaf and of the path. *)
Lemma fr_array_roundtrip (leaf : Fr * Fr) bs :
  fr_array_serialize leaf = Done bs → fr_array_deserialize bs = Some leaf.
Proof.
  unfold fr_array_serialize, fr_array_deserialize, deserialize_leaf, deserialize_fr, unwrap. destruct leaf as [x y].
  simpl. destruct (fr_serialize_uncompressed x) as [bx|] eqn:Hx; [|done]. simpl.
  destruct (fr_serialize_uncompressed y) as [by'|] eqn:Hy; [|done]. simpl. intros [= <-].
  rewrite (fr_inverts _ _ _ Hx). simpl. rewrite <-(app_nil_r by'), (fr_inverts _ _ _ Hy). done.
Qed.

Lemma ark_path_roundtrip (path : MerklePath Fr) bs :
  ark_path_serialize path = Done bs → ark_path_deserialize bs = Some path.
Proof.
  unfold ark_path_serialize, ark_path_deserialize, unwrap.
  destruct (path_serialize_uncompressed path) as [b|] eqn:Hp; [|done]. intros [= <-].
  rewrite <-(app_nil_r b). by rewrite (path_inverts _ _ _ Hp).
Qed.
End contract.

Section equality.
Context {Fr : Type} `{!EqDecision Fr} `{!ArkCodec Fr}.
Implicit Types (p q : WithdrawalProof Fr).

Lemma proof_eq_spec p q :
  proof_eq p q = true ↔
  l2_state_root p = l2_state_root q ∧ leaf_data p = leaf_data q ∧
  auth_path (merkle_path p) = auth_path (merkle_path q).
Proof. unfold proof_eq. rewrite !andb_true_iff, !bool_decide_eq_true. tauto. Qed.

#[global] Instance proof_eq_equivalence : Equivalence (λ p q : WithdrawalProof Fr, proof_eq p q = true).
Proof.
  split; [intros p|intros p q|intros p q r]; rewrite !proof_eq_spec; [done|naive_solver|].
  intros (-> & -> & ->) (-> & -> & ->). done.
Qed.

(** Equality and hash of withdrawal proofs agree as Rust's [Hash] asks: equal
    proofs feed the hasher the same bytes, and equality is an equivalence; it
    ignores the leaf's sibling and index, so it identifies proofs of different
    leaves. *)
Theorem equal_proofs_hash_alike p q :
  (proof_eq p q = true → proof_hash p = proof_hash q) ∧
  (∀ sibling index, proof_eq p (mkProof (l2_state_root p) (leaf_data p)
     (mkMerklePath sibling (auth_path (merkle_path p)) index)) = true).
Proof.
  split.
  - intros (Hr & Hl & Ha)%proof_eq_spec. unfold proof_hash. by rewrite Hr, Hl, Ha.
  - intros sibling index. by apply proof_eq_spec.
Qed.
End equality.

(** ** Runs *)
Module ZkRuns.

(** One byte per field element, numbers in unary. *)
Definition unary (n : nat) : bytes := replicate n Byte.x01 ++ [Byte.x00].

Fixpoint un_unary (bs : bytes) : option (nat * bytes) :=
  match bs with
  | Byte.x01 :: bs => '(n, bs) ← un_unary bs; Some (S n, bs)
  | Byte.x00 :: bs => Some (0%nat, bs)
  | _ => None
  end.

Lemma un_unary_unary n rest : un_unary (unary n ++ rest) = Some (n, rest).
Proof. unfold unary. induction n as [|n IH]; [done|]. simpl. by rewrite IH. Qed.

Definition get (n : nat) (bs : bytes) : option (bytes * bytes) :=
  if decide (n ≤ length bs)%nat then Some (take n bs, drop n bs) else None.

Lemma get_app l rest : get (length l) (l ++ rest) = Some (l, rest).
Proof. unfold get. rewrite decide_True by (rewrite length_app; lia). by rewrite take_app_length, drop_app_length. Qed.

#[export] Instance toy_ark : ArkCodec byte := {|
  fr_serialize_uncompressed := λ b, Some [b];
  fr_deserialize_uncompressed := λ bs, match bs with b :: bs => Some (b, bs) | [] => None end;
  path_serialize_uncompressed := λ p,
    Some (leaf_sibling_hash p :: unary (N.to_nat (leaf_index p)) ++ unary (length (auth_path p)) ++ auth_path p);
  path_deserialize_uncompressed := λ bs,
    match bs with
    | [] => None
    | b :: bs => '(i, bs) ← un_unary bs; '(n, bs) ← un_unary bs; '(l, bs) ← get n bs;
                 Some (mkMerklePath b l (N.of_nat i), bs)
    end;
  vec_serialize := λ v, Some (unary (length v) ++ v);
  vec_deserialize := λ bs, '(n, bs) ← un_unary bs; get n bs;
  fr_to_bytes_be := λ b, [b];
|}.

#[export] Instance toy_ark_laws : ArkCodecLaws byte.
Proof.
  split; intros a bs rest [= <-]; cbn [fr_deserialize_uncompressed path_deserialize_uncompressed vec_deserialize toy_ark].
  - done.
  - cbn [app]. rewrite <-!app_assoc, un_unary_unary. simpl. rewrite un_unary_unary. simpl. rewrite get_app. simpl.
    rewrite N2Nat.id. by destruct a.
  - rewrite <-app_assoc, un_unary_unary. simpl. by rewrite get_app.
Qed.

Definition sample_proof : WithdrawalProof byte :=
  mkProof [Byte.x0a; Byte.x0b] (Byte.x01, Byte.x02) (mkMerklePath Byte.x03 [Byte.x04; Byte.x05] 2).

Definition sample_bytes : bytes := default [] (proof_serialize sample_proof []).

Lemma withdrawal_proof_roundtrip_witness :
  proof_deserialize sample_bytes = Some (sample_proof, []) ∧
  proof_deserialize (sample_bytes ++ [Byte.xff]) = Some (sample_proof, []).
Proof. apply (withdrawal_proof_roundtrip sample_proof sample_bytes [Byte.xff]). reflexivity. Defined.
End ZkRuns.
