(* ===== verification/Startup.v ===== *)
(** * The node's start and its outlets ([zkapp/node/src/main.rs],
      [settlement.rs], [user-client/src/main.rs])

    What [main] does before and around the services: the start delay, the
    persistent network identity, the authority's keys; and the two tasks that
    carry events out of the node, the WebSocket and the settlement on the first
    layer.  libp2p's ed25519 keys are the interface [P2pKeys]; the operating
    system's answers, the random keys and the outcomes of a transaction are
    arguments. *)

From S2P Require Import Prelude BTree Slab OrderBook BookSpec Matching BookProps Bytes Wal Bincode Processor ProcessorTheorems Service Files SeqTypes P2pTypes Committee Consensus ConsensusProps ToyCrypto Keystore Json.

Class P2pKeys := {
  P2pKey : Type;
  (** [ed25519::SecretKey::try_from_bytes], and the bytes of a secret *)
  secret_try_from_bytes : bytes → option P2pKey;
  secret_bytes : P2pKey → bytes;
  (** [PeerId::from(keypair.public())] *)
  peer_id_of : P2pKey → PeerId;
}.

Class P2pKeysLaws `{!P2pKeys} := {
  secret_roundtrip k : secret_try_from_bytes (secret_bytes k) = Some k;
}.

Inductive NodeError :=
| NodeIo (e : IoError)
| KeypairNotSaved (e : IoError)
| DirNotCreated (e : IoError)
| KeypairCorrupt
| NodeKeystore (e : KeystoreError)
| NodeHex
| NodeKey (e : KeyError)
| VrfKeyInvalid.

(** ** The start *)
Definition CONSENSUS_START_DELAY_SECS : N := 45.

(** How many seconds the node sleeps: until the delay after the genesis, or not
    at all when that time has passed.  The platform's clock holds [2^63] seconds. *)
Definition start_wait `{!Profile} (genesis_time now : N) : outcome N :=
  target ← u64_add genesis_time CONSENSUS_START_DELAY_SECS;
  if decide (target < 9223372036854775808) then Done (saturating_sub target now) else Panicked.

(** All nodes of a genesis leave the delay at one time, or at once when late. *)
Lemma start_wait_spec `{!Profile} genesis_time now :
  genesis_time + CONSENSUS_START_DELAY_SECS < 9223372036854775808 →
  ∃ wait, start_wait genesis_time now = Done wait ∧
    now + wait = N.max now (genesis_time + CONSENSUS_START_DELAY_SECS).
Proof.
  intros Hlt. unfold start_wait. rewrite u64_add_ok by (unfold U64; lia). cbn [mbind outcome_bind].
  rewrite decide_True by done. eexists. split; [done|]. unfold saturating_sub. lia.
Qed.

(** ** The network identity *)

(** The operating system's answers. *)
Record KeyEnv := mkKeyEnv {
  ke_read : bool;
  ke_rename : bool;
  ke_mkdir : bool;
  ke_write : bool;
  ke_stop : option nat;
}.

Section identity.
Context `{!P2pKeys}.
Implicit Types (env : KeyEnv) (fs : Fs).

Definition p2p_key_path (db_path : Path) : Path := join db_path "p2p_keypair".
(** [with_extension("corrupt.bak")] *)
Definition backup_path (db_path : Path) : Path := join db_path "p2p_keypair.corrupt.bak".

Definition exists_file (p : Path) fs : bool := bool_decide (is_Some (files fs !! p)).

(** [let _ = ..]: the result is dropped. *)
Definition ignore {E A} (m : FsM E A) : FsM E () := λ fs, ((m fs).1, Ok ()).

(** [--get-peer-id]. *)
Definition print_peer_id env (db_path : Path) (generated : P2pKey) : FsM NodeError PeerId := λ fs,
  let path := p2p_key_path db_path in
  if exists_file path fs then
    (key_bytes ← read NodeIo (ke_read env) path;
     match secret_try_from_bytes key_bytes with
     | Some secret_key => mret (peer_id_of secret_key)
     | None => fail KeypairCorrupt
     end) fs
  else
    (_ ← create_dir_all NodeIo (ke_mkdir env) db_path;
     _ ← fs_write KeypairNotSaved (ke_write env) (ke_stop env) path (secret_bytes generated);
     mret (peer_id_of generated)) fs.

(** The key the node runs with. *)
Definition p2p_keypair env (db_path : Path) (generated : P2pKey) : FsM NodeError P2pKey := λ fs,
  let path := p2p_key_path db_path in
  if exists_file path fs then
    (key_bytes ← read NodeIo (ke_read env) path;
     match secret_try_from_bytes key_bytes with
     | Some secret_key => mret secret_key
     | None =>
         _ ← ignore (rename NodeIo (ke_rename env) path (backup_path db_path));
         _ ← fs_write KeypairNotSaved (ke_write env) (ke_stop env) path (secret_bytes generated);
         mret generated
     end) fs
  else
    (_ ← create_dir_all DirNotCreated (ke_mkdir env) db_path;
     _ ← fs_write KeypairNotSaved (ke_write env) (ke_stop env) path (secret_bytes generated);
     mret generated) fs.
End identity.

(** ** The authority's keys *)
Section authority.
Context `{!Crypto} `{!KeyCiphers} `{!KeystoreJson} `{!Net}.

(** An authority without a keystore or a VRF key panics; everything else that is
    wrong is an error of [main]. *)
Definition authority_validator_keys (is_authority : bool) (keystore_path : option Path)
    (vrf_priv_key : option string) (password : string) (read_ok : bool) (fs : Fs)
    : outcome (result (option ValidatorKeys) NodeError) :=
  if is_authority then
    path ← unwrap keystore_path;
    vrf_priv_key_hex ← unwrap vrf_priv_key;
    match (from_path read_ok path fs).2 with
    | Err e => Done (Err (NodeKeystore e))
    | Ok keystore =>
      sk ← decrypt keystore password;
      match sk with
      | Err e => Done (Err (NodeKeystore e))
      | Ok sk_bytes =>
        match hex_decode (ks_public_key keystore) with
        | None => Done (Err NodeHex)
        | Some pk_bytes =>
          match from_key_bytes pk_bytes sk_bytes with
          | Err e => Done (Err (NodeKey e))
          | Ok signing_keys =>
            _ ← public_key_bytes signing_keys;
            match hex_decode vrf_priv_key_hex with
            | None => Done (Err NodeHex)
            | Some vrf_secret_bytes =>
              match vrf_secret_from_bytes vrf_secret_bytes with
              | None => Done (Err VrfKeyInvalid)
              | Some vrf_keys => Done (Ok (Some (mkValidatorKeys signing_keys vrf_keys)))
              end
            end
          end
        end
      end
    end
  else Done (Ok None).

(** The address the consensus engine runs under. *)
Definition authority_address (keys : ValidatorKeys) : outcome Address :=
  public_key_to_address <$> public_key_bytes (signing_keys keys).

(** [main] from the keys to the consensus engine: the address book is built from
    the genesis, the state starts from the genesis certificate, and the engine
    runs under the address of its key.  [traversal] is the order in which the
    genesis accounts are visited. *)
Definition boot `{!Profile} {C} `{!Lru C} (keystore_path : Path) (vrf_priv_key password : string) (read_ok : bool)
    (traversal : list (string * GenesisAccount)) (params : GenesisParameters) (now : N) (fs : Fs)
    : outcome (result (Config * Sys (C := C)) NodeError) :=
  keys ← authority_validator_keys true (Some keystore_path) (Some vrf_priv_key) password read_ok fs;
  match keys with
  | Err e => Done (Err e)
  | Ok None => Panicked
  | Ok (Some keys) =>
      ab ← update_from_genesis ∅ traversal;
      address ← authority_address keys;
      Done (Ok (mkConfig address keys params, sys_new genesis_qc now ab))
  end.
End authority.

(** ** The modes of [main] *)
Record Args := mkArgs {
  bootstrap : bool;
  bootstrap_node : list string;
  p2p_port : N;
  get_peer_id_flag : bool;
  dev : bool;
  db_path : string;
  metrics_port : N;
  ws_port : N;
  rpc_port : N;
  is_authority : bool;
  arg_keystore_path : option string;
  arg_vrf_priv_key : option string;
  password : option string;
}.

Inductive StartMode := PrintPeerId | WriteGenesis | RunNode (bootstrap_peer : bool).

(** [--get-peer-id] wins over [--bootstrap]; a node without bootstrap addresses is
    itself one. *)
Definition start_mode (args : Args) : StartMode :=
  if get_peer_id_flag args then PrintPeerId
  else if bootstrap args then WriteGenesis
  else RunNode (bool_decide (bootstrap_node args = [])).

(** ** The WebSocket *)
Definition side_debug (s : Side) : string :=
  match s with
  | Bid => "Bid"
  | Ask => "Ask"
  end.

Definition event_json (event : EngineEvent) : Json :=
  match event with
  | TradeExecuted maker_id taker_id price quantity =>
      JObj [("type"%string, JStr "TRADE"%string); ("maker_id"%string, JNum maker_id);
            ("taker_id"%string, JNum taker_id); ("price"%string, JNum price); ("quantity"%string, JNum quantity)]
  | OrderPlaced id _ price quantity side =>
      JObj [("type"%string, JStr "ORDER_PLACED"%string); ("id"%string, JNum id); ("price"%string, JNum price);
            ("quantity"%string, JNum quantity); ("side"%string, JStr (side_debug side))]
  | OrderCancelled id => JObj [("type"%string, JStr "ORDER_CANCELLED"%string); ("id"%string, JNum id)]
  | IntentResolved intent_id winning_solver winning_amount =>
      JObj [("type"%string, JStr "INTENT_RESOLVED"%string); ("intent_id"%string, JStr intent_id);
            ("winning_solver"%string, JStr winning_solver); ("winning_amount"%string, JNum winning_amount)]
  end.

(** What the broadcast channel gives a subscriber: an event, the news that events
    were overwritten before they were read, or the end. *)
Inductive Recv := Received (event : EngineEvent) | Lagged (missed : N) | Closed.

(** The loop of a connection: the texts that were sent.  [sends] are the outcomes
    of the sends. *)
Fixpoint handle_socket `{!JsonText} (rx : list Recv) (sends : list bool) : list string :=
  match rx, sends with
  | Received event :: rx, true :: sends => json_to_string (event_json event) :: handle_socket rx sends
  | _, _ => []
  end.

(** ** Settlement on the first layer *)
Record SettlementEngine := mkSettlementEngine { se_signer : bytes; se_contract_address : bytes }.

(** The three texts are parsed by alloy and the url crate, and each must be
    valid. *)
Definition settlement_new (parse_url : string → bool) (parse_address parse_key : string → option bytes)
    (l1_rpc_url private_key contract_address : string) : outcome SettlementEngine :=
  if parse_url l1_rpc_url then
    address ← unwrap (parse_address contract_address);
    signer ← unwrap (parse_key private_key);
    Done (mkSettlementEngine signer address)
  else Panicked.

(** The call of the contract's [updateStateWithIntents]. *)
Record L1Call := mkL1Call {
  l1_contract : bytes;
  l1_new_state_root : bytes;
  l1_proof : bytes;
  l1_resolved_ids : list bytes;
}.

(** What becomes of a transaction: it is not sent, its receipt is lost, or it is
    mined with a status. *)
Inductive L1Fate := SendFailed | ReceiptFailed | Mined (status : bool).

Inductive SettlementLog := LogSuccess | LogReverted | LogReceiptError | LogSendError.

Definition submit_zk_batch (engine : SettlementEngine) (batch : SettlementBatch) (fate : L1Fate)
    : L1Call * SettlementLog :=
  (mkL1Call (se_contract_address engine) (new_state_root batch) (proof batch) (resolved_intent_ids batch),
   match fate with
   | SendFailed => LogSendError
   | ReceiptFailed => LogReceiptError
   | Mined true => LogSuccess
   | Mined false => LogReverted
   end).

(** The background task: one submission after the other, [fates] being theirs. *)
Fixpoint settlement_task (engine : SettlementEngine) (parse_b256 : string → option bytes)
    (events : list EngineEvent) (fates : nat → L1Fate) : list (L1Call * SettlementLog) :=
  match events with
  | [] => []
  | event :: events =>
      match settle parse_b256 event with
      | Some batch => submit_zk_batch engine batch (fates 0%nat) ::
                      settlement_task engine parse_b256 events (fates ∘ S)
      | None => settlement_task engine parse_b256 events fates
      end
  end.

(** ** The user client: one order, and what it reports. *)
Definition user_intent : PlaceOrderRequest := mkPlaceRequest 12345 99901 1 9100 10.

Inductive UserReport := TradeSuccessful (fills : list TradeExecution) | TradeFailed (message : string).

Definition user_client {S} `{!SlabOps S Order} `{!Profile} `{!Codec LogEntry} (p : MarketProcessor S)
    (link : Link) (now : N) (ios : nat → Wal.Io) : outcome (MarketProcessor S * result UserReport Status) :=
  '(p, answer) ← service_place p user_intent link now ios;
  Done (p, match answer with
           | Ok report => Ok (if ps_success report then TradeSuccessful (ps_fills report)
                              else TradeFailed (ps_message report))
           | Err status => Err status
           end).

(** ** The contract *)
Section identity_contract.
Context `{!P2pKeys} `{!P2pKeysLaws}.
Implicit Types (env : KeyEnv) (fs : Fs).

Lemma fs_write_run {E} (io : IoError → E) ok stop p content fs fs' :
  fs_write io ok stop p content fs = (fs', Ok ()) → files fs' = <[p := content]> (files fs).
Proof.
  unfold fs_write, write_all, fail. destruct (parent p); [|done].
  destruct (is_dir _ fs && ok); [|done]. destruct stop; [done|]. by intros [= <-].
Qed.

(** A start that succeeds leaves its key in the key file. *)
Lemma p2p_keypair_stored env db g fs fs' k :
  p2p_keypair env db g fs = (fs', Ok k) →
  ∃ bs, files fs' !! p2p_key_path db = Some bs ∧ secret_try_from_bytes bs = Some k.
Proof.
  unfold p2p_keypair, exists_file. unfold mbind, fsm_bind. case_bool_decide as Hex.
  - destruct Hex as [bs Hbs]. unfold read. rewrite Hbs. destruct (ke_read env); [|done].
    destruct (secret_try_from_bytes bs) as [k'|] eqn:Hk; [intros [= <- <-]; eauto|].
    cbn [ignore]. destruct (fs_write _ _ _ _ _ _) as [fs1 [[]|e]] eqn:Hw; [|done].
    intros [= <- <-]. apply fs_write_run in Hw. exists (secret_bytes g). rewrite Hw, lookup_insert_eq.
    split; [done|apply secret_roundtrip].
  - destruct (create_dir_all _ _ _ _) as [fs1 [[]|e]]; [|done].
    destruct (fs_write _ _ _ _ _ _) as [fs2 [[]|e]] eqn:Hw; [|done].
    intros [= <- <-]. apply fs_write_run in Hw. exists (secret_bytes g). rewrite Hw, lookup_insert_eq.
    split; [done|apply secret_roundtrip].
Qed.

(** C31. The network identity is persistent.  Once a start has succeeded, with
    whatever key file it found, every later start and [--get-peer-id] on the same
    directory use the same key, whatever key they would have generated, and
    change no file. *)
Theorem identity_is_persistent env db g fs fs' k env' g' :
  p2p_keypair env db g fs = (fs', Ok k) → ke_read env' = true →
  p2p_keypair env' db g' fs' = (fs', Ok k) ∧ print_peer_id env' db g' fs' = (fs', Ok (peer_id_of k)).
Proof.
  intros (bs & Hbs & Hk)%p2p_keypair_stored Hread.
  assert (exists_file (p2p_key_path db) fs' = true) as Hex by (apply bool_decide_eq_true; by exists bs).
  unfold p2p_keypair, print_peer_id. rewrite Hex. unfold mbind, fsm_bind, read. by rewrite Hbs, Hread, Hk.
Qed.

(** A key file that cannot be read as a key is kept under another name and
    replaced by a start; [--get-peer-id] only reports it. *)
Theorem corrupt_identity_is_replaced env db g fs bs :
  files fs !! p2p_key_path db = Some bs → secret_try_from_bytes bs = None →
  ke_read env = true → ke_rename env = true → ke_write env = true → ke_stop env = None →
  is_dir db fs = true →
  print_peer_id env db g fs = (fs, Err KeypairCorrupt) ∧
  ∃ fs', p2p_keypair env db g fs = (fs', Ok g) ∧ files fs' !! backup_path db = Some bs ∧
    files fs' !! p2p_key_path db = Some (secret_bytes g).
Proof.
  intros Hbs Hk Hread Hren Hw Hstop Hdir.
  assert (exists_file (p2p_key_path db) fs = true) as Hex by (apply bool_decide_eq_true; by exists bs).
  assert (backup_path db ≠ p2p_key_path db) as Hne.
  { unfold backup_path, p2p_key_path, join. intros [= Heq%app_inj_2]; [|done]. by destruct Heq. }
  unfold p2p_keypair, print_peer_id. rewrite Hex. unfold mbind, fsm_bind, read. rewrite Hbs, Hread, Hk.
  split; [done|]. unfold ignore, rename. rewrite Hbs, Hren. cbn [fst]. unfold fs_write.
  rewrite (parent_join db _ : parent (p2p_key_path db) = Some db).
  replace (is_dir db _) with true by (symmetry; exact Hdir). rewrite Hw, Hstop. cbn [andb write_all].
  eexists. split; [done|]. cbn [files]. rewrite lookup_insert_eq, lookup_insert_ne, lookup_insert_eq by done. done.
Qed.
End identity_contract.

Section authority_contract.
Context `{!Crypto} `{!CryptoLaws} `{!KeyCiphers} `{!KeyCiphersLaws} `{!KeystoreJson} `{!KeystoreJsonLaws}.
Context `{!Net} `{!NetLaws}.

(** A keystore made for a key pair and saved to a file gives an authority with
    the right password exactly that pair, and the address the keystore names. *)
Lemma authority_keys_run pk sk pw salt nonce id path dir env fs vrf_hex vrf_bytes vrf :
  length pk = PUBLIC_KEY_SIZE → length sk = PRIVATE_KEY_SIZE → length nonce = 24%nat →
  parent path = Some dir → dir ∈ dirs fs → is_empty_path dir = false →
  files fs !! join dir (tmp_name (sv_uuid env)) = None →
  env = mkSaveEnv (sv_uuid env) true None true true true true →
  hex_decode vrf_hex = Some vrf_bytes → vrf_secret_from_bytes vrf_bytes = Some vrf →
  ∃ ks fs', keystore_new sk pw pk salt nonce id = Ok ks ∧ save_to_path ks path env fs = (fs', Ok ()) ∧
    let keys := mkValidatorKeys (mkKeyPair pk sk) vrf in
    authority_validator_keys true (Some path) (Some vrf_hex) pw true fs' = Done (Ok (Some keys)) ∧
    (∃ a, authority_address keys = Done a ∧ hex_decode (ks_address ks) = Some a).
Proof.
  intros Hpk Hsk Hnonce Hpar Hdir Hne Htmp Henv Hhex Hvrf.
  destruct (keystore_file_run sk pw pk salt nonce id path dir env fs) as
    (ks & fs' & Hnew & Hsave & Hload & Hdec & Hkspk & Hksa); [done..|].
  exists ks, fs'. cbv zeta. split_and!; [done|done| |].
  - unfold authority_validator_keys. cbn [unwrap mbind outcome_bind]. rewrite Hload. cbn [snd].
    rewrite Hdec. cbn [mbind outcome_bind]. rewrite Hkspk. unfold from_key_bytes.
    rewrite pk_from_bytes_ok, sk_from_bytes_ok by done. unfold public_key_bytes, exact_length. cbn [public_key].
    rewrite decide_True by done. cbn [mbind outcome_bind]. by rewrite Hhex, Hvrf.
  - unfold authority_address, public_key_bytes, exact_length. cbn [signing_keys public_key].
    rewrite decide_True by done. cbn [fmap outcome_fmap]. eauto.
Qed.

Lemma length_address pk : length (public_key_to_address pk) = ADDRESS_SIZE.
Proof. unfold public_key_to_address. rewrite length_drop, length_keccak256. done. Qed.

(** The genesis entry of a validator: its address, its key and a peer. *)
Lemma validator_entry `{!Profile} pk vrf text m peer :
  parse_multiaddr text = Some m → find_peer_id m = Some peer →
  genesis_entry (hex_encode (public_key_to_address pk), mkAccount (hex_encode pk) vrf (Some text)) =
    Some (public_key_to_address pk,
          mkIdentity peer m (Some pk) (vrf ≫= λ k, hex_decode (trim_start_0x k)) 0).
Proof.
  intros Hm Hpeer. unfold genesis_entry. cbn [g_network_identity g_public_key g_vrf_public_key].
  rewrite !trim_start_hex, !hex_decode_encode, decide_True by apply length_address. by rewrite Hm, Hpeer.
Qed.

(** C30. From the keystore and the genesis to the running validator.  A validator
    whose key pair was put in a keystore file, and whose address, key and
    multiaddress are in the genesis, boots with the right password: it signs with
    exactly its pair, runs under its address, is registered in its own address
    book, and starts in the initial state of the consensus system, so everything
    shown of that system holds of the node. *)
Theorem validator_boots_registered `{!Profile} {C} `{!Lru C}
    pk sk pw salt nonce id path dir env fs vrf_hex vrf_bytes vrf tr gvrf text m peer params now :
  length pk = PUBLIC_KEY_SIZE → length sk = PRIVATE_KEY_SIZE → key_pair pk sk → length nonce = 24%nat →
  parent path = Some dir → dir ∈ dirs fs → is_empty_path dir = false →
  files fs !! join dir (tmp_name (sv_uuid env)) = None →
  env = mkSaveEnv (sv_uuid env) true None true true true true →
  hex_decode vrf_hex = Some vrf_bytes → vrf_secret_from_bytes vrf_bytes = Some vrf →
  (hex_encode (public_key_to_address pk), mkAccount (hex_encode pk) gvrf (Some text)) ∈ tr →
  parse_multiaddr text = Some m → find_peer_id m = Some peer → NoDup (genesis_entries tr).*1 →
  ∃ ks fs' cfg ab, keystore_new sk pw pk salt nonce id = Ok ks ∧ save_to_path ks path env fs = (fs', Ok ()) ∧
    boot path vrf_hex pw true tr params now fs' = Done (Ok (cfg, sys_new (C := C) genesis_qc now ab)) ∧
    signing_keys (validator_keys cfg) = mkKeyPair pk sk ∧ my_address cfg = public_key_to_address pk ∧
    registered cfg ab.
Proof.
  intros Hpk Hsk Hpair Hnonce Hpar Hdir Hne Htmp Henv Hhex Hvrf Hin Hm Hpeer Hnd.
  destruct (authority_keys_run pk sk pw salt nonce id path dir env fs vrf_hex vrf_bytes vrf) as
    (ks & fs' & Hnew & Hsave & Hkeys & a & Ha & _); [done..|].
  assert (a = public_key_to_address pk) as ->.
  { unfold authority_address, public_key_bytes, exact_length in Ha. cbn [signing_keys public_key] in Ha.
    rewrite decide_True in Ha by done. by injection Ha. }
  exists ks, fs', (mkConfig (public_key_to_address pk) (mkValidatorKeys (mkKeyPair pk sk) vrf) params),
    (list_to_map (genesis_entries tr)). split_and!; [done|done| |done|done|].
  - unfold boot. rewrite Hkeys. cbn [mbind outcome_bind].
    rewrite update_from_genesis_fresh, (right_id_L ∅ (∪)) by done. cbn [mbind outcome_bind]. by rewrite Ha.
  - split; [by split|]. exists (mkIdentity peer m (Some pk) (gvrf ≫= λ k, hex_decode (trim_start_0x k)) 0).
    split; [|reflexivity].
    apply elem_of_list_to_map_1; [done|]. apply list_elem_of_omap. eexists. split; [done|].
    by apply validator_entry.
Qed.
End authority_contract.

(** ** The outlets *)

(** A connection gets the events in their order, as JSON, until a send fails or
    the subscriber has fallen behind; then it ends. *)
Lemma handle_socket_prefix `{!JsonText} rx sends :
  ∃ n events, take n rx = Received <$> events ∧ handle_socket rx sends = json_to_string ∘ event_json <$> events ∧
    (n = length rx ∨ n = length sends ∨ sends !! n = Some false ∨
     (∃ missed, rx !! n = Some (Lagged missed)) ∨ rx !! n = Some Closed).
Proof.
  revert sends. induction rx as [|r rx IH]; intros sends; [exists 0%nat, []; eauto|].
  destruct r as [event|missed|]; [|exists 0%nat, []; cbn; eauto 10..].
  destruct sends as [|[] sends]; [exists 0%nat, []; cbn; eauto 10| |exists 0%nat, []; cbn; eauto 10].
  destruct (IH sends) as (n & events & Ht & Hs & Hend). exists (S n), (event :: events). cbn [take handle_socket length lookup].
  csimpl. rewrite Ht, Hs. split_and!; [done..|]. destruct Hend as [->|[->|Hend]]; auto.
Qed.

(** Settlement.  The background task makes one call of the contract for every
    resolved intent, in the order of the events, with the intent's 32 bytes, or
    with zero bytes when its id is not a 32-byte hexadecimal; and what becomes of
    a call changes no later one: a failed settlement is logged and never
    repeated. *)
Theorem settlement_calls_once_per_intent engine parse_b256 events fates :
  (settlement_task engine parse_b256 events fates).*1 =
  omap (λ e, match e with
             | IntentResolved intent_id _ _ =>
                 Some (mkL1Call (se_contract_address engine) (replicate 32 Byte.x00)
                   [Byte.x01; Byte.x02; Byte.x03; Byte.x04; Byte.x05]
                   [default (replicate 32 Byte.x00) (parse_b256 intent_id)])
             | _ => None
             end) events.
Proof.
  revert fates. induction events as [|e events IH]; intros fates; [done|].
  destruct e; csimpl; rewrite IH; done.
Qed.

(** ** Runs *)
Module StartupRuns.
Import KeystoreRuns.
#[local] Instance debug : Profile := true.

#[export] Instance toy_p2p_keys : P2pKeys := {|
  P2pKey := N;
  secret_try_from_bytes := λ bs, match bs with Byte.xed :: bs => Some (Pos.pred_N (unbits bs)) | _ => None end;
  secret_bytes := λ k, Byte.xed :: bits (N.succ_pos k);
  peer_id_of := λ k, pretty.pretty k;
|}.

#[export] Instance toy_p2p_keys_laws : P2pKeysLaws.
Proof.
  split. intros k. cbn [secret_try_from_bytes secret_bytes toy_p2p_keys]. rewrite unbits_bits. f_equal.
  apply N.pos_pred_succ.
Qed.

Definition key (n : N) : @P2pKey toy_p2p_keys := n.

Definition data_dir : Path := mkPath false ["sequencer_data"%string].
Definition all_ok : KeyEnv := mkKeyEnv true true true true None.

Lemma identity_is_persistent_witness :
  let fs' := (p2p_keypair all_ok data_dir (key 5) disk0).1 in
  p2p_keypair all_ok data_dir (key 7) fs' = (fs', Ok (key 5)) ∧
  print_peer_id all_ok data_dir (key 7) fs' = (fs', Ok (peer_id_of (key 5))).
Proof. intros fs'. apply (identity_is_persistent all_ok data_dir (key 5) disk0); reflexivity. Defined.

Definition vrf_key : bytes := replicate 64 Byte.x09.
Definition secret_key : bytes := public ++ replicate 1248 Byte.x07.
Definition genesis_account : string * GenesisAccount :=
  (hex_encode (public_key_to_address public), mkAccount (hex_encode public) None (Some "peer"%string)).

Lemma validator_boots_registered_witness :
  ∃ ks fs' cfg ab, keystore_new secret_key "pw" public salt32 nonce24 "id" = Ok ks ∧
    save_to_path ks key_file good_env disk0 = (fs', Ok ()) ∧
    boot key_file (to_hex vrf_key) "pw" true [genesis_account] (mkParams 6 1200) 0 fs' =
      Done (Ok (cfg, sys_new (C := list bytes) genesis_qc 0 ab)) ∧
    signing_keys (validator_keys cfg) = mkKeyPair public secret_key ∧
    my_address cfg = public_key_to_address public ∧ registered cfg ab.
Proof.
  eapply (validator_boots_registered (C := list bytes) public secret_key "pw" salt32 nonce24 "id" key_file home good_env disk0
    (to_hex vrf_key) vrf_key vrf_key [genesis_account] None "peer" [Ip true; P2p "peer"] "peer" (mkParams 6 1200) 0);
    try reflexivity; [by left|apply NoDup_singleton].
Defined.

(** The comment of the user client: a solver offers 10 units at 9100, the user
    takes all of them, and nothing is left. *)
Import ProcessorRuns.

Definition with_solver : MarketProcessor (VecSlab Order) :=
  run_of fresh_proc [InCommand (PlaceOrder 777 1 Ask 9100 10) 0 ok].

Example user_takes_all_liquidity :
  ∃ p, user_client with_solver LinkUp 1 ok = Done (p, Ok (TradeSuccessful [mkFill 1 9100 10])) ∧
    view (book p) = mkView [] [].
Proof. eexists. split; vm_compute; reflexivity. Qed.
End StartupRuns.
