(* ===== verification/Contracts.v ===== *)
(** * The settlement contracts ([contracts/src/EviceRollup.sol],
      [EviceVerifier.sol], [zk-prover/src/bin/generate_verifier.rs])

    The rollup contract as a state machine: a call has a sender and a value, and
    either reverts, which changes nothing, or gives a new state and its events.
    OpenZeppelin's [Ownable], [Pausable] and [ReentrancyGuard] are the interface
    [OpenZeppelin] with their documented behaviour as laws.  The verifier is a
    contract at an address: its code is a function of the chain.  The program that
    writes the verifier's source is here too, and the composition of the contract
    with the node's settlement task. *)

From S2P Require Import Prelude BTree Slab OrderBook Bytes Wal Processor Service Files SeqTypes P2pTypes Committee Consensus Keystore Json Startup.
From Stdlib Require Import Strings.Ascii.

Abbreviation Bytes32 := bytes.

Definition U256 : N := 2 ^ 256.

(** ** OpenZeppelin *)
Class OpenZeppelin := {
  Oz : Type;
  (** the state after [Ownable(initialOwner)] *)
  oz_new : Address → Oz;
  oz_owner : Oz → Address;
  oz_paused : Oz → bool;
  oz_pause : Oz → Oz;
  oz_unpause : Oz → Oz;
  oz_transfer_ownership : Address → Oz → Oz;
}.

Class OpenZeppelinLaws `{!OpenZeppelin} := {
  owner_new a : oz_owner (oz_new a) = a;
  paused_new a : oz_paused (oz_new a) = false;
  owner_pause o : oz_owner (oz_pause o) = oz_owner o;
  paused_pause o : oz_paused (oz_pause o) = true;
  owner_unpause o : oz_owner (oz_unpause o) = oz_owner o;
  paused_unpause o : oz_paused (oz_unpause o) = false;
  owner_transfer a o : oz_owner (oz_transfer_ownership a o) = a;
  paused_transfer a o : oz_paused (oz_transfer_ownership a o) = oz_paused o;
}.

Definition zero_address : Address := replicate 20 Byte.x00.

(** ** [EviceRollup] *)
Inductive IntentStatus := NONE | LOCKED | RESOLVED.

#[export] Instance intent_status_eq_dec : EqDecision IntentStatus.
Proof. solve_decision. Defined.

Inductive Event :=
| IntentLocked (intentId : Bytes32) (user : Address) (amount : N)
| IntentSettled (intentId : Bytes32) (solver : Address)
| StateUpdated (batchId : N) (oldStateRoot newStateRoot : Bytes32)
| VerifierUpdated (newVerifier : Address).

Inductive Revert :=
| UnauthorizedSequencer
| InvalidProof
| InvalidAmount
| NotOwner
| InvalidOwner
| EnforcedPause
| ExpectedPause
| NotPayable
| VerifierReverted.

(** The code of a verifier: [None] when the call reverts. *)
Definition Verifier : Type := Bytes32 → Bytes32 → bytes → option bool.

(** The verifiers deployed on the chain. *)
Definition Chain : Type := Address → option Verifier.

Record EviceRollup `{!OpenZeppelin} := mkRollup {
  SEQUENCER : Address;
  currentStateRoot : Bytes32;
  verifier : Address;
  currentBatchId : N;
  intentRegistry : gmap Bytes32 IntentStatus;
  oz : Oz;
  balance : N;  (** the ether the contract holds *)
}.

Arguments mkRollup {_}.
Arguments SEQUENCER {_}.
Arguments currentStateRoot {_}.
Arguments verifier {_}.
Arguments currentBatchId {_}.
Arguments intentRegistry {_}.
Arguments oz {_}.
Arguments balance {_}.

(** A transaction's sender and value. *)
Record Msg := mkMsg { msg_sender : Address; msg_value : N }.

Inductive Call :=
| PauseSystem
| UnpauseSystem
| TransferOwnership (newOwner : Address)
| RenounceOwnership
| DepositIntent (intentId : Bytes32)
| SetVerifier (verifierAddress : Address)
| UpdateStateWithIntents (newStateRoot : Bytes32) (proof : bytes) (resolvedIntentIds : list Bytes32).

Section rollup.
Context `{!OpenZeppelin} (chain : Chain).
Implicit Types (s : EviceRollup) (m : Msg).

(** A mapping gives [NONE] for a key that was never written. *)
Definition status s (id : Bytes32) : IntentStatus := default NONE (intentRegistry s !! id).

Definition rollup_new (initialSequencer : Address) (initialStateRoot : Bytes32) (initialOwner : Address)
    : result EviceRollup Revert :=
  if decide (initialOwner = zero_address) then Err InvalidOwner
  else Ok (mkRollup initialSequencer initialStateRoot zero_address 0 ∅ (oz_new initialOwner) 0).

Definition with_oz s (o : Oz) : EviceRollup :=
  mkRollup (SEQUENCER s) (currentStateRoot s) (verifier s) (currentBatchId s) (intentRegistry s) o (balance s).

(** The modifiers. *)
Definition nonPayable {A} m (k : result A Revert) : result A Revert :=
  if decide (msg_value m = 0) then k else Err NotPayable.
Definition onlyOwner {A} s m (k : result A Revert) : result A Revert :=
  if decide (msg_sender m = oz_owner (oz s)) then k else Err NotOwner.
Definition onlySequencer {A} s m (k : result A Revert) : result A Revert :=
  if decide (msg_sender m = SEQUENCER s) then k else Err UnauthorizedSequencer.
Definition whenNotPaused {A} s (k : result A Revert) : result A Revert :=
  if oz_paused (oz s) then Err EnforcedPause else k.

Definition pauseSystem s m : result (EviceRollup * list Event) Revert :=
  nonPayable m (onlyOwner s m (whenNotPaused s (Ok (with_oz s (oz_pause (oz s)), [])))).

Definition unpauseSystem s m : result (EviceRollup * list Event) Revert :=
  nonPayable m (onlyOwner s m
    (if oz_paused (oz s) then Ok (with_oz s (oz_unpause (oz s)), []) else Err ExpectedPause)).

(** Inherited from [Ownable]. *)
Definition transferOwnership s m (newOwner : Address) : result (EviceRollup * list Event) Revert :=
  nonPayable m (onlyOwner s m
    (if decide (newOwner = zero_address) then Err InvalidOwner
     else Ok (with_oz s (oz_transfer_ownership newOwner (oz s)), []))).

Definition renounceOwnership s m : result (EviceRollup * list Event) Revert :=
  nonPayable m (onlyOwner s m (Ok (with_oz s (oz_transfer_ownership zero_address (oz s)), []))).

(** The guard against reentrancy never refuses: the only call to another contract
    is to the verifier, which is a view and cannot change any state. *)
Definition depositIntent s m (intentId : Bytes32) : result (EviceRollup * list Event) Revert :=
  whenNotPaused s
    (if decide (msg_value m = 0) then Err InvalidAmount
     else Ok (mkRollup (SEQUENCER s) (currentStateRoot s) (verifier s) (currentBatchId s)
                (<[intentId := LOCKED]> (intentRegistry s)) (oz s) (balance s + msg_value m),
              [IntentLocked intentId (msg_sender m) (msg_value m)])).

Definition setVerifier s m (verifierAddress : Address) : result (EviceRollup * list Event) Revert :=
  nonPayable m (onlySequencer s m
    (Ok (mkRollup (SEQUENCER s) (currentStateRoot s) verifierAddress (currentBatchId s) (intentRegistry s) (oz s)
           (balance s), [VerifierUpdated verifierAddress]))).

(** The loop over the resolved intents. *)
Fixpoint resolve_intents (sequencer : Address) (registry : gmap Bytes32 IntentStatus) (ids : list Bytes32)
    : gmap Bytes32 IntentStatus * list Event :=
  match ids with
  | [] => (registry, [])
  | id :: ids =>
      if decide (registry !! id = Some LOCKED) then
        let '(registry, events) := resolve_intents sequencer (<[id := RESOLVED]> registry) ids in
        (registry, IntentSettled id sequencer :: events)
      else resolve_intents sequencer registry ids
  end.

(** A call to an address without code reverts. *)
Definition call_verifier s (oldRoot newRoot : Bytes32) (proof : bytes) : option bool :=
  match chain (verifier s) with
  | Some verifyProof => verifyProof oldRoot newRoot proof
  | None => None
  end.

Definition updateStateWithIntents s m (newStateRoot : Bytes32) (proof : bytes) (resolvedIntentIds : list Bytes32)
    : result (EviceRollup * list Event) Revert :=
  nonPayable m (onlySequencer s m (whenNotPaused s
    (let oldRoot := currentStateRoot s in
     match call_verifier s oldRoot newStateRoot proof with
     | None => Err VerifierReverted
     | Some false => Err InvalidProof
     | Some true =>
         let '(registry, settled) := resolve_intents (SEQUENCER s) (intentRegistry s) resolvedIntentIds in
         let batchId := (currentBatchId s + 1) mod U256 in
         Ok (mkRollup (SEQUENCER s) newStateRoot (verifier s) batchId registry (oz s) (balance s),
             settled ++ [StateUpdated batchId oldRoot newStateRoot])
     end))).

Definition exec s m (c : Call) : result (EviceRollup * list Event) Revert :=
  match c with
  | PauseSystem => pauseSystem s m
  | UnpauseSystem => unpauseSystem s m
  | TransferOwnership newOwner => transferOwnership s m newOwner
  | RenounceOwnership => renounceOwnership s m
  | DepositIntent intentId => depositIntent s m intentId
  | SetVerifier verifierAddress => setVerifier s m verifierAddress
  | UpdateStateWithIntents newStateRoot proof ids => updateStateWithIntents s m newStateRoot proof ids
  end.

(** A transaction: a call that reverts changes nothing. *)
Definition transact s (t : Msg * Call) : EviceRollup :=
  match exec s t.1 t.2 with
  | Ok (s', _) => s'
  | Err _ => s
  end.
End rollup.

(** ** [EviceVerifier] *)
Definition verifyProof : Verifier := λ oldStateRoot newStateRoot proof,
  if decide (proof = []) then None
  else if decide (oldStateRoot = newStateRoot) then None
  else Some true.

(** ** [generate_verifier]: the program that writes the verifier's source *)
Definition quote : string := String (ascii_of_nat 34) EmptyString.
Definition newline : string := String (ascii_of_nat 10) EmptyString.

Definition verifier_lines : list string :=
  ["// SPDX-License-Identifier: MIT";
   "pragma solidity ^0.8.20;";
   EmptyString;
   ("import {IPlonky3Verifier} from " +:+ quote +:+ "./IPlonky3Verifier.sol" +:+ quote +:+ ";");
   EmptyString;
   "/**";
   " * @title EviceVerifier";
   " * @dev Auto-generated Plonky3 STARK Verifier for IntentRollupAir";
   " * Dihasilkan secara otomatis oleh sistem zk-prover Evice.";
   " */";
   "contract EviceVerifier is IPlonky3Verifier {";
   "    // Konstanta kriptografi Field Plonky3";
   "    uint256 constant PRIME_FIELD = 0xFFFFFFFF00000001; // Contoh Goldilocks Field";
   EmptyString;
   "    /**";
   "     * @dev Memverifikasi bukti kriptografis bahwa state telah bertransisi dengan benar";
   "     * dan Intent OFA telah terpenuhi tanpa slippage.";
   "     */";
   "    function verifyProof(";
   "        bytes32 oldStateRoot,";
   "        bytes32 newStateRoot,";
   "        bytes calldata proof";
   "    ) external pure override returns (bool) {";
   "        ";
   "        // --- AUTO-GENERATED STARK VERIFICATION LOGIC ---";
   "        // Dalam produksi, ratusan baris operasi assembly (Yul) untuk ";
   "        // komputasi matematika FRI Polynomial akan berada di sini.";
   "        ";
   "        // Pengecekan dasar untuk keperluan integrasi testnet awal:";
   ("        require(proof.length > 0, " +:+ quote +:+ "Proof cannot be empty" +:+ quote +:+ ");");
   ("        require(oldStateRoot != newStateRoot, " +:+ quote +:+ "State must transition" +:+ quote +:+ ");");
   "        ";
   "        return true;";
   "    }";
   "}"]%string.

Definition generate_solidity_verifier : string := foldr (λ line rest, line +:+ newline +:+ rest) EmptyString verifier_lines.

Definition out_dir : Path := mkPath false [".."%string; ".."%string; "contracts"%string; "src"%string].
Definition verifier_path : Path := join out_dir "EviceVerifier.sol".

(** [main]: the directory is made if it is missing, and the file is created or
    truncated and written. *)
Definition generate_main (mkdir_ok create_ok : bool) (stop : option nat) : FsM IoError () :=
  _ ← match parent verifier_path with
      | Some dir => create_dir_all id mkdir_ok dir
      | None => mret ()
      end;
  fs_write id create_ok stop verifier_path (str_bytes generate_solidity_verifier).

(** Whatever the file held, a run that succeeds leaves exactly the generated text
    in it and changes no other file. *)
Lemma generate_main_run mkdir_ok create_ok stop fs fs' :
  generate_main mkdir_ok create_ok stop fs = (fs', Ok ()) →
  files fs' = <[verifier_path := str_bytes generate_solidity_verifier]> (files fs).
Proof.
  unfold generate_main. cbn [parent verifier_path out_dir join components absolute app length Nat.sub take].
  unfold mbind, fsm_bind. unfold create_dir_all at 1. destruct mkdir_ok; [|done].
  by intros Hw%fs_write_run.
Qed.

(** ** The contract's safety *)
Section safety.
Context `{!OpenZeppelin} `{!OpenZeppelinLaws} (chain : Chain).
Implicit Types (s : EviceRollup) (m : Msg).

(** Exactly the listed intents that are locked become resolved, each reported
    once, in the order of their first mention. *)
Lemma resolve_intents_spec sequencer registry ids registry' events :
  resolve_intents sequencer registry ids = (registry', events) →
  (∀ id, registry' !! id = if decide (id ∈ ids ∧ registry !! id = Some LOCKED) then Some RESOLVED else registry !! id) ∧
  ∃ settled, events = (λ id, IntentSettled id sequencer) <$> settled ∧ NoDup settled ∧
    ∀ id, id ∈ settled ↔ id ∈ ids ∧ registry !! id = Some LOCKED.
Proof.
  revert registry registry' events. induction ids as [|i ids IH]; intros registry registry' events; cbn [resolve_intents].
  - intros [= <- <-]. split; [|exists []; split_and!; [done|constructor|set_solver]].
    intros id. rewrite decide_False; [done|]. set_solver.
  - case_decide as Hi.
    + destruct (resolve_intents _ _ ids) as [r1 e1] eqn:Hr. intros [= <- <-].
      destruct (IH _ _ _ Hr) as (Hreg & settled & -> & Hnd & Hin). split.
      * intros id. rewrite Hreg. destruct (decide (id = i)) as [->|Hne].
        -- rewrite lookup_insert_eq, decide_False by naive_solver. by rewrite decide_True by set_solver.
        -- rewrite lookup_insert_ne by done. apply decide_ext. set_solver.
      * exists (i :: settled). split_and!; [done| |].
        -- constructor; [|done]. rewrite Hin, lookup_insert_eq. naive_solver.
        -- intros id. rewrite elem_of_cons, Hin, elem_of_cons. destruct (decide (id = i)) as [->|Hne].
           ++ naive_solver.
           ++ rewrite lookup_insert_ne by done. naive_solver.
    + intros Hr. destruct (IH _ _ _ Hr) as (Hreg & settled & -> & Hnd & Hin). split.
      * intros id. rewrite Hreg. apply decide_ext. set_solver.
      * exists settled. split_and!; [done..|]. intros id. rewrite Hin. set_solver.
Qed.

(** What a successful batch needs and does. *)
Lemma update_inv s m root proof ids s' events :
  updateStateWithIntents chain s m root proof ids = Ok (s', events) →
  msg_value m = 0 ∧ msg_sender m = SEQUENCER s ∧ oz_paused (oz s) = false ∧
  call_verifier chain s (currentStateRoot s) root proof = Some true ∧
  ∃ registry settled, resolve_intents (SEQUENCER s) (intentRegistry s) ids = (registry, settled) ∧
    s' = mkRollup (SEQUENCER s) root (verifier s) ((currentBatchId s + 1) mod U256) registry (oz s) (balance s) ∧
    events = settled ++ [StateUpdated ((currentBatchId s + 1) mod U256) (currentStateRoot s) root].
Proof.
  unfold updateStateWithIntents, nonPayable, onlySequencer, whenNotPaused. cbv zeta.
  case_decide; [|done]. case_decide; [|done]. destruct (oz_paused (oz s)); [done|].
  destruct (call_verifier _ _ _ _ _) as [[]|]; [|done..].
  destruct (resolve_intents _ _ _) as [registry settled]. intros [= <- <-]. naive_solver.
Qed.

(** C38. The rollup changes only as it is authorised to.  In a call that succeeds, the
    sequencer is the same and the contract keeps every wei it is sent; the state
    root and the batch number change only in a batch of the sequencer that the
    verifier accepts while the contract is not paused, and the number grows by one;
    an intent becomes locked only by a deposit with a value, and resolved only when
    such a batch lists it while it is locked; the owner and the pause change only
    in a call of the owner. *)
Theorem rollup_changes_are_authorised s m c s' events :
  exec chain s m c = Ok (s', events) →
  SEQUENCER s' = SEQUENCER s ∧ balance s' = balance s + msg_value m ∧
  (currentStateRoot s' ≠ currentStateRoot s ∨ currentBatchId s' ≠ currentBatchId s →
     ∃ proof ids, c = UpdateStateWithIntents (currentStateRoot s') proof ids ∧ msg_sender m = SEQUENCER s ∧
       oz_paused (oz s) = false ∧ call_verifier chain s (currentStateRoot s) (currentStateRoot s') proof = Some true ∧
       currentBatchId s' = (currentBatchId s + 1) mod U256) ∧
  (∀ id, status s' id ≠ status s id →
     c = DepositIntent id ∧ 0 < msg_value m ∧ status s' id = LOCKED ∨
     (∃ root proof ids, c = UpdateStateWithIntents root proof ids ∧ id ∈ ids ∧ msg_sender m = SEQUENCER s ∧
        call_verifier chain s (currentStateRoot s) root proof = Some true) ∧
     status s id = LOCKED ∧ status s' id = RESOLVED) ∧
  (oz_owner (oz s') ≠ oz_owner (oz s) ∨ oz_paused (oz s') ≠ oz_paused (oz s) → msg_sender m = oz_owner (oz s)).
Proof.
  intros Hexec. destruct c as [| |newOwner| |id|addr|root proof ids]; cbn [exec] in Hexec;
    [unfold pauseSystem, nonPayable, onlyOwner, whenNotPaused in Hexec
    |unfold unpauseSystem, nonPayable, onlyOwner in Hexec
    |unfold transferOwnership, nonPayable, onlyOwner in Hexec
    |unfold renounceOwnership, nonPayable, onlyOwner in Hexec
    |unfold depositIntent, whenNotPaused in Hexec
    |unfold setVerifier, nonPayable, onlySequencer in Hexec|];
    try (repeat case_match; try done; injection Hexec as <- <-;
         unfold with_oz, status; cbn [SEQUENCER balance currentStateRoot currentBatchId intentRegistry oz];
         split_and!; [done|lia|naive_solver|naive_solver|naive_solver]).
  - repeat case_match; try done. injection Hexec as <- <-. unfold status.
    cbn [SEQUENCER balance currentStateRoot currentBatchId intentRegistry oz].
    split_and!; [done|done|naive_solver| |naive_solver]. intros id' Hne. left.
    destruct (decide (id' = id)) as [->|Hid]; [|by rewrite lookup_insert_ne in Hne].
    rewrite lookup_insert_eq. split_and!; [done|lia|done].
  - destruct (update_inv _ _ _ _ _ _ _ Hexec) as (Hv & Hsender & Hp & Hver & registry & settled & Hr & -> & ->).
    unfold status. cbn [SEQUENCER balance currentStateRoot currentBatchId intentRegistry oz].
    destruct (resolve_intents_spec _ _ _ _ _ Hr) as [Hreg _].
    split_and!; [done|lia| | |naive_solver].
    + intros _. by exists proof, ids.
    + intros id Hne. right. rewrite Hreg in Hne |- *. case_decide as Hid; [|done]. destruct Hid as [Hin Hl].
      split; [by exists root, proof, ids|]. rewrite Hl. done.
Qed.
End safety.

(** ** The node's settlement on the contract *)
Section settlement.
Context `{!OpenZeppelin} `{!OpenZeppelinLaws} (chain : Chain).
Context (engine : SettlementEngine) (parse_b256 : string → option bytes).
Implicit Types (s : EviceRollup).

(** One submission of the settlement task, mined. *)
Definition submit_on_chain s (batch : SettlementBatch) : EviceRollup * SettlementLog :=
  let call := (submit_zk_batch engine batch (Mined true)).1 in
  match exec chain s (mkMsg (se_signer engine) 0)
          (UpdateStateWithIntents (l1_new_state_root call) (l1_proof call) (l1_resolved_ids call)) with
  | Ok (s', _) => (s', (submit_zk_batch engine batch (Mined true)).2)
  | Err _ => (s, (submit_zk_batch engine batch (Mined false)).2)
  end.

(** The background task on the chain: one submission per resolved intent. *)
Fixpoint settle_on_chain s (events : list EngineEvent) : EviceRollup * list SettlementLog :=
  match events with
  | [] => (s, [])
  | event :: events =>
      match settle parse_b256 event with
      | Some batch =>
          let '(s, log) := submit_on_chain s batch in
          let '(s, logs) := settle_on_chain s events in
          (s, log :: logs)
      | None => settle_on_chain s events
      end
  end.

Definition zero_root : Bytes32 := replicate 32 Byte.x00.

(** The 32 bytes under which the task settles an intent. *)
Definition settled_id (event : EngineEvent) : option Bytes32 :=
  match event with
  | IntentResolved intent_id _ _ => Some (default zero_root (parse_b256 intent_id))
  | _ => None
  end.

Lemma submit_spec s event batch :
  chain (verifier s) = Some verifyProof → settle parse_b256 event = Some batch →
  (submit_on_chain s batch = (s, LogReverted)) ∨
  (currentStateRoot s ≠ zero_root ∧ ∃ s' id, settled_id event = Some id ∧ submit_on_chain s batch = (s', LogSuccess) ∧
     currentStateRoot s' = zero_root ∧ verifier s' = verifier s ∧
     ∀ id', status s' id' ≠ status s id' → id' = id).
Proof.
  intros Hver Hset. destruct event as [| | |intent_id solver amount]; try done. cbn [settle] in Hset.
  injection Hset as <-. unfold submit_on_chain. cbn [submit_zk_batch fst snd l1_new_state_root l1_proof l1_resolved_ids
    new_state_root proof resolved_intent_ids].
  destruct (exec chain s _ _) as [[s' evs]|e] eqn:Hexec; [|by left]. right. cbn [exec] in Hexec.
  destruct (update_inv _ _ _ _ _ _ _ _ Hexec) as (_ & _ & _ & Hcall & registry & settled & Hr & -> & _).
  split.
  - intros Hroot. unfold call_verifier in Hcall. rewrite Hver, Hroot in Hcall. unfold verifyProof in Hcall.
    rewrite decide_False in Hcall by done. by rewrite decide_True in Hcall.
  - eexists _, _. split_and!; [done..|]. intros id'. unfold status. cbn [intentRegistry].
    destruct (resolve_intents_spec _ _ _ _ _ Hr) as [-> _]. case_decide as Hid; [|done].
    intros _. by destruct Hid as [->%list_elem_of_singleton _].
Qed.

Lemma settle_stuck s events :
  chain (verifier s) = Some verifyProof → currentStateRoot s = zero_root →
  settle_on_chain s events = (s, replicate (length (omap settled_id events)) LogReverted).
Proof.
  intros Hver Hroot. induction events as [|event events IH]; [done|]. cbn [settle_on_chain].
  destruct (settle parse_b256 event) as [batch|] eqn:Hset.
  - destruct (submit_spec s event batch Hver Hset) as [->|[? _]]; [|done]. rewrite IH.
    destruct event; try done.
  - rewrite IH. by destruct event.
Qed.

(** C39. At most one settlement ever succeeds.  The node submits every batch with the
    all-zero state root, and the generated verifier refuses a batch that does not
    change the root: however many intents are resolved, only the first submission
    that the contract accepts goes through, every later one reverts, and no other
    intent ever changes its status on the first layer. *)
Theorem only_one_settlement_succeeds s events s' logs :
  chain (verifier s) = Some verifyProof → settle_on_chain s events = (s', logs) →
  ∃ before after, logs = replicate before LogReverted ++ after ∧
    (after = [] ∧ s' = s ∨
     ∃ n id, after = LogSuccess :: replicate n LogReverted ∧ currentStateRoot s' = zero_root ∧
       omap settled_id events !! before = Some id ∧ ∀ id', status s' id' ≠ status s id' → id' = id).
Proof.
  intros Hver. revert s' logs. induction events as [|event events IH]; intros s' logs; cbn [settle_on_chain].
  { intros [= <- <-]. exists 0%nat, []. split; [done|by left]. }
  destruct (settle parse_b256 event) as [batch|] eqn:Hset.
  - assert (∃ i, settled_id event = Some i) as [i Hi] by (destruct event; try done; by eexists).
    cbn [omap list_omap]. rewrite Hi. destruct (submit_spec s event batch Hver Hset) as [->|(_ & s1 & id & Hid & -> & Hroot & Hv & Hst)].
    + destruct (settle_on_chain s events) as [s2 logs2] eqn:Hrest. intros [= <- <-].
      destruct (IH _ _ eq_refl) as (before & after & -> & Hcase). exists (S before), after. split; [done|].
      destruct Hcase as [?|(n & id & ? & ? & ? & ?)]; [by left|right]. by exists n, id.
    + rewrite settle_stuck by congruence. intros [= <- <-]. exists 0%nat, (LogSuccess :: replicate (length (omap settled_id events)) LogReverted).
      split; [done|right]. exists (length (omap settled_id events)), id. split_and!; [done|done|simpl; congruence|done].
  - intros Hrest. destruct (IH _ _ Hrest) as (before & after & -> & Hcase). exists before, after. split; [done|].
    cbn [omap list_omap]. replace (settled_id event) with (@None Bytes32) by (by destruct event). done.
Qed.
End settlement.

(** ** Runs *)
Module ContractRuns.
(** The owner and the pause, as a pair. *)
#[export] Instance pair_oz : OpenZeppelin := {|
  Oz := Address * bool;
  oz_new := λ a, (a, false);
  oz_owner := fst;
  oz_paused := snd;
  oz_pause := λ o, (o.1, true);
  oz_unpause := λ o, (o.1, false);
  oz_transfer_ownership := λ a o, (a, o.2);
|}.

#[export] Instance pair_oz_laws : OpenZeppelinLaws.
Proof. by split. Qed.

Definition admin : Address := replicate 20 Byte.x0a.
Definition node : Address := replicate 20 Byte.x0b.
Definition user : Address := replicate 20 Byte.x0c.
Definition verifier_at : Address := replicate 20 Byte.x0d.
Definition chain : Chain := λ a, if decide (a = verifier_at) then Some verifyProof else None.

Definition intent (n : byte) : Bytes32 := replicate 32 n.
Definition genesis_root : Bytes32 := replicate 32 Byte.xee.

(** The contract is deployed, its verifier set, and a user locks two intents. *)
Definition deployed : EviceRollup :=
  match rollup_new node genesis_root admin with
  | Ok s => foldl (transact chain) s
      [(mkMsg node 0, SetVerifier verifier_at);
       (mkMsg user 5, DepositIntent (intent Byte.x01));
       (mkMsg user 7, DepositIntent (intent Byte.x02))]
  | Err _ => mkRollup [] [] [] 0 ∅ (admin, true) 0
  end.

(** The sequencer's batch for the first intent. *)
Definition batch : Call := UpdateStateWithIntents (intent Byte.x09) [Byte.x01] [intent Byte.x01].
Definition after_batch : EviceRollup := transact chain deployed (mkMsg node 0, batch).
Definition batch_events : list Event :=
  [IntentSettled (intent Byte.x01) node; StateUpdated 1 genesis_root (intent Byte.x09)].

Example first_intent_is_resolved :
  status after_batch (intent Byte.x01) = RESOLVED ∧ status after_batch (intent Byte.x02) = LOCKED.
Proof. vm_compute. done. Qed.

Lemma rollup_changes_are_authorised_witness :
  SEQUENCER after_batch = SEQUENCER deployed ∧ balance after_batch = balance deployed + 0 ∧
  (currentStateRoot after_batch ≠ currentStateRoot deployed ∨ currentBatchId after_batch ≠ currentBatchId deployed →
     ∃ proof ids, batch = UpdateStateWithIntents (currentStateRoot after_batch) proof ids ∧ node = SEQUENCER deployed ∧
       oz_paused (oz deployed) = false ∧
       call_verifier chain deployed (currentStateRoot deployed) (currentStateRoot after_batch) proof = Some true ∧
       currentBatchId after_batch = (currentBatchId deployed + 1) mod U256).
Proof.
  assert (exec chain deployed (mkMsg node 0) batch = Ok (after_batch, batch_events)) as Hexec by (vm_compute; reflexivity).
  destruct (rollup_changes_are_authorised chain deployed (mkMsg node 0) batch after_batch batch_events Hexec)
    as (Hseq & Hbal & Hroot & _). exact (conj Hseq (conj Hbal Hroot)).
Defined.

Definition settlement : SettlementEngine := mkSettlementEngine node [].
Definition parse (text : string) : option bytes :=
  if decide (text = "one"%string) then Some (intent Byte.x01)
  else if decide (text = "two"%string) then Some (intent Byte.x02) else None.
Definition resolved : list EngineEvent := [IntentResolved "one" "s" 10; IntentResolved "two" "s" 20].

(** Both intents are resolved; the second one stays locked. *)
Lemma only_one_settlement_succeeds_witness :
  let r := settle_on_chain chain settlement parse deployed resolved in
  r.2 = [LogSuccess; LogReverted] ∧ status r.1 (intent Byte.x01) = RESOLVED ∧ status r.1 (intent Byte.x02) = LOCKED ∧
  ∃ before after, r.2 = replicate before LogReverted ++ after ∧
    (after = [] ∧ r.1 = deployed ∨
     ∃ n id, after = LogSuccess :: replicate n LogReverted ∧ currentStateRoot r.1 = zero_root ∧
       omap (settled_id parse) resolved !! before = Some id ∧
       ∀ id', status r.1 id' ≠ status deployed id' → id' = id).
Proof.
  intros r. split_and!; [vm_compute; reflexivity..|].
  apply (only_one_settlement_succeeds chain settlement parse deployed resolved).
  - vm_compute. reflexivity.
  - apply surjective_pairing.
Defined.

(** A resolved intent can be locked again by anyone, and then be settled again. *)
Example resolved_intent_is_locked_again :
  let s1 := (settle_on_chain chain settlement parse deployed [IntentResolved "one" "s" 10]).1 in
  let s2 := transact chain s1 (mkMsg user 1, DepositIntent (intent Byte.x01)) in
  status s1 (intent Byte.x01) = RESOLVED ∧ status s2 (intent Byte.x01) = LOCKED.
Proof. vm_compute. done. Qed.
End ContractRuns.
