(* ===== verification/NodeMain.v ===== *)
(** * The whole of [main] ([zkapp/node/src/main.rs])

    The parts of the start that the other files model one by one, composed the way
    [main] composes them: its three modes, every file it reads and writes, every
    [?] and [expect] in its order, and the configuration it hands to the services.
    The operating system's answers, the random keys and the clock are one record;
    serde_json on the genesis is the interface [GenesisJson]. *)

From S2P Require Import Prelude Bytes Files SeqTypes P2pTypes Committee Consensus ConsensusProps ToyCrypto NetworkTheorems Swarm Keystore Json Startup.
From stdpp Require Import pretty.
From Stdlib Require Import Strings.Ascii.
#[local] Open Scope N_scope.

(** ** Programs that use files, return errors with [?] and may panic *)
Definition Prog (A : Type) : Type := Fs → Fs * outcome (result A NodeError).

#[export] Instance prog_ret : MRet Prog := λ A a fs, (fs, Done (Ok a)).
#[export] Instance prog_bind : MBind Prog := λ A B f m fs,
  match m fs with
  | (fs, Done (Ok a)) => f a fs
  | (fs, Done (Err e)) => (fs, Done (Err e))
  | (fs, Panicked) => (fs, Panicked)
  | (fs, NoFuel) => (fs, NoFuel)
  end.

Definition from_fs {A} (m : FsM NodeError A) : Prog A := λ fs, let '(fs', r) := m fs in (fs', Done r).
(** A part that only looks at the files. *)
Definition from_look {A} (f : Fs → outcome (result A NodeError)) : Prog A := λ fs, (fs, f fs).
Definition from_outcome {A} (o : outcome A) : Prog A := from_look (λ _, Ok <$> o).
Definition from_option {A} (e : NodeError) (o : option A) : Prog A :=
  from_look (λ _, Done (match o with Some a => Ok a | None => Err e end)).

(** ** Paths in arguments

    [Path::new] on a text: its parts between slashes, without the empty ones and
    the dots, below the root when the text starts with a slash. *)
Fixpoint split_slash (word s : string) : list string :=
  match s with
  | EmptyString => [word]
  | String "/" s => word :: split_slash EmptyString s
  | String c s => split_slash (word +:+ String c EmptyString) s
  end.

Definition path_of (s : string) : Path :=
  mkPath (match s with String "/" _ => true | _ => false end)
    (filter (λ c, c ≠ ""%string ∧ c ≠ "."%string) (split_slash EmptyString s)).

(** ** The genesis file *)
Class GenesisJson := {
  genesis_to_string_pretty : Genesis → option string;
  genesis_from_reader : bytes → option Genesis;
}.

Class GenesisJsonLaws `{!GenesisJson} := {
  genesis_roundtrip g : ∃ text, genesis_to_string_pretty g = Some text ∧ genesis_from_reader (str_bytes text) = Some g;
}.

Definition genesis_path : Path := mkPath false ["genesis.json"%string].

Definition from_file `{!GenesisJson} (open_ok : bool) (path : Path) (fs : Fs) : option Genesis :=
  match read id open_ok path fs with
  | (_, Ok content) => genesis_from_reader content
  | _ => None
  end.

(** ** What [main] is given *)
Record GeneratedValidator `{!P2pKeys} := mkGenerated {
  gv_keys : ValidatorKeys;
  gv_vrf_public : bytes;   (** [vrf_keys.public.to_bytes()] *)
  gv_p2p : P2pKey;
}.

Record MainEnv `{!P2pKeys} := mkMainEnv {
  me_key : KeyEnv;                        (** the calls on the network key *)
  me_generated : P2pKey;                  (** the network key a fresh node generates *)
  me_validators : nat → GeneratedValidator; (** the keys of a new genesis *)
  me_clock : option N;                    (** seconds since the epoch, none before it;
                                              such a clock counts as the epoch for the start delay *)
  me_instant : N;                         (** [Instant::now()] *)
  me_open_genesis : bool;
  me_create_genesis : bool;
  me_stop_genesis : option nat;
  me_read_keystore : bool;
  me_prompt : option string;              (** the password typed at the prompt *)
  me_order : gmap string GenesisAccount → list (string * GenesisAccount);
  me_var : string → option string;        (** the environment variables *)
  me_delay : N;                           (** [random_range(500..2000)] *)
}.

Arguments mkGenerated {_}.
Arguments mkMainEnv {_}.

Section main.
Context `{!Crypto} `{!Profile} `{!KeyCiphers} `{!KeystoreJson} `{!Net} `{!P2pKeys} `{!GenesisJson}.
Context {C : Type} `{!Lru C}.
(** alloy's and the url crate's parsers *)
Context (parse_url : string → bool) (parse_address parse_key : string → option bytes).
Implicit Types (args : Args) (env : MainEnv).

(** ** [--bootstrap] *)
Definition NUM_VALIDATORS : nat := 7.

Definition bootstrap_multiaddr (i : nat) (peer : PeerId) : string :=
  "/ip4/127.0.0.1/tcp/" +:+ pretty (50000 + N.of_nat i) +:+ "/p2p/" +:+ peer.

(** The keys of the accounts, validator by validator. *)
Fixpoint bootstrap_keys (i : nat) (validators : list GeneratedValidator) : outcome (list (bytes * bytes * string)) :=
  match validators with
  | [] => Done []
  | v :: validators =>
    pk ← public_key_bytes (signing_keys (gv_keys v));
    rest ← bootstrap_keys (S i) validators;
    Done ((pk, gv_vrf_public v, bootstrap_multiaddr i (peer_id_of (gv_p2p v))) :: rest)
  end.

Definition bootstrap_genesis (genesis_time : N) (accounts : gmap string GenesisAccount) : Genesis :=
  mkGenesis genesis_time "evice-blockchain-v1" (mkParams 6 1200) accounts.

(** The keys that are shown for the operator's script. *)
Fixpoint print_keys (i : nat) (validators : list GeneratedValidator) : outcome (list string) :=
  match validators with
  | [] => Done []
  | v :: validators =>
    pk ← public_key_bytes (signing_keys (gv_keys v));
    sk ← private_key_bytes (signing_keys (gv_keys v));
    rest ← print_keys (S i) validators;
    Done (["--- Validator " +:+ pretty (N.of_nat (S i)) +:+ " ---";
           "Alamat (Sign PubKey): 0x" +:+ hex_encode pk;
           "Signing Private Key:  0x" +:+ hex_encode sk;
           "VRF Public Key:       0x" +:+ hex_encode (gv_vrf_public v);
           "VRF Secret Key:       0x" +:+ hex_encode (vrf_keys (gv_keys v))]%string ++ rest)
  end.

Definition bootstrap_main env : Prog (list string) :=
  let validators := me_validators env <$> seq 0 NUM_VALIDATORS in
  keys ← from_outcome (bootstrap_keys 0 validators);
  genesis_time ← from_option (NodeIo OsError) (me_clock env);
  text ← from_option (NodeIo InvalidData) (genesis_to_string_pretty (bootstrap_genesis genesis_time (bootstrap_accounts keys)));
  _ ← from_fs (fs_write NodeIo (me_create_genesis env) (me_stop_genesis env) genesis_path (str_bytes text));
  from_outcome (print_keys 0 validators).

(** ** The node *)

(** The authority's keys; without a password argument it is asked for, after the
    keystore has been read. *)
Definition authority_start args env : Prog (option ValidatorKeys) := from_look (λ fs,
  let keystore_path := path_of <$> arg_keystore_path args in
  match password args, me_prompt env with
  | Some pw, _ | None, Some pw =>
      authority_validator_keys (is_authority args) keystore_path (arg_vrf_priv_key args) pw (me_read_keystore env) fs
  | None, None =>
      if is_authority args then
        path ← unwrap keystore_path;
        _ ← unwrap (arg_vrf_priv_key args);
        match (from_path (me_read_keystore env) path fs).2 with
        | Err e => Done (Err (NodeKeystore e))
        | Ok _ => Done (Err (NodeIo OsError))
        end
      else Done (Ok None)
  end).

(** The engine of an authority: its configuration and the state it starts in. *)
Definition engine_start env (genesis : Genesis) (ab : AddressBook) (keys : option ValidatorKeys)
    : outcome (option (Config * Sys (C := C))) :=
  match keys with
  | None => Done None
  | Some keys =>
      address ← authority_address keys;
      Done (Some (mkConfig address keys (g_parameters genesis), sys_new genesis_qc (me_instant env) ab))
  end.

(** The settlement's configuration, with what it is without the variables. *)
Definition settlement_config env : string * string * string :=
  (default "http://127.0.0.1:8545" (me_var env "L1_RPC_URL"),
   default "0xac0974bec39a17e36ba4a6b4d238ff944bacb478cbed5efcae784d7bf4f2ff80" (me_var env "SEQUENCER_PRIVATE_KEY"),
   default "0x5FbDB2315678afecb367f032d93F642f64180aa3" (me_var env "ROLLUP_CONTRACT_ADDRESS"))%string.

(** What a started node runs. *)
Record NodeStart := mkNodeStart {
  ns_wait : N;                              (** seconds before anything starts *)
  ns_book : AddressBook;
  ns_engine : option (Config * Sys (C := C));
  ns_key : P2pKey;
  ns_bootstrap_nodes : list string;
  ns_p2p_port : N;
  ns_is_bootstrap_node : bool;
  ns_dev_mode : bool;                       (** [DEV_MODE] *)
  ns_p2p_delay : N;                         (** milliseconds before the network starts *)
  ns_settlement : SettlementEngine;
}.

Definition run_node args env : Prog NodeStart :=
  genesis ← from_look (λ fs, Ok <$> unwrap (from_file (me_open_genesis env) genesis_path fs));
  wait ← from_outcome (start_wait (g_genesis_time genesis) (default 0 (me_clock env)));
  keys ← authority_start args env;
  ab ← from_outcome (update_from_genesis ∅ (me_order env (g_accounts genesis)));
  engine ← from_outcome (engine_start env genesis ab keys);
  key ← from_fs (p2p_keypair (me_key env) (path_of (db_path args)) (me_generated env));
  let '(l1_rpc_url, private_key, rollup_address) := settlement_config env in
  settlement ← from_outcome (settlement_new parse_url parse_address parse_key l1_rpc_url private_key rollup_address);
  mret (mkNodeStart wait ab engine key (bootstrap_node args) (p2p_port args) (bool_decide (bootstrap_node args = [])) (dev args)
          (if decide (bootstrap_node args = []) then 0 else me_delay env) settlement).

(** The race that ends a node: [main] returns success whichever of the network, the
    trading service and the signal is first, and whether it failed. *)
Inductive FirstDone := P2pDone (ok : bool) | GrpcDone (ok : bool) | CtrlC.
Inductive EndLog := P2pExited | GrpcExited | Interrupted.

Definition main_end (first : FirstDone) : list EndLog * result () NodeError :=
  (match first with
   | P2pDone true | GrpcDone true => []
   | P2pDone false => [P2pExited]
   | GrpcDone false => [GrpcExited]
   | CtrlC => [Interrupted]
   end, Ok ()).

Inductive MainResult := Printed (lines : list string) | Started (node : NodeStart).

Definition main args env : Prog MainResult :=
  if get_peer_id_flag args then
    peer_id ← from_fs (print_peer_id (me_key env) (path_of (db_path args)) (me_generated env));
    mret (Printed [peer_id])
  else if bootstrap args then lines ← bootstrap_main env; mret (Printed lines)
  else node ← run_node args env; mret (Started node).
End main.

(** ** Which files change *)

(** [m] changes no file but those of [ps]. *)
Definition touches {A} (ps : list Path) (m : Prog A) : Prop :=
  ∀ fs p, p ∉ ps → files (m fs).1 !! p = files fs !! p.

Definition fs_touches {E A} (ps : list Path) (m : FsM E A) : Prop :=
  ∀ fs p, p ∉ ps → files (m fs).1 !! p = files fs !! p.

Create HintDb touch.

Lemma touches_ret {A} ps (a : A) : touches ps (mret a).
Proof. by intros fs p. Qed.

Lemma touches_look {A} ps (f : Fs → outcome (result A NodeError)) : touches ps (from_look f).
Proof. by intros fs p. Qed.

Lemma touches_outcome {A} ps (o : outcome A) : touches ps (from_outcome o).
Proof. apply touches_look. Qed.

Lemma touches_option {A} ps e (o : option A) : touches ps (from_option e o).
Proof. apply touches_look. Qed.

Lemma touches_bind {A B} ps (m : Prog A) (f : A → Prog B) :
  touches ps m → (∀ a, touches ps (f a)) → touches ps (m ≫= f).
Proof.
  intros Hm Hf fs p Hp. specialize (Hm fs p Hp). unfold mbind, prog_bind.
  destruct (m fs) as [fs1 [[a|e]| |]]; [|done..]. by rewrite Hf.
Qed.

Lemma touches_fs {A} ps (m : FsM NodeError A) : fs_touches ps m → touches ps (from_fs m).
Proof. intros Hm fs p Hp. unfold from_fs. rewrite <-(Hm fs p Hp). by destruct (m fs). Qed.

Lemma fs_touches_ret {E A} ps (a : A) : fs_touches (E := E) ps (mret a).
Proof. by intros fs p. Qed.

Lemma fs_touches_fail {E A} ps (e : E) : fs_touches (A := A) ps (fail e).
Proof. by intros fs p. Qed.

Lemma fs_touches_bind {E A B} ps (m : FsM E A) (f : A → FsM E B) :
  fs_touches ps m → (∀ a, fs_touches ps (f a)) → fs_touches ps (m ≫= f).
Proof.
  intros Hm Hf fs p Hp. specialize (Hm fs p Hp). unfold mbind, fsm_bind.
  destruct (m fs) as [fs1 [a|e]]; [|done]. by rewrite Hf.
Qed.

Lemma fs_touches_read {E} ps (io : IoError → E) ok q : fs_touches ps (read io ok q).
Proof. intros fs p Hp. unfold read, fail. by destruct (files fs !! q), ok. Qed.

Lemma fs_touches_mkdir {E} ps (io : IoError → E) ok q : fs_touches ps (create_dir_all io ok q).
Proof. intros fs p Hp. unfold create_dir_all, fail. by destruct ok. Qed.

Lemma fs_touches_write {E} ps (io : IoError → E) ok stop q content :
  q ∈ ps → fs_touches ps (fs_write io ok stop q content).
Proof.
  intros Hq fs p Hp. unfold fs_write, fail, write_all. destruct (parent q); [|done].
  destruct (is_dir _ fs && ok), stop; try done; cbn [fst files]; apply lookup_insert_ne; by intros ->.
Qed.

Lemma fs_touches_rename {E} ps (io : IoError → E) ok from to :
  from ∈ ps → to ∈ ps → fs_touches ps (ignore (rename io ok from to)).
Proof.
  intros Hfrom Hto fs p Hp. unfold ignore, rename, fail. destruct (files fs !! from), ok; try done.
  cbn [fst files]. rewrite lookup_insert_ne, lookup_delete_ne; [done|by intros ->..].
Qed.

#[export] Hint Resolve touches_ret touches_look touches_outcome touches_option touches_fs fs_touches_ret fs_touches_fail
  fs_touches_read fs_touches_mkdir : touch.
#[export] Hint Extern 1 (touches _ (_ ≫= _)) => apply touches_bind; [|intros ?] : touch.
#[export] Hint Extern 1 (fs_touches _ (_ ≫= _)) => apply fs_touches_bind; [|intros ?] : touch.
#[export] Hint Extern 1 (fs_touches _ (fs_write _ _ _ _ _)) => apply fs_touches_write; set_solver : touch.
#[export] Hint Extern 1 (fs_touches _ (ignore (rename _ _ _ _))) => apply fs_touches_rename; set_solver : touch.

Section files.
Context `{!Crypto} `{!Profile} `{!KeyCiphers} `{!KeystoreJson} `{!Net} `{!P2pKeys} `{!GenesisJson}.
Context {C : Type} `{!Lru C} (parse_url : string → bool) (parse_address parse_key : string → option bytes).
Implicit Types (args : Args).

Lemma touches_print_peer_id env db g : fs_touches [p2p_key_path db] (print_peer_id env db g).
Proof.
  intros fs. unfold print_peer_id. destruct (exists_file _ fs); generalize fs; clear fs; apply fs_touches_bind; auto with touch.
  intros bs. destruct (secret_try_from_bytes bs); auto with touch.
Qed.

Lemma touches_p2p_keypair env db g : fs_touches [p2p_key_path db; backup_path db] (p2p_keypair env db g).
Proof.
  intros fs. unfold p2p_keypair. destruct (exists_file _ fs); generalize fs; clear fs; apply fs_touches_bind; auto with touch.
  intros bs. destruct (secret_try_from_bytes bs); auto 10 with touch.
Qed.

(** A key that can be read is used and nothing is changed. *)
Lemma p2p_keypair_readable env db g fs bs k :
  files fs !! p2p_key_path db = Some bs → secret_try_from_bytes bs = Some k → (p2p_keypair env db g fs).1 = fs.
Proof.
  intros Hbs Hk. unfold p2p_keypair, exists_file. rewrite bool_decide_true by eauto.
  unfold mbind, fsm_bind, read, fail. rewrite Hbs. destruct (ke_read env); [|done]. by rewrite Hk.
Qed.

Lemma print_peer_id_readable env db g fs bs k :
  files fs !! p2p_key_path db = Some bs → secret_try_from_bytes bs = Some k → (print_peer_id env db g fs).1 = fs.
Proof.
  intros Hbs Hk. unfold print_peer_id, exists_file. rewrite bool_decide_true by eauto.
  unfold mbind, fsm_bind, read, fail. rewrite Hbs. destruct (ke_read env); [|done]. by rewrite Hk.
Qed.

(** [m] leaves this file system as it is. *)
Definition keeps {A} (fs : Fs) (m : Prog A) : Prop := (m fs).1 = fs.

Lemma keeps_bind {A B} fs (m : Prog A) (f : A → Prog B) : keeps fs m → (∀ a, keeps fs (f a)) → keeps fs (m ≫= f).
Proof.
  unfold keeps, mbind, prog_bind. intros Hm Hf. destruct (m fs) as [fs1 [[a|e]| |]]; cbn [fst] in *; subst; auto.
Qed.

Lemma keeps_fs {A} fs (m : FsM NodeError A) : (m fs).1 = fs → keeps fs (from_fs m).
Proof. unfold keeps, from_fs. by destruct (m fs). Qed.

(** The files a mode of [main] may change. *)
Definition own_files args : list Path :=
  let db := path_of (db_path args) in
  match start_mode args with
  | PrintPeerId => [p2p_key_path db]
  | WriteGenesis => [genesis_path]
  | RunNode _ => [p2p_key_path db; backup_path db]
  end.

Lemma touches_bootstrap env : touches [genesis_path] (bootstrap_main env).
Proof. clear parse_url parse_address parse_key. unfold bootstrap_main. auto 20 with touch. Qed.

Lemma touches_run_node args env ps :
  p2p_key_path (path_of (db_path args)) ∈ ps → backup_path (path_of (db_path args)) ∈ ps →
  touches ps (run_node (C := C) parse_url parse_address parse_key args env).
Proof.
  intros Hk Hb. assert (∀ env g, fs_touches ps (p2p_keypair env (path_of (db_path args)) g)) as Hkey.
  { intros e g fs p Hp. apply touches_p2p_keypair. set_solver. }
  unfold run_node, authority_start. do 6 (apply touches_bind; [solve [auto with touch]|intros ?]).
  destruct (settlement_config env) as [[url key] addr]. auto with touch.
Qed.

(** Only the files of the mode change.  Whatever the arguments, the files and the
    operating system's answers, and whether [main] returns, fails or panics,
    [--get-peer-id] changes at most the key file, [--bootstrap] at most the
    genesis, and a node at most the key file and its backup; and as long as the
    key file holds a key, printing the identity and running the node change
    nothing. *)
Theorem main_changes_only_its_files args env fs :
  let fs' := (main (C := C) parse_url parse_address parse_key args env fs).1 in
  (∀ p, files fs' !! p ≠ files fs !! p → p ∈ own_files args) ∧
  (start_mode args ≠ WriteGenesis →
   ∀ bs k, files fs !! p2p_key_path (path_of (db_path args)) = Some bs → secret_try_from_bytes bs = Some k → fs' = fs).
Proof.
  unfold main, own_files, start_mode. destruct (get_peer_id_flag args); [|destruct (bootstrap args)]; cbv zeta; split.
  - intros p Hp. destruct (decide (p ∈ [p2p_key_path (path_of (db_path args))])) as [?|Hn]; [done|]. destruct Hp.
    apply (touches_bind [p2p_key_path (path_of (db_path args))]); auto with touch. apply touches_fs, touches_print_peer_id.
  - intros _ bs k Hbs Hk. apply keeps_bind; [|done]. eapply keeps_fs, print_peer_id_readable; done.
  - intros p Hp. destruct (decide (p ∈ [genesis_path])) as [?|Hn]; [done|]. destruct Hp.
    apply (touches_bind [genesis_path]); auto using touches_bootstrap with touch.
  - by intros [].
  - intros p Hp. set (ps := [_; _]). destruct (decide (p ∈ ps)) as [?|Hn]; [done|]. destruct Hp.
    apply (touches_bind ps); auto with touch. apply touches_run_node; set_solver.
  - intros _ bs k Hbs Hk. apply keeps_bind; [|done]. unfold run_node.
    do 5 (apply keeps_bind; [done|intros ?]).
    apply keeps_bind; [by eapply keeps_fs, p2p_keypair_readable|intros ?].
    destruct (settlement_config env) as [[url key] addr]. by apply keeps_bind.
Qed.
End files.

(** ** A network without validators *)
Section silent.
Context `{!Crypto} `{!Profile} `{!Logging} {C : Type} `{!Lru C} (cfg : Config).
Implicit Types (s : Sys (C := C)) (n : Node C) (t : Task).

(** The tasks that come up when nobody is in the address book. *)
Definition harmless t : Prop :=
  match t with
  | Message_check _ _ | Message_put _ _ | Proposal_verify _ | Vote_seen _ | Vote_verify _ | Qc_verify _ _
  | Step_read _ _ | Step_elect _ _ _ => True
  | _ => False
  end.

Record silent s : Prop := {
  silent_book : address_book (node s) = ∅;
  silent_tasks : Forall harmless (tasks s);
  silent_sent msg : BroadcastConsensusMessage msg ∉ sent s;
  silent_processed : processed_optimistic_batches (core_state (node s)) = ∅;
  silent_confirmed : optimistically_confirmed_batches (core_state (node s)) = [];
}.

Lemma no_valid_certificate (qc : QuorumCertificate) : qc_is_valid ∅ qc = false.
Proof.
  apply bool_decide_eq_false. assert (qc_voters ∅ qc = []) as ->; [|vm_compute; lia].
  unfold qc_voters. generalize (∅ : gset Address). induction (qc_signatures qc) as [|[a sig] sigs IH]; intros seen; [done|].
  cbn [valid_voters]. case_decide; [done|]. unfold verify_vote_signature. by rewrite lookup_empty.
Qed.

Lemma harmless_step env n t n' cmds ts :
  address_book n = ∅ → env_keys env = [] → harmless t → task_step cfg env n t = Done (n', cmds, ts) →
  address_book n' = ∅ ∧ Forall harmless ts ∧ (∀ msg, BroadcastConsensusMessage msg ∉ cmds) ∧
  core_state n' = core_state n.
Proof.
  intros Hbook Hkeys Ht Hstep. destruct t; try done; unfold_section.
  all: rewrite ?Hbook, ?Hkeys, ?no_valid_certificate in Hstep; unfold verify_batch_signature, verify_vote_signature in Hstep;
    rewrite ?lookup_empty in Hstep; cbn [determine_sub_committee lookup list_lookup] in Hstep;
    repeat (case_match || (destruct (log_hash _ _) as [[]| |]; cbn [mbind outcome_bind] in Hstep)); simplify_eq/=;
    split_and!; try done; try (by repeat constructor); intros m; set_solver.
Qed.

Lemma silent_step delivers may_run s s' : silent s → sys_step cfg delivers may_run s s' → silent s'.
Proof.
  intros [Hbook Hts Hsent Hproc Hconf] Hstep.
  destruct Hstep as [s msg source _|s payload|s env ready n d ts Henv Hd|s env l1 t l2 n cmds ts Henv Htask _ Hrun|s l1 t l2 Htask].
  - split; try done. apply Forall_app. by repeat constructor.
  - by split.
  - destruct (driver s) as [|r k|r k]; cbn [driver_step] in Hd.
    + destruct ready; [destruct (driver_decide _ _ _) as [o| |]; [|done..]|]; cbn [mbind outcome_bind] in Hd; simplify_eq;
        (split; rewrite ?app_nil_r; done).
    + simplify_eq. split; cbn; rewrite ?app_nil_r; done.
    + simplify_eq. split; try done. cbn [tasks]. rewrite !Forall_app. split_and!; [done| |by repeat constructor].
      by apply Forall_fmap, Forall_true.
  - rewrite Hbook, dom_empty_L, elements_empty in Henv. apply Permutation_nil_r in Henv.
    rewrite Htask in Hts. apply Forall_app in Hts as [Hl [Ht Hr]%Forall_cons].
    destruct (harmless_step _ _ _ _ _ _ Hbook Henv Ht Hrun) as (Hbook' & Hts' & Hcmds & Hcore).
    split; cbn [node tasks sent]; rewrite ?Hcore; try done; [by rewrite !Forall_app|].
    intros msg [?|?]%elem_of_app; [by eapply Hsent|by eapply Hcmds].
  - split; try done. rewrite Htask in Hts. apply Forall_app in Hts as [Hl [_ Hr]%Forall_cons]. by apply Forall_app.
Qed.

Lemma silent_run delivers may_run qc0 now s :
  rtc (sys_step cfg delivers may_run) (sys_new qc0 now ∅) s → silent s.
Proof.
  intros Hrun. assert (silent (sys_new qc0 now ∅)) as Hs by (split; try done; intros msg; set_solver).
  revert Hs. induction Hrun; eauto using silent_step.
Qed.
End silent.

Section bootstrapped.
Context `{!Crypto} `{!Profile} `{!Logging} `{!KeyCiphers} `{!KeystoreJson} `{!Net} `{!NetLaws} `{!P2pKeys}.
Context `{!GenesisJson} `{!GenesisJsonLaws} {C : Type} `{!Lru C}.
Context (parse_url : string → bool) (parse_address parse_key : string → option bytes).
Implicit Types (args : Args) (env : MainEnv).

Lemma prog_bind_ok {A B} (m : Prog A) (f : A → Prog B) fs fs' b :
  (m ≫= f) fs = (fs', Done (Ok b)) → ∃ fs1 a, m fs = (fs1, Done (Ok a)) ∧ f a fs1 = (fs', Done (Ok b)).
Proof. unfold mbind, prog_bind. destruct (m fs) as [fs1 [[a|e]| |]]; [by eauto|done..]. Qed.

Lemma from_look_ok {A} (f : Fs → outcome (result A NodeError)) fs fs' a :
  from_look f fs = (fs', Done (Ok a)) → fs' = fs ∧ f fs = Done (Ok a).
Proof. unfold from_look. by intros [= <- ->]. Qed.

Lemma from_outcome_ok {A} (o : outcome A) fs fs' a : from_outcome o fs = (fs', Done (Ok a)) → fs' = fs ∧ o = Done a.
Proof. intros [-> Ho]%from_look_ok. by destruct o; simplify_eq/=. Qed.

Lemma from_option_ok {A} e (o : option A) fs fs' a : from_option e o fs = (fs', Done (Ok a)) → fs' = fs ∧ o = Some a.
Proof. intros [-> Ho]%from_look_ok. by destruct o; simplify_eq/=. Qed.

Lemma from_fs_ok {A} (m : FsM NodeError A) fs fs' a : from_fs m fs = (fs', Done (Ok a)) → m fs = (fs', Ok a).
Proof. unfold from_fs. destruct (m fs). by intros [= -> ->]. Qed.

(** The keys of the accounts are as long as public keys are, since they were
    converted. *)
Lemma bootstrap_keys_long i vs keys :
  bootstrap_keys i vs = Done keys → Forall (λ k : bytes * bytes * string, length k.1.1 = PUBLIC_KEY_SIZE) keys.
Proof.
  revert i keys. induction vs as [|v vs IH]; intros i keys; cbn [bootstrap_keys]; [by intros [= <-]|].
  unfold public_key_bytes, exact_length. case_decide as Hlen; [|done]. cbn [mbind outcome_bind].
  destruct (bootstrap_keys (S i) vs) as [rest| |] eqn:Hrest; [|done..]. cbn [mbind outcome_bind].
  intros [= <-]. constructor; [done|]. by eapply IH.
Qed.

(** What a successful [--bootstrap] leaves in the file. *)
Lemma bootstrap_main_ok env fs fs' lines :
  bootstrap_main env fs = (fs', Done (Ok lines)) →
  ∃ time keys content, files fs' !! genesis_path = Some content ∧
    genesis_from_reader content = Some (bootstrap_genesis time (bootstrap_accounts keys)) ∧
    Forall (λ k : bytes * bytes * string, length k.1.1 = PUBLIC_KEY_SIZE) keys ∧ me_clock env = Some time.
Proof.
  unfold bootstrap_main. intros (? & keys & [-> Hkeys]%from_outcome_ok & Hrest)%prog_bind_ok.
  apply prog_bind_ok in Hrest as (? & time & [-> Htime]%from_option_ok & Hrest).
  apply prog_bind_ok in Hrest as (? & text & [-> Htext]%from_option_ok & Hrest).
  apply prog_bind_ok in Hrest as (fs1 & [] & Hw%from_fs_ok%fs_write_run & [-> _]%from_outcome_ok).
  destruct (genesis_roundtrip (bootstrap_genesis time (bootstrap_accounts keys))) as (text' & Heq & Hread).
  exists time, keys, (str_bytes text). rewrite Hw, lookup_insert_eq. split_and!; [done|congruence|by eapply bootstrap_keys_long|done].
Qed.

(** [--bootstrap] succeeds when the calls of the operating system do. *)
Lemma bootstrap_keys_run i vs :
  Forall (λ v, length (public_key (signing_keys (gv_keys v))) = PUBLIC_KEY_SIZE) vs → ∃ keys, bootstrap_keys i vs = Done keys.
Proof.
  intros Hvs. revert i. induction Hvs as [|v vs Hv _ IH]; intros i; cbn [bootstrap_keys]; [by eexists|].
  unfold public_key_bytes, exact_length. rewrite decide_True by done. cbn [mbind outcome_bind].
  destruct (IH (S i)) as [keys ->]. by eexists.
Qed.

Lemma print_keys_run i vs :
  Forall (λ v, length (public_key (signing_keys (gv_keys v))) = PUBLIC_KEY_SIZE ∧
               length (private_key (signing_keys (gv_keys v))) = PRIVATE_KEY_SIZE) vs → ∃ lines, print_keys i vs = Done lines.
Proof.
  intros Hvs. revert i. induction Hvs as [|v vs [Hpk Hsk] _ IH]; intros i; cbn [print_keys]; [by eexists|].
  unfold public_key_bytes, private_key_bytes, exact_length. rewrite !decide_True by done. cbn [mbind outcome_bind].
  destruct (IH (S i)) as [lines ->]. by eexists.
Qed.

Lemma bootstrap_main_run env fs :
  (∀ i, length (public_key (signing_keys (gv_keys (me_validators env i)))) = PUBLIC_KEY_SIZE ∧
        length (private_key (signing_keys (gv_keys (me_validators env i)))) = PRIVATE_KEY_SIZE) →
  is_Some (me_clock env) → me_create_genesis env = true → me_stop_genesis env = None →
  ∃ fs' lines, bootstrap_main env fs = (fs', Done (Ok lines)).
Proof.
  intros Hlen [time Ht] Hc Hstop. unfold bootstrap_main. cbv zeta.
  destruct (bootstrap_keys_run 0 (me_validators env <$> seq 0 NUM_VALIDATORS)) as [keys Hk].
  { apply Forall_fmap, Forall_true. intros i. apply Hlen. }
  destruct (print_keys_run 0 (me_validators env <$> seq 0 NUM_VALIDATORS)) as [lines Hl].
  { apply Forall_fmap, Forall_true. intros i. apply Hlen. }
  destruct (genesis_roundtrip (bootstrap_genesis time (bootstrap_accounts keys))) as (text & Htext & _).
  unfold mbind at 1, prog_bind at 1. rewrite Hk. cbn [from_outcome from_look fmap outcome_fmap].
  rewrite Ht. unfold mbind at 1, prog_bind at 1. cbn [from_option from_look].
  unfold mbind at 1, prog_bind at 1. rewrite Htext. cbn [from_option from_look].
  unfold mbind, prog_bind, from_fs, fs_write. rewrite Hc, Hstop. cbn [parent genesis_path components absolute length Nat.sub take].
  replace (is_dir (mkPath false []) fs) with true by done. cbn [andb write_all].
  rewrite Hl. by do 2 eexists.
Qed.

(** A node starts once its parts do. *)
Lemma run_node_run args env fs fs' content genesis wait keys ab address key settlement :
  files fs !! genesis_path = Some content → genesis_from_reader content = Some genesis → me_open_genesis env = true →
  start_wait (g_genesis_time genesis) (default 0 (me_clock env)) = Done wait →
  authority_start args env fs = (fs, Done (Ok (Some keys))) →
  update_from_genesis ∅ (me_order env (g_accounts genesis)) = Done ab → authority_address keys = Done address →
  p2p_keypair (me_key env) (path_of (db_path args)) (me_generated env) fs = (fs', Ok key) →
  (let '(l1_rpc_url, private_key, rollup_address) := settlement_config env in
   settlement_new parse_url parse_address parse_key l1_rpc_url private_key rollup_address) = Done settlement →
  ∃ node, run_node (C := C) parse_url parse_address parse_key args env fs = (fs', Done (Ok node)) ∧
    ns_engine node = Some (mkConfig address keys (g_parameters genesis), sys_new genesis_qc (me_instant env) ab).
Proof.
  intros Hfile Hread Hopen Hwait Hkeys Hab Haddr Hp2p Hset. unfold run_node, mbind, prog_bind.
  cbn [from_look]. unfold from_file, read. rewrite Hfile, Hopen, Hread. cbn [unwrap fmap outcome_fmap].
  rewrite Hwait. cbn [from_outcome from_look fmap outcome_fmap]. rewrite Hkeys, Hab. cbn [from_outcome from_look fmap outcome_fmap].
  unfold engine_start. rewrite Haddr. cbn [mbind outcome_bind from_outcome from_look fmap outcome_fmap].
  unfold from_fs. rewrite Hp2p. destruct (settlement_config env) as [[url pk] addr]. rewrite Hset.
  cbn [from_outcome from_look fmap outcome_fmap]. by eexists.
Qed.

(** C32. A bootstrapped network is silent.  Every validator that is started with the
    genesis that [--bootstrap] has written has an empty address book, since the
    accounts are filed under public keys and the book takes addresses; so whatever
    it is sent and however it is scheduled, it is never elected, never votes,
    never broadcasts anything and never confirms a batch. *)
Theorem bootstrapped_network_is_silent args args' env env' fs fs' fs'' lines node cfg s0 delivers may_run s :
  start_mode args = WriteGenesis →
  main (C := C) parse_url parse_address parse_key args env fs = (fs', Done (Ok (Printed lines))) →
  main parse_url parse_address parse_key args' env' fs' = (fs'', Done (Ok (Started node))) →
  (∀ m, me_order env' m ≡ₚ map_to_list m) →
  ns_engine node = Some (cfg, s0) → rtc (sys_step cfg delivers may_run) s0 s →
  ns_book node = ∅ ∧ (∀ msg, BroadcastConsensusMessage msg ∉ sent s) ∧
  optimistically_confirmed_batches (core_state (Consensus.node s)) = [].
Proof.
  intros Hmode Hboot Hrun Horder Hengine Hreach. unfold start_mode in Hmode. unfold main in *.
  destruct (get_peer_id_flag args), (bootstrap args); try done.
  apply prog_bind_ok in Hboot as (? & l & (time & keys & content & Hfile & Hread & Hlong & _)%bootstrap_main_ok & Hret).
  injection Hret as -> ->. destruct (get_peer_id_flag args').
  { by apply prog_bind_ok in Hrun as (? & ? & _ & ?). }
  destruct (bootstrap args'); [by apply prog_bind_ok in Hrun as (? & ? & _ & ?)|].
  apply prog_bind_ok in Hrun as (? & n & Hrun & Hret). injection Hret as -> ->. unfold run_node in Hrun.
  apply prog_bind_ok in Hrun as (? & genesis & [-> Hgenesis]%from_look_ok & Hrun).
  apply prog_bind_ok in Hrun as (? & wait & [-> _]%from_outcome_ok & Hrun).
  apply prog_bind_ok in Hrun as (? & vkeys & [-> _]%from_look_ok & Hrun).
  apply prog_bind_ok in Hrun as (? & ab & [-> Hbook]%from_outcome_ok & Hrun).
  apply prog_bind_ok in Hrun as (? & engine & [-> He]%from_outcome_ok & Hrun).
  apply prog_bind_ok in Hrun as (? & key & _ & Hrun). destruct (settlement_config env') as [[url pk] addr].
  apply prog_bind_ok in Hrun as (? & settlement & _ & Hret). injection Hret as _ <-. cbn [ns_engine ns_book] in *. subst engine.
  assert (genesis = bootstrap_genesis time (bootstrap_accounts keys)) as ->.
  { unfold from_file, read, fail in Hgenesis. rewrite Hfile in Hgenesis. destruct (me_open_genesis env'); [|done].
    rewrite Hread in Hgenesis. by injection Hgenesis. }
  rewrite (bootstrapped_book_is_empty keys) in Hbook; [|done|apply Horder]. injection Hbook as <-.
  unfold engine_start in He. destruct vkeys as [vkeys|]; [|done].
  destruct (authority_address vkeys) as [a| |]; [|done..]. cbn [mbind outcome_bind] in He. injection He as <- <-.
  apply silent_run in Hreach as []. done.
Qed.
End bootstrapped.

(** ** The network's start ([p2p/swarm.rs], [run] before its loop) *)
Inductive P2pError := SubscribeFailed | BadListenAddress | ListenFailed.

Record P2pStart := mkP2pStart {
  ps_swarm : Swarm;
  ps_actions : list Action;
  ps_threshold : nat;
  ps_listen : list Multiaddr;
}.

Section network.
Context `{!Net}.

(** libp2p's answers: the two subscriptions, the two calls of [listen_on].  A dial
    or a Kademlia bootstrap that fails is only logged. *)
Record ListenEnv := mkListenEnv { le_subscribe : bool; le_subscribe_fallback : bool; le_tcp : bool; le_quic : bool }.

Definition listen_addresses (p2p_port : N) : string * string :=
  ("/ip4/0.0.0.0/tcp/" +:+ pretty p2p_port, "/ip4/0.0.0.0/udp/" +:+ pretty p2p_port +:+ "/quic-v1")%string.

Definition p2p_start (env : ListenEnv) (bootstrap_nodes : list string) (p2p_port : N) (ab : AddressBook)
    : result P2pStart P2pError :=
  if negb (le_subscribe env && le_subscribe_fallback env) then Err SubscribeFailed
  else
    let dials := bootstrap_dials bootstrap_nodes in
    let threshold := required_peer_threshold ab in
    match parse_multiaddr (listen_addresses p2p_port).1 with
    | None => Err BadListenAddress
    | Some tcp =>
      if negb (le_tcp env) then Err ListenFailed
      else
        match parse_multiaddr (listen_addresses p2p_port).2 with
        | None => Err BadListenAddress
        | Some quic =>
          if le_quic env then Ok (mkP2pStart swarm_new dials threshold [tcp; quic]) else Err ListenFailed
        end
    end.

(** The network counts as ready with as many peers as make a quorum together with
    the node, and no fewer when there is more than one validator. *)
Lemma threshold_is_a_quorum env nodes port ab start :
  p2p_start env nodes port ab = Ok start →
  (required_quorum ab ≤ S (ps_threshold start))%nat ∧
  (2 ≤ size ab → S (ps_threshold start) = required_quorum ab)%nat.
Proof.
  intros Hs. assert (ps_threshold start = required_peer_threshold ab) as ->.
  { unfold p2p_start in Hs. repeat case_match; by simplify_eq. }
  unfold required_peer_threshold, get_all_peer_ids, required_quorum.
  rewrite length_fmap, length_map_to_list.
  pose proof (Nat.div_mod_eq (size ab * 2) 3). pose proof (Nat.mod_upper_bound (size ab * 2) 3).
  repeat case_decide; lia.
Qed.
End network.


(** ** Runs *)
Module MainRuns.
Import KeystoreRuns StartupRuns.
#[local] Instance debug : Profile := true.
#[local] Instance quiet_log : Logging := λ _, false.

(** A stand-in for serde_json on the genesis: its number in binary digits. *)
#[export] Instance params_eq_dec : EqDecision GenesisParameters.
Proof. solve_decision. Defined.
#[export] Instance account_eq_dec : EqDecision GenesisAccount.
Proof. solve_decision. Defined.
#[export] Instance genesis_eq_dec : EqDecision Genesis.
Proof. solve_decision. Defined.
#[export] Instance account_countable : Countable GenesisAccount.
Proof.
  refine (inj_countable' (λ a, (g_public_key a, g_vrf_public_key a, g_network_identity a))
    (λ '(k, v, i), mkAccount k v i) _). by intros [].
Defined.
#[export] Instance genesis_countable : Countable Genesis.
Proof.
  refine (inj_countable'
    (λ g, (g_genesis_time g, g_chain_id g, sub_committee_size (g_parameters g), proposer_timeout_ms (g_parameters g), g_accounts g))
    (λ '(t, c, k, m, a), mkGenesis t c (mkParams k m) a) _). by intros [? ? [] ?].
Defined.

#[export] Instance toy_genesis_json : GenesisJson := {|
  genesis_to_string_pretty := λ g, Some (bytes_str (bits (encode g)));
  genesis_from_reader := λ bs, decode (unbits bs);
|}.

#[export] Instance toy_genesis_json_laws : GenesisJsonLaws.
Proof.
  split. intros g. eexists. split; [done|]. cbn [genesis_from_reader toy_genesis_json].
  by rewrite String.list_byte_of_string_of_list_byte, unbits_bits, decode_encode.
Qed.

(** A reader of keystores that knows one. *)
#[local] Instance one_keystore : KeystoreJson := {|
  to_string_pretty := λ _, None;
  from_str := λ text, if decide (text = "keystore"%string) then Some stored else None;
|}.

Definition validator_file : Path := path_of "/home/validator.json".
Definition disk1 : Fs :=
  mkFs (<[validator_file := str_bytes "keystore"]> {[p2p_key_path data_dir := secret_bytes (key 5)]}) {[home; data_dir]}.

Definition bootstrap_args : Args := mkArgs true [] 50000 false false "sequencer_data" 9000 8080 8081 false None None None.
Definition validator_args : Args :=
  mkArgs false [] 50000 false false "./sequencer_data" 9000 8080 8081 true (Some "/home/validator.json"%string)
    (Some (to_hex vrf_key)) (Some "pw"%string).

Definition validator (i : nat) : GeneratedValidator :=
  mkGenerated (mkValidatorKeys (mkKeyPair public secret) vrf_key) (replicate 32 Byte.x05) (key (N.of_nat i)).
Definition main_env : MainEnv :=
  mkMainEnv all_ok (key 7) validator (Some 1000) 0 true true None true None map_to_list (λ _, None) 700.

Definition any_url (_ : string) : bool := true.
Definition any_address (_ : string) : option bytes := Some (replicate 20 Byte.x01).
Definition any_key (_ : string) : option bytes := Some (replicate 32 Byte.x02).

Abbreviation main_of args := (main (C := list bytes) any_url any_address any_key args main_env).

Definition validator_keys1 : ValidatorKeys := mkValidatorKeys (mkKeyPair public secret) vrf_key.

Lemma authority_on_disk1 :
  authority_validator_keys true (Some validator_file) (Some (to_hex vrf_key)) "pw" true disk1 = Done (Ok (Some validator_keys1)).
Proof. vm_compute. reflexivity. Qed.

(** Reading a keystore depends on its file only. *)
Lemma authority_frame is_auth path vrf pw ok fs fs' :
  (∀ p, path = Some p → files fs' !! p = files fs !! p) →
  authority_validator_keys is_auth path vrf pw ok fs' = authority_validator_keys is_auth path vrf pw ok fs.
Proof.
  intros Hp. unfold authority_validator_keys. destruct is_auth, path as [p|]; try done. specialize (Hp p eq_refl).
  assert ((from_path ok p fs').2 = (from_path ok p fs).2) as Hf; [|by cbn; rewrite Hf].
  unfold from_path, read_to_string, read, mbind, fsm_bind, fail. rewrite Hp.
  destruct (files fs !! p) as [content|], ok; try done. destruct (is_utf8 content); [|done].
  unfold mret, fsm_ret. by destruct (from_str _).
Qed.

(** The genesis is bootstrapped, and a validator is started with it. *)
Definition disk2 : Fs := (bootstrap_main main_env disk1).1.

Lemma bootstrap_writes : ∃ lines, bootstrap_main main_env disk1 = (disk2, Done (Ok lines)).
Proof.
  destruct (bootstrap_main_run main_env disk1) as (fs' & lines & Hrun); [done|by eexists|done|done|].
  exists lines. unfold disk2. by rewrite Hrun.
Qed.

Lemma bootstrap_prints : ∃ lines, main_of bootstrap_args disk1 = (disk2, Done (Ok (Printed lines))).
Proof.
  destruct bootstrap_writes as [lines Hrun]. exists lines. unfold main.
  cbn [get_peer_id_flag bootstrap bootstrap_args]. unfold mbind, prog_bind. by rewrite Hrun.
Qed.

Lemma disk2_other p : p ≠ genesis_path → files disk2 !! p = files disk1 !! p.
Proof. intros Hp. apply touches_bootstrap. by intros ->%list_elem_of_singleton. Qed.

Lemma disk2_book :
  ∃ content genesis, files disk2 !! genesis_path = Some content ∧ genesis_from_reader content = Some genesis ∧
    g_genesis_time genesis = 1000 ∧ g_parameters genesis = mkParams 6 1200 ∧
    update_from_genesis ∅ (map_to_list (g_accounts genesis)) = Done ∅.
Proof.
  destruct bootstrap_writes as [lines Hrun].
  destruct (bootstrap_main_ok _ _ _ _ Hrun) as (time & keys & content & Hfile & Hread & Hlong & Hclock).
  exists content, (bootstrap_genesis time (bootstrap_accounts keys)). split_and!; [done|done|by injection Hclock|done|].
  by apply (bootstrapped_book_is_empty keys).
Qed.
Opaque disk2.

Lemma validator_starts :
  ∃ node, main_of validator_args disk2 = (disk2, Done (Ok (Started node))) ∧
    ns_engine node = Some (mkConfig (public_key_to_address public) validator_keys1 (mkParams 6 1200), sys_new genesis_qc 0 ∅).
Proof.
  destruct disk2_book as (content & genesis & Hfile & Hread & Htime & Hparams & Hbook).
  assert (files disk2 !! validator_file = files disk1 !! validator_file) as Hks by (by apply disk2_other).
  assert (files disk2 !! p2p_key_path data_dir = Some (secret_bytes (key 5))) as Hkey by (by rewrite disk2_other).
  destruct (run_node_run (C := list bytes) any_url any_address any_key
    validator_args main_env disk2 disk2 content genesis 45 validator_keys1 ∅ (public_key_to_address public) (key 5)
    (mkSettlementEngine (replicate 32 Byte.x02) (replicate 20 Byte.x01))) as (node & Hrun & Hengine);
    [exact Hfile|exact Hread|reflexivity|by rewrite Htime| |exact Hbook| | |reflexivity|].
  - unfold authority_start, from_look. cbn [password arg_keystore_path arg_vrf_priv_key is_authority validator_args fmap option_fmap option_map].
    rewrite (authority_frame true _ _ "pw" _ disk1 disk2) by (intros p [= <-]; exact Hks).
    by rewrite <-authority_on_disk1.
  - unfold authority_address, public_key_bytes, exact_length. cbn [validator_keys1 signing_keys public_key].
    rewrite decide_True by reflexivity. reflexivity.
  - unfold p2p_keypair, exists_file. change (path_of (db_path validator_args)) with data_dir.
    rewrite bool_decide_true by eauto. unfold mbind, fsm_bind, read. by rewrite Hkey.
  - exists node. rewrite Hengine, Hparams. split; [|reflexivity]. unfold main.
    cbn [get_peer_id_flag bootstrap validator_args]. unfold mbind, prog_bind. by rewrite Hrun.
Qed.

Lemma bootstrapped_network_is_silent_witness :
  ∃ lines node cfg s0,
    main_of bootstrap_args disk1 = (disk2, Done (Ok (Printed lines))) ∧
    main_of validator_args disk2 = (disk2, Done (Ok (Started node))) ∧ ns_engine node = Some (cfg, s0) ∧
    ∀ s, rtc (sys_step cfg (λ _ _, True) (λ _ _, True)) s0 s →
      ns_book node = ∅ ∧ (∀ msg, BroadcastConsensusMessage msg ∉ sent s) ∧
      optimistically_confirmed_batches (core_state (Consensus.node s)) = [].
Proof.
  destruct bootstrap_prints as [lines Hboot]. destruct validator_starts as (node & Hstart & Hengine).
  exists lines, node. do 2 eexists. split; [exact Hboot|]. split; [exact Hstart|]. split; [exact Hengine|]. intros s Hs.
  refine (bootstrapped_network_is_silent (C := list bytes) any_url any_address any_key bootstrap_args validator_args main_env main_env disk1 disk2 disk2 lines
    node _ _ _ _ s _ Hboot Hstart _ Hengine Hs); [reflexivity|]. intros m. reflexivity.
Defined.
End MainRuns.
