(* ===== verification/Simulator.v ===== *)
(** * The bundle simulator ([zkapp/simulator/src/lib.rs], [alloy_db.rs])

    Transactions are run on a fork of the first layer: revm executes them on a
    cache above an RPC provider.  revm's cache and interpreter are the interface
    [Evm], the provider is [Rpc]; what the simulator adds, its bookkeeping over a
    bundle, is modelled. *)

From S2P Require Import Prelude Bytes SeqTypes P2pTypes Committee Consensus ToyCrypto.

(** A [U256] is a number, an [I256] an integer; [Bytecode] is its bytes. *)
Record AccountInfo := mkInfo { a_balance : N; a_nonce : N; a_code_hash : bytes; a_code : option bytes }.

Inductive TxKind := TxCall (to : Address) | TxCreate.

(** The fields of [TxEnv] the simulator sets; the others are defaults. *)
Record TxEnv := mkTx {
  tx_caller : Address;
  tx_kind : TxKind;
  tx_value : N;
  tx_data : bytes;
  tx_gas_limit : N;
  tx_gas_price : N;
  tx_nonce : N;
}.

Inductive Output := OutCall (bs : bytes) | OutCreate (bs : bytes) (addr : option Address).

Inductive ExecutionResult :=
| ExecSuccess (gas_used : N) (output : Output)
| ExecRevert (gas_used : N) (output : bytes)
| ExecHalt (gas_used : N) (reason : string).

Class Evm := {
  (** [CacheDB<AlloyDB>]; a read may fetch from the provider, and fail *)
  Db : Type;
  load_account : Address → Db → Db * option AccountInfo;
  insert_account_info : Address → AccountInfo → Db → Db;
  (** [transact_commit] and [transact] of a mainnet context *)
  transact_commit : TxEnv → Db → Db * option ExecutionResult;
  transact : TxEnv → Db → Db * option ExecutionResult;
  keccak_empty : bytes;
}.

(** What an inserted account reads as. *)
Class EvmLaws `{!Evm} := {
  load_inserted a info db : (load_account a (insert_account_info a info db)).2 = Some info;
  load_not_inserted a b info db :
    a ≠ b → (load_account b (insert_account_info a info db)).2 = (load_account b db).2;
}.

Inductive SimError :=
| DbError
| EvmError
| EvmErrorAt (index : nat)
| TxReverted
| TxHalted
| RevertedWith (output : bytes)
| HaltedWith (reason : string)
| EmptyBundle.

Record SimOutput := mkSimOutput { so_gas_used : N; so_eth_balance_change : Z }.

Record BundleOutput := mkBundleOutput {
  bo_total_gas_used : N;
  bo_victim_reverted : bool;
  bo_victim_revert_reason : option string;
  bo_attacker_profit : Z;
  bo_created_address : option Address;
  bo_created_code : option bytes;
}.

(** [I256::from_raw]: two's complement. *)
Definition U256 : N := 2 ^ 256.

Definition i256_from_raw (n : N) : Z :=
  if decide (n < 2 ^ 255) then Z.of_N n else (Z.of_N n - Z.of_N U256)%Z.

(** Subtraction of [I256]s: overflow panics in a debug build and wraps otherwise. *)
Definition i256_sub `{!Profile} (a b : Z) : outcome Z :=
  if decide (- 2 ^ 255 ≤ a - b < 2 ^ 255)%Z then Done (a - b)%Z
  else if overflow_checks then Panicked
  else Done ((a - b + 2 ^ 255) mod 2 ^ 256 - 2 ^ 255)%Z.

(** ** The provider ([alloy_db.rs]) *)
Class Rpc := {
  rpc_get_balance : Address → option N;
  rpc_get_transaction_count : Address → option N;
  rpc_get_code_at : Address → option bytes;
  rpc_get_storage_at : Address → N → option N;
  hash_slow : bytes → bytes;
}.

Section alloy_db.
Context `{!Rpc} (KECCAK_EMPTY : bytes).

Definition basic_ref (address : Address) : result (option AccountInfo) SimError :=
  match rpc_get_balance address with
  | None => Err DbError
  | Some balance =>
    match rpc_get_transaction_count address with
    | None => Err DbError
    | Some nonce =>
      match rpc_get_code_at address with
      | None => Err DbError
      | Some code_bytes =>
          let '(code, code_hash) :=
            match code_bytes with
            | [] => (None, KECCAK_EMPTY)
            | _ => (Some code_bytes, hash_slow code_bytes)
            end in
          Ok (Some (mkInfo balance nonce code_hash code))
      end
    end
  end.

Definition code_by_hash_ref (_ : bytes) : result bytes SimError := Ok [].

Definition storage_ref (address : Address) (index : N) : result N SimError :=
  match rpc_get_storage_at address index with
  | Some value => Ok value
  | None => Err DbError
  end.

Definition block_hash_ref (_ : N) : result bytes SimError := Ok (replicate 32 Byte.x00).

(** An account has code exactly when its hash is not the empty one, provided the
    hash of no code is that of the empty code. *)
Lemma basic_ref_code address info :
  (∀ bs, bs ≠ [] → hash_slow bs ≠ KECCAK_EMPTY) → basic_ref address = Ok (Some info) →
  (a_code info = None ↔ a_code_hash info = KECCAK_EMPTY).
Proof.
  intros Hhash. unfold basic_ref. destruct (rpc_get_balance address); [|done].
  destruct (rpc_get_transaction_count address); [|done]. destruct (rpc_get_code_at address) as [[|b bs]|]; [..|done];
    intros [= <-]; simpl; [done|]. split; [done|]. intros Heq. by destruct (Hhash (b :: bs)).
Qed.
End alloy_db.

(** ** The simulator *)
Section simulator.
Context `{!Evm} `{!Net} `{!Profile}.
Implicit Types (db : Db).

(** A failure of the provider panics here. *)
Definition set_code (address : Address) (code : bytes) db : outcome Db :=
  let '(db, acc) := load_account address db in
  info ← unwrap acc;
  Done (insert_account_info address (mkInfo (a_balance info) (a_nonce info) (a_code_hash info) (Some code)) db).

Definition set_balance (address : Address) (amount_wei : N) db : Db :=
  let '(db, acc) := load_account address db in
  let info := default (mkInfo amount_wei 0 keccak_empty None) acc in
  insert_account_info address (mkInfo amount_wei (a_nonce info) (a_code_hash info) (a_code info)) db.

Definition get_nonce (address : Address) db : Db * result N SimError :=
  let '(db, acc) := load_account address db in
  (db, match acc with Some info => Ok (a_nonce info) | None => Err DbError end).

Definition get_balance (address : Address) db : Db * result N SimError :=
  let '(db, acc) := load_account address db in
  (db, match acc with Some info => Ok (a_balance info) | None => Err DbError end).

Definition simulate_tx (from to : Address) (value : N) (input : bytes) db
    : outcome (Db * result SimOutput SimError) :=
  match get_balance from db with
  | (db, Err e) => Done (db, Err e)
  | (db, Ok pre_balance) =>
    match get_nonce from db with
    | (db, Err e) => Done (db, Err e)
    | (db, Ok nonce) =>
      match transact_commit (mkTx from (TxCall to) value input 500000 20000000000 nonce) db with
      | (db, None) => Done (db, Err EvmError)
      | (db, Some (ExecSuccess gas_used _)) =>
          match get_balance from db with
          | (db, Err e) => Done (db, Err e)
          | (db, Ok post_balance) =>
              diff ← i256_sub (i256_from_raw post_balance) (i256_from_raw pre_balance);
              Done (db, Ok (mkSimOutput gas_used diff))
          end
      | (db, Some (ExecRevert _ _)) => Done (db, Err TxReverted)
      | (db, Some (ExecHalt _ _)) => Done (db, Err TxHalted)
      end
    end
  end.

Definition call_raw (tx : TxEnv) db : Db * result bytes SimError :=
  let '(db, r) := transact tx db in
  (db, match r with
       | None => Err EvmError
       | Some (ExecSuccess _ (OutCall bs)) | Some (ExecSuccess _ (OutCreate bs _)) => Ok bs
       | Some (ExecRevert _ output) => Err (RevertedWith output)
       | Some (ExecHalt _ reason) => Err (HaltedWith reason)
       end).

(** The variables of the bundle's loop. *)
Record Tally := mkTally {
  t_total_gas : N;
  t_victim_reverted : bool;
  t_revert_reason : option string;
  t_created_address : option Address;
  t_created_code : option bytes;
}.

Definition mark_victim (i : nat) (reason : string) (t : Tally) : Tally :=
  if decide (i = 1%nat)
  then mkTally (t_total_gas t) true (Some reason) (t_created_address t) (t_created_code t) else t.

(** After a successful call the callee is loaded for a warning. *)
Definition warn_load (tx : TxEnv) db : Db :=
  match tx_kind tx with
  | TxCall to_addr => (load_account to_addr db).1
  | TxCreate => db
  end.

Definition tally_step (i : nat) (tx : TxEnv) (r : ExecutionResult) (t : Tally) db : outcome (Db * Tally) :=
  match r with
  | ExecSuccess gas_used output =>
      total_gas ← u64_add (t_total_gas t) gas_used;
      let t := mkTally total_gas (t_victim_reverted t) (t_revert_reason t) (t_created_address t) (t_created_code t) in
      let t := match output with
               | OutCreate bs (Some a) =>
                   mkTally (t_total_gas t) (t_victim_reverted t) (t_revert_reason t) (Some a) (Some bs)
               | _ => t
               end in
      Done (warn_load tx db, t)
  | ExecRevert _ output => Done (db, mark_victim i ("Reverted hex: " +:+ hex_encode output) t)
  | ExecHalt _ reason => Done (db, mark_victim i ("Halted: " +:+ reason) t)
  end.

Fixpoint tx_loop (i : nat) (txs : list TxEnv) (t : Tally) db : outcome (Db * result Tally SimError) :=
  match txs with
  | [] => Done (db, Ok t)
  | tx :: txs =>
    match transact_commit tx db with
    | (db, None) => Done (db, Err (EvmErrorAt i))
    | (db, Some r) => '(db, t) ← tally_step i tx r t db; tx_loop (S i) txs t db
    end
  end.

Definition simulate_bundle (txs : list TxEnv) db : outcome (Db * result BundleOutput SimError) :=
  match txs with
  | [] => Done (db, Err EmptyBundle)
  | tx0 :: _ =>
    let attacker_address := tx_caller tx0 in
    match get_balance attacker_address db with
    | (db, Err e) => Done (db, Err e)
    | (db, Ok pre_balance) =>
      '(db, tally) ← tx_loop 0 txs (mkTally 0 false None None None) db;
      match tally with
      | Err e => Done (db, Err e)
      | Ok t =>
        match get_balance attacker_address db with
        | (db, Err e) => Done (db, Err e)
        | (db, Ok post_balance) =>
            diff ← i256_sub (i256_from_raw post_balance) (i256_from_raw pre_balance);
            Done (db, Ok (mkBundleOutput (t_total_gas t) (t_victim_reverted t) (t_revert_reason t) diff
                            (t_created_address t) (t_created_code t)))
        end
      end
    end
  end.

Definition simulate_view_call (caller to : Address) (calldata : bytes) db : Db * result (bytes * N) SimError :=
  let '(db, r) := transact (mkTx caller (TxCall to) 0 calldata 1000000 1 0) db in
  (db, match r with
       | None => Err EvmError
       | Some (ExecSuccess gas_used (OutCall bs)) | Some (ExecSuccess gas_used (OutCreate bs _)) => Ok (bs, gas_used)
       | Some (ExecRevert _ output) => Err (RevertedWith output)
       | Some (ExecHalt _ reason) => Err (HaltedWith reason)
       end).

(** ** The reference: the transactions committed one after the other *)
Inductive committed : list TxEnv → Db → list ExecutionResult → Db → Prop :=
| committed_nil db : committed [] db [] db
| committed_cons tx txs db db1 r rs db2 :
    transact_commit tx db = (db1, Some r) →
    committed txs (match r with ExecSuccess _ _ => warn_load tx db1 | _ => db1 end) rs db2 →
    committed (tx :: txs) db (r :: rs) db2.

Definition gas_of (r : ExecutionResult) : N :=
  match r with
  | ExecSuccess gas_used _ => gas_used
  | _ => 0
  end.

Definition failed (r : ExecutionResult) : bool :=
  match r with
  | ExecSuccess _ _ => false
  | _ => true
  end.

Definition created (r : ExecutionResult) : option (Address * bytes) :=
  match r with
  | ExecSuccess _ (OutCreate bs (Some a)) => Some (a, bs)
  | _ => None
  end.

(** What the loop has counted after the results [rs], of which the first has
    index [i]. *)
Definition tallies (i : nat) (rs : list ExecutionResult) (t t' : Tally) : Prop :=
  t_total_gas t' = t_total_gas t + sum_N (gas_of <$> rs) ∧
  t_victim_reverted t' = t_victim_reverted t || (bool_decide (i ≤ 1)%nat && default false (failed <$> rs !! (1 - i)%nat)) ∧
  (t_created_address t', t_created_code t') =
    match last (omap created rs) with
    | Some (a, bs) => (Some a, Some bs)
    | None => (t_created_address t, t_created_code t)
    end.

Lemma tally_step_run i tx r t db :
  t_total_gas t + gas_of r < U64 →
  ∃ t', tally_step i tx r t db = Done (match r with ExecSuccess _ _ => warn_load tx db | _ => db end, t') ∧
    tallies i [r] t t'.
Proof.
  intros Hgas. unfold tallies.
  assert (∀ b : bool, bool_decide (i ≤ 1)%nat && default false (failed <$> [r] !! (1 - i)%nat) = b ↔
    bool_decide (i = 1%nat) && failed r = b) as Hidx.
  { intros b. destruct i as [|[|i]]; simpl; [by destruct r|by destruct r|done]. }
  destruct r as [g out|g out|g reason]; cbn [tally_step gas_of] in *.
  - rewrite u64_add_ok by done. cbn [mbind outcome_bind]. eexists. split; [done|].
    rewrite (proj2 (Hidx false)) by apply andb_false_r. rewrite orb_false_r. csimpl.
    destruct out as [bs|bs [a|]]; csimpl; rewrite N.add_0_r; done.
  - eexists. split; [done|]. unfold mark_victim. destruct i as [|[|i]]; csimpl; rewrite N.add_0_r, ?orb_false_r, ?orb_true_r; done.
  - eexists. split; [done|]. unfold mark_victim. destruct i as [|[|i]]; csimpl; rewrite N.add_0_r, ?orb_false_r, ?orb_true_r; done.
Qed.

Lemma tallies_cons i r rs t t1 t2 : tallies i [r] t t1 → tallies (S i) rs t1 t2 → tallies i (r :: rs) t t2.
Proof.
  intros (Hg1 & Hv1 & Hc1) (Hg2 & Hv2 & Hc2). unfold tallies. split_and!.
  - rewrite Hg2, Hg1. csimpl. lia.
  - rewrite Hv2, Hv1, <-orb_assoc. f_equal. destruct i as [|[|i]]; simpl; [|by rewrite orb_false_r|done].
    by destruct rs.
  - rewrite Hc2. csimpl. csimpl in Hc1. destruct (created r) as [[a bs]|]; csimpl in *.
    + destruct (omap created rs) as [|x l] eqn:Hl; [done|]. rewrite last_cons_cons.
      destruct (last (x :: l)) as [[? ?]|] eqn:Hlast; [done|]. by apply last_None in Hlast.
    + by destruct (last (omap created rs)) as [[? ?]|].
Qed.

Lemma tx_loop_run i txs rs t db db' :
  committed txs db rs db' → t_total_gas t + sum_N (gas_of <$> rs) < U64 →
  ∃ t', tx_loop i txs t db = Done (db', Ok t') ∧ tallies i rs t t'.
Proof.
  intros Hc. revert i t. induction Hc as [db|tx txs db db1 r rs db2 Htx _ IH]; intros i t Hgas; cbn [tx_loop].
  - exists t. split; [done|]. unfold tallies. csimpl. by rewrite N.add_0_r, andb_false_r, orb_false_r.
  - rewrite Htx. csimpl in Hgas. destruct (tally_step_run i tx r t db1) as (t1 & -> & Ht1); [lia|].
    cbn [mbind outcome_bind]. destruct (IH (S i) t1) as (t2 & -> & Ht2).
    { destruct Ht1 as (-> & _). csimpl. lia. }
    exists t2. split; [done|]. by eapply tallies_cons.
Qed.

(** A transaction that cannot be executed. *)
Lemma tx_loop_error i txs tx rest rs t db db1 db2 :
  committed txs db rs db1 → transact_commit tx db1 = (db2, None) → t_total_gas t + sum_N (gas_of <$> rs) < U64 →
  tx_loop i (txs ++ tx :: rest) t db = Done (db2, Err (EvmErrorAt (i + length txs))).
Proof.
  intros Hc. revert i t. induction Hc as [db|tx0 txs db db0 r rs db3 Htx _ IH]; intros i t Herr Hgas; cbn [tx_loop app].
  - rewrite Herr. by rewrite Nat.add_0_r.
  - rewrite Htx. csimpl in Hgas. destruct (tally_step_run i tx0 r t db0) as (t1 & -> & Ht1); [lia|].
    cbn [mbind outcome_bind]. rewrite IH; [simpl; by rewrite Nat.add_succ_r|done|].
    destruct Ht1 as (-> & _). csimpl. lia.
Qed.

(** C40. What a bundle's report says.  When every transaction executes, the state
    is that of committing them one after the other; the gas is the sum over the
    successful ones; the victim is reported as reverted exactly when the second
    transaction reverted or halted; the created contract is the last one; the
    profit is the change of the first sender's balance. *)
Theorem bundle_report_is_exact tx0 txs db db1 pre rs db2 post db3 :
  load_account (tx_caller tx0) db = (db1, Some pre) → committed (tx0 :: txs) db1 rs db2 →
  load_account (tx_caller tx0) db2 = (db3, Some post) →
  sum_N (gas_of <$> rs) < U64 → a_balance pre < 2 ^ 255 → a_balance post < 2 ^ 255 →
  ∃ out, simulate_bundle (tx0 :: txs) db = Done (db3, Ok out) ∧
    bo_total_gas_used out = sum_N (gas_of <$> rs) ∧
    bo_victim_reverted out = default false (failed <$> rs !! 1%nat) ∧
    bo_attacker_profit out = (Z.of_N (a_balance post) - Z.of_N (a_balance pre))%Z ∧
    bo_created_address out = fst <$> last (omap created rs).
Proof.
  intros Hpre Hc Hpost Hgas Hb1 Hb2. unfold simulate_bundle, get_balance. rewrite Hpre.
  destruct (tx_loop_run 0 _ _ (mkTally 0 false None None None) _ _ Hc Hgas) as (t & -> & Hg & Hv & Hcr).
  cbn [mbind outcome_bind]. rewrite Hpost. unfold i256_from_raw, i256_sub. rewrite !(decide_True (P := _ < 2 ^ 255)) by done.
  rewrite decide_True by lia. cbn [mbind outcome_bind]. eexists. split; [done|].
  cbn [bo_total_gas_used bo_victim_reverted bo_attacker_profit bo_created_address].
  split_and!; [done|by rewrite Hv|done|]. apply (f_equal fst) in Hcr. simpl in Hcr. rewrite Hcr.
  by destruct (last (omap created rs)) as [[? ?]|].
Qed.

(** A bundle is not atomic: when a transaction cannot be executed, the call fails
    with its index and the state keeps the effects of the earlier ones. *)
Theorem failed_bundle_keeps_its_prefix tx0 txs tx rest rs db db1 pre db2 db3 :
  load_account (tx_caller tx0) db = (db1, Some pre) → committed (tx0 :: txs) db1 rs db2 →
  transact_commit tx db2 = (db3, None) → sum_N (gas_of <$> rs) < U64 →
  simulate_bundle (tx0 :: txs ++ tx :: rest) db = Done (db3, Err (EvmErrorAt (S (length txs)))).
Proof.
  intros Hpre Hc Herr Hgas. unfold simulate_bundle, get_balance. rewrite Hpre.
  change (tx0 :: txs ++ tx :: rest) with ((tx0 :: txs) ++ tx :: rest).
  rewrite (tx_loop_error 0 (tx0 :: txs) tx rest rs (mkTally 0 false None None None) db1 db2 db3 Hc Herr Hgas). done.
Qed.
End simulator.

Section state.
Context `{!Evm} `{!EvmLaws}.
Implicit Types (db : Db).

(** What is set can be read, and setting one account leaves the others' balances
    as they are. *)
Lemma get_set_balance address amount db :
  (get_balance address (set_balance address amount db)).2 = Ok amount.
Proof.
  unfold get_balance, set_balance. destruct (load_account address db) as [db1 acc].
  pose proof (load_inserted address (mkInfo amount (a_nonce (default (mkInfo amount 0 keccak_empty None) acc))
    (a_code_hash (default (mkInfo amount 0 keccak_empty None) acc))
    (a_code (default (mkInfo amount 0 keccak_empty None) acc))) db1) as Hl.
  destruct (load_account address (insert_account_info _ _ _)) as [db2 acc2]. simpl in Hl |- *. by rewrite Hl.
Qed.
End state.

(** ** Runs *)
Module SimRuns.
#[local] Instance debug : Profile := true.

(** Accounts with balances, and transactions that move their value and take the
    gas price as gas; one that moves more than there is reverts, and one without
    gas cannot be executed. *)
Definition toy_account (db : gmap Address AccountInfo) (a : Address) : AccountInfo :=
  default (mkInfo 0 0 [] None) (db !! a).

Definition toy_transact (tx : TxEnv) (db : gmap Address AccountInfo) : gmap Address AccountInfo * option ExecutionResult :=
  let from := toy_account db (tx_caller tx) in
  if decide (tx_gas_limit tx = 0) then (db, None)
  else if decide (tx_value tx ≤ a_balance from) then
    let db := <[tx_caller tx := mkInfo (a_balance from - tx_value tx) (a_nonce from + 1) [] None]> db in
    let db := match tx_kind tx with
              | TxCall to => let acc := toy_account db to in
                  <[to := mkInfo (a_balance acc + tx_value tx) (a_nonce acc) [] None]> db
              | TxCreate => db
              end in
    (db, Some (ExecSuccess 21000 (match tx_kind tx with TxCall _ => OutCall [] | TxCreate => OutCreate (tx_data tx) (Some (tx_data tx)) end)))
  else (db, Some (ExecRevert 21000 [])).

#[export] Instance toy_evm : Evm := {|
  Db := gmap Address AccountInfo;
  load_account := λ a db, (db, Some (toy_account db a));
  insert_account_info := λ a info db, <[a := info]> db;
  transact_commit := toy_transact;
  transact := λ tx db, (db, (toy_transact tx db).2);
  keccak_empty := [];
|}.

#[export] Instance toy_evm_laws : EvmLaws.
Proof.
  split; cbn [load_account insert_account_info toy_evm]; unfold toy_account; intros.
  - by rewrite lookup_insert_eq.
  - by rewrite lookup_insert_ne.
Qed.

Definition attacker : Address := [Byte.x0a].
Definition victim : Address := [Byte.x0b].

Definition start_db : @Db toy_evm := <[attacker := mkInfo 100 0 [] None]> (∅ : gmap Address AccountInfo).

(** The attacker pays 30 to the victim; the victim tries to pay more than it has;
    the attacker deploys a contract. *)
Definition first : TxEnv := mkTx attacker (TxCall victim) 30 [] 21000 1 0.
Definition rest : list TxEnv :=
  [mkTx victim (TxCall attacker) 50 [] 21000 1 0; mkTx attacker TxCreate 0 [Byte.x0c] 21000 1 1].

Definition results : list ExecutionResult :=
  [ExecSuccess 21000 (OutCall []); ExecRevert 21000 []; ExecSuccess 21000 (OutCreate [Byte.x0c] (Some [Byte.x0c]))].

Definition after : @Db toy_evm :=
  foldl (λ db tx, (toy_transact tx db).1) (start_db : gmap Address AccountInfo) (first :: rest).

Lemma bundle_committed : committed (first :: rest) start_db results after.
Proof. repeat (eapply committed_cons; [reflexivity|]). apply committed_nil. Qed.

Lemma bundle_report_is_exact_witness :
  (∃ out, simulate_bundle (first :: rest) start_db = Done (after, Ok out) ∧
    bo_total_gas_used out = sum_N (gas_of <$> results) ∧
    bo_victim_reverted out = default false (failed <$> results !! 1%nat) ∧
    bo_attacker_profit out =
      (Z.of_N (a_balance (toy_account after attacker)) - Z.of_N (a_balance (toy_account start_db attacker)))%Z ∧
    bo_created_address out = fst <$> last (omap created results)) ∧
  sum_N (gas_of <$> results) = 42000 ∧ a_balance (toy_account after attacker) = 70.
Proof.
  split; [|split; reflexivity].
  apply (bundle_report_is_exact first rest start_db start_db (toy_account start_db attacker) results
    after (toy_account after attacker) after); [reflexivity|apply bundle_committed|reflexivity|reflexivity|reflexivity|reflexivity].
Defined.
End SimRuns.
